(* ===== verification/_CoqProject ===== *)
-Q . S2P
Prelude.v
GoLib.v
Float.v
FloatError.v
Model.v
Storage.v
Redis.v
RedisMem.v
Keys.v
Scripts.v
Json.v
Base64.v
TimeText.v
JsonStruct.v
Flags.v
Codec.v
JsonCodec.v
Store.v
QueueView.v
QueueSpec.v
QueueInv.v
ScriptSpecs.v
StoreRefine.v
Requests.v
QueueProps.v
History.v
StoreTheorems.v
TaskLifecycle.v
Rank.v
QueueTheorems.v
MoveTheorems.v
DeadLetters.v
Backoff.v
Jitter.v
HandlerMux.v
Client.v
TaskStore.v
Server.v
ServerTheorems.v
Maintenance.v
Leases.v
Dispatch.v
Drain.v
Lifecycle.v
Release.v
Heap.v
Timer.v
TimerTheorems.v
Bucket.v
LuaDec.v
BucketTheorems.v
RateLimit.v
Facade.v
Examples.v
ExampleTheorems.v
Commands.v
