(* ===== verification/Prelude.v ===== *)
(** * Go-TaskEngine: a verification development

    Go-TaskEngine is a Redis-backed task queue written in Go: clients create durable
    tasks, a server claims and runs them with retries, leases and a dead-letter archive.
    This library models the program and proves what makes it correct.

    ** The program's parts and the files that model them

    - The task envelope and its validation ([model/model.go]): [Model].
    - The storage contract and its error values ([storage/storage.go]): [Storage]
      (errors), [TaskStore] (the two interfaces, as classes with the Redis store as an
      implementation).
    - The Redis store ([internal/redisstore/rdb.go]): [Keys] (key layout, rank members),
      [Scripts] (every Lua script, command by command), [Store] (every Go method).
      [Codec] is the codec of the envelope as an interface with its round-trip law;
      [JsonCodec] is [encoding/json] on the envelope's struct tags and satisfies it, on
      top of [Json] (text, strings and syntax trees), [Base64], [TimeText] (the calendar
      and RFC 3339) and [JsonStruct] (how values are stored into structs).
    - The client ([client/client.go]): [Client]; the objects [client.NewClient] and
      [redisstore.New] make, their accessors, and the names that the packages
      [redisstore], [limiter] and [internal/model] give to definitions of other packages:
      [Facade].
    - The server ([server/server.go], [handler_mux.go], [metrics.go]): [Backoff] (retry
      delays, with their jitter in binary64), [HandlerMux] (routing and metrics), [Server] (configuration, worker,
      one pass of each loop), [Lifecycle] (starting, stopping, hand-over of jobs).
    - The local timer ([internal/timer/timer.go]): [Heap] (the binary heap of
      [container/heap] over the operations of its interface as a class), [Timer].
    - The rate limiter ([limiter/limiter.go], [internal/limiter/bucket.go]): the contract
      the server uses is the record [Limiter] of [Server]; [Bucket] is the token bucket,
      its script in the doubles of Lua and its Go methods; [LuaDec] a rendering of numbers
      that satisfies what the bucket relies on.
    - The example programs ([examples/]): [Flags] (the [flag] package and the numbers and
      durations it parses), [Examples] (configuration, the two handlers, the producers and
      the set-up of the workers), [Commands] (the producers and workers as programs: what
      they log, the server a worker runs, the exit code).

    [Prelude] holds shared tactics and lemmas, [GoLib] what the code uses of Go and its
    standard library: int64 wrap-around, [strconv], times and durations as nanoseconds,
    error values with wrapping, hexadecimal encoding and the rounding of integers to
    binary64. [Float] is binary64 on the Standard Library's executable floats, with the
    theory of its roundings; [FloatError] bounds the error of a product and a quotient.

    ** What stands for code outside the repository

    - The Redis server is the class [Redis] of [Redis]: a state, an [exec] function for
      the commands the program uses, and laws that state their documented behaviour on
      the visible keyspace and how numbers are read. [RedisMem] is a server that
      satisfies the laws and on which everything can be evaluated. A script runs its
      commands without interleaving; an error keeps the writes made before it.
    - The network is a list of events in [Store]: a command is answered, is not
      delivered, or is executed with its answer lost.
    - How Lua and the Redis client render numbers is the class [LuaNumbers] of [Bucket];
      the texts of [encoding/json]'s errors are the class [JsonErrors].
    - Clock readings, random draws and the iteration order of Go maps are arguments.
    - Handlers are arbitrary functions from contexts and messages to messages and errors.

    ** The abstract queue and the refinement

    [QueueSpec] says what a queue promises: a map from ids to tasks, each in one of six
    statuses, and one function per operation. [QueueView] gives a typed view of the keys
    of one queue and a weakest-precondition calculus for scripts; [QueueInv] the storage
    invariant that ties the view to the abstract queue; [ScriptSpecs] proves each script
    against its operation, [StoreRefine] each Go method, under every network behaviour.
    [Requests] and [History] put the requests of any number of clients on any number of
    queues in sequence, [QueueProps] proves what holds of every sequence.

    ** What the theorems show

    - [StoreTheorems]: the store refines the abstract queues, which do not influence one
      another; every task is in exactly the indices its state says.
    - [TaskLifecycle]: the state machine, finality of completion, no lost tasks, fencing
      of stale attempts, at most one end per attempt, the settlement methods on every
      branch.
    - [QueueTheorems], [Rank], [MoveTheorems], [DeadLetters]: creation, claiming in order
      of priority and age, reading, round trips, due tasks, leases, dead letters, counts.
    - [ServerTheorems], [Maintenance], [Dispatch], [Lifecycle]: what a worker, a recovery
      pass, a heartbeat and a dispatcher turn do to tasks, the bound on retries, and the
      life of a server from start to shutdown. [Release]: on the Redis store, what becomes
      in the database of every task a server claimed, also when a call fails or the context
      is cancelled (which the network events stand for), and what [Shutdown] guarantees. [Leases] puts the heartbeats of one
      server, the recovery passes of any servers and the requests of any clients in
      sequence: a running attempt whose lease is renewed in time keeps its task. [Drain]
      composes dispatcher, store, worker and recovery, with workers that die in the middle
      of an attempt: a served queue drains, every task ends completed or archived.
    - [TimerTheorems]: callbacks run once, in time, in order, and no wake-up is lost.
    - [Backoff], [Jitter], [Client], [HandlerMux]: the delay formula, its jitter within the
      cap, valid messages, routing.
    - [JsonCodec]: which messages JSON represents, and that they are read back.
    - [BucketTheorems]: what one acquisition does, and that tokens stay in bounds.
      [RateLimit]: in every stretch of time the bucket grants at most its capacity and what
      the rate refills, up to the rounding of the script's doubles.
    - [ExampleTheorems]: command lines give exactly the valid configurations, handlers do
      what the command line says, and errors are classified as they should be.
      [Commands]: a worker that exits with 0 has stopped, and settled, given back or
      logged an error about every task it claimed.

    ** Bounds

    Recursion is structural on lists; the doubling loop of the backoff runs on the retry
    count and is shown to be finished after 63 iterations; the loops of the event heap
    carry the number of elements as fuel and are shown to establish the heap order with it;
    the JSON parser carries the length of the text, and reads back everything that is
    printed; [ParseDuration] carries the length of its text, which is shown to suffice;
    a stopping server, the run loop of the timer and a queue that drains take a number of
    steps that is bounded in their theorems. Leases need a heartbeat interval at least a
    millisecond below the lease ([margin_needed] shows why). Queue theorems assume queue
    names without a closing brace ([plain_queue]; without it keys collide, see
    [TaskKey_collision]) and an arrival counter below the int64 limit; the order of
    claims assumes at most 2^53 arrivals, beyond which Lua numbers round.

    ** What is not modelled

    A panic of a handler ends the process, as nothing recovers it: what the other servers
    then see is the event [Crash] of [Drain], the end of the process itself is not
    modelled. Also left out are the rendering of operands in some error texts, the
    difference between a nil and an empty payload (both are written as [null]), times
    outside UTC (a time is its instant), the sharing of payload slices that [NewTask] and
    [Payload] copy, the time stamps of log lines, and tests, benchmarks and deployment
    files. *)

From stdpp Require Export base option list strings gmap sorting.
From Stdlib Require Export ZArith Lia.

Set Default Goal Selector "!".

Declare Scope gte_scope.
Delimit Scope gte_scope with gte.
#[global] Open Scope string_scope.
#[global] Open Scope list_scope.
#[global] Open Scope Z_scope.

(** The automation of the development: [gte] holds the lemmas that close the
    routine side conditions (key distinctness, membership, bounds). *)
Create HintDb gte discriminated.

(** Case analysis on an innermost [match] of the goal or a hypothesis. *)
Ltac break_match :=
  match goal with
  | |- context [match ?x with _ => _ end] =>
      lazymatch x with
      | context [match _ with _ => _ end] => fail
      | _ => destruct x eqn:?
      end
  | H : context [match ?x with _ => _ end] |- _ =>
      lazymatch x with
      | context [match _ with _ => _ end] => fail
      | _ => destruct x eqn:?
      end
  end.

(** Linear arithmetic with quotients and remainders, over [Z] and after translation to [Z]. *)
Ltac zdiv_lia := Z.to_euclidean_division_equations; lia.
Ltac div_lia := zify; Z.to_euclidean_division_equations; lia.

(** Turn boolean comparisons in the context and the goal into propositions. *)
Ltac bool_to_prop :=
  repeat match goal with
  | H : (_ <? _)%Z = true |- _ => apply Z.ltb_lt in H
  | H : (_ <? _)%Z = false |- _ => apply Z.ltb_ge in H
  | H : (_ <=? _)%Z = true |- _ => apply Z.leb_le in H
  | H : (_ <=? _)%Z = false |- _ => apply Z.leb_gt in H
  | H : (_ =? _)%Z = true |- _ => apply Z.eqb_eq in H
  | H : (_ =? _)%Z = false |- _ => apply Z.eqb_neq in H
  | H : (_ >? _)%Z = _ |- _ => rewrite Z.gtb_ltb in H
  | H : (_ >=? _)%Z = _ |- _ => rewrite Z.geb_leb in H
  | H : (_ && _)%bool = true |- _ => apply andb_prop in H as [? ?]
  | H : (_ || _)%bool = false |- _ => apply orb_false_elim in H as [? ?]
  | H : String.eqb _ _ = true |- _ => apply String.eqb_eq in H
  | H : String.eqb _ _ = false |- _ => apply String.eqb_neq in H
  end.

(** ** Strings *)

#[local] Arguments String.append !_ _ / : simpl nomatch.

Lemma string_app_assoc (a b c : string) : a +:+ (b +:+ c) = (a +:+ b) +:+ c.
Proof. induction a; simpl; congruence. Qed.

Lemma string_app_nil_r (a : string) : a +:+ "" = a.
Proof. induction a; simpl; congruence. Qed.

Lemma string_length_app (a b : string) :
  String.length (a +:+ b) = (String.length a + String.length b)%nat.
Proof. induction a; simpl; congruence. Qed.

(** The first [n] characters and the rest: Lua's [string.sub (s, n+1)]. *)
Fixpoint string_drop (n : nat) (s : string) : string :=
  match n, s with
  | O, _ => s
  | S n, String _ s => string_drop n s
  | S _, EmptyString => ""
  end.

Lemma string_drop_app (a b : string) : string_drop (String.length a) (a +:+ b) = b.
Proof. induction a; simpl; auto. Qed.

Lemma string_app_inj_len (a a' b b' : string) :
  String.length a = String.length a' → a +:+ b = a' +:+ b' → a = a' ∧ b = b'.
Proof.
  revert a'; induction a as [|c a IH]; intros [|c' a'] Hlen Heq; simpl in *;
    try discriminate; [done|].
  injection Heq as -> Heq. destruct (IH a' ltac:(lia) Heq) as [-> ->]. done.
Qed.

(** Whether a character occurs in a string. *)
Fixpoint string_has (c : Ascii.ascii) (s : string) : bool :=
  match s with
  | EmptyString => false
  | String d s => (Ascii.eqb c d || string_has c s)%bool
  end.

(** Two strings cut at the first occurrence of the same separator agree on both
    sides of it. *)
Lemma string_cut_inj (c : Ascii.ascii) (a a' b b' : string) :
  string_has c a = false → string_has c a' = false →
  a +:+ String c b = a' +:+ String c b' → a = a' ∧ b = b'.
Proof.
  revert a'; induction a as [|d a IH]; intros [|d' a'] Ha Ha' Heq; simpl in *.
  - by injection Heq as ->.
  - injection Heq as -> ?. by rewrite Ascii.eqb_refl in Ha'.
  - injection Heq as -> ?. by rewrite Ascii.eqb_refl in Ha.
  - injection Heq as -> Heq. apply orb_false_elim in Ha as [_ Ha], Ha' as [_ Ha'].
    destruct (IH a' Ha Ha' Heq) as [-> ->]. done.
Qed.

(** A string cut before the first occurrence of a character. *)
Fixpoint cut_at (c : Ascii.ascii) (s : string) : string * string :=
  match s with
  | EmptyString => ("", "")
  | String d rest =>
      if Ascii.eqb c d then ("", s)
      else let '(a, b) := cut_at c rest in (String d a, b)
  end.

Lemma cut_at_none c s : string_has c s = false → cut_at c s = (s, "").
Proof.
  induction s as [|d s IH]; simpl; [done|]. intros [? ?]%orb_false_elim.
  rewrite H, IH; done.
Qed.

Lemma cut_at_app c a b : string_has c a = false → cut_at c (a +:+ String c b) = (a, String c b).
Proof.
  induction a as [|d a IH]; intros Ha.
  - change (cut_at c (String c b) = ("", String c b)). cbn [cut_at]. by rewrite Ascii.eqb_refl.
  - apply orb_false_elim in Ha as [Hd Ha].
    change (cut_at c (String d (a +:+ String c b)) = (String d a, String c b)).
    cbn [cut_at]. by rewrite Hd, IH.
Qed.

(** ** Fixed-width decimals *)

Definition digit_char (d : Z) : Ascii.ascii := Ascii.ascii_of_N (Z.to_N (48 + d)).

(** The [w] low decimal digits of [n], most significant first: [%0wd] of a
    non-negative number below [10^w]. *)
Fixpoint digits (w : nat) (n : Z) : string :=
  match w with
  | O => ""
  | S w => digits w (n / 10) +:+ String (digit_char (n mod 10)) ""
  end.

Lemma digits_length w n : String.length (digits w n) = w.
Proof.
  revert n; induction w as [|w IH]; intros n; simpl; [done|].
  rewrite string_length_app, IH. simpl. lia.
Qed.

Lemma digit_char_N d : 0 ≤ d < 10 → Ascii.N_of_ascii (digit_char d) = Z.to_N (48 + d).
Proof. intros ?. unfold digit_char. apply Ascii.N_ascii_embedding. lia. Qed.

(** Byte-wise comparison of strings splits at a prefix of equal length. *)
Lemma string_compare_app (a a' b b' : string) :
  String.length a = String.length a' →
  String.compare (a +:+ b) (a' +:+ b') =
    match String.compare a a' with Eq => String.compare b b' | r => r end.
Proof.
  revert a'; induction a as [|c a IH]; intros [|c' a'] Hlen; simpl in *;
    try discriminate; [done|].
  destruct (Ascii.compare c c'); try done. apply IH. lia.
Qed.

Lemma digit_char_compare d d' :
  0 ≤ d < 10 → 0 ≤ d' < 10 → Ascii.compare (digit_char d) (digit_char d') = (d ?= d').
Proof.
  intros ??. unfold Ascii.compare. rewrite !digit_char_N by done.
  rewrite <-N2Z.inj_compare, !Z2N.id by lia. apply Z.add_compare_mono_l.
Qed.

(** Zero-padded decimals of equal width are ordered byte-wise as the numbers are:
    what makes the sequence prefix of a rank member a FIFO tie-break. *)
Lemma digits_compare w n m :
  0 ≤ n < 10 ^ Z.of_nat w → 0 ≤ m < 10 ^ Z.of_nat w →
  String.compare (digits w n) (digits w m) = (n ?= m).
Proof.
  revert n m; induction w as [|w IH]; intros n m Hn Hm.
  - simpl in *. replace n with m by lia. symmetry. apply Z.compare_refl.
  - rewrite Nat2Z.inj_succ, Z.pow_succ_r in Hn, Hm by lia.
    cbn [digits]. rewrite string_compare_app by (by rewrite !digits_length).
    rewrite IH by (split; [apply Z.div_pos; lia|apply Z.div_lt_upper_bound; lia]).
    cbn [String.compare]. rewrite digit_char_compare by (apply Z.mod_pos_bound; lia).
    pose proof (Z.div_mod n 10 ltac:(lia)). pose proof (Z.div_mod m 10 ltac:(lia)).
    pose proof (Z.mod_pos_bound n 10 ltac:(lia)). pose proof (Z.mod_pos_bound m 10 ltac:(lia)).
    destruct (Z.compare_spec (n / 10) (m / 10)) as [He|Hl|Hg]; symmetry.
    + destruct (Z.compare_spec (n mod 10) (m mod 10)); [apply Z.compare_eq_iff|apply Z.compare_lt_iff|apply Z.compare_gt_iff]; lia.
    + apply Z.compare_lt_iff. lia.
    + apply Z.compare_gt_iff. lia.
Qed.

(** ** Lists *)

(** Remove the first occurrence of [x] (Redis [LREM key 1 x]). *)
Fixpoint remove_first (x : string) (l : list string) : list string :=
  match l with
  | [] => []
  | y :: l => if String.eqb x y then l else y :: remove_first x l
  end.

Lemma remove_first_sublist x l : remove_first x l `sublist_of` l.
Proof.
  induction l as [|y l IH]; simpl; [constructor|].
  case_match; [by apply sublist_cons|by apply sublist_skip].
Qed.

Lemma elem_of_remove_first x y l :
  NoDup l → y ∈ remove_first x l ↔ y ≠ x ∧ y ∈ l.
Proof.
  induction 1 as [|z l Hz Hl IH]; simpl; [set_solver|].
  destruct (String.eqb_spec x z) as [->|]; [set_solver|].
  rewrite !elem_of_cons, IH. naive_solver.
Qed.

Lemma NoDup_remove_first x l : NoDup l → NoDup (remove_first x l).
Proof. intros. eapply sublist_NoDup; [|apply remove_first_sublist]; done. Qed.

#[export] Hint Resolve NoDup_remove_first : gte.

#[global] Arguments string_drop : simpl never.
