(* ===== verification/GoLib.v ===== *)
(** * The parts of Go and its standard library the engine uses

    Machine integers, [strconv], [time], [encoding/hex], the [errors] package and
    the binary64 rounding of integer-valued doubles. *)

From S2P Require Import Prelude.
From Stdlib Require Import Numbers.DecimalString Numbers.DecimalZ Numbers.DecimalPos.

(** ** Machine integers *)

Definition MaxInt64 : Z := 2 ^ 63 - 1.
Definition MinInt64 : Z := - 2 ^ 63.

(** Two's-complement wrap-around of [int], [int64] and [time.Duration]. *)
Definition wrap64 (z : Z) : Z := (z + 2 ^ 63) mod 2 ^ 64 - 2 ^ 63.

Definition int64 (z : Z) : Prop := MinInt64 ≤ z ≤ MaxInt64.

#[export] Instance int64_dec z : Decision (int64 z).
Proof. unfold int64. apply _. Defined.

Lemma wrap64_id z : int64 z → wrap64 z = z.
Proof.
  unfold int64, MinInt64, MaxInt64, wrap64. intros ?. rewrite Z.mod_small by lia. lia.
Qed.

Lemma wrap64_over z : 2 ^ 63 ≤ z < 2 ^ 64 → wrap64 z = z - 2 ^ 64.
Proof.
  intros Hz. unfold wrap64. replace (z + 2 ^ 63) with (z - 2 ^ 63 + 1 * 2 ^ 64) by lia.
  rewrite Z_mod_plus_full, Z.mod_small by lia. lia.
Qed.

Lemma wrap64_int64 z : int64 (wrap64 z).
Proof.
  unfold int64, MinInt64, MaxInt64, wrap64.
  pose proof (Z.mod_pos_bound (z + 2 ^ 63) (2 ^ 64) ltac:(lia)). lia.
Qed.

(** Incrementing and decrementing gives back the same number, also at the limits. *)
Lemma wrap64_succ_pred z : int64 z → wrap64 (wrap64 (z + 1) - 1) = z.
Proof.
  intros Hz. destruct (decide (z = MaxInt64)) as [->|Hne]; [done|].
  unfold int64, MinInt64 in *. rewrite (wrap64_id (z + 1)) by (unfold int64, MinInt64; lia).
  rewrite Z.add_simpl_r. by apply wrap64_id.
Qed.

#[export] Hint Resolve wrap64_int64 : gte.

(** ** strconv *)

Definition FormatInt (z : Z) : string := NilZero.string_of_int (Z.to_int z).

Definition plus_char : Ascii.ascii := Ascii.ascii_of_nat 43.

(** [strconv.ParseInt(s, 10, 64)]: [None] for a syntax or range error. *)
Definition ParseInt (s : string) : option Z :=
  let value :=
    match s with
    | EmptyString => None
    | String c rest =>
        if Ascii.eqb c plus_char then Z.of_uint <$> NilZero.uint_of_string rest
        else Z.of_int <$> NilZero.int_of_string s
    end in
  z ← value; if decide (int64 z) then Some z else None.

(** ** time *)

(** A [time.Time] is its number of nanoseconds since the Unix epoch; the zero
    [time.Time] is January 1 of year 1, UTC. A [time.Duration] is an [int64]
    number of nanoseconds. *)
Definition Time := Z.
Definition Duration := Z.

Definition zeroTime : Time := -62135596800 * 10 ^ 9.
Definition IsZero (t : Time) : bool := t =? zeroTime.
Definition UnixMilli (t : Time) : Z := wrap64 (t / 10 ^ 6).
Definition After (t u : Time) : bool := u <? t.
Definition Add (t : Time) (d : Duration) : Time := t + d.
(** [Time.Sub] and [time.Since] saturate. *)
Definition Sub (t u : Time) : Duration := Z.max MinInt64 (Z.min MaxInt64 (t - u)).

Definition Nanosecond : Duration := 1.
Definition Millisecond : Duration := 10 ^ 6.
Definition Second : Duration := 10 ^ 9.
Definition Hour : Duration := 3600 * 10 ^ 9.

(** ** encoding/hex *)

Definition hex_char (d : N) : Ascii.ascii :=
  Ascii.ascii_of_N (if (d <? 10)%N then 48 + d else 87 + d)%N.

Fixpoint hex_EncodeToString (bs : list Byte.byte) : string :=
  match bs with
  | [] => ""
  | b :: bs =>
      let n := Byte.to_N b in
      String (hex_char (n / 16)) (String (hex_char (n mod 16)) (hex_EncodeToString bs))
  end.

(** ** errors *)

(** An error value: [Var x] is the package-level variable [x] (compared by
    identity), [Dyn] a value made by [errors.New] or [fmt.Errorf] at run time. The
    list holds what [%w] wraps. *)
Inductive error_id := Var (name : string) | Dyn.

Inductive error := Err (id : error_id) (text : string) (wraps : list error).

Definition error_text (e : error) : string := let 'Err _ t _ := e in t.

Definition errors_New (text : string) : error := Err Dyn text [].

(** [fmt.Errorf("prefix: %w", e)]. *)
Definition Errorf_w (prefix : string) (e : error) : error :=
  Err Dyn (prefix +:+ ": " +:+ error_text e) [e].

(** [fmt.Errorf("%w: %s", e, s)]. *)
Definition Errorf_suffix (e : error) (s : string) : error :=
  Err Dyn (error_text e +:+ ": " +:+ s) [e].

Definition same_var (e target : error) : bool :=
  match e, target with
  | Err (Var x) _ _, Err (Var y) _ _ => String.eqb x y
  | _, _ => false
  end.

(** [errors.Is(e, target)] for a non-nil [e] and a package-level [target]. *)
Fixpoint errors_Is (e target : error) : bool :=
  (same_var e target ||
   (let 'Err _ _ ws := e in existsb (fun w => errors_Is w target) ws))%bool.

(** The result of a fallible call. *)
Abbreviation result A := (error + A)%type.

(** ** binary64 rounding of integers *)

(** Round a non-negative integer to 53 significant bits, ties to even. *)
Definition rnd53_pos (z : Z) : Z :=
  if z <? 2 ^ 53 then z
  else
    let u := 2 ^ (Z.log2 z - 52) in
    let q := z / u in
    let r := z mod u in
    if 2 * r <? u then q * u
    else if u <? 2 * r then (q + 1) * u
    else if Z.even q then q * u else (q + 1) * u.

(** The integer value of the double nearest to an integer: [float64(z)], and the
    result of an operation on integer-valued doubles whose exact result is [z]. *)
Definition rnd53 (z : Z) : Z := if z <? 0 then - rnd53_pos (- z) else rnd53_pos z.

(** ** Facts *)

(** Induction on an error with the hypothesis for everything it wraps. *)
Lemma error_nested_ind (P : error → Prop) :
  (∀ id t ws, Forall P ws → P (Err id t ws)) → ∀ e, P e.
Proof.
  intros HP. fix IH 1. intros [id t ws]. apply HP.
  induction ws as [|w ws IHws]; constructor; [apply IH|exact IHws].
Qed.

Lemma int_of_FormatInt z :
  Z.of_int <$> NilZero.int_of_string (FormatInt z) = Some z.
Proof.
  unfold FormatInt. destruct (decide (z = 0)) as [->|Hz]; [done|].
  rewrite NilZero.isi; [simpl; f_equal; apply DecimalZ.of_to|..];
    destruct z; simpl; try done; intros [= Hnil]; by apply Unsigned.to_uint_nonnil in Hnil.
Qed.

Lemma FormatInt_inj : Inj (=) (=) FormatInt.
Proof.
  intros a b Hab. pose proof (int_of_FormatInt a) as Ha.
  rewrite Hab, int_of_FormatInt in Ha. by injection Ha.
Qed.

Lemma FormatInt_head z :
  ∃ c rest, FormatInt z = String c rest ∧ Ascii.eqb c plus_char = false.
Proof.
  unfold FormatInt. destruct z as [|p|p]; simpl;
    try (destruct (Pos.to_uint p)); do 2 eexists; split; reflexivity.
Qed.

(** A decimal is made of digits and a sign. *)
Lemma FormatInt_chars c z :
  string_has c "-0123456789" = false → string_has c (FormatInt z) = false.
Proof.
  intros Hc. assert (∀ d, string_has d "-0123456789" = true → Ascii.eqb c d = false) as Hd.
  { intros d Hd. apply Ascii.eqb_neq. intros ->. congruence. }
  assert (∀ u, string_has c (NilEmpty.string_of_uint u) = false) as Hu.
  { induction u; simpl; rewrite ?Hd by done; done. }
  assert (∀ u, string_has c (NilZero.string_of_uint u) = false) as Hz.
  { intros u. unfold NilZero.string_of_uint. destruct u; try apply Hu. simpl. by rewrite Hd. }
  unfold FormatInt. destruct z; simpl; rewrite ?Hd by done; try apply Hz; done.
Qed.

Lemma ParseInt_FormatInt z : int64 z → ParseInt (FormatInt z) = Some z.
Proof.
  intros Hz. unfold ParseInt. destruct (FormatInt_head z) as (c & rest & Hf & Hc).
  rewrite Hf, Hc, <-Hf, int_of_FormatInt. simpl. by rewrite decide_True.
Qed.

Lemma rnd53_pos_small z : z < 2 ^ 53 → rnd53_pos z = z.
Proof. intros. unfold rnd53_pos. by rewrite (proj2 (Z.ltb_lt _ _)). Qed.

Lemma rnd53_pos_cases z u :
  2 ^ 53 ≤ z → u = 2 ^ (Z.log2 z - 52) →
  (rnd53_pos z = z / u * u ∧ (2 * (z mod u) < u ∨ 2 * (z mod u) = u ∧ Z.even (z / u) = true)) ∨
  (rnd53_pos z = (z / u + 1) * u ∧ (u < 2 * (z mod u) ∨ 2 * (z mod u) = u ∧ Z.even (z / u) = false)).
Proof.
  intros ? ->. unfold rnd53_pos. rewrite (proj2 (Z.ltb_ge _ _)) by lia.
  generalize (2 ^ (Z.log2 z - 52)). intros u.
  destruct (2 * (z mod u) <? u) eqn:?; [left; bool_to_prop; lia|].
  destruct (u <? 2 * (z mod u)) eqn:?; [right; bool_to_prop; lia|].
  bool_to_prop. destruct (Z.even (z / u)); [left|right]; split; try done; right; lia.
Qed.

(** The shape of a rounded integer of at least 2^53: a multiple of the unit in the
    last place, within half a unit of the exact value. *)
Lemma rnd53_pos_big z :
  2 ^ 53 ≤ z →
  ∃ q r u c, u = 2 ^ (Z.log2 z - 52) ∧ 0 < u ∧ z = q * u + r ∧ 0 ≤ r < u ∧
    2 ^ 52 ≤ q < 2 ^ 53 ∧ rnd53_pos z = c * u ∧
    ((c = q ∧ (2 * r < u ∨ 2 * r = u ∧ Z.even q = true)) ∨
     (c = q + 1 ∧ (u < 2 * r ∨ 2 * r = u ∧ Z.even q = false))).
Proof.
  intros Hz. pose proof (Z.log2_spec z ltac:(lia)) as [Hlo Hhi].
  assert (53 ≤ Z.log2 z) as Hk by (change 53 with (Z.log2 (2 ^ 53)); by apply Z.log2_le_mono).
  set (u := 2 ^ (Z.log2 z - 52)).
  assert (0 < u) by (apply Z.pow_pos_nonneg; lia).
  assert (2 ^ Z.log2 z = 2 ^ 52 * u) as Hu.
  { unfold u. rewrite <-Z.pow_add_r by lia. f_equal. lia. }
  rewrite Z.pow_succ_r, Hu in Hhi by lia. rewrite Hu in Hlo.
  exists (z / u), (z mod u), u, (rnd53_pos z / u).
  pose proof (Z.div_mod z u ltac:(lia)). pose proof (Z.mod_pos_bound z u ltac:(lia)).
  split_and!; try done; try lia.
  - apply Z.div_le_lower_bound; lia.
  - apply Z.div_lt_upper_bound; lia.
  - pose proof (rnd53_pos_cases z u ltac:(lia) eq_refl) as [[-> ?]|[-> ?]]; by rewrite Z.div_mul by lia.
  - pose proof (rnd53_pos_cases z u ltac:(lia) eq_refl) as [[-> ?]|[-> ?]];
      rewrite Z.div_mul by lia; auto.
Qed.

Lemma rnd53_pos_bounds z :
  2 ^ 53 ≤ z → 2 ^ Z.log2 z ≤ rnd53_pos z ≤ 2 ^ (Z.log2 z + 1).
Proof.
  intros Hz. destruct (rnd53_pos_big z Hz) as (q & r & u & c & Hu & ? & ? & ? & ? & -> & Hr).
  assert (53 ≤ Z.log2 z) by (change 53 with (Z.log2 (2 ^ 53)); by apply Z.log2_le_mono).
  assert (2 ^ Z.log2 z = 2 ^ 52 * u) as ->.
  { rewrite Hu, <-Z.pow_add_r by lia. f_equal. lia. }
  assert (2 ^ (Z.log2 z + 1) = 2 ^ 53 * u) as ->.
  { rewrite Hu, <-Z.pow_add_r by lia. f_equal. lia. }
  destruct Hr as [[-> _]|[-> _]]; split; apply Z.mul_le_mono_nonneg_r; lia.
Qed.

(** Rounding to the nearest multiple of one unit, ties to even, is monotone. *)
Lemma round_even_mono q r q' r' u c c' :
  0 < u → 0 ≤ r < u → 0 ≤ r' < u → q * u + r ≤ q' * u + r' →
  (c = q ∧ (2 * r < u ∨ 2 * r = u ∧ Z.even q = true)) ∨
  (c = q + 1 ∧ (u < 2 * r ∨ 2 * r = u ∧ Z.even q = false)) →
  (c' = q' ∧ (2 * r' < u ∨ 2 * r' = u ∧ Z.even q' = true)) ∨
  (c' = q' + 1 ∧ (u < 2 * r' ∨ 2 * r' = u ∧ Z.even q' = false)) →
  c ≤ c'.
Proof.
  intros Hu Hr Hr' Hle Hc Hc'. destruct (Z.lt_trichotomy q q') as [?|[<-|Hgt]]; [lia| |].
  - destruct (Z.even q); destruct_or!; destruct_and?; destruct_or?; destruct_and?; subst;
      try discriminate; lia.
  - assert ((q' + 1) * u ≤ q * u) by (apply Z.mul_le_mono_nonneg_r; lia). lia.
Qed.

Lemma rnd53_pos_mono x y : 0 ≤ x ≤ y → rnd53_pos x ≤ rnd53_pos y.
Proof.
  intros Hxy. destruct (decide (y < 2 ^ 53)).
  { rewrite !rnd53_pos_small by lia. lia. }
  pose proof (rnd53_pos_bounds y ltac:(lia)) as Hy.
  destruct (decide (x < 2 ^ 53)).
  { rewrite (rnd53_pos_small x) by lia.
    assert (2 ^ 53 ≤ 2 ^ Z.log2 y); [|lia]. apply Z.pow_le_mono_r; [lia|].
    change 53 with (Z.log2 (2 ^ 53)). apply Z.log2_le_mono. lia. }
  pose proof (rnd53_pos_bounds x ltac:(lia)) as Hx.
  destruct (decide (Z.log2 x = Z.log2 y)) as [E|E].
  - destruct (rnd53_pos_big x) as (q & r & u & c & Hu & ? & ? & ? & ? & -> & ?); [lia|].
    destruct (rnd53_pos_big y) as (q' & r' & u' & c' & Hu' & ? & ? & ? & ? & -> & ?); [lia|].
    assert (u' = u) as -> by congruence.
    apply Z.mul_le_mono_nonneg_r; [lia|].
    apply (round_even_mono q r q' r' u); try done. lia.
  - assert (Z.log2 x ≤ Z.log2 y) by (apply Z.log2_le_mono; lia).
    assert (2 ^ (Z.log2 x + 1) ≤ 2 ^ Z.log2 y) by (apply Z.pow_le_mono_r; lia). lia.
Qed.

Lemma rnd53_pos_nonneg z : 0 ≤ z → 0 ≤ rnd53_pos z.
Proof. intros. rewrite <-(rnd53_pos_small 0) by lia. apply rnd53_pos_mono. lia. Qed.

(** Rounding is exact on the integers of magnitude at most 2^53. *)
Lemma rnd53_exact z : Z.abs z ≤ 2 ^ 53 → rnd53 z = z.
Proof.
  assert (∀ x, 0 ≤ x ≤ 2 ^ 53 → rnd53_pos x = x) as Hp.
  { intros x Hx. destruct (decide (x = 2 ^ 53)) as [->|]; [done|]. apply rnd53_pos_small. lia. }
  intros. unfold rnd53. destruct (z <? 0) eqn:?; bool_to_prop; rewrite Hp by lia; lia.
Qed.

(** Rounding is monotone. *)
Lemma rnd53_mono x y : x ≤ y → rnd53 x ≤ rnd53 y.
Proof.
  intros. unfold rnd53. destruct (x <? 0) eqn:?, (y <? 0) eqn:?; bool_to_prop.
  - pose proof (rnd53_pos_mono (- y) (- x) ltac:(lia)). lia.
  - pose proof (rnd53_pos_nonneg (- x) ltac:(lia)). pose proof (rnd53_pos_nonneg y ltac:(lia)). lia.
  - lia.
  - apply rnd53_pos_mono. lia.
Qed.

(** Rounding an integer below 2^k moves it by at most half the unit of that
    binade. *)
Lemma rnd53_error z k :
  53 ≤ k → Z.abs z < 2 ^ k → Z.abs (rnd53 z - z) ≤ 2 ^ (k - 54).
Proof.
  assert (∀ x, 0 ≤ x < 2 ^ k → 53 ≤ k → Z.abs (rnd53_pos x - x) * 2 ≤ 2 ^ (k - 53)) as Hp.
  { intros x Hx Hk. destruct (decide (x < 2 ^ 53)).
    { rewrite rnd53_pos_small by done. rewrite Z.sub_diag. simpl. apply Z.pow_nonneg. lia. }
    destruct (rnd53_pos_big x) as (q & r & u & c & Hu & ? & ? & ? & ? & -> & Hr); [lia|].
    assert (u ≤ 2 ^ (k - 53)).
    { rewrite Hu. apply Z.pow_le_mono_r; [lia|].
      assert (Z.log2 x < k) by (apply Z.log2_lt_pow2; lia). lia. }
    destruct Hr as [[-> ?]|[-> ?]]; lia. }
  intros Hk Hz. assert (Z.abs (rnd53 z - z) * 2 ≤ 2 ^ (k - 53)) as Hd.
  { unfold rnd53. destruct (z <? 0) eqn:?; bool_to_prop.
    - specialize (Hp (- z)). lia.
    - specialize (Hp z). lia. }
  destruct (decide (k = 53)) as [->|].
  - rewrite rnd53_exact by lia. rewrite Z.sub_diag. done.
  - replace (k - 53) with (Z.succ (k - 54)) in Hd by lia. rewrite Z.pow_succ_r in Hd by lia. lia.
Qed.

(** An integer with at most 53 significant bits is its own rounding. *)
Lemma rnd53_pos_exact_unit z :
  0 ≤ z → (2 ^ 53 ≤ z → z mod 2 ^ (Z.log2 z - 52) = 0) → rnd53_pos z = z.
Proof.
  intros Hz Hm. destruct (decide (z < 2 ^ 53)); [by apply rnd53_pos_small|].
  specialize (Hm ltac:(lia)).
  destruct (rnd53_pos_cases z _ ltac:(lia) eq_refl) as [[-> _]|[_ Hr]].
  - pose proof (Z.div_mod z (2 ^ (Z.log2 z - 52))) as Hd. rewrite Hm in Hd.
    assert (53 ≤ Z.log2 z) by (change 53 with (Z.log2 (2 ^ 53)); apply Z.log2_le_mono; lia).
    assert (0 < 2 ^ (Z.log2 z - 52)) by (apply Z.pow_pos_nonneg; lia). lia.
  - assert (53 ≤ Z.log2 z) by (change 53 with (Z.log2 (2 ^ 53)); apply Z.log2_le_mono; lia).
    assert (0 < 2 ^ (Z.log2 z - 52)) by (apply Z.pow_pos_nonneg; lia). lia.
Qed.

Lemma rnd53_pos_idem z : 0 ≤ z → rnd53_pos (rnd53_pos z) = rnd53_pos z.
Proof.
  intros Hz. destruct (decide (z < 2 ^ 53)); [by rewrite !rnd53_pos_small by (rewrite ?rnd53_pos_small; lia)|].
  destruct (rnd53_pos_big z) as (q & r & u & c & Hu & Hu0 & _ & _ & Hq & Hc & Hcq); [lia|].
  assert (53 ≤ Z.log2 z) by (change 53 with (Z.log2 (2 ^ 53)); apply Z.log2_le_mono; lia).
  apply rnd53_pos_exact_unit; [by apply rnd53_pos_nonneg|]. intros _. rewrite Hc.
  destruct (decide (c = 2 ^ 53)) as [->|].
  - rewrite Hu, <-Z.pow_add_r, Z.log2_pow2 by lia.
    replace (53 + (Z.log2 z - 52)) with (52 + (53 + (Z.log2 z - 52) - 52)) at 1 by lia.
    rewrite Z.pow_add_r by lia. apply Z.mod_mul. apply Z.pow_nonzero; lia.
  - assert (2 ^ 52 ≤ c < 2 ^ 53) as Hcb by (destruct Hcq as [[-> _]|[-> _]]; lia).
    assert (Z.log2 (c * u) = 52 + (Z.log2 z - 52)) as ->.
    { rewrite Hu, Z.log2_mul_pow2 by lia. rewrite (Z.log2_unique c 52) by lia. lia. }
    replace (52 + (Z.log2 z - 52) - 52) with (Z.log2 z - 52) by lia.
    rewrite <-Hu. apply Z.mod_mul. lia.
Qed.

(** Rounding an already rounded value changes nothing. *)
Lemma rnd53_idem z : rnd53 (rnd53 z) = rnd53 z.
Proof.
  unfold rnd53 at 2 3. destruct (z <? 0) eqn:?; bool_to_prop.
  - pose proof (rnd53_pos_nonneg (- z) ltac:(lia)). pose proof (rnd53_pos_idem (- z) ltac:(lia)).
    unfold rnd53. destruct (- rnd53_pos (- z) <? 0) eqn:?; bool_to_prop.
    + rewrite Z.opp_involutive. lia.
    + assert (rnd53_pos (- z) = 0) as -> by lia. done.
  - pose proof (rnd53_pos_nonneg z ltac:(lia)). unfold rnd53.
    rewrite (proj2 (Z.ltb_ge _ _)) by lia. apply rnd53_pos_idem. lia.
Qed.
