(* ===== verification/Float.v ===== *)
(** * binary64 arithmetic

    Go's [float64] and Lua's numbers are the binary64 numbers of the Standard Library's
    specification of floating-point arithmetic. Every finite number is an integer multiple
    of the smallest positive one, so its value is an integer, [units], and the sum and the
    difference of two numbers are the rounded sum and difference of these integers. *)

From S2P Require Import Prelude GoLib.
From Stdlib Require Export Floats.SpecFloat.

Abbreviation float64 := spec_float.

Definition f64_of_int (z : Z) : float64 := binary_normalize 53 1024 z 0 false.
Definition f64_add : float64 → float64 → float64 := SFadd 53 1024.
Definition f64_sub : float64 → float64 → float64 := SFsub 53 1024.
Definition f64_mul : float64 → float64 → float64 := SFmul 53 1024.
Definition f64_div : float64 → float64 → float64 := SFdiv 53 1024.
Definition f64_lt : float64 → float64 → bool := SFltb.
Definition f64_le : float64 → float64 → bool := SFleb.
Definition f64_is_nan (f : float64) : bool := match f with S754_nan => true | _ => false end.
Definition f64_is_inf (f : float64) : bool := match f with S754_infinity _ => true | _ => false end.

(** The value of a finite number rounded towards minus infinity. *)
Definition f64_floor_int (f : float64) : Z :=
  match f with
  | S754_finite s m e =>
      let m := cond_Zopp s (Z.pos m) in if 0 <=? e then m * 2 ^ e else m / 2 ^ (- e)
  | _ => 0
  end.

(** [math.floor] and [math.ceil]. *)
Definition f64_floor (f : float64) : float64 :=
  match f with S754_finite _ _ _ => f64_of_int (f64_floor_int f) | _ => f end.
Definition f64_ceil (f : float64) : float64 :=
  match f with S754_finite _ _ _ => f64_of_int (- f64_floor_int (SFopp f)) | _ => f end.

(** ** Values *)

Definition f64_valid (f : float64) : Prop := valid_binary 53 1024 f = true.
Definition f64_finite (f : float64) : bool :=
  match f with S754_zero _ | S754_finite _ _ _ => true | _ => false end.

(** The value of a finite number in units of 2^-1074. *)
Definition units (f : float64) : Z :=
  match f with S754_finite s m e => cond_Zopp s (Z.pos m * 2 ^ (e + 1074)) | _ => 0 end.

Lemma fexp_eq e : fexp 53 1024 e = Z.max (e - 53) (-1074).
Proof. reflexivity. Qed.

Lemma digits2_log2 m : Z.pos (digits2_pos m) = Z.log2 (Z.pos m) + 1.
Proof.
  induction m as [m IH|m IH|]; cbn [digits2_pos]; [| |done];
    rewrite Pos2Z.inj_succ, IH; [change (Z.pos m~1) with (2 * Z.pos m + 1)|change (Z.pos m~0) with (2 * Z.pos m)];
    rewrite ?Z.log2_succ_double, ?Z.log2_double by lia; lia.
Qed.

Lemma Zdigits2_log2 m : 0 < m → Zdigits2 m = Z.log2 m + 1.
Proof. destruct m; [lia| |lia]. intros _. apply digits2_log2. Qed.

(** A finite number has a 53-bit mantissa, and only the smallest exponent has mantissas with
    fewer bits. *)
Lemma valid_finite s m e :
  f64_valid (S754_finite s m e) ↔
  -1074 ≤ e ≤ 971 ∧ Z.log2 (Z.pos m) ≤ 52 ∧ (e = -1074 ∨ Z.log2 (Z.pos m) = 52).
Proof.
  unfold f64_valid, valid_binary, bounded, canonical_mantissa. rewrite fexp_eq, digits2_log2.
  rewrite andb_true_iff, Z.eqb_eq, Z.leb_le. lia.
Qed.

Lemma log2_bounds m : 2 ^ Z.log2 (Z.pos m) ≤ Z.pos m < 2 ^ (Z.log2 (Z.pos m) + 1).
Proof. pose proof (Z.log2_spec (Z.pos m) ltac:(lia)). by rewrite Z.add_1_r. Qed.

Lemma pow2_split a b c : 0 ≤ a → 0 ≤ b → c = a + b → 2 ^ c = 2 ^ a * 2 ^ b.
Proof. intros ? ? ->. by apply Z.pow_add_r. Qed.

(** The order of mantissas and exponents is that of the values. *)
Lemma compare_units m e m' e' :
  f64_valid (S754_finite false m e) → f64_valid (S754_finite false m' e') →
  match e ?= e' with Lt => Lt | Gt => Gt | Eq => Pos.compare_cont Eq m m' end =
  (Z.pos m * 2 ^ (e + 1074) ?= Z.pos m' * 2 ^ (e' + 1074)).
Proof.
  rewrite !valid_finite. intros (He & Hm & Hc) (He' & Hm' & Hc').
  pose proof (log2_bounds m) as Hb. pose proof (log2_bounds m') as Hb'.
  assert (∀ a x b y, -1074 ≤ x < y → Z.log2 (Z.pos a) ≤ 52 → Z.log2 (Z.pos b) = 52 →
    Z.pos a * 2 ^ (x + 1074) < Z.pos b * 2 ^ (y + 1074)) as Hlt.
  { intros a x b y Hxy Ha Hlb. pose proof (log2_bounds a). pose proof (log2_bounds b). rewrite Hlb in *.
    pose proof (Z.pow_le_mono_r 2 (Z.log2 (Z.pos a) + 1) 53 ltac:(lia) ltac:(lia)).
    rewrite (pow2_split (y - x) (x + 1074) (y + 1074)) by lia.
    pose proof (Z.pow_le_mono_r 2 1 (y - x) ltac:(lia) ltac:(lia)).
    assert (0 < 2 ^ (x + 1074)) by (apply Z.pow_pos_nonneg; lia).
    rewrite Z.mul_assoc. apply Z.mul_lt_mono_pos_r; [done|]. nia. }
  destruct (Z.compare_spec e e') as [->|Hlt'|Hgt'].
  - rewrite Z.mul_comm, (Z.mul_comm (Z.pos m')). rewrite <-Zmult_compare_compat_l; [done|].
    apply Z.lt_gt, Z.pow_pos_nonneg; lia.
  - symmetry. apply Z.compare_lt_iff. apply Hlt; lia.
  - symmetry. apply Z.compare_gt_iff. apply Hlt; lia.
Qed.

Lemma SFcompare_units x y :
  f64_valid x → f64_valid y → f64_finite x = true → f64_finite y = true →
  SFcompare x y = Some (units x ?= units y).
Proof.
  assert (∀ m e, f64_valid (S754_finite false m e) → 0 < Z.pos m * 2 ^ (e + 1074)) as Hpos.
  { intros m e Hv%valid_finite. apply Z.mul_pos_pos; [lia|]. apply Z.pow_pos_nonneg; lia. }
  destruct x as [|s| |s m e], y as [|s'| |s' m' e']; try done; intros Hx Hy _ _; cbn [SFcompare units]; f_equal.
  - specialize (Hpos m' e' Hy). symmetry. destruct s'; cbn [cond_Zopp];
      [apply Z.compare_gt_iff|apply Z.compare_lt_iff]; lia.
  - specialize (Hpos m e Hx). symmetry. destruct s; cbn [cond_Zopp];
      [apply Z.compare_lt_iff|apply Z.compare_gt_iff]; lia.
  - pose proof (compare_units m e m' e' Hx Hy) as Hc. pose proof (Hpos m e Hx). pose proof (Hpos m' e' Hy).
    destruct s, s'; cbn [cond_Zopp]; [| | |done]; symmetry.
    + rewrite Z.compare_opp, Z.compare_antisym, <-Hc.
      destruct (e ?= e'); try done.
    + apply Z.compare_lt_iff. lia.
    + apply Z.compare_gt_iff. lia.
Qed.

Lemma f64_le_units x y :
  f64_valid x → f64_valid y → f64_finite x = true → f64_finite y = true →
  f64_le x y = (units x <=? units y).
Proof. intros. unfold f64_le, SFleb, Z.leb. rewrite SFcompare_units by done. by destruct (_ ?= _). Qed.

Lemma f64_lt_units x y :
  f64_valid x → f64_valid y → f64_finite x = true → f64_finite y = true →
  f64_lt x y = (units x <? units y).
Proof. intros. unfold f64_lt, SFltb, Z.ltb. rewrite SFcompare_units by done. by destruct (_ ?= _). Qed.

(** ** Shifting right *)

Lemma iter_pos_iter {A} (f : A → A) p x : iter_pos f p x = Nat.iter (Pos.to_nat p) f x.
Proof.
  revert x. induction p as [p IH|p IH|]; intros x; cbn [iter_pos].
  - rewrite !IH, Pos2Nat.inj_xI, <-Nat.iter_add, <-Nat.iter_succ_r. f_equal. lia.
  - rewrite !IH, Pos2Nat.inj_xO, <-Nat.iter_add. f_equal. lia.
  - done.
Qed.

(** What the two bits of a shift record say of the remainder [r] modulo [u]. *)
Definition shr_rem (r u : Z) (rec : shr_record) : Prop :=
  match shr_r rec, shr_s rec with
  | false, false => r = 0
  | false, true => 0 < 2 * r < u
  | true, false => 2 * r = u
  | true, true => u < 2 * r
  end.

Lemma shr_1_m rec : 0 ≤ shr_m rec → shr_m (shr_1 rec) = shr_m rec / 2.
Proof.
  destruct rec as [[|[p|p|]|p] r s]; cbn; intros; try done; try lia; rewrite <-Z.div2_div; done.
Qed.

Lemma shr_1_bits m r s :
  0 ≤ m → shr_r (shr_1 (Build_shr_record m r s)) = Z.odd m ∧ shr_s (shr_1 (Build_shr_record m r s)) = (r || s)%bool.
Proof. intros Hm. destruct m as [|[p|p|]|p]; cbn; try done. Qed.

Lemma shr_iter n m r s :
  0 ≤ m →
  let rec := Nat.iter n shr_1 (Build_shr_record m r s) in
  shr_m rec = m / 2 ^ Z.of_nat n ∧
  (r = false → s = false → 0 ≤ m mod 2 ^ Z.of_nat n < 2 ^ Z.of_nat n ∧
     shr_rem (m mod 2 ^ Z.of_nat n) (2 ^ Z.of_nat n) rec).
Proof.
  intros Hm. cbn zeta. induction n as [|n [IHm IHr]].
  - cbn. rewrite Z.div_1_r, Z.mod_1_r. split; [done|]. by intros -> ->.
  - rewrite Nat.iter_succ. set (rec := Nat.iter n shr_1 _) in *. set (u := 2 ^ Z.of_nat n) in *.
    assert (0 < u) by (apply Z.pow_pos_nonneg; lia).
    assert (0 ≤ m / u) by (apply Z.div_pos; lia).
    assert (2 ^ Z.of_nat (S n) = u * 2) as -> by (rewrite Nat2Z.inj_succ, Z.pow_succ_r by lia; lia).
    split; [rewrite shr_1_m, IHm by lia; by rewrite Z.div_div by lia|].
    intros Hr Hs. destruct (IHr Hr Hs) as [Hb Hrem]. destruct rec as [m' r' s']. cbn in IHm. subst m'.
    destruct (shr_1_bits (m / u) r' s') as [E1 E2]; [done|].
    rewrite Z.rem_mul_r by lia. rewrite <-Zmod_odd_eq || rewrite Zmod_odd. unfold shr_rem. rewrite E1, E2.
    unfold shr_rem in Hrem. cbn in Hrem. destruct (Z.odd (m / u)), r', s'; cbn; lia.
Qed.

(** Rounding to nearest, ties to even, by the remainder. *)
Lemma round_nearest_even_rem q r u rec :
  0 < u → shr_rem r u rec → 0 ≤ r < u →
  let c := round_nearest_even q (loc_of_shr_record rec) in
  (c = q ∧ (2 * r < u ∨ 2 * r = u ∧ Z.even q = true)) ∨
  (c = q + 1 ∧ (u < 2 * r ∨ 2 * r = u ∧ Z.even q = false)).
Proof.
  intros Hu. destruct rec as [m [] []]; unfold shr_rem; cbn; intros Hr Hb; [right; lia| |left; lia|left; lia].
  destruct (Z.even q); [left|right]; split; try done; right; lia.
Qed.

Lemma round_nearest_even_range q l : q ≤ round_nearest_even q l ≤ q + 1.
Proof. destruct l as [|[]]; cbn; try destruct (Z.even q); lia. Qed.

Abbreviation round_aux := (binary_round_aux 53 1024).
Abbreviation fexp64 := (fexp 53 1024).

Lemma shr_fexp_spec m e l :
  0 ≤ m → e ≤ fexp64 (Zdigits2 m + e) →
  let n := fexp64 (Zdigits2 m + e) - e in
  ∃ rec, shr_fexp 53 1024 m e l = (rec, e + n) ∧ shr_m rec = m / 2 ^ n ∧
    (l = loc_Exact → 0 ≤ m mod 2 ^ n < 2 ^ n ∧ shr_rem (m mod 2 ^ n) (2 ^ n) rec).
Proof.
  intros Hm He. cbn zeta. unfold shr_fexp. set (n := fexp64 (Zdigits2 m + e) - e).
  assert (0 ≤ n) as Hn by lia. clearbody n. clear He.
  destruct (shr_record_of_loc m l) as [m0 r s] eqn:E.
  assert (m0 = m ∧ (l = loc_Exact → r = false ∧ s = false)) as [-> Hl].
  { destruct l as [|[]]; cbn in E; injection E as <- <- <-; (split; [done|]); intros ?; try discriminate; done. }
  destruct n as [|p|p]; [| |lia]; cbn [shr].
  - exists (Build_shr_record m r s). rewrite Z.add_0_r, Z.pow_0_r, Z.div_1_r, Z.mod_1_r.
    split_and!; [done..|]. intros [-> ->]%Hl. split; [lia|done].
  - rewrite iter_pos_iter. destruct (shr_iter (Pos.to_nat p) m r s Hm) as [H1 H2].
    rewrite positive_nat_Z in H1, H2. eexists. split_and!; [done..|]. intros [? ?]%Hl. by apply H2.
Qed.

(** A mantissa of at most 53 bits at an exponent where it is canonical is not shifted. *)
Lemma shr_fexp_none m e :
  0 ≤ m < 2 ^ 53 → -1074 ≤ e → shr_fexp 53 1024 m e loc_Exact = (Build_shr_record m false false, e).
Proof.
  intros Hm He. unfold shr_fexp. cbn [shr_record_of_loc]. rewrite fexp_eq.
  assert (Zdigits2 m ≤ 53).
  { destruct (decide (m = 0)) as [->|]; [done|]. rewrite Zdigits2_log2 by lia.
    assert (Z.log2 m < 53) by (apply Z.log2_lt_pow2; lia). lia. }
  destruct (_ - e) eqn:E; [done| |done]. lia.
Qed.

Lemma shr_fexp_carry e :
  -1074 ≤ e → shr_fexp 53 1024 (2 ^ 53) e loc_Exact = (Build_shr_record (2 ^ 52) false false, e + 1).
Proof.
  intros He. unfold shr_fexp. cbn [shr_record_of_loc]. rewrite fexp_eq.
  replace (Z.max _ _ - e) with 1; [done|]. change (Zdigits2 (2 ^ 53)) with 54. lia.
Qed.

(** The mantissa after the first shift: below 2^53, and at least 2^52 unless the exponent
    is the smallest. *)
Lemma shifted_mantissa m e :
  0 ≤ m → e ≤ fexp64 (Zdigits2 m + e) →
  let e' := fexp64 (Zdigits2 m + e) in
  -1074 ≤ e' ∧ 0 ≤ m / 2 ^ (e' - e) < 2 ^ 53 ∧ (e' = -1074 ∨ 2 ^ 52 ≤ m / 2 ^ (e' - e)).
Proof.
  intros Hm. cbn zeta. rewrite fexp_eq. intros He. destruct (decide (m = 0)) as [->|Hm0].
  { rewrite Z.div_0_l by (apply Z.pow_nonzero; lia). cbn [Zdigits2] in *. split_and!; lia. }
  rewrite Zdigits2_log2 in * by lia. set (k := Z.log2 m) in *. pose proof (Z.log2_spec m ltac:(lia)) as [Hlo Hhi].
  fold k in Hlo, Hhi. assert (0 ≤ k) by apply Z.log2_nonneg. rewrite Z.pow_succ_r in Hhi by lia.
  set (e' := Z.max (k + 1 + e - 53) (-1074)) in *. assert (0 < 2 ^ (e' - e)) by (apply Z.pow_pos_nonneg; lia).
  split_and!; [lia|apply Z.div_pos; lia| |].
  - apply Z.div_lt_upper_bound; [done|].
    assert (2 ^ (k + 1) ≤ 2 ^ (e' - e) * 2 ^ 53).
    { rewrite <-Z.pow_add_r by lia. apply Z.pow_le_mono_r; lia. }
    rewrite Z.add_1_r, Z.pow_succ_r in * by lia. lia.
  - destruct (decide (e' = -1074)) as [|Hne]; [by left|right]. apply Z.div_le_lower_bound; [done|].
    rewrite <-Z.pow_add_r by lia. replace (e' - e + 52) with k by lia. done.
Qed.

(** The result of rounding: a valid number of the given sign, or infinity. *)
Definition rounds_to (s : bool) (c e : Z) (f : float64) : Prop :=
  f64_valid f ∧
  (f = S754_infinity s ∧ 2 ^ 1024 * 2 ^ 1074 ≤ c * 2 ^ (e + 1074) ∨
   f = S754_zero s ∧ c = 0 ∨
   ∃ m' e', f = S754_finite s m' e' ∧ Z.pos m' * 2 ^ (e' + 1074) = c * 2 ^ (e + 1074)).

Lemma rounds_to_intro s c e :
  -1074 ≤ e → 0 ≤ c ≤ 2 ^ 53 → e = -1074 ∨ 2 ^ 52 ≤ c →
  rounds_to s c e
    (let '(mrs, e'') := shr_fexp 53 1024 c e loc_Exact in
     match shr_m mrs with
     | Z0 => S754_zero s
     | Zpos m => if e'' <=? 1024 - 53 then S754_finite s m e'' else S754_infinity s
     | _ => S754_nan
     end).
Proof.
  intros He Hc Hcan.
  assert (∀ m e0, Z.pos m * 2 ^ (e0 + 1074) = c * 2 ^ (e + 1074) → -1074 ≤ e0 → 2 ^ 52 ≤ Z.pos m ∨ e0 = -1074 →
    Z.pos m < 2 ^ 53 → rounds_to s c e (if e0 <=? 1024 - 53 then S754_finite s m e0 else S754_infinity s)) as Hgo.
  { intros m e0 Heq He0 Hm1 Hm2. assert (Z.log2 (Z.pos m) < 53) by (apply Z.log2_lt_pow2; lia).
    destruct (Z.leb_spec e0 (1024 - 53)).
    - split; [|right; right; eauto]. apply valid_finite. split_and!; [lia..|].
      destruct Hm1 as [Hm1|]; [right|by left]. apply Z.log2_le_pow2 in Hm1; lia.
    - split; [done|]. left. split; [done|]. rewrite <-Heq.
      assert (2 ^ 972 * 2 ^ 1074 ≤ 2 ^ (e0 + 1074)) by (rewrite <-Z.pow_add_r by lia; apply Z.pow_le_mono_r; lia).
      destruct Hm1; [|lia]. change (2 ^ 1024) with (2 ^ 52 * 2 ^ 972). nia. }
  destruct (decide (c = 2 ^ 53)) as [->|Hne].
  - rewrite shr_fexp_carry by done. change (shr_m _) with (Z.pos (2 ^ 52)). apply Hgo; [|lia..].
    replace (e + 1 + 1074) with (Z.succ (e + 1074)) by lia. rewrite Z.pow_succ_r by lia. lia.
  - rewrite shr_fexp_none by lia. cbn [shr_m]. destruct c as [|m|m] eqn:Ec; [| |lia].
    + split; [done|]. right; left. done.
    + apply Hgo; [done|done|lia|lia].
Qed.

Lemma round_aux_spec s m e l :
  0 ≤ m → e ≤ fexp64 (Zdigits2 m + e) →
  let e' := fexp64 (Zdigits2 m + e) in
  ∃ c, rounds_to s c e' (round_aux s m e l) ∧ -1074 ≤ e' ∧
    m / 2 ^ (e' - e) ≤ c ≤ m / 2 ^ (e' - e) + 1 ∧
    (l = loc_Exact → let q := m / 2 ^ (e' - e) in let r := m mod 2 ^ (e' - e) in let u := 2 ^ (e' - e) in
       (c = q ∧ (2 * r < u ∨ 2 * r = u ∧ Z.even q = true)) ∨
       (c = q + 1 ∧ (u < 2 * r ∨ 2 * r = u ∧ Z.even q = false))).
Proof.
  intros Hm He. cbn zeta. destruct (shr_fexp_spec m e l Hm He) as (rec & E & Hrec & Hex).
  destruct (shifted_mantissa m e Hm He) as (He' & Hq & Hcan). set (e' := fexp64 (Zdigits2 m + e)) in *.
  unfold binary_round_aux. rewrite E. replace (e + (e' - e)) with e' by lia. rewrite Hrec.
  set (q := m / 2 ^ (e' - e)) in *. set (c := round_nearest_even q (loc_of_shr_record rec)).
  pose proof (round_nearest_even_range q (loc_of_shr_record rec)) as Hr. fold c in Hr.
  exists c. split_and!; [|done|lia|lia|].
  - apply rounds_to_intro; [done|lia|lia].
  - intros Hl. destruct (Hex Hl) as [Hb Hrem]. apply round_nearest_even_rem; [lia|done|lia].
Qed.

(** ** Rounding as a function on values *)

(** The rounded mantissa and exponent are the rounded value. *)
Lemma exact_round m e c :
  0 < m → -1074 ≤ e → let e' := fexp64 (Zdigits2 m + e) in e ≤ e' →
  (let q := m / 2 ^ (e' - e) in let r := m mod 2 ^ (e' - e) in let u := 2 ^ (e' - e) in
   (c = q ∧ (2 * r < u ∨ 2 * r = u ∧ Z.even q = true)) ∨
   (c = q + 1 ∧ (u < 2 * r ∨ 2 * r = u ∧ Z.even q = false))) →
  c * 2 ^ (e' + 1074) = rnd53_pos (m * 2 ^ (e + 1074)).
Proof.
  intros Hm He. cbn zeta. rewrite fexp_eq, Zdigits2_log2 by done.
  assert (Z.log2 (m * 2 ^ (e + 1074)) = Z.log2 m + (e + 1074)) as Hlog by (rewrite Z.log2_mul_pow2; lia).
  pose proof (Z.log2_nonneg m). set (k := Z.log2 m) in *. set (p := 2 ^ (e + 1074)) in *.
  assert (0 < p) by (apply Z.pow_pos_nonneg; lia).
  intros He' Hc. destruct (Z.lt_ge_cases (m * p) (2 ^ 53)) as [Hz|Hz].
  - assert (k + (e + 1074) < 53) by (rewrite <-Hlog; apply Z.log2_lt_pow2; nia).
    assert (e = -1074) as -> by lia. rewrite Z.max_r in * by lia. cbn in Hc.
    rewrite Z.div_1_r, Z.mod_1_r in Hc. rewrite rnd53_pos_small by done.
    change p with 1. change (2 ^ (-1074 + 1074)) with 1. lia.
  - assert (53 ≤ k + (e + 1074)) by (rewrite <-Hlog; change 53 with (Z.log2 (2 ^ 53)); by apply Z.log2_le_mono).
    rewrite Z.max_l in * by lia. replace (k + 1 + e - 53 - e) with (k - 52) in Hc by lia.
    set (u := 2 ^ (k - 52)) in *. assert (0 < u) by (apply Z.pow_pos_nonneg; lia).
    assert (2 ^ (k + 1 + e - 53 + 1074) = u * p) as -> by (apply pow2_split; lia).
    destruct (rnd53_pos_cases (m * p) (u * p)) as [[-> Hr]|[-> Hr]]; [done|rewrite Hlog; symmetry; apply pow2_split; lia| |];
      rewrite Z.div_mul_cancel_r, Z.mul_mod_distr_r in * by lia; [assert (c = m / u) as ->|assert (c = m / u + 1) as ->]; try lia.
    + destruct Hc as [[? _]|[_ [?|[? ?]]]]; [done|nia|]. destruct Hr as [|[? ?]]; [nia|congruence].
    + destruct Hc as [[_ [?|[? ?]]]|[? _]]; [nia| |done]. destruct Hr as [|[? ?]]; [nia|congruence].
Qed.

(** What a rounding of the value [z] gives: a valid finite number whose value is the
    rounded [z], or an infinity when that is out of range. *)
Definition f64_rounded (z : Z) (f : float64) : Prop :=
  f64_valid f ∧
  (f = S754_infinity false ∧ 2 ^ 1024 * 2 ^ 1074 ≤ rnd53 z ∨
   f = S754_infinity true ∧ rnd53 z ≤ - (2 ^ 1024 * 2 ^ 1074) ∨
   f64_finite f = true ∧ units f = rnd53 z).

Lemma rnd53_pos_pos z : 0 < z → rnd53 z = rnd53_pos z.
Proof. intros. unfold rnd53. by rewrite (proj2 (Z.ltb_ge _ _)) by lia. Qed.

Lemma rnd53_opp z : rnd53 (- z) = - rnd53 z.
Proof.
  unfold rnd53. destruct (Z.ltb_spec z 0), (Z.ltb_spec (- z) 0); try lia;
    rewrite ?Z.opp_involutive; try done. by replace z with 0 by lia.
Qed.

Lemma shl_align_spec m e e' :
  e' ≤ e → ∃ m', shl_align m e e' = (m', e') ∧ Z.pos m' = Z.pos m * 2 ^ (e - e').
Proof.
  intros He. unfold shl_align. destruct (e' - e) as [|d|d] eqn:E; [|lia|].
  - exists m. replace (e - e') with 0 by lia. rewrite Z.mul_1_r. split; [|done]. f_equal. lia.
  - eexists. split; [done|]. replace (e - e') with (Z.pos d) by lia. clear.
    induction d as [|d IH] using Pos.peano_ind; [cbn; lia|].
    rewrite Pos.iter_succ, Pos2Z.inj_succ, Z.pow_succ_r by lia. rewrite Pos2Z.inj_xO, IH. lia.
Qed.

Lemma binary_round_spec s m e :
  -1074 ≤ e → f64_rounded (cond_Zopp s (Z.pos m * 2 ^ (e + 1074))) (binary_round 53 1024 s m e).
Proof.
  intros He. unfold binary_round.
  assert (∃ m' e', shl_align m e (fexp64 (Z.pos (digits2_pos m) + e)) = (m', e') ∧ -1074 ≤ e' ∧
    e' ≤ fexp64 (Zdigits2 (Z.pos m') + e') ∧ Z.pos m' * 2 ^ (e' + 1074) = Z.pos m * 2 ^ (e + 1074))
    as (m' & e' & -> & He' & Hfe & Hv).
  { destruct (Z.le_gt_cases (fexp64 (Z.pos (digits2_pos m) + e)) e) as [Hle|Hgt].
    - destruct (shl_align_spec m e _ Hle) as (m' & -> & Hm'). rewrite fexp_eq, digits2_log2 in *.
      set (e' := Z.max _ _) in *. exists m', e'. split_and!; [done|lia| |].
      + rewrite fexp_eq, Zdigits2_log2, Hm', Z.log2_mul_pow2 by lia. lia.
      + rewrite Hm', <-Z.mul_assoc. f_equal. symmetry. apply pow2_split; lia.
    - exists m, e. split_and!; [|done|rewrite Zdigits2_log2, <-digits2_log2; lia|done].
      unfold shl_align. destruct (_ - e) eqn:E; [done..|lia]. }
  destruct (round_aux_spec s (Z.pos m') e' loc_Exact ltac:(lia) Hfe) as (c & [Hval Hr] & He'' & _ & Hex).
  pose proof (exact_round (Z.pos m') e' c ltac:(lia) He' Hfe (Hex eq_refl)) as Hc. rewrite Hv in Hc.
  assert (0 < Z.pos m * 2 ^ (e + 1074)) by (apply Z.mul_pos_pos; [lia|apply Z.pow_pos_nonneg; lia]).
  assert (rnd53 (cond_Zopp s (Z.pos m * 2 ^ (e + 1074))) = cond_Zopp s (rnd53_pos (Z.pos m * 2 ^ (e + 1074)))) as Hs.
  { destruct s; cbn [cond_Zopp]; rewrite ?rnd53_opp, rnd53_pos_pos by done; done. }
  split; [done|]. rewrite Hs, <-Hc. destruct Hr as [[-> Hi]|[[-> ->]|(m2 & e2 & -> & Hm2)]].
  - destruct s; cbn [cond_Zopp]; [right; left|left]; (split; [done|lia]).
  - right; right. destruct s; done.
  - right; right. split; [done|]. cbn [units]. by rewrite Hm2.
Qed.

Lemma rnd53_units f : f64_valid f → rnd53 (units f) = units f.
Proof.
  destruct f as [| | |s m e]; try done. intros (He & Hm & Hc)%valid_finite. cbn [units].
  assert (0 < Z.pos m * 2 ^ (e + 1074)) by (apply Z.mul_pos_pos; [lia|apply Z.pow_pos_nonneg; lia]).
  assert (rnd53_pos (Z.pos m * 2 ^ (e + 1074)) = Z.pos m * 2 ^ (e + 1074)) as Hr.
  { assert (fexp64 (Zdigits2 (Z.pos m) + e) = e) as Hf by (rewrite fexp_eq, Zdigits2_log2 by lia; lia).
    rewrite <-(exact_round (Z.pos m) e (Z.pos m)); rewrite ?Hf; [done|lia..|].
    rewrite Z.sub_diag, Z.pow_0_r, Z.div_1_r, Z.mod_1_r. left. lia. }
  destruct s; cbn [cond_Zopp]; rewrite ?rnd53_opp, rnd53_pos_pos, Hr by done; done.
Qed.

Lemma rounded_self f : f64_valid f → f64_finite f = true → f64_rounded (units f) f.
Proof. intros Hv Hf. split; [done|]. right; right. by rewrite rnd53_units. Qed.

Lemma normalize_spec m e sz :
  -1074 ≤ e → f64_rounded (m * 2 ^ (e + 1074)) (binary_normalize 53 1024 m e sz).
Proof.
  intros He. destruct m as [|m|m]; cbn [binary_normalize].
  - split; [done|]. right; right. done.
  - apply (binary_round_spec false m e He).
  - rewrite <-Pos2Z.opp_pos, Z.mul_opp_l. apply (binary_round_spec true m e He).
Qed.

(** The aligned mantissas are the values. *)
Lemma aligned_units s m e ez :
  -1074 ≤ ez ≤ e →
  cond_Zopp s (Z.pos (shl_align m e ez).1) * 2 ^ (ez + 1074) = units (S754_finite s m e).
Proof.
  intros He. destruct (shl_align_spec m e ez) as (m' & -> & Hm'); [lia|]. cbn [fst units].
  assert (Z.pos m' * 2 ^ (ez + 1074) = Z.pos m * 2 ^ (e + 1074)) as <-.
  { rewrite Hm', <-Z.mul_assoc. f_equal. symmetry. apply pow2_split; lia. }
  destruct s; cbn [cond_Zopp]; lia.
Qed.

Lemma f64_add_spec x y :
  f64_valid x → f64_valid y → f64_finite x = true → f64_finite y = true →
  f64_rounded (units x + units y) (f64_add x y).
Proof.
  destruct x as [sx| | |sx mx ex], y as [sy| | |sy my ey]; try done; intros Hx Hy _ _; unfold f64_add; cbn [SFadd].
  - destruct sx, sy; apply rounded_self; done.
  - by apply (rounded_self (S754_finite sy my ey)).
  - cbn [units]. rewrite Z.add_0_r. by apply (rounded_self (S754_finite sx mx ex)).
  - apply valid_finite in Hx as [Hx _], Hy as [Hy _].
    rewrite <-(aligned_units sx mx ex (Z.min ex ey)), <-(aligned_units sy my ey (Z.min ex ey)) by lia.
    rewrite <-Z.mul_add_distr_r. apply normalize_spec. lia.
Qed.

Lemma f64_sub_spec x y :
  f64_valid x → f64_valid y → f64_finite x = true → f64_finite y = true →
  f64_rounded (units x - units y) (f64_sub x y).
Proof.
  destruct x as [sx| | |sx mx ex], y as [sy| | |sy my ey]; try done; intros Hx Hy _ _; unfold f64_sub; cbn [SFsub].
  - destruct sx, sy; apply rounded_self; done.
  - replace (units (S754_zero sx) - units (S754_finite sy my ey)) with (units (S754_finite (negb sy) my ey))
      by (destruct sy; cbn; lia). by apply rounded_self.
  - cbn [units]. rewrite Z.sub_0_r. by apply (rounded_self (S754_finite sx mx ex)).
  - apply valid_finite in Hx as [Hx _], Hy as [Hy _].
    rewrite <-(aligned_units sx mx ex (Z.min ex ey)), <-(aligned_units sy my ey (Z.min ex ey)) by lia.
    rewrite <-Z.mul_sub_distr_r. apply normalize_spec. lia.
Qed.

Lemma f64_of_int_spec z : f64_rounded (z * 2 ^ 1074) (f64_of_int z).
Proof. apply (normalize_spec z 0 false). lia. Qed.

(** ** Products and quotients of non-negative numbers *)

(** Not a NaN and not below zero. *)
Definition f64_nonneg (f : float64) : bool :=
  match f with S754_zero _ | S754_infinity false | S754_finite false _ _ => true | _ => false end.

Lemma rounds_to_nonneg c e f : rounds_to false c e f → f64_valid f ∧ f64_nonneg f = true.
Proof. intros [Hv [[-> _]|[[-> _]|(m & e' & -> & _)]]]; done. Qed.

Lemma log2_mul_ge a b : Z.log2 (Z.pos a) + Z.log2 (Z.pos b) ≤ Z.log2 (Z.pos (a * b)).
Proof. rewrite Pos2Z.inj_mul. apply Z.log2_mul_below; lia. Qed.

(** A positive finite number. *)
Definition f64_pos (f : float64) : bool := match f with S754_finite false _ _ => true | _ => false end.

Lemma f64_mul_nonneg x y :
  f64_valid x → f64_valid y → f64_nonneg x = true → f64_pos y = true →
  f64_valid (f64_mul x y) ∧ f64_nonneg (f64_mul x y) = true.
Proof.
  destruct x as [sx|[]| |[] mx ex], y as [| | |[] my ey]; try done; intros Hx Hy _ _;
    unfold f64_mul; cbn [SFmul xorb]; try done; try (by destruct sx).
  apply valid_finite in Hx as (Hx & _ & Hcx), Hy as (Hy & _ & Hcy). pose proof (log2_mul_ge mx my).
  pose proof (Z.log2_nonneg (Z.pos mx)). pose proof (Z.log2_nonneg (Z.pos my)).
  destruct (round_aux_spec false (Z.pos (mx * my)) (ex + ey) loc_Exact) as (c & Hr & _); [lia| |].
  - rewrite fexp_eq, Zdigits2_log2 by lia. lia.
  - by apply rounds_to_nonneg in Hr.
Qed.

(** A quotient of positive numbers rounds the quotient [q] of the mantissas, the dividend shifted
    until [q] has enough bits. *)
Lemma div_rounds mx ex my ey :
  ∃ q e l, f64_div (S754_finite false mx ex) (S754_finite false my ey) = round_aux false q e l ∧
    0 ≤ q ∧ e ≤ fexp64 (Zdigits2 q + e) ∧ Z.min (-1074) (ex - ey) ≤ e ≤ ex - ey ∧
    q * Z.pos my ≤ Z.pos mx * 2 ^ (ex - ey - e) < (q + 1) * Z.pos my ∧
    (e ≤ -1074 ∨ 2 ^ 52 * Z.pos my ≤ Z.pos mx * 2 ^ (ex - ey - e)).
Proof.
  unfold f64_div, SFdiv, SFdiv_core_binary. cbn [xorb].
  set (X := Zdigits2 (Z.pos mx) + ex - (Zdigits2 (Z.pos my) + ey)).
  set (e' := Z.min (fexp64 X) (ex - ey)). set (s := ex - ey - e').
  assert (0 ≤ s) as Hs by lia. assert (s = ex - ey - e') as Hse by done.
  assert (e' = Z.min (Z.max (Z.log2 (Z.pos mx) + ex - (Z.log2 (Z.pos my) + ey) - 53) (-1074)) (ex - ey)) as He'
    by (unfold e', X; rewrite fexp_eq, !Zdigits2_log2 by lia; lia).
  clearbody s e'. clear X.
  replace (match s with Z0 => _ | Zpos _ => _ | Zneg _ => _ end) with (Z.pos mx * 2 ^ s).
  2:{ destruct s; [lia|by rewrite Z.shiftl_mul_pow2|lia]. }
  pose proof (Z_div_mod (Z.pos mx * 2 ^ s) (Z.pos my) ltac:(lia)) as Hdm.
  destruct (Z.div_eucl _ _) as [q r]. destruct Hdm as [Heq Hr].
  assert (0 < 2 ^ s) by (apply Z.pow_pos_nonneg; lia). assert (0 ≤ q) by nia.
  exists q, e', (new_location (Z.pos my) r). rewrite <-Hse.
  pose proof (log2_bounds mx) as Hbx. pose proof (log2_bounds my) as Hby.
  set (kx := Z.log2 (Z.pos mx)) in *. set (ky := Z.log2 (Z.pos my)) in *.
  assert (0 ≤ kx ∧ 0 ≤ ky) as [Hkx Hky] by (split; apply Z.log2_nonneg).
  assert (∀ k, 0 ≤ k → k + ky + 1 ≤ kx + s → 2 ^ k * Z.pos my ≤ Z.pos mx * 2 ^ s) as Hbig.
  { intros k Hk Hle. apply Z.le_trans with (2 ^ k * 2 ^ (ky + 1)); [apply Z.mul_le_mono_nonneg_l; [apply Z.pow_nonneg|]; lia|].
    apply Z.le_trans with (2 ^ kx * 2 ^ s); [|apply Z.mul_le_mono_nonneg_r; lia]. rewrite <-!Z.pow_add_r by lia.
    apply Z.pow_le_mono_r; lia. }
  split_and!; [done|done| |lia|lia|lia|lia|destruct (decide (e' ≤ -1074)); [by left|right; apply Hbig; lia]].
  rewrite fexp_eq. assert (kx + s - ky ≤ Zdigits2 q); [|lia].
  destruct (decide (kx + s - ky ≤ 0)) as [Hle|Hgt].
  { destruct q as [|q|q]; [done| |lia]. rewrite Zdigits2_log2 by lia. pose proof (Z.log2_nonneg (Z.pos q)). lia. }
  assert (2 ^ (kx + s - ky - 1) ≤ q) as Hq.
  { apply Z.lt_succ_r. apply (Z.mul_lt_mono_pos_r (Z.pos my)); [lia|].
    apply Z.le_lt_trans with (Z.pos mx * 2 ^ s); [apply Hbig; lia|nia]. }
  assert (0 < 2 ^ (kx + s - ky - 1)) by (apply Z.pow_pos_nonneg; lia).
  rewrite Zdigits2_log2 by lia. apply Z.log2_le_pow2 in Hq; lia.
Qed.

Lemma f64_div_nonneg x y :
  f64_valid x → f64_valid y → f64_nonneg x = true → f64_pos y = true →
  f64_valid (f64_div x y) ∧ f64_nonneg (f64_div x y) = true.
Proof.
  intros Hx Hy Hnx Hpy. destruct y as [| | |[] my ey]; try done. destruct x as [sx|[]| |[] mx ex]; try done.
  destruct (div_rounds mx ex my ey) as (q & e & l & -> & Hq & He & _).
  destruct (round_aux_spec false q e l Hq He) as (c & Hc & _). by apply rounds_to_nonneg in Hc.
Qed.

(** A non-negative finite number has a non-negative value. *)
Lemma nonneg_units f : f64_valid f → f64_finite f = true → f64_nonneg f = (0 <=? units f).
Proof.
  destruct f as [| | |[] m e]; try done; intros (He & _)%valid_finite _; cbn [units cond_Zopp f64_nonneg];
    assert (0 < 2 ^ (e + 1074)) by (apply Z.pow_pos_nonneg; lia); symmetry; [apply Z.leb_gt|apply Z.leb_le]; nia.
Qed.

Lemma units_bound f : f64_valid f → Z.abs (units f) < 2 ^ 1024 * 2 ^ 1074.
Proof.
  destruct f as [| | |s m e]; try done. intros (He & Hm & _)%valid_finite. cbn [units].
  pose proof (log2_bounds m). pose proof (Z.pow_le_mono_r 2 (Z.log2 (Z.pos m) + 1) 53 ltac:(lia) ltac:(lia)).
  assert (0 < 2 ^ (e + 1074)) by (apply Z.pow_pos_nonneg; lia).
  assert (2 ^ 53 * 2 ^ (e + 1074) ≤ 2 ^ 1024 * 2 ^ 1074).
  { rewrite <-!Z.pow_add_r by lia. apply Z.pow_le_mono_r; lia. }
  replace (Z.abs _) with (Z.pos m * 2 ^ (e + 1074)) by (destruct s; cbn [cond_Zopp]; lia). nia.
Qed.

(** A rounded value that is in range is finite. *)
Lemma f64_rounded_finite z f :
  f64_rounded z f → Z.abs (rnd53 z) < 2 ^ 1024 * 2 ^ 1074 → f64_finite f = true ∧ units f = rnd53 z.
Proof. intros [_ [[_ ?]|[[_ ?]|?]]] ?; [lia|lia|done]. Qed.

(** A factor of at most one does not increase a number. *)
Lemma f64_mul_le_one x y :
  f64_valid x → f64_valid y → f64_pos x = true → f64_pos y = true → units x ≤ 2 ^ 1074 →
  f64_valid (f64_mul x y) ∧ f64_finite (f64_mul x y) = true ∧ 0 ≤ units (f64_mul x y) ≤ units y.
Proof.
  destruct x as [| | |[] mx ex], y as [| | |[] my ey]; try done. intros Hx Hy _ _ Hle.
  pose proof Hy as Hvy. pose proof (units_bound _ Hvy) as Hby.
  apply valid_finite in Hx as (Hx & _ & Hcx), Hy as (Hy & Hmy & Hcy). cbn [units cond_Zopp] in *.
  pose proof (log2_mul_ge mx my) as Hlog. pose proof (Z.log2_nonneg (Z.pos mx)). pose proof (Z.log2_nonneg (Z.pos my)).
  unfold f64_mul. cbn [SFmul xorb].
  pose proof (Z.pow_pos_nonneg 2 (ex + 1074) ltac:(lia) ltac:(lia)).
  assert (1 * 2 ^ (ex + 1074) ≤ Z.pos mx * 2 ^ (ex + 1074)) by (apply Z.mul_le_mono_nonneg_r; lia).
  assert (ex ≤ 0) as Hex.
  { destruct (Z.le_gt_cases ex 0); [done|]. pose proof (Z.pow_lt_mono_r 2 1074 (ex + 1074) ltac:(lia) ltac:(lia) ltac:(lia)). lia. }
  assert (Z.pos mx ≤ 2 ^ (- ex)) as Hmx.
  { apply (Z.mul_le_mono_pos_r _ _ (2 ^ (ex + 1074))); [done|]. rewrite <-Z.pow_add_r by lia.
    by replace (- ex + (ex + 1074)) with 1074 by lia. }
  set (m := Z.pos (mx * my)) in *. assert (m = Z.pos mx * Z.pos my) as Em by done.
  assert (e_le : ex + ey ≤ fexp64 (Zdigits2 m + (ex + ey))) by (rewrite fexp_eq, Zdigits2_log2 by lia; lia).
  destruct (round_aux_spec false m (ex + ey) loc_Exact ltac:(lia) e_le) as (c & Hr & He' & Hc & Hexact).
  set (e' := fexp64 (Zdigits2 m + (ex + ey))) in *. specialize (Hexact eq_refl).
  assert (m ≤ Z.pos my * 2 ^ (- ex)) as Hm by nia.
  assert (e' ≤ ey) as Hey.
  { unfold e'. rewrite fexp_eq, Zdigits2_log2 by lia.
    assert (Z.log2 m ≤ Z.log2 (Z.pos my) - ex); [|lia].
    etrans; [apply Z.log2_le_mono; exact Hm|]. rewrite Z.log2_mul_pow2 by lia. lia. }
  set (u := 2 ^ (e' - (ex + ey))) in *. assert (0 < u) by (apply Z.pow_pos_nonneg; lia).
  set (K := Z.pos my * 2 ^ (ey - e')). 
  assert (K * u = Z.pos my * 2 ^ (- ex)) as EK.
  { unfold K, u. rewrite <-Z.mul_assoc, <-Z.pow_add_r by lia. do 2 f_equal. lia. }
  pose proof (Z.div_mod m u ltac:(lia)) as Hdm. pose proof (Z.mod_pos_bound m u ltac:(lia)) as Hmb.
  assert (0 ≤ m / u) by (apply Z.div_pos; lia).
  assert (c ≤ K) as HcK by (destruct Hexact as [[-> _]|[-> Hrem]]; nia).
  assert (K * 2 ^ (e' + 1074) = Z.pos my * 2 ^ (ey + 1074)) as EKu.
  { unfold K. rewrite <-Z.mul_assoc, <-Z.pow_add_r by lia. do 2 f_equal. lia. }
  assert (0 < 2 ^ (e' + 1074)) by (apply Z.pow_pos_nonneg; lia).
  assert (0 ≤ c * 2 ^ (e' + 1074) ≤ Z.pos my * 2 ^ (ey + 1074)) as Hfin
    by (rewrite <-EKu; split; [apply Z.mul_nonneg_nonneg|apply Z.mul_le_mono_nonneg_r]; lia).
  clearbody K u e'. generalize dependent (Z.pos my * 2 ^ (ey + 1074)). intros Y Hby EKu Hfin.
  destruct Hr as [Hv [[E Hinf]|[[E ->]|(m' & e0 & E & Heq)]]]; rewrite E in *; split_and!; try done; cbn [units cond_Zopp];
    rewrite ?Heq; lia.
Qed.

(** The difference of numbers [0 ≤ y ≤ x] is between zero and [x]. *)
Lemma f64_sub_between x y :
  f64_valid x → f64_valid y → f64_finite x = true → f64_finite y = true → 0 ≤ units y ≤ units x →
  f64_valid (f64_sub x y) ∧ f64_finite (f64_sub x y) = true ∧
  units (f64_sub x y) = rnd53 (units x - units y) ∧ 0 ≤ units (f64_sub x y) ≤ units x.
Proof.
  intros Hx Hy Hfx Hfy Hle. pose proof (f64_sub_spec x y Hx Hy Hfx Hfy) as Hr.
  assert (0 ≤ rnd53 (units x - units y) ≤ units x) as Hb.
  { pose proof (rnd53_mono 0 (units x - units y) ltac:(lia)). pose proof (rnd53_mono (units x - units y) (units x) ltac:(lia)).
    rewrite (rnd53_units x Hx) in *. change (rnd53 0) with 0 in *. lia. }
  pose proof (units_bound x Hx). destruct (f64_rounded_finite _ _ Hr) as [Hf Hu]; [lia|].
  split_and!; [apply Hr|done|done|lia..].
Qed.

(** The sum of non-negative numbers is not below the first. *)
Lemma f64_add_nonneg x y :
  f64_valid x → f64_valid y → f64_finite x = true → 0 ≤ units x → f64_nonneg y = true →
  f64_valid (f64_add x y) ∧ f64_nonneg (f64_add x y) = true ∧
  (f64_finite (f64_add x y) = true → units x ≤ units (f64_add x y)).
Proof.
  intros Hx Hy Hfx Hux Hny. destruct (f64_finite y) eqn:Hfy.
  - rewrite (nonneg_units y Hy Hfy) in Hny. apply Z.leb_le in Hny.
    destruct (f64_add_spec x y Hx Hy Hfx Hfy) as [Hv Hr].
    pose proof (rnd53_mono (units x) (units x + units y) ltac:(lia)). rewrite (rnd53_units x Hx) in *.
    destruct Hr as [[-> _]|[[_ ?]|[Hf Hu]]]; [done|lia|].
    split_and!; [done|rewrite nonneg_units by done; apply Z.leb_le; lia|lia].
  - destruct y as [|[]| |]; try done. by destruct x.
Qed.

Lemma pos_units f : f64_valid f → f64_finite f = true → f64_pos f = (0 <? units f).
Proof.
  destruct f as [| | |[] m e]; try done; intros (He & _)%valid_finite _; cbn [units cond_Zopp f64_pos];
    assert (0 < 2 ^ (e + 1074)) by (apply Z.pow_pos_nonneg; lia); symmetry; [apply Z.ltb_ge|apply Z.ltb_lt]; nia.
Qed.

Lemma f64_ceil_nonneg x :
  f64_valid x → f64_nonneg x = true → f64_valid (f64_ceil x) ∧ f64_nonneg (f64_ceil x) = true.
Proof.
  intros Hx Hn. destruct x as [s|[]| |[] m e]; try done. cbn [f64_ceil].
  assert (0 ≤ - f64_floor_int (SFopp (S754_finite false m e))) as Hc.
  { cbn [SFopp negb f64_floor_int cond_Zopp]. case_match.
    - apply Z.leb_le in H. assert (0 ≤ 2 ^ e) by (apply Z.pow_nonneg; lia). nia.
    - apply Z.leb_gt in H. assert (- Z.pos m / 2 ^ (- e) ≤ 0); [|lia].
      apply Z.div_le_upper_bound; [apply Z.pow_pos_nonneg; lia|lia]. }
  set (z := - f64_floor_int _) in *. destruct (f64_of_int_spec z) as [Hv Hr]. split; [done|].
  pose proof (rnd53_mono 0 (z * 2 ^ 1074) ltac:(lia)). change (rnd53 0) with 0 in *.
  destruct Hr as [[-> _]|[[_ ?]|[Hf Hu]]]; [done|lia|].
  rewrite nonneg_units by done. apply Z.leb_le. lia.
Qed.

(** ** Integers *)

(** An integer of at most 53 bits, scaled by a power of two, is not changed by rounding. *)
Lemma rnd53_shift z j : 0 ≤ j → Z.abs z ≤ 2 ^ 53 → rnd53 (z * 2 ^ j) = z * 2 ^ j.
Proof.
  intros Hj. assert (∀ x, 0 ≤ x ≤ 2 ^ 53 → rnd53_pos (x * 2 ^ j) = x * 2 ^ j) as Hp.
  { intros x Hx. assert (0 < 2 ^ j) by (apply Z.pow_pos_nonneg; lia).
    destruct (Z.lt_ge_cases (x * 2 ^ j) (2 ^ 53)) as [|Hge]; [by apply rnd53_pos_small|].
    assert (0 < x) by nia. assert (Z.log2 x ≤ 53) by (change 53 with (Z.log2 (2 ^ 53)); apply Z.log2_le_mono; lia).
    assert (53 ≤ Z.log2 (x * 2 ^ j)) by (change 53 with (Z.log2 (2 ^ 53)); by apply Z.log2_le_mono).
    rewrite Z.log2_mul_pow2 in * by lia. set (k := Z.log2 x) in *.
    assert (∃ y, x * 2 ^ j = y * 2 ^ (j + k - 52)) as [y Hy].
    { destruct (decide (k = 53)) as [Hk|Hk].
      - assert (x = 2 ^ 53) as ->.
        { pose proof (Z.log2_spec x ltac:(lia)) as [? _]. fold k in H3. rewrite Hk in H3. lia. }
        exists (2 ^ 52). rewrite <-!Z.pow_add_r by lia. f_equal. lia.
      - assert (0 ≤ k) by apply Z.log2_nonneg. exists (x * 2 ^ (52 - k)).
        rewrite <-Z.mul_assoc, <-Z.pow_add_r by lia. do 2 f_equal. lia. }
    assert (0 < 2 ^ (j + k - 52)) by (apply Z.pow_pos_nonneg; lia).
    destruct (rnd53_pos_cases (x * 2 ^ j) (2 ^ (j + k - 52))) as [[-> _]|[-> Hr]]; [done|by rewrite Z.log2_mul_pow2 by lia|..].
    - by rewrite Hy, Z.div_mul by lia.
    - rewrite Hy, Z.mod_mul in Hr by lia. lia. }
  intros Hz. unfold rnd53. assert (0 < 2 ^ j) by (apply Z.pow_pos_nonneg; lia).
  destruct (Z.ltb_spec (z * 2 ^ j) 0).
  - rewrite <-Z.mul_opp_l, Hp by nia. lia.
  - apply Hp. nia.
Qed.

Lemma f64_of_int_exact z :
  Z.abs z ≤ 2 ^ 53 →
  f64_valid (f64_of_int z) ∧ f64_finite (f64_of_int z) = true ∧ units (f64_of_int z) = z * 2 ^ 1074.
Proof.
  intros Hz. pose proof (f64_of_int_spec z) as Hr. rewrite <-(rnd53_shift z 1074) by lia.
  split; [apply Hr|]. apply f64_rounded_finite; [done|]. rewrite rnd53_shift by lia.
  assert (0 < 2 ^ 1074) by (apply Z.pow_pos_nonneg; lia).
  rewrite Z.abs_mul, (Z.abs_eq (2 ^ 1074)) by lia. apply Z.mul_lt_mono_pos_r; [done|].
  apply Z.le_lt_trans with (2 ^ 53); [lia|]. apply Z.pow_lt_mono_r; lia.
Qed.

Lemma f64_floor_int_units x :
  f64_valid x → f64_finite x = true → f64_floor_int x = units x / 2 ^ 1074.
Proof.
  assert (0 < 2 ^ 1074) by (apply Z.pow_pos_nonneg; lia). set (U := 2 ^ 1074) in *.
  destruct x as [| | |s m e]; try done; intros (He & _)%valid_finite _; cbn [units f64_floor_int].
  replace (cond_Zopp s (Z.pos m * 2 ^ (e + 1074))) with (cond_Zopp s (Z.pos m) * 2 ^ (e + 1074))
    by (destruct s; cbn [cond_Zopp]; lia). set (n := cond_Zopp s (Z.pos m)).
  destruct (Z.leb_spec 0 e).
  - rewrite Z.pow_add_r by lia. fold U. rewrite Z.mul_assoc. by rewrite Z.div_mul by lia.
  - assert (0 < 2 ^ (e + 1074)) by (apply Z.pow_pos_nonneg; lia).
    assert (U = 2 ^ (- e) * 2 ^ (e + 1074)) as -> by (apply pow2_split; lia).
    assert (0 < 2 ^ (- e)) by (apply Z.pow_pos_nonneg; lia). by rewrite Z.div_mul_cancel_r by lia.
Qed.

Lemma f64_floor_of_int z : Z.abs z ≤ 2 ^ 53 → f64_floor_int (f64_of_int z) = z.
Proof.
  intros Hz. destruct (f64_of_int_exact z Hz) as (Hv & Hf & Hu). rewrite f64_floor_int_units, Hu by done.
  apply Z.div_mul. apply Z.pow_nonzero; lia.
Qed.

(** ** Bounded numbers *)

(** One, in units. *)
Definition unit64 : Z := 2 ^ 1074.

(** A finite number between two values. *)
Definition f64_between (lo hi : Z) (f : float64) : Prop :=
  f64_valid f ∧ f64_finite f = true ∧ lo ≤ units f ≤ hi.

Lemma zero_or_pos f : f64_valid f → f64_finite f = true → 0 ≤ units f → units f = 0 ∧ (∃ s, f = S754_zero s) ∨ f64_pos f = true ∧ 0 < units f.
Proof.
  intros Hv Hf Hu. destruct (Z.eq_dec (units f) 0) as [E|E].
  - left. split; [done|]. destruct f as [s| | |s m e]; try done; [by eexists|].
    apply valid_finite in Hv as (He & _). cbn [units] in E. pose proof (Z.pow_pos_nonneg 2 (e + 1074) ltac:(lia) ltac:(lia)).
    destruct s; cbn in E; nia.
  - right. rewrite pos_units by done. split; [apply Z.ltb_lt|]; lia.
Qed.

(** A product with a factor between zero and one. *)
Lemma f64_mul_between x y hi :
  f64_between 0 unit64 x → f64_between 0 hi y → f64_between 0 hi (f64_mul x y).
Proof.
  intros (Hx & Hfx & Hux) (Hy & Hfy & Huy).
  destruct (zero_or_pos x Hx Hfx ltac:(lia)) as [[_ [sx ->]]|[Hpx _]].
  - destruct y as [| | |s m e]; try done; (split; [done|split; [done|cbn; lia]]).
  - destruct (zero_or_pos y Hy Hfy ltac:(lia)) as [[_ [sy ->]]|[Hpy _]].
    + destruct x as [| | |s m e]; try done; (split; [done|split; [done|cbn; lia]]).
    + destruct (f64_mul_le_one x y Hx Hy Hpx Hpy ltac:(apply Hux)) as (Hv & Hf & Hu). split_and!; try done; lia.
Qed.

Lemma f64_mul_comm x y : f64_mul x y = f64_mul y x.
Proof.
  destruct x as [sx|sx| |sx mx ex], y as [sy|sy| |sy my ey]; try done; unfold f64_mul; cbn [SFmul]; rewrite ?(xorb_comm sx sy); try done.
  by rewrite Pos.mul_comm, Z.add_comm.
Qed.

Lemma of_int_between z hi : 0 ≤ z ≤ hi → hi ≤ 2 ^ 53 → f64_between (z * unit64) (hi * unit64) (f64_of_int z).
Proof.
  intros Hz Hhi. destruct (f64_of_int_exact z ltac:(lia)) as (Hv & Hf & Hu). split_and!; try done; rewrite Hu; fold unit64; [lia|].
  apply Z.mul_le_mono_nonneg_r; [by unfold unit64|lia].
Qed.
