(* ===== verification/FloatError.v ===== *)
(** * Rounding errors of doubles

    How far sums, products and quotients of non-negative doubles are from the exact results,
    in units of 2^-1074: a relative error and, for results too small for 53 bits, a unit. *)

From S2P Require Import Prelude GoLib Float.
From Stdlib Require Import SpecFloat.

(** A non-negative number of the value [v], or infinity if [v] is out of range. *)
Definition valued (v : Z) (f : float64) : Prop :=
  f64_valid f ∧ (f64_finite f = true ∧ units f = v ∨ f = S754_infinity false ∧ 2 ^ 1024 * unit64 ≤ v).

Lemma valued_finite v f : valued v f → f64_finite f = true → units f = v.
Proof. by intros [_ [[_ ?]|[-> _]]]. Qed.

Lemma valued_small v f : valued v f → v < 2 ^ 1024 * unit64 → f64_finite f = true ∧ units f = v.
Proof. intros [_ [?|[_ ?]]] ?; [done|lia]. Qed.

(** ** Rounding a mantissa *)

Lemma round_aux_error m e l K :
  0 ≤ m → e ≤ fexp64 (Zdigits2 m + e) → 0 ≤ K → 0 ≤ e + 1074 + K →
  ∃ v, valued v (round_aux false m e l) ∧
    2 ^ 52 * Z.abs (v * 2 ^ K - m * 2 ^ (e + 1074 + K)) ≤ m * 2 ^ (e + 1074 + K) + 2 ^ 52 * 2 ^ K.
Proof.
  intros Hm He HK HeK. destruct (round_aux_spec false m e l Hm He) as (c & Hr & He' & Hc & _).
  destruct (shifted_mantissa m e Hm He) as (_ & Hq & Hcan). set (e' := fexp64 (Zdigits2 m + e)) in *.
  assert (0 < 2 ^ (e' - e)) by (apply Z.pow_pos_nonneg; lia). set (u := 2 ^ (e' - e)) in *.
  assert (0 < 2 ^ (e + 1074 + K)) by (apply Z.pow_pos_nonneg; lia).
  assert (2 ^ (e' + 1074) * 2 ^ K = u * 2 ^ (e + 1074 + K)) as Eu.
  { unfold u. rewrite <-!Z.pow_add_r by lia. f_equal. lia. }
  set (B := 2 ^ (e + 1074 + K)) in *.
  exists (c * 2 ^ (e' + 1074)). split.
  { destruct Hr as [Hv [[E Hi]|[[E ->]|(m' & e0 & E & Heq)]]]; rewrite E in *; (split; [done|]); [right|left|left]; done. }
  replace (c * 2 ^ (e' + 1074) * 2 ^ K) with (c * (u * B)) by (rewrite <-Eu; ring).
  pose proof (Z.div_mod m u ltac:(lia)) as Hdm. pose proof (Z.mod_pos_bound m u ltac:(lia)) as Hmb.
  assert (2 ^ 52 * (u * B) ≤ m * B + 2 ^ 52 * 2 ^ K) as Hu.
  { destruct Hcan as [Hmin|Hbig].
    - assert (u * B = 2 ^ K) as -> by (rewrite <-Eu, Hmin; cbn; lia). assert (0 ≤ m * B) by nia. lia.
    - assert (2 ^ 52 * u ≤ m) by nia. assert (0 < 2 ^ K) by (apply Z.pow_pos_nonneg; lia).
      assert (2 ^ 52 * u * B ≤ m * B) by (apply Z.mul_le_mono_nonneg_r; lia). lia. }
  assert (Z.abs (c * u - m) ≤ u) as Ha by nia.
  assert (Z.abs (c * (u * B) - m * B) ≤ u * B) as Hab.
  { replace (c * (u * B) - m * B) with ((c * u - m) * B) by ring. rewrite Z.abs_mul, (Z.abs_eq B) by lia.
    apply Z.mul_le_mono_nonneg_r; lia. }
  lia.
Qed.

(** ** Products *)

Lemma f64_mul_error x y :
  f64_valid x → f64_valid y → f64_pos x = true → f64_pos y = true →
  ∃ v, valued v (f64_mul x y) ∧ 2 ^ 52 * Z.abs (v * unit64 - units x * units y) ≤ units x * units y + 2 ^ 52 * unit64.
Proof.
  destruct x as [| | |[] mx ex], y as [| | |[] my ey]; try done. unfold f64_mul. cbn [SFmul xorb].
  intros (Hx & _ & Hcx)%valid_finite (Hy & _ & Hcy)%valid_finite _ _. pose proof (log2_mul_ge mx my).
  pose proof (Z.log2_nonneg (Z.pos mx)). pose proof (Z.log2_nonneg (Z.pos my)).
  destruct (round_aux_error (Z.pos (mx * my)) (ex + ey) loc_Exact 1074) as (v & Hv & Hr);
    [lia|rewrite fexp_eq, Zdigits2_log2 by lia; lia|lia|lia|]. exists v. split; [exact Hv|].
  assert (Z.pos (mx * my) * 2 ^ (ex + ey + 1074 + 1074) = units (S754_finite false mx ex) * units (S754_finite false my ey)) as E.
  { cbn [units cond_Zopp]. rewrite Pos2Z.inj_mul.
    replace (ex + ey + 1074 + 1074) with ((ex + 1074) + (ey + 1074)) by lia. rewrite (Z.pow_add_r 2) by lia. ring. }
  rewrite E in Hr. exact Hr.
Qed.

(** ** Quotients *)

Lemma f64_div_error x y :
  f64_valid x → f64_valid y → f64_pos x = true → f64_pos y = true →
  ∃ v, valued v (f64_div x y) ∧ 2 ^ 51 * Z.abs (v * units y - units x * unit64) ≤ units x * unit64 + 2 ^ 52 * units y.
Proof.
  destruct x as [| | |[] mx ex], y as [| | |[] my ey]; try done.
  intros (Hx & _)%valid_finite (Hy & _)%valid_finite _ _.
  destruct (div_rounds mx ex my ey) as (q & e & l & -> & Hq & He & Hee & Hqm & Hbig).
  destruct (round_aux_error q e l 1074 Hq He ltac:(lia) ltac:(lia)) as (f & Hf & Hr). exists f. split; [done|].
  cbn [units cond_Zopp]. clear Hf. set (s := ex - ey - e) in *.
  assert (Z.pos mx * 2 ^ s * 2 ^ (e + 1074 + 1074) * 2 ^ (ey + 1074) = Z.pos mx * 2 ^ (ex + 1074) * 2 ^ 1074 * 2 ^ 1074) as EX.
  { rewrite <-!Z.mul_assoc, <-!(Z.pow_add_r 2) by lia. do 2 f_equal. unfold s. lia. }
  assert (e ≤ -1074 → 2 ^ (e + 1074 + 1074) ≤ 2 ^ 1074) as Hsmall by (intros; apply Z.pow_le_mono_r; lia).
  fold unit64 in *. pose proof (Z.pow_pos_nonneg 2 (e + 1074 + 1074) ltac:(lia) ltac:(lia)).
  pose proof (Z.pow_pos_nonneg 2 (ey + 1074) ltac:(lia) ltac:(lia)).
  assert (0 < unit64) by (unfold unit64; lia).
  set (B := 2 ^ (e + 1074 + 1074)) in *. set (Y := 2 ^ (ey + 1074)) in *. set (U := unit64) in *.
  set (M := Z.pos mx * 2 ^ s) in *. set (Nx := Z.pos mx * 2 ^ (ex + 1074)) in *. set (b := Z.pos my) in *.
  assert (0 < b) by (unfold b; lia). clearbody B Y U M Nx b.
  (* the exact quotient of the mantissas is less than one above [q] *)
  assert (2 ^ 52 * (b * B) ≤ M * B + 2 ^ 52 * (U * b)) as HbB.
  { assert (0 ≤ M) by nia. destruct Hbig as [Hb|Hb].
    - specialize (Hsmall Hb). assert (b * B ≤ U * b) by nia. nia.
    - assert (2 ^ 52 * b * B ≤ M * B) by (apply Z.mul_le_mono_nonneg_r; lia). nia. }
  assert (2 ^ 52 * Z.abs (f * U * b - M * B) ≤ 2 * (M * B) + 2 * (2 ^ 52 * (U * b))) as Hmain.
  { assert (Z.abs (q * b * B - M * B) ≤ b * B) by nia.
    assert (2 ^ 52 * Z.abs (f * U * b - q * b * B) ≤ q * b * B + 2 ^ 52 * (U * b)) as Hfq.
    { replace (f * U * b - q * b * B) with ((f * U - q * B) * b) by ring. rewrite Z.abs_mul, (Z.abs_eq b) by lia.
      replace (q * b * B + 2 ^ 52 * (U * b)) with ((q * B + 2 ^ 52 * U) * b) by ring. nia. }
    assert (q * b * B ≤ M * B) by nia. lia. }
  assert (2 ^ 52 * Z.abs ((f * U * b - M * B) * Y) ≤ (2 * (M * B) + 2 * (2 ^ 52 * (U * b))) * Y) as HY.
  { rewrite Z.abs_mul, (Z.abs_eq Y) by lia. nia. }
  replace ((f * U * b - M * B) * Y) with ((f * (b * Y) - Nx * U) * U) in HY by (rewrite Z.mul_sub_distr_r, (Z.mul_sub_distr_r (f * U * b)), EX; ring).
  replace ((2 * (M * B) + 2 * (2 ^ 52 * (U * b))) * Y) with (2 * (Nx * U + 2 ^ 52 * (b * Y)) * U) in HY
    by (rewrite Z.mul_add_distr_r, <-(Z.mul_assoc 2 (M * B) Y), EX; ring).
  rewrite Z.abs_mul, (Z.abs_eq U) in HY by lia. nia.
Qed.

(** ** Sums and differences *)

Lemma rnd53_rel z : 0 ≤ z → 2 ^ 53 * Z.abs (rnd53 z - z) ≤ z.
Proof.
  intros Hz. destruct (Z.le_gt_cases z (2 ^ 53)) as [Hs|Hb]; [rewrite rnd53_exact by lia; lia|].
  pose proof (Z.log2_spec z ltac:(lia)) as Hl. pose proof (Z.log2_le_mono (2 ^ 53) z ltac:(lia)) as Hk.
  change (Z.log2 (2 ^ 53)) with 53 in Hk. set (k := Z.log2 z) in *.
  pose proof (rnd53_error z (k + 1) ltac:(lia) ltac:(rewrite Z.abs_eq, Z.add_1_r by lia; apply Hl)) as He.
  replace (k + 1 - 54) with (k - 53) in He by lia.
  assert (2 ^ 53 * 2 ^ (k - 53) = 2 ^ k) by (rewrite <-Z.pow_add_r by lia; f_equal; lia). lia.
Qed.

(** ** Products of integers *)

(** The exponent of a number that is not less than one. *)
Lemma exponent_ge_one m e : f64_valid (S754_finite false m e) → unit64 ≤ units (S754_finite false m e) → -52 ≤ e.
Proof.
  intros (He & Hm & _)%valid_finite Hu. cbn [units cond_Zopp] in Hu. pose proof (log2_bounds m) as Hb.
  pose proof (Z.pow_le_mono_r 2 (Z.log2 (Z.pos m) + 1) 53 ltac:(lia) ltac:(lia)).
  apply Z.le_ngt. intros Hlt. pose proof (Z.pow_le_mono_r 2 (e + 1074) 1021 ltac:(lia) ltac:(lia)).
  pose proof (Z.pow_pos_nonneg 2 (e + 1074) ltac:(lia) ltac:(lia)).
  assert (Z.pos m * 2 ^ (e + 1074) < 2 ^ 53 * 2 ^ 1021); [|unfold unit64 in Hu; lia].
  generalize dependent (2 ^ (e + 1074)). generalize (2 ^ 1021). intros a b Hu Hba Hb0. nia.
Qed.

Lemma f64_mul_int a b :
  0 ≤ a ≤ 2 ^ 53 → 0 ≤ b ≤ 2 ^ 53 → a * b ≤ 2 ^ 53 → f64_between (a * b * unit64) (a * b * unit64) (f64_mul (f64_of_int a) (f64_of_int b)).
Proof.
  intros Ha Hb Hab. destruct (f64_of_int_exact a ltac:(lia)) as (Hva & Hfa & Hua), (f64_of_int_exact b ltac:(lia)) as (Hvb & Hfb & Hub).
  fold unit64 in Hua, Hub. assert (0 < unit64) as HU by (by unfold unit64).
  destruct (zero_or_pos _ Hva Hfa ltac:(nia)) as [[Ea [sa ->]]|[Hpa _]];
    [assert (a * b = 0) as -> by nia; by destruct (f64_of_int b)|].
  destruct (zero_or_pos _ Hvb Hfb ltac:(nia)) as [[Eb [sb ->]]|[Hpb _]];
    [assert (a * b = 0) as -> by nia; by destruct (f64_of_int a)|].
  destruct (f64_of_int a) as [| | |[] mx ex], (f64_of_int b) as [| | |[] my ey]; try done.
  assert (0 < a ∧ 0 < b) as [Ha0 Hb0].
  { apply valid_finite in Hva as (? & _), Hvb as (? & _). cbn [units cond_Zopp] in *.
    pose proof (Z.pow_pos_nonneg 2 (ex + 1074) ltac:(lia) ltac:(lia)). pose proof (Z.pow_pos_nonneg 2 (ey + 1074) ltac:(lia) ltac:(lia)). split; nia. }
  pose proof (exponent_ge_one _ _ Hva ltac:(nia)). pose proof (exponent_ge_one _ _ Hvb ltac:(nia)).
  apply valid_finite in Hva as (Hx & _ & Hcx), Hvb as (Hy & _ & Hcy). unfold f64_mul. cbn [SFmul xorb].
  pose proof (log2_mul_ge mx my). pose proof (Z.log2_nonneg (Z.pos mx)). pose proof (Z.log2_nonneg (Z.pos my)).
  set (m := Z.pos (mx * my)) in *. assert (0 < m) as Hm by (unfold m; lia).
  assert (ex + ey ≤ fexp64 (Zdigits2 m + (ex + ey))) as He by (rewrite fexp_eq, Zdigits2_log2 by lia; lia).
  destruct (round_aux_spec false m (ex + ey) loc_Exact ltac:(lia) He) as (c & [Hv Hr] & _ & _ & Hexact).
  pose proof (exact_round m (ex + ey) c Hm ltac:(lia) He (Hexact eq_refl)) as Hc.
  assert (m * 2 ^ (ex + ey + 1074) = a * b * unit64) as Em.
  { apply (Z.mul_cancel_r _ _ unit64); [lia|]. rewrite <-Z.mul_assoc. unfold unit64 at 1. rewrite <-Z.pow_add_r by lia.
    replace (ex + ey + 1074 + 1074) with ((ex + 1074) + (ey + 1074)) by lia. rewrite Z.pow_add_r by lia.
    transitivity ((a * unit64) * (b * unit64)); [|ring]. rewrite <-Hua, <-Hub. cbn [units cond_Zopp]. unfold m. rewrite Pos2Z.inj_mul. ring. }
  rewrite Em, <-rnd53_pos_pos in Hc by nia. unfold unit64 in Hc at 1. rewrite rnd53_shift in Hc by nia. fold unit64 in Hc.
  assert (a * b * unit64 ≤ 2 ^ 53 * unit64) by (apply Z.mul_le_mono_nonneg_r; lia).
  assert (2 ^ 53 * unit64 < 2 ^ 1024 * unit64) by (apply Z.mul_lt_mono_pos_r; [done|by vm_compute]).
  destruct Hr as [[_ Hr]|[[_ ->]|(m' & e0 & E & Heq)]]; [fold unit64 in Hr; rewrite Hc in Hr; lia|nia|].
  split; [done|]. rewrite E. split; [done|]. cbn [units cond_Zopp]. rewrite Heq, Hc. lia.
Qed.
