(* ===== verification/Model.v ===== *)
(** * Task data (package [model])

    The task envelope shared by clients, servers and stores, and its validation. *)

From S2P Require Import Prelude GoLib.

(** ** Task states: [type TaskState string] and its six constants *)

Definition TaskState := string.

Definition StatePending : TaskState := "pending".
Definition StateScheduled : TaskState := "scheduled".
Definition StateActive : TaskState := "active".
Definition StateRetry : TaskState := "retry".
Definition StateArchived : TaskState := "archived".
Definition StateCompleted : TaskState := "completed".

Definition TaskState_String (s : TaskState) : string := s.

(** ** The envelope *)

Record TaskMessage := mkTaskMessage {
  ID : string;
  TaskType : string;
  Payload : list Byte.byte;
  Queue : string;
  Priority : Z;
  MaxRetry : Z;
  RetryCount : Z;
  Timeout : Duration;
  Deadline : Time;
  RunAt : Time;
  State : TaskState;
  AttemptID : string;
  LastError : string;
  LastFailedAt : Time;
  CompletedAt : Time;
  CreatedAt : Time
}.

#[export] Instance byte_eq_dec : EqDecision Byte.byte.
Proof. intros a b. destruct (Byte.byte_eq_dec a b); [left|right]; done. Defined.

#[export] Instance TaskMessage_eq_dec : EqDecision TaskMessage.
Proof. unfold EqDecision, TaskState, Time, Duration in *. solve_decision. Defined.

(** The zero value [model.TaskMessage{}]. *)
Definition zeroMessage : TaskMessage :=
  {| ID := ""; TaskType := ""; Payload := []; Queue := ""; Priority := 0; MaxRetry := 0;
     RetryCount := 0; Timeout := 0; Deadline := zeroTime; RunAt := zeroTime; State := "";
     AttemptID := ""; LastError := ""; LastFailedAt := zeroTime; CompletedAt := zeroTime;
     CreatedAt := zeroTime |}.

(** Field assignments [m.F = v]. *)
Definition set_State (v : TaskState) (m : TaskMessage) : TaskMessage :=
  let 'mkTaskMessage a b c d e f g h i j _ l n o p q := m in
  mkTaskMessage a b c d e f g h i j v l n o p q.
Definition set_AttemptID (v : string) (m : TaskMessage) : TaskMessage :=
  let 'mkTaskMessage a b c d e f g h i j k _ n o p q := m in
  mkTaskMessage a b c d e f g h i j k v n o p q.
Definition set_LastError (v : string) (m : TaskMessage) : TaskMessage :=
  let 'mkTaskMessage a b c d e f g h i j k l _ o p q := m in
  mkTaskMessage a b c d e f g h i j k l v o p q.
Definition set_LastFailedAt (v : Time) (m : TaskMessage) : TaskMessage :=
  let 'mkTaskMessage a b c d e f g h i j k l n _ p q := m in
  mkTaskMessage a b c d e f g h i j k l n v p q.
Definition set_CompletedAt (v : Time) (m : TaskMessage) : TaskMessage :=
  let 'mkTaskMessage a b c d e f g h i j k l n o _ q := m in
  mkTaskMessage a b c d e f g h i j k l n o v q.
Definition set_RetryCount (v : Z) (m : TaskMessage) : TaskMessage :=
  let 'mkTaskMessage a b c d e f _ h i j k l n o p q := m in
  mkTaskMessage a b c d e f v h i j k l n o p q.
Definition set_RunAt (v : Time) (m : TaskMessage) : TaskMessage :=
  let 'mkTaskMessage a b c d e f g h i _ k l n o p q := m in
  mkTaskMessage a b c d e f g h i v k l n o p q.

(** ** [Validate] *)

Definition Validate (m : option TaskMessage) : option error :=
  match m with
  | None => Some (errors_New "task message is nil")
  | Some m =>
      if String.eqb (ID m) "" then Some (errors_New "task id is required")
      else if String.eqb (TaskType m) "" then Some (errors_New "task type is required")
      else if String.eqb (Queue m) "" then Some (errors_New "task queue is required")
      else if Priority m <? 0 then
        Some (errors_New ("task priority must be non-negative: " +:+ FormatInt (Priority m)))
      else if MaxRetry m <? 0 then
        Some (errors_New ("max retry must be non-negative: " +:+ FormatInt (MaxRetry m)))
      else if Timeout m <? 0 then Some (errors_New "task timeout cannot be negative")
      else None
  end.

(** What a message accepted by [Validate] satisfies. *)
Record valid_message (m : TaskMessage) : Prop := {
  valid_ID : ID m ≠ "";
  valid_Type : TaskType m ≠ "";
  valid_Queue : Queue m ≠ "";
  valid_Priority : 0 ≤ Priority m;
  valid_MaxRetry : 0 ≤ MaxRetry m;
  valid_Timeout : 0 ≤ Timeout m
}.

(** [Validate] returns nil exactly on the non-nil messages that meet every
    requirement of durable storage. *)
Lemma Validate_nil_iff m : Validate m = None ↔ ∃ m', m = Some m' ∧ valid_message m'.
Proof.
  unfold Validate. split.
  - intros H. destruct m as [m|]; [|done]. exists m. split; [done|].
    repeat case_match; bool_to_prop; done.
  - intros (m' & -> & []). repeat case_match; bool_to_prop; try done; lia.
Qed.
