(* ===== verification/Storage.v ===== *)
(** * The storage contract's errors (package [storage])

    The sentinel errors every [TaskStore] returns and the test the dispatcher uses
    to recognise an empty queue. *)

From S2P Require Import Prelude GoLib.

Definition ErrNoTask : error := Err (Var "storage.ErrNoTask") "no processable task" [].
Definition ErrQueueEmpty : error :=
  Err (Var "storage.ErrQueueEmpty") ("task queue is empty: " +:+ error_text ErrNoTask) [ErrNoTask].
Definition ErrTaskNotFound : error :=
  Err (Var "storage.ErrTaskNotFound") ("task not found: " +:+ error_text ErrNoTask) [ErrNoTask].
Definition ErrTaskExists : error :=
  Err (Var "storage.ErrTaskExists") "task already exists" [].
Definition ErrInvalidTransition : error :=
  Err (Var "storage.ErrInvalidTransition") "invalid task state transition" [].

(** [IsQueueEmpty]: [None] is the nil error. *)
Definition IsQueueEmpty (err : option error) : bool :=
  match err with
  | None => false
  | Some e =>
      if errors_Is e ErrTaskNotFound then false
      else (errors_Is e ErrQueueEmpty || errors_Is e ErrNoTask)%bool
  end.

(** The package-level variables an error is or wraps, at any depth. *)
Fixpoint mentions (x : string) (e : error) : Prop :=
  let 'Err id _ ws := e in
  id = Var x ∨ (fix any (ws : list error) : Prop :=
                  match ws with [] => False | w :: ws => mentions x w ∨ any ws end) ws.

Lemma errors_Is_mentions e x t ws :
  errors_Is e (Err (Var x) t ws) = true ↔ mentions x e.
Proof.
  induction e as [id txt es IH] using error_nested_ind. cbn [errors_Is mentions same_var].
  rewrite orb_true_iff.
  assert (existsb (λ w, errors_Is w (Err (Var x) t ws)) es = true ↔
    (fix any (ws : list error) : Prop :=
       match ws with [] => False | w :: ws => mentions x w ∨ any ws end) es) as ->.
  { induction IH as [|e es He _ IHes]; cbn [existsb]; [done|]. by rewrite orb_true_iff, He, IHes. }
  destruct id as [y|]; [|intuition discriminate].
  rewrite String.eqb_eq. naive_solver.
Qed.

(** [IsQueueEmpty] accepts the errors that are or wrap the compatibility root, at any
    depth, except those that are or wrap [ErrTaskNotFound]. *)
Lemma IsQueueEmpty_spec e :
  IsQueueEmpty (Some e) = true ↔
    ¬ mentions "storage.ErrTaskNotFound" e ∧
    (mentions "storage.ErrQueueEmpty" e ∨ mentions "storage.ErrNoTask" e).
Proof.
  unfold IsQueueEmpty. rewrite <-!errors_Is_mentions with (t := "") (ws := []).
  assert (∀ x t t' ws ws', errors_Is e (Err (Var x) t ws) = errors_Is e (Err (Var x) t' ws')) as Hi.
  { intros. apply eq_bool_prop_intro. rewrite !Is_true_true, !errors_Is_mentions. done. }
  unfold ErrTaskNotFound, ErrQueueEmpty, ErrNoTask.
  rewrite (Hi _ _ "" _ []), (Hi "storage.ErrQueueEmpty" _ "" _ []), (Hi "storage.ErrNoTask" _ "" _ []).
  destruct (errors_Is e (Err (Var "storage.ErrTaskNotFound") "" [])); rewrite ?orb_true_iff; naive_solver.
Qed.
