(* ===== verification/Redis.v ===== *)
(** * The Redis server as an interface

    The store runs Lua scripts and single commands on a Redis server. The server is
    not part of the repository: it is the class [Redis] below, whose law
    [exec_documented] states the documented behaviour of the commands the code uses
    as a function on the visible keyspace. [RedisMem] is a server that satisfies it. *)

From S2P Require Import Prelude GoLib.

(** ** Values *)

(** A sorted set maps members to scores. Every score this program writes is an
    integer-valued double, represented by its integer. *)
Inductive rval :=
| RStr (s : string)
| RHash (h : gmap string string)
| RList (l : list string)
| RZSet (z : gmap string Z).

Abbreviation keyspace_t := (gmap string rval).

(** ** Commands *)

Inductive bound := NegInf | Score (s : string).

Inductive cmd : Type → Type :=
| EXISTS (key : string) : cmd Z
| DEL (key : string) : cmd Z
| INCR (key : string) : cmd Z
| HSET (key : string) (fvs : list (string * string)) : cmd unit
| HGET (key field : string) : cmd (option string)
| HMGET (key : string) (fields : list string) : cmd (list (option string))
| HDEL (key field : string) : cmd Z
| LPUSH (key elem : string) : cmd unit
| RPUSH (key elem : string) : cmd unit
| LREM1 (key elem : string) : cmd Z
| ZADD (key score member : string) : cmd unit
| ZREM (key member : string) : cmd Z
| ZCARD (key : string) : cmd Z
| ZRANGE (key : string) (start stop : Z) : cmd (list string)
| ZRANGEBYSCORE (key : string) (max : bound) (limit : option (Z * Z)) : cmd (list string).

(** ** The documented behaviour of the commands *)

Definition err_wrongtype : string :=
  "WRONGTYPE Operation against a key holding the wrong kind of value".
Definition err_not_float : string := "ERR value is not a valid float".
Definition err_not_integer : string := "ERR value is not an integer or out of range".

Definition get_hash (ks : keyspace_t) (k : string) : string + gmap string string :=
  match ks !! k with None => inr ∅ | Some (RHash h) => inr h | Some _ => inl err_wrongtype end.
Definition get_list (ks : keyspace_t) (k : string) : string + list string :=
  match ks !! k with None => inr [] | Some (RList l) => inr l | Some _ => inl err_wrongtype end.
Definition get_zset (ks : keyspace_t) (k : string) : string + gmap string Z :=
  match ks !! k with None => inr ∅ | Some (RZSet z) => inr z | Some _ => inl err_wrongtype end.

(** A key holding an empty aggregate does not exist. *)
Definition put_hash (ks : keyspace_t) (k : string) (h : gmap string string) : keyspace_t :=
  if decide (h = ∅) then delete k ks else <[k := RHash h]> ks.
Definition put_list (ks : keyspace_t) (k : string) (l : list string) : keyspace_t :=
  if decide (l = []) then delete k ks else <[k := RList l]> ks.
Definition put_zset (ks : keyspace_t) (k : string) (z : gmap string Z) : keyspace_t :=
  if decide (z = ∅) then delete k ks else <[k := RZSet z]> ks.

(** Members of a sorted set, by score and then byte-wise by member. *)
Definition zle (a b : string * Z) : Prop :=
  a.2 < b.2 ∨ (a.2 = b.2 ∧ String.le a.1 b.1).

#[export] Instance zle_dec : RelDecision zle.
Proof. intros a b. unfold zle. apply _. Defined.

Definition zsorted (z : gmap string Z) : list (string * Z) := merge_sort zle (map_to_list z).

#[export] Instance zle_trans : Transitive zle.
Proof.
  intros [m1 s1] [m2 s2] [m3 s3]. unfold zle. simpl. intros [?|[? ?]] [?|[? ?]]; try (left; lia).
  right. split; [lia|]. by etrans.
Qed.
#[export] Instance zle_total : Total zle.
Proof.
  intros [m1 s1] [m2 s2]. unfold zle. simpl. destruct (Z.lt_trichotomy s1 s2) as [?|[->|?]]; auto.
  destruct (total String.le m1 m2); auto.
Qed.

Lemma elem_of_zsorted (z : gmap string Z) m s : (m, s) ∈ zsorted z ↔ z !! m = Some s.
Proof. unfold zsorted. by rewrite merge_sort_Permutation, elem_of_map_to_list. Qed.

Lemma NoDup_zsorted (z : gmap string Z) : NoDup (zsorted z).*1.
Proof. unfold zsorted. rewrite merge_sort_Permutation. apply NoDup_fst_map_to_list. Qed.

(** The first element of the sorted members is the smallest. *)
Lemma zsorted_head (z : gmap string Z) x l y :
  zsorted z = x :: l → y ∈ zsorted z → zle x y.
Proof.
  intros E Hy. pose proof (StronglySorted_merge_sort zle (map_to_list z)) as Hs.
  fold (zsorted z) in Hs. rewrite E in Hs, Hy. apply StronglySorted_inv in Hs as [_ Hs].
  rewrite Forall_forall in Hs. apply elem_of_cons in Hy as [->|Hy]; [|by apply Hs].
  by destruct (total zle x x).
Qed.

(** Index ranges of [ZRANGE]: negative indices count from the end. *)
Definition slice (start stop : Z) (l : list string) : list string :=
  let n := Z.of_nat (length l) in
  let s := Z.max 0 (if start <? 0 then start + n else start) in
  let e := Z.min (n - 1) (if stop <? 0 then stop + n else stop) in
  if (e <? s) then [] else take (Z.to_nat (e - s + 1)) (drop (Z.to_nat s) l).

Lemma slice_first l : slice 0 0 l = take 1 l.
Proof.
  unfold slice. destruct l as [|x l]; [done|].
  change (0 <? 0) with false. cbv iota. rewrite Z.min_r, Z.max_l by (simpl; lia). done.
Qed.

(** [LIMIT offset count]: a negative count means no limit. *)
Definition limit_slice (limit : option (Z * Z)) (l : list string) : list string :=
  match limit with
  | None => l
  | Some (off, count) =>
      if off <? 0 then []
      else
        let l := drop (Z.to_nat off) l in
        if count <? 0 then l else take (Z.to_nat count) l
  end.

Section documented.
(** How the server reads a decimal string as a double. *)
Variable parse_score : string → option Z.

Definition with_err {A B} (r : string + A) (ks : keyspace_t)
    (k : A → keyspace_t * (string + B)) : keyspace_t * (string + B) :=
  match r with inl e => (ks, inl e) | inr a => k a end.

Definition doc_exec {A} (c : cmd A) (ks : keyspace_t) : keyspace_t * (string + A) :=
  match c with
  | EXISTS k => (ks, inr (match ks !! k with Some _ => 1 | None => 0 end))
  | DEL k => (delete k ks, inr (match ks !! k with Some _ => 1 | None => 0 end))
  | INCR k =>
      match ks !! k with
      | None => (<[k := RStr "1"]> ks, inr 1)
      | Some (RStr s) =>
          match ParseInt s with
          | Some n =>
              if decide (int64 (n + 1)) then (<[k := RStr (FormatInt (n + 1))]> ks, inr (n + 1))
              else (ks, inl "ERR increment or decrement would overflow")
          | None => (ks, inl err_not_integer)
          end
      | Some _ => (ks, inl err_wrongtype)
      end
  | HSET k fvs =>
      with_err (get_hash ks k) ks (λ h,
        (put_hash ks k (foldl (λ h fv, <[fv.1 := fv.2]> h) h fvs), inr tt))
  | HGET k f => with_err (get_hash ks k) ks (λ h, (ks, inr (h !! f)))
  | HMGET k fs => with_err (get_hash ks k) ks (λ h, (ks, inr ((λ f, h !! f) <$> fs)))
  | HDEL k f =>
      with_err (get_hash ks k) ks (λ h,
        (put_hash ks k (delete f h), inr (match h !! f with Some _ => 1 | None => 0 end)))
  | LPUSH k e => with_err (get_list ks k) ks (λ l, (put_list ks k (e :: l), inr tt))
  | RPUSH k e => with_err (get_list ks k) ks (λ l, (put_list ks k (l ++ [e]), inr tt))
  | LREM1 k e =>
      with_err (get_list ks k) ks (λ l,
        (put_list ks k (remove_first e l), inr (if decide (e ∈ l) then 1 else 0)))
  | ZADD k s m =>
      match parse_score s with
      | None => (ks, inl err_not_float)
      | Some sc => with_err (get_zset ks k) ks (λ z, (put_zset ks k (<[m := sc]> z), inr tt))
      end
  | ZREM k m =>
      with_err (get_zset ks k) ks (λ z,
        (put_zset ks k (delete m z), inr (match z !! m with Some _ => 1 | None => 0 end)))
  | ZCARD k => with_err (get_zset ks k) ks (λ z, (ks, inr (Z.of_nat (size z))))
  | ZRANGE k start stop =>
      with_err (get_zset ks k) ks (λ z, (ks, inr (slice start stop (zsorted z).*1)))
  | ZRANGEBYSCORE k max limit =>
      match max with
      | Score s =>
          match parse_score s with
          | None => (ks, inl "ERR min or max is not a float")
          | Some b =>
              with_err (get_zset ks k) ks (λ z,
                (ks, inr (limit_slice limit (filter (λ ms, ms.2 ≤ b) (zsorted z)).*1)))
          end
      | NegInf => with_err (get_zset ks k) ks (λ z, (ks, inr []))
      end
  end.
End documented.

(** ** The interface *)

Class Redis := {
  db : Type;
  exec : ∀ {A}, cmd A → db → db * (string + A);
  keyspace : db → keyspace_t;
  parse_score : string → option Z;

  (** A command changes the visible keyspace and answers as documented. *)
  exec_documented : ∀ A (c : cmd A) d,
    (keyspace (exec c d).1, (exec c d).2) = doc_exec parse_score c (keyspace d);
  (** A decimal integer is read as the nearest double. *)
  parse_score_int : ∀ z, int64 z → parse_score (FormatInt z) = Some (rnd53 z);
  (** A decimal with a zero fraction is read as the nearest double. *)
  parse_score_frac : ∀ z, parse_score (FormatInt z +:+ ".000") = Some (rnd53 z)
}.

(** ** Scripts

    A script runs commands one after the other without interleaving; an error
    raised by a command or by Lua aborts it and keeps the writes already made. *)

Section script.
Context `{Redis}.

Definition Script (A : Type) : Type := db → db * (string + A).

Definition sret {A} (a : A) : Script A := λ d, (d, inr a).
Definition sraise {A} (e : string) : Script A := λ d, (d, inl e).
Definition sbind {A B} (m : Script A) (k : A → Script B) : Script B := λ d,
  match m d with
  | (d, inl e) => (d, inl e)
  | (d, inr a) => k a d
  end.
Definition call {A} (c : cmd A) : Script A := exec c.
End script.

Declare Scope script_scope.
Delimit Scope script_scope with script.
Bind Scope script_scope with Script.

Notation "x <- m ;; k" := (sbind m (λ x, k))
  (at level 100, m at next level, right associativity) : script_scope.
Notation "m ;;; k" := (sbind m (λ _, k))
  (at level 100, right associativity) : script_scope.
