(* ===== verification/RedisMem.v ===== *)
(** * An in-memory server

    The documented behaviour of the commands, run directly on a keyspace: a concrete
    server that satisfies the laws of [Redis], used to evaluate the store. *)

From S2P Require Import Prelude GoLib Redis.
From Stdlib Require Import Numbers.DecimalString.

Definition dot_char : Ascii.ascii := Ascii.ascii_of_nat 46.

Definition mem_parse_score (s : string) : option Z :=
  let '(a, b) := cut_at dot_char s in
  if (String.eqb b "" || String.eqb b ".000")%bool
  then (rnd53 ∘ Z.of_int) <$> NilZero.int_of_string a
  else None.

Lemma FormatInt_no_dot z : string_has dot_char (FormatInt z) = false.
Proof. by apply FormatInt_chars. Qed.

Lemma mem_parse_int z : (rnd53 ∘ Z.of_int) <$> NilZero.int_of_string (FormatInt z) = Some (rnd53 z).
Proof. rewrite option_fmap_compose, int_of_FormatInt. done. Qed.

#[export] Program Instance RedisMem : Redis := {|
  db := keyspace_t;
  exec := @doc_exec mem_parse_score;
  keyspace := id;
  parse_score := mem_parse_score
|}.
Next Obligation. intros A c d. simpl. by destruct (doc_exec _ _ _). Qed.
Next Obligation.
  intros z _. unfold mem_parse_score. rewrite cut_at_none by apply FormatInt_no_dot.
  apply mem_parse_int.
Qed.
Next Obligation.
  intros z. unfold mem_parse_score. change ".000" with (String dot_char "000").
  rewrite cut_at_app by apply FormatInt_no_dot. apply mem_parse_int.
Qed.
