(* ===== verification/Keys.v ===== *)
(** * The key layout ([internal/redisstore/rdb.go], [internal/limiter/bucket.go])

    The Redis keys of a queue, the rank members of its pending set, and why keys of
    one queue, and of two queues, never alias. *)

From S2P Require Import Prelude GoLib.

Definition keyPrefix : string := "gte:".

Definition queuePrefix (queue : string) : string := keyPrefix +:+ "{" +:+ queue +:+ "}:".
Definition TaskKey (queue id : string) : string := queuePrefix queue +:+ "task:" +:+ id.
Definition PendingKey (queue : string) : string := queuePrefix queue +:+ "pending".
Definition PendingRankKey (queue : string) : string := queuePrefix queue +:+ "pending_rank".
Definition SequenceKey (queue : string) : string := queuePrefix queue +:+ "sequence".
Definition ScheduledKey (queue : string) : string := queuePrefix queue +:+ "scheduled".
Definition RetryKey (queue : string) : string := queuePrefix queue +:+ "retry".
Definition ActiveKey (queue : string) : string := queuePrefix queue +:+ "active".
Definition LeaseKey (queue : string) : string := queuePrefix queue +:+ "lease".
Definition ArchivedKey (queue : string) : string := queuePrefix queue +:+ "archived".

(** [ScopeKey] of the rate limiter; [None] is its panic on an empty scope. *)
Definition ScopeKey (scope : string) : option string :=
  if String.eqb scope "" then None else Some ("gte:limiter:" +:+ scope).

(** Lua's [string.format("%020d", n)]. *)
Definition lua_format_020d (n : Z) : string :=
  if n <? 0 then "-" +:+ digits 19 (- n) else digits 20 n.

(** The member of the pending set: [string.format("%020d", sequence) .. ":" .. id]. *)
Definition rankMember (sequence : Z) (id : string) : string :=
  lua_format_020d sequence +:+ ":" +:+ id.

(** ** The key constructors keep to their queue *)

Definition brace_char : Ascii.ascii := Ascii.ascii_of_nat 125.

(** Queue names without a closing brace, for which Redis hash tags, and the prefixes
    below, identify the queue. *)
Definition plain_queue (queue : string) : Prop := string_has brace_char queue = false.

#[export] Instance plain_queue_dec q : Decision (plain_queue q).
Proof. unfold plain_queue. apply _. Defined.

Lemma queuePrefix_app_inj q q' a b :
  plain_queue q → plain_queue q' →
  queuePrefix q +:+ a = queuePrefix q' +:+ b → q = q' ∧ a = b.
Proof.
  unfold plain_queue, queuePrefix. intros Hq Hq'.
  rewrite <-!string_app_assoc. intros Heq%(inj (String.append _))%(inj (String.append _)).
  change ("}:" +:+ a) with (String brace_char (":" +:+ a)) in Heq.
  change ("}:" +:+ b) with (String brace_char (":" +:+ b)) in Heq.
  apply string_cut_inj in Heq as [-> Heq]; [|done..].
  split; [done|]. by apply (inj (String.append ":")) in Heq.
Qed.

Lemma TaskKey_inj queue id id' : TaskKey queue id = TaskKey queue id' → id = id'.
Proof. unfold TaskKey. by intros ?%(inj (String.append _))%(inj (String.append _)). Qed.

(** A closing brace in a queue name defeats the layout: two tasks of two queues then share
    one key. [Validate] does not exclude such names. *)
Lemma TaskKey_collision : TaskKey "a" "b}:task:c" = TaskKey "a}:task:b" "c".
Proof. reflexivity. Qed.

(** ** Rank members *)

Lemma lua_format_020d_length n : String.length (lua_format_020d n) = 20%nat.
Proof.
  unfold lua_format_020d. case_match.
  - rewrite string_length_app, digits_length. done.
  - by rewrite digits_length.
Qed.

(** The claim script recovers the id from a rank member: [string.sub(m, 22)]. *)
Lemma rankMember_drop seq id : string_drop 21 (rankMember seq id) = id.
Proof.
  unfold rankMember. rewrite string_app_assoc.
  replace 21%nat with (String.length (lua_format_020d seq +:+ ":")).
  - apply string_drop_app.
  - by rewrite string_length_app, lua_format_020d_length.
Qed.

Lemma rankMember_inj seq seq' id id' :
  rankMember seq id = rankMember seq' id' → id = id'.
Proof. intros Heq. by rewrite <-(rankMember_drop seq id), Heq, rankMember_drop. Qed.

(** Byte-wise, rank members are ordered by their sequence numbers. *)
Lemma rankMember_compare seq seq' id id' :
  0 ≤ seq < 10 ^ 20 → 0 ≤ seq' < 10 ^ 20 → seq ≠ seq' →
  String.compare (rankMember seq id) (rankMember seq' id') = (seq ?= seq').
Proof.
  intros ?? Hne. unfold rankMember, lua_format_020d.
  rewrite !(proj2 (Z.ltb_ge _ _)) by lia.
  rewrite string_compare_app by (by rewrite !digits_length).
  rewrite digits_compare by done.
  by destruct (Z.compare_spec seq seq').
Qed.

(** ** Distinctness of the keys of one queue *)

(** Closes [queuePrefix q +:+ a ≠ queuePrefix q +:+ b] for suffixes that differ at a
    known character. *)
Ltac key_neq :=
  let H := fresh in
  unfold TaskKey, PendingKey, PendingRankKey, SequenceKey, ScheduledKey, RetryKey, ActiveKey,
    LeaseKey, ArchivedKey;
  intros H; apply (inj (String.append _)) in H; discriminate H.
