(* ===== verification/Scripts.v ===== *)
(** * The Lua scripts of the store ([internal/redisstore/rdb.go])

    One definition per script, with its [KEYS] and [ARGV] as arguments in their
    order. A Lua [nil]/[false] reply of [HGET] is [None]; comparing it with a string
    is false, passing it to a command raises an error. *)

From S2P Require Import Prelude GoLib Redis Keys.

(** What a script answers the client with. *)
Inductive reply := IntReply (z : Z) | BulkReply (s : string).

Section scripts.
Context `{Redis}.
#[local] Open Scope script_scope.

(** A value passed to [redis.call]: [false] is refused. *)
Definition lua_arg (v : option string) : Script string :=
  match v with
  | Some s => sret s
  | None => sraise "ERR Lua redis lib command arguments must be strings or integers"
  end.

(** [tonumber(s)] in a comparison: [nil] raises. *)
Definition lua_number (s : string) : Script Z :=
  match parse_score s with
  | Some n => sret n
  | None => sraise "ERR attempt to compare number with nil"
  end.

(** [HGET key field == value]. *)
Definition field_is (v : option string) (value : string) : bool := bool_decide (v = Some value).

Definition enqueueScript (KEYS1 KEYS2 KEYS3 KEYS4 ARGV1 ARGV2 ARGV3 ARGV4 : string) : Script Z :=
  e <- call (EXISTS KEYS1) ;;
  if e =? 1 then sret 0 else
  n <- call (INCR KEYS4) ;;
  let sequence := rnd53 n in
  let member := rankMember sequence ARGV2 in
  call (HSET KEYS1 [("msg", ARGV1); ("state", "pending"); ("priority", ARGV3);
                    ("rank", ARGV4); ("rank_member", member)]) ;;;
  call (LPUSH KEYS2 ARGV2) ;;;
  call (ZADD KEYS3 ARGV4 member) ;;;
  sret 1.

Definition scheduleScript (KEYS1 KEYS2 KEYS3 ARGV1 ARGV2 ARGV3 ARGV4 ARGV5 : string) : Script Z :=
  e <- call (EXISTS KEYS1) ;;
  if e =? 1 then sret 0 else
  n <- call (INCR KEYS3) ;;
  let sequence := rnd53 n in
  let member := rankMember sequence ARGV2 in
  call (HSET KEYS1 [("msg", ARGV1); ("state", "scheduled"); ("priority", ARGV3);
                    ("rank", ARGV4); ("rank_member", member)]) ;;;
  call (ZADD KEYS2 ARGV5 ARGV2) ;;;
  sret 1.

Definition claimScript (KEYS1 KEYS2 KEYS3 KEYS4 KEYS5 ARGV1 ARGV2 ARGV3 : string) :
    Script (list reply) :=
  rankMembers <- call (ZRANGE KEYS2 0 0) ;;
  match rankMembers with
  | [] => sret [IntReply 0; BulkReply ""]
  | member :: _ =>
      n <- call (ZREM KEYS2 member) ;;
      if n =? 0 then sret [IntReply 0; BulkReply ""] else
      let candidateID := string_drop 21 member in
      rm <- call (HGET (KEYS1 +:+ candidateID) "rank_member") ;;
      let id := if field_is rm member then candidateID else member in
      call (LREM1 KEYS3 id) ;;;
      let taskKey := KEYS1 +:+ id in
      msg <- call (HGET taskKey "msg") ;;
      match msg with
      | None => sret [IntReply 0; BulkReply ""]
      | Some msg =>
          call (HSET taskKey [("state", "active"); ("active_since", ARGV1); ("attempt_id", ARGV3)]) ;;;
          call (RPUSH KEYS4 id) ;;;
          call (ZADD KEYS5 ARGV2 id) ;;;
          sret [IntReply 1; BulkReply msg]
      end
  end.

Fixpoint moveReadyLoop (KEYS1 KEYS2 KEYS3 ARGV3 : string) (max moved : Z) (ids : list string) :
    Script Z :=
  match ids with
  | [] => sret moved
  | id :: ids =>
      if max <=? moved then sret moved else
      n <- call (ZREM KEYS1 id) ;;
      if n =? 1 then
        let taskKey := ARGV3 +:+ id in
        rank <- call (HGET taskKey "rank") ;;
        member <- call (HGET taskKey "rank_member") ;;
        match rank with
        | Some rank =>
            let member := default id member in
            call (HSET taskKey [("state", "pending")]) ;;;
            call (LPUSH KEYS2 id) ;;;
            call (ZADD KEYS3 rank member) ;;;
            moveReadyLoop KEYS1 KEYS2 KEYS3 ARGV3 max (moved + 1) ids
        | None => moveReadyLoop KEYS1 KEYS2 KEYS3 ARGV3 max moved ids
        end
      else moveReadyLoop KEYS1 KEYS2 KEYS3 ARGV3 max moved ids
  end.

Definition moveReadyScript (KEYS1 KEYS2 KEYS3 ARGV1 ARGV2 ARGV3 : string) : Script Z :=
  ids <- call (ZRANGEBYSCORE KEYS1 (Score ARGV1) None) ;;
  match ids with
  | [] => sret 0
  | _ =>
      max <- lua_number ARGV2 ;;
      moveReadyLoop KEYS1 KEYS2 KEYS3 ARGV3 max 0 ids
  end.

Definition moveOneScript (KEYS1 KEYS2 KEYS3 KEYS4 ARGV1 : string) : Script Z :=
  n <- call (ZREM KEYS1 ARGV1) ;;
  if n =? 0 then sret 0 else
  rank <- call (HGET KEYS4 "rank") ;;
  member <- call (HGET KEYS4 "rank_member") ;;
  match rank with
  | None => sret 0
  | Some rank =>
      let member := default ARGV1 member in
      call (HSET KEYS4 [("state", "pending")]) ;;;
      call (LPUSH KEYS2 ARGV1) ;;;
      call (ZADD KEYS3 rank member) ;;;
      sret 1
  end.

(** The two guards of the scripts that end an attempt: the task is active and the
    caller's attempt owns it. *)
Definition guard_attempt (key attempt : string) (body : Script Z) : Script Z :=
  state <- call (HGET key "state") ;;
  if negb (field_is state "active") then sret 0 else
  a <- call (HGET key "attempt_id") ;;
  if negb (field_is a attempt) then sret 0 else body.

Definition ackScript (KEYS1 KEYS2 KEYS3 ARGV1 ARGV2 ARGV3 ARGV4 : string) : Script Z :=
  guard_attempt KEYS1 ARGV4 (
    call (LREM1 KEYS2 ARGV1) ;;;
    call (ZREM KEYS3 ARGV1) ;;;
    call (HSET KEYS1 [("msg", ARGV2); ("state", "completed"); ("completed_at", ARGV3)]) ;;;
    call (HDEL KEYS1 "attempt_id") ;;;
    sret 1).

Definition retryScript (KEYS1 KEYS2 KEYS3 KEYS4 ARGV1 ARGV2 ARGV3 ARGV4 ARGV5 : string) : Script Z :=
  guard_attempt KEYS1 ARGV5 (
    call (LREM1 KEYS2 ARGV1) ;;;
    call (ZREM KEYS3 ARGV1) ;;;
    call (HSET KEYS1 [("msg", ARGV2); ("state", "retry"); ("retry_at", ARGV3); ("last_error", ARGV4)]) ;;;
    call (HDEL KEYS1 "attempt_id") ;;;
    call (ZADD KEYS4 ARGV3 ARGV1) ;;;
    sret 1).

Definition archiveScript (KEYS1 KEYS2 KEYS3 KEYS4 ARGV1 ARGV2 ARGV3 ARGV4 ARGV5 : string) : Script Z :=
  guard_attempt KEYS1 ARGV5 (
    call (LREM1 KEYS2 ARGV1) ;;;
    call (ZREM KEYS3 ARGV1) ;;;
    call (HSET KEYS1 [("msg", ARGV2); ("state", "archived"); ("last_error", ARGV3)]) ;;;
    call (HDEL KEYS1 "attempt_id") ;;;
    call (ZADD KEYS4 ARGV4 ARGV1) ;;;
    sret 1).

Definition requeueScript (KEYS1 KEYS2 KEYS3 KEYS4 KEYS5 ARGV1 ARGV2 : string) : Script Z :=
  guard_attempt KEYS1 ARGV2 (
    rank <- call (HGET KEYS1 "rank") ;;
    member <- call (HGET KEYS1 "rank_member") ;;
    let member := default ARGV1 member in
    call (LREM1 KEYS2 ARGV1) ;;;
    call (ZREM KEYS3 ARGV1) ;;;
    call (HSET KEYS1 [("state", "pending")]) ;;;
    call (HDEL KEYS1 "attempt_id") ;;;
    call (LPUSH KEYS4 ARGV1) ;;;
    rank <- lua_arg rank ;;
    call (ZADD KEYS5 rank member) ;;;
    sret 1).

Definition replayArchivedScript (KEYS1 KEYS2 KEYS3 KEYS4 ARGV1 ARGV2 : string) : Script Z :=
  state <- call (HGET KEYS1 "state") ;;
  if negb (field_is state "archived") then sret 0 else
  rank <- call (HGET KEYS1 "rank") ;;
  member <- call (HGET KEYS1 "rank_member") ;;
  match rank with
  | None => sret 0
  | Some rank =>
      let member := default ARGV1 member in
      n <- call (ZREM KEYS2 ARGV1) ;;
      if n =? 0 then sret 0 else
      call (HSET KEYS1 [("msg", ARGV2); ("state", "pending")]) ;;;
      call (LPUSH KEYS3 ARGV1) ;;;
      call (ZADD KEYS4 rank member) ;;;
      sret 1
  end.

Definition deleteArchivedScript (KEYS1 KEYS2 ARGV1 : string) : Script Z :=
  state <- call (HGET KEYS1 "state") ;;
  if negb (field_is state "archived") then sret 0 else
  n <- call (ZREM KEYS2 ARGV1) ;;
  if n =? 0 then sret 0 else
  call (DEL KEYS1) ;;;
  sret 1.

Fixpoint cleanupArchivedLoop (KEYS1 ARGV3 : string) (max removed : Z) (ids : list string) : Script Z :=
  match ids with
  | [] => sret removed
  | id :: ids =>
      if max <=? removed then sret removed else
      let taskKey := ARGV3 +:+ id in
      state <- call (HGET taskKey "state") ;;
      if field_is state "archived" then
        n <- call (ZREM KEYS1 id) ;;
        if n =? 1 then
          call (DEL taskKey) ;;;
          cleanupArchivedLoop KEYS1 ARGV3 max (removed + 1) ids
        else cleanupArchivedLoop KEYS1 ARGV3 max removed ids
      else cleanupArchivedLoop KEYS1 ARGV3 max removed ids
  end.

Definition cleanupArchivedScript (KEYS1 ARGV1 ARGV2 ARGV3 : string) : Script Z :=
  ids <- call (ZRANGEBYSCORE KEYS1 (Score ARGV1) None) ;;
  match ids with
  | [] => sret 0
  | _ =>
      max <- lua_number ARGV2 ;;
      cleanupArchivedLoop KEYS1 ARGV3 max 0 ids
  end.

(** [for i = 2, #KEYS]: task [i] of [KEYS] goes with the arguments at
    [(i - 2) * 2 + 2] and the next one. *)
Fixpoint extendLeaseLoop (KEYS1 expiresAt : string) (keys args : list string) (extended : Z) :
    Script Z :=
  match keys with
  | [] => sret extended
  | key :: keys =>
      let id := args !! 0%nat in
      let attemptID := args !! 1%nat in
      let args := drop 2 args in
      state <- call (HGET key "state") ;;
      if field_is state "active" then
        a <- call (HGET key "attempt_id") ;;
        if bool_decide (a = attemptID ∧ is_Some a) then
          id <- lua_arg id ;;
          call (ZADD KEYS1 expiresAt id) ;;;
          extendLeaseLoop KEYS1 expiresAt keys args (extended + 1)
        else extendLeaseLoop KEYS1 expiresAt keys args extended
      else
        id <- lua_arg id ;;
        call (ZREM KEYS1 id) ;;;
        extendLeaseLoop KEYS1 expiresAt keys args extended
  end.

Definition extendLeaseScript (KEYS ARGV : list string) : Script Z :=
  match KEYS, ARGV with
  | KEYS1 :: keys, expiresAt :: args => extendLeaseLoop KEYS1 expiresAt keys args 0
  | _, _ => sret 0
  end.
End scripts.
