(* ===== verification/Json.v ===== *)
(** * JSON texts ([encoding/json])

    The texts Go's [json.Marshal] writes and [json.Unmarshal] reads: the syntax tree, a
    printer without spaces, a parser for the grammar of the scanner, and the quoting and
    unquoting of strings. A string of the tree is its raw literal, since decoders see it. *)

From S2P Require Import Prelude GoLib.
From Stdlib Require Import Ascii Numbers.DecimalString Numbers.DecimalZ Numbers.DecimalPos.

(** ** Characters *)

Definition quote_char : ascii := "034"%char.
Definition backslash : ascii := "092"%char.

Definition code (c : ascii) : N := N_of_ascii c.
Definition in_range (lo hi : N) (c : ascii) : bool := ((lo <=? code c) && (code c <=? hi))%N.

Definition is_digit (c : ascii) : bool := in_range 48 57 c.
Definition is_space (c : ascii) : bool :=
  (Ascii.eqb c " " || Ascii.eqb c "009" || Ascii.eqb c "010" || Ascii.eqb c "013")%bool.

Definition hex_digit (c : ascii) : option N :=
  if is_digit c then Some (code c - 48)%N
  else if in_range 97 102 c then Some (code c - 87)%N
  else if in_range 65 70 c then Some (code c - 55)%N
  else None.

(** The well-formed UTF-8 sequence a string begins with: its number of bytes, 0 if there is
    none. *)
Definition cont (c : ascii) : bool := in_range 128 191 c.

Definition utf8_size (s : string) : nat :=
  match s with
  | EmptyString => 0
  | String a s =>
      if in_range 0 127 a then 1
      else
        match s with
        | EmptyString => 0
        | String b s =>
            if in_range 194 223 a then (if cont b then 2 else 0)
            else
              match s with
              | EmptyString => 0
              | String c s =>
                  if in_range 224 239 a then
                    (if (in_range (if Ascii.eqb a "224" then 160 else 128) (if Ascii.eqb a "237" then 159 else 191) b
                         && cont c)%bool
                     then 3 else 0)
                  else
                    match s with
                    | EmptyString => 0
                    | String d _ =>
                        if in_range 240 244 a then
                          (if (in_range (if Ascii.eqb a "240" then 144 else 128)
                                 (if Ascii.eqb a "244" then 143 else 191) b && cont c && cont d)%bool
                           then 4 else 0)
                        else 0
                    end
              end
        end
  end.

(** [utf8.EncodeRune]; surrogates and values out of range become U+FFFD. *)
Definition encode_rune (r : N) : string :=
  let byte n := ascii_of_N n in
  let tail n := byte (128 + n mod 64)%N in
  if (r <? 128)%N then String (byte r) ""
  else if (r <? 2048)%N then String (byte (192 + r / 64)%N) (String (tail r) "")
  else if ((1114111 <? r) || ((55296 <=? r) && (r <=? 57343)))%N then
    String "239" (String "191" (String "189" ""))
  else if (r <? 65536)%N then
    String (byte (224 + r / 4096)%N) (String (tail (r / 64)%N) (String (tail r) ""))
  else
    String (byte (240 + r / 262144)%N)
      (String (tail (r / 4096)%N) (String (tail (r / 64)%N) (String (tail r) ""))).

(** ** Quoting *)

Definition hex4 (n : N) : string :=
  String (hex_char (n / 4096 mod 16)%N) (String (hex_char (n / 256 mod 16)%N)
    (String (hex_char (n / 16 mod 16)%N) (String (hex_char (n mod 16)%N) ""))).

(** How [Marshal] writes an ASCII character: HTML characters are escaped too. *)
Definition quote_ascii (c : ascii) : string :=
  if Ascii.eqb c quote_char then String backslash (String quote_char "")
  else if Ascii.eqb c backslash then String backslash (String backslash "")
  else if Ascii.eqb c "008" then String backslash "b"
  else if Ascii.eqb c "012" then String backslash "f"
  else if Ascii.eqb c "010" then String backslash "n"
  else if Ascii.eqb c "013" then String backslash "r"
  else if Ascii.eqb c "009" then String backslash "t"
  else if (in_range 0 31 c || Ascii.eqb c "<" || Ascii.eqb c ">" || Ascii.eqb c "&")%bool then
    String backslash (String "u" (hex4 (code c)))
  else String c "".

(** The separators U+2028 and U+2029 are written as escapes. *)
Definition is_separator (s : string) : bool :=
  match s with
  | String a (String b (String c _)) =>
      (Ascii.eqb a "226" && Ascii.eqb b "128" && (Ascii.eqb c "168" || Ascii.eqb c "169"))%bool
  | _ => false
  end.
Definition separator_escape (s : string) : string :=
  match s with
  | String _ (String _ (String c _)) => String backslash (String "u" (hex4 (code c + 8064)))
  | _ => ""
  end.

(** The raw literal of a string, without the quotes; an invalid byte is written as U+FFFD.
    The next [skip] bytes belong to a rune that was decided: they are copied or dropped. *)
Fixpoint quote_go (copy : bool) (skip : nat) (s : string) : string :=
  match s with
  | EmptyString => ""
  | String c rest =>
      match skip with
      | S skip => if copy then String c (quote_go copy skip rest) else quote_go copy skip rest
      | O =>
          match utf8_size s with
          | O => String backslash "ufffd" +:+ quote_go true 0 rest
          | 1%nat => quote_ascii c +:+ quote_go true 0 rest
          | n =>
              if is_separator s then separator_escape s +:+ quote_go false (n - 1) rest
              else String c (quote_go true (n - 1) rest)
          end
      end
  end.
Definition quote (s : string) : string := quote_go true 0 s.

(** ** Unquoting *)

Definition hex4_value (a b c d : ascii) : option N :=
  a ← hex_digit a; b ← hex_digit b; c ← hex_digit c; d ← hex_digit d;
  Some (4096 * a + 256 * b + 16 * c + d)%N.

Definition is_surrogate (r : N) : bool := ((55296 <=? r) && (r <=? 57343))%N.

(** [utf16.DecodeRune]: [None] if the two do not form a pair. *)
Definition utf16_pair (r1 r2 : N) : option N :=
  if ((55296 <=? r1) && (r1 <? 56320) && (56320 <=? r2) && (r2 <? 57344))%N
  then Some ((r1 - 55296) * 1024 + (r2 - 56320) + 65536)%N else None.

(** [unquote] of a raw literal; invalid bytes become U+FFFD. *)
Fixpoint unquote_go (skip : nat) (s : string) : option string :=
  match s with
  | EmptyString => Some ""
  | String c rest =>
      match skip with
      | S skip => u ← unquote_go skip rest; Some (String c u)
      | O =>
          if Ascii.eqb c backslash then
            match rest with
            | String "u" (String x1 (String x2 (String x3 (String x4 rest')))) =>
                r ← hex4_value x1 x2 x3 x4;
                match rest' with
                | String "092" (String "u" (String y1 (String y2 (String y3 (String y4 rest''))))) =>
                    match (if is_surrogate r then hex4_value y1 y2 y3 y4 ≫= utf16_pair r else None) with
                    | Some r => u ← unquote_go 0 rest''; Some (encode_rune r +:+ u)
                    | None => u ← unquote_go 0 rest'; Some (encode_rune r +:+ u)
                    end
                | _ => u ← unquote_go 0 rest'; Some (encode_rune r +:+ u)
                end
            | String e rest' =>
                if (Ascii.eqb e quote_char || Ascii.eqb e backslash || Ascii.eqb e "/")%bool
                then u ← unquote_go 0 rest'; Some (String e u)
                else if Ascii.eqb e "b" then u ← unquote_go 0 rest'; Some (String "008" u)
                else if Ascii.eqb e "f" then u ← unquote_go 0 rest'; Some (String "012" u)
                else if Ascii.eqb e "n" then u ← unquote_go 0 rest'; Some (String "010" u)
                else if Ascii.eqb e "r" then u ← unquote_go 0 rest'; Some (String "013" u)
                else if Ascii.eqb e "t" then u ← unquote_go 0 rest'; Some (String "009" u)
                else None
            | EmptyString => None
            end
          else if (Ascii.eqb c quote_char || in_range 0 31 c)%bool then None
          else
            match utf8_size s with
            | O => u ← unquote_go 0 rest; Some (encode_rune 65533 +:+ u)
            | n => u ← unquote_go (n - 1) rest; Some (String c u)
            end
      end
  end.
Definition unquote (s : string) : option string := unquote_go 0 s.

Example quote_sample :
  quote (String quote_char (String "<" (String "226" (String "128" (String "168" (String "010" "é")))))) =
  String backslash (String quote_char (String backslash ("u003c" +:+ String backslash ("u2028" +:+ String backslash "né")))).
Proof. vm_compute. reflexivity. Qed.

(** ** Well-formed strings *)

Fixpoint utf8_go (skip : nat) (s : string) : bool :=
  match s with
  | EmptyString => true
  | String c rest =>
      match skip with
      | S skip => utf8_go skip rest
      | O => match utf8_size s with O => false | n => utf8_go (n - 1) rest end
      end
  end.

(** [utf8.ValidString]. *)
Definition utf8_valid (s : string) : bool := utf8_go 0 s.

Lemma bind_some_fmap {A B} (f : A → B) (x : option A) : (u ← x; Some (f u)) = f <$> x.
Proof. by destruct x. Qed.

Lemma unquote_escape x1 x2 x3 x4 r s :
  hex4_value x1 x2 x3 x4 = Some r → is_surrogate r = false →
  unquote_go 0 (String backslash (String "u" (String x1 (String x2 (String x3 (String x4 s)))))) =
  (λ u, encode_rune r +:+ u) <$> unquote_go 0 s.
Proof.
  intros Hx Hr. cbn [unquote_go]. change (Ascii.eqb backslash backslash) with true. cbv iota. rewrite Hx. cbn [mbind option_bind]. rewrite Hr.
  repeat case_match; done.
Qed.

Lemma utf8_size_1 c s : utf8_size (String c s) = 1%nat ↔ in_range 0 127 c = true.
Proof. cbn [utf8_size]. case_match; [done|]. repeat case_match; done. Qed.

Lemma unquote_plain c s :
  (in_range 32 127 c && negb (Ascii.eqb c quote_char) && negb (Ascii.eqb c backslash))%bool = true →
  unquote_go 0 (String c s) = String c <$> unquote_go 0 s.
Proof.
  intros [[Hr Hq]%andb_prop Hb]%andb_prop. apply negb_true_iff in Hq, Hb.
  assert (utf8_size (String c s) = 1%nat) as Hs.
  { apply utf8_size_1. unfold in_range in *. apply andb_prop in Hr as [_ ->]. rewrite andb_true_r. apply N.leb_le. lia. }
  assert (in_range 0 31 c = false) as Hlo.
  { unfold in_range in *. apply andb_prop in Hr as [Hr%N.leb_le _]. apply andb_false_iff. right. apply N.leb_gt. lia. }
  cbn [unquote_go]. rewrite Hq, Hb, Hlo. cbn [orb]. rewrite Hs. by destruct (unquote_go _ s).
Qed.

(** An escaped ASCII character is read back. *)
Lemma unquote_ascii c s :
  in_range 0 127 c = true → unquote_go 0 (quote_ascii c +:+ s) = String c <$> unquote_go 0 s.
Proof.
  intros Hc. destruct c as [b0 b1 b2 b3 b4 b5 b6 b7]. destruct b7; [by destruct b0, b1, b2, b3, b4, b5, b6|].
  destruct b0, b1, b2, b3, b4, b5, b6;
    first [apply (unquote_plain _ s); reflexivity
          | etrans; [apply unquote_escape; reflexivity|by destruct (unquote_go 0 s)]
          | etrans; [|apply bind_some_fmap]; reflexivity].
Qed.


(** The size of a sequence of several bytes depends only on these bytes, which are copied. *)
Lemma utf8_size_copy c rest n :
  utf8_size (String c rest) = S (S n) →
  in_range 128 255 c = true ∧ utf8_size (String c (quote_go true (S n) rest)) = S (S n).
Proof.
  cbn [utf8_size]. destruct (in_range 0 127 c) eqn:E0; [done|]. intros Hs. split.
  { unfold in_range in *. apply andb_false_iff in E0 as [?%N.leb_gt|?%N.leb_gt]; [lia|].
    apply andb_true_intro. split; apply N.leb_le; [lia|]. pose proof (N_ascii_bounded c). unfold code. lia. }
  destruct rest as [|b rest]; [done|]. cbn [quote_go].
  destruct (in_range 194 223 c) eqn:E1; [by destruct (cont b)|].
  destruct rest as [|d rest]; [done|].
  destruct n as [|n]; [by repeat case_match|]. cbn [quote_go].
  destruct (in_range 224 239 c) eqn:E2; [done|].
  destruct rest as [|e rest]; [done|].
  destruct n as [|n]; [by repeat case_match|]. done.
Qed.

Lemma unquote_multi c s n :
  in_range 128 255 c = true → utf8_size (String c s) = S (S n) →
  unquote_go 0 (String c s) = String c <$> unquote_go (S n) s.
Proof.
  intros [Hlo%N.leb_le _]%andb_prop Hs. cbn [unquote_go].
  assert (∀ d, (code d < 128)%N → Ascii.eqb c d = false) as Hne.
  { intros d Hd. apply Ascii.eqb_neq. intros ->. lia. }
  rewrite !Hne by done. replace (in_range 0 31 c) with false.
  2:{ symmetry. apply andb_false_iff. right. apply N.leb_gt. lia. }
  cbn [orb]. rewrite Hs. apply bind_some_fmap.
Qed.

(** What is quoted is read back, if it is well formed. *)
Lemma unquote_quote_go n s skip :
  (String.length s ≤ n)%nat → utf8_go skip s = true → unquote_go skip (quote_go true skip s) = Some s.
Proof.
  revert s skip. induction n as [|n IH]; intros [|c rest] skip Hlen Hv; try done; cbn in Hlen; try lia.
  destruct skip as [|skip]; [|cbn in Hv |- *; rewrite IH by (done || lia); done].
  cbn [utf8_go] in Hv. destruct (utf8_size (String c rest)) as [|[|k]] eqn:Es; [done| |].
  - cbn [quote_go]. rewrite Es. apply utf8_size_1 in Es. rewrite unquote_ascii by done.
    by rewrite IH by (done || lia).
  - destruct (utf8_size_copy c rest k Es) as [Hc Hcopy]. cbn [quote_go]. rewrite Es.
    destruct (is_separator (String c rest)) eqn:Esep.
    + destruct rest as [|b [|d rest]]; try done. cbn in Esep.
      apply andb_prop in Esep as [[->%Ascii.eqb_eq ->%Ascii.eqb_eq]%andb_prop Hd].
      apply orb_prop in Hd as [->%Ascii.eqb_eq| ->%Ascii.eqb_eq]; cbn in Es; injection Es as <-; cbn in Hv.
      all: cbn [quote_go Nat.sub].
      all: etrans; [apply unquote_escape; reflexivity|].
      all: replace (quote_go false 0 rest) with (quote_go true 0 rest) by (by destruct rest).
      all: rewrite IH by (done || cbn in Hlen; lia); done.
    + cbn [Nat.sub]. cbn [Nat.sub] in Hv. rewrite (unquote_multi _ _ k) by done. by rewrite IH by (done || lia).
Qed.

Lemma unquote_quote s : utf8_valid s = true → unquote (quote s) = Some s.
Proof. intros. by apply (unquote_quote_go (String.length s)). Qed.

(** ** Syntax trees *)

#[local] Unset Elimination Schemes.
Inductive json :=
| JNull | JBool (b : bool) | JNum (raw : string) | JStr (raw : string)
| JArr (elems : list json) | JObj (members : list (string * json)).
#[local] Set Elimination Schemes.

Lemma json_ind (P : json → Prop) :
  P JNull → (∀ b, P (JBool b)) → (∀ r, P (JNum r)) → (∀ r, P (JStr r)) →
  (∀ l, Forall P l → P (JArr l)) → (∀ l, Forall (λ kv, P kv.2) l → P (JObj l)) → ∀ j, P j.
Proof.
  intros Hn Hb Hm Hs Ha Ho. fix IH 1. intros [|b|r|r|l|l]; [done..|apply Hb|apply Hm|apply Hs| |].
  - apply Ha. induction l as [|j l IHl]; constructor; [apply IH|exact IHl].
  - apply Ho. induction l as [|[k j] l IHl]; constructor; [apply IH|exact IHl].
Qed.

(** *** Printing *)

Fixpoint join (sep : string) (l : list string) : string :=
  match l with
  | [] => ""
  | [x] => x
  | x :: l => x +:+ sep +:+ join sep l
  end.

Definition in_quotes (raw : string) : string := String quote_char (raw +:+ String quote_char "").

Fixpoint json_print (j : json) : string :=
  match j with
  | JNull => "null"
  | JBool true => "true"
  | JBool false => "false"
  | JNum raw => raw
  | JStr raw => in_quotes raw
  | JArr l => "[" +:+ join "," (json_print <$> l) +:+ "]"
  | JObj l => "{" +:+ join "," ((λ kv, in_quotes kv.1 +:+ ":" +:+ json_print kv.2) <$> l) +:+ "}"
  end.

(** *** Scanning *)

Fixpoint skip_space (s : string) : string :=
  match s with String c rest => if is_space c then skip_space rest else s | EmptyString => "" end.

Definition is_hex (c : ascii) : bool := match hex_digit c with Some _ => true | None => false end.
Definition is_escape (c : ascii) : bool :=
  (Ascii.eqb c quote_char || Ascii.eqb c backslash || Ascii.eqb c "/" || Ascii.eqb c "b" || Ascii.eqb c "f" ||
   Ascii.eqb c "n" || Ascii.eqb c "r" || Ascii.eqb c "t")%bool.

(** The raw literal up to the closing quote, and what follows. *)
Fixpoint scan_string (s : string) : option (string * string) :=
  match s with
  | EmptyString => None
  | String c rest =>
      if Ascii.eqb c quote_char then Some ("", rest)
      else if Ascii.eqb c backslash then
        match rest with
        | EmptyString => None
        | String e rest' =>
            if Ascii.eqb e "u" then
              match rest' with
              | String x1 (String x2 (String x3 (String x4 rest''))) =>
                  if (is_hex x1 && is_hex x2 && is_hex x3 && is_hex x4)%bool then
                    '(r, t) ← scan_string rest'';
                    Some (String c (String e (String x1 (String x2 (String x3 (String x4 r))))), t)
                  else None
              | _ => None
              end
            else if is_escape e then '(r, t) ← scan_string rest'; Some (String c (String e r), t)
            else None
        end
      else if in_range 0 31 c then None
      else '(r, t) ← scan_string rest; Some (String c r, t)
  end.

Fixpoint take_digits (s : string) : string * string :=
  match s with
  | String c rest => if is_digit c then let '(d, t) := take_digits rest in (String c d, t) else ("", s)
  | EmptyString => ("", "")
  end.

(** At least one digit. *)
Definition some_digits (s : string) : option (string * string) :=
  match take_digits s with (EmptyString, _) => None | dt => Some dt end.

Definition scan_int (s : string) : option (string * string) :=
  match s with
  | String c rest => if Ascii.eqb c "0" then Some (String c "", rest) else some_digits s
  | EmptyString => None
  end.

Definition scan_frac (s : string) : option (string * string) :=
  match s with
  | String c rest =>
      if Ascii.eqb c "." then '(d, t) ← some_digits rest; Some (String c d, t) else Some ("", s)
  | EmptyString => Some ("", "")
  end.

Definition scan_exp (s : string) : option (string * string) :=
  match s with
  | String c rest =>
      if (Ascii.eqb c "e" || Ascii.eqb c "E")%bool then
        match rest with
        | String sg rest' =>
            if (Ascii.eqb sg "+" || Ascii.eqb sg "-")%bool
            then '(d, t) ← some_digits rest'; Some (String c (String sg d), t)
            else '(d, t) ← some_digits rest; Some (String c d, t)
        | EmptyString => None
        end
      else Some ("", s)
  | EmptyString => Some ("", "")
  end.

Definition scan_number (s : string) : option (string * string) :=
  let '(sign, s) :=
    match s with
    | String c rest => if Ascii.eqb c "-" then (String c "", rest) else ("", s)
    | EmptyString => ("", s)
    end in
  '(i, s) ← scan_int s; '(f, s) ← scan_frac s; '(e, s) ← scan_exp s;
  Some (sign +:+ i +:+ f +:+ e, s).

Fixpoint strip (p s : string) : option string :=
  match p, s with
  | EmptyString, _ => Some s
  | String a p, String b s => if Ascii.eqb a b then strip p s else None
  | _, _ => None
  end.

(** *** Parsing *)

(** [fuel] bounds the recursion, [depth] is what is left of the nesting the scanner allows. *)
Fixpoint parse_value (fuel : nat) (depth : Z) (s : string) : option (json * string) :=
  match fuel with
  | O => None
  | S fuel =>
      let s := skip_space s in
      match s with
      | EmptyString => None
      | String c rest =>
          if Ascii.eqb c quote_char then '(r, t) ← scan_string rest; Some (JStr r, t)
          else if Ascii.eqb c "{" then
            if depth <=? 0 then None
            else
              match strip "}" (skip_space rest) with
              | Some t => Some (JObj [], t)
              | None => '(l, t) ← parse_members fuel (depth - 1) rest; Some (JObj l, t)
              end
          else if Ascii.eqb c "[" then
            if depth <=? 0 then None
            else
              match strip "]" (skip_space rest) with
              | Some t => Some (JArr [], t)
              | None => '(l, t) ← parse_elements fuel (depth - 1) rest; Some (JArr l, t)
              end
          else if Ascii.eqb c "t" then t ← strip "true" s; Some (JBool true, t)
          else if Ascii.eqb c "f" then t ← strip "false" s; Some (JBool false, t)
          else if Ascii.eqb c "n" then t ← strip "null" s; Some (JNull, t)
          else '(r, t) ← scan_number s; Some (JNum r, t)
      end
  end
with parse_members (fuel : nat) (depth : Z) (s : string) : option (list (string * json) * string) :=
  match fuel with
  | O => None
  | S fuel =>
      s ← strip (String quote_char "") (skip_space s);
      '(k, s) ← scan_string s;
      s ← strip ":" (skip_space s);
      '(v, s) ← parse_value fuel depth s;
      match skip_space s with
      | String c rest =>
          if Ascii.eqb c "," then '(l, t) ← parse_members fuel depth rest; Some ((k, v) :: l, t)
          else if Ascii.eqb c "}" then Some ([(k, v)], rest)
          else None
      | EmptyString => None
      end
  end
with parse_elements (fuel : nat) (depth : Z) (s : string) : option (list json * string) :=
  match fuel with
  | O => None
  | S fuel =>
      '(v, s) ← parse_value fuel depth s;
      match skip_space s with
      | String c rest =>
          if Ascii.eqb c "," then '(l, t) ← parse_elements fuel depth rest; Some (v :: l, t)
          else if Ascii.eqb c "]" then Some ([v], rest)
          else None
      | EmptyString => None
      end
  end.

(** The whole text is one value. *)
Definition parse_json (s : string) : option json :=
  '(j, t) ← parse_value (S (String.length s)) 10000 s;
  if String.eqb (skip_space t) "" then Some j else None.

Example parse_sample :
  parse_json (" { " +:+ in_quotes "a" +:+ ": [1, -2.5e+3 ,true,null] , " +:+ in_quotes "b" +:+ ":{}}") =
  Some (JObj [("a", JArr [JNum "1"; JNum "-2.5e+3"; JBool true; JNull]); ("b", JObj [])]).
Proof. vm_compute. reflexivity. Qed.
Example parse_reject : parse_json "[1,]" = None ∧ parse_json "01" = None ∧ parse_json "{} x" = None.
Proof. vm_compute. done. Qed.

(** ** Printing and parsing *)

#[local] Arguments String.append !_ _ / : simpl nomatch.

Lemma string_cons_app c (a b : string) : String c a +:+ b = String c (a +:+ b).
Proof. done. Qed.

(** *** String literals *)

Definition prefixed (p : string) (rt : string * string) : string * string := (p +:+ rt.1, rt.2).

Lemma scan_plain c s :
  (negb (Ascii.eqb c quote_char) && negb (Ascii.eqb c backslash) && negb (in_range 0 31 c))%bool = true →
  scan_string (String c "" +:+ s) = prefixed (String c "") <$> scan_string s.
Proof.
  intros [[Hq Hb]%andb_prop Hr]%andb_prop. apply negb_true_iff in Hq, Hb, Hr.
  cbn [String.append scan_string]. rewrite Hq, Hb, Hr. by destruct (scan_string s) as [[]|].
Qed.

Lemma scan_short e s :
  (is_escape e && negb (Ascii.eqb e "u"))%bool = true →
  scan_string (String backslash (String e "") +:+ s) = prefixed (String backslash (String e "")) <$> scan_string s.
Proof.
  intros [He Hu%negb_true_iff]%andb_prop. cbn [String.append scan_string].
  change (Ascii.eqb backslash quote_char) with false. change (Ascii.eqb backslash backslash) with true. cbv iota.
  rewrite Hu, He. by destruct (scan_string s) as [[]|].
Qed.

Lemma scan_escape x1 x2 x3 x4 s :
  (is_hex x1 && is_hex x2 && is_hex x3 && is_hex x4)%bool = true →
  let p := String backslash (String "u" (String x1 (String x2 (String x3 (String x4 ""))))) in
  scan_string (p +:+ s) = prefixed p <$> scan_string s.
Proof.
  intros Hx. cbn zeta. cbn [String.append scan_string].
  change (Ascii.eqb backslash quote_char) with false. change (Ascii.eqb backslash backslash) with true.
  change (Ascii.eqb "u" "u") with true. cbv iota. rewrite Hx. by destruct (scan_string s) as [[]|].
Qed.

Lemma scan_ascii c s : scan_string (quote_ascii c +:+ s) = prefixed (quote_ascii c) <$> scan_string s.
Proof.
  destruct c as [b0 b1 b2 b3 b4 b5 b6 b7].
  destruct b0, b1, b2, b3, b4, b5, b6, b7;
    first [apply scan_plain; reflexivity | apply scan_short; reflexivity | apply scan_escape; reflexivity].
Qed.

Lemma scan_separator a b c r s :
  is_separator (String a (String b (String c r))) = true →
  scan_string (separator_escape (String a (String b (String c r))) +:+ s) =
  prefixed (separator_escape (String a (String b (String c r)))) <$> scan_string s.
Proof.
  cbn [is_separator]. intros [_ Hc]%andb_prop.
  apply orb_prop in Hc as [->%Ascii.eqb_eq| ->%Ascii.eqb_eq]; apply scan_escape; reflexivity.
Qed.

(** The next [n] bytes are not ASCII. *)
Fixpoint high (n : nat) (s : string) : bool :=
  match n, s with
  | S n, String c s => (in_range 128 255 c && high n s)%bool
  | _, _ => true
  end.

Lemma in_range_mono lo hi lo' hi' c :
  (lo' ≤ lo)%N → (hi ≤ hi')%N → in_range lo hi c = true → in_range lo' hi' c = true.
Proof. unfold in_range. rewrite !andb_true_iff, !N.leb_le. lia. Qed.

Lemma utf8_size_high c s n : utf8_size (String c s) = S (S n) → high (S n) s = true.
Proof.
  assert (∀ lo hi d, (128 ≤ lo)%N → (hi ≤ 255)%N → in_range lo hi d = true → in_range 128 255 d = true) as Hr.
  { intros. by eapply in_range_mono. }
  unfold cont. cbn [utf8_size]. unfold cont. repeat case_match; try discriminate; intros [= <-]; cbn [high];
    repeat match goal with H : (_ && _)%bool = true |- _ => apply andb_prop in H as [? ?] end;
    repeat match goal with H : in_range ?lo ?hi ?d = true |- _ =>
      lazymatch goal with
      | _ : in_range 128 255 d = true |- _ => fail
      | _ => assert (in_range 128 255 d = true) by (eapply Hr; [| |exact H]; lia)
      end end;
    repeat match goal with H : in_range 128 255 ?d = true |- context [in_range 128 255 ?d] => rewrite H end; try done.
Qed.

Lemma scan_high c s : in_range 128 255 c = true → scan_string (String c s) = prefixed (String c "") <$> scan_string s.
Proof.
  intros [Hlo%N.leb_le _]%andb_prop. cbn [scan_string].
  assert (∀ d, (code d < 128)%N → Ascii.eqb c d = false) as Hne.
  { intros d Hd. apply Ascii.eqb_neq. intros ->. lia. }
  rewrite !Hne by done. replace (in_range 0 31 c) with false.
  2:{ symmetry. apply andb_false_iff. right. apply N.leb_gt. lia. }
  by destruct (scan_string s) as [[]|].
Qed.

Lemma scan_quote_go s copy skip t :
  (copy = true → high skip s = true) →
  scan_string (quote_go copy skip s +:+ String quote_char t) = Some (quote_go copy skip s, t).
Proof.
  revert copy skip. induction s as [|c s IH]; intros copy skip Hh; [done|]. destruct skip as [|skip].
  - cbn [quote_go]. destruct (utf8_size (String c s)) as [|[|k]] eqn:Es.
    + rewrite <-string_app_assoc.
      change (scan_string (String backslash "ufffd" +:+ ?x)) with ('(r, t) ← scan_string x; Some (String backslash "ufffd" +:+ r, t)).
      by rewrite IH.
    + rewrite <-string_app_assoc, scan_ascii, IH by done. done.
    + destruct (is_separator (String c s)) eqn:Esep.
      * destruct s as [|b [|d r]]; try done. rewrite <-string_app_assoc, scan_separator, IH by done. done.
      * pose proof (utf8_size_high c s k Es). destruct (utf8_size_copy c s k Es) as [Hc _].
        rewrite string_cons_app, scan_high, IH by done. done.
  - cbn [quote_go]. destruct copy; [|by apply IH]. specialize (Hh eq_refl). cbn in Hh. apply andb_prop in Hh as [Hc Hh].
    rewrite string_cons_app, scan_high, IH by done. done.
Qed.

Lemma scan_quote s t : scan_string (quote s +:+ String quote_char t) = Some (quote s, t).
Proof. by apply scan_quote_go. Qed.

(** *** Numbers *)

(** What may follow a number. *)
Definition stops (s : string) : bool :=
  match s with
  | EmptyString => true
  | String c _ => negb (is_digit c || Ascii.eqb c "." || Ascii.eqb c "e" || Ascii.eqb c "E")
  end.

Lemma stops_frac_exp s : stops s = true → scan_frac s = Some ("", s) ∧ scan_exp s = Some ("", s).
Proof.
  destruct s as [|c s]; [done|]. cbn. intros [[[_ Hd]%orb_false_elim He]%orb_false_elim HE]%negb_true_iff%orb_false_elim.
  by rewrite Hd, He, HE.
Qed.

Lemma stops_digits s : stops s = true → take_digits s = ("", s).
Proof.
  destruct s as [|c s]; [done|]. cbn. intros [[[-> _]%orb_false_elim _]%orb_false_elim _]%negb_true_iff%orb_false_elim.
  done.
Qed.

Lemma take_digits_uint u s :
  stops s = true → take_digits (NilEmpty.string_of_uint u +:+ s) = (NilEmpty.string_of_uint u, s).
Proof. intros Hs. induction u; cbn; [by apply stops_digits|..]; by rewrite IHu. Qed.

(** The digits of a positive number do not begin with a zero. *)
Lemma to_uint_head p : ∃ c r, NilEmpty.string_of_uint (Pos.to_uint p) = String c r ∧ is_digit c = true ∧ Ascii.eqb c "0" = false.
Proof.
  pose proof (DecimalZ.to_of (Z.to_int (Z.pos p))) as Hn. rewrite DecimalZ.of_to in Hn. cbn in Hn.
  injection Hn as Hn. destruct (Pos.to_uint p) as [|u|u|u|u|u|u|u|u|u|u] eqn:E;
    try (do 2 eexists; split; [reflexivity|split; reflexivity]).
  { by apply Unsigned.to_uint_nonnil in E. }
  exfalso. cbn in Hn. unfold Decimal.unorm in Hn. cbn in Hn.
  assert (∀ u v, Decimal.nzhead u ≠ Decimal.D0 v) as Hz by (intros v; induction v; cbn; congruence).
  destruct (Decimal.nzhead u) eqn:Eu; try congruence; [|by apply Hz in Eu].
  injection Hn as ->. pose proof (Unsigned.of_to p) as Ho. by rewrite E in Ho.
Qed.

Lemma scan_FormatInt z s : stops s = true → scan_number (FormatInt z +:+ s) = Some (FormatInt z, s).
Proof.
  intros Hs. destruct (stops_frac_exp s Hs) as [Hf He].
  assert (∀ p, scan_int (NilEmpty.string_of_uint (Pos.to_uint p) +:+ s) = Some (NilEmpty.string_of_uint (Pos.to_uint p), s)) as Hint.
  { intros p. pose proof (take_digits_uint (Pos.to_uint p) s Hs) as Ht.
    destruct (to_uint_head p) as (c & r & E & Hd & H0). rewrite E in *. cbn [String.append scan_int].
    rewrite H0. unfold some_digits. change (String c (r +:+ s)) with (String c r +:+ s). by rewrite Ht. }
  assert (∀ p, NilZero.string_of_uint (Pos.to_uint p) = NilEmpty.string_of_uint (Pos.to_uint p)) as Hz.
  { intros p. unfold NilZero.string_of_uint. by destruct (to_uint_head p) as (c & r & E & _); destruct (Pos.to_uint p). }
  unfold FormatInt, scan_number. destruct z as [|p|p]; cbn [Z.to_int NilZero.string_of_int].
  - cbn. by rewrite Hf; cbn; rewrite He.
  - rewrite Hz. pose proof (Hint p) as Hp. destruct (to_uint_head p) as (c & r & E & Hd & H0). rewrite E in *.
    cbn [String.append]. replace (Ascii.eqb c "-") with false.
    2:{ symmetry. apply Ascii.eqb_neq. by intros ->. }
    cbn [String.append] in Hp. rewrite Hp. cbn [mbind option_bind]. rewrite Hf. cbn [mbind option_bind]. rewrite He.
    cbn. by rewrite string_app_nil_r.
  - rewrite Hz. cbn [String.append]. change (Ascii.eqb "-" "-") with true. cbv iota beta. rewrite Hint.
    cbn [mbind option_bind]. rewrite Hf. cbn [mbind option_bind]. rewrite He. cbn. by rewrite string_app_nil_r.
Qed.

Lemma FormatInt_first z : ∃ c r, FormatInt z = String c r ∧ (is_digit c = true ∨ c = "-"%char).
Proof.
  unfold FormatInt. destruct z as [|p|p]; cbn [Z.to_int NilZero.string_of_int].
  - do 2 eexists. split; [reflexivity|]. by left.
  - unfold NilZero.string_of_uint. destruct (to_uint_head p) as (c & r & E & Hd & _).
    destruct (Pos.to_uint p); do 2 eexists; (split; [reflexivity|by left]).
  - do 2 eexists. split; [reflexivity|]. by right.
Qed.

(** *** Values *)

(** What [Marshal] builds: integers, quoted strings, and a bounded nesting. *)
Fixpoint json_ok (j : json) : Prop :=
  match j with
  | JNull | JBool _ => True
  | JNum raw => ∃ z, raw = FormatInt z
  | JStr raw => ∃ s, raw = quote s
  | JArr l => fold_right and True (json_ok <$> l)
  | JObj l => fold_right and True ((λ kv, (∃ s, kv.1 = quote s) ∧ json_ok kv.2) <$> l)
  end.

Fixpoint json_depth (j : json) : Z :=
  match j with
  | JArr l => 1 + fold_right Z.max 0 (json_depth <$> l)
  | JObj l => 1 + fold_right Z.max 0 ((λ kv, json_depth kv.2) <$> l)
  | _ => 0
  end.

Definition parses (j : json) : Prop :=
  ∀ fuel depth s, (String.length (json_print j) ≤ fuel)%nat → json_depth j ≤ depth → stops s = true →
    parse_value fuel depth (json_print j +:+ s) = Some (j, s).

Lemma json_depth_nonneg j : 0 ≤ json_depth j.
Proof.
  assert (∀ l : list Z, 0 ≤ fold_right Z.max 0 l) as Hm by (induction l; cbn; lia).
  destruct j; cbn; try lia; match goal with |- context [fold_right Z.max 0 ?l] => specialize (Hm l) end; lia.
Qed.

(** The value begins with a character that is not a space and not a closing bracket. *)
Lemma print_head j :
  json_ok j → ∃ c r, json_print j = String c r ∧ is_space c = false ∧ Ascii.eqb c "]" = false.
Proof.
  destruct j as [|[]|raw|raw|l|l]; cbn [json_print json_ok]; intros Hj; try (do 2 eexists; split; [reflexivity|split; reflexivity]).
  destruct Hj as [z ->]. destruct (FormatInt_first z) as (c & r & -> & Hc). do 2 eexists. split; [done|].
  destruct Hc as [Hc| ->]; [|done]. unfold is_space, is_digit, in_range in *.
  apply andb_prop in Hc as [Hlo%N.leb_le Hhi%N.leb_le].
  assert (∀ d, (code d < 48 ∨ 57 < code d)%N → Ascii.eqb c d = false) as Hne.
  { intros d Hd. apply Ascii.eqb_neq. intros ->. lia. }
  rewrite !Hne by (cbn; lia). done.
Qed.

Lemma parses_scalar j : json_ok j → match j with JArr _ | JObj _ => False | _ => True end → parses j.
Proof.
  intros Hj Hs fuel depth s Hf _ Hstop. destruct fuel as [|fuel].
  { destruct (print_head j Hj) as (c & r & E & _). rewrite E in Hf. cbn in Hf. lia. }
  destruct j as [|[]|raw|raw|l|l]; try done; cbn [json_ok] in Hj.
  - destruct Hj as [z ->]. cbn [json_print]. pose proof (scan_FormatInt z s Hstop) as Hsc.
    destruct (FormatInt_first z) as (c & r & E & Hc). rewrite E in *. cbn [String.append parse_value skip_space].
    assert (∀ d, is_digit d = false → d ≠ "-"%char → Ascii.eqb c d = false) as Hne.
    { intros d Hd Hm. apply Ascii.eqb_neq. intros ->. destruct Hc as [Hc| ->]; congruence. }
    replace (is_space c) with false by (unfold is_space; by rewrite !Hne).
    rewrite !Hne by done. cbn [String.append] in Hsc. by rewrite Hsc.
  - destruct Hj as [x ->]. cbn [json_print]. unfold in_quotes. cbn [String.append parse_value skip_space].
    rewrite <-string_app_assoc. cbn [String.append]. change (is_space quote_char) with false. cbv iota.
    change (Ascii.eqb quote_char quote_char) with true. cbv iota. by rewrite scan_quote.
Qed.

Definition member_print (kv : string * json) : string := in_quotes kv.1 +:+ ":" +:+ json_print kv.2.

Lemma join_cons x y l : join "," (x :: y :: l) = x +:+ "," +:+ join "," (y :: l).
Proof. done. Qed.

Lemma parse_members_print l fuel depth s :
  l ≠ [] → Forall (λ kv, (∃ x, kv.1 = quote x) ∧ parses kv.2 ∧ json_depth kv.2 ≤ depth) l →
  (String.length (join "," (member_print <$> l)) < fuel)%nat →
  parse_members fuel depth (join "," (member_print <$> l) +:+ "}" +:+ s) = Some (l, s).
Proof.
  revert fuel. induction l as [|[k v] l IH]; [done|]. intros fuel _ Hall Hf.
  apply Forall_cons in Hall as [((x & Hk) & Hv & Hd) Hall]. cbn in Hk, Hv, Hd. subst k.
  destruct fuel as [|fuel]; [lia|].
  assert (∀ t, stops t = true → (String.length (json_print v) ≤ fuel)%nat →
    parse_members (S fuel) depth (member_print (quote x, v) +:+ t) =
    match skip_space t with
    | String c rest =>
        if Ascii.eqb c "," then '(l, t) ← parse_members fuel depth rest; Some ((quote x, v) :: l, t)
        else if Ascii.eqb c "}" then Some ([(quote x, v)], rest)
        else None
    | EmptyString => None
    end) as Hstep.
  { intros t Ht Hlen. unfold member_print, in_quotes. cbn [fst snd String.append parse_members skip_space].
    change (is_space quote_char) with false. cbv iota. cbn [strip]. rewrite Ascii.eqb_refl. cbn [mbind option_bind].
    rewrite <-!string_app_assoc. cbn [String.append]. rewrite scan_quote. cbn [mbind option_bind skip_space strip].
    change (is_space ":") with false. cbv iota. cbn [strip]. change (Ascii.eqb ":" ":") with true. cbv iota.
    cbn [mbind option_bind]. by rewrite Hv. }
  destruct l as [|kv' l].
  - cbn [fmap list_fmap join]. rewrite Hstep; [done|done|]. cbn [fmap list_fmap join] in Hf. unfold member_print in Hf.
    rewrite !string_length_app in Hf. cbn in Hf. lia.
  - cbn [fmap list_fmap] in Hf |- *. rewrite join_cons in *. rewrite !string_length_app in Hf.
    rewrite <-!string_app_assoc. rewrite Hstep; [|done|].
    + cbn [String.append skip_space]. change (is_space ",") with false. cbv iota.
      change (Ascii.eqb "," ",") with true. cbv iota.
      change (String "}" s) with ("}" +:+ s). change (member_print kv' :: list_fmap _ _ member_print l) with (member_print <$> (kv' :: l)).
      rewrite IH; [done|done|done|]. cbn in Hf |- *. lia.
    + unfold member_print in Hf. rewrite !string_length_app in Hf. cbn in Hf. lia.
Qed.

Lemma parse_elements_print l fuel depth s :
  l ≠ [] → Forall (λ v, parses v ∧ json_depth v ≤ depth) l →
  (String.length (join "," (json_print <$> l)) < fuel)%nat →
  parse_elements fuel depth (join "," (json_print <$> l) +:+ "]" +:+ s) = Some (l, s).
Proof.
  revert fuel. induction l as [|v l IH]; [done|]. intros fuel _ Hall Hf.
  apply Forall_cons in Hall as [(Hv & Hd) Hall]. destruct fuel as [|fuel]; [lia|]. cbn [parse_elements].
  destruct l as [|v' l].
  - cbn [fmap list_fmap join] in Hf |- *. rewrite Hv; [done|lia|done|done].
  - cbn [fmap list_fmap] in Hf |- *. rewrite join_cons in *. rewrite !string_length_app in Hf.
    rewrite <-!string_app_assoc. rewrite Hv; [|lia|done|done].
    cbn [mbind option_bind String.append skip_space]. change (is_space ",") with false. cbv iota.
    change (Ascii.eqb "," ",") with true. cbv iota.
    change (String "]" s) with ("]" +:+ s). change (json_print v' :: list_fmap _ _ json_print l) with (json_print <$> (v' :: l)).
    rewrite IH; [done|done|done|]. cbn in Hf |- *. lia.
Qed.

Lemma fold_right_and {A} (P : A → Prop) l : fold_right and True (P <$> l) ↔ Forall P l.
Proof. induction l as [|x l IH]; cbn; [by rewrite Forall_nil|]. by rewrite Forall_cons, IH. Qed.

Lemma fold_right_max {A} (f : A → Z) l d : fold_right Z.max 0 (f <$> l) ≤ d → Forall (λ x, f x ≤ d) l.
Proof. induction l as [|x l IH]; cbn; constructor; [lia|]. apply IH. lia. Qed.

(** Every text the printer makes is parsed to the tree it was made from. *)
Lemma parse_print j : json_ok j → parses j.
Proof.
  induction j as [|b|r|r|l IH|l IH] using json_ind; intros Hj; try (by apply parses_scalar).
  - cbn [json_ok] in Hj. rewrite fold_right_and in Hj. intros fuel depth s Hf Hd Hs.
    cbn [json_print json_depth] in *. rewrite !string_length_app in Hf. cbn [String.length] in Hf.
    destruct fuel as [|fuel]; [lia|]. rewrite <-!string_app_assoc. cbn [String.append parse_value skip_space].
    change (is_space "[") with false. cbv iota. change (Ascii.eqb "[" quote_char) with false.
    change (Ascii.eqb "[" "{") with false. change (Ascii.eqb "[" "[") with true. cbv iota.
    assert (0 ≤ fold_right Z.max 0 (json_depth <$> l)) by (clear; induction l; cbn; lia).
    rewrite (proj2 (Z.leb_gt depth 0)) by lia. change (String "]" s) with ("]" +:+ s).
    destruct l as [|v l]; [done|].
    assert (strip "]" (skip_space (join "," (json_print <$> v :: l) +:+ "]" +:+ s)) = None) as ->.
    { apply Forall_cons in Hj as [Hv _]. destruct (print_head v Hv) as (c & r & E & Hsp & Hb).
      assert (∃ t, join "," (json_print <$> v :: l) +:+ "]" +:+ s = String c t) as [t ->].
      { cbn [fmap list_fmap]. rewrite E. destruct l; cbn; eauto. }
      cbn [skip_space]. rewrite Hsp. cbn [strip]. by rewrite Ascii.eqb_sym, Hb. }
    rewrite parse_elements_print; [done|done| |lia].
    apply Forall_forall. intros x Hx. rewrite Forall_forall in IH, Hj. split; [by apply IH, Hj|].
    pose proof (fold_right_max json_depth (v :: l) (depth - 1) ltac:(lia)) as Hm.
    by rewrite Forall_forall in Hm; apply Hm.
  - cbn [json_ok] in Hj. rewrite fold_right_and in Hj. intros fuel depth s Hf Hd Hs.
    cbn [json_print json_depth] in *. change (λ kv : string * json, in_quotes kv.1 +:+ ":" +:+ json_print kv.2) with member_print in *.
    rewrite !string_length_app in Hf. cbn [String.length] in Hf.
    destruct fuel as [|fuel]; [lia|]. rewrite <-!string_app_assoc. cbn [String.append parse_value skip_space].
    change (is_space "{") with false. cbv iota. change (Ascii.eqb "{" quote_char) with false.
    change (Ascii.eqb "{" "{") with true. cbv iota.
    assert (0 ≤ fold_right Z.max 0 ((λ kv, json_depth kv.2) <$> l)) by (clear; induction l; cbn; lia).
    rewrite (proj2 (Z.leb_gt depth 0)) by lia. change (String "}" s) with ("}" +:+ s).
    destruct l as [|[k v] l]; [done|].
    assert (strip "}" (skip_space (join "," (member_print <$> (k, v) :: l) +:+ "}" +:+ s)) = None) as ->.
    { by destruct l. }
    rewrite parse_members_print; [done|done| |lia].
    apply Forall_forall. intros x Hx. rewrite Forall_forall in IH, Hj. destruct (Hj x Hx) as [Hk Hok].
    split; [done|]. split; [by apply IH|].
    pose proof (fold_right_max (λ kv, json_depth kv.2) ((k, v) :: l) (depth - 1) ltac:(lia)) as Hm.
    by rewrite Forall_forall in Hm; apply (Hm x).
Qed.

(** Reading a printed value gives it back. *)
Lemma parse_json_print j : json_ok j → json_depth j ≤ 10000 → parse_json (json_print j) = Some j.
Proof.
  intros Hj Hd. unfold parse_json. pose proof (parse_print j Hj (S (String.length (json_print j))) 10000 "") as Hp.
  rewrite string_app_nil_r in Hp. rewrite Hp; [done|lia|done|done].
Qed.
