(* ===== verification/Base64.v ===== *)
(** * Base64 ([encoding/base64], the standard alphabet with padding)

    How [encoding/json] writes and reads a slice of bytes. *)

From S2P Require Import Prelude GoLib Json.
From Stdlib Require Import Ascii.

Definition sextet_char (n : N) : ascii :=
  ascii_of_N (if n <? 26 then 65 + n else if n <? 52 then 71 + n
              else if n <? 62 then n - 4 else if n =? 62 then 43 else 47)%N.

Definition char_sextet (c : ascii) : option N :=
  if in_range 65 90 c then Some (code c - 65)%N
  else if in_range 97 122 c then Some (code c - 71)%N
  else if is_digit c then Some (code c + 4)%N
  else if Ascii.eqb c "+" then Some 62%N
  else if Ascii.eqb c "/" then Some 63%N
  else None.

Definition byte_of (n : N) : Byte.byte := default Byte.x00 (Byte.of_N n).

Fixpoint base64_encode (bs : list Byte.byte) : string :=
  match bs with
  | [] => ""
  | [a] =>
      let a := Byte.to_N a in
      String (sextet_char (a / 4)) (String (sextet_char (a mod 4 * 16)) "==")
  | [a; b] =>
      let a := Byte.to_N a in let b := Byte.to_N b in
      String (sextet_char (a / 4)) (String (sextet_char (a mod 4 * 16 + b / 16))
        (String (sextet_char (b mod 16 * 4)) "="))
  | a :: b :: c :: bs =>
      let a := Byte.to_N a in let b := Byte.to_N b in let c := Byte.to_N c in
      String (sextet_char (a / 4)) (String (sextet_char (a mod 4 * 16 + b / 16))
        (String (sextet_char (b mod 16 * 4 + c / 64)) (String (sextet_char (c mod 64)) (base64_encode bs))))
  end%N.

Fixpoint base64_groups (s : string) : option (list Byte.byte) :=
  match s with
  | EmptyString => Some []
  | String c0 (String c1 (String c2 (String c3 rest))) =>
      v0 ← char_sextet c0; v1 ← char_sextet c1;
      if Ascii.eqb c3 "=" then
        if negb (String.eqb rest "") then None
        else if Ascii.eqb c2 "=" then Some [byte_of (v0 * 4 + v1 / 16)]
        else v2 ← char_sextet c2; Some [byte_of (v0 * 4 + v1 / 16); byte_of (v1 mod 16 * 16 + v2 / 4)]
      else
        v2 ← char_sextet c2; v3 ← char_sextet c3; bs ← base64_groups rest;
        Some (byte_of (v0 * 4 + v1 / 16) :: byte_of (v1 mod 16 * 16 + v2 / 4) :: byte_of (v2 mod 4 * 64 + v3) :: bs)
  | _ => None
  end%N.

Fixpoint drop_newlines (s : string) : string :=
  match s with
  | EmptyString => ""
  | String c s => if (Ascii.eqb c "010" || Ascii.eqb c "013")%bool then drop_newlines s else String c (drop_newlines s)
  end.

(** [DecodeString]: line ends are ignored. *)
Definition base64_decode (s : string) : option (list Byte.byte) := base64_groups (drop_newlines s).

(** A property of the 64 values, by evaluation. *)
Lemma sextet_cases (P : N → bool) n :
  (forallb P (N.of_nat <$> seq 0 64)) = true → (n < 64)%N → P n = true.
Proof.
  intros H Hn. rewrite forallb_forall in H. apply H. apply list_elem_of_In, list_elem_of_fmap.
  exists (N.to_nat n). split; [lia|]. apply elem_of_seq. lia.
Qed.

Lemma char_sextet_char n : (n < 64)%N → char_sextet (sextet_char n) = Some n.
Proof.
  set (P n := match char_sextet (sextet_char n) with Some m => (m =? n)%N | None => false end).
  intros Hn. assert (P n = true) as HP by (apply sextet_cases; [vm_compute; reflexivity|done]).
  unfold P in HP. destruct (char_sextet (sextet_char n)); [|done]. apply N.eqb_eq in HP. by subst.
Qed.

(** A character of the alphabet is kept by the reader and is not one JSON escapes. *)
Lemma sextet_char_plain n :
  (n < 64)%N →
  (negb (Ascii.eqb (sextet_char n) "=") && negb (Ascii.eqb (sextet_char n) "010") && negb (Ascii.eqb (sextet_char n) "013") &&
   in_range 0 127 (sextet_char n))%bool = true.
Proof.
  apply (sextet_cases (λ n, (negb (Ascii.eqb (sextet_char n) "=") && negb (Ascii.eqb (sextet_char n) "010") &&
    negb (Ascii.eqb (sextet_char n) "013") && in_range 0 127 (sextet_char n))%bool)).
  vm_compute. reflexivity.
Qed.

Lemma byte_of_to n b : n = Byte.to_N b → byte_of n = b.
Proof. intros ->. unfold byte_of. by rewrite Byte.of_to_N. Qed.

Lemma to_N_bound b : (Byte.to_N b < 256)%N.
Proof. pose proof (Byte.to_N_bounded b). lia. Qed.

(** Induction by groups of three. *)
Lemma list_ind3 {A} (P : list A → Prop) :
  P [] → (∀ a, P [a]) → (∀ a b, P [a; b]) → (∀ a b c l, P l → P (a :: b :: c :: l)) → ∀ l, P l.
Proof.
  intros H0 H1 H2 H3. fix IH 1. intros [|a [|b [|c l]]]; [done|done|done|]. apply H3, IH.
Qed.

Lemma drop_newlines_encode bs : drop_newlines (base64_encode bs) = base64_encode bs.
Proof.
  assert (∀ n s, (n < 64)%N → drop_newlines (String (sextet_char n) s) = String (sextet_char n) (drop_newlines s)) as Hs.
  { intros n s Hn. pose proof (sextet_char_plain n Hn) as [[[_ H1]%andb_prop H2]%andb_prop _]%andb_prop.
    apply negb_true_iff in H1, H2. cbn [drop_newlines]. by rewrite H1, H2. }
  induction bs as [|a|a b|a b c bs IH] using list_ind3; [done|..]; cbn [base64_encode];
    pose proof (to_N_bound a); try pose proof (to_N_bound b); try pose proof (to_N_bound c);
    rewrite !Hs by div_lia; [done|done|]. by rewrite IH.
Qed.

Lemma base64_roundtrip bs : base64_decode (base64_encode bs) = Some bs.
Proof.
  unfold base64_decode. rewrite drop_newlines_encode.
  assert (∀ n, (n < 64)%N → Ascii.eqb (sextet_char n) "=" = false) as He.
  { intros n Hn. pose proof (sextet_char_plain n Hn) as [[[H1 _]%andb_prop _]%andb_prop _]%andb_prop.
    by apply negb_true_iff in H1. }
  induction bs as [|a|a b|a b c bs IH] using list_ind3; [done|..]; cbn [base64_encode base64_groups];
    pose proof (to_N_bound a); try pose proof (to_N_bound b); try pose proof (to_N_bound c);
    rewrite !char_sextet_char by div_lia; cbn [mbind option_bind].
  - change (Ascii.eqb "=" "=") with true. cbn. do 2 f_equal. apply byte_of_to. div_lia.
  - change (Ascii.eqb "=" "=") with true. rewrite He by div_lia. cbn -[N.div N.modulo].
    do 3 f_equal; [|f_equal]; apply byte_of_to; div_lia.
  - rewrite He by div_lia. rewrite IH. cbn [mbind option_bind]. rewrite !(byte_of_to _ a), !(byte_of_to _ b), !(byte_of_to _ c) by div_lia.
    done.
Qed.

Example base64_sample : base64_encode (String.list_byte_of_string "hello") = "aGVsbG8=".
Proof. vm_compute. reflexivity. Qed.
