(* ===== verification/TimeText.v ===== *)
(** * Times as text ([time.Time.MarshalJSON], [time.Time.UnmarshalJSON])

    The proleptic Gregorian calendar and RFC 3339. A time is written in UTC, with as many
    digits of the fraction as it needs; any offset is read, as are what [time.Parse] accepts
    beyond RFC 3339: an hour of one digit, a comma before the fraction. *)

From S2P Require Import Prelude GoLib Json.
From Stdlib Require Import Ascii.

(** ** The calendar *)

(** Days before the year [y] of a cycle of 400 years that begin in March. *)
Definition year_start (y : Z) : Z := 365 * y + y / 4 - y / 100 + y / 400.

Definition is_leap (y : Z) : bool := ((y mod 4 =? 0) && (negb (y mod 100 =? 0) || (y mod 400 =? 0)))%bool.

Definition days_in (m y : Z) : Z :=
  if m =? 2 then (if is_leap y then 29 else 28)
  else if (m =? 4) || (m =? 6) || (m =? 9) || (m =? 11) then 30 else 31.

(** Days since January 1, 1970 of a date; a year begins in March. *)
Definition days_from_civil (y m d : Z) : Z :=
  let y := if m <=? 2 then y - 1 else y in
  let doy := (153 * (if m <=? 2 then m + 9 else m - 3) + 2) / 5 + d - 1 in
  y / 400 * 146097 + year_start (y mod 400) + doy - 719468.

Definition civil_from_days (n : Z) : Z * Z * Z :=
  let n := n + 719468 in
  let era := n / 146097 in
  let doe := n mod 146097 in
  let guess := doe / 365 in
  let yoe := if year_start guess <=? doe then guess else guess - 1 in
  let doy := doe - year_start yoe in
  let mp := (5 * doy + 2) / 153 in
  let d := doy - (153 * mp + 2) / 5 + 1 in
  let m := if mp <? 10 then mp + 3 else mp - 9 in
  (era * 400 + yoe + (if m <=? 2 then 1 else 0), m, d).

Example civil_epoch : civil_from_days 0 = (1970, 1, 1).
Proof. vm_compute. reflexivity. Qed.
Example civil_leap : civil_from_days 19782 = (2024, 2, 29) ∧ days_from_civil 2024 2 29 = 19782.
Proof. vm_compute. done. Qed.
Example civil_zero : civil_from_days (zeroTime / 10 ^ 9 / 86400) = (1, 1, 1).
Proof. vm_compute. reflexivity. Qed.

Lemma year_start_spec doe :
  0 ≤ doe < 146097 →
  let y := if year_start (doe / 365) <=? doe then doe / 365 else doe / 365 - 1 in
  0 ≤ y < 400 ∧ year_start y ≤ doe < year_start (y + 1).
Proof.
  intros Hd. cbn zeta. unfold year_start. destruct (Z.leb_spec (365 * (doe / 365) + doe / 365 / 4 - doe / 365 / 100 + doe / 365 / 400) doe);
    zdiv_lia.
Qed.

(** The month and the day of a day of the year that begins in March. *)
Lemma month_spec doy :
  0 ≤ doy ≤ 365 →
  let mp := (5 * doy + 2) / 153 in
  let d := doy - (153 * mp + 2) / 5 + 1 in
  0 ≤ mp ≤ 11 ∧ 1 ≤ d ∧
  (mp = 11 → d = doy - 336) ∧
  d ≤ (if mp =? 11 then 29 else if (mp =? 1) || (mp =? 3) || (mp =? 6) || (mp =? 8) then 30 else 31).
Proof.
  intros Hd. cbn zeta. assert (0 ≤ (5 * doy + 2) / 153 ≤ 11) as Hmp by zdiv_lia.
  split; [done|]. set (mp := (5 * doy + 2) / 153) in *.
  assert (153 * mp ≤ 5 * doy + 2 < 153 * mp + 153) as Hb by (unfold mp; zdiv_lia). clearbody mp.
  assert (mp = 0 ∨ mp = 1 ∨ mp = 2 ∨ mp = 3 ∨ mp = 4 ∨ mp = 5 ∨ mp = 6 ∨ mp = 7 ∨ mp = 8 ∨ mp = 9 ∨ mp = 10 ∨ mp = 11) as Hc by lia.
  destruct_or! Hc; subst mp; cbn; zdiv_lia.
Qed.

Lemma is_leap_year_start era yoe :
  0 ≤ yoe < 400 → is_leap (era * 400 + yoe + 1) = (year_start (yoe + 1) - year_start yoe =? 366).
Proof.
  intros Hy. unfold is_leap, year_start.
  replace (era * 400 + yoe + 1) with (yoe + 1 + era * 400) by lia.
  replace ((yoe + 1 + era * 400) mod 4) with ((yoe + 1) mod 4) by zdiv_lia.
  replace ((yoe + 1 + era * 400) mod 100) with ((yoe + 1) mod 100) by zdiv_lia.
  replace ((yoe + 1 + era * 400) mod 400) with ((yoe + 1) mod 400) by zdiv_lia.
  destruct (Z.eqb_spec ((yoe + 1) mod 4) 0), (Z.eqb_spec ((yoe + 1) mod 100) 0), (Z.eqb_spec ((yoe + 1) mod 400) 0);
    cbn; symmetry; first [apply Z.eqb_eq | apply Z.eqb_neq]; zdiv_lia.
Qed.

Lemma civil_days n y m d :
  civil_from_days n = (y, m, d) → days_from_civil y m d = n ∧ 1 ≤ m ≤ 12 ∧ 1 ≤ d ≤ days_in m y.
Proof.
  unfold civil_from_days. set (era := (n + 719468) / 146097). set (doe := (n + 719468) mod 146097).
  assert (n = era * 146097 + doe - 719468) as Hn by (unfold era, doe; zdiv_lia).
  assert (0 ≤ doe < 146097) as Hdoe by (unfold doe; zdiv_lia). clearbody era doe. subst n.
  destruct (year_start_spec doe Hdoe) as [Hy Hs]. set (yoe := if _ <=? doe then _ else _) in *. clearbody yoe.
  assert (year_start (yoe + 1) - year_start yoe ≤ 366) by (unfold year_start; zdiv_lia).
  assert (0 ≤ doe - year_start yoe ≤ 365) as Hdoy by lia.
  destruct (month_spec _ Hdoy) as (Hmp & Hd1 & Hfeb & Hd2). set (doy := doe - year_start yoe) in *.
  set (mp := (5 * doy + 2) / 153) in *. set (dd := doy - (153 * mp + 2) / 5 + 1) in *.
  intros [= <- <- <-]. pose proof (is_leap_year_start era yoe Hy) as Hleap.
  assert ((era * 400 + yoe) / 400 = era ∧ (era * 400 + yoe) mod 400 = yoe) as [Hdiv Hmod] by (split; zdiv_lia).
  unfold days_from_civil. destruct (Z.ltb_spec mp 10) as [Hlt|Hge].
  - rewrite (proj2 (Z.leb_gt (mp + 3) 2)) by lia. rewrite Z.add_0_r, Hdiv, Hmod.
    replace (mp + 3 - 3) with mp by lia. split; [lia|]. split; [lia|]. split; [lia|].
    unfold days_in. rewrite (proj2 (Z.eqb_neq (mp + 3) 2)) by lia.
    assert (mp = 0 ∨ mp = 1 ∨ mp = 2 ∨ mp = 3 ∨ mp = 4 ∨ mp = 5 ∨ mp = 6 ∨ mp = 7 ∨ mp = 8 ∨ mp = 9) as Hc by lia.
    clear - Hd2 Hc. clearbody mp dd. destruct_or! Hc; subst mp; exact Hd2.
  - rewrite (proj2 (Z.leb_le (mp - 9) 2)) by lia. rewrite Z.add_simpl_r, Hdiv, Hmod.
    replace (mp - 9 + 9) with mp by lia. split; [lia|]. split; [lia|]. split; [lia|].
    unfold days_in. assert (mp = 10 ∨ mp = 11) as Hc by lia. destruct Hc as [E|E].
    + rewrite E in *. exact Hd2.
    + rewrite E in *. change (11 - 9 =? 2) with true in *. change (11 =? 11) with true in *. cbv iota in *. rewrite Hleap. specialize (Hfeb eq_refl).
      assert (doy = doe - year_start yoe) by done. clearbody doy dd.
      destruct (Z.eqb_spec (year_start (yoe + 1) - year_start yoe) 366); lia.
Qed.

(** ** Digits *)

Definition digit_char (d : Z) : ascii := ascii_of_N (Z.to_N (48 + d)).
Definition digit_value (c : ascii) : Z := Z.of_N (code c) - 48.

(** The last [n] decimal digits of a number. *)
Fixpoint pad (n : nat) (z : Z) : string :=
  match n with O => "" | S n => String (digit_char (z / 10 ^ Z.of_nat n mod 10)) (pad n z) end.

(** Read exactly [n] digits. *)
Fixpoint fixed (n : nat) (acc : Z) (s : string) : option (Z * string) :=
  match n, s with
  | O, _ => Some (acc, s)
  | S n, String c s => if is_digit c then fixed n (acc * 10 + digit_value c) s else None
  | S _, EmptyString => None
  end.

Lemma digit_facts d : 0 ≤ d < 10 → is_digit (digit_char d) = true ∧ digit_value (digit_char d) = d.
Proof.
  intros Hd. unfold is_digit, in_range, digit_value, code, digit_char. rewrite N_ascii_embedding by lia.
  split; [apply andb_true_intro; split; apply N.leb_le; lia|lia].
Qed.

Lemma mod_split z n : z mod 10 ^ Z.of_nat (S n) = z / 10 ^ Z.of_nat n mod 10 * 10 ^ Z.of_nat n + z mod 10 ^ Z.of_nat n.
Proof.
  rewrite Nat2Z.inj_succ, Z.pow_succ_r by lia. assert (0 < 10 ^ Z.of_nat n) by (apply Z.pow_pos_nonneg; lia).
  rewrite (Z.mul_comm 10), Z.rem_mul_r by lia. lia.
Qed.

Lemma fixed_pad n acc z s :
  fixed n acc (pad n z +:+ s) = Some (acc * 10 ^ Z.of_nat n + z mod 10 ^ Z.of_nat n, s).
Proof.
  revert acc. induction n as [|n IH]; intros acc; [cbn; rewrite Z.mod_1_r; do 2 f_equal; lia|].
  cbn [pad]. change (String ?c ?r +:+ s) with (String c (r +:+ s)). cbn [fixed].
  destruct (digit_facts (z / 10 ^ Z.of_nat n mod 10)) as [-> ->]; [apply Z.mod_pos_bound; lia|].
  rewrite IH, mod_split, Nat2Z.inj_succ, Z.pow_succ_r by lia. do 2 f_equal. ring.
Qed.

Lemma fixed_pad_small n z s : 0 ≤ z < 10 ^ Z.of_nat n → fixed n 0 (pad n z +:+ s) = Some (z, s).
Proof. intros Hz. rewrite fixed_pad, Z.mod_small by done. done. Qed.

(** *** Fractions *)

Fixpoint strip_zeros (s : string) : string :=
  match s with
  | EmptyString => ""
  | String c s =>
      let s := strip_zeros s in
      if (Ascii.eqb c "0" && String.eqb s "")%bool then "" else String c s
  end.

(** The value of the digits after the point, in units of the [n]th digit; more digits are
    ignored. *)
Fixpoint frac_value (n : nat) (s : string) : Z :=
  match n, s with
  | S n, String c s => digit_value c * 10 ^ Z.of_nat n + frac_value n s
  | _, _ => 0
  end.

Lemma frac_strip n s : frac_value n (strip_zeros s) = frac_value n s.
Proof.
  revert n. induction s as [|c s IH]; intros n; [done|]. cbn [strip_zeros].
  destruct (Ascii.eqb c "0" && String.eqb (strip_zeros s) "")%bool eqn:E.
  - apply andb_prop in E as [->%Ascii.eqb_eq Hs%String.eqb_eq]. destruct n as [|n]; [done|].
    cbn [frac_value]. rewrite <-IH, Hs. by destruct n.
  - destruct n as [|n]; [done|]. cbn [frac_value]. by rewrite IH.
Qed.

Lemma frac_pad n z : frac_value n (pad n z) = z mod 10 ^ Z.of_nat n.
Proof.
  induction n as [|n IH]; [by rewrite Z.mod_1_r|]. cbn [pad frac_value]. rewrite IH, mod_split.
  by destruct (digit_facts (z / 10 ^ Z.of_nat n mod 10)) as [_ ->]; [apply Z.mod_pos_bound; lia|].
Qed.

Fixpoint all_digits (s : string) : bool :=
  match s with EmptyString => true | String c s => (is_digit c && all_digits s)%bool end.

Lemma all_digits_pad n z : all_digits (pad n z) = true.
Proof.
  induction n as [|n IH]; [done|]. cbn [pad all_digits]. rewrite IH.
  by destruct (digit_facts (z / 10 ^ Z.of_nat n mod 10)) as [-> _]; [apply Z.mod_pos_bound; lia|].
Qed.

Lemma all_digits_strip s : all_digits s = true → all_digits (strip_zeros s) = true.
Proof.
  induction s as [|c s IH]; [done|]. cbn [all_digits strip_zeros]. intros [Hc Hs]%andb_prop.
  case_match; [done|]. cbn. by rewrite Hc, IH.
Qed.

Lemma take_all_digits d s : all_digits d = true → stops s = true → take_digits (d +:+ s) = (d, s).
Proof.
  intros Hd Hs. induction d as [|c d IH]; [by apply stops_digits|]. cbn in Hd. apply andb_prop in Hd as [Hc Hd].
  change (String c d +:+ s) with (String c (d +:+ s)). cbn [take_digits]. by rewrite Hc, (IH Hd).
Qed.

(** ** Years of four digits *)

Lemma era_year_start y : y / 400 * 146097 + year_start (y mod 400) = year_start y.
Proof. unfold year_start. zdiv_lia. Qed.

Lemma year_start_mono y y' : y ≤ y' → year_start y ≤ year_start y'.
Proof. intros H. unfold year_start. zdiv_lia. Qed.

Lemma civil_year_range n y m d :
  civil_from_days n = (y, m, d) → 0 ≤ y ≤ 9999 ↔ -719528 ≤ n ≤ 2932896.
Proof.
  intros [<- [Hm Hd]]%civil_days. unfold days_from_civil. rewrite era_year_start.
  assert (d ≤ 31) by (unfold days_in in Hd; repeat case_match; lia).
  destruct (Z.leb_spec m 2) as [Hm2|Hm2].
  - assert (306 ≤ (153 * (m + 9) + 2) / 5 + d - 1 ≤ 367) as Hdoy by zdiv_lia.
    pose proof (year_start_mono (-1) (y - 1)) as H1. pose proof (year_start_mono (y - 1) (-2)) as H2.
    pose proof (year_start_mono (y - 1) 9998) as H3. pose proof (year_start_mono 9999 (y - 1)) as H4.
    change (year_start (-1)) with (-366) in *. change (year_start (-2)) with (-731) in *.
    change (year_start 9998) with 3651694 in *. change (year_start 9999) with 3652059 in *. lia.
  - assert (0 ≤ (153 * (m - 3) + 2) / 5 + d - 1 ≤ 305) as Hdoy by zdiv_lia.
    pose proof (year_start_mono 0 y) as H1. pose proof (year_start_mono y (-1)) as H2.
    pose proof (year_start_mono y 9999) as H3. pose proof (year_start_mono 10000 y) as H4.
    change (year_start (-1)) with (-366) in *. change (year_start 0) with 0 in *.
    change (year_start 9999) with 3652059 in *. change (year_start 10000) with 3652425 in *. lia.
Qed.

(** ** RFC 3339 *)

Definition frac_text (ns : Z) : string := if ns =? 0 then "" else "." +:+ strip_zeros (pad 9 ns).

(** [None]: the year is not between 0 and 9999. *)
Definition format_time (t : Time) : option string :=
  let s := t / 10 ^ 9 in
  let '(y, mo, d) := civil_from_days (s / 86400) in
  let sod := s mod 86400 in
  if (0 <=? y) && (y <=? 9999) then
    Some (pad 4 y +:+ "-" +:+ pad 2 mo +:+ "-" +:+ pad 2 d +:+ "T" +:+ pad 2 (sod / 3600) +:+ ":" +:+
          pad 2 (sod / 60 mod 60) +:+ ":" +:+ pad 2 (sod mod 60) +:+ frac_text (t mod 10 ^ 9) +:+ "Z")
  else None.

(** The fraction, if there is one; a comma will do. *)
Definition parse_frac (s : string) : Z * string :=
  match s with
  | String c rest =>
      if (Ascii.eqb c "." || Ascii.eqb c ",")%bool then
        match take_digits rest with (EmptyString, _) => (0, s) | (d, t) => (frac_value 9 d, t) end
      else (0, s)
  | EmptyString => (0, s)
  end.

(** The offset in seconds; nothing may follow it. *)
Definition parse_zone (s : string) : option Z :=
  if String.eqb s "Z" then Some 0
  else
    match s with
    | String sg s =>
        '(h, s) ← fixed 2 0 s; s ← strip ":" s; '(m, s) ← fixed 2 0 s;
        if ((h <=? 24) && (m <=? 60) && String.eqb s "")%bool then
          if Ascii.eqb sg "+" then Some ((h * 60 + m) * 60)
          else if Ascii.eqb sg "-" then Some (- ((h * 60 + m) * 60)) else None
        else None
    | EmptyString => None
    end.

(** The hour; one digit will do. *)
Definition parse_hour (s : string) : option (Z * string) :=
  match s with
  | String a (String b _) => if is_digit b then fixed 2 0 s else fixed 1 0 s
  | _ => None
  end.

Definition parse_time (s : string) : option Time :=
  '(y, s) ← fixed 4 0 s; s ← strip "-" s; '(mo, s) ← fixed 2 0 s; s ← strip "-" s;
  '(d, s) ← fixed 2 0 s; s ← strip "T" s; '(h, s) ← parse_hour s; s ← strip ":" s;
  '(mi, s) ← fixed 2 0 s; s ← strip ":" s; '(sec, s) ← fixed 2 0 s;
  if ((1 <=? mo) && (mo <=? 12) && (1 <=? d) && (d <=? days_in mo y) && (h <=? 23) && (mi <=? 59) && (sec <=? 59))%bool then
    let '(ns, s) := parse_frac s in
    offset ← parse_zone s;
    Some ((days_from_civil y mo d * 86400 + h * 3600 + mi * 60 + sec - offset) * 10 ^ 9 + ns)
  else None.

Lemma parse_frac_text ns : 0 ≤ ns < 10 ^ 9 → parse_frac (frac_text ns +:+ "Z") = (ns, "Z").
Proof.
  intros Hns. unfold frac_text. destruct (Z.eqb_spec ns 0) as [->|Hne]; [done|].
  rewrite <-string_app_assoc. change ("." +:+ ?x) with (String "." x). unfold parse_frac.
  change (Ascii.eqb "." ".") with true. cbn [orb].
  rewrite take_all_digits by (apply all_digits_strip, all_digits_pad || done).
  assert (frac_value 9 (strip_zeros (pad 9 ns)) = ns) as Hv by (rewrite frac_strip, frac_pad; by apply Z.mod_small).
  destruct (strip_zeros (pad 9 ns)) eqn:E; [cbn in Hv; lia|]. by rewrite Hv.
Qed.

Lemma parse_hour_pad z s : 0 ≤ z < 24 → parse_hour (pad 2 z +:+ s) = Some (z, s).
Proof.
  intros Hz. rewrite <-(fixed_pad_small 2 z s) by (cbn; lia). unfold parse_hour. cbn [pad]. rewrite !string_cons_app.
  by destruct (digit_facts (z / 10 ^ Z.of_nat 0 mod 10)) as [-> _]; [apply Z.mod_pos_bound; lia|].
Qed.

(** A formatted time is read back. *)
Lemma parse_format_time t text : format_time t = Some text → parse_time text = Some t.
Proof.
  unfold format_time. destruct (civil_from_days (t / 10 ^ 9 / 86400)) as [[y mo] d] eqn:E.
  destruct (civil_days _ _ _ _ E) as (Hdays & Hmo & Hd). set (sod := t / 10 ^ 9 mod 86400).
  assert (0 ≤ sod < 86400) as Hsod by (apply Z.mod_pos_bound; lia).
  destruct ((0 <=? y) && (y <=? 9999))%bool eqn:Ey; [|done]. apply andb_prop in Ey as [Hy1%Z.leb_le Hy2%Z.leb_le].
  intros <-%(inj Some). assert (d ≤ 31) by (unfold days_in in Hd; repeat case_match; lia).
  assert (0 ≤ sod / 3600 < 24 ∧ 0 ≤ sod / 60 mod 60 < 60 ∧ 0 ≤ sod mod 60 < 60) as (Hh & Hmi & Hse) by (split_and!; zdiv_lia).
  assert (∀ s, strip "-" ("-" +:+ s) = Some s ∧ strip "T" ("T" +:+ s) = Some s ∧ strip ":" (":" +:+ s) = Some s) as Hst by done.
  unfold parse_time. repeat (first [rewrite fixed_pad_small by (cbn; lia) | rewrite parse_hour_pad by lia]; cbn [mbind option_bind];
    first [rewrite (proj1 (Hst _)) | rewrite (proj1 (proj2 (Hst _))) | rewrite (proj2 (proj2 (Hst _))) | idtac]; cbn [mbind option_bind]).
  rewrite !(proj2 (Z.leb_le _ _)) by lia. cbn [andb].
  rewrite parse_frac_text by (apply Z.mod_pos_bound; lia). change (parse_zone "Z") with (Some 0). cbn [mbind option_bind]. f_equal.
  rewrite Hdays. unfold sod in *. clear -Hsod. zdiv_lia.
Qed.

Example time_sample :
  format_time (1700000000 * 10 ^ 9 + 120000000) = Some "2023-11-14T22:13:20.12Z" ∧
  parse_time "2023-11-15T00:13:20.12+02:00" = Some (1700000000 * 10 ^ 9 + 120000000).
Proof. vm_compute. done. Qed.

(** The characters of a time are not ones JSON escapes. *)
Lemma format_time_zero : format_time zeroTime = Some "0001-01-01T00:00:00Z".
Proof. vm_compute. reflexivity. Qed.

(** The first instants of the years 0 and 10000. *)
Definition year0 : Time := -719528 * 86400 * 10 ^ 9.
Definition year10000 : Time := 2932897 * 86400 * 10 ^ 9.

Lemma format_time_range t : is_Some (format_time t) ↔ year0 ≤ t < year10000.
Proof.
  unfold format_time, year0, year10000. destruct (civil_from_days (t / 10 ^ 9 / 86400)) as [[y mo] d] eqn:E.
  apply civil_year_range in E.
  assert (-719528 ≤ t / 10 ^ 9 / 86400 ≤ 2932896 ↔ -719528 * 86400 * 10 ^ 9 ≤ t < 2932897 * 86400 * 10 ^ 9) as <- by zdiv_lia.
  rewrite <-E. destruct (Z.leb_spec 0 y), (Z.leb_spec y 9999); cbn; split; intros H'; try lia;
    first [by eexists | by destruct H'].
Qed.
