(* ===== verification/JsonStruct.v ===== *)
(** * JSON and structs ([encoding/json] on struct values)

    How [json.Unmarshal] stores a parsed value into a struct: keys are matched exactly, then
    without regard to case; [null] leaves a field as it is; the last of several members for a
    field wins; a member that fits no field is ignored. The result is [None] where
    [Unmarshal] returns an error. *)

From S2P Require Import Prelude GoLib Json Base64 TimeText.
From Stdlib Require Import Ascii.

(** ** Keys *)

Definition to_upper (c : ascii) : ascii := if in_range 97 122 c then ascii_of_N (code c - 32) else c.

(** [foldName]: letters in upper case; U+212A is a K and U+017F an S. *)
Fixpoint fold_name (s : string) : string :=
  match s with
  | EmptyString => ""
  | String c s' =>
      match s' with
      | String d s'' =>
          if (Ascii.eqb c "197" && Ascii.eqb d "191")%bool then String "S" (fold_name s'')
          else
            match s'' with
            | String e s''' =>
                if (Ascii.eqb c "226" && Ascii.eqb d "132" && Ascii.eqb e "170")%bool then String "K" (fold_name s''')
                else String (to_upper c) (fold_name s')
            | EmptyString => String (to_upper c) (fold_name s')
            end
      | EmptyString => String (to_upper c) ""
      end
  end.

(** ** Struct values *)

Section Struct.
Context {M : Type}.

(** A field: its name and how a JSON value is stored into it. *)
Definition field : Type := string * (json → M → option M).

Definition find_field (fields : list field) (key : string) : option (json → M → option M) :=
  match find (λ f, String.eqb f.1 key) fields with
  | Some f => Some f.2
  | None => snd <$> find (λ f, String.eqb (fold_name f.1) (fold_name key)) fields
  end.

Definition store_member (fields : list field) (kv : string * json) (m : M) : option M :=
  key ← unquote kv.1;
  match find_field fields key with Some store => store kv.2 m | None => Some m end.

Fixpoint store_members (fields : list field) (members : list (string * json)) (m : M) : option M :=
  match members with
  | [] => Some m
  | kv :: members => m ← store_member fields kv m; store_members fields members m
  end.

Definition store_struct (fields : list field) (j : json) (m : M) : option M :=
  match j with
  | JNull => Some m
  | JObj members => store_members fields members m
  | _ => None
  end.

(** [json.Unmarshal(text, &m)]. *)
Definition unmarshal_struct (fields : list field) (text : string) (m : M) : option M :=
  j ← parse_json text; store_struct fields j m.

Lemma store_members_app fields l1 l2 m :
  store_members fields (l1 ++ l2) m = store_members fields l1 m ≫= store_members fields l2.
Proof.
  revert m. induction l1 as [|kv l1 IH]; intros m; [done|]. cbn [app store_members].
  destruct (store_member fields kv m) as [m'|]; [apply IH|done].
Qed.

(** A member whose key names a field, written as [Marshal] writes it. *)
Lemma store_member_field fields key j m store :
  unquote key = Some key → find_field fields key = Some store → store_member fields (key, j) m = store j m.
Proof. intros Hk Hf. unfold store_member. cbn [fst snd]. rewrite Hk. cbn [mbind option_bind]. by rewrite Hf. Qed.
End Struct.

(** ** Values of the types of the fields *)

Definition store_string {M} (set : string → M → M) (j : json) (m : M) : option M :=
  match j with
  | JNull => Some m
  | JStr raw => s ← unquote raw; Some (set s m)
  | _ => None
  end.

Definition store_int {M} (set : Z → M → M) (j : json) (m : M) : option M :=
  match j with
  | JNull => Some m
  | JNum raw => z ← ParseInt raw; Some (set z m)
  | _ => None
  end.

Definition store_bool {M} (set : bool → M → M) (j : json) (m : M) : option M :=
  match j with
  | JNull => Some m
  | JBool b => Some (set b m)
  | _ => None
  end.

Definition store_time {M} (set : Time → M → M) (j : json) (m : M) : option M :=
  match j with
  | JNull => Some m
  | JStr raw => t ← parse_time raw; Some (set t m)
  | _ => None
  end.

(** The elements of an array stored into bytes over the previous contents. *)
Fixpoint store_byte_elems (elems : list json) (old : list Byte.byte) : option (list Byte.byte) :=
  match elems with
  | [] => Some []
  | j :: elems =>
      b ← match j with
          | JNull => Some (default Byte.x00 (head old))
          | JNum raw => z ← ParseInt raw; if (0 <=? z) then Byte.of_N (Z.to_N z) else None
          | _ => None
          end;
      bs ← store_byte_elems elems (tail old); Some (b :: bs)
  end.

Definition store_bytes {M} (get : M → list Byte.byte) (set : list Byte.byte → M → M) (j : json) (m : M) : option M :=
  match j with
  | JNull => Some (set [] m)
  | JStr raw => s ← unquote raw; bs ← base64_decode s; Some (set bs m)
  | JArr elems => bs ← store_byte_elems elems (get m); Some (set bs m)
  | _ => None
  end.

(** ** Values written by [Marshal] *)

Definition json_string (s : string) : json := JStr (quote s).
Definition json_int (z : Z) : json := JNum (FormatInt z).

(** A nil slice is [null]. *)
Definition json_bytes (bs : list Byte.byte) : json :=
  match bs with [] => JNull | _ => JStr (base64_encode bs) end.
Definition json_time (t : Time) : option json := JStr <$> format_time t.

(** ** Text that needs no escape *)

Fixpoint plain (s : string) : bool :=
  match s with
  | EmptyString => true
  | String c s =>
      (in_range 32 127 c && negb (Ascii.eqb c quote_char) && negb (Ascii.eqb c backslash) && negb (Ascii.eqb c "<") &&
       negb (Ascii.eqb c ">") && negb (Ascii.eqb c "&") && plain s)%bool
  end.

Lemma plain_app s t : plain (s +:+ t) = (plain s && plain t)%bool.
Proof.
  induction s as [|c s IH]; [done|]. rewrite string_cons_app. cbn [plain]. rewrite IH. by rewrite !andb_assoc.
Qed.

Lemma quote_plain s : plain s = true → quote s = s.
Proof.
  unfold quote. induction s as [|c s IH]; [done|]. cbn [plain].
  intros [[[[[[Hr Hq]%andb_prop Hb]%andb_prop Hl]%andb_prop Hg]%andb_prop Ha]%andb_prop Hs]%andb_prop.
  cbn [quote_go]. rewrite (proj2 (utf8_size_1 c s)) by (eapply in_range_mono; [..|exact Hr]; done).
  rewrite (IH Hs). unfold quote_ascii.
  repeat match goal with H : negb _ = true |- _ => apply negb_true_iff in H; rewrite H end.
  assert (∀ d, (code d <= 31)%N → Ascii.eqb c d = false ∧ in_range 0 31 c = false) as Hlow.
  { unfold in_range in *. apply andb_prop in Hr as [Hr%N.leb_le _]. intros d Hd. split.
    - apply Ascii.eqb_neq. intros ->. lia.
    - apply andb_false_iff. right. apply N.leb_gt. lia. }
  rewrite !(λ d H, proj1 (Hlow d H)) by (vm_compute; discriminate).
  rewrite (proj2 (Hlow "008"%char ltac:(vm_compute; discriminate))). done.
Qed.

Lemma plain_digit z : 0 ≤ z < 10 → plain (String (digit_char z) "") = true.
Proof.
  intros Hz. set (P n := plain (String (digit_char n) "")).
  assert (forallb P (Z.of_nat <$> seq 0 10) = true) as H by (vm_compute; reflexivity).
  rewrite forallb_forall in H. apply (H z). apply list_elem_of_In, list_elem_of_fmap.
  exists (Z.to_nat z). split; [lia|]. apply elem_of_seq. lia.
Qed.

(** Every text [Marshal] writes from digits, base64 and times is plain. *)
Lemma plain_pad n z : plain (pad n z) = true.
Proof.
  induction n as [|n IH]; [done|]. cbn [pad]. change (String ?c ?s) with (String c "" +:+ s).
  rewrite plain_app, IH, plain_digit by (apply Z.mod_pos_bound; lia). done.
Qed.

Lemma plain_strip_zeros s : plain s = true → plain (strip_zeros s) = true.
Proof.
  induction s as [|c s IH]; [done|]. intros H. cbn [strip_zeros]. case_match; [done|].
  cbn [plain] in *. apply andb_prop in H as [-> Hs]. by rewrite IH.
Qed.

Lemma plain_format_time t text : format_time t = Some text → plain text = true.
Proof.
  unfold format_time. destruct (civil_from_days _) as [[y mo] d]. case_match; [|done]. intros <-%(inj Some).
  rewrite !plain_app, !plain_pad. unfold frac_text. case_match; [done|].
  by rewrite plain_app, plain_strip_zeros by apply plain_pad.
Qed.

Lemma plain_sextet n : (n < 64)%N → plain (String (sextet_char n) "") = true.
Proof. apply (sextet_cases (λ n, plain (String (sextet_char n) ""))). vm_compute. reflexivity. Qed.

Lemma plain_base64 bs : plain (base64_encode bs) = true.
Proof.
  assert (∀ n s, (n < 64)%N → plain (String (sextet_char n) s) = plain s) as Hs.
  { intros n s Hn. change (String ?c s) with (String c "" +:+ s). by rewrite plain_app, plain_sextet. }
  induction bs as [|a|a b|a b c bs IH] using list_ind3; [done|..]; cbn [base64_encode];
    pose proof (to_N_bound a); try pose proof (to_N_bound b); try pose proof (to_N_bound c);
    rewrite !Hs by div_lia; [done|done|]. exact IH.
Qed.

Lemma utf8_plain s : plain s = true → utf8_valid s = true.
Proof.
  unfold utf8_valid. induction s as [|c s IH]; [done|]. cbn [plain].
  intros [[[[[[Hr _]%andb_prop _]%andb_prop _]%andb_prop _]%andb_prop _]%andb_prop Hs]%andb_prop.
  cbn [utf8_go]. rewrite (proj2 (utf8_size_1 c s)) by (eapply in_range_mono; [..|exact Hr]; done). by apply IH.
Qed.

Lemma unquote_plain_text s : plain s = true → unquote s = Some s.
Proof. intros Hs. rewrite <-(quote_plain s Hs) at 1. by apply unquote_quote, utf8_plain. Qed.

(** ** What is written is read back *)

Section Stores.
Context {M : Type}.

Lemma store_json_string (set : string → M → M) s m :
  utf8_valid s = true → store_string set (json_string s) m = Some (set s m).
Proof. intros Hs. cbn [store_string json_string]. by rewrite unquote_quote. Qed.

Lemma store_json_int (set : Z → M → M) z m : int64 z → store_int set (json_int z) m = Some (set z m).
Proof. intros Hz. cbn [store_int json_int]. by rewrite ParseInt_FormatInt. Qed.

Lemma store_json_bool (set : bool → M → M) b m : store_bool set (JBool b) m = Some (set b m).
Proof. done. Qed.

Lemma store_json_time (set : Time → M → M) t j m : json_time t = Some j → store_time set j m = Some (set t m).
Proof.
  unfold json_time. destruct (format_time t) as [text|] eqn:E; [|done]. intros <-%(inj Some).
  cbn [store_time]. by rewrite (parse_format_time _ _ E).
Qed.

Lemma store_json_bytes get (set : list Byte.byte → M → M) bs m :
  store_bytes get set (json_bytes bs) m = Some (set bs m).
Proof.
  destruct bs as [|b bs]; [done|]. cbn [store_bytes json_bytes].
  rewrite unquote_plain_text by apply plain_base64. cbn [mbind option_bind]. by rewrite base64_roundtrip.
Qed.
End Stores.

(** ... and is what [parse_json] reads. *)
Lemma json_ok_bytes bs : json_ok (json_bytes bs).
Proof. destruct bs as [|b bs]; [done|]. exists (base64_encode (b :: bs)). by rewrite quote_plain by apply plain_base64. Qed.

Lemma json_ok_time t j : json_time t = Some j → json_ok j ∧ json_depth j = 0.
Proof.
  unfold json_time. destruct (format_time t) as [text|] eqn:E; [|done]. intros <-%(inj Some).
  split; [|done]. exists text. by rewrite quote_plain by by eapply plain_format_time.
Qed.

Lemma json_depth_bytes bs : json_depth (json_bytes bs) = 0.
Proof. by destruct bs. Qed.

(** An object whose keys need no escape. *)
Lemma json_ok_members l : Forall (λ kv, plain kv.1 = true ∧ json_ok kv.2) l → json_ok (JObj l).
Proof.
  intros Hl. cbn [json_ok]. rewrite fold_right_and. eapply Forall_impl; [exact Hl|]. intros [k j] [Hk Hj].
  split; [|exact Hj]. exists k. by rewrite quote_plain.
Qed.

Lemma json_ok_string s : json_ok (json_string s).
Proof. by exists s. Qed.
Lemma json_ok_int z : json_ok (json_int z).
Proof. by exists z. Qed.
#[export] Hint Resolve json_ok_bytes json_ok_string json_ok_int : gte.

(** Store the next member, which the table of fields knows, by the lemma [lem]. *)
Tactic Notation "store_field" uconstr(lem) :=
  cbn [store_members];
  match goal with |- context [store_member ?tags (?k, ?j) ?m] =>
    match eval cbn in (find_field tags k) with Some ?s =>
      rewrite (store_member_field tags k j m s eq_refl eq_refl)
    end
  end;
  rewrite lem by done; cbn [mbind option_bind].
