(* ===== verification/Flags.v ===== *)
(** * Command lines: durations, numbers and the [flag] package

    [time.Duration]'s text, [time.ParseDuration], [strconv.ParseBool], [strconv.ParseInt] in
    base 0 and [flag.FlagSet.Parse] with [flag.ContinueOnError]. *)

From S2P Require Import Prelude GoLib Float Json TimeText.
From Stdlib Require Import Ascii Numbers.DecimalString Numbers.DecimalPos.

(** ** [time.Duration.String] *)

(** [fmtFrac] and [fmtInt]: [u] in units of [10 ^ prec]. *)
Definition fmt_units (prec : nat) (u : Z) : string :=
  let frac := strip_zeros (pad prec u) in
  FormatInt (u / 10 ^ Z.of_nat prec) +:+ (if String.eqb frac "" then "" else "." +:+ frac).

Definition micro_sign : string := String "194" (String "181" "").

Definition Duration_String (d : Duration) : string :=
  let u := Z.abs d in
  (if d <? 0 then "-" else "") +:+
  if u =? 0 then "0s"
  else if u <? 10 ^ 3 then fmt_units 0 u +:+ "ns"
  else if u <? 10 ^ 6 then fmt_units 3 u +:+ micro_sign +:+ "s"
  else if u <? 10 ^ 9 then fmt_units 6 u +:+ "ms"
  else
    let secs := u / 10 ^ 9 in
    let mins := secs / 60 in
    let s := fmt_units 9 (secs mod 60 * 10 ^ 9 + u mod 10 ^ 9) +:+ "s" in
    if mins =? 0 then s
    else if mins / 60 =? 0 then FormatInt (mins mod 60) +:+ "m" +:+ s
    else FormatInt (mins / 60) +:+ "h" +:+ FormatInt (mins mod 60) +:+ "m" +:+ s.

Example duration_text :
  Duration_String 1500000000 = "1.5s" ∧ Duration_String (-2000) = ("-2" +:+ micro_sign +:+ "s") ∧
  Duration_String 3600000000000 = "1h0m0s" ∧ Duration_String MinInt64 = "-2562047h47m16.854775808s".
Proof. vm_compute. done. Qed.

(** ** [time.ParseDuration] *)

(** [leadingInt]: [None] when the number does not fit. *)
Fixpoint leading_int (x : Z) (s : string) : option (Z * string) :=
  match s with
  | String c rest =>
      if is_digit c then
        if 2 ^ 63 / 10 <? x then None
        else let x := x * 10 + digit_value c in if 2 ^ 63 <? x then None else leading_int x rest
      else Some (x, s)
  | EmptyString => Some (x, s)
  end.

(** [leadingFraction]: the digits that fit and their scale. *)
Fixpoint leading_fraction (x : Z) (scale : float64) (overflow : bool) (s : string) : Z * float64 * string :=
  match s with
  | String c rest =>
      if is_digit c then
        if overflow then leading_fraction x scale true rest
        else if (2 ^ 63 - 1) / 10 <? x then leading_fraction x scale true rest
        else
          let y := x * 10 + digit_value c in
          if 2 ^ 63 <? y then leading_fraction x scale true rest
          else leading_fraction y (f64_mul scale (f64_of_int 10)) false rest
      else (x, scale, s)
  | EmptyString => (x, scale, s)
  end.

(** The unit: everything up to the next digit or point. *)
Fixpoint take_unit (s : string) : string * string :=
  match s with
  | String c rest =>
      if (Ascii.eqb c "." || is_digit c)%bool then ("", s)
      else let '(u, t) := take_unit rest in (String c u, t)
  | EmptyString => ("", s)
  end.

Definition greek_mu : string := String "206" (String "188" "").

Definition unit_value (u : string) : option Z :=
  if String.eqb u "ns" then Some 1
  else if (String.eqb u "us" || String.eqb u (micro_sign +:+ "s") || String.eqb u (greek_mu +:+ "s"))%bool then Some (10 ^ 3)
  else if String.eqb u "ms" then Some (10 ^ 6)
  else if String.eqb u "s" then Some (10 ^ 9)
  else if String.eqb u "m" then Some (60 * 10 ^ 9)
  else if String.eqb u "h" then Some (3600 * 10 ^ 9)
  else None.

(** One number with its unit: the nanoseconds and what is left. *)
Definition duration_part (s : string) : option (Z * string) :=
  '(v, s1) ← leading_int 0 s;
  let pre := negb (String.eqb s1 s) in
  let '(f, scale, s2, post) :=
    match s1 with
    | String c rest =>
        if Ascii.eqb c "." then
          let '(f, scale, s2) := leading_fraction 0 (f64_of_int 1) false rest in (f, scale, s2, negb (String.eqb s2 rest))
        else (0, f64_of_int 1, s1, false)
    | EmptyString => (0, f64_of_int 1, s1, false)
    end in
  if negb (pre || post) then None else
  let '(u, t) := take_unit s2 in
  unit ← unit_value u;
  if 2 ^ 63 / unit <? v then None else
  let v := v * unit in
  let v := if 0 <? f then v + f64_floor_int (f64_mul (f64_of_int f) (f64_div (f64_of_int unit) scale)) else v in
  if 2 ^ 63 <? v then None else Some (v, t).

(** The sum of the parts, an unsigned 64-bit number that may not exceed [2 ^ 63]. *)
Fixpoint duration_sum (fuel : nat) (d : Z) (s : string) : option Z :=
  if String.eqb s "" then Some d else
  match fuel with
  | O => None
  | S fuel =>
      '(v, t) ← duration_part s;
      let d := (d + v) mod 2 ^ 64 in
      if 2 ^ 63 <? d then None else duration_sum fuel d t
  end.

Definition ParseDuration (s : string) : option Duration :=
  let '(neg, s) :=
    match s with
    | String c rest => if Ascii.eqb c "-" then (true, rest) else if Ascii.eqb c "+" then (false, rest) else (false, s)
    | EmptyString => (false, s)
    end in
  if String.eqb s "0" then Some 0
  else if String.eqb s "" then None
  else
    d ← duration_sum (String.length s) 0 s;
    if neg then Some (wrap64 (- wrap64 d)) else if 2 ^ 63 - 1 <? d then None else Some d.

Example duration_samples :
  ParseDuration "1h15m30.918s" = Some 4530918000000 ∧ ParseDuration "-1.5s" = Some (-1500000000) ∧
  ParseDuration "300ms" = Some 300000000 ∧ ParseDuration ".5s" = Some 500000000 ∧ ParseDuration "0" = Some 0 ∧
  ParseDuration "3" = None ∧ ParseDuration "." = None ∧ ParseDuration "-9223372036854775808ns" = Some MinInt64 ∧
  ParseDuration "9223372036854775808ns" = None ∧ ParseDuration "" = None ∧ ParseDuration "1x" = None.
Proof. vm_compute. done. Qed.

(** Every part consumes its unit, so the fuel suffices. *)
Lemma leading_int_length x s v t : leading_int x s = Some (v, t) → (String.length t ≤ String.length s)%nat.
Proof.
  revert x. induction s as [|c s IH]; intros x; cbn [leading_int]; [by intros [= _ <-]|].
  repeat case_match; try done; [|by intros [= _ <-]]. intros Hs%IH. cbn. lia.
Qed.

Lemma leading_fraction_length x f o s : (String.length (leading_fraction x f o s).2 ≤ String.length s)%nat.
Proof.
  revert x f o. induction s as [|c s IH]; intros x f o; cbn [leading_fraction]; [done|].
  repeat case_match; cbn [snd String.length]; try lia; (etrans; [apply IH|lia]).
Qed.

Lemma take_unit_length s : (String.length (take_unit s).1 + String.length (take_unit s).2 = String.length s)%nat.
Proof.
  induction s as [|c s IH]; [done|]. cbn [take_unit]. case_match; [done|]. destruct (take_unit s). cbn in *. lia.
Qed.

Lemma duration_part_shorter s v t : duration_part s = Some (v, t) → (String.length t < String.length s)%nat.
Proof.
  unfold duration_part. destruct (leading_int 0 s) as [[x s1]|] eqn:E1; [|done]. apply leading_int_length in E1.
  cbn [mbind option_bind]. set (r := match s1 with EmptyString => _ | _ => _ end).
  assert (String.length r.1.2 ≤ String.length s1)%nat as Hr.
  { unfold r. destruct s1 as [|c s1]; [done|]. case_match; [|done].
    pose proof (leading_fraction_length 0 (f64_of_int 1) false s1) as Hl.
    destruct (leading_fraction _ _ _ _) as [[f sc] s2]. cbn in *. lia. }
  destruct r as [[[f sc] s2] post]. cbn [fst snd] in Hr. case_match; [done|].
  pose proof (take_unit_length s2) as Hu. destruct (take_unit s2) as [u t']. cbn [fst snd] in Hu.
  destruct (unit_value u) as [n|] eqn:Eu; [|done]. cbn [mbind option_bind]. repeat case_match; try done.
  all: intros [= _ <-]; destruct u; [done|]; cbn [String.length] in Hu; lia.
Qed.

Lemma duration_sum_fuel n d s : (String.length s ≤ n)%nat → duration_sum n d s = duration_sum (String.length s) d s.
Proof.
  revert d s. induction n as [n IH] using lt_wf_ind. intros d s Hn.
  destruct s as [|c s]; [by destruct n|]. destruct n as [|n]; [cbn in Hn; lia|].
  cbn [duration_sum String.length]. cbn [String.eqb].
  destruct (duration_part (String c s)) as [[v t]|] eqn:E; [|done]. apply duration_part_shorter in E.
  cbn [mbind option_bind String.length] in *. case_match; [done|].
  rewrite (IH n) by lia. symmetry. apply IH; lia.
Qed.

(** ** [strconv.ParseBool] and [strconv.ParseInt] with base 0 *)

Definition ParseBool (s : string) : option bool :=
  if bool_decide (s ∈ ["1"; "t"; "T"; "true"; "TRUE"; "True"]) then Some true
  else if bool_decide (s ∈ ["0"; "f"; "F"; "false"; "FALSE"; "False"]) then Some false
  else None.

(** [c | 0x20]. *)
Definition lower (c : ascii) : ascii := ascii_of_N (N.lor (code c) 32).

Definition digit_of (c : ascii) : option Z :=
  if is_digit c then Some (digit_value c)
  else if in_range 97 122 (lower c) then Some (Z.of_N (code (lower c)) - 87)
  else None.

(** The digits of a number below [2 ^ 64], skipping underscores. *)
Fixpoint digits_value (base x : Z) (s : string) : option Z :=
  match s with
  | EmptyString => Some x
  | String c s =>
      if Ascii.eqb c "_" then digits_value base x s
      else
        d ← digit_of c;
        if base <=? d then None
        else let x := x * base + d in if 2 ^ 64 <=? x then None else digits_value base x s
  end.

(** The base a literal announces, and its digits. *)
Definition number_base (s : string) : Z * string :=
  match s with
  | String c s' =>
      if Ascii.eqb c "0" then
        match s' with
        | String b (String _ _ as digits) =>
            if Ascii.eqb (lower b) "b" then (2, digits)
            else if Ascii.eqb (lower b) "o" then (8, digits)
            else if Ascii.eqb (lower b) "x" then (16, digits)
            else (8, s')
        | _ => (8, s')
        end
      else (10, s)
  | EmptyString => (10, s)
  end.

(** [underscoreOK] past the sign: what was seen last is nothing yet, a digit or the prefix,
    an underscore, or something else. *)
Inductive seen := SeenStart | SeenDigit | SeenUnderscore | SeenOther.

Fixpoint underscores_ok (hex : bool) (saw : seen) (s : string) : bool :=
  match s with
  | EmptyString => match saw with SeenUnderscore => false | _ => true end
  | String c s =>
      if (is_digit c || (hex && in_range 97 102 (lower c)))%bool then underscores_ok hex SeenDigit s
      else if Ascii.eqb c "_" then match saw with SeenDigit => underscores_ok hex SeenUnderscore s | _ => false end
      else match saw with SeenUnderscore => false | _ => underscores_ok hex SeenOther s end
  end.

Definition underscoreOK (s : string) : bool :=
  match s with
  | String c (String b s') =>
      if (Ascii.eqb c "0" && (Ascii.eqb (lower b) "b" || Ascii.eqb (lower b) "o" || Ascii.eqb (lower b) "x"))%bool
      then underscores_ok (Ascii.eqb (lower b) "x") SeenDigit s'
      else underscores_ok false SeenStart s
  | _ => underscores_ok false SeenStart s
  end.

Definition ParseUint0 (s : string) : option Z :=
  if String.eqb s "" then None else
  let '(base, digits) := number_base s in
  x ← digits_value base 0 digits;
  if (string_has "_" s && negb (underscoreOK s))%bool then None else Some x.

Definition ParseInt0 (s : string) : option Z :=
  let '(neg, s) :=
    match s with
    | String c rest => if Ascii.eqb c "-" then (true, rest) else if Ascii.eqb c "+" then (false, rest) else (false, s)
    | EmptyString => (false, s)
    end in
  x ← ParseUint0 s;
  if neg then (if 2 ^ 63 <? x then None else Some (- x)) else (if 2 ^ 63 <=? x then None else Some x).

Example int_samples :
  ParseInt0 "12" = Some 12 ∧ ParseInt0 "-0x1F" = Some (-31) ∧ ParseInt0 "0b101" = Some 5 ∧ ParseInt0 "017" = Some 15 ∧
  ParseInt0 "1_000" = Some 1000 ∧ ParseInt0 "0_1" = Some 1 ∧ ParseInt0 "1__0" = None ∧ ParseInt0 "_1" = None ∧
  ParseInt0 "0" = Some 0 ∧ ParseInt0 "09" = None ∧ ParseInt0 "0x" = None ∧ ParseInt0 "" = None ∧
  ParseInt0 "9223372036854775808" = None ∧ ParseInt0 "-9223372036854775808" = Some MinInt64.
Proof. vm_compute. done. Qed.

(** ** [flag.FlagSet] *)

Definition ErrHelp : error := Err (Var "flag.ErrHelp") "flag: help requested" [].

(** What an argument is. [Bad]: a dash and no name; [Flag]: a name and the value after [=]. *)
Inductive flag_arg := NotFlag | Terminator | Bad | Flag (name : string) (value : option string).

Definition split_eq (name : string) : string * option string :=
  let '(a, b) := cut_at "=" name in match b with String _ v => (a, Some v) | EmptyString => (a, None) end.

Definition flag_arg_of (s : string) : flag_arg :=
  match s with
  | String d (String c rest) =>
      if negb (Ascii.eqb d "-") then NotFlag
      else if (Ascii.eqb c "-" && String.eqb rest "")%bool then Terminator
      else
        let name := if Ascii.eqb c "-" then rest else String c rest in
        match name with
        | EmptyString => Bad
        | String f _ =>
            if (Ascii.eqb f "-" || Ascii.eqb f "=")%bool then Bad
            else let '(n, v) := split_eq name in Flag n v
        end
  | _ => NotFlag
  end.

Section FlagSet.
Context {C : Type}.

(** A flag: its name, whether it is boolean, and how a text is stored. *)
Record flag := mkFlag { fl_name : string; fl_bool : bool; fl_set : string → C → option C }.

Definition StringVar (name : string) (set : string → C → C) : flag := mkFlag name false (λ s c, Some (set s c)).
Definition DurationVar (name : string) (set : Duration → C → C) : flag :=
  mkFlag name false (λ s c, d ← ParseDuration s; Some (set d c)).
Definition IntVar (name : string) (set : Z → C → C) : flag := mkFlag name false (λ s c, z ← ParseInt0 s; Some (set z c)).
Definition BoolVar (name : string) (set : bool → C → C) : flag :=
  mkFlag name true (λ s c, b ← ParseBool s; Some (set b c)).

(** The operands are left out of the error texts. *)
Definition store_value (f : flag) (value : string) (c : C) : result C :=
  match fl_set f value c with
  | Some c => inr c
  | None => inl (errors_New ((if fl_bool f then "invalid boolean value for -" else "invalid value for flag -") +:+ fl_name f))
  end.

(** [Parse]: flags up to the first argument that is none; arguments after that are ignored
    by the caller. *)
Fixpoint FlagSet_Parse (flags : list flag) (args : list string) (c : C) : result C :=
  match args with
  | [] => inr c
  | s :: args =>
      match flag_arg_of s with
      | NotFlag | Terminator => inr c
      | Bad => inl (errors_New ("bad flag syntax: " +:+ s))
      | Flag name value =>
          match find (λ f, String.eqb (fl_name f) name) flags with
          | None =>
              if (String.eqb name "help" || String.eqb name "h")%bool then inl ErrHelp
              else inl (errors_New ("flag provided but not defined: -" +:+ name))
          | Some f =>
              match fl_bool f, value with
              | true, _ =>
                  match store_value f (default "true" value) c with
                  | inr c => FlagSet_Parse flags args c
                  | inl e => inl e
                  end
              | false, Some v =>
                  match store_value f v c with
                  | inr c => FlagSet_Parse flags args c
                  | inl e => inl e
                  end
              | false, None =>
                  match args with
                  | [] => inl (errors_New ("flag needs an argument: -" +:+ name))
                  | v :: args =>
                      match store_value f v c with
                      | inr c => FlagSet_Parse flags args c
                      | inl e => inl e
                      end
                  end
              end
          end
      end
  end.
End FlagSet.
Arguments flag : clear implicits.

(** ** Decimal numbers are read back *)

Fixpoint uint_value (x : Z) (u : Decimal.uint) : Z :=
  match u with
  | Decimal.Nil => x
  | Decimal.D0 u => uint_value (10 * x) u
  | Decimal.D1 u => uint_value (10 * x + 1) u
  | Decimal.D2 u => uint_value (10 * x + 2) u
  | Decimal.D3 u => uint_value (10 * x + 3) u
  | Decimal.D4 u => uint_value (10 * x + 4) u
  | Decimal.D5 u => uint_value (10 * x + 5) u
  | Decimal.D6 u => uint_value (10 * x + 6) u
  | Decimal.D7 u => uint_value (10 * x + 7) u
  | Decimal.D8 u => uint_value (10 * x + 8) u
  | Decimal.D9 u => uint_value (10 * x + 9) u
  end.

Lemma uint_value_ge u x : 0 ≤ x → x ≤ uint_value x u.
Proof.
  revert x. induction u as [|u IH|u IH|u IH|u IH|u IH|u IH|u IH|u IH|u IH|u IH]; intros x Hx; cbn [uint_value]; [done|..];
    (etrans; [|apply IH]); lia.
Qed.

Lemma uint_value_pos u acc : uint_value (Z.pos acc) u = Z.pos (Pos.of_uint_acc u acc).
Proof.
  revert acc. induction u as [|u IH|u IH|u IH|u IH|u IH|u IH|u IH|u IH|u IH|u IH]; intros acc;
    cbn [uint_value Pos.of_uint_acc]; [done|..]; rewrite <-IH; f_equal; lia.
Qed.

Lemma uint_value_to p : uint_value 0 (Pos.to_uint p) = Z.pos p.
Proof.
  change (Z.pos p) with (Z.of_N (N.pos p)). rewrite <-(Unsigned.of_to p). generalize (Pos.to_uint p) as u.
  induction u as [|u IH|u IH|u IH|u IH|u IH|u IH|u IH|u IH|u IH|u IH]; cbn [uint_value Pos.of_uint]; [done|exact IH|..];
    apply (uint_value_pos u).
Qed.

Lemma leading_int_uint u x s :
  0 ≤ x → uint_value x u ≤ 2 ^ 63 → match s with String c _ => is_digit c = false | EmptyString => True end →
  leading_int x (NilEmpty.string_of_uint u +:+ s) = Some (uint_value x u, s).
Proof.
  revert x. induction u as [|u IH|u IH|u IH|u IH|u IH|u IH|u IH|u IH|u IH|u IH]; intros x Hx Hu Hs;
    [change (NilEmpty.string_of_uint Decimal.Nil +:+ s) with s; destruct s as [|c s]; [done|]; cbn [leading_int]; by rewrite Hs|..];
    cbn [uint_value] in *;
    match type of Hu with uint_value ?y u ≤ _ => pose proof (uint_value_ge u y ltac:(lia)); rewrite <-(IH y) by (done || lia) end;
    cbn [NilEmpty.string_of_uint]; rewrite string_cons_app; cbn [leading_int];
    match goal with |- context [is_digit ?c] => change (is_digit c) with true end; cbv iota;
    match goal with |- context [digit_value ?c] => let d := eval vm_compute in (digit_value c) in change (digit_value c) with d end;
    rewrite (proj2 (Z.ltb_ge _ _)) by (apply Z.div_le_lower_bound; lia); cbv zeta;
    rewrite (proj2 (Z.ltb_ge _ _)) by lia; f_equal; lia.
Qed.

Lemma digits_value_uint u x :
  0 ≤ x → uint_value x u < 2 ^ 64 → digits_value 10 x (NilEmpty.string_of_uint u) = Some (uint_value x u).
Proof.
  revert x. induction u as [|u IH|u IH|u IH|u IH|u IH|u IH|u IH|u IH|u IH|u IH]; intros x Hx Hu; [done|..];
    cbn [uint_value] in *;
    match type of Hu with uint_value ?y u < _ => pose proof (uint_value_ge u y ltac:(lia)); rewrite <-(IH y) by (done || lia) end;
    cbn [NilEmpty.string_of_uint digits_value];
    match goal with |- context [Ascii.eqb ?c ?d] => change (Ascii.eqb c d) with false end; cbv iota;
    match goal with |- context [digit_of ?c] => let d := eval vm_compute in (digit_of c) in change (digit_of c) with d end;
    cbn [mbind option_bind]; (rewrite (proj2 (Z.leb_gt 10 _)) by lia); cbv zeta;
    rewrite (proj2 (Z.leb_gt _ _)) by lia; f_equal; lia.
Qed.

Lemma FormatInt_pos p : FormatInt (Z.pos p) = NilEmpty.string_of_uint (Pos.to_uint p).
Proof. unfold FormatInt. cbn. by destruct (to_uint_head p) as (c & r & E & _); destruct (Pos.to_uint p). Qed.

Lemma FormatInt_neg p : FormatInt (Z.neg p) = String "-" (FormatInt (Z.pos p)).
Proof. done. Qed.

Lemma digit_no_sign c : is_digit c = true → Ascii.eqb c "-" = false ∧ Ascii.eqb c "+" = false.
Proof. intros H. split; apply Ascii.eqb_neq; by intros ->. Qed.

Lemma ParseUint0_pos p : Z.pos p < 2 ^ 64 → ParseUint0 (FormatInt (Z.pos p)) = Some (Z.pos p).
Proof.
  intros Hp. pose proof (FormatInt_chars "_" (Z.pos p) eq_refl) as Hu. rewrite FormatInt_pos in *.
  pose proof (digits_value_uint (Pos.to_uint p) 0 ltac:(lia)) as Hd. rewrite uint_value_to in Hd.
  unfold ParseUint0. rewrite Hu. destruct (to_uint_head p) as (c & r & E & Hc & H0). rewrite E in *.
  cbn [String.eqb number_base]. rewrite H0, (Hd Hp). done.
Qed.

Lemma ParseInt0_FormatInt z : int64 z → ParseInt0 (FormatInt z) = Some z.
Proof.
  unfold int64, MinInt64, MaxInt64. intros Hz. unfold ParseInt0. destruct z as [|p|p]; [done|..].
  - pose proof (ParseUint0_pos p ltac:(lia)) as Hp. rewrite FormatInt_pos in *.
    destruct (to_uint_head p) as (c & r & E & Hc & _). rewrite E in *.
    destruct (digit_no_sign c Hc) as [-> ->]. rewrite Hp. cbn [mbind option_bind]. by rewrite (proj2 (Z.leb_gt _ _)) by lia.
  - rewrite FormatInt_neg. change (Ascii.eqb "-" "-") with true. cbv iota. rewrite ParseUint0_pos by lia.
    cbn [mbind option_bind]. by rewrite (proj2 (Z.ltb_ge _ _)) by lia.
Qed.

(** A duration in nanoseconds is read exactly. *)
Definition nanoseconds (d : Duration) : string := FormatInt d +:+ "ns".

Lemma duration_part_ns p : Z.pos p ≤ 2 ^ 63 → duration_part (nanoseconds (Z.pos p)) = Some (Z.pos p, "").
Proof.
  intros Hp. unfold nanoseconds, duration_part. rewrite FormatInt_pos.
  rewrite leading_int_uint by (rewrite ?uint_value_to; done || lia). rewrite uint_value_to. cbn [mbind option_bind].
  destruct (to_uint_head p) as (c & r & E & Hc & _). rewrite E, string_cons_app.
  replace (String.eqb "ns" (String c (r +:+ "ns"))) with false
    by (symmetry; apply String.eqb_neq; by intros [= <- _]).
  change (Ascii.eqb "n" ".") with false. cbn [negb orb]. cbv iota beta.
  change (take_unit "ns") with ("ns", ""). cbv iota beta. change (unit_value "ns") with (Some 1). cbn [mbind option_bind].
  rewrite (proj2 (Z.ltb_ge _ _)) by (rewrite Z.div_1_r; lia). cbv iota zeta. change (0 <? 0) with false. cbv iota.
  by rewrite Z.mul_1_r, (proj2 (Z.ltb_ge _ _)) by lia.
Qed.

Lemma duration_sum_ns p n : Z.pos p ≤ 2 ^ 63 → duration_sum (S n) 0 (nanoseconds (Z.pos p)) = Some (Z.pos p).
Proof.
  intros Hp. pose proof (duration_part_ns p Hp) as Hd. cbn [duration_sum]. unfold nanoseconds in *. rewrite FormatInt_pos in *.
  destruct (to_uint_head p) as (c & r & E & Hc & _). rewrite E, string_cons_app in *.
  cbn [String.eqb]. rewrite Hd. cbn [mbind option_bind]. rewrite Z.add_0_l, Z.mod_small by lia.
  rewrite (proj2 (Z.ltb_ge _ _)) by lia. by destruct n.
Qed.

Lemma ParseDuration_ns d : int64 d → ParseDuration (nanoseconds d) = Some d.
Proof.
  unfold int64, MinInt64, MaxInt64. intros Hd. unfold ParseDuration. destruct d as [|p|p]; [done|..].
  - pose proof (duration_sum_ns p) as Hs. unfold nanoseconds in *. rewrite FormatInt_pos in *.
    destruct (to_uint_head p) as (c & r & E & Hc & _). rewrite E, string_cons_app in *.
    destruct (digit_no_sign c Hc) as [-> ->]. cbv iota.
    replace (String.eqb (String c (r +:+ "ns")) "0") with false
      by (symmetry; apply String.eqb_neq; intros [= _ Hr]; by destruct r).
    cbn [String.eqb String.length]. rewrite Hs by lia. cbn [mbind option_bind]. by rewrite (proj2 (Z.ltb_ge _ _)) by lia.
  - unfold nanoseconds. rewrite FormatInt_neg, string_cons_app. change (Ascii.eqb "-" "-") with true. cbv iota.
    pose proof (duration_sum_ns p) as Hs. unfold nanoseconds in *. rewrite FormatInt_pos in *.
    destruct (to_uint_head p) as (c & r & E & Hc & _). rewrite E, string_cons_app in *.
    replace (String.eqb (String c (r +:+ "ns")) "0") with false
      by (symmetry; apply String.eqb_neq; intros [= _ Hr]; by destruct r).
    cbn [String.eqb String.length]. rewrite Hs by lia. cbn [mbind option_bind].
    destruct (decide (p = 2 ^ 63)%positive) as [->|Hne]; [done|]. rewrite (wrap64_id (Z.pos p)) by (unfold int64, MinInt64, MaxInt64; lia).
    rewrite wrap64_id by (unfold int64, MinInt64, MaxInt64; lia). done.
Qed.
