(* ===== verification/Codec.v ===== *)
(** * The envelope's JSON codec as an interface

    [json.Marshal] and [json.Unmarshal] of a [TaskMessage]. The store only relies on a
    message it encoded being decoded to the same message: [Unmarshal_Marshal], for the
    messages JSON can represent ([json_safe]: valid UTF-8 strings, years 0 to 9999). *)

From S2P Require Import Prelude GoLib Model.

Class TaskCodec := {
  Marshal : TaskMessage → result string;
  Unmarshal : string → result TaskMessage;
  json_safe : TaskMessage → Prop;
  Unmarshal_Marshal m :
    json_safe m → ∃ text, Marshal m = inr text ∧ Unmarshal text = inr m
}.
