(* ===== verification/JsonCodec.v ===== *)
(** * The envelope as JSON ([json.Marshal] and [json.Unmarshal] of [model.TaskMessage])

    The tags of the struct, and the proof that they satisfy the law of [TaskCodec]: what the
    store writes it reads back. The texts of [encoding/json]'s errors are parameters. *)

From S2P Require Import Prelude GoLib Json Base64 TimeText JsonStruct Model Codec.

(** The errors of the package: which message could not be written, which text could not be
    read into a struct. *)
Class JsonErrors := {
  MarshalError : string → error;
  UnmarshalError : string → error
}.

(** ** Assignments to the fields the engine does not assign to elsewhere *)

Definition set_ID (v : string) (m : TaskMessage) : TaskMessage :=
  let 'mkTaskMessage _ b c d e f g h i j k l n o p q := m in mkTaskMessage v b c d e f g h i j k l n o p q.
Definition set_Type (v : string) (m : TaskMessage) : TaskMessage :=
  let 'mkTaskMessage a _ c d e f g h i j k l n o p q := m in mkTaskMessage a v c d e f g h i j k l n o p q.
Definition set_Payload (v : list Byte.byte) (m : TaskMessage) : TaskMessage :=
  let 'mkTaskMessage a b _ d e f g h i j k l n o p q := m in mkTaskMessage a b v d e f g h i j k l n o p q.
Definition set_Queue (v : string) (m : TaskMessage) : TaskMessage :=
  let 'mkTaskMessage a b c _ e f g h i j k l n o p q := m in mkTaskMessage a b c v e f g h i j k l n o p q.
Definition set_Priority (v : Z) (m : TaskMessage) : TaskMessage :=
  let 'mkTaskMessage a b c d _ f g h i j k l n o p q := m in mkTaskMessage a b c d v f g h i j k l n o p q.
Definition set_MaxRetry (v : Z) (m : TaskMessage) : TaskMessage :=
  let 'mkTaskMessage a b c d e _ g h i j k l n o p q := m in mkTaskMessage a b c d e v g h i j k l n o p q.
Definition set_Timeout (v : Duration) (m : TaskMessage) : TaskMessage :=
  let 'mkTaskMessage a b c d e f g _ i j k l n o p q := m in mkTaskMessage a b c d e f g v i j k l n o p q.
Definition set_Deadline (v : Time) (m : TaskMessage) : TaskMessage :=
  let 'mkTaskMessage a b c d e f g h _ j k l n o p q := m in mkTaskMessage a b c d e f g h v j k l n o p q.
Definition set_CreatedAt (v : Time) (m : TaskMessage) : TaskMessage :=
  let 'mkTaskMessage a b c d e f g h i j k l n o p _ := m in mkTaskMessage a b c d e f g h i j k l n o p v.

(** ** The tags *)

Definition message_tags : list (field (M := TaskMessage)) :=
  [("id", store_string set_ID); ("type", store_string set_Type); ("payload", store_bytes Payload set_Payload);
   ("queue", store_string set_Queue); ("priority", store_int set_Priority); ("max_retry", store_int set_MaxRetry);
   ("retry_count", store_int set_RetryCount); ("timeout", store_int set_Timeout); ("deadline", store_time set_Deadline);
   ("run_at", store_time set_RunAt); ("state", store_string set_State); ("attempt_id", store_string set_AttemptID);
   ("last_error", store_string set_LastError); ("last_failed_at", store_time set_LastFailedAt);
   ("completed_at", store_time set_CompletedAt); ("created_at", store_time set_CreatedAt)].

(** [omitempty] on a string; it has no effect on a [time.Time], which is a struct. *)
Definition omitempty (key s : string) : list (string * json) :=
  if String.eqb s "" then [] else [(key, json_string s)].

(** [None]: the year of a time has no four digits. *)
Definition message_members (m : TaskMessage) : option (list (string * json)) :=
  deadline ← json_time (Deadline m); run_at ← json_time (RunAt m);
  last_failed_at ← json_time (LastFailedAt m); completed_at ← json_time (CompletedAt m);
  created_at ← json_time (CreatedAt m);
  Some ([("id", json_string (ID m)); ("type", json_string (TaskType m)); ("payload", json_bytes (Payload m));
         ("queue", json_string (Queue m)); ("priority", json_int (Priority m)); ("max_retry", json_int (MaxRetry m));
         ("retry_count", json_int (RetryCount m)); ("timeout", json_int (Timeout m)); ("deadline", deadline);
         ("run_at", run_at); ("state", json_string (State m))] ++
        omitempty "attempt_id" (AttemptID m) ++ omitempty "last_error" (LastError m) ++
        [("last_failed_at", last_failed_at); ("completed_at", completed_at); ("created_at", created_at)]).

Definition json_marshal `{JsonErrors} (m : TaskMessage) : result string :=
  match message_members m with
  | Some members => inr (json_print (JObj members))
  | None => inl (MarshalError (ID m))
  end.

Definition json_unmarshal `{JsonErrors} (text : string) : result TaskMessage :=
  match unmarshal_struct message_tags text zeroMessage with
  | Some m => inr m
  | None => inl (UnmarshalError text)
  end.

(** ** The law *)

Definition formats (t : Time) : bool := match format_time t with Some _ => true | None => false end.
Definition int64b (z : Z) : bool := bool_decide (int64 z).

Definition message_times (m : TaskMessage) : list Time :=
  [Deadline m; RunAt m; LastFailedAt m; CompletedAt m; CreatedAt m].

(** What JSON represents: text in UTF-8, machine integers, years 0 to 9999. *)
Definition message_safe (m : TaskMessage) : bool :=
  forallb utf8_valid [ID m; TaskType m; Queue m; State m; AttemptID m; LastError m] &&
  forallb int64b [Priority m; MaxRetry m; RetryCount m; Timeout m] &&
  forallb formats (message_times m).

Lemma formats_json t : formats t = true → ∃ j, json_time t = Some j.
Proof. unfold formats, json_time. destruct (format_time t); [eauto|done]. Qed.

Lemma store_omitempty key s m set :
  unquote key = Some key → find_field message_tags key = Some (store_string set) → utf8_valid s = true →
  store_members message_tags (omitempty key s) m = Some (if String.eqb s "" then m else set s m).
Proof.
  intros Hk Hf Hs. unfold omitempty. case_match; [done|]. cbn [store_members].
  rewrite (store_member_field _ _ _ _ _ Hk Hf), store_json_string by done. done.
Qed.

Lemma store_message_members m members :
  message_safe m = true → message_members m = Some members → store_members message_tags members zeroMessage = Some m.
Proof.
  unfold message_safe, message_times, message_members. cbn [forallb]. rewrite !andb_true_iff.
  intros [[(Hid & Hty & Hq & Hst & Hat & Hle & _) (Hp & Hmr & Hrc & Hto & _)] (Hd & Hr & Hlf & Hca & Hcr & _)].
  unfold int64b in *. rewrite bool_decide_eq_true in Hp, Hmr, Hrc, Hto.
  apply formats_json in Hd as [jd Hd], Hr as [jr Hr], Hlf as [jlf Hlf], Hca as [jca Hca], Hcr as [jcr Hcr].
  rewrite Hd, Hr, Hlf, Hca, Hcr. cbn [mbind option_bind]. intros <-%(inj Some).
  rewrite store_members_app. do 2 store_field store_json_string. store_field store_json_bytes.
  store_field store_json_string. do 4 store_field store_json_int. store_field (store_json_time _ _ _ _ Hd).
  store_field (store_json_time _ _ _ _ Hr).  store_field store_json_string.
  rewrite store_members_app, (store_omitempty _ _ _ set_AttemptID) by done. cbn [mbind option_bind].
  rewrite store_members_app, (store_omitempty _ _ _ set_LastError) by done. cbn [mbind option_bind].
  store_field (store_json_time _ _ _ _ Hlf). store_field (store_json_time _ _ _ _ Hca).
  store_field (store_json_time _ _ _ _ Hcr). f_equal. destruct m. cbn.
  repeat (case_match; bool_to_prop; subst); done.
Qed.

Lemma message_members_ok m members :
  message_members m = Some members → json_ok (JObj members) ∧ json_depth (JObj members) ≤ 10000.
Proof.
  unfold message_members.
  destruct (json_time (Deadline m)) as [jd|] eqn:Hd; [|done]. destruct (json_time (RunAt m)) as [jr|] eqn:Hr; [|done].
  destruct (json_time (LastFailedAt m)) as [jlf|] eqn:Hlf; [|done].
  destruct (json_time (CompletedAt m)) as [jca|] eqn:Hca; [|done].
  destruct (json_time (CreatedAt m)) as [jcr|] eqn:Hcr; [|done].
  apply json_ok_time in Hd as [Hd Hd'], Hr as [Hr Hr'], Hlf as [Hlf Hlf'], Hca as [Hca Hca'], Hcr as [Hcr Hcr'].
  cbn [mbind option_bind]. intros <-%(inj Some).
  split.
  - apply json_ok_members. unfold omitempty. repeat case_match; repeat constructor; cbn [fst snd]; eauto with gte.
  - cbn [json_depth]. unfold omitempty.
    repeat case_match; cbn -[json_bytes Z.max Z.add]; rewrite ?json_depth_bytes, ?Hd', ?Hr', ?Hlf', ?Hca', ?Hcr'; lia.
Qed.

Lemma message_members_times m :
  is_Some (message_members m) ↔ forallb formats (message_times m) = true.
Proof.
  unfold message_members, message_times, formats, json_time. cbn [forallb].
  destruct (format_time (Deadline m)), (format_time (RunAt m)), (format_time (LastFailedAt m)),
    (format_time (CompletedAt m)), (format_time (CreatedAt m)); cbn; split; intros H; first [done|by eexists|by destruct H].
Qed.

Lemma json_law `{JsonErrors} m :
  message_safe m = true → ∃ text, json_marshal m = inr text ∧ json_unmarshal text = inr m.
Proof.
  intros Hm. destruct (proj2 (message_members_times m)) as [members E]; [by apply andb_prop in Hm as [_ Hm]|].
  exists (json_print (JObj members)). unfold json_marshal, json_unmarshal, unmarshal_struct. rewrite E.
  rewrite parse_json_print by (eapply message_members_ok; eauto). cbn [mbind option_bind store_struct].
  by rewrite (store_message_members _ _ Hm E).
Qed.

(** C14: the envelope's JSON. A message is encoded exactly when the year of each of its times
    has at most four digits; and a message whose strings are valid UTF-8 and whose numbers are
    machine integers is then decoded to itself: every field survives the escapes of strings,
    the base64 of the payload, the calendar and the omitted empty fields. *)
Theorem json_roundtrip `{JsonErrors} m :
  (is_Some (message_members m) ↔ ∀ t, t ∈ message_times m → year0 ≤ t < year10000) ∧
  (message_safe m = true → ∃ text, json_marshal m = inr text ∧ json_unmarshal text = inr m).
Proof.
  split; [|apply json_law]. rewrite message_members_times, forallb_forall.
  split; intros H' t Ht; [apply format_time_range|]; specialize (H' t).
  - apply list_elem_of_In in Ht. specialize (H' Ht). unfold formats in H'. destruct (format_time t); [by eexists|done].
  - apply list_elem_of_In in Ht. apply H', format_time_range in Ht as [x Hx]. unfold formats. by rewrite Hx.
Qed.

#[export] Instance JsonCodec `{JsonErrors} : TaskCodec := {|
  Marshal := json_marshal;
  Unmarshal := json_unmarshal;
  json_safe m := message_safe m = true;
  Unmarshal_Marshal := json_law
|}.

(** Errors with a fixed text, to evaluate the codec. *)
#[export] Instance PlainJsonErrors : JsonErrors := {|
  MarshalError _ := errors_New "json: cannot marshal";
  UnmarshalError _ := errors_New "json: cannot unmarshal"
|}.

Definition message_text (m : TaskMessage) : string := match json_marshal m with inr text => text | inl _ => "" end.

(** Replace the encoding of the concrete message [m] in [H] by its text. *)
Ltac encode_in m H :=
  let text := fresh "text" in let E := fresh "E" in
  destruct (Unmarshal_Marshal (TaskCodec := JsonCodec) m ltac:(vm_compute; reflexivity)) as (text & E & _);
  rewrite E in H.

(** ** Witness *)

Definition json_sample : TaskMessage :=
  mkTaskMessage "caf959 <1>" "send" [Byte.x00; Byte.xff] "emails" 3 5 1 Second zeroTime (1700000000 * 10 ^ 9 + 5)
    StateRetry "" "line
break" (1700000001 * 10 ^ 9) zeroTime 1.

Lemma json_roundtrip_witness :
  ∃ text, json_marshal json_sample = inr text ∧ json_unmarshal text = inr json_sample.
Proof. apply (json_roundtrip json_sample). vm_compute. reflexivity. Defined.
