(* ===== verification/Store.v ===== *)
(** * The Redis task store ([internal/redisstore/rdb.go])

    The Go methods of [Store], each over a [world]: the server's database and what
    the network will do to the next commands. A method that reads the clock or the
    random source takes the value read as an argument. *)

From S2P Require Import Prelude GoLib Model Storage Redis Keys Scripts Codec.

(** What happens to a command sent to the server: it is executed and answered, it
    fails before it is executed, or it is executed and the answer is lost. *)
Inductive net_event := NetOK | NetDown (reason : string) | NetLost (reason : string).

Section store.
Context `{Redis, TaskCodec}.

Record world := World { w_db : db; w_net : list net_event }.

Definition GoM (A : Type) : Type := world → world * result A.

Definition gret {A} (a : A) : GoM A := λ w, (w, inr a).
Definition gerr {A} (e : error) : GoM A := λ w, (w, inl e).
Definition gbind {A B} (m : GoM A) (k : A → GoM B) : GoM B := λ w,
  match m w with
  | (w, inl e) => (w, inl e)
  | (w, inr a) => k a w
  end.
(** [return fmt.Errorf("prefix: %w", err)] on an error. *)
Definition gwrap {A} (prefix : string) (m : GoM A) : GoM A := λ w,
  match m w with
  | (w, inl e) => (w, inl (Errorf_w prefix e))
  | (w, inr a) => (w, inr a)
  end.
Definition gresult {A} (r : result A) : GoM A := λ w, (w, r).

Definition run_script {A} (s : Script A) (d : db) : db * result A :=
  match s d with
  | (d, inl e) => (d, inl (errors_New e))
  | (d, inr a) => (d, inr a)
  end.

(** [script.Run(ctx, client, ...)] and the client's single commands. *)
Definition Run {A} (s : Script A) : GoM A := λ w,
  match w_net w with
  | NetDown e :: net => (World (w_db w) net, inl (errors_New e))
  | NetLost e :: net => (World (run_script s (w_db w)).1 net, inl (errors_New e))
  | NetOK :: net => let '(d, r) := run_script s (w_db w) in (World d net, r)
  | [] => let '(d, r) := run_script s (w_db w) in (World d [], r)
  end.
End store.

Arguments world {_}.
Arguments GoM {_} _.

Declare Scope go_scope.
Delimit Scope go_scope with go.
Notation "x <- m ;; k" := (gbind m (λ x, k))
  (at level 100, m at next level, right associativity) : go_scope.

(** [taskRank]: [fmt.Sprintf("%.3f", -float64(Priority)*1e15 + float64(ms))]. Every
    intermediate value is an integer-valued double; the product and the sum are rounded
    separately, as on a machine where Go does not fuse them. *)
Definition rankScore (priority ms : Z) : Z :=
  rnd53 (rnd53 (- rnd53 priority * 10 ^ 15) + rnd53 ms).

Definition taskRank (msg : TaskMessage) : string :=
  FormatInt (rankScore (Priority msg) (UnixMilli (CreatedAt msg))) +:+ ".000".

(** [fmt.Sprint] of a script reply. *)
Definition Sprint (r : reply) : string :=
  match r with IntReply z => FormatInt z | BulkReply s => s end.

(** [newAttemptID]: [value] is what [rand.Read] yields. *)
Definition newAttemptID (value : result (list Byte.byte)) : result string :=
  match value with inl e => inl e | inr bs => inr (hex_EncodeToString bs) end.

Module Store.
Section operations.
Context `{Redis, TaskCodec}.
(** The store's [leaseDuration] field. *)
Variable leaseDuration : Duration.
#[local] Open Scope go_scope.

Definition New : Duration := 30 * Second.
Definition SetLeaseDuration (d : Duration) : Duration := if 0 <? d then d else leaseDuration.

Definition Enqueue (msg : option TaskMessage) : GoM TaskMessage :=
  match Validate msg, msg with
  | Some err, _ => gerr err
  | None, None => gerr (errors_New "nil pointer dereference")
  | None, Some msg =>
      encoded <- gwrap "encode task" (gresult (Marshal msg)) ;;
      let rank := taskRank msg in
      result <- gwrap "enqueue task" (Run (enqueueScript
        (TaskKey (Queue msg) (ID msg)) (PendingKey (Queue msg)) (PendingRankKey (Queue msg))
        (SequenceKey (Queue msg)) encoded (ID msg) (FormatInt (Priority msg)) rank)) ;;
      if result =? 0 then gerr ErrTaskExists else gret (set_State StatePending msg)
  end.

Definition Schedule (msg : option TaskMessage) : GoM TaskMessage :=
  match Validate msg, msg with
  | Some err, _ => gerr err
  | None, None => gerr (errors_New "nil pointer dereference")
  | None, Some msg =>
      if IsZero (RunAt msg) then gerr (errors_New "scheduled task run time is required") else
      encoded <- gwrap "encode task" (gresult (Marshal msg)) ;;
      let rank := taskRank msg in
      result <- gwrap "schedule task" (Run (scheduleScript
        (TaskKey (Queue msg) (ID msg)) (ScheduledKey (Queue msg)) (SequenceKey (Queue msg))
        encoded (ID msg) (FormatInt (Priority msg)) rank (FormatInt (UnixMilli (RunAt msg))))) ;;
      if result =? 0 then gerr ErrTaskExists else gret (set_State StateScheduled msg)
  end.

(** [if lease <= 0 { lease = s.leaseDuration }]. *)
Definition lease_or_default (lease : Duration) : Duration :=
  if lease <=? 0 then leaseDuration else lease.

Definition Claim (value : result (list Byte.byte)) (queue : string) (now : Time)
    (lease : Duration) : GoM TaskMessage :=
  let lease := lease_or_default lease in
  attemptID <- gwrap "create claim attempt id" (gresult (newAttemptID value)) ;;
  values <- gwrap "claim task" (Run (claimScript
    (TaskKey queue "") (PendingRankKey queue) (PendingKey queue) (ActiveKey queue)
    (LeaseKey queue) (FormatInt (UnixMilli now)) (FormatInt (UnixMilli (Add now lease)))
    attemptID)) ;;
  match values with
  | [v0; v1] =>
      let status := default 0 (ParseInt (Sprint v0)) in
      if status =? 0 then gerr ErrQueueEmpty else
      msg <- gwrap "decode claimed task" (gresult (Unmarshal (Sprint v1))) ;;
      gret (set_AttemptID attemptID (set_State StateActive msg))
  | _ => gerr (errors_New "claim task: unexpected result []interface {}")
  end.

Definition limit_or_default (limit : Z) : Z := if limit <=? 0 then 100 else limit.

(** The loops of [MoveReady] over queues and sources, with the count so far. *)
Fixpoint MoveReady_sources (now : Time) (limit moved : Z) (queue : string)
    (sources : list string) : world → world * (Z * option error) := λ w,
  match sources with
  | [] => (w, (moved, None))
  | source :: sources =>
      match Run (moveReadyScript source (PendingKey queue) (PendingRankKey queue)
               (FormatInt (UnixMilli now)) (FormatInt limit) (queuePrefix queue +:+ "task:")) w with
      | (w, inl err) => (w, (moved, Some (Errorf_w "move ready tasks" err)))
      | (w, inr n) => MoveReady_sources now limit (moved + n) queue sources w
      end
  end.

Fixpoint MoveReady_queues (now : Time) (limit moved : Z) (queues : list string) :
    world → world * (Z * option error) := λ w,
  match queues with
  | [] => (w, (moved, None))
  | queue :: queues =>
      match MoveReady_sources now limit moved queue [ScheduledKey queue; RetryKey queue] w with
      | (w, (moved, Some err)) => (w, (moved, Some err))
      | (w, (moved, None)) => MoveReady_queues now limit moved queues w
      end
  end.

Definition MoveReady (now : Time) (limit : Z) (queues : list string) :
    world → world * (Z * option error) :=
  MoveReady_queues now (limit_or_default limit) 0 queues.

Definition AckSuccess (now : Time) (msg : TaskMessage) : GoM TaskMessage :=
  let completed := set_CompletedAt now (set_AttemptID "" (set_State StateCompleted msg)) in
  encoded <- gwrap "encode completed task" (gresult (Marshal completed)) ;;
  result <- gwrap "ack task" (Run (ackScript
    (TaskKey (Queue msg) (ID msg)) (ActiveKey (Queue msg)) (LeaseKey (Queue msg))
    (ID msg) encoded (FormatInt (UnixMilli now)) (AttemptID msg))) ;;
  if result =? 0 then gerr ErrInvalidTransition
  else gret (set_CompletedAt now (set_AttemptID "" (set_State StateCompleted msg))).

Definition ScheduleRetry (now : Time) (msg : TaskMessage) (at_ : Time) (reason : string) :
    GoM TaskMessage :=
  let retry := set_LastFailedAt now (set_LastError reason
                 (set_AttemptID "" (set_State StateRetry msg))) in
  encoded <- gwrap "encode retry task" (gresult (Marshal retry)) ;;
  result <- gwrap "schedule retry" (Run (retryScript
    (TaskKey (Queue msg) (ID msg)) (ActiveKey (Queue msg)) (LeaseKey (Queue msg))
    (RetryKey (Queue msg)) (ID msg) encoded (FormatInt (UnixMilli at_)) reason
    (AttemptID msg))) ;;
  if result =? 0 then gerr ErrInvalidTransition
  else gret (set_LastFailedAt now (set_LastError reason
               (set_AttemptID "" (set_State StateRetry msg)))).

Definition Archive (now : Time) (msg : TaskMessage) (reason : string) : GoM TaskMessage :=
  let archived := set_LastError reason (set_AttemptID "" (set_State StateArchived msg)) in
  encoded <- gwrap "encode archived task" (gresult (Marshal archived)) ;;
  result <- gwrap "archive task" (Run (archiveScript
    (TaskKey (Queue msg) (ID msg)) (ActiveKey (Queue msg)) (LeaseKey (Queue msg))
    (ArchivedKey (Queue msg)) (ID msg) encoded reason (FormatInt (UnixMilli now))
    (AttemptID msg))) ;;
  if result =? 0 then gerr ErrInvalidTransition
  else gret (set_LastError reason (set_AttemptID "" (set_State StateArchived msg))).

Definition Requeue (msg : TaskMessage) : GoM TaskMessage :=
  result <- gwrap "requeue task" (Run (requeueScript
    (TaskKey (Queue msg) (ID msg)) (ActiveKey (Queue msg)) (LeaseKey (Queue msg))
    (PendingKey (Queue msg)) (PendingRankKey (Queue msg)) (ID msg) (AttemptID msg))) ;;
  if result =? 0 then gerr ErrInvalidTransition
  else gret (set_AttemptID "" (set_State StatePending msg)).

Definition Get (queue id : string) : GoM TaskMessage :=
  values <- gwrap "get task" (Run (call (HMGET (TaskKey queue id) ["msg"; "state"; "attempt_id"]))) ;;
  match values with
  | [v0; v1; v2] =>
      match v0, v1 with
      | None, _ => gerr ErrTaskNotFound
      | Some _, None => gerr (errors_New "get task: state is missing")
      | Some v0, Some v1 =>
          msg <- gwrap "decode task" (gresult (Unmarshal v0)) ;;
          let msg := set_AttemptID "" (set_State v1 msg) in
          if String.eqb (State msg) StateActive then
            match v2 with
            | None => gerr (errors_New "get task: active attempt id is missing")
            | Some v2 =>
                if String.eqb v2 "" then gerr (errors_New "get task: active attempt id is missing")
                else gret (set_AttemptID v2 msg)
            end
          else gret msg
      end
  | _ => gerr (errors_New ("get task: unexpected field count " +:+ FormatInt (Z.of_nat (length values))))
  end.

Definition ExpiredIDs (now : Time) (queue : string) (limit : Z) : GoM (list string) :=
  let limit := limit_or_default limit in
  Run (call (ZRANGEBYSCORE (LeaseKey queue) (Score (FormatInt (UnixMilli now))) (Some (0, limit)))).

Definition GetDeadLetter (queue id : string) : GoM TaskMessage :=
  msg <- Get queue id ;;
  if String.eqb (State msg) StateArchived then gret msg else gerr ErrInvalidTransition.

Fixpoint ListDeadLetters_loop (queue : string) (ids : list string) : GoM (list TaskMessage) := λ w,
  match ids with
  | [] => (w, inr [])
  | id :: ids =>
      match GetDeadLetter queue id w with
      | (w, inl err) =>
          if errors_Is err ErrInvalidTransition then ListDeadLetters_loop queue ids w
          else (w, inl (Errorf_w ("read dead letter " +:+ id) err))
      | (w, inr msg) =>
          match ListDeadLetters_loop queue ids w with
          | (w, inl err) => (w, inl err)
          | (w, inr msgs) => (w, inr (msg :: msgs))
          end
      end
  end.

Definition ListDeadLetters (queue : string) (offset limit : Z) : GoM (list TaskMessage) :=
  if offset <? 0 then gerr (errors_New "dead-letter offset cannot be negative") else
  let limit := limit_or_default limit in
  ids <- gwrap "list dead letters"
    (Run (call (ZRANGE (ArchivedKey queue) offset (wrap64 (wrap64 (offset + limit) - 1))))) ;;
  ListDeadLetters_loop queue ids.

Definition ReplayDeadLetter (now : Time) (queue id : string) : GoM unit :=
  msg <- GetDeadLetter queue id ;;
  let msg := set_RunAt now (set_CompletedAt zeroTime (set_LastFailedAt zeroTime
               (set_LastError "" (set_RetryCount 0 (set_State StatePending msg))))) in
  encoded <- gwrap "encode replayed dead letter" (gresult (Marshal msg)) ;;
  result <- gwrap "replay dead letter" (Run (replayArchivedScript
    (TaskKey queue id) (ArchivedKey queue) (PendingKey queue) (PendingRankKey queue) id encoded)) ;;
  if result =? 0 then gerr ErrInvalidTransition else gret tt.

Definition DeleteDeadLetter (queue id : string) : GoM unit :=
  result <- gwrap "delete dead letter"
    (Run (deleteArchivedScript (TaskKey queue id) (ArchivedKey queue) id)) ;;
  if result =? 0 then
    _ <- GetDeadLetter queue id ;; gerr ErrInvalidTransition
  else gret tt.

Definition CleanupDeadLetters (queue : string) (before : Time) (limit : Z) : GoM Z :=
  let limit := limit_or_default limit in
  gwrap "cleanup dead letters" (Run (cleanupArchivedScript
    (ArchivedKey queue) (FormatInt (UnixMilli before)) (FormatInt limit)
    (queuePrefix queue +:+ "task:"))).

Definition ListArchived := ListDeadLetters.
Definition GetArchived := GetDeadLetter.
Definition ReplayArchived := ReplayDeadLetter.
Definition DeleteArchived := DeleteDeadLetter.
Definition CleanupArchived := CleanupDeadLetters.

Definition PendingCount (queue : string) : GoM Z := Run (call (ZCARD (PendingRankKey queue))).
Definition RetryCount (queue : string) : GoM Z := Run (call (ZCARD (RetryKey queue))).
Definition ArchivedCount (queue : string) : GoM Z := Run (call (ZCARD (ArchivedKey queue))).

(** [keys] and [args] of [ExtendLease]: nil tasks are skipped. *)
Fixpoint extend_args (queue : string) (tasks : list (option TaskMessage)) :
    list string * list string :=
  match tasks with
  | [] => ([], [])
  | None :: tasks => extend_args queue tasks
  | Some task :: tasks =>
      let '(keys, args) := extend_args queue tasks in
      (TaskKey queue (ID task) :: keys, ID task :: AttemptID task :: args)
  end.

Definition ExtendLease (queue : string) (tasks : list (option TaskMessage)) (now : Time)
    (lease : Duration) : GoM unit :=
  let lease := lease_or_default lease in
  match tasks with
  | [] => gret tt
  | _ =>
      let '(keys, args) := extend_args queue tasks in
      match keys with
      | [] => gret tt
      | _ =>
          _ <- gwrap "extend task leases" (Run (extendLeaseScript (LeaseKey queue :: keys)
                 (FormatInt (UnixMilli (Add now lease)) :: args))) ;;
          gret tt
      end
  end.
End operations.
End Store.
