(* ===== verification/QueueView.v ===== *)
(** * A queue's view of the keyspace, and rules to run scripts on it

    [qview] is what one queue stores, typed; [Rep q ks0 ks v] says that the keyspace
    [ks] holds exactly [v] under the keys of queue [q] and agrees with [ks0]
    everywhere else. [wp] is the weakest precondition of a script: it runs to its end
    without raising an error and the postcondition holds. *)

From S2P Require Import Prelude GoLib Redis Keys Scripts.

(** ** The keys of a queue *)

Inductive zname := ZRank | ZSched | ZRetry | ZLease | ZArch.
Inductive lname := LPending | LActive.
Inductive kname := KTask (id : string) | KZ (z : zname) | KL (l : lname) | KSeq.

#[export] Instance zname_eq_dec : EqDecision zname.
Proof. solve_decision. Defined.
#[export] Instance lname_eq_dec : EqDecision lname.
Proof. solve_decision. Defined.
#[export] Instance kname_eq_dec : EqDecision kname.
Proof. solve_decision. Defined.

Definition zkey (q : string) (z : zname) : string :=
  match z with
  | ZRank => PendingRankKey q
  | ZSched => ScheduledKey q
  | ZRetry => RetryKey q
  | ZLease => LeaseKey q
  | ZArch => ArchivedKey q
  end.
Definition lkey (q : string) (l : lname) : string :=
  match l with LPending => PendingKey q | LActive => ActiveKey q end.
Definition kkey (q : string) (k : kname) : string :=
  match k with
  | KTask id => TaskKey q id
  | KZ z => zkey q z
  | KL l => lkey q l
  | KSeq => SequenceKey q
  end.

(** The names of one queue denote different keys. *)
Lemma kkey_inj q : Inj (=) (=) (kkey q).
Proof.
  intros [id|[]|[]|] [id'|[]|[]|]; simpl; try done;
    first [intros ->%TaskKey_inj; done | intros Hk; exfalso; revert Hk; key_neq].
Qed.

(** Different plain queues have different keys. *)
Lemma kkey_queue_inj q q' k k' :
  plain_queue q → plain_queue q' → kkey q k = kkey q' k' → q = q'.
Proof.
  intros Hq Hq'. assert (∀ q k, ∃ s, kkey q k = queuePrefix q +:+ s) as Hs.
  { intros ? [|[]|[]|]; by eexists. }
  destruct (Hs q k) as [s ->], (Hs q' k') as [s' ->].
  intros [? _]%queuePrefix_app_inj; done.
Qed.

(** ** Views *)

Record qview := QView {
  qv_task : gmap string (gmap string string);
  qv_zset : zname → gmap string Z;
  qv_list : lname → list string;
  qv_seq : Z
}.

Definition hash_val (h : gmap string string) : option rval :=
  if decide (h = ∅) then None else Some (RHash h).
Definition zset_val (z : gmap string Z) : option rval :=
  if decide (z = ∅) then None else Some (RZSet z).
Definition list_val (l : list string) : option rval :=
  if decide (l = []) then None else Some (RList l).
Definition seq_val (n : Z) : option rval :=
  if n =? 0 then None else Some (RStr (FormatInt n)).

Definition qv_val (v : qview) (k : kname) : option rval :=
  match k with
  | KTask id => hash_val (default ∅ (qv_task v !! id))
  | KZ z => zset_val (qv_zset v z)
  | KL l => list_val (qv_list v l)
  | KSeq => seq_val (qv_seq v)
  end.

Definition set_task (id : string) (h : gmap string string) (v : qview) : qview :=
  QView (<[id := h]> (qv_task v)) (qv_zset v) (qv_list v) (qv_seq v).
Definition del_task (id : string) (v : qview) : qview :=
  QView (delete id (qv_task v)) (qv_zset v) (qv_list v) (qv_seq v).
Definition set_zset (n : zname) (z : gmap string Z) (v : qview) : qview :=
  QView (qv_task v) (λ n', if decide (n' = n) then z else qv_zset v n') (qv_list v) (qv_seq v).
Definition set_list (n : lname) (l : list string) (v : qview) : qview :=
  QView (qv_task v) (qv_zset v) (λ n', if decide (n' = n) then l else qv_list v n') (qv_seq v).
Definition set_seq (n : Z) (v : qview) : qview :=
  QView (qv_task v) (qv_zset v) (qv_list v) n.

(** The keyspace holds view [v] of queue [q]. *)
Definition Holds (q : string) (ks : keyspace_t) (v : qview) : Prop :=
  ∀ k, ks !! kkey q k = qv_val v k.
(** Two keyspaces agree outside the keys of queue [q]. *)
Definition Same_elsewhere (q : string) (ks0 ks : keyspace_t) : Prop :=
  ∀ key, (∀ k, key ≠ kkey q k) → ks !! key = ks0 !! key.

Definition Rep (q : string) (ks0 ks : keyspace_t) (v : qview) : Prop :=
  Holds q ks v ∧ Same_elsewhere q ks0 ks.

Lemma Rep_refl q ks v : Holds q ks v → Rep q ks ks v.
Proof. by split. Qed.

(** A keyspace after one key was given a value or removed. *)
Definition upd_key (key : string) (o : option rval) (ks : keyspace_t) : keyspace_t :=
  match o with Some x => <[key := x]> ks | None => delete key ks end.

Lemma lookup_upd_key key o ks key' :
  upd_key key o ks !! key' = if decide (key = key') then o else ks !! key'.
Proof.
  unfold upd_key. destruct o; case_decide; simplify_map_eq; done.
Qed.

(** A view changes at one name as the keyspace changes at its key. *)
Lemma Rep_upd q ks0 ks v v' k :
  Rep q ks0 ks v → (∀ k', k' ≠ k → qv_val v' k' = qv_val v k') →
  Rep q ks0 (upd_key (kkey q k) (qv_val v' k) ks) v'.
Proof.
  intros [Hk H0] Hv. split.
  - intros k'. rewrite lookup_upd_key. case_decide as E.
    + by apply kkey_inj in E as ->.
    + rewrite Hv, Hk; [done|]. intros ->. done.
  - intros key Hkey. rewrite lookup_upd_key, decide_False, H0; [done|done|].
    intros E. by apply (Hkey k).
Qed.

(** The frame: what a queue's operations do leaves every other plain queue alone. *)
Lemma Holds_frame q q' ks0 ks v :
  q ≠ q' → plain_queue q → plain_queue q' →
  Same_elsewhere q ks0 ks → Holds q' ks0 v → Holds q' ks v.
Proof.
  intros Hne Hq Hq' H0 Hk k. rewrite H0; [apply Hk|].
  intros k0 E. by apply Hne, eq_sym, (kkey_queue_inj _ _ _ _ Hq' Hq E).
Qed.

(** ** Weakest preconditions *)

Section wp.
Context `{Redis}.
Implicit Types d : db.

Definition wp {A} (s : Script A) (Q : A → db → Prop) (d : db) : Prop :=
  match s d with
  | (d, inr a) => Q a d
  | (_, inl _) => False
  end.

Lemma wp_ret {A} (a : A) Q d : Q a d → wp (sret a) Q d.
Proof. done. Qed.

Lemma wp_bind {A B} (m : Script A) (k : A → Script B) Q d :
  wp m (λ a, wp (k a) Q) d → wp (sbind m k) Q d.
Proof. unfold wp, sbind. by destruct (m d) as [d' [e|a]]. Qed.

Lemma wp_mono {A} (s : Script A) (Q Q' : A → db → Prop) d :
  wp s Q d → (∀ a d', Q a d' → Q' a d') → wp s Q' d.
Proof. unfold wp. destruct (s d) as [d' [e|a]]; eauto. Qed.

(** A script that meets its specification runs to an answer. *)
Lemma wp_run {A} (s : Script A) Q d :
  wp s Q d ↔ ∃ d' a, s d = (d', inr a) ∧ Q a d'.
Proof. unfold wp. destruct (s d) as [d' [e|a]]; naive_solver. Qed.

Lemma wp_call {A} (c : cmd A) ks a Q d :
  doc_exec parse_score c (keyspace d) = (ks, inr a) →
  (∀ d', keyspace d' = ks → Q a d') → wp (call c) Q d.
Proof.
  intros Hc HQ. pose proof (exec_documented A c d) as E. rewrite Hc in E.
  unfold wp, call. destruct (exec c d) as [d' r]. simpl in E.
  injection E as E ->. by apply HQ.
Qed.

(** *** Reading the parts of a view *)

Lemma Holds_hash q ks v id :
  Holds q ks v → get_hash ks (TaskKey q id) = inr (default ∅ (qv_task v !! id)).
Proof.
  intros Hv. unfold get_hash. pose proof (Hv (KTask id)) as E. cbn in E. rewrite E. clear E. unfold hash_val.
  case_decide as E; [by rewrite E|done].
Qed.
Lemma Holds_zset q ks v n : Holds q ks v → get_zset ks (zkey q n) = inr (qv_zset v n).
Proof.
  intros Hv. unfold get_zset. pose proof (Hv (KZ n)) as E. cbn in E. rewrite E. clear E. unfold zset_val.
  case_decide as E; [by rewrite E|done].
Qed.
Lemma Holds_list q ks v n : Holds q ks v → get_list ks (lkey q n) = inr (qv_list v n).
Proof.
  intros Hv. unfold get_list. pose proof (Hv (KL n)) as E. cbn in E. rewrite E. clear E. unfold list_val.
  case_decide as E; [by rewrite E|done].
Qed.

Lemma put_hash_upd ks k h : put_hash ks k h = upd_key k (hash_val h) ks.
Proof. unfold put_hash, hash_val. by case_decide. Qed.
Lemma put_zset_upd ks k z : put_zset ks k z = upd_key k (zset_val z) ks.
Proof. unfold put_zset, zset_val. by case_decide. Qed.
Lemma put_list_upd ks k l : put_list ks k l = upd_key k (list_val l) ks.
Proof. unfold put_list, list_val. by case_decide. Qed.

(** *** Writing the parts of a view *)

Lemma Rep_set_task q ks0 ks v id h :
  Rep q ks0 ks v → Rep q ks0 (upd_key (TaskKey q id) (hash_val h) ks) (set_task id h v).
Proof.
  intros HR. replace (hash_val h) with (qv_val (set_task id h v) (KTask id)).
  - apply (Rep_upd _ _ _ v _ (KTask id)); [done|]. intros [id'|?|?|] Hne; simpl; try done.
    rewrite lookup_insert_ne; [done|]. congruence.
  - simpl. by rewrite lookup_insert_eq.
Qed.
Lemma Rep_del_task q ks0 ks v id :
  Rep q ks0 ks v → Rep q ks0 (delete (TaskKey q id) ks) (del_task id v).
Proof.
  intros HR. change (delete (TaskKey q id) ks) with (upd_key (kkey q (KTask id)) None ks).
  replace None with (qv_val (del_task id v) (KTask id)).
  - apply (Rep_upd _ _ _ v _ (KTask id)); [done|]. intros [id'|?|?|] Hne; simpl; try done.
    rewrite lookup_delete_ne; [done|]. congruence.
  - simpl. by rewrite lookup_delete_eq.
Qed.
Lemma Rep_set_zset q ks0 ks v n z :
  Rep q ks0 ks v → Rep q ks0 (upd_key (zkey q n) (zset_val z) ks) (set_zset n z v).
Proof.
  intros HR. replace (zset_val z) with (qv_val (set_zset n z v) (KZ n)).
  - apply (Rep_upd _ _ _ v _ (KZ n)); [done|]. intros [?|n'|?|] Hne; simpl; try done.
    rewrite decide_False; [done|]. congruence.
  - simpl. by rewrite decide_True.
Qed.
Lemma Rep_set_list q ks0 ks v n l :
  Rep q ks0 ks v → Rep q ks0 (upd_key (lkey q n) (list_val l) ks) (set_list n l v).
Proof.
  intros HR. replace (list_val l) with (qv_val (set_list n l v) (KL n)).
  - apply (Rep_upd _ _ _ v _ (KL n)); [done|]. intros [?|?|n'|] Hne; simpl; try done.
    rewrite decide_False; [done|]. congruence.
  - simpl. by rewrite decide_True.
Qed.
Lemma Rep_set_seq q ks0 ks v n :
  Rep q ks0 ks v → Rep q ks0 (upd_key (SequenceKey q) (seq_val n) ks) (set_seq n v).
Proof.
  intros HR. apply (Rep_upd _ _ _ v (set_seq n v) KSeq); [done|].
  intros [?|?|?|] Hne; done.
Qed.

(** *** The rules of the commands *)

Section rules.
Context (q : string) (ks0 : keyspace_t).
Abbreviation RepD d v := (Rep q ks0 (keyspace d) v).

Lemma wp_exists id v Q d :
  RepD d v →
  (∀ d', RepD d' v → Q (if decide (default ∅ (qv_task v !! id) = ∅) then 0 else 1) d') →
  wp (call (EXISTS (TaskKey q id))) Q d.
Proof.
  intros HR HQ. eapply wp_call; [reflexivity|].
  intros d' E. destruct HR as [HH HF]. pose proof (HH (KTask id)) as Ht. cbn in Ht. rewrite Ht.
  unfold hash_val. specialize (HQ d'). rewrite E in HQ.
  case_decide; apply HQ; by split.
Qed.

Lemma wp_hget id f v Q d :
  RepD d v →
  (∀ d', RepD d' v → Q (default ∅ (qv_task v !! id) !! f) d') →
  wp (call (HGET (TaskKey q id) f)) Q d.
Proof.
  intros HR HQ. eapply wp_call.
  - cbn. rewrite (Holds_hash _ _ v) by apply HR. reflexivity.
  - intros d' E. apply HQ. by rewrite E.
Qed.

Lemma wp_hmget id fs v Q d :
  RepD d v →
  (∀ d', RepD d' v → Q ((λ f, default ∅ (qv_task v !! id) !! f) <$> fs) d') →
  wp (call (HMGET (TaskKey q id) fs)) Q d.
Proof.
  intros HR HQ. eapply wp_call.
  - cbn. rewrite (Holds_hash _ _ v) by apply HR. reflexivity.
  - intros d' E. apply HQ. by rewrite E.
Qed.

Lemma wp_hset id fvs v Q d :
  RepD d v →
  (∀ d', RepD d' (set_task id (foldl (λ h fv, <[fv.1 := fv.2]> h)
                            (default ∅ (qv_task v !! id)) fvs) v) → Q tt d') →
  wp (call (HSET (TaskKey q id) fvs)) Q d.
Proof.
  intros HR HQ. eapply wp_call.
  - cbn. rewrite (Holds_hash _ _ v) by apply HR. reflexivity.
  - intros d' E. apply HQ. rewrite E, put_hash_upd. by apply Rep_set_task.
Qed.

Lemma wp_hdel id f v Q d :
  RepD d v →
  (∀ d' n, RepD d' (set_task id (delete f (default ∅ (qv_task v !! id))) v) → Q n d') →
  wp (call (HDEL (TaskKey q id) f)) Q d.
Proof.
  intros HR HQ. eapply wp_call.
  - cbn. rewrite (Holds_hash _ _ v) by apply HR. reflexivity.
  - intros d' E. apply HQ. rewrite E, put_hash_upd. by apply Rep_set_task.
Qed.

Lemma wp_del id v Q d :
  RepD d v → (∀ d' n, RepD d' (del_task id v) → Q n d') → wp (call (DEL (TaskKey q id))) Q d.
Proof.
  intros HR HQ. eapply wp_call; [reflexivity|].
  intros d' E. apply HQ. rewrite E. by apply Rep_del_task.
Qed.

Lemma wp_lpush n e v Q d :
  RepD d v → (∀ d', RepD d' (set_list n (e :: qv_list v n) v) → Q tt d') →
  wp (call (LPUSH (lkey q n) e)) Q d.
Proof.
  intros HR HQ. eapply wp_call.
  - cbn. rewrite (Holds_list _ _ v) by apply HR. reflexivity.
  - intros d' E. apply HQ. rewrite E, put_list_upd. by apply Rep_set_list.
Qed.

Lemma wp_rpush n e v Q d :
  RepD d v → (∀ d', RepD d' (set_list n (qv_list v n ++ [e]) v) → Q tt d') →
  wp (call (RPUSH (lkey q n) e)) Q d.
Proof.
  intros HR HQ. eapply wp_call.
  - cbn. rewrite (Holds_list _ _ v) by apply HR. reflexivity.
  - intros d' E. apply HQ. rewrite E, put_list_upd. by apply Rep_set_list.
Qed.

Lemma wp_lrem n e v Q d :
  RepD d v → (∀ d' r, RepD d' (set_list n (remove_first e (qv_list v n)) v) → Q r d') →
  wp (call (LREM1 (lkey q n) e)) Q d.
Proof.
  intros HR HQ. eapply wp_call.
  - cbn. rewrite (Holds_list _ _ v) by apply HR. reflexivity.
  - intros d' E. apply HQ. rewrite E, put_list_upd. by apply Rep_set_list.
Qed.

Lemma wp_zadd n s sc m v Q d :
  RepD d v → parse_score s = Some sc →
  (∀ d', RepD d' (set_zset n (<[m := sc]> (qv_zset v n)) v) → Q tt d') →
  wp (call (ZADD (zkey q n) s m)) Q d.
Proof.
  intros HR Hs HQ. eapply wp_call.
  - cbn. rewrite Hs, (Holds_zset _ _ v) by apply HR. reflexivity.
  - intros d' E. apply HQ. rewrite E, put_zset_upd. by apply Rep_set_zset.
Qed.

Lemma wp_zrem n m v Q d :
  RepD d v →
  (∀ d', RepD d' (set_zset n (delete m (qv_zset v n)) v) →
         Q (match qv_zset v n !! m with Some _ => 1 | None => 0 end) d') →
  wp (call (ZREM (zkey q n) m)) Q d.
Proof.
  intros HR HQ. eapply wp_call.
  - cbn. rewrite (Holds_zset _ _ v) by apply HR. reflexivity.
  - intros d' E. apply HQ. rewrite E, put_zset_upd. by apply Rep_set_zset.
Qed.

Lemma wp_zcard n v Q d :
  RepD d v → (∀ d', RepD d' v → Q (Z.of_nat (size (qv_zset v n))) d') →
  wp (call (ZCARD (zkey q n))) Q d.
Proof.
  intros HR HQ. eapply wp_call.
  - cbn. rewrite (Holds_zset _ _ v) by apply HR. reflexivity.
  - intros d' E. apply HQ. by rewrite E.
Qed.

Lemma wp_zrange n start stop v Q d :
  RepD d v → (∀ d', RepD d' v → Q (slice start stop (zsorted (qv_zset v n)).*1) d') →
  wp (call (ZRANGE (zkey q n) start stop)) Q d.
Proof.
  intros HR HQ. eapply wp_call.
  - cbn. rewrite (Holds_zset _ _ v) by apply HR. reflexivity.
  - intros d' E. apply HQ. by rewrite E.
Qed.

Lemma wp_zrangebyscore n s b limit v Q d :
  RepD d v → parse_score s = Some b →
  (∀ d', RepD d' v →
    Q (limit_slice limit (filter (λ ms, ms.2 ≤ b) (zsorted (qv_zset v n))).*1) d') →
  wp (call (ZRANGEBYSCORE (zkey q n) (Score s) limit)) Q d.
Proof.
  intros HR Hs HQ. eapply wp_call.
  - cbn. rewrite Hs, (Holds_zset _ _ v) by apply HR. reflexivity.
  - intros d' E. apply HQ. by rewrite E.
Qed.

Lemma wp_incr n v Q d :
  RepD d v → qv_seq v = n → 0 ≤ n < MaxInt64 →
  (∀ d', RepD d' (set_seq (n + 1) v) → Q (n + 1) d') →
  wp (call (INCR (SequenceKey q))) Q d.
Proof.
  intros HR Hv Hn HQ. pose proof (Rep_set_seq _ _ _ _ (n + 1) HR) as HR'.
  assert (int64 n ∧ int64 (n + 1)) as [? ?].
  { unfold int64, MinInt64, MaxInt64 in *. lia. }
  assert (seq_val (n + 1) = Some (RStr (FormatInt (n + 1)))) as Hs.
  { unfold seq_val. by rewrite (proj2 (Z.eqb_neq _ _)) by lia. }
  rewrite Hs in HR'. destruct HR as [HH HF]. pose proof (HH KSeq) as Hk. cbn in Hk.
  eapply wp_call with (ks := upd_key (SequenceKey q) (Some (RStr (FormatInt (n + 1)))) (keyspace d)) (a := n + 1).
  - cbn [doc_exec]. rewrite Hk, Hv. unfold seq_val. destruct (n =? 0) eqn:E; bool_to_prop.
    + by rewrite E.
    + rewrite ParseInt_FormatInt by done.
      destruct (decide _); [done|contradiction].
  - intros d' E. apply HQ. by rewrite E.
Qed.
End rules.
End wp.

(** Symbolic execution: one command at a time. [wp_cmd lem] runs the command under the
    head bind with rule [lem] and names the new database and its representation. *)
Ltac wp_cmd lem :=
  apply wp_bind; eapply lem; [eassumption|..].

#[global] Arguments zkey : simpl never.
#[global] Arguments lkey : simpl never.
