(* ===== verification/QueueSpec.v ===== *)
(** * What a task queue promises

    The abstract queue the store implements: a map from ids to tasks, each in exactly
    one status, and one function per operation. No containers, no keys, no attempt
    bookkeeping: pending order, due times and leases are read off the statuses. *)

From S2P Require Import Prelude GoLib Redis Keys QueueView.

(** ** Tasks and queues *)

(** A task's status, with what the status carries: the due time of a delayed task, the
    attempt and lease expiry of a running one, the archive time of a dead letter. *)
Inductive astatus :=
| APending
| AScheduled (due : Z)
| AActive (attempt : string) (lease : Z)
| ARetry (due : Z)
| AArchived (at_ : Z)
| ACompleted.

Record atask := ATask {
  at_msg : string;      (* the encoded envelope *)
  at_rank : Z;          (* priority and creation time: smaller runs first *)
  at_seq : Z;           (* arrival number in the queue *)
  at_status : astatus
}.

Record aqueue := AQueue { aq_tasks : gmap string atask; aq_seq : Z }.

#[export] Instance astatus_eq_dec : EqDecision astatus.
Proof. solve_decision. Defined.
#[export] Instance atask_eq_dec : EqDecision atask.
Proof. solve_decision. Defined.

Definition aq_empty : aqueue := AQueue ∅ 0.

Definition with_status (st : astatus) (t : atask) : atask :=
  ATask (at_msg t) (at_rank t) (at_seq t) st.
Definition with_msg (msg : string) (t : atask) : atask :=
  ATask msg (at_rank t) (at_seq t) (at_status t).

Definition aq_put (id : string) (t : atask) (S : aqueue) : aqueue :=
  AQueue (<[id := t]> (aq_tasks S)) (aq_seq S).
Definition aq_del (id : string) (S : aqueue) : aqueue :=
  AQueue (delete id (aq_tasks S)) (aq_seq S).

(** ** The indices of a queue, as functions of the statuses *)

Definition member_of (id : string) (t : atask) : string := rankMember (rnd53 (at_seq t)) id.

(** What task [id] contributes to index [z]: a member and its score. *)
Definition zpart (z : zname) (id : string) (t : atask) : option (string * Z) :=
  match z, at_status t with
  | ZRank, APending => Some (member_of id t, at_rank t)
  | ZSched, AScheduled due => Some (id, due)
  | ZRetry, ARetry due => Some (id, due)
  | ZLease, AActive _ lease => Some (id, lease)
  | ZArch, AArchived at_ => Some (id, at_)
  | _, _ => None
  end.

Definition lpart (l : lname) (t : atask) : bool :=
  match l, at_status t with
  | LPending, APending => true
  | LActive, AActive _ _ => true
  | _, _ => false
  end.

Definition aq_zset (z : zname) (S : aqueue) : gmap string Z :=
  list_to_map (omap (λ it, zpart z it.1 it.2) (map_to_list (aq_tasks S))).

(** The ids of an index whose score is at most [now], earliest first. *)
Definition due_ids (z : zname) (now : Z) (S : aqueue) : list string :=
  (filter (λ ms, ms.2 ≤ now) (zsorted (aq_zset z S))).*1.

(** The pending task to run next: smallest rank, then earliest arrival. *)
Definition next_pending (S : aqueue) : option string :=
  (λ ms, string_drop 21 ms.1) <$> head (zsorted (aq_zset ZRank S)).

(** ** Operations *)

(** Add a task under a fresh id; [None] when the id is taken. *)
Definition s_add (id msg : string) (rank : Z) (st : astatus) (S : aqueue) : option aqueue :=
  match aq_tasks S !! id with
  | Some _ => None
  | None => Some (AQueue (<[id := ATask msg rank (aq_seq S + 1) st]> (aq_tasks S)) (aq_seq S + 1))
  end.

Definition s_claim (attempt : string) (lease : Z) (S : aqueue) : option (string * aqueue) :=
  id ← next_pending S;
  t ← aq_tasks S !! id;
  Some (at_msg t, aq_put id (with_status (AActive attempt lease) t) S).

(** End the attempt that owns an active task: [None] when the task is not active under
    that attempt. *)
Definition s_finish (id attempt : string) (f : atask → atask) (S : aqueue) : option aqueue :=
  match aq_tasks S !! id with
  | Some t =>
      match at_status t with
      | AActive a _ => if String.eqb a attempt then Some (aq_put id (f t) S) else None
      | _ => None
      end
  | None => None
  end.

Definition s_ack (id attempt msg : string) : aqueue → option aqueue :=
  s_finish id attempt (λ t, with_status ACompleted (with_msg msg t)).
Definition s_retry (id attempt msg : string) (due : Z) : aqueue → option aqueue :=
  s_finish id attempt (λ t, with_status (ARetry due) (with_msg msg t)).
Definition s_archive (id attempt msg : string) (at_ : Z) : aqueue → option aqueue :=
  s_finish id attempt (λ t, with_status (AArchived at_) (with_msg msg t)).
Definition s_requeue (id attempt : string) : aqueue → option aqueue :=
  s_finish id attempt (with_status APending).

(** Renew the lease of an attempt that still owns its task. *)
Definition s_extend1 (lease : Z) (S : aqueue) (ia : string * string) : aqueue :=
  default S (s_finish ia.1 ia.2 (with_status (AActive ia.2 lease)) S).
Definition s_extend (lease : Z) (ias : list (string * string)) (S : aqueue) : aqueue :=
  foldl (s_extend1 lease) S ias.

Definition to_pending (S : aqueue) (id : string) : aqueue :=
  match aq_tasks S !! id with
  | Some t => aq_put id (with_status APending t) S
  | None => S
  end.

(** Make the first [limit] due tasks of an index pending. *)
Definition s_move (z : zname) (now limit : Z) (S : aqueue) : Z * aqueue :=
  let ids := take (Z.to_nat limit) (due_ids z now S) in
  (Z.of_nat (length ids), foldl to_pending S ids).

Definition s_replay (id msg : string) (S : aqueue) : option aqueue :=
  match aq_tasks S !! id with
  | Some t =>
      match at_status t with
      | AArchived _ => Some (aq_put id (with_status APending (with_msg msg t)) S)
      | _ => None
      end
  | None => None
  end.

Definition s_delete (id : string) (S : aqueue) : option aqueue :=
  match aq_tasks S !! id with
  | Some t => match at_status t with AArchived _ => Some (aq_del id S) | _ => None end
  | None => None
  end.

Definition s_cleanup (before limit : Z) (S : aqueue) : Z * aqueue :=
  let ids := take (Z.to_nat limit) (due_ids ZArch before S) in
  (Z.of_nat (length ids), foldl (λ S id, aq_del id S) S ids).

(** ** The indices follow the statuses *)

Lemma zpart_inj z id id' t t' m s s' :
  zpart z id t = Some (m, s) → zpart z id' t' = Some (m, s') → id = id'.
Proof.
  unfold zpart. destruct z, (at_status t), (at_status t'); intros; simplify_eq; try done.
  by eapply rankMember_inj.
Qed.

Lemma NoDup_omap_fst {A B C} `{EqDecision B} (f : A * B → option (C * Z)) (l : list (A * B)) :
  NoDup l →
  (∀ x y m s s', x ∈ l → y ∈ l → f x = Some (m, s) → f y = Some (m, s') → x = y) →
  NoDup (omap f l).*1.
Proof.
  intros Hnd. induction Hnd as [|x l Hx Hnd IH]; intros Hinj; [constructor|].
  simpl. destruct (f x) as [[m s]|] eqn:E; simpl.
  - constructor.
    + intros Hin. apply list_elem_of_fmap in Hin as ([m' s'] & Hm & Hin). simpl in Hm. subst m'.
      apply list_elem_of_omap in Hin as (y & Hy & Ey). destruct Hx.
      replace x with y; [done|]. symmetry. eapply (Hinj x y); [left|right|..]; eauto.
    + apply IH. intros. eapply Hinj; try eassumption; by right.
  - apply IH. intros. eapply Hinj; try eassumption; by right.
Qed.

Lemma zparts_NoDup z S :
  NoDup (omap (λ it, zpart z it.1 it.2) (map_to_list (aq_tasks S))).*1.
Proof.
  apply NoDup_omap_fst; [apply NoDup_map_to_list|].
  intros [i t] [i' t'] m' s1 s2 Hi Hi' E E'. simpl in *.
  apply elem_of_map_to_list in Hi, Hi'. assert (i' = i) as -> by (symmetry; by eapply zpart_inj).
  naive_solver.
Qed.

Lemma aq_zset_lookup z S m s :
  aq_zset z S !! m = Some s ↔
    ∃ id t, aq_tasks S !! id = Some t ∧ zpart z id t = Some (m, s).
Proof.
  unfold aq_zset. rewrite <-elem_of_list_to_map.
  - rewrite list_elem_of_omap. split.
    + intros ([id t] & Hin & Hz). apply elem_of_map_to_list in Hin. eauto.
    + intros (id & t & Hin & Hz). exists (id, t). by rewrite elem_of_map_to_list.
  - apply zparts_NoDup.
Qed.

(** The index of a queue after one task is added or changed. *)
Definition zstep (old new : option (string * Z)) (z : gmap string Z) : gmap string Z :=
  match old, new with
  | None, None => z
  | Some (m, _), None => delete m z
  | _, Some (m, s) => <[m := s]> z
  end.

(** What the task under an id contributes to an index. *)
Definition part_of (z : zname) (id : string) (S : aqueue) : option (string * Z) :=
  aq_tasks S !! id ≫= zpart z id.

Lemma aq_zset_part z S m s :
  aq_zset z S !! m = Some s ↔ ∃ id, part_of z id S = Some (m, s).
Proof.
  rewrite aq_zset_lookup. unfold part_of. split.
  - intros (id & t & Ht & Hz). exists id. by rewrite Ht.
  - intros (id & Hz). destruct (aq_tasks S !! id) as [t|] eqn:Ht; [|done]. eauto.
Qed.

Lemma part_of_inj z id id' S S' m s s' :
  part_of z id S = Some (m, s) → part_of z id' S' = Some (m, s') → id = id'.
Proof.
  unfold part_of. destruct (aq_tasks S !! id), (aq_tasks S' !! id'); simpl; try done. apply zpart_inj.
Qed.

Lemma aq_zset_zstep z id S S' :
  (∀ i, i ≠ id → aq_tasks S' !! i = aq_tasks S !! i) →
  (∀ m s m' s', part_of z id S = Some (m, s) → part_of z id S' = Some (m', s') → m = m') →
  aq_zset z S' = zstep (part_of z id S) (part_of z id S') (aq_zset z S).
Proof.
  intros Hother Hm. apply map_eq. intros m. apply option_eq. intros s.
  assert (∀ i, i ≠ id → part_of z i S' = part_of z i S) as Hpart.
  { intros i Hi. unfold part_of. by rewrite Hother. }
  assert (aq_zset z S' !! m = Some s ↔
    part_of z id S' = Some (m, s) ∨ ((∀ s0, part_of z id S' ≠ Some (m, s0)) ∧
      (∀ s0, part_of z id S ≠ Some (m, s0)) ∧ aq_zset z S !! m = Some s)) as ->.
  { rewrite !aq_zset_part. split.
    - intros (i & Hi). destruct (decide (i = id)) as [->|Hne]; [by left|]. right.
      rewrite Hpart in Hi by done. split_and!; [| |eauto].
      + intros s0 E. apply Hne. by eapply part_of_inj.
      + intros s0 E. apply Hne. by eapply part_of_inj.
    - intros [?|(_ & Hold & i & Hi)]; [eauto|]. exists i. rewrite Hpart; [done|].
      intros ->. by apply (Hold s). }
  destruct (part_of z id S) as [[m0 s0]|] eqn:E0, (part_of z id S') as [[m1 s1]|] eqn:E1; simpl.
  - specialize (Hm _ _ _ _ eq_refl eq_refl) as ->. rewrite lookup_insert_Some. naive_solver.
  - rewrite lookup_delete_Some. naive_solver.
  - rewrite lookup_insert_Some. naive_solver.
  - naive_solver.
Qed.
