(* ===== verification/QueueInv.v ===== *)
(** * The storage invariant

    [Inv v S]: the view [v] of a queue stores the abstract queue [S]. Every task hash
    carries its task's fields, and every index holds exactly the tasks of its status:
    a task is in [pending] and [pending_rank] iff it is pending, in [active] and
    [lease] iff it is active, in [scheduled], [retry] or [archived] iff it has that
    status, and in no index once completed. *)

From S2P Require Import Prelude GoLib Redis Keys Scripts QueueView QueueSpec.

Definition state_name (st : astatus) : string :=
  match st with
  | APending => "pending"
  | AScheduled _ => "scheduled"
  | AActive _ _ => "active"
  | ARetry _ => "retry"
  | AArchived _ => "archived"
  | ACompleted => "completed"
  end.

Definition attempt_of (st : astatus) : option string :=
  match st with AActive a _ => Some a | _ => None end.

(** Arrival numbers are positive, at most the counter, and unique. *)
Record aq_wf (S : aqueue) : Prop := {
  wf_seq : 0 ≤ aq_seq S ≤ MaxInt64;
  wf_bound : ∀ id t, aq_tasks S !! id = Some t → 0 < at_seq t ≤ aq_seq S;
  wf_unique : ∀ id id' t t', aq_tasks S !! id = Some t → aq_tasks S !! id' = Some t' →
    at_seq t = at_seq t' → id = id'
}.

Lemma wf_put id t t' S :
  aq_wf S → aq_tasks S !! id = Some t → at_seq t' = at_seq t → aq_wf (aq_put id t' S).
Proof.
  intros [Hs Hb Hu] Ht Hseq. constructor; simpl; [done|..].
  - intros i u [[<- <-]|[? ?]]%lookup_insert_Some; [rewrite Hseq|]; eauto.
  - intros i i' u u' [[<- <-]|[? ?]]%lookup_insert_Some [[<- <-]|[? ?]]%lookup_insert_Some;
      rewrite ?Hseq; eauto.
Qed.

Lemma wf_del id S : aq_wf S → aq_wf (aq_del id S).
Proof.
  intros [Hs Hb Hu]. constructor; simpl; [done|..].
  - intros i u [? ?]%lookup_delete_Some. eauto.
  - intros i i' u u' [? ?]%lookup_delete_Some [? ?]%lookup_delete_Some. eauto.
Qed.

Lemma wf_add id msg rank st S S' :
  aq_wf S → aq_seq S < MaxInt64 → s_add id msg rank st S = Some S' → aq_wf S'.
Proof.
  intros [Hs Hb Hu] Hmax. unfold s_add. destruct (aq_tasks S !! id); [done|]. intros [= <-].
  constructor; simpl; [lia|..].
  - intros i u [[<- <-]|[? Hi]]%lookup_insert_Some; [simpl; lia|]. specialize (Hb _ _ Hi). lia.
  - intros i i' u u' [[<- <-]|[? Hi]]%lookup_insert_Some [[<- <-]|[? Hi']]%lookup_insert_Some;
      simpl; intros; try (specialize (Hb _ _ Hi)); try (specialize (Hb _ _ Hi')); eauto; lia.
Qed.

#[export] Hint Resolve wf_put wf_del wf_add : gte.

Section inv.
Context `{Redis}.

Record task_rel (id : string) (h : gmap string string) (t : atask) : Prop := {
  tr_msg : h !! "msg" = Some (at_msg t);
  tr_state : h !! "state" = Some (state_name (at_status t));
  tr_rank : ∃ r, h !! "rank" = Some r ∧ parse_score r = Some (at_rank t);
  tr_member : h !! "rank_member" = Some (member_of id t);
  tr_attempt : h !! "attempt_id" = attempt_of (at_status t)
}.

Record Inv (v : qview) (S : aqueue) : Prop := {
  inv_task : ∀ id, option_Forall2 (task_rel id) (qv_task v !! id) (aq_tasks S !! id);
  inv_zset : ∀ z, qv_zset v z = aq_zset z S;
  inv_nodup : ∀ l, NoDup (qv_list v l);
  inv_list : ∀ l id, id ∈ qv_list v l ↔ ∃ t, aq_tasks S !! id = Some t ∧ lpart l t = true;
  inv_seq : qv_seq v = aq_seq S
}.

(** The keyspace implements abstract queue [S] under the keys of queue [q], and is
    [ks0] elsewhere. *)
Definition Impl (q : string) (ks0 ks : keyspace_t) (S : aqueue) : Prop :=
  ∃ v, Rep q ks0 ks v ∧ Inv v S ∧ aq_wf S.

(** *** Reading a task through the invariant *)

Lemma Inv_task_Some v S id t :
  Inv v S → aq_tasks S !! id = Some t →
  ∃ h, qv_task v !! id = Some h ∧ default ∅ (qv_task v !! id) = h ∧ task_rel id h t.
Proof.
  intros HI Ht. pose proof (inv_task _ _ HI id) as Hr. rewrite Ht in Hr.
  inversion Hr as [h ? Hh E|]; subst. eauto.
Qed.

Lemma Inv_task_None v S id :
  Inv v S → aq_tasks S !! id = None → qv_task v !! id = None.
Proof.
  intros HI Ht. pose proof (inv_task _ _ HI id) as Hr. rewrite Ht in Hr. by inversion Hr.
Qed.

Lemma task_rel_nonempty id h t : task_rel id h t → h ≠ ∅.
Proof. intros Hr ->. pose proof (tr_msg _ _ _ Hr) as Hm. by rewrite lookup_empty in Hm. Qed.

(** The [state] field names the status of the task, if there is one. *)
Lemma Inv_state v S id :
  Inv v S →
  default ∅ (qv_task v !! id) !! "state" = (state_name ∘ at_status) <$> aq_tasks S !! id.
Proof.
  intros HI. destruct (aq_tasks S !! id) as [t|] eqn:Ht.
  - destruct (Inv_task_Some _ _ _ _ HI Ht) as (h & _ & -> & Hr). apply Hr.
  - by rewrite (Inv_task_None _ _ _ HI Ht).
Qed.

Lemma Inv_attempt v S id :
  Inv v S →
  default ∅ (qv_task v !! id) !! "attempt_id" = aq_tasks S !! id ≫= attempt_of ∘ at_status.
Proof.
  intros HI. destruct (aq_tasks S !! id) as [t|] eqn:Ht.
  - destruct (Inv_task_Some _ _ _ _ HI Ht) as (h & _ & -> & Hr). apply Hr.
  - by rewrite (Inv_task_None _ _ _ HI Ht).
Qed.

(** *** Changing one task *)

(** How a list index changes when a task enters or leaves it. *)
Definition lstep (old new : bool) (id : string) (l l' : list string) : Prop :=
  match old, new with
  | false, true => l' = id :: l ∨ l' = l ++ [id]
  | true, false => l' = remove_first id l
  | _, _ => l' = l
  end.

Definition in_list (l : lname) (o : option atask) : bool :=
  match o with Some t => lpart l t | None => false end.

Lemma lstep_spec old new id l l' :
  NoDup l → (id ∈ l ↔ old = true) → lstep old new id l l' →
  NoDup l' ∧ ∀ x, x ∈ l' ↔ (x = id ∧ new = true) ∨ (x ≠ id ∧ x ∈ l).
Proof.
  intros Hnd Hin Hl. destruct old, new; simpl in Hl; try destruct Hl as [Hl|Hl]; subst l'.
  - split; [done|]. intros x. destruct (decide (x = id)) as [->|]; naive_solver.
  - split; [by apply NoDup_remove_first|]. intros x. rewrite elem_of_remove_first by done.
    naive_solver.
  - split; [constructor; [|done]; naive_solver|]. intros x. rewrite elem_of_cons.
    destruct (decide (x = id)) as [->|]; naive_solver.
  - split.
    + apply NoDup_app. split_and!; [done| |apply NoDup_singleton].
      intros x Hx ->%list_elem_of_singleton. naive_solver.
    + intros x. rewrite elem_of_app, list_elem_of_singleton.
      destruct (decide (x = id)) as [->|]; naive_solver.
  - split; [done|]. intros x. destruct (decide (x = id)) as [->|]; naive_solver.
Qed.

(** The invariant after task [id] became [o]: its hash, its place in every index and
    nothing else has changed. *)
Lemma Inv_step v S v' S' id :
  Inv v S →
  (∀ i, i ≠ id → aq_tasks S' !! i = aq_tasks S !! i) →
  (∀ t t', aq_tasks S !! id = Some t → aq_tasks S' !! id = Some t' → at_seq t' = at_seq t) →
  (∀ i, i ≠ id → qv_task v' !! i = qv_task v !! i) →
  option_Forall2 (task_rel id) (qv_task v' !! id) (aq_tasks S' !! id) →
  (∀ z, qv_zset v' z = zstep (part_of z id S) (part_of z id S') (qv_zset v z)) →
  (∀ l, lstep (in_list l (aq_tasks S !! id)) (in_list l (aq_tasks S' !! id)) id
          (qv_list v l) (qv_list v' l)) →
  qv_seq v' = aq_seq S' →
  Inv v' S'.
Proof.
  intros HI Hother Hseq Hvother Hid Hz Hl Hs.
  assert (∀ l, NoDup (qv_list v' l) ∧ ∀ x, x ∈ qv_list v' l ↔
    (x = id ∧ in_list l (aq_tasks S' !! id) = true) ∨ (x ≠ id ∧ x ∈ qv_list v l)) as Hlist.
  { intros l. eapply lstep_spec; [apply (inv_nodup _ _ HI)| |apply Hl].
    rewrite (inv_list _ _ HI). unfold in_list. destruct (aq_tasks S !! id); naive_solver. }
  constructor.
  - intros i. destruct (decide (i = id)) as [->|Hne]; [done|].
    rewrite Hother, Hvother by done. apply (inv_task _ _ HI).
  - intros z. rewrite Hz, (inv_zset _ _ HI). symmetry. apply aq_zset_zstep; [done|].
    unfold part_of. intros m s m' s' Ha Hb.
    destruct (aq_tasks S !! id) as [t|] eqn:Et; [|done].
    destruct (aq_tasks S' !! id) as [t'|] eqn:Et'; [|done]. simpl in Ha, Hb. revert Ha Hb.
    specialize (Hseq _ _ eq_refl eq_refl). unfold zpart, member_of. rewrite Hseq.
    destruct z, (at_status t), (at_status t'); naive_solver.
  - intros l. apply Hlist.
  - intros l x. rewrite (proj2 (Hlist l)), (inv_list _ _ HI).
    destruct (decide (x = id)) as [->|Hne].
    + unfold in_list. destruct (aq_tasks S' !! id); naive_solver.
    + rewrite (Hother x) by done. naive_solver.
  - done.
Qed.
End inv.
