(* ===== verification/ScriptSpecs.v ===== *)
(** * Every script implements its operation on the abstract queue

    One lemma per script: run on a keyspace that implements queue [S], it raises no
    error, answers as the operation on [S] does, and leaves a keyspace that
    implements the operation's result. *)

From S2P Require Import Prelude GoLib Redis Keys Scripts QueueView QueueSpec QueueInv.

(** Name the queue's keys the way the rules of the commands expect them. *)
Ltac fold_keys q :=
  change (PendingKey q) with (lkey q LPending);
  change (ActiveKey q) with (lkey q LActive);
  change (PendingRankKey q) with (zkey q ZRank);
  change (ScheduledKey q) with (zkey q ZSched);
  change (RetryKey q) with (zkey q ZRetry);
  change (LeaseKey q) with (zkey q ZLease);
  change (ArchivedKey q) with (zkey q ZArch).

(** Apply [Inv_step] at task [id] and close its premises for a concrete change; what
    remains is that the new hash carries the new task. *)
Ltac inv_step_premise :=
  repeat match goal with
  | |- ∀ z : zname, _ => intros []
  | |- ∀ l : lname, _ => intros []
  | |- ∀ _, _ => intros
  end;
  unfold part_of, in_list, lstep in *; cbn in *; simplify_map_eq;
  repeat match goal with
  | Hst : at_status ?t = _ |- context [at_status ?t] => rewrite Hst
  | |- context [zpart _ _ ?t] => unfold zpart
  | |- context [lpart _ ?t] => unfold lpart
  end; cbn in *; simplify_map_eq; first [done | by apply inv_seq | by left | by right].

Ltac inv_step v S id :=
  eapply (Inv_step v S _ _ id); [done|..];
  try (inv_step_premise; fail);
  cbn; rewrite ?lookup_insert_eq, ?lookup_delete_eq; try constructor.

(** Read off the fields of a hash built from known ones. *)
Ltac task_rel_solve :=
  repeat match goal with Hr : task_rel _ _ _ |- _ => destruct Hr as [? ? ? ? ?] end;
  repeat match goal with
  | Hst : at_status ?t = _, Ha : _ = attempt_of (at_status ?t) |- _ => rewrite Hst in Ha; cbn in Ha
  | Hst : at_status ?t = _, Ha : _ = Some (state_name (at_status ?t)) |- _ =>
      rewrite Hst in Ha; cbn in Ha
  end;
  constructor; cbn; simplify_map_eq; eauto.

Section specs.
Context `{Redis} (q : string) (ks0 : keyspace_t).

(** The answer and effect of an operation that may be refused. *)
Definition outcome (S : aqueue) (o : option aqueue) (r : Z) (d : db) : Prop :=
  match o with
  | Some S' => r = 1 ∧ Impl q ks0 (keyspace d) S'
  | None => r = 0 ∧ Impl q ks0 (keyspace d) S
  end.

Lemma enqueueScript_spec d S id msg prio rank sc :
  Impl q ks0 (keyspace d) S → aq_seq S < MaxInt64 → parse_score rank = Some sc →
  wp (enqueueScript (TaskKey q id) (PendingKey q) (PendingRankKey q) (SequenceKey q) msg id prio rank)
    (outcome S (s_add id msg sc APending S)) d.
Proof.
  intros (v & HR & HI & HW) Hmax Hp. unfold enqueueScript. fold_keys q.
  wp_cmd wp_exists. intros d1 HR1. unfold s_add. destruct (aq_tasks S !! id) as [t|] eqn:Ht.
  { destruct (Inv_task_Some _ _ _ _ HI Ht) as (h & Hh & -> & Hr).
    rewrite decide_False by (by eapply task_rel_nonempty). apply wp_ret. split; [done|]. by exists v. }
  pose proof (Inv_task_None _ _ _ HI Ht) as Hv. rewrite Hv, decide_True by done. cbn [default Z.eqb].
  pose proof (wf_seq _ HW) as Hseq.
  wp_cmd wp_incr; [apply (inv_seq _ _ HI)|lia|]. intros d2 HR2. wp_cmd wp_hset. intros d3 HR3.
  wp_cmd wp_lpush. intros d4 HR4. wp_cmd wp_zadd; [done|]. intros d5 HR5.
  apply wp_ret. split; [done|]. eexists. split; [done|].
  clear - HI HW Hv Ht Hp Hmax. split.
  - inv_step v S id. task_rel_solve.
  - eapply (wf_add id msg sc APending S); [done..|]. unfold s_add. by rewrite Ht.
Qed.

Lemma scheduleScript_spec d S id msg prio rank sc at_ due :
  Impl q ks0 (keyspace d) S → aq_seq S < MaxInt64 →
  parse_score rank = Some sc → parse_score at_ = Some due →
  wp (scheduleScript (TaskKey q id) (ScheduledKey q) (SequenceKey q) msg id prio rank at_)
    (outcome S (s_add id msg sc (AScheduled due) S)) d.
Proof.
  intros (v & HR & HI & HW) Hmax Hp Hdue. unfold scheduleScript. fold_keys q.
  wp_cmd wp_exists. intros d1 HR1. unfold s_add. destruct (aq_tasks S !! id) as [t|] eqn:Ht.
  { destruct (Inv_task_Some _ _ _ _ HI Ht) as (h & Hh & -> & Hr).
    rewrite decide_False by (by eapply task_rel_nonempty). apply wp_ret. split; [done|]. by exists v. }
  pose proof (Inv_task_None _ _ _ HI Ht) as Hv. rewrite Hv, decide_True by done. cbn [default Z.eqb].
  pose proof (wf_seq _ HW) as Hseq.
  wp_cmd wp_incr; [apply (inv_seq _ _ HI)|lia|]. intros d2 HR2. wp_cmd wp_hset. intros d3 HR3.
  wp_cmd wp_zadd; [done|]. intros d5 HR5.
  apply wp_ret. split; [done|]. eexists. split; [done|].
  clear - HI HW Hv Ht Hp Hdue Hmax. split.
  - inv_step v S id. task_rel_solve.
  - eapply (wf_add id msg sc (AScheduled due) S); [done..|]. unfold s_add. by rewrite Ht.
Qed.

(** The guards let exactly the attempt that owns the task through. *)
Lemma guard_attempt_spec d v S id attempt f body :
  Rep q ks0 (keyspace d) v → Inv v S → aq_wf S →
  (∀ d' t h lease, Rep q ks0 (keyspace d') v → aq_tasks S !! id = Some t →
     at_status t = AActive attempt lease → qv_task v !! id = Some h → task_rel id h t →
     wp body (outcome S (Some (aq_put id (f t) S))) d') →
  wp (guard_attempt (TaskKey q id) attempt body) (outcome S (s_finish id attempt f S)) d.
Proof.
  intros HR HI HW Hbody. unfold guard_attempt. wp_cmd wp_hget. intros d1 HR1.
  rewrite (Inv_state v S) by done. unfold s_finish.
  assert (∀ d', Rep q ks0 (keyspace d') v → wp (sret 0) (outcome S None) d') as Hrefuse.
  { intros d' ?. apply wp_ret. split; [done|]. by exists v. }
  destruct (aq_tasks S !! id) as [t|] eqn:Ht; [|by apply Hrefuse].
  destruct (Inv_task_Some _ _ _ _ HI Ht) as (h & Hh & _ & Hr). cbn.
  destruct (at_status t) as [| |a lease| | |] eqn:Hst; cbn; try (by apply Hrefuse).
  wp_cmd wp_hget. intros d2 HR2. rewrite (Inv_attempt v S), Ht by done. cbn. rewrite Hst. cbn.
  unfold field_is. destruct (String.eqb_spec a attempt) as [->|Hne].
  - rewrite bool_decide_true by done. cbn. by eapply Hbody.
  - rewrite bool_decide_false by congruence. by apply Hrefuse.
Qed.

Lemma ackScript_spec d S id msg at_ attempt :
  Impl q ks0 (keyspace d) S →
  wp (ackScript (TaskKey q id) (ActiveKey q) (LeaseKey q) id msg at_ attempt)
    (outcome S (s_ack id attempt msg S)) d.
Proof.
  intros (v & HR & HI & HW). unfold ackScript. fold_keys q.
  eapply guard_attempt_spec; [done..|]. intros d1 t h lease HR1 Ht Hst Hh Hr.
  wp_cmd wp_lrem. intros d2 _ HR2. wp_cmd wp_zrem. intros d3 HR3.
  wp_cmd wp_hset. intros d4 HR4. wp_cmd wp_hdel. intros d5 _ HR5.
  apply wp_ret. split; [done|]. eexists. split; [done|]. split; [|by eapply wf_put].
  clear - HI Ht Hst Hh Hr. inv_step v S id. task_rel_solve.
Qed.

Lemma retryScript_spec d S id msg at_ due reason attempt :
  Impl q ks0 (keyspace d) S → parse_score at_ = Some due →
  wp (retryScript (TaskKey q id) (ActiveKey q) (LeaseKey q) (RetryKey q) id msg at_ reason attempt)
    (outcome S (s_retry id attempt msg due S)) d.
Proof.
  intros (v & HR & HI & HW) Hdue. unfold retryScript. fold_keys q.
  eapply guard_attempt_spec; [done..|]. intros d1 t h lease HR1 Ht Hst Hh Hr.
  wp_cmd wp_lrem. intros d2 _ HR2. wp_cmd wp_zrem. intros d3 HR3.
  wp_cmd wp_hset. intros d4 HR4. wp_cmd wp_hdel. intros d5 _ HR5.
  wp_cmd wp_zadd; [done|]. intros d6 HR6.
  apply wp_ret. split; [done|]. eexists. split; [done|]. split; [|by eapply wf_put].
  clear - HI Ht Hst Hh Hr. inv_step v S id. task_rel_solve.
Qed.

Lemma archiveScript_spec d S id msg reason at_ when attempt :
  Impl q ks0 (keyspace d) S → parse_score at_ = Some when →
  wp (archiveScript (TaskKey q id) (ActiveKey q) (LeaseKey q) (ArchivedKey q) id msg reason at_ attempt)
    (outcome S (s_archive id attempt msg when S)) d.
Proof.
  intros (v & HR & HI & HW) Hat. unfold archiveScript. fold_keys q.
  eapply guard_attempt_spec; [done..|]. intros d1 t h lease HR1 Ht Hst Hh Hr.
  wp_cmd wp_lrem. intros d2 _ HR2. wp_cmd wp_zrem. intros d3 HR3.
  wp_cmd wp_hset. intros d4 HR4. wp_cmd wp_hdel. intros d5 _ HR5.
  wp_cmd wp_zadd; [done|]. intros d6 HR6.
  apply wp_ret. split; [done|]. eexists. split; [done|]. split; [|by eapply wf_put].
  clear - HI Ht Hst Hh Hr. inv_step v S id. task_rel_solve.
Qed.

Lemma requeueScript_spec d S id attempt :
  Impl q ks0 (keyspace d) S →
  wp (requeueScript (TaskKey q id) (ActiveKey q) (LeaseKey q) (PendingKey q) (PendingRankKey q) id attempt)
    (outcome S (s_requeue id attempt S)) d.
Proof.
  intros (v & HR & HI & HW). unfold requeueScript. fold_keys q.
  eapply guard_attempt_spec; [done..|]. intros d1 t h lease HR1 Ht Hst Hh Hr.
  destruct (tr_rank _ _ _ Hr) as (rank & Hrank & Hp). pose proof (tr_member _ _ _ Hr) as Hm.
  wp_cmd wp_hget. intros d2 HR2. wp_cmd wp_hget. intros d3 HR3.
  assert (default ∅ (qv_task v !! id) = h) as -> by (by rewrite Hh). rewrite Hrank, Hm. cbn.
  wp_cmd wp_lrem. intros d4 _ HR4. wp_cmd wp_zrem. intros d5 HR5.
  wp_cmd wp_hset. intros d6 HR6. wp_cmd wp_hdel. intros d7 _ HR7.
  wp_cmd wp_lpush. intros d8 HR8. apply wp_bind, wp_ret. wp_cmd wp_zadd; [done|]. intros d9 HR9.
  apply wp_ret. split; [done|]. eexists. split; [done|]. split; [|by eapply wf_put].
  clear - HI Ht Hst Hh Hr. inv_step v S id. task_rel_solve.
Qed.

Lemma replayArchivedScript_spec d S id msg :
  Impl q ks0 (keyspace d) S →
  wp (replayArchivedScript (TaskKey q id) (ArchivedKey q) (PendingKey q) (PendingRankKey q) id msg)
    (outcome S (s_replay id msg S)) d.
Proof.
  intros (v & HR & HI & HW). unfold replayArchivedScript. fold_keys q.
  wp_cmd wp_hget. intros d1 HR1. rewrite (Inv_state v S) by done. unfold s_replay.
  destruct (aq_tasks S !! id) as [t|] eqn:Ht; cbn; [|apply wp_ret; split; [done|by exists v]].
  destruct (Inv_task_Some _ _ _ _ HI Ht) as (h & Hh & _ & Hr).
  destruct (at_status t) as [| | | |at_|] eqn:Hst; cbn;
    try (apply wp_ret; split; [done|by exists v]).
  destruct (tr_rank _ _ _ Hr) as (rank & Hrank & Hp). pose proof (tr_member _ _ _ Hr) as Hm.
  wp_cmd wp_hget. intros d2 HR2. wp_cmd wp_hget. intros d3 HR3.
  assert (default ∅ (qv_task v !! id) = h) as -> by (by rewrite Hh). rewrite Hrank, Hm. cbn.
  wp_cmd wp_zrem. intros d4 HR4.
  assert (qv_zset v ZArch !! id = Some at_) as ->.
  { rewrite (inv_zset _ _ HI). apply aq_zset_lookup. exists id, t. unfold zpart. by rewrite Ht, Hst. }
  cbn. wp_cmd wp_hset. intros d5 HR5. wp_cmd wp_lpush. intros d6 HR6.
  wp_cmd wp_zadd; [done|]. intros d7 HR7.
  apply wp_ret. split; [done|]. eexists. split; [done|]. split; [|by eapply wf_put].
  clear - HI Ht Hst Hh Hr. inv_step v S id. task_rel_solve.
Qed.

Lemma deleteArchivedScript_spec d S id :
  Impl q ks0 (keyspace d) S →
  wp (deleteArchivedScript (TaskKey q id) (ArchivedKey q) id) (outcome S (s_delete id S)) d.
Proof.
  intros (v & HR & HI & HW). unfold deleteArchivedScript. fold_keys q.
  wp_cmd wp_hget. intros d1 HR1. rewrite (Inv_state v S) by done. unfold s_delete.
  destruct (aq_tasks S !! id) as [t|] eqn:Ht; cbn; [|apply wp_ret; split; [done|by exists v]].
  destruct (Inv_task_Some _ _ _ _ HI Ht) as (h & Hh & _ & Hr).
  destruct (at_status t) as [| | | |at_|] eqn:Hst; cbn;
    try (apply wp_ret; split; [done|by exists v]).
  wp_cmd wp_zrem. intros d4 HR4.
  assert (qv_zset v ZArch !! id = Some at_) as ->.
  { rewrite (inv_zset _ _ HI). apply aq_zset_lookup. exists id, t. unfold zpart. by rewrite Ht, Hst. }
  cbn. wp_cmd wp_del. intros d5 _ HR5.
  apply wp_ret. split; [done|]. eexists. split; [done|]. split; [|by apply wf_del].
  clear - HI Ht Hst Hh Hr. inv_step v S id.
Qed.

(** *** Claiming *)

Definition claim_outcome (S : aqueue) (o : option (string * aqueue)) (r : list reply) (d : db) : Prop :=
  match o with
  | Some (msg, S') => r = [IntReply 1; BulkReply msg] ∧ Impl q ks0 (keyspace d) S'
  | None => r = [IntReply 0; BulkReply ""] ∧ Impl q ks0 (keyspace d) S
  end.

(** A member of the pending index belongs to one pending task. *)
Lemma pending_member S m s :
  aq_zset ZRank S !! m = Some s →
  ∃ t, aq_tasks S !! string_drop 21 m = Some t ∧ at_status t = APending ∧
    m = member_of (string_drop 21 m) t ∧ s = at_rank t.
Proof.
  intros (id & t & Ht & Hz)%aq_zset_lookup. unfold zpart in Hz.
  destruct (at_status t) eqn:Hst; simplify_eq. unfold member_of. rewrite rankMember_drop. eauto.
Qed.

Lemma TaskKey_prefix id : TaskKey q "" +:+ id = TaskKey q id.
Proof. unfold TaskKey. by rewrite <-!string_app_assoc. Qed.

Lemma claimScript_spec d S now at_ lease attempt :
  Impl q ks0 (keyspace d) S → parse_score at_ = Some lease →
  wp (claimScript (TaskKey q "") (PendingRankKey q) (PendingKey q) (ActiveKey q) (LeaseKey q) now at_ attempt)
    (claim_outcome S (s_claim attempt lease S)) d.
Proof.
  intros (v & HR & HI & HW) Hat. unfold claimScript. fold_keys q.
  wp_cmd wp_zrange. intros d1 HR1. rewrite (inv_zset _ _ HI), slice_first.
  unfold s_claim, next_pending. destruct (zsorted (aq_zset ZRank S)) as [|[m s] l] eqn:Hz.
  { apply wp_ret. split; [done|]. by exists v. }
  assert (aq_zset ZRank S !! m = Some s) as Hm.
  { apply elem_of_zsorted. rewrite Hz. left. }
  destruct (pending_member S m s Hm) as (t & Ht & Hst & Hmem & ->). cbn.
  remember (string_drop 21 m) as id eqn:Hid. rewrite Ht. cbn.
  destruct (Inv_task_Some _ _ _ _ HI Ht) as (h & Hh & Hd & Hr).
  wp_cmd wp_zrem. intros d2 HR2.
  assert (qv_zset v ZRank !! m = Some (at_rank t)) as -> by (by rewrite (inv_zset _ _ HI)). cbn.
  rewrite TaskKey_prefix. wp_cmd wp_hget. intros d3 HR3. cbn. rewrite Hd, (tr_member _ _ _ Hr).
  unfold field_is. rewrite bool_decide_true by congruence.
  wp_cmd wp_lrem. intros d4 _ HR4. rewrite TaskKey_prefix.
  wp_cmd wp_hget. intros d5 HR5. cbn. rewrite Hd, (tr_msg _ _ _ Hr).
  wp_cmd wp_hset. intros d6 HR6. wp_cmd wp_rpush. intros d7 HR7.
  wp_cmd wp_zadd; [done|]. intros d8 HR8. apply wp_ret. split; [done|].
  eexists. split; [done|]. split; [|by eapply wf_put].
  clear - HI Ht Hst Hh Hr Hmem. subst m. inv_step v S id. task_rel_solve.
Qed.

(** *** Moving due tasks *)

Lemma to_pending_other S id i : i ≠ id → aq_tasks (to_pending S id) !! i = aq_tasks S !! i.
Proof.
  intros Hne. unfold to_pending. destruct (aq_tasks S !! id); [|done]. cbn.
  by rewrite lookup_insert_ne.
Qed.

(** Only tasks waiting for a due time sit in the [scheduled] and [retry] indices. *)
Definition waiting (z : zname) : Prop := z = ZSched ∨ z = ZRetry.

Lemma moveReadyLoop_spec z max ids moved d S :
  waiting z → Impl q ks0 (keyspace d) S → NoDup ids →
  (∀ id, id ∈ ids → ∃ t s, aq_tasks S !! id = Some t ∧ zpart z id t = Some (id, s)) →
  wp (moveReadyLoop (zkey q z) (PendingKey q) (PendingRankKey q) (queuePrefix q +:+ "task:") max moved ids)
    (λ r d', let ids' := take (Z.to_nat (max - moved)) ids in
       r = moved + Z.of_nat (length ids') ∧ Impl q ks0 (keyspace d') (foldl to_pending S ids')) d.
Proof.
  intros Hz. revert moved d S. induction ids as [|id ids IH]; intros moved d S HS Hnd Hids.
  { apply wp_ret. rewrite take_nil. split; [cbn; lia|done]. }
  cbn [moveReadyLoop]. destruct (max <=? moved) eqn:Hm; bool_to_prop.
  { apply wp_ret. replace (Z.to_nat (max - moved)) with 0%nat by lia. split; [cbn; lia|done]. }
  replace (Z.to_nat (max - moved)) with (Datatypes.S (Z.to_nat (max - (moved + 1)))) by lia.
  destruct HS as (v & HR & HI & HW). destruct (Hids id) as (t & s & Ht & Hzp); [left|].
  destruct (Inv_task_Some _ _ _ _ HI Ht) as (h & Hh & Hd & Hr).
  destruct (tr_rank _ _ _ Hr) as (rank & Hrank & Hp). pose proof (tr_member _ _ _ Hr) as Hmem.
  fold_keys q. wp_cmd wp_zrem. intros d1 HR1.
  assert (qv_zset v z !! id = Some s) as ->.
  { rewrite (inv_zset _ _ HI). apply aq_zset_lookup. eauto. }
  assert ((queuePrefix q +:+ "task:") +:+ id = TaskKey q id) as E by (by rewrite <-string_app_assoc).
  cbn. rewrite E. wp_cmd wp_hget. intros d2 HR2. wp_cmd wp_hget. intros d3 HR3.
  cbn. rewrite Hd, Hrank, Hmem. cbn. wp_cmd wp_hset. intros d4 HR4.
  wp_cmd wp_lpush. intros d5 HR5. wp_cmd wp_zadd; [done|]. intros d6 HR6.
  eapply wp_mono; [apply (IH (moved + 1) d6 (to_pending S id))|].
  - eexists. split; [done|]. unfold to_pending. rewrite Ht. split; [|by eapply wf_put].
    clear - HI Ht Hh Hr Hz Hzp.
    destruct Hz as [-> | ->]; unfold zpart in Hzp; destruct (at_status t) eqn:Hst; simplify_eq;
      inv_step v S id; task_rel_solve.
  - by inversion Hnd.
  - intros i Hi. rewrite to_pending_other; [apply Hids; by right|]. inversion Hnd. naive_solver.
  - intros r d' [-> HS']. split; [|done]. cbn [length take]. lia.
Qed.

Lemma due_ids_elem z now S id :
  waiting z ∨ z = ZArch → id ∈ due_ids z now S →
  ∃ t s, aq_tasks S !! id = Some t ∧ zpart z id t = Some (id, s) ∧ s ≤ now.
Proof.
  intros Hz Hid. apply list_elem_of_fmap in Hid as ([m s] & -> & Hid). cbn.
  apply list_elem_of_filter in Hid as [Hs Hid]. apply elem_of_zsorted in Hid.
  apply aq_zset_lookup in Hid as (i & t & Ht & Hzp). exists t, s.
  assert (i = m) as ->; [|done]. unfold zpart in Hzp.
  destruct Hz as [[-> | ->] | ->], (at_status t); by simplify_eq.
Qed.

Lemma due_ids_NoDup z now S : NoDup (due_ids z now S).
Proof.
  unfold due_ids. eapply sublist_NoDup; [apply (NoDup_zsorted (aq_zset z S))|].
  apply fmap_sublist, sublist_filter.
Qed.

Lemma moveReadyScript_spec z d S at_ now limit max :
  waiting z → Impl q ks0 (keyspace d) S →
  parse_score at_ = Some now → parse_score limit = Some max →
  wp (moveReadyScript (zkey q z) (PendingKey q) (PendingRankKey q) at_ limit (queuePrefix q +:+ "task:"))
    (λ r d', r = (s_move z now max S).1 ∧ Impl q ks0 (keyspace d') (s_move z now max S).2) d.
Proof.
  intros Hz (v & HR & HI & HW) Hat Hlim. unfold moveReadyScript.
  wp_cmd wp_zrangebyscore; [done|]. intros d1 HR1. rewrite (inv_zset _ _ HI). cbn [limit_slice].
  fold (due_ids z now S). unfold s_move.
  destruct (due_ids z now S) as [|id ids] eqn:Hids.
  { apply wp_ret. rewrite take_nil. split; [done|]. by exists v. }
  unfold lua_number. rewrite Hlim. apply wp_bind, wp_ret. rewrite <-Hids.
  eapply wp_mono; [apply moveReadyLoop_spec; [done|by exists v|apply due_ids_NoDup|]|].
  - intros i Hi. destruct (due_ids_elem z now S i) as (t & s & ? & ? & ?); eauto.
  - intros r d' [-> ?]. rewrite Z.sub_0_r in *. by split.
Qed.

(** *** Cleaning up dead letters *)

Lemma cleanupArchivedLoop_spec max ids removed d S :
  Impl q ks0 (keyspace d) S → NoDup ids →
  (∀ id, id ∈ ids → ∃ t s, aq_tasks S !! id = Some t ∧ at_status t = AArchived s) →
  wp (cleanupArchivedLoop (ArchivedKey q) (queuePrefix q +:+ "task:") max removed ids)
    (λ r d', let ids' := take (Z.to_nat (max - removed)) ids in
       r = removed + Z.of_nat (length ids') ∧
       Impl q ks0 (keyspace d') (foldl (λ S id, aq_del id S) S ids')) d.
Proof.
  revert removed d S. induction ids as [|id ids IH]; intros removed d S HS Hnd Hids.
  { apply wp_ret. rewrite take_nil. split; [cbn; lia|done]. }
  cbn [cleanupArchivedLoop]. destruct (max <=? removed) eqn:Hm; bool_to_prop.
  { apply wp_ret. replace (Z.to_nat (max - removed)) with 0%nat by lia. split; [cbn; lia|done]. }
  replace (Z.to_nat (max - removed)) with (Datatypes.S (Z.to_nat (max - (removed + 1)))) by lia.
  destruct HS as (v & HR & HI & HW). destruct (Hids id) as (t & s & Ht & Hst); [left|].
  destruct (Inv_task_Some _ _ _ _ HI Ht) as (h & Hh & Hd & Hr). fold_keys q.
  assert ((queuePrefix q +:+ "task:") +:+ id = TaskKey q id) as -> by (by rewrite <-string_app_assoc).
  wp_cmd wp_hget. intros d1 HR1. rewrite (Inv_state v S), Ht by done. cbn. rewrite Hst. cbn.
  wp_cmd wp_zrem. intros d2 HR2. assert (qv_zset v ZArch !! id = Some s) as ->.
  { rewrite (inv_zset _ _ HI). apply aq_zset_lookup. exists id, t. unfold zpart. by rewrite Ht, Hst. }
  cbn. wp_cmd wp_del. intros d3 _ HR3.
  eapply wp_mono; [apply (IH (removed + 1) d3 (aq_del id S))|].
  - eexists. split; [done|]. split; [|by apply wf_del].
    clear - HI Ht Hst Hh Hr. inv_step v S id.
  - by inversion Hnd.
  - intros i Hi. cbn. rewrite lookup_delete_ne; [apply Hids; by right|]. inversion Hnd. naive_solver.
  - intros r d' [-> HS']. split; [|done]. cbn [length take]. lia.
Qed.

Lemma cleanupArchivedScript_spec d S at_ before limit max :
  Impl q ks0 (keyspace d) S → parse_score at_ = Some before → parse_score limit = Some max →
  wp (cleanupArchivedScript (ArchivedKey q) at_ limit (queuePrefix q +:+ "task:"))
    (λ r d', r = (s_cleanup before max S).1 ∧ Impl q ks0 (keyspace d') (s_cleanup before max S).2) d.
Proof.
  intros (v & HR & HI & HW) Hat Hlim. unfold cleanupArchivedScript. fold_keys q.
  wp_cmd wp_zrangebyscore; [done|]. intros d1 HR1. rewrite (inv_zset _ _ HI). cbn [limit_slice].
  fold (due_ids ZArch before S). unfold s_cleanup.
  destruct (due_ids ZArch before S) as [|id ids] eqn:Hids.
  { apply wp_ret. rewrite take_nil. split; [done|]. by exists v. }
  unfold lua_number. rewrite Hlim. apply wp_bind, wp_ret. rewrite <-Hids.
  eapply wp_mono; [apply cleanupArchivedLoop_spec; [by exists v|apply due_ids_NoDup|]|].
  - intros i Hi. destruct (due_ids_elem ZArch before S i) as (t & s & ? & Hz & ?); [by right|done|].
    unfold zpart in Hz. destruct (at_status t) eqn:?; naive_solver.
  - intros r d' [-> ?]. rewrite Z.sub_0_r in *. by split.
Qed.

(** *** Renewing leases *)

Definition extend_keys (ias : list (string * string)) : list string := (TaskKey q ∘ fst) <$> ias.
Definition extend_argv (ias : list (string * string)) : list string := ias ≫= λ ia, [ia.1; ia.2].

Lemma extendLeaseLoop_spec at_ lease ias n d S :
  Impl q ks0 (keyspace d) S → parse_score at_ = Some lease →
  wp (extendLeaseLoop (LeaseKey q) at_ (extend_keys ias) (extend_argv ias) n)
    (λ _ d', Impl q ks0 (keyspace d') (s_extend lease ias S)) d.
Proof.
  intros HS Hat. revert n d S HS. induction ias as [|[id a] ias IH]; intros n d S HS.
  { by apply wp_ret. }
  destruct HS as (v & HR & HI & HW). unfold s_extend. cbn [foldl]. fold (s_extend lease ias (s_extend1 lease S (id, a))).
  cbn. wp_cmd wp_hget. intros d1 HR1. rewrite (Inv_state v S) by done.
  unfold s_extend1, s_finish. cbn [fst snd]. fold_keys q.
  assert (∀ v' d', Rep q ks0 (keyspace d') v' → Inv v' S →
    wp (extendLeaseLoop (zkey q ZLease) at_ (extend_keys ias) (extend_argv ias) n)
      (λ _ d', Impl q ks0 (keyspace d') (s_extend lease ias S)) d') as Hskip.
  { intros v' d' HR' HI'. apply IH. by exists v'. }
  assert ((∀ t, aq_tasks S !! id = Some t → ∀ a l, at_status t ≠ AActive a l) →
    wp (sbind (call (ZREM (zkey q ZLease) id)) (λ _, extendLeaseLoop (zkey q ZLease) at_ (extend_keys ias) (extend_argv ias) n))
      (λ _ d', Impl q ks0 (keyspace d') (s_extend lease ias S)) d1) as Hdrop.
  { intros Hna. wp_cmd wp_zrem. intros d2 HR2. eapply Hskip; [done|].
    assert (qv_zset v ZLease !! id = None) as Hn.
    { rewrite (inv_zset _ _ HI). apply eq_None_not_Some. intros [s (i & t & Ht & Hz)%aq_zset_lookup].
      unfold zpart in Hz. destruct (at_status t) eqn:E; simplify_eq. by apply (Hna t Ht _ _ E). }
    destruct HI as [Ht Hz Hnd Hl Hq]. constructor; try done.
    intros z. cbn. case_decide as Ez; [subst z; by rewrite delete_id|done]. }
  destruct (aq_tasks S !! id) as [t|] eqn:Ht; [|by apply Hdrop].
  destruct (at_status t) as [| |a' l| | |] eqn:Hst; cbn; rewrite Hst; cbn;
    try (apply Hdrop; intros ? [= <-]; congruence).
  wp_cmd wp_hget. intros d2 HR2. rewrite (Inv_attempt v S), Ht by done. cbn. rewrite Hst. cbn.
  destruct (Inv_task_Some _ _ _ _ HI Ht) as (h & Hh & Hd & Hr).
  destruct (String.eqb_spec a' a) as [->|Hne].
  - rewrite bool_decide_true by (split; [done|by eexists]).
    apply wp_bind, wp_ret. wp_cmd wp_zadd; [done|]. intros d3 HR3.
    apply IH. eexists. split; [done|]. split; [|by eapply wf_put].
    clear - HI Ht Hst Hh Hr. inv_step v S id. rewrite Hh. constructor. task_rel_solve.
  - rewrite bool_decide_false by naive_solver. by eapply Hskip.
Qed.
End specs.
