(* ===== verification/StoreRefine.v ===== *)
(** * The store's methods implement the abstract queue

    Every method of the store, run on a database that implements queue [S], answers
    and acts as the operation of [QueueSpec] does, whatever the network does to its
    command: answered, not delivered, or executed with the answer lost. *)

From S2P Require Import Prelude GoLib Model Storage Redis Keys Scripts Codec Store QueueView.
From S2P Require Import QueueSpec QueueInv ScriptSpecs.

(** The score of an instant: its Unix milliseconds as a double. *)
Definition score_ms (t : Time) : Z := rnd53 (UnixMilli t).

(** What became of the next command. *)
Inductive delivered := Answered | NotSent | AnswerLost.

Section refine.
Context `{Redis, TaskCodec}.
Context (q : string) (ks0 : keyspace_t).

Definition delivery (w : world) : delivered :=
  match w_net w with
  | NetDown _ :: _ => NotSent
  | NetLost _ :: _ => AnswerLost
  | _ => Answered
  end.

Abbreviation ImplW w S := (Impl q ks0 (keyspace (w_db w)) S).

(** A transport error reported by a method that wraps it with [prefix]. *)
Definition transport (prefix : string) (e : error) : Prop :=
  ∃ reason, e = Errorf_w prefix (errors_New reason).

(** A method that sends one command. [ra] and [S'] are what it answers and the queue it
    leaves when the command is executed; a method whose command is not delivered leaves
    the queue as it was, one whose answer is lost leaves [S'], and both report a
    transport error. *)
Definition op_spec {A} (prefix : string) (S : aqueue) (exp : result A * aqueue)
    (w : world) (res : world * result A) : Prop :=
  let '(ra, S') := exp in
  let '(w', r) := res in
  w_net w' = tail (w_net w) ∧
  match delivery w with
  | Answered => r = ra ∧ ImplW w' S'
  | NotSent => (∃ e, r = inl e ∧ transport prefix e) ∧ ImplW w' S
  | AnswerLost => (∃ e, r = inl e ∧ transport prefix e) ∧ ImplW w' S'
  end.

(** The answer [a] and the new queue of an operation, or the refusal and the old queue. *)
Definition or_refuse {A} (a : A) (refusal : error) (S : aqueue) (o : option aqueue) :
    result A * aqueue :=
  match o with Some S' => (inr a, S') | None => (inl refusal, S) end.

Lemma Run_spec {A} (s : Script A) Q w :
  wp s Q (w_db w) →
  ∃ w' r, Run s w = (w', r) ∧ w_net w' = tail (w_net w) ∧
    match delivery w with
    | Answered => ∃ a, r = inr a ∧ Q a (w_db w')
    | NotSent => (∃ e, r = inl (errors_New e)) ∧ w_db w' = w_db w
    | AnswerLost => (∃ e, r = inl (errors_New e)) ∧ ∃ a, Q a (w_db w')
    end.
Proof.
  intros (d' & a & Hs & HQ)%wp_run. unfold Run, delivery, run_script. rewrite Hs.
  destruct (w_net w) as [|[] net]; cbn; eexists _, _; split_and!; try done; eauto.
Qed.

(** A method that sends one command and computes its result from the answer. *)
Lemma command_method {A B} prefix (s : Script A) (k : A → result B) S exp w :
  wp s (λ a d, k a = exp.1 ∧ Impl q ks0 (keyspace d) exp.2) (w_db w) → ImplW w S →
  op_spec prefix S exp w (gbind (gwrap prefix (Run s)) (λ a, gresult (k a)) w).
Proof.
  intros Hs HS. destruct (Run_spec s _ w Hs) as (w' & r & Hr & Hn & Hd).
  unfold gbind, gwrap, gresult, op_spec. rewrite Hr. destruct exp as [ra S']. cbn in Hd.
  destruct (delivery w).
  - destruct Hd as (n & -> & Hd). naive_solver.
  - destruct Hd as [[e ->] Hd]. rewrite <-Hd in HS.
    split; [done|]. split; [|done]. eexists. split; [done|]. by eexists.
  - destruct Hd as [[e ->] (n & _ & Hd)]. split; [done|]. split; [|done].
    eexists. split; [done|by eexists].
Qed.

Lemma gbind_gret {A} (m : GoM A) w : m w = gbind m (λ a, gresult (inr a)) w.
Proof. unfold gbind. by destruct (m w) as [? [?|?]]. Qed.

(** The methods that run a transition script and refuse on 0. *)
Lemma transition_method {A} prefix (s : Script Z) S o refusal (a : A) w :
  wp s (outcome q ks0 S o) (w_db w) → ImplW w S →
  op_spec prefix S (or_refuse a refusal S o) w
    (gbind (gwrap prefix (Run s)) (λ r, if r =? 0 then gerr refusal else gret a) w).
Proof.
  intros Hs HS.
  pose proof (command_method prefix s (λ r, if r =? 0 then inl refusal else inr a) S
    (or_refuse a refusal S o) w) as Hc.
  assert (∀ w, gbind (gwrap prefix (Run s)) (λ r, if r =? 0 then gerr refusal else gret a) w =
    gbind (gwrap prefix (Run s)) (λ r, gresult (if r =? 0 then inl refusal else inr a)) w) as ->.
  { intros w0. unfold gbind, gresult. destruct (gwrap prefix (Run s) w0) as [? [?|r]]; [done|].
    by destruct (r =? 0). }
  apply Hc; [|done]. eapply wp_mono; [done|]. unfold outcome, or_refuse.
  intros r d'. destruct o; intros [-> ?]; done.
Qed.

Lemma parse_ms t : parse_score (FormatInt (UnixMilli t)) = Some (score_ms t).
Proof. apply parse_score_int, wrap64_int64. Qed.

Definition msg_rank (msg : TaskMessage) : Z := rankScore (Priority msg) (UnixMilli (CreatedAt msg)).

Lemma parse_taskRank msg : parse_score (taskRank msg) = Some (msg_rank msg).
Proof. unfold taskRank, msg_rank, rankScore. by rewrite parse_score_frac, rnd53_idem. Qed.

(** ** Creating tasks *)

Lemma Enqueue_refines msg w S text :
  ImplW w S → Queue msg = q → aq_seq S < MaxInt64 → valid_message msg → Marshal msg = inr text →
  op_spec "enqueue task" S
    (or_refuse (set_State StatePending msg) ErrTaskExists S
       (s_add (ID msg) text (msg_rank msg) APending S)) w (Store.Enqueue (Some msg) w).
Proof.
  intros HS Hq Hmax Hv Hm. unfold Store.Enqueue.
  rewrite (proj2 (Validate_nil_iff (Some msg))) by eauto.
  unfold gwrap at 1, gresult. rewrite Hm. rewrite !Hq. apply transition_method; [|done].
  apply enqueueScript_spec; [done..|]. apply parse_taskRank.
Qed.

Lemma Schedule_refines msg w S text :
  ImplW w S → Queue msg = q → aq_seq S < MaxInt64 → valid_message msg →
  IsZero (RunAt msg) = false → Marshal msg = inr text →
  op_spec "schedule task" S
    (or_refuse (set_State StateScheduled msg) ErrTaskExists S
       (s_add (ID msg) text (msg_rank msg) (AScheduled (score_ms (RunAt msg))) S)) w (Store.Schedule (Some msg) w).
Proof.
  intros HS Hq Hmax Hv Hz Hm. unfold Store.Schedule.
  rewrite (proj2 (Validate_nil_iff (Some msg))) by eauto.
  rewrite Hz. unfold gwrap at 1, gresult. rewrite Hm. rewrite !Hq. apply transition_method; [|done].
  apply scheduleScript_spec; [done..| |]; [apply parse_taskRank|apply parse_ms].
Qed.

(** ** Ending an attempt *)

Lemma AckSuccess_refines now msg w S text :
  ImplW w S → Queue msg = q →
  Marshal (set_CompletedAt now (set_AttemptID "" (set_State StateCompleted msg))) = inr text →
  op_spec "ack task" S
    (or_refuse (set_CompletedAt now (set_AttemptID "" (set_State StateCompleted msg)))
       ErrInvalidTransition S (s_ack (ID msg) (AttemptID msg) text S)) w (Store.AckSuccess now msg w).
Proof.
  intros HS Hq Hm. unfold Store.AckSuccess. unfold gwrap at 1, gresult. rewrite Hm.
  rewrite !Hq. apply transition_method; [|done]. by apply ackScript_spec.
Qed.

Lemma ScheduleRetry_refines now msg at_ reason w S text :
  ImplW w S → Queue msg = q →
  Marshal (set_LastFailedAt now (set_LastError reason
    (set_AttemptID "" (set_State StateRetry msg)))) = inr text →
  op_spec "schedule retry" S
    (or_refuse (set_LastFailedAt now (set_LastError reason
       (set_AttemptID "" (set_State StateRetry msg)))) ErrInvalidTransition S
       (s_retry (ID msg) (AttemptID msg) text (score_ms at_) S)) w (Store.ScheduleRetry now msg at_ reason w).
Proof.
  intros HS Hq Hm. unfold Store.ScheduleRetry. unfold gwrap at 1, gresult. rewrite Hm.
  rewrite !Hq. apply transition_method; [|done]. apply retryScript_spec; [done|apply parse_ms].
Qed.

Lemma Archive_refines now msg reason w S text :
  ImplW w S → Queue msg = q →
  Marshal (set_LastError reason (set_AttemptID "" (set_State StateArchived msg))) = inr text →
  op_spec "archive task" S
    (or_refuse (set_LastError reason (set_AttemptID "" (set_State StateArchived msg)))
       ErrInvalidTransition S (s_archive (ID msg) (AttemptID msg) text (score_ms now) S)) w (Store.Archive now msg reason w).
Proof.
  intros HS Hq Hm. unfold Store.Archive. unfold gwrap at 1, gresult. rewrite Hm.
  rewrite !Hq. apply transition_method; [|done]. apply archiveScript_spec; [done|apply parse_ms].
Qed.

Lemma Requeue_refines msg w S :
  ImplW w S → Queue msg = q →
  op_spec "requeue task" S
    (or_refuse (set_AttemptID "" (set_State StatePending msg)) ErrInvalidTransition S
       (s_requeue (ID msg) (AttemptID msg) S)) w (Store.Requeue msg w).
Proof.
  intros HS Hq. unfold Store.Requeue. rewrite !Hq. apply transition_method; [|done]. by apply requeueScript_spec.
Qed.

(** ** Claiming *)

(** What a claim answers for the encoded envelope it obtained. *)
Definition decode_claim (attempt text : string) : result TaskMessage :=
  match Unmarshal text with
  | inl e => inl (Errorf_w "decode claimed task" e)
  | inr m => inr (set_AttemptID attempt (set_State StateActive m))
  end.

Definition claim_exp (attempt : string) (S : aqueue) (o : option (string * aqueue)) :
    result TaskMessage * aqueue :=
  match o with
  | Some (text, S') => (decode_claim attempt text, S')
  | None => (inl ErrQueueEmpty, S)
  end.

(** [Claim] on the answer of its script. *)
Definition claim_result (attempt : string) (values : list reply) : result TaskMessage :=
  match values with
  | [v0; v1] =>
      if default 0 (ParseInt (Sprint v0)) =? 0 then inl ErrQueueEmpty
      else decode_claim attempt (Sprint v1)
  | _ => inl (errors_New "claim task: unexpected result []interface {}")
  end.

Lemma Claim_refines leaseDuration bs now lease w S :
  ImplW w S →
  op_spec "claim task" S
    (claim_exp (hex_EncodeToString bs) S
       (s_claim (hex_EncodeToString bs)
          (score_ms (Add now (Store.lease_or_default leaseDuration lease))) S)) w
    (Store.Claim leaseDuration (inr bs) q now lease w).
Proof.
  intros HS. unfold Store.Claim, newAttemptID. set (attempt := hex_EncodeToString bs).
  match goal with |- op_spec _ _ ?exp _ (gbind (gwrap _ (gresult _)) (λ a, gbind (gwrap ?p (Run (?s a))) _) w) =>
    pose proof (command_method p (s attempt) (claim_result attempt) S exp w) as Hc end.
  assert (∀ m w, gbind m (λ a, gresult (claim_result attempt a)) w =
    gbind m (λ values, match values with
      | [v0; v1] => if default 0 (ParseInt (Sprint v0)) =? 0 then gerr ErrQueueEmpty
        else gbind (gwrap "decode claimed task" (gresult (Unmarshal (Sprint v1))))
               (λ msg, gret (set_AttemptID attempt (set_State StateActive msg)))
      | _ => gerr (errors_New "claim task: unexpected result []interface {}") end) w) as Hk.
  { intros m w0. unfold gbind at 1 2. destruct (m w0) as [w1 [e|values]]; [done|].
    unfold gresult, claim_result, decode_claim, gerr, gret, gbind, gwrap.
    repeat (case_match; simplify_eq; try done). }
  rewrite Hk in Hc. apply Hc; [|done]. clear Hc Hk.
  eapply wp_mono; [apply claimScript_spec; [done|apply parse_ms]|].
  intros r d'. unfold claim_outcome, claim_exp.
  destruct (s_claim _ _ S) as [[text S']|]; intros [-> ?]; split; done.
Qed.

(** ** Reading *)

(** What [Get] answers for a task of the queue. *)
Definition get_exp (S : aqueue) (id : string) : result TaskMessage :=
  match aq_tasks S !! id with
  | None => inl ErrTaskNotFound
  | Some t =>
      match Unmarshal (at_msg t) with
      | inl e => inl (Errorf_w "decode task" e)
      | inr m =>
          let m := set_AttemptID "" (set_State (state_name (at_status t)) m) in
          match at_status t with
          | AActive a _ =>
              if String.eqb a "" then inl (errors_New "get task: active attempt id is missing")
              else inr (set_AttemptID a m)
          | _ => inr m
          end
      end
  end.

(** [Get] on the fields it read. *)
Definition get_result (values : list (option string)) : result TaskMessage :=
  match values with
  | [None; _; _] => inl ErrTaskNotFound
  | [Some _; None; _] => inl (errors_New "get task: state is missing")
  | [Some v0; Some v1; v2] =>
      match Unmarshal v0 with
      | inl e => inl (Errorf_w "decode task" e)
      | inr m =>
          let m := set_AttemptID "" (set_State v1 m) in
          if String.eqb v1 StateActive then
            match v2 with
            | None => inl (errors_New "get task: active attempt id is missing")
            | Some v2 =>
                if String.eqb v2 "" then inl (errors_New "get task: active attempt id is missing")
                else inr (set_AttemptID v2 m)
            end
          else inr m
      end
  | _ => inl (errors_New ("get task: unexpected field count " +:+ FormatInt (Z.of_nat (length values))))
  end.

Lemma State_set m a st : State (set_AttemptID a (set_State st m)) = st.
Proof. by destruct m. Qed.

Lemma Get_unfold id w :
  Store.Get q id w =
    gbind (gwrap "get task" (Run (call (HMGET (TaskKey q id) ["msg"; "state"; "attempt_id"]))))
      (λ v, gresult (get_result v)) w.
Proof.
  unfold Store.Get. unfold gbind at 1 3. destruct (gwrap _ _ w) as [w1 [e|v]]; [done|].
  unfold get_result, gresult, gerr, gret, gbind, gwrap.
  destruct v as [|[v0|] [|[v1|] [|v2 [|]]]]; try done.
  destruct (Unmarshal v0) as [e|m]; [done|]. rewrite State_set.
  destruct (String.eqb v1 StateActive); [|done]. destruct v2 as [v2|]; [|done].
  by destruct (String.eqb v2 "").
Qed.

Lemma Get_refines id w S :
  ImplW w S → op_spec "get task" S (get_exp S id, S) w (Store.Get q id w).
Proof.
  intros HS. rewrite Get_unfold. apply command_method; [|done].
  destruct HS as (v & HR & HI & HW). eapply wp_hmget; [done|]. intros d' HR'.
  split; [|by exists v]. cbn -[String.eqb]. unfold get_exp. destruct (aq_tasks S !! id) as [t|] eqn:Ht.
  - destruct (Inv_task_Some _ _ _ _ HI Ht) as (h & Hh & -> & [Hm Hst _ _ Ha]).
    rewrite Hm, Hst, Ha. cbn -[String.eqb]. destruct (Unmarshal (at_msg t)); [done|].
    by destruct (at_status t).
  - by rewrite (Inv_task_None _ _ _ HI Ht).
Qed.

Definition dead_letter_exp (S : aqueue) (id : string) : result TaskMessage :=
  match get_exp S id with
  | inl e => inl e
  | inr m => if String.eqb (State m) StateArchived then inr m else inl ErrInvalidTransition
  end.

Lemma GetDeadLetter_refines id w S :
  ImplW w S → op_spec "get task" S (dead_letter_exp S id, S) w (Store.GetDeadLetter q id w).
Proof.
  intros HS. pose proof (Get_refines id w S HS) as Hg. unfold Store.GetDeadLetter, gbind.
  destruct (Store.Get q id w) as [w' r]. unfold dead_letter_exp, op_spec in *.
  destruct Hg as [Hn Hg]. destruct (delivery w).
  - destruct Hg as [-> ?]. destruct (get_exp S id); [done|].
    unfold gret, gerr. by destruct (String.eqb _ _).
  - destruct Hg as [(e & -> & ?) ?]. eauto 10.
  - destruct Hg as [(e & -> & ?) ?]. eauto 10.
Qed.

(** ** Maintenance *)

Lemma MoveReady_source_refines z now limit w S :
  waiting z → ImplW w S → int64 limit →
  op_spec "move ready tasks" S
    (inr (s_move z (score_ms now) (rnd53 limit) S).1, (s_move z (score_ms now) (rnd53 limit) S).2) w
    (gwrap "move ready tasks" (Run (moveReadyScript (zkey q z) (PendingKey q) (PendingRankKey q)
       (FormatInt (UnixMilli now)) (FormatInt limit) (queuePrefix q +:+ "task:"))) w).
Proof.
  intros Hz HS Hl.
  rewrite gbind_gret. apply command_method; [|done]. eapply wp_mono.
  - apply moveReadyScript_spec; [done..|apply parse_ms|by apply parse_score_int].
  - cbn. intros r d' [-> ?]. by split.
Qed.

Lemma CleanupDeadLetters_refines before limit w S :
  ImplW w S → int64 limit →
  op_spec "cleanup dead letters" S
    (inr (s_cleanup (score_ms before) (rnd53 (Store.limit_or_default limit)) S).1,
     (s_cleanup (score_ms before) (rnd53 (Store.limit_or_default limit)) S).2) w
    (Store.CleanupDeadLetters q before limit w).
Proof.
  intros HS Hl. unfold Store.CleanupDeadLetters.
  rewrite gbind_gret. apply command_method; [|done]. eapply wp_mono.
  - apply cleanupArchivedScript_spec; [done|apply parse_ms|apply parse_score_int].
    unfold Store.limit_or_default. case_match; [|done]. unfold int64, MinInt64, MaxInt64. lia.
  - cbn. intros r d' [-> ?]. by split.
Qed.

(** The attempts a heartbeat renews: id and attempt of the tasks that are not nil. *)
Definition lease_owners (tasks : list (option TaskMessage)) : list (string * string) :=
  omap (fmap (λ t, (ID t, AttemptID t))) tasks.

Lemma extend_args_owners tasks :
  Store.extend_args q tasks = (extend_keys q (lease_owners tasks), extend_argv (lease_owners tasks)).
Proof. induction tasks as [|[t|] tasks IH]; cbn; [done| |done]. by rewrite IH. Qed.

Lemma ExtendLease_refines leaseDuration tasks now lease w S :
  ImplW w S → lease_owners tasks ≠ [] →
  op_spec "extend task leases" S
    (inr tt, s_extend (score_ms (Add now (Store.lease_or_default leaseDuration lease)))
               (lease_owners tasks) S) w
    (Store.ExtendLease leaseDuration q tasks now lease w).
Proof.
  intros HS Hne. unfold Store.ExtendLease. rewrite extend_args_owners.
  destruct tasks as [|o tasks]; [done|]. remember (o :: tasks) as ts. clear Heqts o tasks.
  destruct (lease_owners ts) as [|ia ias]; [done|].
  set (ks := extend_keys q (ia :: ias)). change ks with (TaskKey q ia.1 :: extend_keys q ias).
  cbv iota. change (TaskKey q ia.1 :: extend_keys q ias) with (extend_keys q (ia :: ias)).
  apply (command_method _ _ (λ _, inr tt)); [|done]. eapply wp_mono.
  - apply extendLeaseLoop_spec; [done|apply parse_ms].
  - cbn. done.
Qed.
End refine.
