(* ===== verification/Requests.v ===== *)
(** * The store under any interleaving of clients

    A [request] is one command a store method sends: a script with the arguments the Go
    code passes. Methods of any number of clients and servers interleave at the
    granularity of requests, each delivered, lost before or lost after execution. The
    invariant of [QueueInv] holds in every reachable database. *)

From S2P Require Import Prelude GoLib Model Storage Redis Keys Scripts Codec Store QueueView.
From S2P Require Import QueueSpec QueueInv ScriptSpecs StoreRefine.

(** The commands that write. [text] is an encoded envelope. *)
Inductive request :=
| RqEnqueue (msg : TaskMessage) (text : string)
| RqSchedule (msg : TaskMessage) (text : string)
| RqClaim (now : Time) (lease : Duration) (attempt : string)
| RqMoveScheduled (now : Time) (limit : Z)
| RqMoveRetry (now : Time) (limit : Z)
| RqAck (now : Time) (id attempt text : string)
| RqRetry (at_ : Time) (id attempt text reason : string)
| RqArchive (now : Time) (id attempt text reason : string)
| RqRequeue (id attempt : string)
| RqExtend (now : Time) (lease : Duration) (owners : list (string * string))
| RqReplay (id text : string)
| RqDelete (id : string)
| RqCleanup (before : Time) (limit : Z).

(** The effect of a request on the abstract queue. *)
Definition astep (r : request) (S : aqueue) : aqueue :=
  match r with
  | RqEnqueue msg text => default S (s_add (ID msg) text (msg_rank msg) APending S)
  | RqSchedule msg text =>
      default S (s_add (ID msg) text (msg_rank msg) (AScheduled (score_ms (RunAt msg))) S)
  | RqClaim now lease attempt =>
      default S (snd <$> s_claim attempt (score_ms (Add now lease)) S)
  | RqMoveScheduled now limit => (s_move ZSched (score_ms now) (rnd53 limit) S).2
  | RqMoveRetry now limit => (s_move ZRetry (score_ms now) (rnd53 limit) S).2
  | RqAck _ id attempt text => default S (s_ack id attempt text S)
  | RqRetry at_ id attempt text _ => default S (s_retry id attempt text (score_ms at_) S)
  | RqArchive now id attempt text _ => default S (s_archive id attempt text (score_ms now) S)
  | RqRequeue id attempt => default S (s_requeue id attempt S)
  | RqExtend now lease owners => s_extend (score_ms (Add now lease)) owners S
  | RqReplay id text => default S (s_replay id text S)
  | RqDelete id => default S (s_delete id S)
  | RqCleanup before limit => (s_cleanup (score_ms before) (rnd53 limit) S).2
  end.

(** The numbers a request carries are machine integers. *)
Definition request_ok (r : request) : Prop :=
  match r with
  | RqMoveScheduled _ limit | RqMoveRetry _ limit | RqCleanup _ limit => int64 limit
  | _ => True
  end.

Definition creates (r : request) : bool :=
  match r with RqEnqueue _ _ | RqSchedule _ _ => true | _ => false end.

Section requests.
Context `{Redis}.
#[local] Open Scope script_scope.

(** The script a request runs on queue [q]. *)
Definition request_script (q : string) (r : request) : Script unit :=
  match r with
  | RqEnqueue msg text =>
      enqueueScript (TaskKey q (ID msg)) (PendingKey q) (PendingRankKey q) (SequenceKey q)
        text (ID msg) (FormatInt (Priority msg)) (taskRank msg) ;;; sret tt
  | RqSchedule msg text =>
      scheduleScript (TaskKey q (ID msg)) (ScheduledKey q) (SequenceKey q)
        text (ID msg) (FormatInt (Priority msg)) (taskRank msg)
        (FormatInt (UnixMilli (RunAt msg))) ;;; sret tt
  | RqClaim now lease attempt =>
      claimScript (TaskKey q "") (PendingRankKey q) (PendingKey q) (ActiveKey q) (LeaseKey q)
        (FormatInt (UnixMilli now)) (FormatInt (UnixMilli (Add now lease))) attempt ;;; sret tt
  | RqMoveScheduled now limit =>
      moveReadyScript (ScheduledKey q) (PendingKey q) (PendingRankKey q)
        (FormatInt (UnixMilli now)) (FormatInt limit) (queuePrefix q +:+ "task:") ;;; sret tt
  | RqMoveRetry now limit =>
      moveReadyScript (RetryKey q) (PendingKey q) (PendingRankKey q)
        (FormatInt (UnixMilli now)) (FormatInt limit) (queuePrefix q +:+ "task:") ;;; sret tt
  | RqAck now id attempt text =>
      ackScript (TaskKey q id) (ActiveKey q) (LeaseKey q) id text (FormatInt (UnixMilli now))
        attempt ;;; sret tt
  | RqRetry at_ id attempt text reason =>
      retryScript (TaskKey q id) (ActiveKey q) (LeaseKey q) (RetryKey q) id text
        (FormatInt (UnixMilli at_)) reason attempt ;;; sret tt
  | RqArchive now id attempt text reason =>
      archiveScript (TaskKey q id) (ActiveKey q) (LeaseKey q) (ArchivedKey q) id text reason
        (FormatInt (UnixMilli now)) attempt ;;; sret tt
  | RqRequeue id attempt =>
      requeueScript (TaskKey q id) (ActiveKey q) (LeaseKey q) (PendingKey q) (PendingRankKey q)
        id attempt ;;; sret tt
  | RqExtend now lease owners =>
      extendLeaseScript (LeaseKey q :: extend_keys q owners)
        (FormatInt (UnixMilli (Add now lease)) :: extend_argv owners) ;;; sret tt
  | RqReplay id text =>
      replayArchivedScript (TaskKey q id) (ArchivedKey q) (PendingKey q) (PendingRankKey q)
        id text ;;; sret tt
  | RqDelete id => deleteArchivedScript (TaskKey q id) (ArchivedKey q) id ;;; sret tt
  | RqCleanup before limit =>
      cleanupArchivedScript (ArchivedKey q) (FormatInt (UnixMilli before)) (FormatInt limit)
        (queuePrefix q +:+ "task:") ;;; sret tt
  end.

(** *** One request *)

Lemma wp_finish {A} (s : Script A) Q d (P : keyspace_t → Prop) :
  wp s Q d → (∀ a d', Q a d' → P (keyspace d')) →
  wp (s ;;; sret tt) (λ _ d', P (keyspace d')) d.
Proof. intros Hs HP. apply wp_bind. eapply wp_mono; [done|]. intros a d' HQ. by eapply HP. Qed.

Lemma outcome_default q ks0 S o r d :
  outcome q ks0 S o r d → Impl q ks0 (keyspace d) (default S o).
Proof. unfold outcome. by destruct o; intros [_ ?]. Qed.

(** Every request runs without an error and takes the abstract step. *)
Lemma request_refines q ks0 r d S :
  Impl q ks0 (keyspace d) S → request_ok r → (creates r = true → aq_seq S < MaxInt64) →
  wp (request_script q r) (λ _ d', Impl q ks0 (keyspace d') (astep r S)) d.
Proof.
  intros HS Hok Hmax. destruct r; cbn [request_script astep creates] in *;
    eapply (wp_finish _ _ _ (λ ks, Impl q ks0 ks _)).
  - apply enqueueScript_spec; [done|by apply Hmax|apply parse_taskRank].
  - intros a d'. apply outcome_default.
  - apply scheduleScript_spec; [done|by apply Hmax|apply parse_taskRank|apply parse_ms].
  - intros a d'. apply outcome_default.
  - apply claimScript_spec; [done|apply parse_ms].
  - intros a d'. unfold claim_outcome. by destruct (s_claim _ _ _) as [[]|]; intros [_ ?].
  - apply (moveReadyScript_spec q ks0 ZSched); [by left|done|apply parse_ms|by apply parse_score_int].
  - by intros a d' [_ ?].
  - apply (moveReadyScript_spec q ks0 ZRetry); [by right|done|apply parse_ms|by apply parse_score_int].
  - by intros a d' [_ ?].
  - by apply ackScript_spec.
  - intros a d'. apply outcome_default.
  - apply retryScript_spec; [done|apply parse_ms].
  - intros a d'. apply outcome_default.
  - apply archiveScript_spec; [done|apply parse_ms].
  - intros a d'. apply outcome_default.
  - by apply requeueScript_spec.
  - intros a d'. apply outcome_default.
  - apply extendLeaseLoop_spec; [done|apply parse_ms].
  - by intros a d' ?.
  - by apply replayArchivedScript_spec.
  - intros a d'. apply outcome_default.
  - by apply deleteArchivedScript_spec.
  - intros a d'. apply outcome_default.
  - apply cleanupArchivedScript_spec; [done|apply parse_ms|by apply parse_score_int].
  - by intros a d' [_ ?].
Qed.

(** *** Any number of requests *)

(** The arrival counter of a queue can still be incremented. *)
Definition counter_left (q : string) (ks : keyspace_t) : Prop :=
  ks !! SequenceKey q ≠ Some (RStr (FormatInt MaxInt64)).

(** A request on a plain queue, executed to its end. A request that is not delivered
    changes nothing; one whose answer is lost is executed like any other. *)
Definition executes (q : string) (r : request) (d d' : db) : Prop :=
  plain_queue q ∧ request_ok r ∧ (creates r = true → counter_left q (keyspace d)) ∧
  request_script q r d = (d', inr tt).

Definition db_step (d d' : db) : Prop := ∃ q r, executes q r d d'.

Inductive reachable : db → Prop :=
| reach_init d : keyspace d = ∅ → reachable d
| reach_step d d' : reachable d → db_step d d' → reachable d'.

(** The databases a sequence of requests leads through. *)
Inductive history : list (string * request) → db → db → Prop :=
| history_nil d : history [] d d
| history_cons q r rqs d d1 d' :
    executes q r d d1 → history rqs d1 d' → history ((q, r) :: rqs) d d'.

(** Every plain queue is implemented. *)
Definition Stored (ks : keyspace_t) : Prop :=
  ∀ q, plain_queue q → ∃ S, Impl q ks ks S.

Lemma Impl_empty q : Impl q ∅ ∅ aq_empty.
Proof.
  exists (QView ∅ (λ _, ∅) (λ _, []) 0). split_and!.
  - apply Rep_refl. intros [|[]|[]|]; cbn; by rewrite ?lookup_empty.
  - constructor; cbn.
    + intros id. rewrite !lookup_empty. constructor.
    + intros z. symmetry. apply map_eq. intros m. rewrite lookup_empty.
      apply eq_None_not_Some. intros [s (id & t & Ht & _)%aq_zset_lookup]. done.
    + intros. constructor.
    + intros l id. split; [by intros ?%elem_of_nil|]. intros (t & Ht & _). done.
    + done.
  - constructor; cbn; [unfold MaxInt64; lia|..]; intros; done.
Qed.

Lemma Impl_rebase q ks0 ks S : Impl q ks0 ks S → Impl q ks ks S.
Proof. intros (v & [HH _] & HI & HW). exists v. split; [by apply Rep_refl|done]. Qed.

Lemma Impl_frame q q' ks0 ks S S' :
  q ≠ q' → plain_queue q → plain_queue q' →
  Impl q ks0 ks S → Impl q' ks0 ks0 S' → Impl q' ks ks S'.
Proof.
  intros Hne Hq Hq' (v & [_ HF] & _) (v' & [HH _] & HI & HW). exists v'.
  split; [|done]. apply Rep_refl. by eapply (Holds_frame q q').
Qed.

Lemma Impl_counter q ks0 ks S : Impl q ks0 ks S → counter_left q ks → aq_seq S < MaxInt64.
Proof.
  intros (v & [HH _] & HI & HW) Hc. pose proof (wf_seq _ HW) as Hb.
  destruct (decide (aq_seq S = MaxInt64)) as [E|]; [|lia]. destruct Hc.
  specialize (HH KSeq). cbn in HH. rewrite HH, (inv_seq _ _ HI), E. done.
Qed.

(** A request takes the abstract step on its queue and leaves every other queue alone. *)
Lemma executes_sim q r d d' q' S :
  executes q r d d' → plain_queue q' → Stored (keyspace d) →
  Impl q' (keyspace d) (keyspace d) S →
  Impl q' (keyspace d') (keyspace d') (if decide (q = q') then astep r S else S).
Proof.
  intros (Hq & Hok & Hmax & Hr) Hq' Hall HS.
  assert (∀ Sq, Impl q (keyspace d) (keyspace d) Sq →
    Impl q (keyspace d) (keyspace d') (astep r Sq)) as Hsim.
  { intros S0 HS0. pose proof (request_refines q (keyspace d) r d S0 HS0 Hok) as Hw.
    unfold wp in Hw. rewrite Hr in Hw. apply Hw. intros Hc.
    eapply Impl_counter; [done|by apply Hmax]. }
  case_decide as E.
  - subst q'. by eapply Impl_rebase, Hsim.
  - destruct (Hall q Hq) as [Sq HSq]. by eapply (Impl_frame q q'), HS; [..|apply Hsim].
Qed.

Lemma executes_Stored q r d d' :
  executes q r d d' → Stored (keyspace d) → Stored (keyspace d').
Proof.
  intros He HS q' Hq'. destruct (HS q' Hq') as [S HSq]. eexists. by eapply executes_sim.
Qed.

Lemma reachable_Stored d : reachable d → Stored (keyspace d).
Proof.
  induction 1 as [d Hd|d d' _ IH (q & r & He)].
  - intros q _. rewrite Hd. exists aq_empty. apply Impl_empty.
  - by eapply executes_Stored.
Qed.
End requests.
