(* ===== verification/QueueProps.v ===== *)
(** * Properties of the abstract queue

    What holds of every task whatever requests the clients send: the state machine, the
    fencing of attempts, the order of claims, the moves of due tasks. *)

From S2P Require Import Prelude GoLib Model Redis Keys QueueView QueueSpec QueueInv ScriptSpecs.
From S2P Require Import StoreRefine Requests.

(** ** The state machine *)

(** The transitions of a task. *)
Inductive edge : astatus → astatus → Prop :=
| edge_due_scheduled due : edge (AScheduled due) APending
| edge_due_retry due : edge (ARetry due) APending
| edge_claim a lease : edge APending (AActive a lease)
| edge_renew a lease lease' : edge (AActive a lease) (AActive a lease')
| edge_ack a lease : edge (AActive a lease) ACompleted
| edge_retry a lease due : edge (AActive a lease) (ARetry due)
| edge_archive a lease at_ : edge (AActive a lease) (AArchived at_)
| edge_requeue a lease : edge (AActive a lease) APending
| edge_replay at_ : edge (AArchived at_) APending.

#[export] Hint Constructors edge : gte.

(** How one request may change one task: it creates it pending or scheduled, leaves it as
    it is, takes it along an edge with its rank and arrival number kept, or, for a dead
    letter, removes it. *)
Definition evolves (o o' : option atask) : Prop :=
  match o, o' with
  | None, None => True
  | None, Some t => at_status t = APending ∨ ∃ due, at_status t = AScheduled due
  | Some t, Some t' =>
      t' = t ∨ (edge (at_status t) (at_status t') ∧ at_rank t' = at_rank t ∧ at_seq t' = at_seq t)
  | Some t, None => ∃ at_, at_status t = AArchived at_
  end.

Lemma evolves_refl o : evolves o o.
Proof. destruct o; cbn; auto. Qed.

Lemma evolves_put S id id' t t' :
  aq_tasks S !! id' = Some t → edge (at_status t) (at_status t') →
  at_rank t' = at_rank t → at_seq t' = at_seq t →
  evolves (aq_tasks S !! id) (aq_tasks (aq_put id' t' S) !! id).
Proof.
  intros Ht He Hr Hs. cbn. destruct (decide (id' = id)) as [->|].
  - rewrite lookup_insert_eq, Ht. cbn. auto.
  - rewrite lookup_insert_ne by done. apply evolves_refl.
Qed.

Lemma s_finish_evolves id attempt f S id' :
  (∀ t lease, at_status t = AActive attempt lease → edge (at_status t) (at_status (f t))) →
  (∀ t, at_rank (f t) = at_rank t ∧ at_seq (f t) = at_seq t) →
  evolves (aq_tasks S !! id') (aq_tasks (default S (s_finish id attempt f S)) !! id').
Proof.
  intros He Hf. unfold s_finish. destruct (aq_tasks S !! id) as [t|] eqn:Ht; [|apply evolves_refl].
  destruct (at_status t) as [| |a lease| | |] eqn:Hst; try apply evolves_refl.
  destruct (String.eqb_spec a attempt) as [->|]; [|apply evolves_refl].
  eapply evolves_put; [done|by eapply He|apply Hf..].
Qed.

(** Folding a step that touches a task at most once per id. *)
Lemma foldl_to_pending_lookup ids S id :
  NoDup ids → id ∉ ids → aq_tasks (foldl to_pending S ids) !! id = aq_tasks S !! id.
Proof.
  revert S. induction ids as [|i ids IH]; intros S Hnd Hid; [done|]. cbn.
  inversion Hnd; subst. rewrite IH by (try done; set_solver).
  apply to_pending_other. set_solver.
Qed.

Lemma foldl_to_pending_in ids S id :
  NoDup ids → id ∈ ids →
  aq_tasks (foldl to_pending S ids) !! id = with_status APending <$> aq_tasks S !! id.
Proof.
  revert S. induction ids as [|i ids IH]; intros S Hnd Hid; [set_solver|]. cbn.
  inversion Hnd; subst. destruct (decide (i = id)) as [->|].
  - rewrite foldl_to_pending_lookup by done. unfold to_pending.
    destruct (aq_tasks S !! id) eqn:E; cbn; [by rewrite lookup_insert_eq|done].
  - rewrite IH by (try done; set_solver). by rewrite to_pending_other.
Qed.

Lemma foldl_del_lookup ids S id :
  aq_tasks (foldl (λ S id, aq_del id S) S ids) !! id = if decide (id ∈ ids) then None else aq_tasks S !! id.
Proof.
  revert S. induction ids as [|i ids IH]; intros S; [done|]. cbn. rewrite IH. cbn.
  destruct (decide (i = id)) as [->|].
  - rewrite lookup_delete_eq, (decide_True _ _ (P := id ∈ id :: ids)) by left. by case_decide.
  - rewrite lookup_delete_ne by done. repeat case_decide; try done; set_solver.
Qed.

(** What a move does to each task. *)
Lemma s_move_lookup z now limit S id :
  aq_tasks (s_move z now limit S).2 !! id =
    if decide (id ∈ take (Z.to_nat limit) (due_ids z now S))
    then with_status APending <$> aq_tasks S !! id else aq_tasks S !! id.
Proof.
  unfold s_move. cbn. assert (NoDup (take (Z.to_nat limit) (due_ids z now S))) as Hnd.
  { eapply sublist_NoDup; [apply due_ids_NoDup|apply sublist_take]. }
  case_decide; [by apply foldl_to_pending_in|by apply foldl_to_pending_lookup].
Qed.

Lemma s_move_evolves z now limit S id :
  waiting z → evolves (aq_tasks S !! id) (aq_tasks (s_move z now limit S).2 !! id).
Proof.
  intros Hz. rewrite s_move_lookup. case_decide as Hin; [|apply evolves_refl].
  apply elem_of_take in Hin as (n & Hin%list_elem_of_lookup_2 & _).
  destruct (due_ids_elem z now S id) as (t & s & Ht & Hzp & _); [by left|done|].
  rewrite Ht. cbn. right. split_and!; [|done..]. unfold zpart in Hzp.
  destruct Hz as [-> | ->], (at_status t); simplify_eq; constructor.
Qed.

Lemma s_extend_lookup lease owners S id :
  aq_tasks (s_extend lease owners S) !! id = aq_tasks S !! id ∨
  ∃ t a l, aq_tasks S !! id = Some t ∧ at_status t = AActive a l ∧ (id, a) ∈ owners ∧
    aq_tasks (s_extend lease owners S) !! id = Some (with_status (AActive a lease) t).
Proof.
  revert S. induction owners as [|[i a] owners IH]; intros S; [by left|].
  unfold s_extend. cbn [foldl]. fold (s_extend lease owners (s_extend1 lease S (i, a))).
  unfold s_extend1, s_finish. cbn [fst snd].
  assert ((aq_tasks (s_extend lease owners S) !! id = aq_tasks S !! id ∨
    ∃ t a0 l, aq_tasks S !! id = Some t ∧ at_status t = AActive a0 l ∧ (id, a0) ∈ (i, a) :: owners ∧
      aq_tasks (s_extend lease owners S) !! id = Some (with_status (AActive a0 lease) t))) as Hsame.
  { destruct (IH S) as [?|(t & a0 & l & ? & ? & ? & ?)]; [by left|].
    right. exists t, a0, l. split_and!; try done. by right. }
  destruct (aq_tasks S !! i) as [t|] eqn:Ht; [|done].
  destruct (at_status t) as [| |a' l| | |] eqn:Hst; try done.
  destruct (String.eqb_spec a' a) as [->|]; [|done].
  assert (∀ x, default S (Some x) = x) as -> by done.
  destruct (decide (i = id)) as [->|Hne].
  - right. exists t, a, l. split_and!; [done|done|left|].
    destruct (IH (aq_put id (with_status (AActive a lease) t) S)) as [->|(t' & a0 & l' & Ht' & Hst' & _ & ->)];
      cbn in *; rewrite lookup_insert_eq in *; [done|].
    injection Ht' as <-. cbn in Hst'. by injection Hst' as <- _.
  - destruct (IH (aq_put i (with_status (AActive a lease) t) S)) as [->|(t' & a0 & l' & Ht' & Hst' & ? & ->)];
      cbn in *; rewrite lookup_insert_ne in * by done; [by left|].
    right. exists t', a0, l'. split_and!; try done. by right.
Qed.

Lemma s_claim_evolves attempt lease S id :
  evolves (aq_tasks S !! id) (aq_tasks (default S (snd <$> s_claim attempt lease S)) !! id).
Proof.
  unfold s_claim, next_pending. destruct (zsorted (aq_zset ZRank S)) as [|[m s] l] eqn:Hz; [apply evolves_refl|].
  assert (aq_zset ZRank S !! m = Some s) as Hm by (apply elem_of_zsorted; rewrite Hz; left).
  destruct (pending_member S m s Hm) as (t & Ht & Hst & _). cbn. rewrite Ht. cbn.
  eapply evolves_put; [done| |done..]. cbn. rewrite Hst. constructor.
Qed.

Lemma s_cleanup_evolves before limit S id :
  evolves (aq_tasks S !! id) (aq_tasks (s_cleanup before limit S).2 !! id).
Proof.
  unfold s_cleanup. cbn. rewrite foldl_del_lookup. case_decide as Hin; [|apply evolves_refl].
  apply elem_of_take in Hin as (n & Hin%list_elem_of_lookup_2 & _).
  destruct (due_ids_elem ZArch before S id) as (t & s & Ht & Hzp & _); [by right|done|].
  rewrite Ht. cbn. unfold zpart in Hzp. destruct (at_status t); naive_solver.
Qed.

(** One request changes every task along the state machine. *)
Lemma astep_evolves r S id : evolves (aq_tasks S !! id) (aq_tasks (astep r S) !! id).
Proof.
  assert (∀ id' text rank st, st = APending ∨ (∃ due, st = AScheduled due) → evolves (aq_tasks S !! id)
    (aq_tasks (default S (s_add id' text rank st S)) !! id)) as Hadd.
  { intros id' text rank st Hst. unfold s_add.
    destruct (aq_tasks S !! id') eqn:E; [apply evolves_refl|]. cbn.
    destruct (decide (id' = id)) as [->|]; [by rewrite E, lookup_insert_eq|].
    rewrite lookup_insert_ne by done. apply evolves_refl. }
  destruct r; cbn [astep]; try (apply Hadd; by eauto).
  - apply s_claim_evolves.
  - apply s_move_evolves. by left.
  - apply s_move_evolves. by right.
  - apply s_finish_evolves; [|done]. intros t l ->. constructor.
  - apply s_finish_evolves; [|done]. intros t l ->. constructor.
  - apply s_finish_evolves; [|done]. intros t l ->. constructor.
  - apply s_finish_evolves; [|done]. intros t l ->. constructor.
  - destruct (s_extend_lookup (score_ms (Add now lease)) owners S id) as [->|(t & a & l & -> & Hst & _ & ->)];
      [apply evolves_refl|]. cbn. right. rewrite Hst. split_and!; [constructor|done..].
  - unfold s_replay. destruct (aq_tasks S !! id0) as [t|] eqn:Ht; [|apply evolves_refl].
    destruct (at_status t) eqn:Hst; try apply evolves_refl.
    eapply evolves_put; [done| |done..]. cbn. rewrite Hst. constructor.
  - unfold s_delete. destruct (aq_tasks S !! id0) as [t|] eqn:Ht; [|apply evolves_refl].
    destruct (at_status t) eqn:Hst; try apply evolves_refl. cbn.
    destruct (decide (id0 = id)) as [->|]; [rewrite lookup_delete_eq, Ht; cbn; eauto|].
    rewrite lookup_delete_ne by done. apply evolves_refl.
  - apply s_cleanup_evolves.
Qed.

(** Any sequence of requests. *)
Definition asteps (rs : list request) (S : aqueue) : aqueue := foldl (λ S r, astep r S) S rs.

Lemma asteps_ind (P : aqueue → Prop) rs S :
  P S → (∀ S r, r ∈ rs → P S → P (astep r S)) → P (asteps rs S).
Proof.
  revert S. induction rs as [|r rs IH]; intros S HS Hstep; [done|]. cbn. apply IH.
  - apply Hstep; [left|done].
  - intros. apply Hstep; [by right|done].
Qed.

(** ** Owners *)

(** Task [id] is active under attempt [a]. *)
Definition owned (id a : string) (S : aqueue) : Prop :=
  ∃ t l, aq_tasks S !! id = Some t ∧ at_status t = AActive a l.

Lemma owned_put id a i t S :
  (∀ l, at_status t ≠ AActive a l) → owned id a (aq_put i t S) → owned id a S.
Proof.
  intros Hst (u & l & Hu & Hul). cbn in Hu.
  apply lookup_insert_Some in Hu as [[-> <-]|[? Hu]]; [by destruct (Hst l)|by exists u, l].
Qed.

Lemma owned_finish id a i b f S :
  (∀ t l, at_status (f t) ≠ AActive a l) → owned id a (default S (s_finish i b f S)) → owned id a S.
Proof.
  intros Hf. unfold s_finish. destruct (aq_tasks S !! i) as [t|]; [|done].
  destruct (at_status t); try done. case_match; [|done]. apply owned_put. auto.
Qed.

(** After an attempt was ended it owns its task no longer. *)
Lemma finish_not_owned id a f S S' :
  (∀ t l, at_status (f t) ≠ AActive a l) → s_finish id a f S = Some S' → ¬ owned id a S'.
Proof.
  intros Hf. unfold s_finish. destruct (aq_tasks S !! id) as [t|]; [|done].
  destruct (at_status t); try done. case_match; [|done]. intros [= <-] (u & l & Hu & Hul). cbn in Hu.
  rewrite lookup_insert_eq in Hu. injection Hu as <-. by eapply Hf.
Qed.

(** Only a claim gives a task to an attempt. *)
Lemma astep_owned r S id a :
  owned id a (astep r S) → owned id a S ∨ ∃ now lease, r = RqClaim now lease a.
Proof.
  assert (∀ i text rank st, (∀ l, st ≠ AActive a l) →
    owned id a (default S (s_add i text rank st S)) → owned id a S) as Hadd.
  { intros i text rank st Hst. unfold s_add. destruct (aq_tasks S !! i); [done|].
    intros (u & l & Hu & Hul). cbn in Hu.
    apply lookup_insert_Some in Hu as [[-> <-]|[? Hu]]; [by destruct (Hst l)|by exists u, l]. }
  assert (∀ z now limit, owned id a (s_move z now limit S).2 → owned id a S) as Hmove.
  { intros z now limit (u & l & Hu & Hul). rewrite s_move_lookup in Hu. case_decide.
    - apply fmap_Some in Hu as (t & _ & ->). done.
    - by exists u, l. }
  destruct r; cbn [astep]; try (intros Ho; left; by eapply Hadd, Ho);
    try (intros Ho; left; by eapply owned_finish, Ho); try (intros Ho; left; by eapply Hmove).
  - intros (u & l & Hu & Hul). unfold s_claim in Hu.
    destruct (next_pending S) as [i|]; [|left; by exists u, l]. cbn in Hu.
    destruct (aq_tasks S !! i) as [t|]; [|left; by exists u, l]. cbn in Hu.
    apply lookup_insert_Some in Hu as [[-> <-]|[? Hu]]; [|left; by exists u, l].
    injection Hul as -> _. eauto.
  - intros (u & l & Hu & Hul). left.
    destruct (s_extend_lookup (score_ms (Add now lease)) owners S id) as [E|(t & a' & l' & Ht & Hst & _ & E)];
      rewrite E in Hu; [by exists u, l|]. injection Hu as <-. cbn in Hul. injection Hul as -> _.
    by exists t, l'.
  - intros Ho. left. revert Ho. unfold s_replay. destruct (aq_tasks S !! id0) as [t|]; [|done].
    destruct (at_status t); try done. by apply owned_put.
  - intros Ho. left. revert Ho. unfold s_delete. destruct (aq_tasks S !! id0) as [t|]; [|done].
    destruct (at_status t); try done. intros (u & l & Hu & Hul). cbn in Hu.
    apply lookup_delete_Some in Hu as [_ Hu]. by exists u, l.
  - intros (u & l & Hu & Hul). left. unfold s_cleanup in Hu. cbn in Hu. rewrite foldl_del_lookup in Hu.
    case_decide; [done|]. by exists u, l.
Qed.

(** No claim of the list is made under attempt [a]. *)
Definition no_claim (a : string) (rs : list request) : Prop :=
  ∀ now lease, RqClaim now lease a ∉ rs.

Lemma asteps_not_owned rs S id a : no_claim a rs → ¬ owned id a S → ¬ owned id a (asteps rs S).
Proof.
  intros Hc Hno. apply (asteps_ind (λ S, ¬ owned id a S)); [done|].
  intros S' r Hr IH [Ho|(now & lease & ->)]%astep_owned; [done|]. by eapply Hc.
Qed.
