(* ===== verification/History.v ===== *)
(** * Histories of requests, and what a database shows of a task

    [run_requests] executes the requests of any number of clients on any number of
    queues in the order the server received them. [task_field], [on_list] and
    [on_index] read the raw database, so that what is proved of the abstract queue can
    be stated of the keys and fields the scripts write. *)

From S2P Require Import Prelude GoLib Model Redis Keys Scripts Codec QueueView QueueSpec.
From S2P Require Import QueueInv ScriptSpecs StoreRefine Requests QueueProps.

(** The requests on queue [q], in order. *)
Definition requests_on (q : string) (rqs : list (string * request)) : list request :=
  (filter (λ qr, qr.1 = q) rqs).*2.

Lemma s_finish_seq id attempt f S : aq_seq (default S (s_finish id attempt f S)) = aq_seq S.
Proof. unfold s_finish. repeat case_match; done. Qed.

Lemma foldl_seq {A} (f : aqueue → A → aqueue) l S :
  (∀ S a, aq_seq (f S a) = aq_seq S) → aq_seq (foldl f S l) = aq_seq S.
Proof. intros Hf. revert S. induction l as [|a l IH]; intros S; cbn; [done|]. by rewrite IH. Qed.

(** The arrival counter moves by one per accepted task. *)
Lemma astep_seq r S : aq_seq S ≤ aq_seq (astep r S) ≤ aq_seq S + 1.
Proof.
  assert (∀ id text rank st, aq_seq S ≤ aq_seq (default S (s_add id text rank st S)) ≤ aq_seq S + 1) as Hadd.
  { intros. unfold s_add. destruct (aq_tasks S !! id); cbn; lia. }
  assert (∀ S', aq_seq S' = aq_seq S → aq_seq S ≤ aq_seq S' ≤ aq_seq S + 1) as Heq by (intros; lia).
  destruct r; cbn [astep]; try apply Hadd; apply Heq; try apply s_finish_seq.
  - unfold s_claim. destruct (next_pending S) as [id|]; [|done]. cbn.
    destruct (aq_tasks S !! id); done.
  - apply foldl_seq. intros S0 a. unfold to_pending. by case_match.
  - apply foldl_seq. intros S0 a. unfold to_pending. by case_match.
  - apply foldl_seq. intros S0 [i a]. apply s_finish_seq.
  - unfold s_replay. repeat case_match; done.
  - unfold s_delete. repeat case_match; done.
  - by apply foldl_seq.
Qed.

Section history.
Context `{Redis}.
#[local] Open Scope script_scope.

Fixpoint run_requests (rqs : list (string * request)) : Script unit :=
  match rqs with
  | [] => sret tt
  | (q, r) :: rqs => request_script q r ;;; run_requests rqs
  end.

Definition history_ok (rqs : list (string * request)) : Prop :=
  Forall (λ qr, plain_queue qr.1 ∧ request_ok qr.2) rqs.

(** Every plain queue holds what [Sq] says, with room for [n] more tasks. *)
Definition Holding (n : Z) (Sq : string → aqueue) (ks : keyspace_t) : Prop :=
  ∀ q, plain_queue q → Impl q ks ks (Sq q) ∧ aq_seq (Sq q) + n ≤ MaxInt64.

Lemma request_Holding n Sq q r d :
  Holding (n + 1) Sq (keyspace d) → 0 ≤ n → plain_queue q → request_ok r →
  wp (request_script q r) (λ _ d',
    Holding n (λ q', if decide (q = q') then astep r (Sq q') else Sq q') (keyspace d')) d.
Proof.
  intros HS Hn Hq Hok. destruct (HS q Hq) as [HSq Hmax].
  eapply wp_mono; [apply (request_refines q (keyspace d) r d (Sq q)); [done..|lia]|].
  intros [] d' HI q' Hq'. destruct (HS q' Hq') as [HSq' Hmax']. case_decide as E.
  - subst q'. split; [by eapply Impl_rebase|]. pose proof (astep_seq r (Sq q)). lia.
  - split; [by eapply (Impl_frame q q')|lia].
Qed.

(** A history never fails and takes every queue through its own requests. *)
Lemma run_requests_Holding rqs n Sq d :
  Holding (Z.of_nat (length rqs) + n) Sq (keyspace d) → 0 ≤ n → history_ok rqs →
  wp (run_requests rqs) (λ _ d',
    Holding n (λ q, asteps (requests_on q rqs) (Sq q)) (keyspace d')) d.
Proof.
  revert Sq d. induction rqs as [|[q r] rqs IH]; intros Sq d HS Hn Hok.
  - eapply wp_ret. by replace (Z.of_nat (length []) + n) with n in HS by done.
  - inversion Hok as [|? ? [Hq Hr] Hrest]; subst. cbn [run_requests]. apply wp_bind. eapply wp_mono.
    + apply (request_Holding (Z.of_nat (length rqs) + n) Sq); [|lia|done..].
      replace (Z.of_nat (length rqs) + n + 1) with (Z.of_nat (length ((q, r) :: rqs)) + n)
        by (cbn [length]; lia). done.
    + intros [] d' HS'. eapply wp_mono; [by apply IH|]. intros [] d2 H2 q' Hq'.
      destruct (H2 q' Hq') as [H2a H2b]. unfold requests_on in *. rewrite filter_cons.
      cbn [fst]. repeat case_decide; subst; done.
Qed.

(** The same of the databases a sequence of requests is known to lead through. *)
Lemma history_sim rqs d d' q S :
  history rqs d d' → plain_queue q → Stored (keyspace d) → Impl q (keyspace d) (keyspace d) S →
  Stored (keyspace d') ∧ Impl q (keyspace d') (keyspace d') (asteps (requests_on q rqs) S).
Proof.
  intros Hh Hq. revert S. induction Hh as [d|q0 r rqs d d1 d' He _ IH]; intros S HA HS; [done|].
  pose proof (executes_sim _ _ _ _ q S He Hq HA HS) as H1.
  destruct (IH _ (executes_Stored _ _ _ _ He HA) H1) as [HA' H2]. split; [done|].
  unfold requests_on in *. rewrite filter_cons. cbn [fst]. repeat case_decide; done.
Qed.

Lemma steps_history d d' : rtc db_step d d' → ∃ rqs, history rqs d d'.
Proof.
  induction 1 as [d|d d1 d' (q & r & He) _ [rqs IH]]; [eexists; constructor|].
  eexists. by econstructor.
Qed.

(** *** The raw database *)

Definition task_field (d : db) (q id field : string) : option string :=
  match keyspace d !! TaskKey q id with Some (RHash h) => h !! field | _ => None end.
Definition on_list (d : db) (key id : string) : Prop :=
  ∃ l, keyspace d !! key = Some (RList l) ∧ id ∈ l.
Definition on_index (d : db) (key member : string) : Prop :=
  ∃ z, keyspace d !! key = Some (RZSet z) ∧ is_Some (z !! member).

Section reading.
Context (q : string) (ks0 : keyspace_t) (d : db) (S : aqueue) (HS : Impl q ks0 (keyspace d) S).

Lemma task_field_state id :
  task_field d q id "state" = (state_name ∘ at_status) <$> aq_tasks S !! id.
Proof.
  destruct HS as (v & [HH _] & HI & _). unfold task_field. specialize (HH (KTask id)). cbn in HH.
  rewrite HH, <-(Inv_state _ _ _ HI). unfold hash_val. by case_decide as E; rewrite ?E.
Qed.

Lemma task_field_attempt id :
  task_field d q id "attempt_id" = aq_tasks S !! id ≫= attempt_of ∘ at_status.
Proof.
  destruct HS as (v & [HH _] & HI & _). unfold task_field. specialize (HH (KTask id)). cbn in HH.
  rewrite HH, <-(Inv_attempt _ _ _ HI). unfold hash_val. by case_decide as E; rewrite ?E.
Qed.

Lemma task_field_msg id : task_field d q id "msg" = at_msg <$> aq_tasks S !! id.
Proof.
  destruct HS as (v & [HH _] & HI & _). unfold task_field. specialize (HH (KTask id)). cbn in HH.
  rewrite HH. destruct (aq_tasks S !! id) as [t|] eqn:Ht.
  - destruct (Inv_task_Some _ _ _ _ HI Ht) as (h & _ & -> & Hr). unfold hash_val.
    rewrite decide_False by (by eapply task_rel_nonempty). apply Hr.
  - by rewrite (Inv_task_None _ _ _ HI Ht).
Qed.

Lemma task_exists id : is_Some (keyspace d !! TaskKey q id) ↔ is_Some (aq_tasks S !! id).
Proof.
  destruct HS as (v & [HH _] & HI & _). specialize (HH (KTask id)). cbn in HH. rewrite HH.
  destruct (aq_tasks S !! id) as [t|] eqn:Ht.
  - destruct (Inv_task_Some _ _ _ _ HI Ht) as (h & _ & -> & Hr). unfold hash_val.
    rewrite decide_False by (by eapply task_rel_nonempty). split; eauto.
  - rewrite (Inv_task_None _ _ _ HI Ht). split; by intros [? ?].
Qed.

Lemma on_list_iff l id :
  on_list d (lkey q l) id ↔ ∃ t, aq_tasks S !! id = Some t ∧ lpart l t = true.
Proof.
  destruct HS as (v & [HH _] & HI & _). rewrite <-(inv_list _ _ HI). specialize (HH (KL l)).
  cbn in HH. unfold on_list. rewrite HH. unfold list_val. case_decide as E.
  - rewrite E. split; [naive_solver|]. by intros ?%elem_of_nil.
  - naive_solver.
Qed.

Lemma on_index_iff z m :
  on_index d (zkey q z) m ↔
    ∃ id t s, aq_tasks S !! id = Some t ∧ zpart z id t = Some (m, s).
Proof.
  destruct HS as (v & [HH _] & HI & _). specialize (HH (KZ z)). cbn in HH.
  unfold on_index. rewrite HH, (inv_zset _ _ HI). unfold zset_val.
  assert ((∃ id t s, aq_tasks S !! id = Some t ∧ zpart z id t = Some (m, s)) ↔
    is_Some (aq_zset z S !! m)) as ->.
  { unfold is_Some. setoid_rewrite aq_zset_lookup. naive_solver. }
  case_decide as E.
  - rewrite E, lookup_empty. split; [naive_solver|by intros [? ?]].
  - naive_solver.
Qed.
End reading.
End history.
