(* ===== verification/StoreTheorems.v ===== *)
(** * The store: refinement, invariant, state machine and fencing

    The main theorems on the Redis store, stated of the scripts and of the raw keys,
    for every server that behaves as documented and every interleaving of clients. *)

From S2P Require Import Prelude GoLib Model Storage Redis RedisMem Keys Scripts Codec.
From S2P Require Import JsonCodec Store QueueView QueueSpec QueueInv ScriptSpecs StoreRefine.
From S2P Require Import Requests QueueProps History.

(** ** Sample data for the witnesses *)

Definition sample (id : string) (priority : Z) (created : Time) : TaskMessage :=
  mkTaskMessage id "send" [] "emails" priority 3 0 0 zeroTime zeroTime StatePending "" "" zeroTime
    zeroTime created.

Definition sample_history : list (string * request) :=
  [("emails", RqEnqueue (sample "a" 0 Second) "A"); ("emails", RqEnqueue (sample "b" 5 (2 * Second)) "B");
   ("images", RqEnqueue (sample "c" 0 Second) "C"); ("emails", RqClaim (3 * Second) (60 * Second) "t1");
   ("emails", RqRetry (9 * Second) "b" "t1" "B2" "boom"); ("emails", RqAck (4 * Second) "a" "t9" "A2");
   ("emails", RqMoveRetry (10 * Second) 100); ("emails", RqClaim (11 * Second) (60 * Second) "t2");
   ("emails", RqArchive (12 * Second) "b" "t2" "B3" "boom")].

Lemma sample_history_ok : history_ok sample_history.
Proof. repeat constructor; (try done); unfold MinInt64, MaxInt64; lia. Defined.

(** ** Refinement *)

Section theorems.
Context `{Redis}.

(** C1: The store implements the abstract queue. Whatever requests any number of clients
    send to any number of queues, in whatever order the server takes them, starting from
    an empty database: no script raises an error, and afterwards every queue holds
    exactly the tasks the operations of [QueueSpec] give when only the requests on that
    queue are applied to an empty queue. Queues therefore never influence one another. *)
Theorem store_refines_queues rqs d :
  keyspace d = ∅ → history_ok rqs → Z.of_nat (length rqs) ≤ MaxInt64 →
  ∃ d', run_requests rqs d = (d', inr tt) ∧
    ∀ q, plain_queue q →
      Impl q (keyspace d') (keyspace d') (asteps (requests_on q rqs) aq_empty).
Proof.
  intros Hd Hok Hmax.
  assert (Holding (Z.of_nat (length rqs) + 0) (λ _, aq_empty) (keyspace d)) as H0.
  { intros q _. rewrite Hd. split; [apply Impl_empty|cbn; lia]. }
  apply run_requests_Holding in H0; [|done..].
  apply wp_run in H0 as (d' & [] & Hr & HS).
  exists d'. split; [done|]. intros q Hq. apply (HS q Hq).
Qed.

(** The states of a task. *)
Definition task_states : list string :=
  [StatePending; StateScheduled; StateActive; StateRetry; StateArchived; StateCompleted].

Lemma on_index_own q ks0 d S z id :
  Impl q ks0 (keyspace d) S → z ≠ ZRank →
  on_index d (zkey q z) id ↔
    ∃ t s, aq_tasks S !! id = Some t ∧ zpart z id t = Some (id, s).
Proof.
  intros HS Hz. rewrite (on_index_iff q ks0 d S HS). split; [|naive_solver].
  intros (i & t & s & Ht & Hp). assert (i = id) as ->; [|eauto].
  unfold zpart in Hp. destruct z; [done|..]; destruct (at_status t); by simplify_eq.
Qed.

Lemma on_rank_own q ks0 d S id :
  Impl q ks0 (keyspace d) S →
  (∃ seq, on_index d (PendingRankKey q) (rankMember seq id)) ↔
    ∃ t, aq_tasks S !! id = Some t ∧ at_status t = APending.
Proof.
  intros HS. setoid_rewrite (on_index_iff q ks0 d S HS ZRank). split.
  - intros (seq & i & t & s & Ht & Hp). exists t. unfold zpart, member_of in Hp.
    destruct (at_status t) eqn:E; simplify_eq.
    match goal with Hm : rankMember _ _ = _ |- _ => apply rankMember_inj in Hm as -> end. done.
  - intros (t & Ht & Hst). exists (rnd53 (at_seq t)), id, t, (at_rank t).
    unfold zpart, member_of. by rewrite Hst.
Qed.

(** C2: In every reachable database, for every task id of every queue: a task hash
    exists iff it has a [state], which is one of the six states; and the state says
    exactly where the id is indexed. It is on the pending list and in the pending rank
    set iff the task is pending; on the active list, in the lease set and with an
    attempt id iff it is active; in the scheduled, retry or archived set iff it has that
    state; a completed task is in no index. *)
Theorem task_in_its_index d q id :
  reachable d → plain_queue q →
  let st := task_field d q id "state" in
  (∀ s, st = Some s → s ∈ task_states) ∧
  (is_Some (keyspace d !! TaskKey q id) ↔ is_Some st) ∧
  (on_list d (PendingKey q) id ↔ st = Some StatePending) ∧
  ((∃ seq, on_index d (PendingRankKey q) (rankMember seq id)) ↔ st = Some StatePending) ∧
  (on_list d (ActiveKey q) id ↔ st = Some StateActive) ∧
  (on_index d (LeaseKey q) id ↔ st = Some StateActive) ∧
  (is_Some (task_field d q id "attempt_id") ↔ st = Some StateActive) ∧
  (on_index d (ScheduledKey q) id ↔ st = Some StateScheduled) ∧
  (on_index d (RetryKey q) id ↔ st = Some StateRetry) ∧
  (on_index d (ArchivedKey q) id ↔ st = Some StateArchived).
Proof.
  intros Hd Hq. destruct (reachable_Stored d Hd q Hq) as [S HS]. cbv zeta.
  rewrite (task_field_state q _ d S HS), (task_exists q _ d S HS),
    (task_field_attempt q _ d S HS), (on_rank_own q _ d S id HS).
  pose proof (λ l, on_list_iff q _ d S HS l id) as Hl.
  pose proof (λ z, on_index_own q _ d S z id HS) as Hz.
  change (PendingKey q) with (lkey q LPending). change (ActiveKey q) with (lkey q LActive).
  change (LeaseKey q) with (zkey q ZLease). change (ScheduledKey q) with (zkey q ZSched).
  change (RetryKey q) with (zkey q ZRetry). change (ArchivedKey q) with (zkey q ZArch).
  rewrite !Hl, !Hz by done. clear Hl Hz.
  unfold is_Some. destruct (aq_tasks S !! id) as [t|]; cbn -[elem_of task_states].
  - unfold zpart, lpart. destruct (at_status t) eqn:E; cbn -[elem_of task_states];
      (split; [intros ? [= <-]; unfold task_states; set_solver|]);
      split_and!; (split; [try naive_solver|try (intros [=]; fail); try (by eauto)]);
      try (intros (? & ? & ? & ?); simplify_eq; rewrite E in *; naive_solver);
      try (intros (? & ? & ?); simplify_eq; rewrite E in *; naive_solver);
      intros _; repeat eexists; rewrite ?E; done.
  - split_and!; naive_solver.
Qed.
End theorems.

(** ** The sample database is reachable *)

Lemma run_requests_cons `{Redis} q r rqs d d1 :
  request_script q r d = (d1, inr tt) → run_requests ((q, r) :: rqs) d = run_requests rqs d1.
Proof. intros Hr. cbn [run_requests]. unfold sbind. by rewrite Hr. Qed.

(** Running a history whose queues stay away from the counter's end only passes through
    reachable databases. *)
Lemma run_requests_reachable `{Redis} rqs n Sq d :
  reachable d → Holding (Z.of_nat (length rqs) + n) Sq (keyspace d) → 0 ≤ n → history_ok rqs →
  reachable (run_requests rqs d).1.
Proof.
  revert n Sq d. induction rqs as [|[q r] rqs IH]; intros n Sq d Hd HS Hn Hok; [done|].
  inversion Hok as [|? ? [Hq Hr] Hrest]; subst.
  replace (Z.of_nat (length ((q, r) :: rqs)) + n) with (Z.of_nat (length rqs) + n + 1) in HS
    by (cbn [length]; lia).
  pose proof (request_Holding _ _ q r _ HS ltac:(lia) Hq Hr) as Hw.
  apply wp_run in Hw as (d1 & [] & Hd1 & HS1). rewrite (run_requests_cons _ _ _ _ _ Hd1).
  eapply (IH n _ d1); [|done..]. eapply reach_step; [done|]. exists q, r. unfold executes. split_and!; try done.
  intros _ Hc. destruct (HS q Hq) as [(v & [HH _] & HI & HW) Hb]. specialize (HH KSeq).
  cbn in HH. rewrite Hc in HH. unfold seq_val in HH. rewrite (inv_seq _ _ HI) in HH.
  destruct (aq_seq (Sq q) =? 0); [done|]. injection HH as HF%FormatInt_inj. lia.
Qed.

(** Running a history on an empty in-memory server. *)
Definition mem_run (rqs : list (string * request)) : keyspace_t :=
  (run_requests (H := RedisMem) rqs ∅).1.

Lemma mem_run_reachable rqs :
  history_ok rqs → (Z.of_nat (length rqs) <=? MaxInt64) = true → reachable (H := RedisMem) (mem_run rqs).
Proof.
  intros Hok Hn. bool_to_prop.
  apply (run_requests_reachable (H := RedisMem) _ 0 (λ _, aq_empty)); [by constructor| |done|done].
  intros q _. split; [apply Impl_empty|]. cbn. lia.
Qed.

(** What a queue holds after a history on an empty in-memory server. *)
Definition mem_queue (q : string) (rqs : list (string * request)) : aqueue :=
  asteps (requests_on q rqs) aq_empty.

Lemma mem_run_Impl q rqs :
  history_ok rqs → (Z.of_nat (length rqs) <=? MaxInt64) = true → plain_queue q →
  Impl (H := RedisMem) q (mem_run rqs) (mem_run rqs) (mem_queue q rqs).
Proof.
  intros Hok Hn Hq. bool_to_prop.
  assert (Holding (H := RedisMem) (Z.of_nat (length rqs) + 0) (λ _, aq_empty) (∅ : keyspace_t)) as H0.
  { intros q' _. split; [apply Impl_empty|cbn; lia]. }
  pose proof (run_requests_Holding (H := RedisMem) rqs 0 _ ∅ H0 ltac:(lia) Hok) as H1.
  unfold wp in H1. unfold mem_run. destruct (run_requests rqs _) as [d' [e|[]]]; [done|]. apply (H1 q Hq).
Qed.

Definition sample_db : keyspace_t := mem_run sample_history.

Lemma sample_reachable : reachable (H := RedisMem) sample_db.
Proof. apply mem_run_reachable; [apply sample_history_ok|by vm_compute]. Qed.

(** ** Witnesses *)

Lemma store_refines_queues_witness :
  ∃ d', run_requests (H := RedisMem) sample_history (∅ : keyspace_t) = (d', inr tt) ∧
    ∀ q, plain_queue q →
      Impl (H := RedisMem) q d' d' (asteps (requests_on q sample_history) aq_empty).
Proof.
  apply (store_refines_queues (H := RedisMem) sample_history ∅);
    [done|apply sample_history_ok|unfold MaxInt64; cbn; lia].
Defined.

Lemma task_in_its_index_witness :
  on_index (H := RedisMem) sample_db (ArchivedKey "emails") "b" ∧
  ¬ on_index (H := RedisMem) sample_db (LeaseKey "emails") "b".
Proof.
  destruct (task_in_its_index (H := RedisMem) sample_db "emails" "b" sample_reachable)
    as (_ & _ & _ & _ & _ & Hl & _ & _ & _ & Ha); [reflexivity|].
  split; [apply Ha; by vm_compute|]. intros Hc%Hl. vm_compute in Hc. discriminate.
Defined.
