(* ===== verification/TaskLifecycle.v ===== *)
(** * The life of a task: its state machine, its end, and who may end an attempt

    The theorems of this file speak of the [state], [msg] and [attempt_id] fields of the
    task hashes in any reachable database, and of the Go methods that end an attempt. *)

From S2P Require Import Prelude GoLib Model Storage Redis RedisMem Keys Scripts Codec.
From S2P Require Import JsonCodec Store QueueView QueueSpec QueueInv ScriptSpecs StoreRefine.
From S2P Require Import Requests QueueProps History StoreTheorems.
From Stdlib Require Import Ascii.

(** ** The state machine *)

(** The moves of the [state] field, [None] for a task that is not stored. *)
Definition state_edge (s s' : option string) : bool :=
  match s with
  | None => bool_decide (s' ∈ [None; Some StatePending; Some StateScheduled])
  | Some s =>
      if String.eqb s StateScheduled then bool_decide (s' ∈ [Some StateScheduled; Some StatePending])
      else if String.eqb s StatePending then bool_decide (s' ∈ [Some StatePending; Some StateActive])
      else if String.eqb s StateActive then
        bool_decide (s' ∈ [Some StateActive; Some StateCompleted; Some StateRetry;
                           Some StateArchived; Some StatePending])
      else if String.eqb s StateRetry then bool_decide (s' ∈ [Some StateRetry; Some StatePending])
      else if String.eqb s StateArchived then
        bool_decide (s' ∈ [Some StateArchived; Some StatePending; None])
      else if String.eqb s StateCompleted then bool_decide (s' = Some StateCompleted)
      else false
  end.

Definition status_field (o : option atask) : option string := (state_name ∘ at_status) <$> o.

Lemma edge_state st st' : edge st st' → state_edge (Some (state_name st)) (Some (state_name st')) = true.
Proof. by destruct 1. Qed.

Lemma evolves_state o o' : evolves o o' → state_edge (status_field o) (status_field o') = true.
Proof.
  destruct o as [t|], o' as [t'|]; cbn.
  - intros [->|(He & _)]; [|by apply edge_state]. by destruct (at_status t).
  - by intros [at_ ->].
  - by intros [->|[due ->]].
  - done.
Qed.

Section lifecycle.
Context `{Redis}.

Lemma step_evolves d d' q S :
  db_step d d' → reachable d → plain_queue q → Impl q (keyspace d) (keyspace d) S →
  ∃ S', Impl q (keyspace d') (keyspace d') S' ∧
    ∀ id, evolves (aq_tasks S !! id) (aq_tasks S' !! id).
Proof.
  intros (q0 & r & He) Hd Hq HS. eexists. split.
  - eapply executes_sim; [done..|by apply reachable_Stored|done].
  - intros id. case_decide; [apply astep_evolves|apply evolves_refl].
Qed.

(** C3: One request, whatever it is and whichever queue it is on, changes the state of a
    task only along the state machine: a new task is pending or scheduled, a scheduled or
    retried task can only become pending, a pending one active, an active one completed,
    retried, archived or pending again; an archived one can be replayed or removed, and a
    completed one never changes. *)
Theorem requests_follow_state_machine d d' q id :
  reachable d → db_step d d' → plain_queue q →
  state_edge (task_field d q id "state") (task_field d' q id "state") = true.
Proof.
  intros Hd Hs Hq. destruct (reachable_Stored d Hd q Hq) as [S HS].
  destruct (step_evolves d d' q S Hs Hd Hq HS) as (S' & HS' & Hev).
  rewrite (task_field_state _ _ _ _ HS id), (task_field_state _ _ _ _ HS' id).
  apply evolves_state, Hev.
Qed.

Lemma asteps_completed rs S id t :
  aq_tasks S !! id = Some t → at_status t = ACompleted → aq_tasks (asteps rs S) !! id = Some t.
Proof.
  intros Ht Hst. apply (asteps_ind (λ S, aq_tasks S !! id = Some t)); [done|].
  intros S' r _ Ht'. pose proof (astep_evolves r S' id) as He. rewrite Ht' in He. cbn in He.
  destruct (aq_tasks (astep r S') !! id) as [t'|]; rewrite Hst in He.
  - destruct He as [->|(He & _)]; [done|inversion He].
  - by destruct He.
Qed.

(** Completion is final. Once a task is completed, no sequence of requests of any
    clients on any queues changes its state or its stored envelope, and it stays stored. *)
Theorem completed_is_final d d' q id :
  reachable d → rtc db_step d d' → plain_queue q →
  task_field d q id "state" = Some StateCompleted →
  task_field d' q id "state" = Some StateCompleted ∧
  task_field d' q id "msg" = task_field d q id "msg".
Proof.
  intros Hd Hs Hq Hc. destruct (reachable_Stored d Hd q Hq) as [S HS].
  apply steps_history in Hs as [rqs Hs].
  destruct (history_sim rqs d d' q S Hs Hq (reachable_Stored d Hd) HS) as [_ HS'].
  rewrite (task_field_state _ _ _ _ HS') , (task_field_msg _ _ _ _ HS'), (task_field_msg _ _ _ _ HS).
  rewrite (task_field_state _ _ _ _ HS) in Hc.
  destruct (aq_tasks S !! id) as [t|] eqn:Ht; [|done]. cbn in Hc.
  assert (at_status t = ACompleted) as Hst by (by destruct (at_status t)).
  rewrite (asteps_completed _ S id t Ht Hst). cbn. by rewrite Hst.
Qed.

(** C9: No task is lost. A stored task can only disappear from the database by being
    removed while it is archived: if it is stored at first and not stored later, then at
    some point in between it was a dead letter, and the very next request removed it. *)
Theorem no_task_lost d d' q id :
  reachable d → rtc db_step d d' → plain_queue q →
  is_Some (keyspace d !! TaskKey q id) → keyspace d' !! TaskKey q id = None →
  ∃ d1 d2, rtc db_step d d1 ∧ db_step d1 d2 ∧ rtc db_step d2 d' ∧
    task_field d1 q id "state" = Some StateArchived ∧ keyspace d2 !! TaskKey q id = None.
Proof.
  intros Hd Hs Hq. induction Hs as [d|d d1 d' Hs Hs' IH]; intros He Hn.
  { rewrite Hn in He. by destruct He. }
  assert (reachable d1) as Hd1 by (by eapply reach_step).
  destruct (keyspace d1 !! TaskKey q id) as [x|] eqn:Hx.
  { destruct (IH Hd1) as (d2 & d3 & ? & ? & ? & ? & ?); [done..|].
    exists d2, d3. split_and!; try done. by eapply rtc_l. }
  exists d, d1. split_and!; [done..| |done].
  destruct (reachable_Stored d Hd q Hq) as [S HS].
  destruct (step_evolves d d1 q S Hs Hd Hq HS) as (S1 & HS1 & Hev). specialize (Hev id).
  apply (task_exists _ _ _ _ HS) in He as [t Ht].
  rewrite (task_field_state _ _ _ _ HS), Ht. cbn.
  assert (aq_tasks S1 !! id = None) as Hgone.
  { apply eq_None_not_Some. rewrite <-(task_exists _ _ _ _ HS1), Hx. by intros [? ?]. }
  rewrite Hgone in Hev.
  rewrite Ht in Hev. destruct Hev as [at_ ->]. done.
Qed.
End lifecycle.

(** ** Ending an attempt *)

(** The four ways a worker or a recovery pass ends an attempt. *)
Inductive settlement :=
| SAck (now : Time)
| SRetry (now at_ : Time) (reason : string)
| SArchive (now : Time) (reason : string)
| SRequeue.

(** The envelope a settlement answers and, except for a requeue, stores. *)
Definition settled (s : settlement) (msg : TaskMessage) : TaskMessage :=
  match s with
  | SAck now => set_CompletedAt now (set_AttemptID "" (set_State StateCompleted msg))
  | SRetry now _ reason =>
      set_LastFailedAt now (set_LastError reason (set_AttemptID "" (set_State StateRetry msg)))
  | SArchive _ reason => set_LastError reason (set_AttemptID "" (set_State StateArchived msg))
  | SRequeue => set_AttemptID "" (set_State StatePending msg)
  end.

Section settling.
Context `{Redis, TaskCodec}.

Definition settle (s : settlement) (msg : TaskMessage) : GoM TaskMessage :=
  match s with
  | SAck now => Store.AckSuccess now msg
  | SRetry now at_ reason => Store.ScheduleRetry now msg at_ reason
  | SArchive now reason => Store.Archive now msg reason
  | SRequeue => Store.Requeue msg
  end.

(** What the settlement stores as the envelope. *)
Definition settled_text (s : settlement) (msg : TaskMessage) : result string :=
  match s with SRequeue => inr "" | _ => Marshal (settled s msg) end.

(** The abstract operation of a settlement. *)
Definition s_settle (s : settlement) (msg : TaskMessage) (text : string) : aqueue → option aqueue :=
  match s with
  | SAck _ => s_ack (ID msg) (AttemptID msg) text
  | SRetry _ at_ _ => s_retry (ID msg) (AttemptID msg) text (score_ms at_)
  | SArchive now _ => s_archive (ID msg) (AttemptID msg) text (score_ms now)
  | SRequeue => s_requeue (ID msg) (AttemptID msg)
  end.

Definition settle_prefix (s : settlement) : string :=
  match s with
  | SAck _ => "ack task" | SRetry _ _ _ => "schedule retry"
  | SArchive _ _ => "archive task" | SRequeue => "requeue task"
  end.

(** The error of an envelope that cannot be encoded. *)
Definition encode_error (s : settlement) (e : error) : error :=
  Errorf_w (match s with
    | SAck _ => "encode completed task" | SRetry _ _ _ => "encode retry task"
    | SArchive _ _ => "encode archived task" | SRequeue => "" end) e.

Lemma settle_refines q ks0 s msg w S text :
  Impl q ks0 (keyspace (w_db w)) S → Queue msg = q → settled_text s msg = inr text →
  op_spec q ks0 (settle_prefix s) S
    (or_refuse (settled s msg) ErrInvalidTransition S (s_settle s msg text S)) w (settle s msg w).
Proof.
  intros HS Hq Ht. destruct s; cbn in *.
  - by apply AckSuccess_refines.
  - by apply ScheduleRetry_refines.
  - by apply Archive_refines.
  - by apply Requeue_refines.
Qed.

Lemma settle_encode_error s msg w e :
  settled_text s msg = inl e → settle s msg w = (w, inl (encode_error s e)).
Proof.
  destruct s; cbn; [| | |done]; intros Hm;
    unfold Store.AckSuccess, Store.ScheduleRetry, Store.Archive, gbind, gwrap, gresult; by rewrite Hm.
Qed.

(** C10: Ending an attempt, completely. For a task message of any queue, on any database
    that implements the queue and under any behaviour of the network, each of [AckSuccess],
    [ScheduleRetry], [Archive] and [Requeue] does this: an envelope that cannot be encoded
    is reported without touching the database; otherwise, if the task is active under the
    message's attempt, the task takes its new status and the updated message is answered;
    if it is not, [ErrInvalidTransition] is answered and nothing changes; a command that
    is not delivered changes nothing, one whose answer is lost takes effect, and both
    report a transport error. *)
Theorem settle_correct s msg w S ks0 :
  Impl (Queue msg) ks0 (keyspace (w_db w)) S →
  match settled_text s msg with
  | inl e => settle s msg w = (w, inl (encode_error s e))
  | inr text =>
      op_spec (Queue msg) ks0 (settle_prefix s) S
        (or_refuse (settled s msg) ErrInvalidTransition S (s_settle s msg text S)) w (settle s msg w)
  end.
Proof.
  intros HS. destruct (settled_text s msg) as [e|text] eqn:Ht.
  - by apply settle_encode_error.
  - by apply settle_refines.
Qed.

(** *** Stale attempts *)

(** The message's attempt does not own its task. *)
Definition stale (d : db) (msg : TaskMessage) : Prop :=
  task_field d (Queue msg) (ID msg) "state" ≠ Some StateActive ∨
  task_field d (Queue msg) (ID msg) "attempt_id" ≠ Some (AttemptID msg).

Lemma guard_refuses key attempt body d h :
  get_hash (keyspace d) key = inr h →
  h !! "state" ≠ Some "active" ∨ h !! "attempt_id" ≠ Some attempt →
  wp (guard_attempt key attempt body) (λ r d', r = 0 ∧ keyspace d' = keyspace d) d.
Proof.
  intros Hh Hst. unfold guard_attempt. apply wp_bind. eapply wp_call; [cbn; by rewrite Hh|].
  intros d1 Hd1. unfold field_is. destruct (bool_decide_reflect (h !! "state" = Some "active")) as [Ha|]; [|done].
  cbn. apply wp_bind. eapply wp_call; [cbn; by rewrite Hd1, Hh|].
  intros d2 Hd2. rewrite bool_decide_false by naive_solver. cbn. split; [done|congruence].
Qed.

Lemma Run_refused key attempt body w h :
  get_hash (keyspace (w_db w)) key = inr h →
  h !! "state" ≠ Some "active" ∨ h !! "attempt_id" ≠ Some attempt →
  ∃ w' r, Run (guard_attempt key attempt body) w = (w', r) ∧
    keyspace (w_db w') = keyspace (w_db w) ∧
    (r = inr 0 ∨ delivery w ≠ Answered ∧ ∃ e, r = inl e).
Proof.
  intros Hh Hst. pose proof (guard_refuses key attempt body (w_db w) h Hh Hst) as Hw.
  destruct (Run_spec _ _ w Hw) as (w' & r & Hr & _ & Hd). exists w', r. split; [done|].
  destruct (delivery w).
  - destruct Hd as (a & -> & -> & ?). auto.
  - destruct Hd as [[e ->] ->]. split; [done|]. right. split; [done|]. by eexists.
  - destruct Hd as [[e ->] (a & _ & ?)]. split; [done|]. right. split; [done|]. by eexists.
Qed.

Lemma settle_stale s msg w S ks0 :
  Impl (Queue msg) ks0 (keyspace (w_db w)) S → stale (w_db w) msg →
  ∃ w' e, settle s msg w = (w', inl e) ∧ keyspace (w_db w') = keyspace (w_db w) ∧
    (delivery w = Answered → (∃ text, settled_text s msg = inr text) → e = ErrInvalidTransition).
Proof.
  intros HS Hst. destruct (settled_text s msg) as [e|text] eqn:Ht.
  { rewrite (settle_encode_error s msg w e Ht). eexists _, _. split_and!; [done..|].
    intros _ [? ?]. done. }
  assert (∃ h, get_hash (keyspace (w_db w)) (TaskKey (Queue msg) (ID msg)) = inr h ∧
    (h !! "state" ≠ Some "active" ∨ h !! "attempt_id" ≠ Some (AttemptID msg))) as (h & Hh & Hna).
  { destruct HS as (v & [HH _] & HI & _). exists (default ∅ (qv_task v !! ID msg)).
    split; [by apply Holds_hash|]. unfold stale, task_field in Hst.
    specialize (HH (KTask (ID msg))). cbn in HH. rewrite HH in Hst. unfold hash_val in Hst.
    case_decide as E; [rewrite E, !lookup_empty; by left|done]. }
  assert (∀ body prefix (k : TaskMessage),
    ∃ w' e, gbind (gwrap prefix (Run (guard_attempt (TaskKey (Queue msg) (ID msg)) (AttemptID msg) body)))
      (λ r, if r =? 0 then gerr ErrInvalidTransition else gret k) w = (w', inl e) ∧
      keyspace (w_db w') = keyspace (w_db w) ∧
      (delivery w = Answered → (∃ text0, inr text = inr text0 :> result string) → e = ErrInvalidTransition)) as Hrun.
  { intros body prefix k. destruct (Run_refused _ _ body w h Hh Hna) as (w' & r & Hr & Hk & Hres).
    unfold gbind, gwrap. rewrite Hr. destruct Hres as [-> | [Hnd [e ->]]]; eexists _, _; split_and!; done. }
  destruct s; cbn [settle settled_text] in *;
    unfold Store.AckSuccess, Store.ScheduleRetry, Store.Archive, Store.Requeue; cbn [settled] in Ht;
    try (unfold gbind at 1, gwrap at 1, gresult; rewrite Ht); apply Hrun.
Qed.

(** C4: Fencing. A worker whose attempt no longer owns the task (the task is not active,
    or is active under another attempt) can never end it: whatever the network does, each
    of the four methods answers an error and leaves the keyspace exactly as it was; when
    the command is answered and the envelope can be encoded, the error is
    [ErrInvalidTransition]. *)
Theorem stale_attempt_rejected s msg w :
  reachable (w_db w) → plain_queue (Queue msg) → stale (w_db w) msg →
  ∃ w' e, settle s msg w = (w', inl e) ∧ keyspace (w_db w') = keyspace (w_db w) ∧
    (delivery w = Answered → (∃ text, settled_text s msg = inr text) → e = ErrInvalidTransition).
Proof.
  intros Hd Hq Hst. destruct (reachable_Stored _ Hd _ Hq) as [S HS]. by eapply settle_stale.
Qed.

(** *** One end per attempt *)

(** A settlement that answered leaves every queue implemented and its attempt without
    the task. *)
Lemma settle_success s msg w w1 m1 :
  Stored (keyspace (w_db w)) → plain_queue (Queue msg) → settle s msg w = (w1, inr m1) →
  Stored (keyspace (w_db w1)) ∧
  ∃ S', Impl (Queue msg) (keyspace (w_db w1)) (keyspace (w_db w1)) S' ∧
    ¬ owned (ID msg) (AttemptID msg) S'.
Proof.
  intros HA Hq Hok. destruct (HA _ Hq) as [S HS].
  destruct (settled_text s msg) as [e|text] eqn:Ht.
  { rewrite (settle_encode_error s msg w e Ht) in Hok. done. }
  pose proof (settle_refines _ _ s msg w S text HS eq_refl Ht) as Hop. rewrite Hok in Hop.
  unfold op_spec in Hop. destruct (or_refuse _ _ _ _) as [ra S'] eqn:Ho.
  destruct Hop as [_ Hop]. assert (delivery w = Answered) as Hdel.
  { destruct (delivery w); [done|naive_solver..]. }
  rewrite Hdel in Hop. destruct Hop as [<- Hop].
  destruct (s_settle s msg text S) as [S0|] eqn:HS'; cbn in Ho; [|done].
  injection Ho as _ ->.
  split.
  - intros q' Hq'. destruct (decide (Queue msg = q')) as [<-|Hne].
    + eexists. by eapply Impl_rebase.
    + destruct (HA q' Hq') as [Sq HSq]. exists Sq. by eapply (Impl_frame (Queue msg) q').
  - exists S'. split; [by eapply Impl_rebase|]. destruct s; (eapply finish_not_owned; [|exact HS']); done.
Qed.

(** C5: An attempt ends at most once. After one of the four methods has ended the attempt
    of a message successfully, every later call of any of the four with that message is
    rejected with an error and changes nothing, whatever requests any clients made in
    between on any queues, as long as no claim reused the (random, 128 bit) attempt id. *)
Theorem attempt_ends_once s s' msg w w1 m1 rqs d2 net :
  reachable (w_db w) → plain_queue (Queue msg) → settle s msg w = (w1, inr m1) →
  history rqs (w_db w1) d2 → no_claim (AttemptID msg) (requests_on (Queue msg) rqs) →
  ∃ w' e, settle s' msg (World d2 net) = (w', inl e) ∧ keyspace (w_db w') = keyspace d2.
Proof.
  intros Hd Hq Hok Hh Hc.
  destruct (settle_success s msg w w1 m1 (reachable_Stored _ Hd) Hq Hok) as (HA & S' & HS' & Hno).
  destruct (history_sim rqs _ _ _ S' Hh Hq HA HS') as [_ HS2].
  apply (asteps_not_owned _ _ _ _ Hc) in Hno.
  destruct (settle_stale s' msg (World d2 net) _ _ HS2) as (w' & e & ? & ? & _); [|by eauto].
  unfold stale. rewrite (task_field_state _ _ _ _ HS2), (task_field_attempt _ _ _ _ HS2). cbn.
  destruct (aq_tasks _ !! ID msg) as [t|] eqn:Ht; [|by left].
  destruct (at_status t) as [| |a l| | |] eqn:E; cbn; try (by left; rewrite E).
  right. rewrite E. cbn. intros [= ->]. apply Hno. by exists t, l.
Qed.
End settling.

(** ** Witnesses *)

(** A database where task "b" is active under attempt "t1". *)
Definition active_db : keyspace_t := mem_run (take 4 sample_history).

Lemma active_reachable : reachable (H := RedisMem) active_db.
Proof. apply mem_run_reachable; [repeat constructor|by vm_compute]. Qed.

Definition b_msg (attempt : string) : TaskMessage := set_AttemptID attempt (sample "b" 5 (2 * Second)).

Lemma pair_snd {A B} (x : A * B) b : x.2 = b → x = (x.1, b).
Proof. intros <-. by destruct x. Qed.

(** The step of a concrete request, given what its script answers. *)
Lemma executes_run `{Redis} q r d :
  plain_queue q → request_ok r → creates r = false → (request_script q r d).2 = inr tt →
  db_step d (request_script q r d).1.
Proof.
  intros Hq Hok Hc Hr. exists q, r. split_and!; [done..|by rewrite Hc|].
  by apply pair_snd.
Qed.

Definition replayed_db : keyspace_t := (request_script (H := RedisMem) "emails" (RqReplay "b" "B4") sample_db).1.
Definition deleted_db : keyspace_t := (request_script (H := RedisMem) "emails" (RqDelete "b") sample_db).1.

Lemma replay_step : db_step (H := RedisMem) sample_db replayed_db.
Proof. by apply (executes_run (H := RedisMem)); vm_compute. Qed.
Lemma delete_step : db_step (H := RedisMem) sample_db deleted_db.
Proof. by apply (executes_run (H := RedisMem)); vm_compute. Qed.

Lemma requests_follow_state_machine_witness :
  state_edge (task_field (H := RedisMem) sample_db "emails" "b" "state")
             (task_field (H := RedisMem) replayed_db "emails" "b" "state") = true.
Proof.
  apply (requests_follow_state_machine (H := RedisMem)); [apply sample_reachable|apply replay_step|reflexivity].
Defined.

(** A database where task "b" is completed, and one more claim on it. *)
Definition completed_db : keyspace_t :=
  mem_run (take 4 sample_history ++ [("emails", RqAck (4 * Second) "b" "t1" "B2")]).
Definition completed_db' : keyspace_t :=
  (request_script (H := RedisMem) "emails" (RqClaim (5 * Second) Second "t2") completed_db).1.

Lemma completed_is_final_witness :
  task_field (H := RedisMem) completed_db' "emails" "b" "state" = Some StateCompleted ∧
  task_field (H := RedisMem) completed_db' "emails" "b" "msg" =
    task_field (H := RedisMem) completed_db "emails" "b" "msg".
Proof.
  apply (completed_is_final (H := RedisMem) completed_db).
  - apply mem_run_reachable; [repeat constructor|by vm_compute].
  - by apply rtc_once, (executes_run (H := RedisMem)); vm_compute.
  - reflexivity.
  - by vm_compute.
Defined.

Lemma no_task_lost_witness :
  ∃ d1 d2, rtc db_step sample_db d1 ∧ db_step d1 d2 ∧ rtc db_step d2 deleted_db ∧
    task_field (H := RedisMem) d1 "emails" "b" "state" = Some StateArchived ∧
    keyspace d2 !! TaskKey "emails" "b" = None.
Proof.
  apply (no_task_lost (H := RedisMem)); [apply sample_reachable|apply rtc_once, delete_step|reflexivity| |].
  - vm_compute. by eexists.
  - by vm_compute.
Defined.

Lemma settle_correct_witness :
  ∃ S, op_spec (H := RedisMem) "emails" active_db "ack task" S
    (or_refuse (settled (SAck Second) (b_msg "t1")) ErrInvalidTransition S
       (s_ack "b" "t1" (message_text (settled (SAck Second) (b_msg "t1"))) S))
    (World (H := RedisMem) active_db []) (settle (SAck Second) (b_msg "t1") (World (H := RedisMem) active_db [])).
Proof.
  destruct (reachable_Stored (H := RedisMem) _ active_reachable "emails" eq_refl) as [S HS]. exists S.
  exact (settle_correct (H := RedisMem) (SAck Second) (b_msg "t1") (World (H := RedisMem) active_db []) S active_db HS).
Defined.

Lemma stale_attempt_rejected_witness :
  ∃ w' e, settle (H := RedisMem) (SAck Second) (b_msg "t0") (World (H := RedisMem) active_db []) = (w', inl e) ∧
    w_db w' = active_db ∧ e = ErrInvalidTransition.
Proof.
  destruct (stale_attempt_rejected (H := RedisMem) (SAck Second) (b_msg "t0") (World (H := RedisMem) active_db []))
    as (w' & e & Hs & Hk & He).
  - apply active_reachable.
  - reflexivity.
  - right. vm_compute. discriminate.
  - exists w', e. split; [exact Hs|]. split; [exact Hk|]. apply He; [reflexivity|]. vm_compute. by eexists.
Defined.

(** The world after task "b" was retried by its owner. *)
Definition retried_world : world (H := RedisMem) :=
  (settle (SRetry Second (9 * Second) "boom") (b_msg "t1") (World (H := RedisMem) active_db [])).1.

Lemma attempt_ends_once_witness :
  ∃ w' e, settle (H := RedisMem) (SAck Second) (b_msg "t1") retried_world = (w', inl e) ∧
    w_db w' = w_db retried_world.
Proof.
  apply (attempt_ends_once (H := RedisMem) (SRetry Second (9 * Second) "boom") (SAck Second) (b_msg "t1")
    (World (H := RedisMem) active_db []) retried_world
    (settled (SRetry Second (9 * Second) "boom") (b_msg "t1")) [] (w_db retried_world) []).
  - apply active_reachable.
  - reflexivity.
  - apply pair_snd. vm_compute. reflexivity.
  - constructor.
  - intros now lease Hin. by apply elem_of_nil in Hin.
Defined.

(** *** Identifiers that are not UTF-8

    [Enqueue] accepts any non-empty identifier, but JSON replaces a byte that is not UTF-8:
    the worker that claims such a task gets another identifier, and its acknowledgement is
    refused. *)

Definition latin1_msg : TaskMessage :=
  mkTaskMessage (String "233"%char "") "send" [] "emails" 0 3 0 0 zeroTime zeroTime StatePending "" "" zeroTime zeroTime Second.

Lemma invalid_id_unsettled :
  let w0 := World (H := RedisMem) ∅ [] in
  let '(w1, enqueued) := Store.Enqueue (Some latin1_msg) w0 in
  let '(w2, claimed) := Store.Claim Second (inr [Byte.x0a]) "emails" Second Second w1 in
  match enqueued, claimed with
  | inr m1, inr m2 =>
      ID m1 = String "233"%char "" ∧ ID m2 = String "239"%char (String "191"%char (String "189"%char "")) ∧
      (settle (SAck Second) m2 w2).2 = inl ErrInvalidTransition
  | _, _ => False
  end.
Proof. vm_compute. done. Qed.
