(* ===== verification/Rank.v ===== *)
(** * The rank of a pending task ([taskRank])

    The score of the pending set is computed in double precision from the priority and
    the creation time. Why it still orders the tasks by priority first and age second. *)

From S2P Require Import Prelude GoLib Model Redis RedisMem Keys Codec JsonCodec Store.
From S2P Require Import StoreRefine.

(** Rounding the two parts and their sum moves a rank by less than a tenth of the distance
    between two priorities. *)
Lemma rankScore_error p ms :
  Z.abs p ≤ 2 ^ 49 → 0 ≤ ms < 10 ^ 13 →
  Z.abs (rankScore p ms - (- p * 10 ^ 15 + ms)) ≤ 2 ^ 45 + 2 ^ 46.
Proof.
  intros Hp Hms. unfold rankScore. rewrite (rnd53_exact p), (rnd53_exact ms) by lia.
  pose proof (rnd53_error (- p * 10 ^ 15) 99 ltac:(lia) ltac:(lia)) as E1.
  set (x := rnd53 (- p * 10 ^ 15)) in *.
  pose proof (rnd53_error (x + ms) 100 ltac:(lia) ltac:(lia)) as E2. lia.
Qed.

Lemma rankScore_exact p ms :
  Z.abs p ≤ 8 → 0 ≤ ms < 10 ^ 13 → rankScore p ms = - p * 10 ^ 15 + ms.
Proof.
  intros Hp Hms. unfold rankScore.
  rewrite (rnd53_exact p), (rnd53_exact ms), (rnd53_exact (- p * 10 ^ 15)) by lia.
  apply rnd53_exact. lia.
Qed.

Lemma rankScore_mono p ms ms' : ms ≤ ms' → rankScore p ms ≤ rankScore p ms'.
Proof. intros Hms. unfold rankScore. pose proof (rnd53_mono ms ms' Hms). apply rnd53_mono. lia. Qed.

(** C30: The double-precision rank respects priority and age. For creation times in the
    years 1970 to 2286: of two tasks whose priorities are at most 2^49 in magnitude, the one
    of higher priority has the strictly smaller rank, however old the other one is; of two
    tasks of one priority the older one has the smaller or equal rank, strictly smaller if
    its priority is at most 8 in magnitude and its creation millisecond is earlier. The text
    sent to the server is read back as exactly this rank. *)
Theorem taskRank_orders `{Redis} m m' :
  0 ≤ UnixMilli (CreatedAt m) < 10 ^ 13 → 0 ≤ UnixMilli (CreatedAt m') < 10 ^ 13 →
  (parse_score (taskRank m) = Some (msg_rank m)) ∧
  (Z.abs (Priority m) ≤ 2 ^ 49 → Z.abs (Priority m') ≤ 2 ^ 49 →
     Priority m > Priority m' → msg_rank m < msg_rank m') ∧
  (Priority m = Priority m' → UnixMilli (CreatedAt m) ≤ UnixMilli (CreatedAt m') →
     msg_rank m ≤ msg_rank m') ∧
  (Priority m = Priority m' → Z.abs (Priority m) ≤ 8 →
     UnixMilli (CreatedAt m) < UnixMilli (CreatedAt m') → msg_rank m < msg_rank m').
Proof.
  intros Hm Hm'. unfold msg_rank. split_and!.
  - apply parse_taskRank.
  - intros Hp Hp' Hgt. pose proof (rankScore_error _ _ Hp Hm). pose proof (rankScore_error _ _ Hp' Hm'). lia.
  - intros <- Hle. by apply rankScore_mono.
  - intros <- Hp Hlt. rewrite !rankScore_exact by done. lia.
Qed.

Definition ranked (priority : Z) (created : Time) : TaskMessage :=
  mkTaskMessage "a" "send" [] "emails" priority 3 0 0 zeroTime zeroTime StatePending "" "" zeroTime
    zeroTime created.

Lemma taskRank_orders_witness :
  msg_rank (ranked 1 (1700000000 * Second)) < msg_rank (ranked 0 Second).
Proof.
  destruct (taskRank_orders (H := RedisMem) (ranked 1 (1700000000 * Second)) (ranked 0 Second)) as (_ & Hp & _).
  - vm_compute. split; [discriminate|reflexivity].
  - vm_compute. split; [discriminate|reflexivity].
  - refine (Hp _ _ _); cbn [Priority ranked]; lia.
Defined.
