(* ===== verification/QueueTheorems.v ===== *)
(** * The store's operations on one queue

    What each method of the store answers and does, on every branch and under every
    behaviour of the network: creating, claiming, reading, moving due tasks, renewing
    leases, listing expired leases and counting. *)

From S2P Require Import Prelude GoLib Model Storage Redis RedisMem Keys Scripts Codec.
From S2P Require Import JsonCodec Store QueueView QueueSpec QueueInv ScriptSpecs StoreRefine.
From S2P Require Import Requests QueueProps History StoreTheorems TaskLifecycle.

(** ** The order of claims *)

(** Among the pending tasks, [id] has the smallest rank and, of those, arrived first. *)
Definition first_pending (S : aqueue) (id : string) (t : atask) : Prop :=
  aq_tasks S !! id = Some t ∧ at_status t = APending ∧
  ∀ id' t', aq_tasks S !! id' = Some t' → at_status t' = APending → id' ≠ id →
    at_rank t < at_rank t' ∨ (at_rank t = at_rank t' ∧ at_seq t < at_seq t').

Definition none_pending (S : aqueue) : Prop :=
  ∀ id t, aq_tasks S !! id = Some t → at_status t ≠ APending.

Lemma member_of_le S id id' t t' :
  aq_wf S → aq_seq S ≤ 2 ^ 53 → aq_tasks S !! id = Some t → aq_tasks S !! id' = Some t' → id' ≠ id →
  String.le (member_of id t) (member_of id' t') → at_seq t < at_seq t'.
Proof.
  intros HW Hs Ht Ht' Hne Hle. pose proof (wf_bound _ HW _ _ Ht). pose proof (wf_bound _ HW _ _ Ht').
  assert (at_seq t ≠ at_seq t') as Hns by (intros E; apply Hne; by eapply (wf_unique _ HW)).
  unfold member_of in Hle. rewrite !rnd53_exact in Hle by lia.
  pose proof (rankMember_compare (at_seq t) (at_seq t') id id' ltac:(lia) ltac:(lia) Hns) as Hc.
  destruct (Z.compare_spec (at_seq t) (at_seq t')); [done|done|].
  exfalso. revert Hle. unfold String.le, String.leb. by rewrite Hc.
Qed.

Lemma next_pending_spec S :
  aq_wf S → aq_seq S ≤ 2 ^ 53 →
  match next_pending S with
  | Some id => ∃ t, first_pending S id t
  | None => none_pending S
  end.
Proof.
  intros HW Hs. unfold next_pending. destruct (zsorted (aq_zset ZRank S)) as [|[m s] l] eqn:Hz; cbn.
  - intros id t Ht Hst. assert ((member_of id t, at_rank t) ∈ zsorted (aq_zset ZRank S)) as Hin.
    { apply elem_of_zsorted, aq_zset_lookup. exists id, t. unfold zpart. by rewrite Hst. }
    rewrite Hz in Hin. by apply elem_of_nil in Hin.
  - assert (aq_zset ZRank S !! m = Some s) as Hm by (apply elem_of_zsorted; rewrite Hz; left).
    destruct (pending_member S m s Hm) as (t & Ht & Hst & Hmt & Hrank). exists t.
    split_and!; [done..|]. intros id' t' Ht' Hst' Hne.
    assert ((member_of id' t', at_rank t') ∈ zsorted (aq_zset ZRank S)) as Hin.
    { apply elem_of_zsorted, aq_zset_lookup. exists id', t'. unfold zpart. by rewrite Hst'. }
    pose proof (zsorted_head _ _ _ _ Hz Hin) as Hle. unfold zle in Hle. cbn in Hle.
    subst s. destruct Hle as [?|[? Hle]]; [by left|]. right. split; [done|].
    rewrite Hmt in Hle. by eapply (member_of_le S _ id').
Qed.

(** A method answered without a fault does what its specification says. *)
Lemma op_spec_answered `{Redis} {A} q ks0 prefix S (exp : result A * aqueue) w res :
  op_spec q ks0 prefix S exp w res → delivery w = Answered →
  ∃ w', res = (w', exp.1) ∧ w_net w' = tail (w_net w) ∧ Impl q ks0 (keyspace (w_db w')) exp.2.
Proof.
  destruct exp as [ra S'], res as [w' r]. unfold op_spec. intros [Hn Hd] E. rewrite E in Hd.
  destruct Hd as [-> ?]. eauto.
Qed.

Lemma Impl_wf `{Redis} q ks0 ks S : Impl q ks0 ks S → aq_wf S.
Proof. by intros (v & _ & _ & ?). Qed.

Section queue.
Context `{Redis, TaskCodec}.

(** ** Creating tasks *)

(** C11: Creating a task, on every branch. [Enqueue] and [Schedule] answer the validation
    error of an invalid message, and the encoding error of one that cannot be encoded,
    without touching the database; [Schedule] also refuses a zero run time. Otherwise
    the task is added under its id, pending or scheduled for its run time, with the next
    arrival number and the rank of its priority and creation time; if the id is taken,
    [ErrTaskExists] is answered and nothing changes. Faults of the network act as for
    every method. *)
Theorem create_correct msg w S ks0 :
  Impl (Queue msg) ks0 (keyspace (w_db w)) S → counter_left (Queue msg) (keyspace (w_db w)) →
  match Validate (Some msg) with
  | Some err =>
      Store.Enqueue (Some msg) w = (w, inl err) ∧ Store.Schedule (Some msg) w = (w, inl err)
  | None =>
      match Marshal msg with
      | inl e => Store.Enqueue (Some msg) w = (w, inl (Errorf_w "encode task" e))
      | inr text =>
          op_spec (Queue msg) ks0 "enqueue task" S
            (or_refuse (set_State StatePending msg) ErrTaskExists S
               (s_add (ID msg) text (msg_rank msg) APending S)) w (Store.Enqueue (Some msg) w)
      end ∧
      if IsZero (RunAt msg)
      then Store.Schedule (Some msg) w = (w, inl (errors_New "scheduled task run time is required"))
      else
        match Marshal msg with
        | inl e => Store.Schedule (Some msg) w = (w, inl (Errorf_w "encode task" e))
        | inr text =>
            op_spec (Queue msg) ks0 "schedule task" S
              (or_refuse (set_State StateScheduled msg) ErrTaskExists S
                 (s_add (ID msg) text (msg_rank msg) (AScheduled (score_ms (RunAt msg))) S)) w
              (Store.Schedule (Some msg) w)
        end
  end.
Proof.
  intros HS Hc. pose proof (Impl_counter _ _ _ _ HS Hc) as Hmax.
  destruct (Validate (Some msg)) as [err|] eqn:Hv.
  { unfold Store.Enqueue, Store.Schedule. by rewrite Hv. }
  assert (valid_message msg) as Hvm.
  { apply Validate_nil_iff in Hv as (m & [= <-] & ?). done. }
  split.
  - destruct (Marshal msg) as [e|text] eqn:Hm; [|by apply Enqueue_refines].
    unfold Store.Enqueue, gbind, gwrap, gresult. by rewrite Hv, Hm.
  - destruct (IsZero (RunAt msg)) eqn:Hz; [unfold Store.Schedule; by rewrite Hv, Hz|].
    destruct (Marshal msg) as [e|text] eqn:Hm; [|by apply Schedule_refines].
    unfold Store.Schedule, gbind, gwrap, gresult. by rewrite Hv, Hz, Hm.
Qed.

(** ** Claiming *)

Lemma claim_first leaseDuration bs q now lease w S ks0 :
  Impl q ks0 (keyspace (w_db w)) S → aq_seq S ≤ 2 ^ 53 → delivery w = Answered →
  let attempt := hex_EncodeToString bs in
  let expiry := score_ms (Add now (Store.lease_or_default leaseDuration lease)) in
  ∃ w' r, Store.Claim leaseDuration (inr bs) q now lease w = (w', r) ∧
    ((none_pending S ∧ r = inl ErrQueueEmpty ∧ Impl q ks0 (keyspace (w_db w')) S) ∨
     ∃ id t, first_pending S id t ∧ r = decode_claim attempt (at_msg t) ∧
       Impl q ks0 (keyspace (w_db w')) (aq_put id (with_status (AActive attempt expiry) t) S)).
Proof.
  intros HS Hs Hd attempt expiry.
  destruct (op_spec_answered _ _ _ _ _ _ _ (Claim_refines q ks0 leaseDuration bs now lease w S HS) Hd)
    as (w' & Hr & _ & HI). eexists w', _. split; [done|].
  pose proof (next_pending_spec S (Impl_wf _ _ _ _ HS) Hs) as Hn.
  unfold s_claim in *. destruct (next_pending S) as [id|].
  - destruct Hn as [t Hf]. pose proof Hf as (Ht & _). right. exists id, t. split; [done|].
    revert HI. cbn. rewrite Ht. done.
  - left. split; [done|]. split; [done|]. exact HI.
Qed.

(** C12: A claim takes the right task. When the random source works and the command is
    answered, [Claim] answers [ErrQueueEmpty], and changes nothing, if no task is
    pending; otherwise it takes the pending task of smallest rank and, among equal
    ranks, the one that arrived first, leaves it active under the new attempt until the
    lease expires, and answers its decoded envelope, active and carrying the attempt.
    (The queue has accepted at most 2^53 tasks, beyond which arrival numbers are rounded.) *)
Theorem Claim_takes_first leaseDuration bs q now lease w S ks0 :
  Impl q ks0 (keyspace (w_db w)) S → aq_seq S ≤ 2 ^ 53 → delivery w = Answered →
  let attempt := hex_EncodeToString bs in
  let expiry := score_ms (Add now (Store.lease_or_default leaseDuration lease)) in
  ∃ w' r, Store.Claim leaseDuration (inr bs) q now lease w = (w', r) ∧
    ((none_pending S ∧ r = inl ErrQueueEmpty ∧ Impl q ks0 (keyspace (w_db w')) S) ∨
     ∃ id t, first_pending S id t ∧ r = decode_claim attempt (at_msg t) ∧
       Impl q ks0 (keyspace (w_db w')) (aq_put id (with_status (AActive attempt expiry) t) S)).
Proof. apply claim_first. Qed.

(** ** Reading *)

(** [Get] reads the task of an id: [ErrTaskNotFound] for an id that is not stored;
    otherwise the stored envelope with the state of the task, with the attempt id of the
    task if and only if it is active; it never changes the queue. *)
Theorem Get_correct q id w S ks0 :
  Impl q ks0 (keyspace (w_db w)) S →
  op_spec q ks0 "get task" S
    (match aq_tasks S !! id with
     | None => inl ErrTaskNotFound
     | Some t =>
         match Unmarshal (at_msg t), at_status t with
         | inl e, _ => inl (Errorf_w "decode task" e)
         | inr m, AActive "" _ => inl (errors_New "get task: active attempt id is missing")
         | inr m, st =>
             inr (set_AttemptID (default "" (attempt_of st)) (set_State (state_name st) m))
         end
     end, S) w (Store.Get q id w).
Proof.
  intros HS. pose proof (Get_refines q ks0 id w S HS) as Hg. unfold get_exp in Hg.
  destruct (aq_tasks S !! id) as [t|]; [|done]. destruct (Unmarshal (at_msg t)) as [e|m]; [done|].
  destruct (at_status t) as [| |a l| | |] eqn:E; cbn in *; try done. destruct a, m; exact Hg.
Qed.

(** ** Round trips *)

Lemma enqueue_fresh msg w S ks0 text :
  Impl (Queue msg) ks0 (keyspace (w_db w)) S → counter_left (Queue msg) (keyspace (w_db w)) →
  valid_message msg → Marshal msg = inr text → aq_tasks S !! ID msg = None → w_net w = [] →
  ∃ w', Store.Enqueue (Some msg) w = (w', inr (set_State StatePending msg)) ∧ w_net w' = [] ∧
    Impl (Queue msg) ks0 (keyspace (w_db w'))
      (AQueue (<[ID msg := ATask text (msg_rank msg) (aq_seq S + 1) APending]> (aq_tasks S)) (aq_seq S + 1)).
Proof.
  intros HS Hc Hv Hm Hf Hn. pose proof (Impl_counter _ _ _ _ HS Hc) as Hmax.
  pose proof (Enqueue_refines _ _ msg w S text HS eq_refl Hmax Hv Hm) as Hop.
  unfold s_add in Hop. rewrite Hf in Hop.
  destruct (op_spec_answered _ _ _ _ _ _ _ Hop) as (w' & Hr & Hn' & HI).
  { unfold delivery. by rewrite Hn. }
  exists w'. rewrite Hn in Hn'. done.
Qed.

Lemma quiet_answered w : w_net w = [] → delivery w = Answered.
Proof. intros E. unfold delivery. by rewrite E. Qed.

(** C29: What goes in comes out. On a queue with nothing pending, a valid message under a
    fresh id that JSON can represent is accepted by [Enqueue]; [Get] then reads the very
    same message back, pending and without attempt; and [Claim] hands the very same
    message to the worker, active and with the new attempt id. *)
Theorem enqueue_get_claim_roundtrip leaseDuration bs now lease msg w S ks0 :
  Impl (Queue msg) ks0 (keyspace (w_db w)) S → aq_seq S < 2 ^ 53 →
  valid_message msg → json_safe msg → aq_tasks S !! ID msg = None → none_pending S → w_net w = [] →
  ∃ w1 w2 w3, Store.Enqueue (Some msg) w = (w1, inr (set_State StatePending msg)) ∧
    Store.Get (Queue msg) (ID msg) w1 = (w2, inr (set_AttemptID "" (set_State StatePending msg))) ∧
    Store.Claim leaseDuration (inr bs) (Queue msg) now lease w2 =
      (w3, inr (set_AttemptID (hex_EncodeToString bs) (set_State StateActive msg))).
Proof.
  intros HS Hs Hv Hj Hf Hnp Hn. destruct (Unmarshal_Marshal msg Hj) as (text & Hm & Hu).
  assert (counter_left (Queue msg) (keyspace (w_db w))) as Hc.
  { intros Hc. destruct HS as (v & [HH _] & HI & _). specialize (HH KSeq). cbn in HH.
    rewrite Hc, (inv_seq _ _ HI) in HH. unfold seq_val in HH. case_match; [done|].
    injection HH as E%FormatInt_inj. unfold MaxInt64 in E. lia. }
  destruct (enqueue_fresh msg w S ks0 text HS Hc Hv Hm Hf Hn) as (w1 & He & Hn1 & H1).
  set (S1 := AQueue _ _) in H1.
  destruct (op_spec_answered _ _ _ _ _ _ _ (Get_refines _ _ (ID msg) w1 S1 H1) (quiet_answered _ Hn1))
    as (w2 & Hg & Hn2 & H2). rewrite Hn1 in Hn2.
  assert (aq_tasks S1 !! ID msg = Some (ATask text (msg_rank msg) (aq_seq S + 1) APending)) as Ht.
  { cbn. by rewrite lookup_insert_eq. }
  destruct (claim_first leaseDuration bs _ now lease w2 S1 ks0 H2) as (w3 & r & Hcl & Hcase);
    [cbn; lia|by apply quiet_answered|].
  exists w1, w2, w3. split; [done|]. split.
  { rewrite Hg. unfold get_exp. cbn [fst]. rewrite Ht. cbn. by rewrite Hu. }
  rewrite Hcl. destruct Hcase as [(Hno & _)|(id & t & (Hid & Hst & _) & -> & _)].
  { by destruct (Hno _ _ Ht). }
  cbn in Hid. apply lookup_insert_Some in Hid as [[<- <-]|[_ Hid]].
  - unfold decode_claim. cbn. by rewrite Hu.
  - by destruct (Hnp _ _ Hid).
Qed.
End queue.

(** ** Witnesses *)

Definition sample_queue : aqueue := mem_queue "emails" sample_history.

Lemma sample_Impl : Impl (H := RedisMem) "emails" sample_db sample_db sample_queue.
Proof. apply mem_run_Impl; [apply sample_history_ok|by vm_compute|done]. Qed.

Definition sample_world : world (H := RedisMem) := World (H := RedisMem) sample_db [].

Lemma create_correct_witness :
  ∃ w', Store.Enqueue (H := RedisMem) (Some (sample "a" 0 Second)) sample_world = (w', inl ErrTaskExists).
Proof.
  pose proof (create_correct (H := RedisMem) (sample "a" 0 Second) sample_world sample_queue sample_db
    sample_Impl ltac:(vm_compute; discriminate)) as Hc.
  assert (Validate (Some (sample "a" 0 Second)) = None) as E by (vm_compute; reflexivity).
  rewrite E in Hc. destruct Hc as [He _].
  assert (∀ text rank, s_add (ID (sample "a" 0 Second)) text rank APending sample_queue = None) as Ea.
  { intros. unfold s_add.
    assert (is_Some (aq_tasks sample_queue !! ID (sample "a" 0 Second))) as [t ->] by (vm_compute; by eexists).
    reflexivity. }
  encode_in (sample "a" 0 Second) He. rewrite Ea in He.
  destruct (op_spec_answered _ _ _ _ _ _ _ He eq_refl) as (w' & Hr & _). exists w'. exact Hr.
Defined.

Lemma Claim_takes_first_witness :
  ∃ w' id t, Store.Claim (H := RedisMem) Second (inr [Byte.x0a]) "emails" Second Second sample_world =
    (w', decode_claim "0a" (at_msg t)) ∧ first_pending sample_queue id t.
Proof.
  destruct (Claim_takes_first (H := RedisMem) Second [Byte.x0a] "emails" Second Second sample_world
    sample_queue sample_db sample_Impl ltac:(vm_compute; discriminate) eq_refl)
    as (w' & r & Hr & [(Hno & _)|(id & t & Hf & -> & _)]).
  - assert (∃ t, aq_tasks sample_queue !! "a" = Some t ∧ at_status t = APending) as (t & Ht & Hst)
      by (vm_compute; eexists; split; reflexivity).
    destruct (Hno "a" t Ht Hst).
  - exists w', id, t. split; [exact Hr|exact Hf].
Defined.

Lemma Get_correct_witness :
  ∃ w', Store.Get (H := RedisMem) "emails" "zzz" sample_world = (w', inl ErrTaskNotFound).
Proof.
  pose proof (Get_correct (H := RedisMem) "emails" "zzz" sample_world sample_queue sample_db sample_Impl) as Hg.
  assert (aq_tasks sample_queue !! "zzz" = None) as E by (vm_compute; reflexivity). rewrite E in Hg.
  destruct (op_spec_answered _ _ _ _ _ _ _ Hg eq_refl) as (w' & Hr & _). exists w'. exact Hr.
Defined.

Definition image_msg : TaskMessage :=
  mkTaskMessage "i" "resize" [Byte.xff] "images" 0 3 0 0 zeroTime zeroTime StatePending "" "" zeroTime
    zeroTime Second.

Lemma enqueue_get_claim_roundtrip_witness :
  ∃ w1 w2 w3, Store.Enqueue (H := RedisMem) (Some image_msg) (World (H := RedisMem) ∅ []) =
      (w1, inr (set_State StatePending image_msg)) ∧
    Store.Get "images" "i" w1 = (w2, inr (set_AttemptID "" (set_State StatePending image_msg))) ∧
    Store.Claim Second (inr [Byte.x0a]) "images" Second Second w2 =
      (w3, inr (set_AttemptID "0a" (set_State StateActive image_msg))).
Proof.
  refine (enqueue_get_claim_roundtrip (H := RedisMem) Second [Byte.x0a] Second Second image_msg
    (World (H := RedisMem) ∅ []) aq_empty ∅ (Impl_empty _) _ _ _ eq_refl _ eq_refl).
  - reflexivity.
  - vm_compute. repeat split; discriminate.
  - vm_compute. reflexivity.
  - intros id t Ht. discriminate Ht.
Defined.
