(* ===== verification/MoveTheorems.v ===== *)
(** * Moving due tasks, renewing leases, expired leases and counts

    [MoveReady] over any list of queues, [ExtendLease], [ExpiredIDs] and the counters. *)

From S2P Require Import Prelude GoLib Model Storage Redis RedisMem Keys Scripts Codec.
From S2P Require Import JsonCodec Store QueueView QueueSpec QueueInv ScriptSpecs StoreRefine.
From S2P Require Import Requests QueueProps History StoreTheorems TaskLifecycle QueueTheorems.

(** ** One pass over one queue *)

(** The scheduled tasks first, then the retries, at most [limit] of each. *)
Definition s_move_both (now limit : Z) (S : aqueue) : Z * aqueue :=
  let '(n, S1) := s_move ZSched now limit S in
  let '(n', S2) := s_move ZRetry now limit S1 in
  (n + n', S2).

(** The due time of a task that waits for one. *)
Definition due_time (st : astatus) : option Z :=
  match st with AScheduled due | ARetry due => Some due | _ => None end.

Definition is_due (now : Z) (t : atask) : bool :=
  match due_time (at_status t) with Some due => due <=? now | None => false end.

Lemma due_ids_iff z now S id :
  z ≠ ZRank →
  id ∈ due_ids z now S ↔ ∃ t s, aq_tasks S !! id = Some t ∧ zpart z id t = Some (id, s) ∧ s ≤ now.
Proof.
  intros Hz. unfold due_ids. rewrite list_elem_of_fmap. split.
  - intros ([m s] & -> & Hin). apply list_elem_of_filter in Hin as [Hs Hin].
    apply elem_of_zsorted, aq_zset_lookup in Hin as (i & t & Ht & Hp). exists t, s. cbn in *.
    assert (i = m) as ->; [|done]. unfold zpart in Hp.
    destruct z; [done|..]; destruct (at_status t); by simplify_eq.
  - intros (t & s & Ht & Hp & Hs). exists (id, s). split; [done|]. apply list_elem_of_filter.
    split; [done|]. apply elem_of_zsorted, aq_zset_lookup. eauto.
Qed.

Lemma due_ids_length z now S :
  z ≠ ZRank → (length (due_ids z now S) ≤ size (aq_tasks S))%nat.
Proof.
  intros Hz. rewrite <-size_dom, <-(size_list_to_set (C := gset string) (due_ids z now S)) by apply due_ids_NoDup.
  apply subseteq_size. intros id Hid%elem_of_list_to_set. apply elem_of_dom.
  apply due_ids_iff in Hid as (t & s & Ht & _); [by eexists|done].
Qed.

(** With room for every task, a pass makes pending exactly the tasks that are due. *)
Lemma s_move_all z now limit S id :
  waiting z → Z.of_nat (size (aq_tasks S)) ≤ limit →
  aq_tasks (s_move z now limit S).2 !! id =
    (λ t, match zpart z id t with
          | Some (_, s) => if s <=? now then with_status APending t else t
          | None => t
          end) <$> aq_tasks S !! id.
Proof.
  intros Hz Hl. assert (z ≠ ZRank) as Hzr by (by destruct Hz; subst).
  rewrite s_move_lookup. pose proof (due_ids_length z now S Hzr).
  rewrite take_ge by lia. destruct (aq_tasks S !! id) as [t|] eqn:Ht; cbn.
  - case_decide as Hin.
    + apply due_ids_iff in Hin as (t' & s & Ht' & Hp & Hs); [|done]. simplify_eq. rewrite Hp.
      by rewrite (proj2 (Z.leb_le _ _)).
    + destruct (zpart z id t) as [[m s]|] eqn:Hp; [|done]. destruct (s <=? now) eqn:Hs; [|done].
      destruct Hin. bool_to_prop. apply due_ids_iff; [done|]. exists t, s. split_and!; [done| |done].
      unfold zpart in *. destruct Hz as [-> | ->], (at_status t); by simplify_eq.
  - by case_decide.
Qed.

Lemma s_move_size z now limit S :
  dom (aq_tasks (s_move z now limit S).2) = dom (aq_tasks S).
Proof.
  apply set_eq. intros id. rewrite !elem_of_dom, s_move_lookup. case_decide; [|done].
  by rewrite fmap_is_Some.
Qed.

Lemma s_move_both_all now limit S id :
  Z.of_nat (size (aq_tasks S)) ≤ limit →
  aq_tasks (s_move_both now limit S).2 !! id =
    (λ t, if is_due now t then with_status APending t else t) <$> aq_tasks S !! id.
Proof.
  intros Hl. unfold s_move_both.
  pose proof (s_move_all ZSched now limit S id ltac:(by left) Hl) as H1.
  pose proof (s_move_size ZSched now limit S) as Hd.
  destruct (s_move ZSched now limit S) as [n S1]. cbn [snd] in *.
  assert (Z.of_nat (size (aq_tasks S1)) ≤ limit) as Hl1 by (rewrite <-size_dom, Hd, size_dom; done).
  pose proof (s_move_all ZRetry now limit S1 id ltac:(by right) Hl1) as H2.
  destruct (s_move ZRetry now limit S1) as [n' S2]. cbn [snd] in *. rewrite H2, H1.
  destruct (aq_tasks S !! id) as [t|]; [|done]. cbn. unfold zpart, is_due, due_time.
  destruct (at_status t) eqn:E; cbn; rewrite ?E; try done.
  all: destruct (_ <=? now); cbn; rewrite ?E; done.
Qed.

Section move.
Context `{Redis, TaskCodec}.

(** ** [MoveReady] *)

Lemma MoveReady_source_quiet q z now limit moved sources w S ks0 :
  waiting z → Impl q ks0 (keyspace (w_db w)) S → int64 limit → w_net w = [] →
  ∃ w', w_net w' = [] ∧ Impl q ks0 (keyspace (w_db w')) (s_move z (score_ms now) (rnd53 limit) S).2 ∧
    Store.MoveReady_sources now limit moved q (zkey q z :: sources) w =
      Store.MoveReady_sources now limit (moved + (s_move z (score_ms now) (rnd53 limit) S).1) q sources w'.
Proof.
  intros Hz HS Hl Hn.
  pose proof (MoveReady_source_refines q ks0 z now limit w S Hz HS Hl) as Hop.
  destruct (op_spec_answered _ _ _ _ _ _ _ Hop (quiet_answered _ Hn)) as (w' & Hr & Hn' & HI).
  rewrite Hn in Hn'. exists w'. split; [done|]. split; [done|].
  cbn [Store.MoveReady_sources]. unfold gwrap in Hr.
  destruct (Run _ w) as [w1 [e|n]]; [done|]. by injection Hr as -> ->.
Qed.

Lemma MoveReady_queue_quiet q now limit moved w S ks0 :
  Impl q ks0 (keyspace (w_db w)) S → int64 limit → w_net w = [] →
  ∃ w', w_net w' = [] ∧
    Impl q ks0 (keyspace (w_db w')) (s_move_both (score_ms now) (rnd53 limit) S).2 ∧
    Store.MoveReady_sources now limit moved q [ScheduledKey q; RetryKey q] w =
      (w', (moved + (s_move_both (score_ms now) (rnd53 limit) S).1, None)).
Proof.
  intros HS Hl Hn.
  destruct (MoveReady_source_quiet q ZSched now limit moved [RetryKey q] w S ks0) as (w1 & Hn1 & H1 & E1);
    [by left|done..|].
  destruct (MoveReady_source_quiet q ZRetry now limit (moved + (s_move ZSched (score_ms now) (rnd53 limit) S).1)
    [] w1 _ ks0 ltac:(by right) H1 Hl Hn1) as (w2 & Hn2 & H2 & E2).
  exists w2. unfold s_move_both. destruct (s_move ZSched _ _ S) as [n S1]. cbn [fst snd] in *.
  destruct (s_move ZRetry _ _ S1) as [n' S2]. cbn [fst snd] in *. split; [done|]. split; [done|].
  change (ScheduledKey q) with (zkey q ZSched). rewrite E1.
  change (RetryKey q) with (zkey q ZRetry). rewrite E2. cbn. by rewrite Z.add_assoc.
Qed.

Definition moved_total (now limit : Z) (Sq : string → aqueue) (queues : list string) : Z :=
  foldr (λ q n, (s_move_both now limit (Sq q)).1 + n) 0 queues.

Lemma MoveReady_queues_quiet now limit moved queues w Sq :
  int64 limit → NoDup queues → Forall plain_queue queues → w_net w = [] →
  (∀ q, plain_queue q → Impl q (keyspace (w_db w)) (keyspace (w_db w)) (Sq q)) →
  ∃ w', Store.MoveReady_queues now limit moved queues w =
      (w', (moved + moved_total (score_ms now) (rnd53 limit) Sq queues, None)) ∧ w_net w' = [] ∧
    ∀ q, plain_queue q → Impl q (keyspace (w_db w')) (keyspace (w_db w'))
      (if decide (q ∈ queues) then (s_move_both (score_ms now) (rnd53 limit) (Sq q)).2 else Sq q).
Proof.
  intros Hl. revert moved w Sq. induction queues as [|q queues IH]; intros moved w Sq Hnd Hpl Hn HS.
  { exists w. rewrite Z.add_0_r. split; [done|]. split; [done|]. intros q Hq.
    rewrite decide_False by (by intros ?%elem_of_nil). by apply HS. }
  apply NoDup_cons in Hnd as [Hnin Hnd]. apply Forall_cons in Hpl as [Hq Hpl].
  destruct (MoveReady_queue_quiet q now limit moved w _ _ (HS q Hq) Hl Hn) as (w1 & Hn1 & H1 & E1).
  destruct (IH (moved + (s_move_both (score_ms now) (rnd53 limit) (Sq q)).1) w1
    (λ q', if decide (q = q') then (s_move_both (score_ms now) (rnd53 limit) (Sq q')).2 else Sq q')
    Hnd Hpl Hn1) as (w' & Hr & Hn' & HI).
  { intros q' Hq'. case_decide; [subst; by eapply Impl_rebase|]. eapply (Impl_frame q q'); eauto. }
  exists w'. cbn [Store.MoveReady_queues]. rewrite E1, Hr. split; [|split; [done|]].
  - f_equal. f_equal. cbn [moved_total foldr]. rewrite <-Z.add_assoc. f_equal. f_equal.
    assert (∀ q', q' ∈ queues → q ≠ q') as Hne by (intros q' ? ->; done).
    clear -Hne. induction queues as [|q' qs IH]; [done|]. cbn [moved_total foldr].
    rewrite decide_False by (apply Hne; left). f_equal. apply IH. intros. apply Hne. by right.
  - intros q' Hq'. specialize (HI q' Hq'). revert HI. repeat case_decide; subst; done || set_solver.
Qed.

Lemma limit_or_default_int64 limit : int64 limit → int64 (Store.limit_or_default limit).
Proof.
  intros Hl. unfold Store.limit_or_default. case_match; [|done]. unfold int64, MinInt64, MaxInt64. lia.
Qed.

Lemma MoveReady_quiet now limit queues w Sq :
  int64 limit → NoDup queues → Forall plain_queue queues → w_net w = [] →
  (∀ q, plain_queue q → Impl q (keyspace (w_db w)) (keyspace (w_db w)) (Sq q)) →
  let lim := rnd53 (Store.limit_or_default limit) in
  ∃ w', Store.MoveReady now limit queues w =
      (w', (moved_total (score_ms now) lim Sq queues, None)) ∧ w_net w' = [] ∧
    ∀ q, plain_queue q → Impl q (keyspace (w_db w')) (keyspace (w_db w'))
      (if decide (q ∈ queues) then (s_move_both (score_ms now) lim (Sq q)).2 else Sq q).
Proof.
  intros Hl Hnd Hpl Hn HS lim. unfold Store.MoveReady.
  exact (MoveReady_queues_quiet now _ 0 queues w Sq (limit_or_default_int64 _ Hl) Hnd Hpl Hn HS).
Qed.

(** C31: A pass of [MoveReady] over distinct queues, with no fault of the network, makes
    pending the first [limit] (100 if not positive) due scheduled tasks and then the first
    [limit] due retries of each listed queue, earliest due time first; it answers how many
    it moved in all, and leaves every other queue as it was. *)
Theorem MoveReady_correct now limit queues w Sq :
  int64 limit → NoDup queues → Forall plain_queue queues → w_net w = [] →
  (∀ q, plain_queue q → Impl q (keyspace (w_db w)) (keyspace (w_db w)) (Sq q)) →
  let lim := rnd53 (Store.limit_or_default limit) in
  ∃ w', Store.MoveReady now limit queues w =
      (w', (moved_total (score_ms now) lim Sq queues, None)) ∧ w_net w' = [] ∧
    ∀ q, plain_queue q → Impl q (keyspace (w_db w')) (keyspace (w_db w'))
      (if decide (q ∈ queues) then (s_move_both (score_ms now) lim (Sq q)).2 else Sq q).
Proof. apply MoveReady_quiet. Qed.

(** No due task is left waiting, and none is moved early. If the limit (at most 2^53)
    covers the tasks of a listed queue, then after [MoveReady] exactly its scheduled and
    retried tasks whose due time has come are pending, with their envelope, rank and
    arrival number kept, and every other task is as it was. *)
Theorem MoveReady_moves_due now limit queues w Sq q :
  int64 limit → NoDup queues → Forall plain_queue queues → w_net w = [] →
  (∀ q, plain_queue q → Impl q (keyspace (w_db w)) (keyspace (w_db w)) (Sq q)) →
  q ∈ queues → Z.of_nat (size (aq_tasks (Sq q))) ≤ limit → 0 < limit ≤ 2 ^ 53 →
  ∃ w' n S', Store.MoveReady now limit queues w = (w', (n, None)) ∧
    Impl q (keyspace (w_db w')) (keyspace (w_db w')) S' ∧
    ∀ id, aq_tasks S' !! id =
      (λ t, if is_due (score_ms now) t then with_status APending t else t) <$> aq_tasks (Sq q) !! id.
Proof.
  intros Hl Hnd Hpl Hn HS Hq Hsz Hlim.
  destruct (MoveReady_quiet now limit queues w Sq Hl Hnd Hpl Hn HS) as (w' & Hr & _ & HI).
  assert (plain_queue q) as Hqp by (rewrite Forall_forall in Hpl; by apply Hpl).
  specialize (HI q Hqp). rewrite decide_True in HI by done.
  eexists w', _, _. split; [done|]. split; [done|]. intros id. apply s_move_both_all.
  unfold Store.limit_or_default. rewrite (proj2 (Z.leb_gt _ _)), rnd53_exact by lia. done.
Qed.

(** ** Leases *)

(** A task after the heartbeat of [owners]. *)
Definition renewed (lease : Z) (owners : list (string * string)) (id : string) (t : atask) : atask :=
  match at_status t with
  | AActive a _ => if decide ((id, a) ∈ owners) then with_status (AActive a lease) t else t
  | _ => t
  end.

Lemma s_extend1_lookup lease S i a id :
  aq_tasks (s_extend1 lease S (i, a)) !! id = renewed lease [(i, a)] id <$> aq_tasks S !! id.
Proof.
  unfold s_extend1, s_finish, renewed. cbn [fst snd].
  assert (∀ S', default S (Some S') = S') as Hdef by done.
  destruct (decide (i = id)) as [->|Hne].
  - destruct (aq_tasks S !! id) as [t|] eqn:Ht; cbn; [|done].
    destruct (at_status t) as [| |b l| | |] eqn:E; cbn; try done.
    destruct (String.eqb_spec b a) as [->|Hab].
    + rewrite Hdef. cbn. rewrite lookup_insert_eq, decide_True by (by left). done.
    + rewrite decide_False by (intros [= ?]%list_elem_of_singleton; done). done.
  - assert (∀ t, match at_status t with
      | AActive b _ => if decide ((id, b) ∈ [(i, a)]) then with_status (AActive b lease) t else t
      | _ => t end = t) as Hid.
    { intros t. destruct (at_status t); try done. rewrite decide_False; [done|].
      intros [= ? ?]%list_elem_of_singleton. done. }
    assert (∀ o : option atask, (λ t, match at_status t with
      | AActive b _ => if decide ((id, b) ∈ [(i, a)]) then with_status (AActive b lease) t else t
      | _ => t end) <$> o = o) as Hfid by (intros [t|]; cbn; [by rewrite Hid|done]).
    rewrite Hfid. repeat (case_match; try done). rewrite Hdef. cbn. by rewrite lookup_insert_ne.
Qed.

Lemma renewed_twice lease ia owners id t :
  renewed lease owners id (renewed lease [ia] id t) = renewed lease (ia :: owners) id t.
Proof.
  unfold renewed. destruct (at_status t) as [| |a l| | |] eqn:E; rewrite ?E; try done.
  destruct (decide ((id, a) ∈ [ia])) as [Hi|Hi]; cbn; rewrite ?E.
  - rewrite (decide_True _ _ (P := (id, a) ∈ ia :: owners)) by (apply list_elem_of_singleton in Hi as <-; left).
    by case_decide.
  - repeat case_decide; try done; set_solver.
Qed.

Lemma s_extend_exact lease owners S id :
  aq_tasks (s_extend lease owners S) !! id = renewed lease owners id <$> aq_tasks S !! id.
Proof.
  revert S. induction owners as [|[i a] owners IH]; intros S.
  - destruct (aq_tasks S !! id) as [t|] eqn:Ht; cbn; rewrite Ht; [|done]. unfold renewed. by destruct (at_status t).
  - change (s_extend lease ((i, a) :: owners) S) with (s_extend lease owners (s_extend1 lease S (i, a))).
    rewrite IH, s_extend1_lookup. destruct (aq_tasks S !! id) as [t|]; [|done]. cbn.
    by rewrite renewed_twice.
Qed.

Lemma extend_answered leaseDuration q tasks now lease w S ks0 :
  Impl q ks0 (keyspace (w_db w)) S →
  (lease_owners tasks = [] → Store.ExtendLease leaseDuration q tasks now lease w = (w, inr tt)) ∧
  (delivery w = Answered → ∃ w' S', Store.ExtendLease leaseDuration q tasks now lease w = (w', inr tt) ∧
     Impl q ks0 (keyspace (w_db w')) S' ∧
     ∀ id, aq_tasks S' !! id =
       renewed (score_ms (Add now (Store.lease_or_default leaseDuration lease)))
         (lease_owners tasks) id <$> aq_tasks S !! id).
Proof.
  intros HS. assert (lease_owners tasks = [] →
    Store.ExtendLease leaseDuration q tasks now lease w = (w, inr tt)) as Hnil.
  { intros E. unfold Store.ExtendLease. rewrite extend_args_owners, E. by destruct tasks. }
  split; [done|]. intros Hd. destruct (decide (lease_owners tasks = [])) as [E|E].
  - exists w, S. split; [by apply Hnil|]. split; [done|]. intros id. rewrite E.
    destruct (aq_tasks S !! id) as [t|]; [|done]. cbn. unfold renewed. by destruct (at_status t).
  - pose proof (ExtendLease_refines q ks0 leaseDuration tasks now lease w S HS E) as Hop.
    destruct (op_spec_answered _ _ _ _ _ _ _ Hop Hd) as (w' & Hr & _ & HI).
    eexists w', _. split; [done|]. split; [done|]. intros id. apply s_extend_exact.
Qed.

(** A heartbeat renews the leases of its owners and of nobody else. When the command
    is answered, [ExtendLease] sets the expiry of exactly those listed tasks that are still
    active under the listed attempt; a task that was settled, requeued or claimed again is
    untouched, as is every task not listed. With nothing to renew no command is sent. *)
Theorem ExtendLease_correct leaseDuration q tasks now lease w S ks0 :
  Impl q ks0 (keyspace (w_db w)) S →
  (lease_owners tasks = [] → Store.ExtendLease leaseDuration q tasks now lease w = (w, inr tt)) ∧
  (delivery w = Answered → ∃ w' S', Store.ExtendLease leaseDuration q tasks now lease w = (w', inr tt) ∧
     Impl q ks0 (keyspace (w_db w')) S' ∧
     ∀ id, aq_tasks S' !! id =
       renewed (score_ms (Add now (Store.lease_or_default leaseDuration lease)))
         (lease_owners tasks) id <$> aq_tasks S !! id).
Proof. apply extend_answered. Qed.
End move.

(** ** Witnesses *)

(** A history with a scheduled task, due after ten seconds, and an active one. *)
Definition waiting_history : list (string * request) :=
  [("emails", RqSchedule (set_RunAt (10 * Second) (sample "s" 0 Second)) "S");
   ("emails", RqEnqueue (sample "a" 0 Second) "A"); ("emails", RqClaim Second (5 * Second) "t1")].

Lemma waiting_ok : history_ok waiting_history.
Proof. repeat constructor. Qed.

Definition waiting_world : world (H := RedisMem) := World (H := RedisMem) (mem_run waiting_history) [].

Lemma waiting_Impl q :
  plain_queue q → Impl (H := RedisMem) q (w_db waiting_world) (w_db waiting_world) (mem_queue q waiting_history).
Proof. apply mem_run_Impl; [apply waiting_ok|by vm_compute]. Qed.

Lemma MoveReady_correct_witness :
  ∃ w', Store.MoveReady (H := RedisMem) (20 * Second) 0 ["emails"; "images"] waiting_world = (w', (1, None)).
Proof.
  destruct (MoveReady_correct (H := RedisMem) (20 * Second) 0 ["emails"; "images"] waiting_world
    (λ q, mem_queue q waiting_history)) as (w' & Hr & _).
  - unfold int64, MinInt64, MaxInt64. lia.
  - apply NoDup_cons. split; [by intros ?%list_elem_of_singleton|apply NoDup_singleton].
  - repeat constructor.
  - reflexivity.
  - apply waiting_Impl.
  - exists w'. rewrite Hr. do 2 f_equal.
Defined.

Lemma MoveReady_moves_due_witness :
  ∃ w' n S', Store.MoveReady (H := RedisMem) (20 * Second) 50 ["emails"] waiting_world = (w', (n, None)) ∧
    Impl (H := RedisMem) "emails" (w_db w') (w_db w') S' ∧
    at_status <$> aq_tasks S' !! "s" = Some APending.
Proof.
  destruct (MoveReady_moves_due (H := RedisMem) (20 * Second) 50 ["emails"] waiting_world
    (λ q, mem_queue q waiting_history) "emails") as (w' & n & S' & Hr & HI & Hl).
  - unfold int64, MinInt64, MaxInt64. lia.
  - apply NoDup_singleton.
  - repeat constructor.
  - reflexivity.
  - apply waiting_Impl.
  - left.
  - vm_compute. discriminate.
  - lia.
  - exists w', n, S'. split; [exact Hr|]. split; [exact HI|]. rewrite Hl. vm_compute. reflexivity.
Defined.

Lemma ExtendLease_correct_witness :
  ∃ w' S', Store.ExtendLease (H := RedisMem) Second "emails" [None; Some (set_AttemptID "t1" (sample "a" 0 Second))]
      (3 * Second) (9 * Second) waiting_world = (w', inr tt) ∧
    at_status <$> aq_tasks S' !! "a" = Some (AActive "t1" 12000).
Proof.
  destruct (proj2 (ExtendLease_correct (H := RedisMem) Second "emails"
    [None; Some (set_AttemptID "t1" (sample "a" 0 Second))] (3 * Second) (9 * Second) waiting_world
    (mem_queue "emails" waiting_history) (w_db waiting_world) (waiting_Impl "emails" eq_refl)) eq_refl)
    as (w' & S' & Hr & _ & Hl).
  exists w', S'. split; [exact Hr|]. rewrite Hl. vm_compute. reflexivity.
Defined.
