(* ===== verification/DeadLetters.v ===== *)
(** * Dead letters, expired leases and counts

    The administration side of the store: listing, reading, replaying, deleting and
    cleaning up archived tasks, the expired leases recovery starts from, and the counts. *)

From S2P Require Import Prelude GoLib Model Storage Redis RedisMem Keys Scripts Codec.
From S2P Require Import JsonCodec Store QueueView QueueSpec QueueInv ScriptSpecs StoreRefine.
From S2P Require Import Requests QueueProps History StoreTheorems TaskLifecycle QueueTheorems.
From S2P Require Import MoveTheorems.

(** ** Indices as filters of the tasks *)

(** The tasks of an index. *)
Definition in_index (z : zname) (it : string * atask) : Prop := is_Some (zpart z it.1 it.2).

#[export] Instance in_index_dec z it : Decision (in_index z it).
Proof. unfold in_index. apply _. Defined.

Lemma length_omap_filter {A B} (f : A → option B) (l : list A) :
  length (omap f l) = length (filter (λ x, is_Some (f x)) l).
Proof.
  induction l as [|x l IH]; [done|]. rewrite filter_cons. simpl.
  destruct (f x) eqn:E; case_decide as Hs; simpl.
  - f_equal. exact IH.
  - destruct Hs. by eexists.
  - by destruct Hs.
  - exact IH.
Qed.

Lemma map_to_list_filter_perm {A} (P : string * A → Prop) `{∀ x, Decision (P x)} (m : gmap string A) :
  map_to_list (filter P m) ≡ₚ filter P (map_to_list m).
Proof.
  apply NoDup_Permutation; [apply NoDup_map_to_list|apply NoDup_filter, NoDup_map_to_list|].
  intros [i x]. rewrite list_elem_of_filter, !elem_of_map_to_list, map_lookup_filter_Some. tauto.
Qed.

Lemma aq_zset_size z S : size (aq_zset z S) = size (filter (in_index z) (aq_tasks S)).
Proof.
  unfold aq_zset. rewrite map_size_list_to_map by apply zparts_NoDup.
  rewrite length_omap_filter, <-length_map_to_list, map_to_list_filter_perm. done.
Qed.

Section admin.
Context `{Redis, TaskCodec}.

(** A single read command whose answer the method hands on. *)
Lemma read_command {A} (c : cmd A) q ks0 w S a :
  Impl q ks0 (keyspace (w_db w)) S →
  wp (call c) (λ r d, r = a ∧ Impl q ks0 (keyspace d) S) (w_db w) → delivery w = Answered →
  ∃ w', Run (call c) w = (w', inr a) ∧ w_net w' = tail (w_net w) ∧ Impl q ks0 (keyspace (w_db w')) S.
Proof.
  intros HS Hw Hd. destruct (Run_spec _ _ w Hw) as (w' & r & Hr & Hn & Hres). rewrite Hd in Hres.
  destruct Hres as (? & -> & -> & ?). eauto.
Qed.

(** *** Counts *)

Lemma zcard_quiet q ks0 z w S :
  Impl q ks0 (keyspace (w_db w)) S → delivery w = Answered →
  ∃ w', Run (call (ZCARD (zkey q z))) w =
      (w', inr (Z.of_nat (size (filter (in_index z) (aq_tasks S))))) ∧
    Impl q ks0 (keyspace (w_db w')) S.
Proof.
  intros HS Hd. pose proof HS as (v & HR & HI & HW).
  destruct (read_command (ZCARD (zkey q z)) q ks0 w S (Z.of_nat (size (aq_zset z S)))) as (w' & Hr & _ & HI');
    [done| |done|].
  - eapply wp_zcard; [done|]. intros d' HR'. rewrite (inv_zset _ _ HI). split; [done|]. by exists v.
  - exists w'. by rewrite Hr, aq_zset_size.
Qed.

(** The counters count. [PendingCount], [RetryCount] and [ArchivedCount], when
    answered, are the numbers of pending, retried and archived tasks of the queue. *)
Theorem counts_correct q w S ks0 :
  Impl q ks0 (keyspace (w_db w)) S → delivery w = Answered →
  let count state :=
    Z.of_nat (size (filter (λ it : string * atask, state_name (at_status it.2) = state) (aq_tasks S))) in
  (Store.PendingCount q w).2 = inr (count StatePending) ∧
  (Store.RetryCount q w).2 = inr (count StateRetry) ∧
  (Store.ArchivedCount q w).2 = inr (count StateArchived).
Proof.
  intros HS Hd count.
  assert (∀ z state, (∀ i t, in_index z (i, t) ↔ state_name (at_status t) = state) →
    (Run (call (ZCARD (zkey q z))) w).2 = inr (count state)) as Hz.
  { intros z state Hiff. destruct (zcard_quiet q ks0 z w S HS Hd) as (w' & -> & _).
    unfold count. cbn [snd]. do 3 f_equal. apply map_filter_ext. intros i t _. apply Hiff. }
  split_and!; [apply (Hz ZRank)|apply (Hz ZRetry)|apply (Hz ZArch)]; intros i t;
    unfold in_index, zpart; cbn; destruct (at_status t); cbn; unfold is_Some; naive_solver.
Qed.

(** *** Expired leases *)

Lemma limit_or_default_pos limit : 0 < Store.limit_or_default limit.
Proof. unfold Store.limit_or_default. case_match; bool_to_prop; lia. Qed.

Lemma expired_quiet q ks0 now limit w S :
  Impl q ks0 (keyspace (w_db w)) S → delivery w = Answered →
  ∃ w', Store.ExpiredIDs now q limit w =
      (w', inr (take (Z.to_nat (Store.limit_or_default limit)) (due_ids ZLease (score_ms now) S))) ∧
    w_net w' = tail (w_net w) ∧ Impl q ks0 (keyspace (w_db w')) S.
Proof.
  intros HS Hd. unfold Store.ExpiredIDs. apply read_command; [done| |done].
  destruct HS as (v & HR & HI & HW). change (LeaseKey q) with (zkey q ZLease).
  eapply wp_zrangebyscore; [done|apply parse_ms|]. intros d' HR'. rewrite (inv_zset _ _ HI).
  split; [|by exists v]. pose proof (limit_or_default_pos limit). unfold limit_slice. cbn [Z.ltb Z.compare].
  rewrite (proj2 (Z.ltb_ge _ _)) by lia. done.
Qed.

(** Recovery sees the expired leases. When answered, [ExpiredIDs] lists, without
    repetition and at most [limit] (100 if not positive) of them, ids of active tasks whose
    lease has expired, the first [limit] in order of expiry; and if it lists fewer than
    [limit], it lists every active task whose lease has expired. *)
Theorem ExpiredIDs_correct q now limit w S ks0 :
  Impl q ks0 (keyspace (w_db w)) S → delivery w = Answered →
  let expired id := ∃ t a l, aq_tasks S !! id = Some t ∧ at_status t = AActive a l ∧ l ≤ score_ms now in
  ∃ w' ids, Store.ExpiredIDs now q limit w = (w', inr ids) ∧
    Impl q ks0 (keyspace (w_db w')) S ∧ NoDup ids ∧
    ids `prefix_of` due_ids ZLease (score_ms now) S ∧
    Z.of_nat (length ids) ≤ Store.limit_or_default limit ∧
    (∀ id, id ∈ ids → expired id) ∧
    (Z.of_nat (length ids) < Store.limit_or_default limit → ∀ id, expired id → id ∈ ids).
Proof.
  intros HS Hd expired. destruct (expired_quiet q ks0 now limit w S HS Hd) as (w' & Hr & _ & HI).
  eexists w', _. split; [done|]. split; [done|].
  set (lim := Store.limit_or_default limit). pose proof (limit_or_default_pos limit : 0 < lim).
  assert (∀ id, id ∈ due_ids ZLease (score_ms now) S ↔ expired id) as Hdue.
  { intros id. rewrite due_ids_iff by done. unfold expired, zpart. split.
    - intros (t & s & Ht & Hp & Hs). destruct (at_status t) eqn:E; simplify_eq. eauto 10.
    - intros (t & b & l & Ht & E & Hs). exists t, l. by rewrite E. }
  split_and!.
  - eapply sublist_NoDup; [apply due_ids_NoDup|apply sublist_take].
  - apply prefix_take.
  - rewrite length_take. lia.
  - intros id Hin. apply Hdue. eapply elem_of_sublist; [exact Hin|apply sublist_take].
  - rewrite length_take. intros Hlt id Hid%Hdue. by rewrite take_ge by lia.
Qed.

(** *** Reading one dead letter *)

Lemma GetDeadLetter_quiet q ks0 id w S :
  Impl q ks0 (keyspace (w_db w)) S → w_net w = [] →
  ∃ w', Store.GetDeadLetter q id w = (w', dead_letter_exp S id) ∧ w_net w' = [] ∧
    Impl q ks0 (keyspace (w_db w')) S.
Proof.
  intros HS Hn. pose proof (GetDeadLetter_refines q ks0 id w S HS) as Hop.
  destruct (op_spec_answered _ _ _ _ _ _ _ Hop (quiet_answered _ Hn)) as (w' & Hr & Hn' & HI).
  rewrite Hn in Hn'. eauto.
Qed.

(** Only an archived task is read as a dead letter. *)
Lemma dead_letter_archived S id m :
  dead_letter_exp S id = inr m →
  ∃ t at_ m0, aq_tasks S !! id = Some t ∧ at_status t = AArchived at_ ∧ Unmarshal (at_msg t) = inr m0 ∧
    m = set_AttemptID "" (set_State StateArchived m0).
Proof.
  unfold dead_letter_exp, get_exp. destruct (aq_tasks S !! id) as [t|]; [|done].
  destruct (Unmarshal (at_msg t)) as [e|m0] eqn:Hu; [done|].
  destruct (at_status t) as [| |a l| |at_|] eqn:E; cbn; rewrite ?State_set; cbn; try done.
  - destruct (String.eqb a ""); [done|]. by destruct m0.
  - intros [= <-]. eauto 10.
Qed.

(** *** Replaying *)

(** The envelope a replay stores. *)
Definition replayed (now : Time) (m : TaskMessage) : TaskMessage :=
  set_RunAt now (set_CompletedAt zeroTime (set_LastFailedAt zeroTime
    (set_LastError "" (set_RetryCount 0 (set_State StatePending m))))).

(** C32: Replaying a dead letter. With no fault of the network, [ReplayDeadLetter] answers
    the error of reading it ([ErrTaskNotFound], [ErrInvalidTransition] for a task that is
    not archived, a decoding error) or of encoding it, changing nothing; otherwise the
    task is pending again, at its old rank and arrival number, with an envelope whose
    retry count, last error and times are reset, so that it gets all its retries again. *)
Theorem ReplayDeadLetter_correct q now id w S ks0 :
  Impl q ks0 (keyspace (w_db w)) S → w_net w = [] →
  ∃ w' r, Store.ReplayDeadLetter now q id w = (w', r) ∧ w_net w' = [] ∧
    match dead_letter_exp S id with
    | inl e => r = inl e ∧ Impl q ks0 (keyspace (w_db w')) S
    | inr m =>
        match Marshal (replayed now m) with
        | inl e => r = inl (Errorf_w "encode replayed dead letter" e) ∧ Impl q ks0 (keyspace (w_db w')) S
        | inr text => r = inr tt ∧
            ∃ t, aq_tasks S !! id = Some t ∧
              Impl q ks0 (keyspace (w_db w')) (aq_put id (with_status APending (with_msg text t)) S)
        end
    end.
Proof.
  intros HS Hn. unfold Store.ReplayDeadLetter.
  destruct (GetDeadLetter_quiet q ks0 id w S HS Hn) as (w1 & Hg & Hn1 & H1).
  unfold gbind at 1. rewrite Hg. destruct (dead_letter_exp S id) as [e|m] eqn:Hd; [eauto 10|].
  unfold gbind at 1, gwrap at 1, gresult. fold (replayed now m).
  destruct (Marshal (replayed now m)) as [e|text]; [eauto 10|].
  destruct (dead_letter_archived S id m Hd) as (t & at_ & m0 & Ht & Hst & _).
  pose proof (transition_method q ks0 "replay dead letter"
    (replayArchivedScript (TaskKey q id) (ArchivedKey q) (PendingKey q) (PendingRankKey q) id text)
    S (s_replay id text S) ErrInvalidTransition tt w1
    (replayArchivedScript_spec q ks0 _ _ _ _ H1) H1) as Hop.
  unfold s_replay in Hop. rewrite Ht, Hst in Hop.
  destruct (op_spec_answered _ _ _ _ _ _ _ Hop (quiet_answered _ Hn1)) as (w2 & Hr & Hn2 & H2).
  rewrite Hn1 in Hn2. eexists w2, _. split; [exact Hr|]. split; [done|]. split; [done|]. eauto.
Qed.

(** *** Deleting *)

(** C33: Deleting a dead letter. With no fault of the network, [DeleteDeadLetter] removes
    an archived task entirely; for any other id it changes nothing and answers the error
    that reading it as a dead letter gives: [ErrTaskNotFound] if it is not stored,
    [ErrInvalidTransition] (or a decoding error) if it is stored in another state. *)
Theorem DeleteDeadLetter_correct q id w S ks0 :
  Impl q ks0 (keyspace (w_db w)) S → w_net w = [] →
  ∃ w' r, Store.DeleteDeadLetter q id w = (w', r) ∧ w_net w' = [] ∧
    match at_status <$> aq_tasks S !! id with
    | Some (AArchived _) => r = inr tt ∧ Impl q ks0 (keyspace (w_db w')) (aq_del id S)
    | _ => (∃ e, r = inl e ∧ dead_letter_exp S id = inl e) ∧ Impl q ks0 (keyspace (w_db w')) S
    end.
Proof.
  intros HS Hn. unfold Store.DeleteDeadLetter.
  pose proof (command_method q ks0 "delete dead letter"
    (deleteArchivedScript (TaskKey q id) (ArchivedKey q) id) inr S
    (match s_delete id S with Some S' => (inr 1, S') | None => (inr 0, S) end) w) as Hop.
  apply (λ x, op_spec_answered _ _ _ _ _ _ _ x (quiet_answered _ Hn)) in Hop as (w1 & Hr & Hn1 & H1); [|..|done].
  2:{ eapply wp_mono; [by apply deleteArchivedScript_spec|]. unfold outcome.
      intros r d. destruct (s_delete id S); by intros [-> ?]. }
  rewrite <-gbind_gret in Hr. unfold gbind at 1. rewrite Hr. rewrite Hn in Hn1. unfold s_delete in H1.
  unfold s_delete. clear Hr.
  assert (Impl q ks0 (keyspace (w_db w1)) S → (∃ e, dead_letter_exp S id = inl e) →
    ∃ w' r, gbind (Store.GetDeadLetter q id) (λ _, gerr (A := unit) ErrInvalidTransition) w1 = (w', r) ∧
      w_net w' = [] ∧ (∃ e, r = inl e ∧ dead_letter_exp S id = inl e) ∧
      Impl q ks0 (keyspace (w_db w')) S) as Hread.
  { intros HS1 [e He]. destruct (GetDeadLetter_quiet q ks0 id w1 S HS1 Hn1) as (w2 & Hg & Hn2 & H2).
    unfold gbind. rewrite Hg, He. eauto 10. }
  assert ((∀ t at_, aq_tasks S !! id = Some t → at_status t ≠ AArchived at_) →
    ∃ e, dead_letter_exp S id = inl e) as Herr.
  { intros Hna. destruct (dead_letter_exp S id) as [e|m] eqn:E; [eauto|].
    apply dead_letter_archived in E as (t & at_ & m0 & Ht & Hst & _). by destruct (Hna t at_). }
  destruct (aq_tasks S !! id) as [t|] eqn:Ht; cbn in *; [|apply Hread; [done|by apply Herr]].
  destruct (at_status t) eqn:Hst; cbn in *;
    try (apply Hread; [done|]; apply Herr; intros ? ? [= <-]; congruence).
  eexists w1, _. split; [done|]. done.
Qed.

(** *** Cleaning up *)

(** The dead letters of a queue, oldest first. *)
Definition archived_ids (S : aqueue) : list string := (zsorted (aq_zset ZArch S)).*1.

(** The dead letters a cleanup removes are the first [limit] (100 if not positive), oldest first,
    among those archived up to the millisecond of the given instant. *)
Lemma cleanup_quiet q before limit w S ks0 :
  Impl q ks0 (keyspace (w_db w)) S → int64 limit → delivery w = Answered →
  let ids := take (Z.to_nat (rnd53 (Store.limit_or_default limit))) (due_ids ZArch (score_ms before) S) in
  ∃ w' S', Store.CleanupDeadLetters q before limit w = (w', inr (Z.of_nat (length ids))) ∧
    Impl q ks0 (keyspace (w_db w')) S' ∧
    (∀ id, aq_tasks S' !! id = if decide (id ∈ ids) then None else aq_tasks S !! id) ∧
    (∀ id, id ∈ ids → ∃ t at_, aq_tasks S !! id = Some t ∧ at_status t = AArchived at_ ∧ at_ ≤ score_ms before) ∧
    (Z.of_nat (size (aq_tasks S)) ≤ limit ≤ 2 ^ 53 → 0 < limit →
     ∀ id t at_, aq_tasks S !! id = Some t → at_status t = AArchived at_ → at_ ≤ score_ms before → id ∈ ids).
Proof.
  intros HS Hl Hd ids.
  destruct (op_spec_answered _ _ _ _ _ _ _ (CleanupDeadLetters_refines q ks0 before limit w S HS Hl) Hd)
    as (w' & Hr & _ & HI). eexists w', _. split; [done|]. split; [exact HI|]. split_and!.
  - intros id. apply foldl_del_lookup.
  - intros id Hin. assert (id ∈ due_ids ZArch (score_ms before) S) as Hin'
      by (eapply elem_of_sublist; [exact Hin|apply sublist_take]).
    apply due_ids_iff in Hin' as (t & s & Ht & Hp & Hs); [|done]. unfold zpart in Hp.
    destruct (at_status t) eqn:E; simplify_eq. eauto.
  - intros Hsz Hpos id t at_ Ht Hst Hle. pose proof (due_ids_length ZArch (score_ms before) S ltac:(done)).
    unfold ids, Store.limit_or_default. rewrite (proj2 (Z.leb_gt _ _)), rnd53_exact, take_ge by lia.
    apply due_ids_iff; [done|]. exists t, at_. unfold zpart. by rewrite Hst.
Qed.

(** Those archived up to some time are the first of all. *)
Lemma sorted_filter_prefix now (l : list (string * Z)) :
  StronglySorted zle l → filter (λ ms, ms.2 ≤ now) l `prefix_of` l.
Proof.
  induction 1 as [|[m s] l _ IH Hx]; [done|]. destruct (decide (s ≤ now)) as [Hs|Hs].
  - rewrite filter_cons_True by done. by apply prefix_cons.
  - rewrite filter_cons_False by done. assert (filter (λ ms, ms.2 ≤ now) l = []) as ->; [|apply prefix_nil].
    rewrite Forall_forall in Hx. apply elem_of_nil_inv. intros [m' s'] [Hle Hin]%list_elem_of_filter.
    destruct (Hx _ Hin) as [Hlt|[Heq _]]; cbn in *; lia.
Qed.

Lemma due_prefix now S : due_ids ZArch now S `prefix_of` archived_ids S.
Proof.
  unfold due_ids, archived_ids. destruct (sorted_filter_prefix now (zsorted (aq_zset ZArch S))) as [k Hk].
  - apply StronglySorted_merge_sort; apply _.
  - exists k.*1. by rewrite <-fmap_app, <-Hk.
Qed.

(** C34: Cleaning up dead letters. When no dead letter of the queue was archived in the very
    millisecond of the given instant, [CleanupDeadLetters], if answered, removes dead letters
    older than that instant and nothing else: at most [limit] (100 if not positive) of them, the
    oldest ones, and answers how many; with a limit that covers the queue, all of them. *)
Theorem CleanupDeadLetters_correct q before limit w S ks0 :
  Impl q ks0 (keyspace (w_db w)) S → int64 limit → delivery w = Answered →
  (∀ id t at_, aq_tasks S !! id = Some t → at_status t = AArchived at_ → at_ ≠ score_ms before) →
  ∃ w' S' removed, Store.CleanupDeadLetters q before limit w = (w', inr (Z.of_nat (length removed))) ∧
    Impl q ks0 (keyspace (w_db w')) S' ∧
    (∀ id, aq_tasks S' !! id = if decide (id ∈ removed) then None else aq_tasks S !! id) ∧
    removed `prefix_of` archived_ids S ∧
    Z.of_nat (length removed) ≤ rnd53 (Store.limit_or_default limit) ∧
    (∀ id, id ∈ removed → ∃ t at_, aq_tasks S !! id = Some t ∧ at_status t = AArchived at_ ∧ at_ < score_ms before) ∧
    (Z.of_nat (size (aq_tasks S)) ≤ limit ≤ 2 ^ 53 → 0 < limit →
     ∀ id t at_, aq_tasks S !! id = Some t → at_status t = AArchived at_ → at_ < score_ms before → id ∈ removed).
Proof.
  intros HS Hl Hd Hne. destruct (cleanup_quiet q before limit w S ks0 HS Hl Hd) as (w' & S' & Hr & HI & Hlook & Hin & Hall).
  set (ids := take _ _) in *. exists w', S', ids. split_and!; [done..| | | |].
  - etrans; [apply prefix_take|apply due_prefix].
  - unfold ids. rewrite length_take. assert (0 ≤ rnd53 (Store.limit_or_default limit)); [|lia].
    apply (rnd53_mono 0). unfold Store.limit_or_default. case_match; bool_to_prop; lia.
  - intros id Hid. destruct (Hin id Hid) as (t & at_ & Ht & Hst & Hle). exists t, at_. split_and!; [done..|].
    pose proof (Hne id t at_ Ht Hst). lia.
  - intros Hsz Hpos id t at_ Ht Hst Hlt. apply (Hall Hsz Hpos id t at_ Ht Hst). lia.
Qed.

(** *** Listing *)

(** A page: every id read in turn; the first error other than [ErrInvalidTransition] is
    reported with its id. *)
Fixpoint page (S : aqueue) (ids : list string) : result (list TaskMessage) :=
  match ids with
  | [] => inr []
  | id :: ids =>
      match dead_letter_exp S id with
      | inl e =>
          if errors_Is e ErrInvalidTransition then page S ids
          else inl (Errorf_w ("read dead letter " +:+ id) e)
      | inr m => match page S ids with inl e => inl e | inr ms => inr (m :: ms) end
      end
  end.

Lemma ListDeadLetters_loop_quiet q ks0 ids w S :
  Impl q ks0 (keyspace (w_db w)) S → w_net w = [] →
  ∃ w', Store.ListDeadLetters_loop q ids w = (w', page S ids) ∧ w_net w' = [] ∧
    Impl q ks0 (keyspace (w_db w')) S.
Proof.
  revert w. induction ids as [|id ids IH]; intros w HS Hn; [by exists w|].
  cbn [Store.ListDeadLetters_loop page].
  destruct (GetDeadLetter_quiet q ks0 id w S HS Hn) as (w1 & -> & Hn1 & H1).
  destruct (IH w1 H1 Hn1) as (w2 & Hr & Hn2 & H2).
  destruct (dead_letter_exp S id) as [e|m].
  - destruct (errors_Is e ErrInvalidTransition); [eauto|]. eauto.
  - rewrite Hr. destruct (page S ids); eauto.
Qed.

Lemma slice_page (l : list string) offset limit :
  0 ≤ offset → 0 < limit → slice offset (offset + limit - 1) l = take (Z.to_nat limit) (drop (Z.to_nat offset) l).
Proof.
  intros Ho Hl. unfold slice. rewrite (proj2 (Z.ltb_ge offset 0)), (proj2 (Z.ltb_ge _ 0)) by lia.
  rewrite Z.max_r by lia. case_match eqn:E; bool_to_prop.
  - rewrite drop_ge by lia. by rewrite take_nil.
  - destruct (decide (Z.of_nat (length l) - 1 ≤ offset + limit - 1)).
    + rewrite Z.min_l by lia. rewrite !take_ge by (rewrite length_drop; lia). done.
    + rewrite Z.min_r by lia. f_equal. lia.
Qed.

(** C35: Listing dead letters. With no fault of the network and as long as
    [offset + limit] does not exceed the largest int64, [ListDeadLetters] answers the
    decoded dead letters number [offset] to [offset + limit - 1] of the queue, oldest
    first; a negative offset is refused without a command. The queue is not changed. *)
Theorem ListDeadLetters_correct q offset limit w S ks0 :
  Impl q ks0 (keyspace (w_db w)) S → w_net w = [] →
  offset + Store.limit_or_default limit ≤ MaxInt64 →
  if offset <? 0
  then Store.ListDeadLetters q offset limit w = (w, inl (errors_New "dead-letter offset cannot be negative"))
  else ∃ w', Store.ListDeadLetters q offset limit w =
      (w', page S (take (Z.to_nat (Store.limit_or_default limit)) (drop (Z.to_nat offset) (archived_ids S)))) ∧
    Impl q ks0 (keyspace (w_db w')) S.
Proof.
  intros HS Hn Hmax. unfold Store.ListDeadLetters. destruct (offset <? 0) eqn:Ho; [done|]. bool_to_prop.
  pose proof (limit_or_default_pos limit) as Hpos. set (lim := Store.limit_or_default limit) in *.
  rewrite (wrap64_id (offset + lim)), wrap64_id by (unfold int64, MinInt64; lia).
  destruct (read_command (ZRANGE (ArchivedKey q) offset (offset + lim - 1)) q ks0 w S
    (slice offset (offset + lim - 1) (archived_ids S))) as (w1 & Hr & Hn1 & H1).
  - done.
  - destruct HS as (v & HR & HI & HW). change (ArchivedKey q) with (zkey q ZArch).
    eapply wp_zrange; [done|]. intros d' HR'. rewrite (inv_zset _ _ HI). split; [done|]. by exists v.
  - by apply quiet_answered.
  - rewrite Hn in Hn1. unfold gbind, gwrap. rewrite Hr, slice_page by lia.
    destruct (ListDeadLetters_loop_quiet q ks0
      (take (Z.to_nat lim) (drop (Z.to_nat offset) (archived_ids S))) w1 S H1 Hn1) as (w2 & Hl & _ & H2).
    eauto.
Qed.

(** Beyond that bound the page is wrong: [offset + limit - 1] wraps around to a negative
    index, and the largest limit gives an empty page from offset 2 on, however many dead
    letters there are. *)
Lemma ListDeadLetters_overflow q offset w S ks0 :
  Impl q ks0 (keyspace (w_db w)) S → w_net w = [] → 2 ≤ offset ≤ MaxInt64 →
  Z.of_nat (length (archived_ids S)) ≤ MaxInt64 →
  (Store.ListDeadLetters q offset MaxInt64 w).2 = inr [].
Proof.
  intros HS Hn Ho Hlen. unfold Store.ListDeadLetters. rewrite (proj2 (Z.ltb_ge _ _)) by lia.
  change (Store.limit_or_default MaxInt64) with MaxInt64.
  assert (wrap64 (wrap64 (offset + MaxInt64) - 1) = offset + MaxInt64 - 1 - 2 ^ 64) as ->.
  { rewrite (wrap64_over (offset + MaxInt64)), wrap64_id by (unfold int64, MinInt64, MaxInt64 in *; lia). lia. }
  destruct (read_command (ZRANGE (ArchivedKey q) offset (offset + MaxInt64 - 1 - 2 ^ 64)) q ks0 w S [])
    as (w1 & Hr & Hn1 & H1).
  - done.
  - destruct HS as (v & HR & HI & HW). change (ArchivedKey q) with (zkey q ZArch).
    eapply wp_zrange; [done|]. intros d' HR'. rewrite (inv_zset _ _ HI). split; [|by exists v].
    fold (archived_ids S). unfold slice, MaxInt64 in *.
    rewrite (proj2 (Z.ltb_ge offset 0)), (proj2 (Z.ltb_lt (offset + _ - 1 - 2 ^ 64) 0)) by lia.
    rewrite (proj2 (Z.ltb_lt _ _)); [done|]. lia.
  - by apply quiet_answered.
  - unfold gbind, gwrap. by rewrite Hr.
Qed.
End admin.

(** ** Witnesses *)

Lemma counts_correct_witness :
  (Store.ArchivedCount (H := RedisMem) "emails" sample_world).2 = inr 1.
Proof.
  destruct (counts_correct (H := RedisMem) "emails" sample_world sample_queue sample_db sample_Impl eq_refl)
    as (_ & _ & ->). f_equal.
Defined.

Lemma ExpiredIDs_correct_witness :
  ∃ w' ids, Store.ExpiredIDs (H := RedisMem) (7 * Second) "emails" 10 waiting_world = (w', inr ids) ∧ "a" ∈ ids.
Proof.
  destruct (ExpiredIDs_correct (H := RedisMem) "emails" (7 * Second) 10 waiting_world
    (mem_queue "emails" waiting_history) (w_db waiting_world) (waiting_Impl "emails" eq_refl) eq_refl)
    as (w' & ids & Hr & _ & _ & Hpre & _ & _ & Hall).
  exists w', ids. split; [exact Hr|]. apply Hall.
  - apply prefix_length in Hpre.
    assert (length (due_ids ZLease (score_ms (7 * Second)) (mem_queue "emails" waiting_history)) = 1%nat) as E
      by (vm_compute; reflexivity).
    unfold Store.limit_or_default. cbn. lia.
  - vm_compute. eexists _, _, _. split; [reflexivity|]. split; [reflexivity|discriminate].
Defined.

(** A history that archives task "b" with an envelope that decodes. *)
Definition dead_history : list (string * request) :=
  [("emails", RqEnqueue (sample "b" 0 Second) "x"); ("emails", RqClaim Second (5 * Second) "t1");
   ("emails", RqArchive (6 * Second) "b" "t1" (message_text (sample "b" 0 Second)) "boom")].

Definition dead_world : world (H := RedisMem) := World (H := RedisMem) (mem_run dead_history) [].
Definition dead_queue : aqueue := mem_queue "emails" dead_history.

Lemma dead_Impl : Impl (H := RedisMem) "emails" (w_db dead_world) (w_db dead_world) dead_queue.
Proof. apply mem_run_Impl; [repeat constructor|by vm_compute|done]. Qed.

Lemma dead_letter_b :
  dead_letter_exp dead_queue "b" = inr (set_State StateArchived (sample "b" 0 Second)).
Proof. vm_compute. reflexivity. Qed.

Lemma ReplayDeadLetter_correct_witness :
  ∃ w', Store.ReplayDeadLetter (H := RedisMem) (9 * Second) "emails" "b" dead_world = (w', inr tt).
Proof.
  destruct (ReplayDeadLetter_correct (H := RedisMem) "emails" (9 * Second) "b" dead_world dead_queue
    (w_db dead_world) dead_Impl eq_refl) as (w' & r & Hr & _ & Hm).
  rewrite dead_letter_b in Hm. encode_in (replayed (9 * Second) (set_State StateArchived (sample "b" 0 Second))) Hm.
  destruct Hm as [-> _]. exists w'. exact Hr.
Defined.

Lemma DeleteDeadLetter_correct_witness :
  ∃ w', Store.DeleteDeadLetter (H := RedisMem) "emails" "b" dead_world = (w', inr tt).
Proof.
  destruct (DeleteDeadLetter_correct (H := RedisMem) "emails" "b" dead_world dead_queue
    (w_db dead_world) dead_Impl eq_refl) as (w' & r & Hr & _ & Hm).
  assert (at_status <$> aq_tasks dead_queue !! "b" = Some (AArchived 6000)) as E by (vm_compute; reflexivity).
  rewrite E in Hm. destruct Hm as [-> _]. exists w'. exact Hr.
Defined.

Lemma CleanupDeadLetters_correct_witness :
  ∃ w', Store.CleanupDeadLetters (H := RedisMem) "emails" (7 * Second) 10 dead_world = (w', inr 1).
Proof.
  destruct (CleanupDeadLetters_correct (H := RedisMem) "emails" (7 * Second) 10 dead_world dead_queue
    (w_db dead_world) dead_Impl ltac:(unfold int64, MinInt64, MaxInt64; lia) eq_refl) as (w' & S' & removed & Hr & _).
  - intros id t at_ Ht Hst. assert (aq_tasks dead_queue = {["b" := ATask (message_text (sample "b" 0 Second)) 1000 1 (AArchived 6000)]}) as E
      by (vm_compute; reflexivity).
    rewrite E in Ht. apply lookup_singleton_Some in Ht as [_ <-]. injection Hst as <-. vm_compute. discriminate.
  - assert ((Store.CleanupDeadLetters (H := RedisMem) "emails" (7 * Second) 10 dead_world).2 = inr 1) as E by (vm_compute; reflexivity).
    rewrite Hr in E. exists w'. rewrite Hr. f_equal. exact E.
Defined.

(** "Older than" is "up to the millisecond of": a dead letter archived at the given instant is
    removed as well. *)
Lemma cleanup_same_millisecond :
  task_field (w_db dead_world) "emails" "b" "state" = Some StateArchived ∧
  (Store.CleanupDeadLetters (H := RedisMem) "emails" (6 * Second) 10 dead_world).2 = inr 1.
Proof. vm_compute. done. Qed.

Lemma ListDeadLetters_correct_witness :
  ∃ w', Store.ListDeadLetters (H := RedisMem) "emails" 0 0 dead_world =
    (w', inr [set_State StateArchived (sample "b" 0 Second)]).
Proof.
  destruct (ListDeadLetters_correct (H := RedisMem) "emails" 0 0 dead_world dead_queue
    (w_db dead_world) dead_Impl eq_refl ltac:(vm_compute; discriminate)) as (w' & Hr & _).
  exists w'. rewrite Hr. f_equal; vm_compute; reflexivity.
Defined.
