(* ===== verification/Backoff.v ===== *)
(** * Retry delays ([server/server.go], [ExponentialBackoff] and its jitter)

    Durations are int64 nanoseconds: doubling wraps around. The jitter is computed in
    IEEE binary64, executed on the Standard Library's [spec_float]. *)

From S2P Require Import Prelude GoLib.
From S2P Require Import Float.

(** ** Exponential backoff *)

(** The statement after the loop. *)
Definition backoff_end (result max : Duration) : Duration := if max <? result then max else result.

(** [for i := 0; i < retryCount && result < max; i++], with the iterations left. *)
Fixpoint backoff_loop (todo : nat) (result max : Duration) : Duration :=
  match todo with
  | O => backoff_end result max
  | S todo =>
      if result <? max then
        if Z.quot max 2 <? result then max
        else backoff_loop todo (wrap64 (result * 2)) max
      else backoff_end result max
  end.

Definition ExponentialBackoff (retryCount : Z) (base max : Duration) : Duration :=
  let retryCount := if retryCount <? 0 then 0 else retryCount in
  let base := if base <=? 0 then 2 * Second else base in
  let max := if max <=? 0 then Hour else max in
  backoff_loop (Z.to_nat retryCount) base max.

(** The effective parameters. *)
Definition eff_base (base : Duration) : Duration := if base <=? 0 then 2 * Second else base.
Definition eff_max (max : Duration) : Duration := if max <=? 0 then Hour else max.

Lemma backoff_loop_spec todo result max :
  0 < result ≤ MaxInt64 → 0 < max ≤ MaxInt64 →
  backoff_loop todo result max = Z.min max (result * 2 ^ Z.of_nat todo).
Proof.
  revert result. induction todo as [|todo IH]; intros result Hr Hm.
  { cbn. unfold backoff_end. case_match; bool_to_prop; lia. }
  assert (2 ^ Z.of_nat (S todo) = 2 * 2 ^ Z.of_nat todo) as E.
  { rewrite Nat2Z.inj_succ, Z.pow_succ_r by lia. done. }
  pose proof (Z.pow_pos_nonneg 2 (Z.of_nat todo) ltac:(lia) ltac:(lia)) as Hpow.
  pose proof (Z.div_mod max 2 ltac:(lia)). pose proof (Z.mod_pos_bound max 2 ltac:(lia)).
  cbn [backoff_loop]. rewrite Z.quot_div_nonneg by lia.
  destruct (result <? max) eqn:Hlt; bool_to_prop.
  - destruct (max / 2 <? result) eqn:Hhalf; bool_to_prop.
    + assert (max < 2 * result) by lia. rewrite E, Z.min_l by nia. done.
    + rewrite wrap64_id by (unfold int64, MinInt64; lia). rewrite IH by lia. rewrite E. f_equal. ring.
  - rewrite E, Z.min_l by nia. unfold backoff_end. case_match; bool_to_prop; lia.
Qed.

Lemma ExponentialBackoff_spec retryCount base max :
  int64 base → int64 max →
  ExponentialBackoff retryCount base max =
    Z.min (eff_max max) (eff_base base * 2 ^ Z.max 0 retryCount) ∧
  0 < ExponentialBackoff retryCount base max ≤ eff_max max.
Proof.
  intros Hb Hm. unfold int64, MinInt64 in *.
  assert (0 < eff_base base ≤ MaxInt64) as Hb'
    by (unfold eff_base, Second, MaxInt64 in *; case_match; bool_to_prop; lia).
  assert (0 < eff_max max ≤ MaxInt64) as Hm'
    by (unfold eff_max, Hour, MaxInt64 in *; case_match; bool_to_prop; lia).
  assert (ExponentialBackoff retryCount base max =
    Z.min (eff_max max) (eff_base base * 2 ^ Z.max 0 retryCount)) as E.
  { unfold ExponentialBackoff. fold (eff_base base) (eff_max max).
    rewrite backoff_loop_spec by done. do 3 f_equal. case_match; bool_to_prop; lia. }
  pose proof (Z.pow_pos_nonneg 2 (Z.max 0 retryCount) ltac:(lia) ltac:(lia)). rewrite E.
  split; [done|]. nia.
Qed.

(** C36: The retry delay is exactly min(max, base * 2^retryCount): the loop computes it
    without overflow for every retry count, base and cap that fit in an int64, with a
    negative retry count read as 0, a base that is not positive as two seconds and a cap
    that is not positive as one hour. It is therefore positive and never above the cap. *)
Theorem ExponentialBackoff_closed_form retryCount base max :
  int64 retryCount → int64 base → int64 max →
  ExponentialBackoff retryCount base max =
    Z.min (eff_max max) (eff_base base * 2 ^ Z.max 0 retryCount) ∧
  0 < ExponentialBackoff retryCount base max ≤ eff_max max.
Proof. intros _. apply ExponentialBackoff_spec. Qed.

Lemma ExponentialBackoff_closed_form_witness :
  ExponentialBackoff 5 0 0 = 64 * Second ∧ ExponentialBackoff 40 0 0 = Hour.
Proof.
  destruct (ExponentialBackoff_closed_form 5 0 0) as [-> _]; try (unfold int64, MinInt64, MaxInt64; lia).
  destruct (ExponentialBackoff_closed_form 40 0 0) as [-> _]; try (unfold int64, MinInt64, MaxInt64; lia).
  split; reflexivity.
Defined.

(** The doubling loop is short. After 63 iterations it has reached its end whatever
    the retry count is: running any number of iterations from 63 on gives the same delay. *)
Theorem backoff_loop_short n base max :
  0 < base ≤ MaxInt64 → 0 < max ≤ MaxInt64 → (63 ≤ n)%nat →
  backoff_loop n base max = backoff_loop 63 base max.
Proof.
  intros Hb Hm Hn. rewrite !backoff_loop_spec by done. unfold MaxInt64 in *.
  pose proof (Z.pow_le_mono_r 2 63 (Z.of_nat n) ltac:(lia) ltac:(lia)).
  change (Z.of_nat 63) with 63. nia.
Qed.

Lemma backoff_loop_short_witness : backoff_loop 1000 1 MaxInt64 = backoff_loop 63 1 MaxInt64.
Proof. apply backoff_loop_short; unfold MaxInt64; lia. Defined.

(** ** Jitter *)

(** [int64(f)]: truncation toward zero of a finite value. *)
Definition f64_trunc (f : float64) : Z :=
  match f with
  | S754_finite s m e =>
      let mag := if 0 <=? e then Z.pos m * 2 ^ e else Z.pos m / 2 ^ (- e) in
      wrap64 (if s then - mag else mag)
  | _ => 0
  end.

(** [ExponentialBackoffWithJitter]: [random] is what [rand.Float64] yields. *)
Definition ExponentialBackoffWithJitter (random : float64) (retryCount : Z) (base max : Duration)
    (jitter : float64) : Duration :=
  let delay := ExponentialBackoff retryCount base max in
  if f64_le jitter (f64_of_int 0) then delay else
  let jitter := if f64_lt (f64_of_int 1) jitter then f64_of_int 1 else jitter in
  let lower := f64_mul (f64_of_int delay) (f64_sub (f64_of_int 1) jitter) in
  let upper := f64_mul (f64_of_int delay) (f64_add (f64_of_int 1) jitter) in
  let upper := if f64_lt (f64_of_int max) upper then f64_of_int max else upper in
  if f64_le upper lower then delay else
  let result := f64_add lower (f64_mul random (f64_sub upper lower)) in
  let result := if f64_lt result (f64_of_int Nanosecond) then f64_of_int Nanosecond else result in
  f64_trunc result.

(** Without jitter, and when the cap leaves no room for it, the delay is the plain
    backoff; full jitter of the smallest random value gives one nanosecond. *)
Lemma no_jitter random retryCount base max :
  ExponentialBackoffWithJitter random retryCount base max (f64_of_int 0) = ExponentialBackoff retryCount base max.
Proof. reflexivity. Qed.

Example jitter_full_low :
  ExponentialBackoffWithJitter (f64_of_int 0) 3 Second Hour (f64_of_int 1) = Nanosecond.
Proof. vm_compute. reflexivity. Qed.

Example jitter_half_mid :
  ExponentialBackoffWithJitter (SFdiv 53 1024 (f64_of_int 1) (f64_of_int 2)) 0 (4 * Second) Hour
    (SFdiv 53 1024 (f64_of_int 1) (f64_of_int 2)) = 4 * Second.
Proof. vm_compute. reflexivity. Qed.
