(* ===== verification/Jitter.v ===== *)
(** * Jittered retry delays stay within their cap

    [ExponentialBackoffWithJitter] in binary64: every rounding of the interpolation is
    accounted for. *)

From S2P Require Import Prelude GoLib Float Backoff.

Lemma f64_trunc_floor f : f64_pos f = true → f64_trunc f = wrap64 (f64_floor_int f).
Proof. destruct f as [| | |[] m e]; done. Qed.

Section jitter.
Context (D max : Z) (random jitter : float64).
Hypothesis HD : 1 ≤ D ≤ max.
Hypothesis Hmax : max < 2 ^ 52.
Hypothesis Hrandom : f64_between 0 unit64 random.
Hypothesis Hjitter : f64_between 1 unit64 jitter.

Lemma lower_between : f64_between 0 (D * unit64) (f64_mul (f64_of_int D) (f64_sub (f64_of_int 1) jitter)).
Proof.
  destruct Hjitter as (Hjv & Hjf & Hju). destruct (of_int_between 1 1 ltac:(lia) ltac:(lia)) as (H1v & H1f & H1u).
  destruct (of_int_between D D ltac:(lia) ltac:(lia)) as (HDv & HDf & HDu).
  destruct (f64_sub_between (f64_of_int 1) jitter H1v Hjv H1f Hjf ltac:(lia)) as (Hv & Hf & _ & Hb).
  assert (0 < unit64) by (by unfold unit64). clear Hmax Hrandom. rewrite f64_mul_comm.
  apply f64_mul_between; split_and!; try done; nia.
Qed.

Lemma upper_between :
  let upper := f64_mul (f64_of_int D) (f64_add (f64_of_int 1) jitter) in
  f64_between 0 (max * unit64) (if f64_lt (f64_of_int max) upper then f64_of_int max else upper).
Proof.
  intros upper. destruct Hjitter as (Hjv & Hjf & Hju). destruct (of_int_between 1 1 ltac:(lia) ltac:(lia)) as (H1v & H1f & H1u).
  destruct (of_int_between D D ltac:(lia) ltac:(lia)) as (HDv & HDf & HDu).
  destruct (of_int_between max max ltac:(lia) ltac:(lia)) as (Hmv & Hmf & Hmu).
  assert (0 < unit64) as Hunit by (by unfold unit64).
  assert (f64_valid (f64_add (f64_of_int 1) jitter) ∧ f64_pos (f64_add (f64_of_int 1) jitter) = true) as [Hav Hap].
  { pose proof (f64_add_spec _ _ H1v Hjv H1f Hjf) as Hr. split; [apply Hr|].
    pose proof (rnd53_mono (1 * 2 ^ 1074) (units (f64_of_int 1) + units jitter) ltac:(unfold unit64 in *; lia)) as Hlo.
    pose proof (rnd53_mono (units (f64_of_int 1) + units jitter) (2 * 2 ^ 1074) ltac:(unfold unit64 in *; lia)) as Hhi.
    rewrite rnd53_shift in Hlo, Hhi by lia. pose proof Hr as [Hv _]. apply f64_rounded_finite in Hr as [Hf Hu].
    - rewrite pos_units, Hu by done. apply Z.ltb_lt. unfold unit64 in *. lia.
    - pose proof (Z.pow_lt_mono_r 2 1 1024 ltac:(lia) ltac:(lia) ltac:(lia)). unfold unit64 in *. nia. }
  assert (f64_nonneg (f64_of_int D) = true) as HDn by (rewrite nonneg_units by done; apply Z.leb_le; nia).
  destruct (f64_mul_nonneg _ _ HDv Hav HDn Hap) as [Huv Hun]. fold upper in Huv, Hun. clearbody upper.
  destruct (f64_lt (f64_of_int max) upper) eqn:E; [split_and!; try done; nia|].
  assert (f64_finite upper = true) as Huf.
  { destruct upper as [|[]| |]; try done. exfalso. revert E. clear -Hmv Hmf. destruct (f64_of_int max) as [| | |[]]; done. }
  rewrite f64_lt_units in E by done. apply Z.ltb_ge in E. rewrite nonneg_units in Hun by done. apply Z.leb_le in Hun.
  split_and!; try done; lia.
Qed.
(** The interpolated value, for any [lower < upper ≤ max]. *)
Lemma interpolate_between lower upper :
  f64_between 0 (D * unit64) lower → f64_between 0 (max * unit64) upper → units lower < units upper →
  f64_between 0 ((2 * max + 1) * 2 ^ 1073) (f64_add lower (f64_mul random (f64_sub upper lower))).
Proof.
  intros (Hlv & Hlf & Hlu) (Huv & Huf & Huu) Hlt.
  destruct (f64_sub_between upper lower Huv Hlv Huf Hlf ltac:(lia)) as (Hdv & Hdf & Hdu & Hdb).
  destruct (f64_mul_between random (f64_sub upper lower) (units (f64_sub upper lower)) Hrandom) as (Hrv & Hrf & Hru).
  { split_and!; try done; lia. }
  pose proof (f64_add_spec lower _ Hlv Hrv Hlf Hrf) as Hr. pose proof Hr as [Hv _].
  set (z := units lower + units (f64_mul random (f64_sub upper lower))) in *.
  assert (max * unit64 < 2 ^ 1126) as Hmu.
  { replace (2 ^ 1126) with (2 ^ 52 * unit64) by (unfold unit64; by rewrite <-Z.pow_add_r by lia).
    apply Z.mul_lt_mono_pos_r; [by unfold unit64|done]. }
  pose proof (rnd53_error (units upper - units lower) 1126 ltac:(lia) ltac:(lia)) as Herr. rewrite <-Hdu in Herr.
  assert (0 ≤ z ≤ (2 * max + 1) * 2 ^ 1073) as Hz.
  { unfold z, unit64 in *. change (2 ^ 1074) with (2 * 2 ^ 1073) in *.
    assert (2 ^ (1126 - 54) ≤ 2 ^ 1073) by (apply Z.pow_le_mono_r; lia). lia. }
  pose proof (rnd53_mono 0 z ltac:(lia)) as H0. pose proof (rnd53_mono z ((2 * max + 1) * 2 ^ 1073) ltac:(lia)) as H1.
  rewrite rnd53_shift in H1 by lia. change (rnd53 0) with 0 in H0.
  apply f64_rounded_finite in Hr as [Hf Hu].
  - split_and!; try done; lia.
  - assert ((2 * max + 1) * 2 ^ 1073 ≤ 2 ^ 53 * 2 ^ 1073) by (apply Z.mul_le_mono_nonneg_r; [by apply Z.pow_nonneg|lia]).
    rewrite <-Z.pow_add_r in * by lia. assert (2 ^ (53 + 1073) < 2 ^ (1024 + 1074)) by (apply Z.pow_lt_mono_r; lia). lia.
Qed.

(** Clamped from below and truncated, it is between one nanosecond and the cap. *)
Lemma trunc_between result :
  f64_between 0 ((2 * max + 1) * 2 ^ 1073) result →
  1 ≤ f64_trunc (if f64_lt result (f64_of_int Nanosecond) then f64_of_int Nanosecond else result) ≤ max.
Proof.
  intros (Hv & Hf & Hu). destruct (of_int_between 1 1 ltac:(lia) ltac:(lia)) as (H1v & H1f & H1u).
  assert (0 < unit64) as Hunit by (by unfold unit64). change Nanosecond with 1.
  destruct (f64_lt result (f64_of_int 1)) eqn:E; [change (f64_trunc (f64_of_int 1)) with 1; lia|].
  rewrite f64_lt_units in E by done. apply Z.ltb_ge in E.
  rewrite f64_trunc_floor by (rewrite pos_units by done; apply Z.ltb_lt; lia).
  rewrite f64_floor_int_units by done. fold unit64.
  assert (1 ≤ units result / unit64 ≤ max) as Hq.
  { split; [apply Z.div_le_lower_bound; lia|]. apply Z.lt_succ_r, Z.div_lt_upper_bound; [done|].
    unfold unit64 in *. change (2 ^ 1074) with (2 * 2 ^ 1073) in *. assert (0 < 2 ^ 1073) by (by apply Z.pow_pos_nonneg). lia. }
  rewrite wrap64_id by (unfold int64, MinInt64, MaxInt64; lia). done.
Qed.
End jitter.

Lemma unit_interval f :
  f64_valid f → f64_le (f64_of_int 0) f = true → f64_le f (f64_of_int 1) = true → f64_between 0 unit64 f.
Proof.
  intros Hv H0 H1. assert (f64_finite f = true) as Hf by (by destruct f as [|[]| |]).
  destruct (of_int_between 1 1 ltac:(lia) ltac:(lia)) as (H1v & H1f & H1u).
  rewrite f64_le_units in H0, H1 by done. apply Z.leb_le in H0, H1. change (units (f64_of_int 0)) with 0 in H0.
  split_and!; try done; lia.
Qed.

(** The jitter after its clamp to one. *)
Lemma clamped_jitter jitter :
  f64_valid jitter → f64_is_nan jitter = false → f64_le jitter (f64_of_int 0) = false →
  f64_between 1 unit64 (if f64_lt (f64_of_int 1) jitter then f64_of_int 1 else jitter).
Proof.
  intros Hv Hn H0. destruct (of_int_between 1 1 ltac:(lia) ltac:(lia)) as (H1v & H1f & H1u).
  destruct (f64_lt (f64_of_int 1) jitter) eqn:E.
  - split_and!; try done; unfold unit64 in *; lia.
  - assert (f64_finite jitter = true) as Hf by (by destruct jitter as [|[]| |]).
    rewrite f64_lt_units in E by done. rewrite f64_le_units in H0 by done. apply Z.ltb_ge in E. apply Z.leb_gt in H0.
    change (units (f64_of_int 0)) with 0 in H0. split_and!; try done; lia.
Qed.

(** C37: A jittered delay is at least a nanosecond and never above the cap. For every retry
    count and base, every cap below 2^52 nanoseconds (52 days), every random value between
    zero and one and every jitter that is a number, whatever the roundings of the
    floating-point interpolation are. *)
Theorem jitter_bounds random retryCount base max jitter :
  int64 base → 0 < max < 2 ^ 52 → f64_valid random → f64_valid jitter → f64_is_nan jitter = false →
  f64_le (f64_of_int 0) random = true → f64_le random (f64_of_int 1) = true →
  1 ≤ ExponentialBackoffWithJitter random retryCount base max jitter ≤ max.
Proof.
  intros Hb Hm Hrv Hjv Hjn Hr0 Hr1. pose proof (unit_interval random Hrv Hr0 Hr1) as Hr.
  destruct (ExponentialBackoff_spec retryCount base max Hb) as [_ HD]; [unfold int64, MinInt64, MaxInt64; lia|].
  unfold eff_max in HD. rewrite (proj2 (Z.leb_gt _ _)) in HD by lia. unfold ExponentialBackoffWithJitter.
  set (D := ExponentialBackoff retryCount base max) in *. clearbody D.
  destruct (f64_le jitter (f64_of_int 0)) eqn:E0; [lia|].
  pose proof (clamped_jitter jitter Hjv Hjn E0) as Hj.
  set (j := if f64_lt (f64_of_int 1) jitter then _ else _) in *. clearbody j.
  pose proof (lower_between D max j ltac:(lia) ltac:(lia) Hj) as Hl.
  pose proof (upper_between D max j ltac:(lia) ltac:(lia) Hj) as Hu.
  cbv zeta in Hu |- *. set (lower := f64_mul (f64_of_int D) (f64_sub (f64_of_int 1) j)) in *.
  set (upper := if f64_lt (f64_of_int max) _ then _ else _) in *.
  clearbody lower upper. destruct (f64_le upper lower) eqn:El; [lia|].
  pose proof Hl as (Hlv & Hlf & _). pose proof Hu as (Huv & Huf & _). rewrite f64_le_units in El by done. apply Z.leb_gt in El.
  apply (trunc_between D max); [lia|lia|]. apply (interpolate_between D max); first [done|lia].
Qed.

Lemma jitter_bounds_witness :
  1 ≤ ExponentialBackoffWithJitter (f64_div (f64_of_int 1) (f64_of_int 3)) 4 (2 * Second) Hour (f64_div (f64_of_int 1) (f64_of_int 5)) ≤ Hour.
Proof. apply jitter_bounds; [vm_compute; split; discriminate|vm_compute; split; reflexivity|reflexivity..]. Defined.
