(* ===== verification/HandlerMux.v ===== *)
(** * Handlers, routing and metrics ([server/handler_mux.go], [server/metrics.go])

    A handler receives the task message by pointer: it answers the message as it left it
    and its error. The mux is a map from task types to handlers behind a lock, so its
    operations are atomic. *)

From S2P Require Import Prelude GoLib Model.

(** ** Contexts and handlers *)

(** What a handler can observe of its context: its deadline and whether it is cancelled. *)
Record Context := mkContext { ctx_deadline : option Time; ctx_err : option error }.

Definition Handler : Type := Context → TaskMessage → TaskMessage * option error.

(** ** [HandlerMux] *)

Definition ErrUnknownTaskType : error := Err (Var "server.ErrUnknownTaskType") "unknown task type" [].
Definition ErrHandlerExists : error :=
  Err (Var "server.ErrHandlerExists") "task handler already registered" [].

(** [handlers] is [None] for the nil map of a zero [HandlerMux]. *)
Record HandlerMux := mkHandlerMux { handlers : option (gmap string Handler) }.

Definition NewHandlerMux : HandlerMux := mkHandlerMux (Some ∅).

(** [Handle] on a mux pointer ([None] is nil). *)
Definition Handle (m : option HandlerMux) (taskType : string) (handler : option Handler) :
    option HandlerMux * option error :=
  match m with
  | None => (m, Some (errors_New "handler mux is nil"))
  | Some mux =>
      if String.eqb taskType "" then (m, Some (errors_New "task type cannot be empty")) else
      match handler with
      | None => (m, Some (errors_New "task handler cannot be nil"))
      | Some handler =>
          let hs := default ∅ (handlers mux) in
          match hs !! taskType with
          | Some _ => (Some (mkHandlerMux (Some hs)), Some (Errorf_suffix ErrHandlerExists taskType))
          | None => (Some (mkHandlerMux (Some (<[taskType := handler]> hs))), None)
          end
      end
  end.

Definition ProcessTask (m : option HandlerMux) : Handler := λ ctx msg,
  match m with
  | None => (msg, Some ErrUnknownTaskType)
  | Some mux =>
      match handlers mux ≫= lookup (TaskType msg) with
      | None => (msg, Some (Errorf_suffix ErrUnknownTaskType (TaskType msg)))
      | Some handler => handler ctx msg
      end
  end.

(** A sequence of registrations, with the errors they answered. *)
Fixpoint register (m : option HandlerMux) (regs : list (string * option Handler)) :
    option HandlerMux * list (option error) :=
  match regs with
  | [] => (m, [])
  | (ty, h) :: regs =>
      let '(m, e) := Handle m ty h in
      let '(m, es) := register m regs in
      (m, e :: es)
  end.

(** The first handler of a type that can be registered. *)
Fixpoint first_handler (ty : string) (regs : list (string * option Handler)) : option Handler :=
  match regs with
  | [] => None
  | (ty', h) :: regs =>
      if (negb (String.eqb ty' "") && String.eqb ty' ty)%bool
      then match h with Some h => Some h | None => first_handler ty regs end
      else first_handler ty regs
  end.

(** What a mux routes a type to. *)
Definition routes (m : option HandlerMux) (ty : string) : option Handler :=
  match m with Some mux => handlers mux ≫= lookup ty | None => None end.

Lemma Handle_routes mux ty h ty' :
  routes (Handle (Some mux) ty h).1 ty' =
    match routes (Some mux) ty' with
    | Some h' => Some h'
    | None => if (negb (String.eqb ty "") && String.eqb ty ty')%bool then h else None
    end ∧ is_Some (Handle (Some mux) ty h).1.
Proof.
  unfold routes, Handle. cbn. destruct (String.eqb_spec ty "") as [->|Hne]; cbn.
  { split; [|eauto]. by destruct (handlers mux ≫= lookup ty'). }
  destruct h as [h|]; cbn.
  2:{ split; [|eauto]. destruct (handlers mux ≫= lookup ty'); [done|]. by case_match. }
  assert (∀ ty, default ∅ (handlers mux) !! ty = handlers mux ≫= lookup ty) as Hd.
  { intros. destruct (handlers mux); cbn; [done|]. by rewrite lookup_empty. }
  rewrite <-!Hd. destruct (default ∅ (handlers mux) !! ty) as [h0|] eqn:E; cbn.
  - split; [|eauto]. destruct (String.eqb_spec ty ty') as [<-|]; [by rewrite E|]. by case_match.
  - split; [|eauto]. destruct (String.eqb_spec ty ty') as [<-|].
    + by rewrite lookup_insert_eq, E.
    + rewrite lookup_insert_ne by done. by case_match.
Qed.

Lemma register_routes mux regs ty :
  routes (register (Some mux) regs).1 ty =
    match routes (Some mux) ty with Some h => Some h | None => first_handler ty regs end ∧
  is_Some (register (Some mux) regs).1.
Proof.
  revert mux. induction regs as [|[ty' h] regs IH]; intros mux.
  { split; [|by eexists]. cbn. by destruct (handlers mux ≫= lookup ty). }
  cbn [register]. destruct (Handle_routes mux ty' h ty) as [Hr [mux' Hm]].
  destruct (Handle (Some mux) ty' h) as [m e]. cbn [fst] in *. subst m.
  specialize (IH mux'). destruct (register (Some mux') regs) as [m es]. cbn [fst] in *.
  destruct IH as [IH HS]. split; [|done]. rewrite IH, Hr. cbn [first_handler].
  destruct (routes (Some mux) ty); [done|].
  destruct (negb (String.eqb ty' "") && String.eqb ty' ty)%bool; [|done]. by destruct h.
Qed.

(** C40: Routing. After any sequence of registrations on a new mux, a task is processed by
    the first non-nil handler registered for its type, and by no other, later registrations
    of the same type being refused; a task whose type has none is answered with an error
    that is [ErrUnknownTaskType], its message untouched. *)
Theorem HandlerMux_routes regs ctx msg :
  ProcessTask (register (Some NewHandlerMux) regs).1 ctx msg =
    match first_handler (TaskType msg) regs with
    | Some handler => handler ctx msg
    | None => (msg, Some (Errorf_suffix ErrUnknownTaskType (TaskType msg)))
    end ∧
  errors_Is (Errorf_suffix ErrUnknownTaskType (TaskType msg)) ErrUnknownTaskType = true.
Proof.
  split; [|done]. destruct (register_routes NewHandlerMux regs (TaskType msg)) as [Hr [mux Hm]].
  rewrite Hm in *. change (ProcessTask (Some mux) ctx msg) with
    (match routes (Some mux) (TaskType msg) with
     | None => (msg, Some (Errorf_suffix ErrUnknownTaskType (TaskType msg)))
     | Some handler => handler ctx msg
     end). rewrite Hr. cbn. rewrite lookup_empty.
  by destruct (first_handler _ _).
Qed.

(** ** [Metrics] *)

Record Metrics := mkMetrics {
  processed : Z; failed : Z; retried : Z; archived : Z; durationNanos : Z
}.

Definition NewMetrics : Metrics := mkMetrics 0 0 0 0 0.

(** [atomic.Int64.Add] wraps around. The receivers are [None] for nil. *)
Definition RecordProcessed (m : option Metrics) : option Metrics :=
  (λ m, mkMetrics (wrap64 (processed m + 1)) (failed m) (retried m) (archived m) (durationNanos m)) <$> m.
Definition RecordFailed (m : option Metrics) : option Metrics :=
  (λ m, mkMetrics (processed m) (wrap64 (failed m + 1)) (retried m) (archived m) (durationNanos m)) <$> m.
Definition RecordRetried (m : option Metrics) : option Metrics :=
  (λ m, mkMetrics (processed m) (failed m) (wrap64 (retried m + 1)) (archived m) (durationNanos m)) <$> m.
Definition RecordArchived (m : option Metrics) : option Metrics :=
  (λ m, mkMetrics (processed m) (failed m) (retried m) (wrap64 (archived m + 1)) (durationNanos m)) <$> m.
Definition RecordDuration (d : Duration) (m : option Metrics) : option Metrics :=
  (λ m, mkMetrics (processed m) (failed m) (retried m) (archived m) (wrap64 (durationNanos m + d))) <$> m.

Record MetricsSnapshot := mkSnapshot {
  Processed : Z; Failed : Z; Retried : Z; Archived : Z; TotalDuration : Duration
}.

Definition Snapshot (m : option Metrics) : MetricsSnapshot :=
  match m with
  | None => mkSnapshot 0 0 0 0 0
  | Some m => mkSnapshot (processed m) (failed m) (retried m) (archived m) (durationNanos m)
  end.
