(* ===== verification/Client.v ===== *)
(** * The client ([client/client.go])

    Options, the message [Enqueue] builds from them, and what it does with the store.
    The store is the interface [ClientStore]; the Redis store implements it. *)

From S2P Require Import Prelude GoLib Model Storage Redis RedisMem Keys Scripts Codec.
From S2P Require Import JsonCodec Store QueueView QueueSpec QueueInv ScriptSpecs StoreRefine.
From S2P Require Import Requests QueueProps History StoreTheorems TaskLifecycle QueueTheorems.

(** ** Options *)

Definition DefaultQueue : string := "default".
Definition DefaultMaxRetry : Z := 3.

Record taskOptions := mkOptions {
  o_id : string; o_queue : string; o_priority : Z; o_maxRetry : Z; o_timeout : Duration;
  o_deadline : Time; o_runAt : Time; o_runAtSet : bool; o_runIn : Duration; o_runInSet : bool
}.

Definition Option : Type := taskOptions → result taskOptions.

Definition WithTaskID (id : string) : Option := λ o,
  if String.eqb id "" then inl (errors_New "task id cannot be empty")
  else inr (mkOptions id (o_queue o) (o_priority o) (o_maxRetry o) (o_timeout o) (o_deadline o)
              (o_runAt o) (o_runAtSet o) (o_runIn o) (o_runInSet o)).

Definition WithQueue (queue : string) : Option := λ o,
  if String.eqb queue "" then inl (errors_New "queue cannot be empty")
  else inr (mkOptions (o_id o) queue (o_priority o) (o_maxRetry o) (o_timeout o) (o_deadline o)
              (o_runAt o) (o_runAtSet o) (o_runIn o) (o_runInSet o)).

Definition WithPriority (priority : Z) : Option := λ o,
  if priority <? 0 then inl (errors_New ("priority must be non-negative: " +:+ FormatInt priority))
  else inr (mkOptions (o_id o) (o_queue o) priority (o_maxRetry o) (o_timeout o) (o_deadline o)
              (o_runAt o) (o_runAtSet o) (o_runIn o) (o_runInSet o)).

Definition WithMaxRetry (maxRetry : Z) : Option := λ o,
  if maxRetry <? 0 then inl (errors_New ("max retry must be non-negative: " +:+ FormatInt maxRetry))
  else inr (mkOptions (o_id o) (o_queue o) (o_priority o) maxRetry (o_timeout o) (o_deadline o)
              (o_runAt o) (o_runAtSet o) (o_runIn o) (o_runInSet o)).

Definition WithTimeout (timeout : Duration) : Option := λ o,
  if timeout <? 0 then inl (errors_New "timeout cannot be negative")
  else inr (mkOptions (o_id o) (o_queue o) (o_priority o) (o_maxRetry o) timeout (o_deadline o)
              (o_runAt o) (o_runAtSet o) (o_runIn o) (o_runInSet o)).

Definition WithDeadline (deadline : Time) : Option := λ o,
  inr (mkOptions (o_id o) (o_queue o) (o_priority o) (o_maxRetry o) (o_timeout o) deadline
         (o_runAt o) (o_runAtSet o) (o_runIn o) (o_runInSet o)).

Definition ProcessAt (at_ : Time) : Option := λ o,
  if IsZero at_ then inl (errors_New "process time cannot be zero")
  else inr (mkOptions (o_id o) (o_queue o) (o_priority o) (o_maxRetry o) (o_timeout o) (o_deadline o)
              at_ true (o_runIn o) false).

Definition ProcessIn (delay : Duration) : Option := λ o,
  if delay <? 0 then inl (errors_New "process delay cannot be negative")
  else inr (mkOptions (o_id o) (o_queue o) (o_priority o) (o_maxRetry o) (o_timeout o) (o_deadline o)
              (o_runAt o) false delay true).

(** The options the package exports: no other value of the type can be made outside it. *)
Inductive exported : Option → Prop :=
| exp_id id : exported (WithTaskID id)
| exp_queue queue : exported (WithQueue queue)
| exp_priority p : exported (WithPriority p)
| exp_maxRetry n : exported (WithMaxRetry n)
| exp_timeout d : exported (WithTimeout d)
| exp_deadline t : exported (WithDeadline t)
| exp_at t : exported (ProcessAt t)
| exp_in d : exported (ProcessIn d).

(** [for _, option := range ...]: nil options are skipped, the first error returned. *)
Fixpoint apply_options (opts : list (option Option)) (o : taskOptions) : result taskOptions :=
  match opts with
  | [] => inr o
  | None :: opts => apply_options opts o
  | Some option :: opts =>
      match option o with
      | inl err => inl err
      | inr o => apply_options opts o
      end
  end.

(** ** Tasks and the client *)

Record Task := mkTask { typeName : string; payload : list Byte.byte; opts : list (option Option) }.

Definition NewTask (typeName : string) (payload : list Byte.byte) (opts : list (option Option)) : Task :=
  mkTask typeName payload opts.

(** The store a client needs: each method answers the message as it leaves it. *)
Class ClientStore (W : Type) := {
  cs_Enqueue : TaskMessage → W → W * result TaskMessage;
  cs_Schedule : TaskMessage → W → W * result TaskMessage
}.

#[export] Instance RedisClientStore `{Redis, TaskCodec} : ClientStore world := {|
  cs_Enqueue m := Store.Enqueue (Some m);
  cs_Schedule m := Store.Schedule (Some m)
|}.

(** [randomID]: [value] is what [rand.Read] yields. *)
Definition randomID (value : result (list Byte.byte)) : result string :=
  match value with inl e => inl e | inr bs => inr (hex_EncodeToString bs) end.

Definition initial_options (id : string) (now : Time) : taskOptions :=
  mkOptions id DefaultQueue 0 DefaultMaxRetry 0 zeroTime now false 0 false.

(** [if options.runInSet { options.runAt = now.Add(options.runIn) }]. *)
Definition run_time (now : Time) (o : taskOptions) : Time :=
  if o_runInSet o then Add now (o_runIn o) else o_runAt o.

Definition build (task : Task) (now : Time) (o : taskOptions) : TaskMessage :=
  mkTaskMessage (o_id o) (typeName task) (payload task) (o_queue o) (o_priority o) (o_maxRetry o) 0
    (o_timeout o) (o_deadline o) (run_time now o) StatePending "" "" zeroTime zeroTime now.

Section client.
Context {W : Type} `{ClientStore W}.

(** [Client.Enqueue]. [client] is [None] when the client or its store is nil, [ctx_err] is
    [ctx.Err()] of the (non-nil) context, [now] and [id] are what [c.now] and [c.newID]
    yield. *)
Definition Client_Enqueue (client : option unit) (ctx_err : option error) (now : Time)
    (id : result string) (task : option Task) (extra : list (option Option)) (w : W) :
    W * result TaskMessage :=
  match client, task with
  | None, _ => (w, inl (errors_New "client store is nil"))
  | _, None => (w, inl (errors_New "task is nil"))
  | _, Some task =>
      if String.eqb (typeName task) "" then (w, inl (errors_New "task type cannot be empty")) else
      match ctx_err with
      | Some err => (w, inl (Errorf_w "enqueue context" err))
      | None =>
          match id with
          | inl err => (w, inl (Errorf_w "create task id" err))
          | inr id =>
              match apply_options (opts task ++ extra) (initial_options id now) with
              | inl err => (w, inl err)
              | inr options =>
                  let msg := build task now options in
                  if After (RunAt msg) now
                  then cs_Schedule (set_State StateScheduled msg) w
                  else cs_Enqueue msg w
              end
          end
      end
  end.

Definition EnqueueAt client ctx_err now id task (at_ : Time) (extra : list (option Option)) :=
  Client_Enqueue client ctx_err now id task (Some (ProcessAt at_) :: extra).
Definition EnqueueIn client ctx_err now id task (delay : Duration) (extra : list (option Option)) :=
  Client_Enqueue client ctx_err now id task (Some (ProcessIn delay) :: extra).
End client.

(** ** What the options give *)

(** The options a valid message is built from. *)
Record valid_options (o : taskOptions) : Prop := {
  vo_id : o_id o ≠ ""; vo_queue : o_queue o ≠ ""; vo_priority : 0 ≤ o_priority o;
  vo_maxRetry : 0 ≤ o_maxRetry o; vo_timeout : 0 ≤ o_timeout o;
  vo_runAt : IsZero (o_runAt o) = false; vo_runIn : 0 ≤ o_runIn o
}.

Lemma exported_valid option o o' :
  exported option → option o = inr o' → valid_options o → valid_options o'.
Proof.
  intros Hexp Ho []. destruct Hexp;
    unfold WithTaskID, WithQueue, WithPriority, WithMaxRetry, WithTimeout, WithDeadline, ProcessAt, ProcessIn in Ho;
    try (case_match eqn:E; [done|]); injection Ho as <-; constructor; cbn in *;
    try (by apply String.eqb_neq); try done; bool_to_prop; lia.
Qed.

Lemma apply_options_valid options o o' :
  (∀ option, Some option ∈ options → exported option) →
  apply_options options o = inr o' → valid_options o → valid_options o'.
Proof.
  revert o. induction options as [|[option|] options IH]; intros o Hexp Ha Hv; cbn in Ha.
  - by injection Ha as <-.
  - destruct (option o) as [e|o1] eqn:E; [done|]. eapply IH; [|exact Ha|].
    + intros. apply Hexp. by right.
    + eapply exported_valid; [|exact E|done]. apply Hexp. left.
  - eapply IH; [|exact Ha|done]. intros. apply Hexp. by right.
Qed.

(** C38: What a client sends to the store is always acceptable. With exported options only,
    a non-empty task type and a fresh non-empty id, whenever the options are accepted the
    message [Enqueue] builds passes [Validate]; it is sent to [Schedule] exactly when its
    run time is after now, in state scheduled and with a run time that is not zero, and to
    [Enqueue] in state pending otherwise; it carries the task's type and payload, the
    creation time now, no attempt and no retries. *)
Theorem client_message_valid {W} `{ClientStore W} now id task extra options (w : W) :
  (∀ option, Some option ∈ opts task ++ extra → exported option) →
  typeName task ≠ "" → id ≠ "" → 0 ≤ now →
  apply_options (opts task ++ extra) (initial_options id now) = inr options →
  ∃ msg, valid_message msg ∧ TaskType msg = typeName task ∧ Payload msg = payload task ∧
    CreatedAt msg = now ∧ AttemptID msg = "" ∧ Model.RetryCount msg = 0 ∧
    RunAt msg = run_time now options ∧
    ((now < RunAt msg ∧ State msg = StateScheduled ∧ IsZero (RunAt msg) = false ∧
      Client_Enqueue (Some tt) None now (inr id) (Some task) extra w = cs_Schedule msg w) ∨
     (RunAt msg ≤ now ∧ State msg = StatePending ∧
      Client_Enqueue (Some tt) None now (inr id) (Some task) extra w = cs_Enqueue msg w)).
Proof.
  intros Hexp Hty Hid Hnow Ha.
  assert (valid_options options) as Hv.
  { eapply apply_options_valid; [done|done|]. constructor; cbn; try done.
    unfold IsZero, zeroTime. apply Z.eqb_neq. lia. }
  assert (∀ st, valid_message (set_State st (build task now options))) as Hvm.
  { intros st. destruct Hv. constructor; cbn; done. }
  unfold Client_Enqueue. rewrite (proj2 (String.eqb_neq _ _) Hty), Ha.
  destruct (After (RunAt (build task now options)) now) eqn:E; unfold After in E; bool_to_prop.
  - exists (set_State StateScheduled (build task now options)). split_and!; try done. left.
    split_and!; try done. unfold IsZero, zeroTime. apply Z.eqb_neq. cbn in *. lia.
  - exists (build task now options). split_and!; try done; [apply (Hvm StatePending)|]. right. done.
Qed.

(** Options that do not concern the run time. *)
Inductive time_neutral : Option → Prop :=
| neutral_id id : time_neutral (WithTaskID id)
| neutral_queue queue : time_neutral (WithQueue queue)
| neutral_priority p : time_neutral (WithPriority p)
| neutral_maxRetry n : time_neutral (WithMaxRetry n)
| neutral_timeout d : time_neutral (WithTimeout d)
| neutral_deadline t : time_neutral (WithDeadline t).

Lemma neutral_run_time options o o' now :
  (∀ option, Some option ∈ options → time_neutral option) →
  apply_options options o = inr o' → run_time now o' = run_time now o.
Proof.
  revert o. induction options as [|[option|] options IH]; intros o Hn Ha; cbn in Ha.
  - by injection Ha as <-.
  - destruct (option o) as [e|o1] eqn:E; [done|].
    rewrite (IH o1); [|intros; apply Hn; by right|done].
    destruct (Hn option); [left|..];
      unfold WithTaskID, WithQueue, WithPriority, WithMaxRetry, WithTimeout, WithDeadline in E;
      repeat case_match; by simplify_eq.
  - apply IH; [|done]. intros. apply Hn. by right.
Qed.

Lemma apply_options_app options options' o :
  apply_options (options ++ options') o =
    match apply_options options o with inl e => inl e | inr o => apply_options options' o end.
Proof.
  revert o. induction options as [|[option|] options IH]; intros o; cbn; [done| |done].
  by destruct (option o).
Qed.

(** The last run-time option wins. Whatever options come before, when only options
    that do not concern the run time follow, [ProcessAt t] makes the task run at [t] and
    [ProcessIn d] at now plus [d]; with no run-time option at all the task runs now. *)
Theorem client_run_time now id before after :
  (∀ option, Some option ∈ after → time_neutral option) →
  (∀ t options, apply_options (before ++ Some (ProcessAt t) :: after) (initial_options id now) = inr options →
     run_time now options = t) ∧
  (∀ d options, apply_options (before ++ Some (ProcessIn d) :: after) (initial_options id now) = inr options →
     run_time now options = Add now d) ∧
  (∀ options, apply_options after (initial_options id now) = inr options → run_time now options = now).
Proof.
  intros Hn. split_and!.
  - intros t options. rewrite apply_options_app. destruct (apply_options before _) as [e|o1]; [done|].
    cbn. unfold ProcessAt at 1. destruct (IsZero t); [done|].
    intros Ha. by rewrite (neutral_run_time _ _ _ now Hn Ha).
  - intros d options. rewrite apply_options_app. destruct (apply_options before _) as [e|o1]; [done|].
    cbn. unfold ProcessIn at 1. destruct (d <? 0); [done|].
    intros Ha. by rewrite (neutral_run_time _ _ _ now Hn Ha).
  - intros options Ha. by rewrite (neutral_run_time _ _ _ now Hn Ha).
Qed.

(** ** Witnesses *)

Definition email_task : Task := NewTask "send" [Byte.x68] [Some (WithQueue "emails"); None; Some (WithPriority 5)].

Lemma email_exported option :
  Some option ∈ opts email_task ++ [Some (ProcessIn Second)] → exported option.
Proof.
  intros Hin. repeat (apply elem_of_cons in Hin as [Hin|Hin]; [simplify_eq; constructor|]).
  by apply elem_of_nil in Hin.
Qed.

Lemma client_message_valid_witness :
  ∃ msg, valid_message msg ∧ State msg = StateScheduled ∧
    Client_Enqueue (Some tt) None (5 * Second) (inr "id1") (Some email_task) [Some (ProcessIn Second)]
      (World (H := RedisMem) ∅ []) = cs_Schedule msg (World (H := RedisMem) ∅ []).
Proof.
  destruct (client_message_valid (5 * Second) "id1" email_task [Some (ProcessIn Second)]
    (mkOptions "id1" "emails" 5 3 0 zeroTime (5 * Second) false Second true) (World (H := RedisMem) ∅ []))
    as (msg & Hv & _ & _ & _ & _ & _ & Hr & [(Hlt & Hs & _ & He)|(Hle & _)]).
  - apply email_exported.
  - discriminate.
  - discriminate.
  - vm_compute. discriminate.
  - reflexivity.
  - exists msg. split; [exact Hv|]. split; [exact Hs|exact He].
  - rewrite Hr in Hle. vm_compute in Hle. destruct Hle. reflexivity.
Defined.

Lemma client_run_time_witness :
  ∃ options, apply_options ([Some (ProcessIn Hour)] ++ Some (ProcessAt (9 * Second)) :: [Some (WithPriority 1)])
    (initial_options "id1" Second) = inr options ∧ run_time Second options = 9 * Second.
Proof.
  eexists. split; [reflexivity|].
  refine (proj1 (client_run_time Second "id1" [Some (ProcessIn Hour)] [Some (WithPriority 1)] _) (9 * Second) _ eq_refl).
  intros option Hin. apply list_elem_of_singleton in Hin as [= ->]. constructor.
Defined.
