(* ===== verification/TaskStore.v ===== *)
(** * The storage contract of the server ([storage/storage.go], [TaskStore])

    The server is written against this interface. A method that reads the clock or the
    random source takes what it reads; one that takes a message pointer answers the
    message as it leaves it. The Redis store implements the interface. *)

From S2P Require Import Prelude GoLib Model Storage Redis Keys Scripts Codec Store.

(** What the implementation reads during one call. *)
Record readings := mkReadings { rd_now : Time; rd_rand : result (list Byte.byte) }.

Class TaskStore (W : Type) := {
  ts_Enqueue : option TaskMessage → W → W * result TaskMessage;
  ts_Schedule : option TaskMessage → W → W * result TaskMessage;
  ts_Claim : readings → string → Time → Duration → W → W * result TaskMessage;
  ts_MoveReady : Time → Z → list string → W → W * (Z * option error);
  ts_AckSuccess : readings → TaskMessage → W → W * result TaskMessage;
  ts_ScheduleRetry : readings → TaskMessage → Time → string → W → W * result TaskMessage;
  ts_Archive : readings → TaskMessage → string → W → W * result TaskMessage;
  ts_Requeue : TaskMessage → W → W * result TaskMessage;
  ts_Get : string → string → W → W * result TaskMessage;
  ts_ExpiredIDs : Time → string → Z → W → W * result (list string);
  ts_PendingCount : string → W → W * result Z;
  ts_RetryCount : string → W → W * result Z;
  ts_ArchivedCount : string → W → W * result Z;
  ts_ExtendLease : string → list (option TaskMessage) → Time → Duration → W → W * result unit
}.

(** The Redis store with lease duration [leaseDuration] as a [TaskStore]. *)
Definition RedisTaskStore `{Redis, TaskCodec} (leaseDuration : Duration) : TaskStore world := {|
  ts_Enqueue := Store.Enqueue;
  ts_Schedule := Store.Schedule;
  ts_Claim rd := Store.Claim leaseDuration (rd_rand rd);
  ts_MoveReady := Store.MoveReady;
  ts_AckSuccess rd := Store.AckSuccess (rd_now rd);
  ts_ScheduleRetry rd := Store.ScheduleRetry (rd_now rd);
  ts_Archive rd := Store.Archive (rd_now rd);
  ts_Requeue := Store.Requeue;
  ts_Get := Store.Get;
  ts_ExpiredIDs := Store.ExpiredIDs;
  ts_PendingCount := Store.PendingCount;
  ts_RetryCount := Store.RetryCount;
  ts_ArchivedCount := Store.ArchivedCount;
  ts_ExtendLease := Store.ExtendLease leaseDuration
|}.

(** The management of dead letters. *)
Class DeadLetterStore (W : Type) := {
  dl_ListDeadLetters : string → Z → Z → W → W * result (list TaskMessage);
  dl_GetDeadLetter : string → string → W → W * result TaskMessage;
  dl_ReplayDeadLetter : readings → string → string → W → W * result unit;
  dl_DeleteDeadLetter : string → string → W → W * result unit;
  dl_CleanupDeadLetters : string → Time → Z → W → W * result Z
}.

#[export] Instance RedisDeadLetterStore `{Redis, TaskCodec} : DeadLetterStore world := {|
  dl_ListDeadLetters := Store.ListDeadLetters;
  dl_GetDeadLetter := Store.GetDeadLetter;
  dl_ReplayDeadLetter rd := Store.ReplayDeadLetter (rd_now rd);
  dl_DeleteDeadLetter := Store.DeleteDeadLetter;
  dl_CleanupDeadLetters := Store.CleanupDeadLetters
|}.
