(* ===== verification/Server.v ===== *)
(** * The server ([server/server.go])

    Configuration, queue order, the worker's [process], and one pass of each of the
    maintenance loops, over any [TaskStore]. Clock readings, random draws and the order
    of map iterations are arguments. *)

From S2P Require Import Prelude GoLib Model Storage Redis Codec Store TaskStore Backoff.
From S2P Require Import HandlerMux.
From S2P Require Import Float.

Definition ErrNonRetryable : error := Err (Var "server.ErrNonRetryable") "non-retryable task failure" [].
Definition ErrServerClosed : error := Err (Var "server.ErrServerClosed") "server is closed" [].
Definition ErrServerRunning : error := Err (Var "server.ErrServerRunning") "server is already running" [].
Definition ErrInvalidConfig : error := Err (Var "server.ErrInvalidConfig") "invalid server configuration" [].

(** ** Configuration *)

(** The answer of a limiter to one acquisition. *)
Record Result := mkResult { Allowed : bool; RetryAfter : Duration; Tokens : float64 }.

(** The rate-limit contract ([limiter/limiter.go]) over a limiter state [L]. *)
Record Limiter (L : Type) := mkLimiter {
  l_Acquire : float64 → L → L * result Result;
  l_Validate : option error;
  l_Capacity : float64
}.
Arguments mkLimiter {_} _ _ _.
Arguments l_Acquire {_} _ _ _.
Arguments l_Validate {_} _.
Arguments l_Capacity {_} _.

Section config.
Context {L : Type}.

Record Config := mkConfig {
  Concurrency : Z; Queues : gmap string Z; LeaseDuration : Duration; PollInterval : Duration;
  ShutdownTimeout : Duration; RetryBaseDelay : Duration; RetryMaxDelay : Duration;
  RetryJitter : float64; HeartbeatInterval : Duration; RecoveryInterval : Duration;
  TokenBucket : option (Limiter L); TokenAmount : float64
}.

(** [if d <= 0 { d = default }]. *)
Definition or_default (d default : Z) : Z := if d <=? 0 then default else d.

Definition applyDefaults (c : Config) : Config :=
  mkConfig (or_default (Concurrency c) 1)
    (if decide (Queues c = ∅) then {["default" := 1]} else Queues c)
    (or_default (LeaseDuration c) (30 * Second)) (or_default (PollInterval c) (20 * Millisecond))
    (or_default (ShutdownTimeout c) (8 * Second)) (or_default (RetryBaseDelay c) (2 * Second))
    (or_default (RetryMaxDelay c) Hour) (RetryJitter c)
    (or_default (HeartbeatInterval c) (10 * Second)) (or_default (RecoveryInterval c) Second)
    (TokenBucket c) (if f64_le (TokenAmount c) (f64_of_int 0) then f64_of_int 1 else TokenAmount c).

(** [validate]; the rendered operands are left out of the error texts. *)
Definition validate (c : Config) : option error :=
  if LeaseDuration c <=? HeartbeatInterval c then
    Some (Errorf_suffix ErrInvalidConfig "heartbeat interval must be less than lease duration")
  else if (f64_lt (RetryJitter c) (f64_of_int 0) || f64_lt (f64_of_int 1) (RetryJitter c))%bool then
    Some (Errorf_suffix ErrInvalidConfig "retry jitter must be between 0 and 1")
  else
    match TokenBucket c with
    | None => None
    | Some bucket =>
        match l_Validate bucket with
        | Some err => Some (Errorf_suffix ErrInvalidConfig (error_text err))
        | None =>
            if (f64_is_nan (TokenAmount c) || f64_is_inf (TokenAmount c) ||
                f64_lt (l_Capacity bucket) (TokenAmount c))%bool
            then Some (Errorf_suffix ErrInvalidConfig "token amount must be finite and no greater than bucket capacity")
            else None
        end
    end.

(** [sort.SliceStable] by descending priority: every element goes after those of
    priority at least its own. *)
Fixpoint insert_queue (prio : string → Z) (q : string) (l : list string) : list string :=
  match l with
  | [] => [q]
  | x :: l => if prio x <? prio q then q :: x :: l else x :: insert_queue prio q l
  end.
Definition sort_queues (prio : string → Z) (l : list string) : list string :=
  foldl (λ acc q, insert_queue prio q acc) [] l.

(** The queue order of [New]; [iteration] is the order in which the map is ranged over. *)
Definition server_queues (c : Config) (iteration : list string) : list string :=
  let prio q := default 0 (Queues c !! q) in
  let queues := filter (λ q, 0 < prio q) iteration in
  let queues := match queues with [] => ["default"] | _ => queues end in
  sort_queues prio queues.
End config.
Arguments Config : clear implicits.

(** ** State *)

Record activeTaskKey := mkActiveKey { ak_queue : string; ak_id : string; ak_attemptID : string }.

#[export] Instance activeTaskKey_eq_dec : EqDecision activeTaskKey.
Proof. solve_decision. Defined.
#[export] Instance activeTaskKey_countable : Countable activeTaskKey.
Proof.
  apply (inj_countable' (λ k, (ak_queue k, ak_id k, ak_attemptID k))
    (λ '(q, i, a), mkActiveKey q i a)). by intros [].
Defined.

Definition activeKey (msg : TaskMessage) : activeTaskKey := mkActiveKey (Queue msg) (ID msg) (AttemptID msg).

Section server.
Context {L W : Type} `{TaskStore W}.

(** What the workers and the loops share: the store, the metrics ([None] for nil), the
    errors given to the error handler ([None] if there is none), the active tasks. *)
Record Server := mkServer {
  srv_store : W; srv_metrics : option Metrics; srv_errors : option (list error);
  srv_active : gmap activeTaskKey TaskMessage
}.

Definition with_store (w : W) (s : Server) : Server :=
  mkServer w (srv_metrics s) (srv_errors s) (srv_active s).
Definition record (f : option Metrics → option Metrics) (s : Server) : Server :=
  mkServer (srv_store s) (f (srv_metrics s)) (srv_errors s) (srv_active s).
Definition reportError (err : error) (s : Server) : Server :=
  mkServer (srv_store s) (srv_metrics s) ((λ l, l ++ [err]) <$> srv_errors s) (srv_active s).

Definition trackActive (msg : TaskMessage) (s : Server) : Server * activeTaskKey :=
  let key := activeKey msg in
  (mkServer (srv_store s) (srv_metrics s) (srv_errors s) (<[key := msg]> (srv_active s)), key).
Definition untrackActive (key : activeTaskKey) (s : Server) : Server :=
  mkServer (srv_store s) (srv_metrics s) (srv_errors s) (delete key (srv_active s)).

(** ** [process] *)

(** What one call of [process] reads: the clock at its start, when the context is made,
    when the retry time is computed and at its end; the state of the server's handler
    context; a random draw; what the store reads. *)
Record process_readings := mkProcessReadings {
  pr_started : Time; pr_ctx_now : Time; pr_retry_now : Time; pr_finished : Time;
  pr_cancelled : option error; pr_random : float64; pr_store : readings
}.

(** The context handed to the handler. *)
Definition handler_context (rd : process_readings) (msg : TaskMessage) : Context :=
  mkContext
    (if negb (IsZero (Deadline msg)) then Some (Deadline msg)
     else if 0 <? Timeout msg then Some (Add (pr_ctx_now rd) (Timeout msg)) else None)
    (pr_cancelled rd).

Definition retry_delay (c : Config L) (random : float64) (retryCount : Z) : Duration :=
  ExponentialBackoffWithJitter random retryCount (RetryBaseDelay c) (RetryMaxDelay c) (RetryJitter c).

(** A call of the store whose error is reported and whose success is counted. *)
Definition settle_call {A} (call : W → W * result A) (count : option Metrics → option Metrics)
    (s : Server) : Server :=
  match call (srv_store s) with
  | (w, inl err) => reportError err (with_store w s)
  | (w, inr _) => record count (with_store w s)
  end.

Definition process (c : Config L) (handler : Handler) (rd : process_readings) (msg : TaskMessage)
    (s : Server) : Server :=
  let '(msg, err) := handler (handler_context rd msg) msg in
  let s :=
    match err with
    | None => settle_call (ts_AckSuccess (pr_store rd) msg) RecordProcessed s
    | Some err =>
        let s := record RecordFailed s in
        let reason := error_text err in
        if (errors_Is err ErrNonRetryable || (MaxRetry msg <=? Model.RetryCount msg))%bool then
          settle_call (ts_Archive (pr_store rd) msg reason) RecordArchived s
        else
          let at_ := Add (pr_retry_now rd) (retry_delay c (pr_random rd) (Model.RetryCount msg)) in
          let msg := set_RetryCount (wrap64 (Model.RetryCount msg + 1)) msg in
          settle_call (ts_ScheduleRetry (pr_store rd) msg at_ reason) RecordRetried s
    end in
  record (RecordDuration (Sub (pr_finished rd) (pr_started rd))) s.

(** One message of [worker]. *)
Definition worker_step (c : Config L) (handler : Handler) (rd : process_readings) (msg : TaskMessage)
    (s : Server) : Server :=
  let '(s, key) := trackActive msg s in
  untrackActive key (process c handler rd msg s).

(** ** [recoveryLoop], one tick *)

Definition lease_expired : string := "task lease expired".

(** The body for one expired id. *)
Definition recover_id (c : Config L) (now : Time) (queue : string) (random : float64)
    (rd : readings) (id : string) (s : Server) : Server :=
  match ts_Get queue id (srv_store s) with
  | (w, inl err) => reportError err (with_store w s)
  | (w, inr msg) =>
      let s := with_store w s in
      if negb (String.eqb (State msg) StateActive) then s
      else if MaxRetry msg <=? Model.RetryCount msg then
        settle_call (ts_Archive rd msg lease_expired) RecordArchived s
      else
        let msg := set_RetryCount (wrap64 (Model.RetryCount msg + 1)) msg in
        let at_ := Add now (retry_delay c random (wrap64 (Model.RetryCount msg - 1))) in
        settle_call (ts_ScheduleRetry rd msg at_ lease_expired) RecordRetried s
  end.

Definition recover_queue (c : Config L) (now : Time) (random : string → string → float64)
    (rd : string → string → readings) (s : Server) (queue : string) : Server :=
  match ts_ExpiredIDs now queue 100 (srv_store s) with
  | (w, inl err) => reportError err (with_store w s)
  | (w, inr ids) =>
      foldl (λ s id, recover_id c now queue (random queue id) (rd queue id) id s) (with_store w s) ids
  end.

Definition recovery_tick (c : Config L) (queues : list string) (now : Time)
    (random : string → string → float64) (rd : string → string → readings) (s : Server) : Server :=
  foldl (recover_queue c now random rd) s queues.

(** ** [heartbeatLoop], one tick *)

(** The messages of one queue the heartbeat builds from the active keys. *)
Definition heartbeat_tasks (keys : list activeTaskKey) (queue : string) : list (option TaskMessage) :=
  (λ k, Some (mkTaskMessage (ak_id k) "" [] (ak_queue k) 0 0 0 0 zeroTime zeroTime "" (ak_attemptID k)
                "" zeroTime zeroTime zeroTime))
    <$> filter (λ k, ak_queue k = queue) keys.

(** [keys] and [queues] are the orders in which the two maps are ranged over. *)
Definition heartbeat_tick (c : Config L) (now : Time) (keys : list activeTaskKey)
    (queues : list string) (s : Server) : Server :=
  foldl (λ s queue,
    match ts_ExtendLease queue (heartbeat_tasks keys queue) now (LeaseDuration c) (srv_store s) with
    | (w, inl err) => reportError err (with_store w s)
    | (w, inr _) => with_store w s
    end) s queues.

(** ** [dispatch], one iteration *)

(** What the iteration ends with: a wait, or a claimed message to hand to a worker. *)
Inductive dispatch_next := DispatchWait (d : Duration) | DispatchJob (msg : TaskMessage).

(** The loop that looks for pending tasks. *)
Fixpoint has_pending (queues : list string) (s : Server) : Server * bool :=
  match queues with
  | [] => (s, false)
  | queue :: queues =>
      match ts_PendingCount queue (srv_store s) with
      | (w, inl err) => has_pending queues (reportError err (with_store w s))
      | (w, inr pending) =>
          if 0 <? pending then (with_store w s, true) else has_pending queues (with_store w s)
      end
  end.

(** The loop that claims, at most once. *)
Fixpoint claim_first_of (c : Config L) (rd : string → readings) (queues : list string)
    (s : Server) : Server * option TaskMessage :=
  match queues with
  | [] => (s, None)
  | queue :: queues =>
      match ts_Claim (rd queue) queue (rd_now (rd queue)) (LeaseDuration c) (srv_store s) with
      | (w, inl err) =>
          if IsQueueEmpty (Some err) then claim_first_of c rd queues (with_store w s)
          else claim_first_of c rd queues (reportError err (with_store w s))
      | (w, inr msg) => (with_store w s, Some msg)
      end
  end.

(** One turn of the loop of [dispatch], with the state of the limiter. *)
Definition dispatch_iteration (c : Config L) (queues : list string) (now : Time)
    (rd : string → readings) (l : L) (s : Server) : L * Server * dispatch_next :=
  match ts_MoveReady now 100 queues (srv_store s) with
  | (w, (_, Some err)) => (l, reportError err (with_store w s), DispatchWait (PollInterval c))
  | (w, (_, None)) =>
      let '(s, hasPending) := has_pending queues (with_store w s) in
      if negb hasPending then (l, s, DispatchWait (PollInterval c)) else
      let claim l s :=
        match claim_first_of c rd queues s with
        | (s, Some msg) => (l, s, DispatchJob msg)
        | (s, None) => (l, s, DispatchWait (PollInterval c))
        end in
      match TokenBucket c with
      | None => claim l s
      | Some bucket =>
          match l_Acquire bucket (TokenAmount c) l with
          | (l, inl err) => (l, reportError err s, DispatchWait (PollInterval c))
          | (l, inr result) =>
              if negb (Allowed result) then (l, s, DispatchWait (RetryAfter result)) else claim l s
          end
      end
  end.
End server.
Arguments Server : clear implicits.
