(* ===== verification/ServerTheorems.v ===== *)
(** * The server's configuration, workers and maintenance passes

    Theorems on [Server] for any store where only the server's logic matters, and on the
    Redis store where the outcome of a task does. *)

From S2P Require Import Float.
From S2P Require Import Prelude GoLib Model Storage Redis RedisMem Keys Scripts Codec.
From S2P Require Import JsonCodec Store QueueView QueueSpec QueueInv ScriptSpecs StoreRefine.
From S2P Require Import Requests QueueProps History StoreTheorems TaskLifecycle QueueTheorems.
From S2P Require Import MoveTheorems DeadLetters Backoff HandlerMux TaskStore Server.
From Stdlib Require Import Sorting.Sorted Floats.SpecFloat.

(** ** Queue order *)

Section order.
Context (prio : string → Z).

Definition prio_ge (a b : string) : Prop := prio b ≤ prio a.

Lemma insert_queue_perm q l : insert_queue prio q l ≡ₚ q :: l.
Proof.
  induction l as [|x l IH]; cbn; [done|]. case_match; [done|]. rewrite IH. apply Permutation_swap.
Qed.

Lemma insert_queue_sorted q l :
  StronglySorted prio_ge l → StronglySorted prio_ge (insert_queue prio q l).
Proof.
  induction 1 as [|x l Hl IH Hx]; cbn; [repeat constructor|]. case_match eqn:E; bool_to_prop.
  - constructor; [by constructor|]. constructor; [unfold prio_ge; lia|].
    eapply Forall_impl; [exact Hx|]. unfold prio_ge. lia.
  - constructor; [done|]. rewrite insert_queue_perm. constructor; [unfold prio_ge; lia|done].
Qed.

Lemma sort_queues_acc acc l :
  StronglySorted prio_ge acc →
  StronglySorted prio_ge (foldl (λ acc q, insert_queue prio q acc) acc l) ∧
  foldl (λ acc q, insert_queue prio q acc) acc l ≡ₚ acc ++ l.
Proof.
  revert acc. induction l as [|q l IH]; intros acc Ha; cbn; [by rewrite app_nil_r|].
  destruct (IH (insert_queue prio q acc)) as [Hs Hp]; [by apply insert_queue_sorted|].
  split; [done|]. rewrite Hp, insert_queue_perm. solve_Permutation.
Qed.

(** The queues [New] starts from. *)
Definition positive_queues (iteration : list string) : list string :=
  match filter (λ q, 0 < prio q) iteration with
  | [] => ["default"]
  | _ => filter (λ q, 0 < prio q) iteration
  end.

Lemma positive_queues_spec iteration :
  NoDup iteration → (∀ q, 0 < prio q → q ∈ iteration) →
  NoDup (positive_queues iteration) ∧ positive_queues iteration ≠ [] ∧
  ((∃ q, 0 < prio q) → ∀ q, q ∈ positive_queues iteration ↔ 0 < prio q) ∧
  ((∀ q, prio q ≤ 0) → positive_queues iteration = ["default"]).
Proof.
  intros Hnd Hin. unfold positive_queues.
  assert (∀ q, q ∈ filter (λ q, 0 < prio q) iteration ↔ 0 < prio q) as Hel.
  { intros q. rewrite list_elem_of_filter. naive_solver. }
  apply (NoDup_filter (λ q, 0 < prio q)) in Hnd.
  destruct (filter (λ q, 0 < prio q) iteration) as [|x l].
  - split_and!; [apply NoDup_singleton|done| |done]. intros [q Hq]. apply Hel in Hq.
    by apply elem_of_nil in Hq.
  - split_and!; [done|done|by intros _|]. intros Hno. specialize (Hno x).
    pose proof (proj1 (Hel x) ltac:(left)). lia.
Qed.
End order.

(** The order in which queues are served. Whatever order the queue map is iterated in,
    the server's queues are exactly the configured queues of positive priority (only
    "default" if there are none), each once, by descending priority. *)
Theorem server_queues_sorted {L} (c : Config L) iteration :
  iteration ≡ₚ elements (dom (Queues c)) →
  let prio q := default 0 (Queues c !! q) in
  let queues := server_queues c iteration in
  NoDup queues ∧ queues ≠ [] ∧ StronglySorted (λ a b, prio b ≤ prio a) queues ∧
  ((∃ q, 0 < prio q) → ∀ q, q ∈ queues ↔ 0 < prio q) ∧
  ((∀ q, prio q ≤ 0) → queues = ["default"]).
Proof.
  intros Hit prio queues.
  destruct (positive_queues_spec prio iteration) as (H1 & H2 & H3 & H4).
  { rewrite Hit. apply NoDup_elements. }
  { intros q Hp. rewrite Hit, elem_of_elements, elem_of_dom. unfold prio in Hp.
    destruct (Queues c !! q); [eauto|cbn in Hp; lia]. }
  change queues with (sort_queues prio (positive_queues prio iteration)). clear queues.
  destruct (sort_queues_acc prio [] (positive_queues prio iteration)) as [Hs Hp]; [constructor|].
  fold (sort_queues prio (positive_queues prio iteration)) in Hs, Hp. cbn [app] in Hp.
  split_and!.
  - by rewrite Hp.
  - intros E. apply H2. apply Permutation_nil. by rewrite <-Hp, E.
  - exact Hs.
  - intros He q. rewrite Hp. by apply H3.
  - intros Hno. by rewrite (H4 Hno).
Qed.

(** Defaults make a configuration usable. After [applyDefaults] every duration and the
    worker count are positive and there is a queue; values that were set are kept; applying
    it twice changes nothing; and a configuration without jitter and rate limit whose
    heartbeat interval is below its lease duration is accepted by [validate]. *)
Theorem applyDefaults_correct {L} (c : Config L) :
  let c' := applyDefaults c in
  0 < Concurrency c' ∧ 0 < LeaseDuration c' ∧ 0 < PollInterval c' ∧ 0 < ShutdownTimeout c' ∧
  0 < RetryBaseDelay c' ∧ 0 < RetryMaxDelay c' ∧ 0 < HeartbeatInterval c' ∧ 0 < RecoveryInterval c' ∧
  Queues c' ≠ ∅ ∧ f64_le (TokenAmount c') (f64_of_int 0) = false ∧
  (0 < LeaseDuration c → LeaseDuration c' = LeaseDuration c) ∧
  (Queues c ≠ ∅ → Queues c' = Queues c) ∧ applyDefaults c' = c' ∧
  (RetryJitter c = f64_of_int 0 → TokenBucket c = None →
   validate c' = None ↔ HeartbeatInterval c' < LeaseDuration c').
Proof.
  assert (∀ d def, 0 < def → 0 < or_default d def) as Hpos.
  { intros d def Hd. unfold or_default. case_match; bool_to_prop; lia. }
  assert (∀ d def, 0 < def → or_default (or_default d def) def = or_default d def) as Hidem.
  { intros d def Hd. unfold or_default at 1. case_match eqn:E; bool_to_prop; [|done].
    specialize (Hpos d def Hd). lia. }
  assert (∀ q : gmap string Z, (if decide (q = ∅) then {["default" := 1]} else q) ≠ ∅) as Hq.
  { intros q. case_decide; [|done]. by apply insert_non_empty. }
  assert (∀ f, f64_le (if f64_le f (f64_of_int 0) then f64_of_int 1 else f) (f64_of_int 0) = false) as Hf.
  { intros f. destruct (f64_le f (f64_of_int 0)) eqn:E; [reflexivity|done]. }
  intros c'. unfold c', applyDefaults. cbn -[f64_le f64_of_int or_default].
  split_and!; try (apply Hpos; done); try apply Hq; try apply Hf.
  - intros Hl. unfold or_default. case_match; bool_to_prop; lia.
  - intros Hne. by rewrite decide_False.
  - rewrite !Hidem, Hf by done. rewrite decide_False by apply Hq. done.
  - intros Hj Hb. unfold validate. cbn -[or_default]. rewrite Hj, Hb. cbn -[or_default].
    case_match eqn:E; bool_to_prop; split; intros; try done; lia.
Qed.

Lemma server_queues_sorted_witness :
  StronglySorted (λ a b, default 0 (({["low" := 1; "high" := 9; "off" := 0]} : gmap string Z) !! b) ≤
      default 0 (({["low" := 1; "high" := 9; "off" := 0]} : gmap string Z) !! a))
    (server_queues (L := unit) (mkConfig 1 {["low" := 1; "high" := 9; "off" := 0]} 0 0 0 0 0
       (f64_of_int 0) 0 0 None (f64_of_int 0)) ["off"; "low"; "high"]).
Proof.
  destruct (server_queues_sorted (L := unit) (mkConfig 1 {["low" := 1; "high" := 9; "off" := 0]} 0 0 0 0 0
    (f64_of_int 0) 0 0 None (f64_of_int 0)) ["off"; "low"; "high"]) as (_ & _ & Hs & _).
  - apply NoDup_Permutation; [|apply NoDup_elements|].
    + vm_compute. repeat (constructor; [set_solver|]). constructor.
    + intros q. rewrite elem_of_elements. cbn [Queues]. set_solver.
  - exact Hs.
Defined.

(** A jitter that is not a number is not between 0 and 1, and passes [validate] all the same;
    a token amount that is not a number does not. *)
Lemma nan_jitter_accepted {L} :
  validate (applyDefaults (mkConfig (L := L) 0 ∅ 0 0 0 0 0 S754_nan 0 0 None (f64_of_int 0))) = None.
Proof. reflexivity. Qed.

(** ** Workers *)

Section worker.
Context {L : Type} `{Redis, TaskCodec} (leaseDuration : Duration).
#[local] Instance redis_store : TaskStore world := RedisTaskStore leaseDuration.

(** How a worker ends an attempt, from the message the handler left and its error. *)
Definition verdict (c : Config L) (rd : process_readings) (msg : TaskMessage) (err : option error) :
    settlement * TaskMessage :=
  let now := rd_now (pr_store rd) in
  match err with
  | None => (SAck now, msg)
  | Some err =>
      if (errors_Is err ErrNonRetryable || (MaxRetry msg <=? Model.RetryCount msg))%bool
      then (SArchive now (error_text err), msg)
      else (SRetry now (Add (pr_retry_now rd) (retry_delay c (pr_random rd) (Model.RetryCount msg)))
              (error_text err),
            set_RetryCount (wrap64 (Model.RetryCount msg + 1)) msg)
  end.

(** The counters of a verdict: [ok] says whether the store accepted it. *)
Definition counted (st : settlement) (ok : bool) (m : option Metrics) : option Metrics :=
  match st with
  | SAck _ => if ok then RecordProcessed m else m
  | SRetry _ _ _ => let m := RecordFailed m in if ok then RecordRetried m else m
  | SArchive _ _ => let m := RecordFailed m in if ok then RecordArchived m else m
  | SRequeue => m
  end.

(** [process] is one settlement: its effect on the store, the error it reports and the
    counters. *)
Lemma process_settle c handler rd msg s :
  let '(msg', err) := handler (handler_context rd msg) msg in
  let '(st, m) := verdict c rd msg' err in
  let '(w, r) := settle st m (srv_store s) in
  let ok := if r is inr _ then true else false in
  process c handler rd msg s =
    mkServer w (RecordDuration (Sub (pr_finished rd) (pr_started rd)) (counted st ok (srv_metrics s)))
      (if r is inl e then (λ l, l ++ [e]) <$> srv_errors s else srv_errors s) (srv_active s).
Proof.
  unfold process. destruct (handler _ msg) as [msg' [err|]]; cbn.
  - destruct (errors_Is err ErrNonRetryable || (MaxRetry msg' <=? Model.RetryCount msg'))%bool; cbn;
      unfold settle_call; cbn; repeat (case_match; simplify_eq; try done).
  - unfold settle_call. cbn. repeat (case_match; simplify_eq; try done).
Qed.

(** The status a settlement gives the task. *)
Definition settled_status (st : settlement) : astatus :=
  match st with
  | SAck _ => ACompleted
  | SRetry _ at_ _ => ARetry (score_ms at_)
  | SArchive now _ => AArchived (score_ms now)
  | SRequeue => APending
  end.

Lemma verdict_ids c rd msg err :
  ID (verdict c rd msg err).2 = ID msg ∧ Queue (verdict c rd msg err).2 = Queue msg ∧
  AttemptID (verdict c rd msg err).2 = AttemptID msg ∧ (verdict c rd msg err).1 ≠ SRequeue.
Proof. unfold verdict. destruct err as [err|]; [|done]. case_match; [done|]. by destruct msg. Qed.

Lemma settle_owned st m text S t l :
  st ≠ SRequeue → aq_tasks S !! ID m = Some t → at_status t = AActive (AttemptID m) l →
  s_settle st m text S = Some (aq_put (ID m) (with_status (settled_status st) (with_msg text t)) S).
Proof.
  intros Hst Ht Ha. destruct st; [..|done]; cbn; unfold s_ack, s_retry, s_archive, s_finish;
    by rewrite Ht, Ha, String.eqb_refl.
Qed.

Lemma process_owned c handler rd msg msg' err s S ks0 t l text :
  Impl (Queue msg) ks0 (keyspace (w_db (srv_store s))) S → w_net (srv_store s) = [] →
  aq_tasks S !! ID msg = Some t → at_status t = AActive (AttemptID msg) l →
  handler (handler_context rd msg) msg = (msg', err) →
  ID msg' = ID msg → Queue msg' = Queue msg → AttemptID msg' = AttemptID msg →
  let '(st, m) := verdict c rd msg' err in
  Marshal (settled st m) = inr text →
  ∃ w', process c handler rd msg s =
      mkServer w' (RecordDuration (Sub (pr_finished rd) (pr_started rd)) (counted st true (srv_metrics s)))
        (srv_errors s) (srv_active s) ∧ w_net w' = [] ∧
    Impl (Queue msg) ks0 (keyspace (w_db w'))
      (aq_put (ID msg) (with_status (settled_status st) (with_msg text t)) S).
Proof.
  intros HS Hn Ht Ha Hh Hi Hq Hatt. pose proof (process_settle c handler rd msg s) as Hp. rewrite Hh in Hp.
  pose proof (verdict_ids c rd msg' err) as (Hvi & Hvq & Hva & Hvs).
  destruct (verdict c rd msg' err) as [st m]. cbn [fst snd] in *. intros Hm.
  rewrite <-Hi, <-Hvi in Ht. rewrite <-Hatt, <-Hva in Ha. rewrite <-Hq, <-Hvq in *.
  assert (settled_text st m = inr text) as Htext by (by destruct st).
  pose proof (settle_refines _ _ st m (srv_store s) S text HS eq_refl Htext) as Hop.
  rewrite (settle_owned st m text S t l Hvs Ht Ha) in Hop.
  destruct (op_spec_answered _ _ _ _ _ _ _ Hop (quiet_answered _ Hn)) as (w' & Hr & Hn' & HI).
  rewrite Hr in Hp. cbn [fst snd or_refuse] in *. exists w'. rewrite Hn in Hn'.
  split; [exact Hp|]. split; [done|]. by rewrite <-Hi, <-Hvi.
Qed.

(** C13: A processed task does not stay active. A worker that owns its task, with no fault
    of the network and a handler that keeps the message's identity: if the handler
    succeeded the task is completed; if it failed with an error that is [ErrNonRetryable]
    or the retries are used up, the task is archived; otherwise it is retried after the
    backoff, with the retry count one higher. The stored envelope is the updated message,
    no error is reported, and the counters say what happened. *)
Theorem process_ends_attempt c handler rd msg msg' err s S ks0 t l text :
  Impl (Queue msg) ks0 (keyspace (w_db (srv_store s))) S → w_net (srv_store s) = [] →
  aq_tasks S !! ID msg = Some t → at_status t = AActive (AttemptID msg) l →
  handler (handler_context rd msg) msg = (msg', err) →
  ID msg' = ID msg → Queue msg' = Queue msg → AttemptID msg' = AttemptID msg →
  let '(st, m) := verdict c rd msg' err in
  Marshal (settled st m) = inr text →
  ∃ w', process c handler rd msg s =
      mkServer w' (RecordDuration (Sub (pr_finished rd) (pr_started rd)) (counted st true (srv_metrics s)))
        (srv_errors s) (srv_active s) ∧ w_net w' = [] ∧
    Impl (Queue msg) ks0 (keyspace (w_db w'))
      (aq_put (ID msg) (with_status (settled_status st) (with_msg text t)) S).
Proof. apply process_owned. Qed.

(** A worker that lost its task changes nothing. If the attempt no longer owns the
    task (its lease expired and the task was recovered, settled or claimed again), then
    whatever the handler answered and whatever the network does, [process] leaves the
    keyspace as it is, reports exactly one error, and counts neither a processed, nor a
    retried, nor an archived task. *)
Theorem process_stale_harmless (c : Config L) handler rd msg msg' err s :
  handler (handler_context rd msg) msg = (msg', err) →
  reachable (w_db (srv_store s)) → plain_queue (Queue msg') → stale (w_db (srv_store s)) msg' →
  ∃ w' e, process c handler rd msg s =
      mkServer w' (RecordDuration (Sub (pr_finished rd) (pr_started rd))
        (if err is Some _ then RecordFailed (srv_metrics s) else srv_metrics s))
        ((λ l, l ++ [e]) <$> srv_errors s) (srv_active s) ∧
    keyspace (w_db w') = keyspace (w_db (srv_store s)).
Proof.
  intros Hh Hd Hq Hst. pose proof (process_settle c handler rd msg s) as Hp. rewrite Hh in Hp.
  pose proof (verdict_ids c rd msg' err) as (Hvi & Hvq & Hva & Hvs).
  assert (∀ ok, ok = false → counted (verdict c rd msg' err).1 ok (srv_metrics s) =
    (if err is Some _ then RecordFailed (srv_metrics s) else srv_metrics s)) as Hc.
  { intros ok ->. unfold verdict. destruct err as [e0|]; [|done]. by destruct (errors_Is e0 ErrNonRetryable || _)%bool. }
  destruct (verdict c rd msg' err) as [st m]. cbn [fst snd] in *.
  rewrite <-Hvq in Hq. destruct (reachable_Stored _ Hd _ Hq) as [S HS].
  destruct (settle_stale st m (srv_store s) S _ HS) as (w' & e & Hr & Hk & _).
  { unfold stale. by rewrite Hvi, Hvq, Hva. }
  rewrite Hr in Hp. exists w', e. split; [|done]. rewrite Hp. by rewrite Hc.
Qed.

(** Retries are bounded. Starting from a retry count of at most the maximum, no
    verdict stores a higher one: a retry is decided only below the maximum, stores exactly
    one more (the counter does not overflow) and is never decided for a non-retryable
    error; a failure at the maximum is always archived. *)
Theorem verdict_bounds_retries c rd msg err :
  Model.RetryCount msg ≤ MaxRetry msg → int64 (MaxRetry msg) → int64 (Model.RetryCount msg) →
  let '(st, m) := verdict c rd msg (Some err) in
  MaxRetry m = MaxRetry msg ∧ Model.RetryCount m ≤ MaxRetry m ∧
  match st with
  | SRetry _ _ _ => Model.RetryCount msg < MaxRetry msg ∧ errors_Is err ErrNonRetryable = false ∧
      Model.RetryCount m = Model.RetryCount msg + 1
  | SArchive _ _ => (Model.RetryCount msg = MaxRetry msg ∨ errors_Is err ErrNonRetryable = true) ∧
      Model.RetryCount m = Model.RetryCount msg
  | _ => False
  end.
Proof.
  intros Hle Hi Hj. unfold verdict.
  destruct (errors_Is err ErrNonRetryable) eqn:E; cbn; [split_and!; auto|].
  destruct (MaxRetry msg <=? Model.RetryCount msg) eqn:El; bool_to_prop.
  - split_and!; try done. left. lia.
  - rewrite wrap64_id by (unfold int64 in *; lia). destruct msg; cbn in *. split_and!; done || lia.
Qed.
End worker.

(** ** Witnesses *)

Definition test_config : Config unit :=
  applyDefaults (mkConfig 0 ∅ 0 0 0 0 0 (f64_of_int 0) 0 0 None (f64_of_int 0)).

Definition enc (m : TaskMessage) : string := message_text m.

(** Task "b" was enqueued and claimed by attempt "t1" with a lease of five seconds. *)
Definition leased_history : list (string * request) :=
  [("emails", RqEnqueue (sample "b" 0 Second) (enc (sample "b" 0 Second)));
   ("emails", RqClaim Second (5 * Second) "t1")].

Definition leased_world : world (H := RedisMem) := World (H := RedisMem) (mem_run leased_history) [].
Definition leased_queue (q : string) : aqueue := mem_queue q leased_history.

Lemma leased_ok : history_ok leased_history.
Proof. repeat constructor. Qed.
Lemma leased_reachable : reachable (H := RedisMem) (w_db leased_world).
Proof. apply mem_run_reachable; [apply leased_ok|by vm_compute]. Qed.
Lemma leased_Impl q :
  plain_queue q → Impl (H := RedisMem) q (w_db leased_world) (w_db leased_world) (leased_queue q).
Proof. apply mem_run_Impl; [apply leased_ok|by vm_compute]. Qed.

Definition leased_server : Server (world (H := RedisMem)) := mkServer leased_world (Some NewMetrics) (Some []) ∅.

Definition failing : Handler := λ _ m, (m, Some (errors_New "boom")).
Definition test_readings : process_readings :=
  mkProcessReadings (2 * Second) (2 * Second) (3 * Second) (3 * Second) None (f64_of_int 0)
    (mkReadings (3 * Second) (inr [])).
Definition b_active (attempt : string) : TaskMessage :=
  set_AttemptID attempt (set_State StateActive (sample "b" 0 Second)).

(** Task "b" is active under attempt "t1". *)
Lemma leased_tasks : aq_tasks (leased_queue "emails") = {["b" := ATask (enc (sample "b" 0 Second)) 1000 1 (AActive "t1" 6000)]}.
Proof. vm_compute. reflexivity. Qed.

Lemma leased_b : ∃ t l, aq_tasks (leased_queue "emails") !! "b" = Some t ∧ at_status t = AActive "t1" l.
Proof. vm_compute. eexists _, _. split; reflexivity. Qed.

Lemma process_ends_attempt_witness :
  ∃ w' t text, process (H := RedisTaskStore (H := RedisMem) Second) test_config failing test_readings
      (b_active "t1") leased_server =
    mkServer w' (Some (mkMetrics 0 1 1 0 Second)) (Some []) ∅ ∧
    Impl (H := RedisMem) "emails" (w_db leased_world) (w_db w')
      (aq_put "b" (with_status (ARetry 5000) (with_msg text t)) (leased_queue "emails")).
Proof.
  destruct leased_b as (t & l & Ht & Ha).
  destruct (process_ends_attempt (H := RedisMem) Second test_config failing test_readings (b_active "t1")
    (b_active "t1") (Some (errors_New "boom")) leased_server (leased_queue "emails") (w_db leased_world) t l
    (enc (settled (SRetry (3 * Second) (5 * Second) "boom") (set_RetryCount 1 (b_active "t1"))))
    (leased_Impl "emails" eq_refl) eq_refl Ht Ha eq_refl eq_refl eq_refl eq_refl)
    as (w' & Hp & _ & HI).
  - vm_compute. reflexivity.
  - eexists w', t, _. split; [exact Hp|exact HI].
Defined.

Lemma process_stale_harmless_witness :
  ∃ w' e, process (H := RedisTaskStore (H := RedisMem) Second) test_config failing test_readings
      (b_active "t0") leased_server =
    mkServer w' (Some (mkMetrics 0 1 0 0 Second)) (Some [e]) ∅ ∧ w_db w' = w_db leased_world.
Proof.
  destruct (process_stale_harmless (H := RedisMem) Second test_config failing test_readings (b_active "t0")
    (b_active "t0") (Some (errors_New "boom")) leased_server eq_refl leased_reachable eq_refl)
    as (w' & e & Hp & Hk).
  - right. vm_compute. discriminate.
  - exists w', e. split; [exact Hp|exact Hk].
Defined.

Lemma verdict_bounds_retries_witness :
  Model.RetryCount (verdict test_config test_readings (set_RetryCount 2 (b_active "t1"))
    (Some (errors_New "boom"))).2 = 3.
Proof.
  pose proof (verdict_bounds_retries test_config test_readings (set_RetryCount 2 (b_active "t1"))
    (errors_New "boom") ltac:(vm_compute; discriminate)
    ltac:(vm_compute; split; discriminate) ltac:(vm_compute; split; discriminate)) as Hv.
  exact (proj2 (proj2 (proj2 (proj2 Hv)))).
Defined.
