(* ===== verification/Maintenance.v ===== *)
(** * Recovery and heartbeat ([server/server.go], [recoveryLoop] and [heartbeatLoop])

    One tick of each loop over the Redis store: what happens to the tasks of every queue. *)

From S2P Require Import Float.
From S2P Require Import Prelude GoLib Model Storage Redis RedisMem Keys Scripts Codec.
From S2P Require Import JsonCodec Store QueueView QueueSpec QueueInv ScriptSpecs StoreRefine.
From S2P Require Import Requests QueueProps History StoreTheorems TaskLifecycle QueueTheorems.
From S2P Require Import MoveTheorems DeadLetters Backoff HandlerMux TaskStore Server.
From S2P Require Import ServerTheorems.

(** ** All queues of a database *)

Definition upd_queue (q : string) (S : aqueue) (Sq : string → aqueue) : string → aqueue :=
  λ q', if decide (q = q') then S else Sq q'.

Definition AllImpl `{Redis} (Sq : string → aqueue) (ks : keyspace_t) : Prop :=
  ∀ q, plain_queue q → Impl q ks ks (Sq q).

Lemma AllImpl_upd `{Redis} Sq q S ks ks' :
  AllImpl Sq ks → plain_queue q → Impl q ks ks' S → AllImpl (upd_queue q S Sq) ks'.
Proof.
  intros HA Hq HS q' Hq'. unfold upd_queue. case_decide as E.
  - subst q'. by eapply Impl_rebase.
  - eapply (Impl_frame q q'); eauto.
Qed.

Section maintenance.
Context {L : Type} `{Redis, TaskCodec} (leaseDuration : Duration).
#[local] Instance redis_store : TaskStore world := RedisTaskStore leaseDuration.

(** ** Recovery *)

(** What recovery decides for a message whose lease expired. *)
Definition recovery_verdict (c : Config L) (now : Time) (random : float64) (rd : readings)
    (m : TaskMessage) : settlement * TaskMessage :=
  if MaxRetry m <=? Model.RetryCount m then (SArchive (rd_now rd) lease_expired, m)
  else
    (SRetry (rd_now rd) (Add now (retry_delay c random (Model.RetryCount m))) lease_expired,
     set_RetryCount (wrap64 (Model.RetryCount m + 1)) m).

(** An active task whose envelope decodes to its own message, of which the updated
    version can be encoded as [text]. *)
Definition recoverable (c : Config L) (now : Time) (random : float64) (rd : readings) (q : string)
    (id : string) (t : atask) (m : TaskMessage) (text : string) : Prop :=
  ∃ a l m0, at_status t = AActive a l ∧ a ≠ "" ∧ Unmarshal (at_msg t) = inr m0 ∧
    m = set_AttemptID a (set_State StateActive m0) ∧ ID m = id ∧ Queue m = q ∧
    int64 (Model.RetryCount m) ∧
    let '(st, m') := recovery_verdict c now random rd m in Marshal (settled st m') = inr text.

Definition recovered (c : Config L) (now : Time) (random : float64) (rd : readings)
    (m : TaskMessage) (text : string) (t : atask) : atask :=
  with_status (settled_status (recovery_verdict c now random rd m).1) (with_msg text t).

Lemma recover_id_quiet c now q random rd id s S ks0 t m text :
  Impl q ks0 (keyspace (w_db (srv_store s))) S → w_net (srv_store s) = [] →
  aq_tasks S !! id = Some t → recoverable c now random rd q id t m text →
  ∃ w' ms, recover_id c now q random rd id s = mkServer w' ms (srv_errors s) (srv_active s) ∧
    w_net w' = [] ∧
    Impl q ks0 (keyspace (w_db w')) (aq_put id (recovered c now random rd m text t) S).
Proof.
  intros HS Hn Ht (a & l & m0 & Ha & Hne & Hu & Hm & Hid & Hq & Hr & Hv).
  destruct (op_spec_answered _ _ _ _ _ _ _ (Get_refines q ks0 id (srv_store s) S HS) (quiet_answered _ Hn))
    as (w1 & Hg & Hn1 & H1). rewrite Hn in Hn1. cbn [fst snd] in *.
  assert (get_exp S id = inr m) as Hge.
  { unfold get_exp. rewrite Ht, Hu, Ha. rewrite (proj2 (String.eqb_neq a "") Hne). subst m. by destruct m0. }
  rewrite Hge in Hg. assert (State m = StateActive ∧ AttemptID m = a) as [Hst Hatt].
  { subst m. by destruct m0. }
  unfold recover_id. cbn [ts_Get redis_store RedisTaskStore]. rewrite Hg, Hst. cbn [negb String.eqb StateActive].
  change (negb (String.eqb StateActive StateActive)) with false. cbv iota.
  unfold recovered. unfold recovery_verdict in *.
  destruct (MaxRetry m <=? Model.RetryCount m).
  - pose proof (settle_refines q ks0 (SArchive (rd_now rd) lease_expired) m w1 S text H1 Hq Hv) as Hop.
    rewrite (settle_owned _ m text S t l) in Hop by (rewrite ?Hid, ?Hatt; done).
    destruct (op_spec_answered _ _ _ _ _ _ _ Hop (quiet_answered _ Hn1)) as (w2 & Hs & Hn2 & H2).
    rewrite Hn1 in Hn2. cbn [settle fst snd or_refuse] in *. eexists w2, _.
    unfold settle_call. cbn [ts_Archive redis_store RedisTaskStore with_store srv_store].
    rewrite Hs. split; [done|]. split; [done|]. by rewrite <-Hid at 1.
  - set (m' := set_RetryCount _ m) in *.
    assert (ID m' = id ∧ Queue m' = q ∧ AttemptID m' = a) as (Hid' & Hq' & Ha').
    { unfold m'. destruct m; cbn in *. done. }
    pose proof (settle_refines q ks0 (SRetry (rd_now rd) (Add now (retry_delay c random (Model.RetryCount m))) lease_expired)
      m' w1 S text H1 Hq' Hv) as Hop.
    rewrite (settle_owned _ m' text S t l) in Hop by (rewrite ?Hid', ?Ha'; done).
    destruct (op_spec_answered _ _ _ _ _ _ _ Hop (quiet_answered _ Hn1)) as (w2 & Hs & Hn2 & H2).
    rewrite Hn1 in Hn2. cbn [settle fst snd or_refuse] in *. eexists w2, _.
    unfold settle_call. cbn [ts_ScheduleRetry redis_store RedisTaskStore with_store srv_store].
    assert (wrap64 (Model.RetryCount m' - 1) = Model.RetryCount m) as ->.
    { unfold m'. destruct m; cbn in *. by apply wrap64_succ_pred. }
    rewrite Hs. split; [done|]. split; [done|]. by rewrite <-Hid' at 1.
Qed.

Section pass.
Context (c : Config L) (now : Time) (random : string → string → float64)
  (rd : string → string → readings) (q : string).

(** Task [id] of [S] can be recovered, and [S'] holds what it becomes. *)
Definition recovers (S S' : aqueue) (id : string) : Prop :=
  ∃ t m text, aq_tasks S !! id = Some t ∧
    recoverable c now (random q id) (rd q id) q id t m text ∧
    aq_tasks S' !! id = Some (recovered c now (random q id) (rd q id) m text t).

Definition can_recover (S : aqueue) (id : string) : Prop :=
  ∃ t m text, aq_tasks S !! id = Some t ∧ recoverable c now (random q id) (rd q id) q id t m text.

Lemma recover_ids_quiet ids s S ks0 :
  NoDup ids → Impl q ks0 (keyspace (w_db (srv_store s))) S → w_net (srv_store s) = [] →
  (∀ id, id ∈ ids → can_recover S id) →
  ∃ w' ms S', foldl (λ s id, recover_id c now q (random q id) (rd q id) id s) s ids =
      mkServer w' ms (srv_errors s) (srv_active s) ∧ w_net w' = [] ∧
    Impl q ks0 (keyspace (w_db w')) S' ∧ aq_seq S' = aq_seq S ∧
    (∀ id, id ∉ ids → aq_tasks S' !! id = aq_tasks S !! id) ∧
    (∀ id, id ∈ ids → recovers S S' id).
Proof.
  revert s S. induction ids as [|id ids IH]; intros s S Hnd HS Hn Hcan.
  { exists (srv_store s), (srv_metrics s), S. cbn. split; [by destruct s|]. split_and!; try done.
    by intros id ?%elem_of_nil. }
  apply NoDup_cons in Hnd as [Hnin Hnd].
  destruct (Hcan id) as (t & m & text & Ht & Hr); [left|].
  destruct (recover_id_quiet c now q (random q id) (rd q id) id s S ks0 t m text HS Hn Ht Hr)
    as (w1 & ms1 & E1 & Hn1 & H1). cbn [foldl]. rewrite E1.
  destruct (IH (mkServer w1 ms1 (srv_errors s) (srv_active s)) _ Hnd H1 Hn1) as
    (w' & ms & S' & E & Hn' & HI & Hseq & Hout & Hin).
  { intros i Hi. destruct (Hcan i) as (t' & m' & text' & Ht' & Hr'); [by right|].
    exists t', m', text'. split; [|done]. cbn. rewrite lookup_insert_ne; [done|]. by intros ->. }
  exists w', ms, S'. split; [exact E|]. split_and!; [done..| |].
  - intros i Hi. rewrite Hout by set_solver. cbn. rewrite lookup_insert_ne; [done|]. set_solver.
  - intros i Hi. destruct (decide (i = id)) as [->|Hne].
    + exists t, m, text. split; [done|]. split; [done|]. rewrite Hout by done. cbn. by rewrite lookup_insert_eq.
    + destruct (Hin i) as (t' & m' & text' & Ht' & ?); [set_solver|]. exists t', m', text'.
      cbn in Ht'. rewrite lookup_insert_ne in Ht' by done. done.
Qed.

Lemma recover_queue_quiet s S ks0 :
  Impl q ks0 (keyspace (w_db (srv_store s))) S → w_net (srv_store s) = [] →
  let ids := take 100 (due_ids ZLease (score_ms now) S) in
  (∀ id, id ∈ ids → can_recover S id) →
  ∃ w' ms S', recover_queue c now random rd s q = mkServer w' ms (srv_errors s) (srv_active s) ∧
    w_net w' = [] ∧ Impl q ks0 (keyspace (w_db w')) S' ∧ aq_seq S' = aq_seq S ∧
    (∀ id, id ∉ ids → aq_tasks S' !! id = aq_tasks S !! id) ∧
    (∀ id, id ∈ ids → recovers S S' id).
Proof.
  intros HS Hn ids Hcan. unfold recover_queue. cbn [ts_ExpiredIDs redis_store RedisTaskStore].
  destruct (expired_quiet q ks0 now 100 (srv_store s) S HS (quiet_answered _ Hn)) as (w1 & -> & Hn1 & H1).
  rewrite Hn in Hn1. change (Z.to_nat (Store.limit_or_default 100)) with 100%nat. fold ids.
  apply (recover_ids_quiet ids (with_store w1 s) S ks0); [|done..].
  eapply sublist_NoDup; [apply due_ids_NoDup|apply sublist_take].
Qed.

(** C17: Recovery returns expired tasks to the life cycle. With no fault of the network,
    a recovery pass over a queue settles each of the first 100 active tasks whose lease
    has expired: a task that has used up its retries is archived, any other is retried
    with its retry count one higher, after the backoff of the old count; tasks whose
    lease has not expired, and all others, are untouched, and nothing is reported. *)
Theorem recover_queue_settles s S ks0 :
  Impl q ks0 (keyspace (w_db (srv_store s))) S → w_net (srv_store s) = [] →
  let ids := take 100 (due_ids ZLease (score_ms now) S) in
  (∀ id, id ∈ ids → can_recover S id) →
  ∃ w' ms S', recover_queue c now random rd s q = mkServer w' ms (srv_errors s) (srv_active s) ∧
    w_net w' = [] ∧ Impl q ks0 (keyspace (w_db w')) S' ∧
    (∀ id, id ∉ ids → aq_tasks S' !! id = aq_tasks S !! id) ∧
    (∀ id, id ∈ ids → recovers S S' id ∧ ∀ a, ¬ owned id a S').
Proof.
  intros HS Hn ids Hcan. destruct (recover_queue_quiet s S ks0 HS Hn Hcan) as (w' & ms & S' & E & Hn' & HI & _ & Hout & Hin).
  exists w', ms, S'. split; [exact E|]. split_and!; [done..|]. intros id Hid.
  pose proof (Hin id Hid) as Hrec. split; [done|].
  destruct Hrec as (t & m & text & _ & _ & Ht'). intros a (u & l & Hu & Hul).
  rewrite Ht' in Hu. injection Hu as <-. unfold recovered, recovery_verdict in Hul.
  by destruct (MaxRetry m <=? Model.RetryCount m).
Qed.
End pass.

(** ** Heartbeat *)

Lemma heartbeat_owners keys q :
  lease_owners (heartbeat_tasks keys q) =
    (λ k, (ak_id k, ak_attemptID k)) <$> filter (λ k, ak_queue k = q) keys.
Proof.
  unfold heartbeat_tasks, lease_owners. induction (filter (λ k, ak_queue k = q) keys) as [|k l IH]; [done|].
  cbn. f_equal. exact IH.
Qed.

(** A task of queue [q] after a heartbeat of the active attempts [keys]. *)
Definition beaten (lease : Z) (keys : list activeTaskKey) (q id : string) (t : atask) : atask :=
  match at_status t with
  | AActive a _ => if decide (mkActiveKey q id a ∈ keys) then with_status (AActive a lease) t else t
  | _ => t
  end.

Lemma beaten_renewed lease keys q id t :
  renewed lease (lease_owners (heartbeat_tasks keys q)) id t = beaten lease keys q id t.
Proof.
  unfold renewed, beaten. destruct (at_status t) as [| |a l| | |]; try done.
  assert ((id, a) ∈ lease_owners (heartbeat_tasks keys q) ↔ mkActiveKey q id a ∈ keys) as Hiff.
  { rewrite heartbeat_owners, list_elem_of_fmap. setoid_rewrite list_elem_of_filter. split.
    - intros ([q' i a'] & [= -> ->] & Hq & Hk). cbn in Hq. by subst q'.
    - intros Hk. by exists (mkActiveKey q id a). }
  destruct (decide ((id, a) ∈ _)), (decide (mkActiveKey q id a ∈ keys)); tauto.
Qed.

Lemma Run_net {A} (sc : Script A) w : w_net (Run sc w).1 = tail (w_net w).
Proof.
  unfold Run. destruct (w_net w) as [|[] net]; try done; destruct (run_script sc (w_db w)); done.
Qed.

Lemma ExtendLease_net lease0 q tasks now lease w w' r :
  Store.ExtendLease lease0 q tasks now lease w = (w', r) → w_net w = [] → w_net w' = [].
Proof.
  unfold Store.ExtendLease. intros E Hn. destruct tasks; [by injection E as <- _|].
  destruct (Store.extend_args q _) as [[|k ks] args]; [by injection E as <- _|].
  unfold gbind, gwrap, gret in E.
  pose proof (Run_net (extendLeaseScript (LeaseKey q :: k :: ks)
    (FormatInt (UnixMilli (Add now (Store.lease_or_default lease0 lease))) :: args)) w) as Hr.
  destruct (Run _ w) as [w1 [e|n]]; injection E as <- _; cbn in Hr; by rewrite Hr, Hn.
Qed.

Lemma heartbeat_queues c now keys queues s Sq :
  NoDup queues → Forall plain_queue queues → w_net (srv_store s) = [] →
  AllImpl Sq (keyspace (w_db (srv_store s))) →
  let lease := score_ms (Add now (Store.lease_or_default leaseDuration (LeaseDuration c))) in
  ∃ w' Sq', heartbeat_tick (L := L) c now keys queues s =
      mkServer w' (srv_metrics s) (srv_errors s) (srv_active s) ∧
    AllImpl Sq' (keyspace (w_db w')) ∧
    ∀ q id, aq_tasks (Sq' q) !! id =
      if decide (q ∈ queues) then beaten lease keys q id <$> aq_tasks (Sq q) !! id else aq_tasks (Sq q) !! id.
Proof.
  intros Hnd Hpl Hn HA lease. revert s Sq Hnd Hpl Hn HA.
  induction queues as [|q queues IH]; intros s Sq Hnd Hpl Hn HA.
  { exists (srv_store s), Sq. cbn. split; [by destruct s|]. split; [done|]. intros q id.
    rewrite decide_False; [done|]. by intros ?%elem_of_nil. }
  apply NoDup_cons in Hnd as [Hnin Hnd]. apply Forall_cons in Hpl as [Hq Hpl].
  destruct (proj2 (extend_answered leaseDuration q (heartbeat_tasks keys q) now (LeaseDuration c)
    (srv_store s) (Sq q) _ (HA q Hq)) (quiet_answered _ Hn)) as (w1 & S1 & E1 & H1 & Hl1).
  pose proof (ExtendLease_net _ _ _ _ _ _ _ _ E1 Hn) as Hn1.
  unfold heartbeat_tick in *. cbn [foldl ts_ExtendLease redis_store RedisTaskStore] in *. rewrite E1.
  destruct (IH (with_store w1 s) (upd_queue q S1 Sq) Hnd Hpl Hn1) as (w' & Sq' & E & HA' & Hl).
  { by eapply AllImpl_upd. }
  exists w', Sq'. split; [exact E|]. split; [done|]. intros q' id. rewrite Hl. unfold upd_queue.
  destruct (decide (q = q')) as [<-|Hne].
  - rewrite decide_False, decide_True by (done || by left). rewrite Hl1.
    destruct (aq_tasks (Sq q) !! id); [|done]. cbn. by rewrite beaten_renewed.
  - destruct (decide (q' ∈ queues)).
    + by rewrite decide_True by (by right).
    + by rewrite decide_False by set_solver.
Qed.

(** C18: A heartbeat keeps running tasks alive. With no fault of the network, one tick of
    the heartbeat over the active tasks of the server sets the lease of every tracked
    attempt that still owns its task to now plus the lease duration, and changes no other
    task of any queue; nothing is reported. The order in which Go ranges over its maps
    does not matter. *)
Theorem heartbeat_renews_active (c : Config L) now keys queues s Sq :
  keys ≡ₚ elements (dom (srv_active s)) → NoDup queues →
  (∀ q, q ∈ queues ↔ ∃ k, k ∈ dom (srv_active s) ∧ ak_queue k = q) → Forall plain_queue queues →
  w_net (srv_store s) = [] → AllImpl Sq (keyspace (w_db (srv_store s))) →
  ∃ w' Sq', heartbeat_tick c now keys queues s =
      mkServer w' (srv_metrics s) (srv_errors s) (srv_active s) ∧
    AllImpl Sq' (keyspace (w_db w')) ∧
    ∀ q id, aq_tasks (Sq' q) !! id =
      (λ t, match at_status t with
            | AActive a l =>
                if decide (mkActiveKey q id a ∈ dom (srv_active s))
                then with_status (AActive a (score_ms (Add now
                       (Store.lease_or_default leaseDuration (LeaseDuration c))))) t
                else t
            | _ => t
            end) <$> aq_tasks (Sq q) !! id.
Proof.
  intros Hk Hnd Hqs Hpl Hn HA.
  destruct (heartbeat_queues c now keys queues s Sq Hnd Hpl Hn HA) as (w' & Sq' & E & HA' & Hl).
  exists w', Sq'. split; [done|]. split; [done|]. intros q id. rewrite Hl.
  assert (∀ k, k ∈ keys ↔ k ∈ dom (srv_active s)) as Hkd by (intros k; by rewrite Hk, elem_of_elements).
  destruct (aq_tasks (Sq q) !! id) as [t|]; [|by case_decide]. cbn. unfold beaten.
  case_decide as Hq; destruct (at_status t) as [| |a l| | |]; try done; cbn.
  - f_equal. destruct (decide (_ ∈ keys)) as [Hi|Hi], (decide (_ ∈ dom _)) as [Hj|Hj];
      rewrite Hkd in Hi; done.
  - rewrite decide_False; [done|]. intros Hj. apply Hq, Hqs. by exists (mkActiveKey q id a).
Qed.
End maintenance.

(** ** Witnesses *)

Definition tick_readings (q id : string) : readings := mkReadings (9 * Second) (inr []).
Definition tick_random (q id : string) : float64 := f64_of_int 0.

Lemma recover_queue_settles_witness :
  ∃ w' ms S', recover_queue (H := RedisTaskStore (H := RedisMem) Second) test_config (9 * Second) tick_random
      tick_readings leased_server "emails" = mkServer w' ms (Some []) ∅ ∧
    Impl (H := RedisMem) "emails" (w_db leased_world) (w_db w') S' ∧ ∀ a, ¬ owned "b" a S'.
Proof.
  assert (take 100 (due_ids ZLease (score_ms (9 * Second)) (leased_queue "emails")) = ["b"]) as Eids
    by (vm_compute; reflexivity).
  destruct (recover_queue_settles (H := RedisMem) Second test_config (9 * Second) tick_random tick_readings
    "emails" leased_server (leased_queue "emails") (w_db leased_world) (leased_Impl "emails" eq_refl) eq_refl)
    as (w' & ms & S' & E & _ & HI & _ & Hin).
  - rewrite Eids. intros id Hid. apply list_elem_of_singleton in Hid as ->.
    destruct leased_b as (t & l & Ht & Ha). exists t. eexists _, _. split; [exact Ht|].
    eexists "t1", l, (sample "b" 0 Second). split; [exact Ha|]. split; [discriminate|]. split.
    { vm_compute in Ht. injection Ht as <-. vm_compute. reflexivity. }
    split; [reflexivity|]. split; [reflexivity|]. split; [reflexivity|].
    split; [vm_compute; split; discriminate|]. vm_compute. reflexivity.
  - exists w', ms, S'. split; [exact E|]. split; [exact HI|]. apply Hin. rewrite Eids. left.
Defined.

(** A server whose worker runs attempt "t1" of task "b". *)
Definition busy_server : Server (world (H := RedisMem)) :=
  mkServer leased_world (Some NewMetrics) (Some []) {[activeKey (b_active "t1") := b_active "t1"]}.

Lemma heartbeat_renews_active_witness :
  ∃ w' Sq', heartbeat_tick (H := RedisTaskStore (H := RedisMem) Second) test_config (4 * Second)
      [activeKey (b_active "t1")] ["emails"] busy_server =
    mkServer w' (Some NewMetrics) (Some []) (srv_active busy_server) ∧
    at_status <$> aq_tasks (Sq' "emails") !! "b" = Some (AActive "t1" 34000).
Proof.
  destruct (heartbeat_renews_active (H := RedisMem) Second test_config (4 * Second)
    [activeKey (b_active "t1")] ["emails"] busy_server leased_queue) as (w' & Sq' & E & _ & Hl).
  - unfold busy_server. cbn [srv_active]. by rewrite dom_singleton_L, elements_singleton.
  - apply NoDup_singleton.
  - intros q. unfold busy_server. cbn [srv_active]. rewrite dom_singleton_L, list_elem_of_singleton.
    setoid_rewrite elem_of_singleton. split; [intros ->; by eexists|]. by intros (k & -> & <-).
  - repeat constructor.
  - reflexivity.
  - intros q Hq. by apply leased_Impl.
  - exists w', Sq'. split; [exact E|]. rewrite Hl. vm_compute. reflexivity.
Defined.
