(* ===== verification/Leases.v ===== *)
(** * Live owners keep their tasks

    The servers of a queue run their recovery loops against the same database as the heartbeat
    of the server that runs a task. A recovery pass lists the expired tasks with one command
    and then reads and settles each of them with others; the requests of all parties
    interleave one by one. This file shows which interleavings leave a running task with its
    owner, and one that does not. *)

From S2P Require Import Float.
From S2P Require Import Prelude GoLib Model Storage Redis RedisMem Keys Scripts Codec.
From S2P Require Import JsonCodec Store QueueView QueueSpec QueueInv ScriptSpecs StoreRefine.
From S2P Require Import Requests QueueProps History StoreTheorems TaskLifecycle QueueTheorems.
From S2P Require Import MoveTheorems DeadLetters Backoff HandlerMux TaskStore Server.
From S2P Require Import ServerTheorems Maintenance.

(** ** Times in milliseconds *)

(** Times whose milliseconds a float represents exactly. *)
Definition timely (t : Time) : Prop := - 2 ^ 62 ≤ t < 2 ^ 62.

Lemma score_ms_timely t : timely t → score_ms t = t / 10 ^ 6.
Proof.
  intros Ht. unfold timely in Ht. unfold score_ms, UnixMilli. assert (- 2 ^ 52 ≤ t / 10 ^ 6 ≤ 2 ^ 52) by zdiv_lia.
  rewrite wrap64_id by (unfold int64, MinInt64, MaxInt64; lia). apply rnd53_exact. lia.
Qed.

Lemma score_ms_mono t t' : timely t → timely t' → t ≤ t' → score_ms t ≤ score_ms t'.
Proof. intros Ht Ht' Hle. rewrite !score_ms_timely by done. apply Z.div_le_mono; lia. Qed.

(** A millisecond later is a later score. *)
Lemma score_ms_lt t t' : timely t → timely t' → t + Millisecond ≤ t' → score_ms t < score_ms t'.
Proof. intros Ht Ht' Hle. rewrite !score_ms_timely by done. unfold Millisecond in Hle. zdiv_lia. Qed.

(** ** Requests of others *)

(** The attempt that a request ends. *)
Definition settles (r : request) : option (string * string) :=
  match r with
  | RqAck _ i b _ | RqRetry _ i b _ _ | RqArchive _ i b _ _ | RqRequeue i b => Some (i, b)
  | _ => None
  end.

Definition renews (r : request) (ia : string * string) : Prop :=
  match r with RqExtend _ _ owners => ia ∈ owners | _ => False end.

Lemma finish_other id a l t i b f S :
  aq_tasks S !! id = Some t → at_status t = AActive a l → (i, b) ≠ (id, a) →
  aq_tasks (default S (s_finish i b f S)) !! id = Some t.
Proof.
  intros Ht Ha Hne. unfold s_finish. destruct (aq_tasks S !! i) as [u|] eqn:Hu; [|done].
  destruct (at_status u) as [| |b' l'| | |] eqn:Hb; try done. destruct (String.eqb_spec b' b) as [->|]; [|done].
  cbn. rewrite lookup_insert_ne; [done|]. intros ->. rewrite Ht in Hu. injection Hu as <-. rewrite Ha in Hb. by injection Hb as -> _.
Qed.

(** A request that neither ends nor renews the attempt leaves the task alone. *)
Lemma astep_active r S id a l t :
  aq_tasks S !! id = Some t → at_status t = AActive a l → settles r ≠ Some (id, a) → ¬ renews r (id, a) →
  aq_tasks (astep r S) !! id = Some t.
Proof.
  intros Ht Ha Hset Hren.
  assert (∀ i u, aq_tasks S !! i = Some u → (∀ b k, at_status u ≠ AActive b k) → i ≠ id) as Hdiff.
  { intros i u Hu Hst ->. rewrite Ht in Hu. injection Hu as <-. by eapply Hst. }
  assert (∀ i text rank st, aq_tasks (default S (s_add i text rank st S)) !! id = Some t) as Hadd.
  { intros i text rank st. unfold s_add. destruct (aq_tasks S !! i) eqn:Hi; [done|]. cbn.
    rewrite lookup_insert_ne; [done|]. intros ->. congruence. }
  assert (∀ z now limit, waiting z → aq_tasks (s_move z now limit S).2 !! id = Some t) as Hmove.
  { intros z now limit Hz. rewrite s_move_lookup. case_decide as Hin; [|done].
    apply elem_of_take in Hin as (n & Hin%list_elem_of_lookup_2 & _).
    destruct (due_ids_elem z now S id) as (u & s & Hu & Hp & _); [by left|done|]. rewrite Ht in Hu. injection Hu as <-.
    unfold zpart in Hp. rewrite Ha in Hp. by destruct Hz as [-> | ->]. }
  destruct r; cbn [astep settles renews] in *; auto; try (apply (finish_other id a l); [done..|congruence]).
  - unfold s_claim, next_pending. destruct (zsorted (aq_zset ZRank S)) as [|[m s] zs] eqn:Hz; [done|].
    destruct (pending_member S m s) as (u & Hu & Hst & _); [apply elem_of_zsorted; rewrite Hz; left|]. cbn. rewrite Hu. cbn.
    rewrite lookup_insert_ne; [done|]. apply (Hdiff _ u); [done|]. intros b k. by rewrite Hst.
  - apply Hmove. by left.
  - apply Hmove. by right.
  - destruct (s_extend_lookup (score_ms (Add now lease)) owners S id) as [->|(u & b & k & Hu & Hb & Hin & _)]; [done|].
    rewrite Ht in Hu. injection Hu as <-. rewrite Ha in Hb. by injection Hb as <- _.
  - unfold s_replay. destruct (aq_tasks S !! id0) as [u|] eqn:Hu; [|done]. destruct (at_status u) eqn:Hst; try done. cbn.
    rewrite lookup_insert_ne; [done|]. apply (Hdiff _ u); [done|]. intros b k. by rewrite Hst.
  - unfold s_delete. destruct (aq_tasks S !! id0) as [u|] eqn:Hu; [|done]. destruct (at_status u) eqn:Hst; try done. cbn.
    rewrite lookup_delete_ne; [done|]. apply (Hdiff _ u); [done|]. intros b k. by rewrite Hst.
  - unfold s_cleanup. cbn. rewrite foldl_del_lookup. case_decide as Hin; [|done].
    apply elem_of_take in Hin as (n & Hin%list_elem_of_lookup_2 & _).
    destruct (due_ids_elem ZArch (score_ms before) S id) as (u & s & Hu & Hp & _); [by right|done|].
    rewrite Ht in Hu. injection Hu as <-. unfold zpart in Hp. by rewrite Ha in Hp.
Qed.

(** ** Heartbeats, recovery passes and everybody else *)

Section leases.
Context `{Redis} (q id a : string) (lease interval : Duration).

(** The database, the tasks of the queue that recovery passes have listed as expired, and the
    last time the owner set its lease: when it claimed the task or at a heartbeat. *)
Record lease_state := mkLeaseState { ls_db : db; ls_listed : list string; ls_beat : Time }.

(** One request of any party. A request that ends the attempt comes from a recovery pass that
    listed the task; the owner is still running it. A pass that lists expired tasks does so at
    most [interval] after the last heartbeat. *)
Inductive lease_step : lease_state → lease_state → Prop :=
| step_request q' r d d' listed beat :
    executes q' r d d' → (q' = q → settles r = Some (id, a) → id ∈ listed) → (q' = q → ¬ renews r (id, a)) →
    lease_step (mkLeaseState d listed beat) (mkLeaseState d' listed beat)
| step_heartbeat now owners d d' listed beat :
    executes q (RqExtend now lease owners) d d' → (id, a) ∈ owners → timely (Add now lease) →
    lease_step (mkLeaseState d listed beat) (mkLeaseState d' listed now)
| step_list now limit d w' ids listed beat :
    Store.ExpiredIDs now q limit (World d []) = (w', inr ids) → timely now → now ≤ beat + interval →
    lease_step (mkLeaseState d listed beat) (mkLeaseState (w_db w') (ids ++ listed) beat).

(** The attempt owns the task, its lease is the one last set, and no pass listed the task. *)
Record live (s : lease_state) : Prop := {
  lv_stored : Stored (keyspace (ls_db s));
  lv_owned : ∃ S t, Impl q (keyspace (ls_db s)) (keyspace (ls_db s)) S ∧ aq_tasks S !! id = Some t ∧
    at_status t = AActive a (score_ms (Add (ls_beat s) lease));
  lv_listed : id ∉ ls_listed s;
  lv_timely : timely (Add (ls_beat s) lease)
}.

Lemma extend_renews now owners S t l :
  aq_tasks S !! id = Some t → at_status t = AActive a l → (id, a) ∈ owners →
  aq_tasks (s_extend (score_ms (Add now lease)) owners S) !! id =
    Some (with_status (AActive a (score_ms (Add now lease))) t).
Proof.
  intros Ht Ha. revert S t l Ht Ha. induction owners as [|[i b] owners IH]; intros S t l Ht Ha Hin; [by apply elem_of_nil in Hin|].
  unfold s_extend. cbn [foldl]. fold (s_extend (score_ms (Add now lease)) owners (s_extend1 (score_ms (Add now lease)) S (i, b))).
  set (S1 := s_extend1 (score_ms (Add now lease)) S (i, b)). destruct (decide ((i, b) = (id, a))) as [[= -> ->]|Hne].
  - assert (aq_tasks S1 !! id = Some (with_status (AActive a (score_ms (Add now lease))) t)) as H1.
    { unfold S1, s_extend1, s_finish. cbn [fst snd]. rewrite Ht, Ha, String.eqb_refl. cbn. by rewrite lookup_insert_eq. }
    destruct (s_extend_lookup (score_ms (Add now lease)) owners S1 id) as [->|(u & b & k & Hu & Hb & _ & ->)]; [done|].
    rewrite H1 in Hu. injection Hu as <-. cbn in Hb. by injection Hb as <- _.
  - apply (IH S1 t l); [|done|by apply elem_of_cons in Hin as [[= -> ->]|?]]. by apply (finish_other id a l).
Qed.

(** A task whose lease was set in time is not among the expired ones. *)
Lemma beaten_not_due S t now beat n :
  aq_tasks S !! id = Some t → at_status t = AActive a (score_ms (Add beat lease)) →
  interval + Millisecond ≤ lease → timely now → timely (Add beat lease) → now ≤ beat + interval →
  id ∉ take n (due_ids ZLease (score_ms now) S).
Proof.
  intros Ht Ha Hint Htm Htm' Hnow Hin. apply elem_of_take in Hin as (k & Hin%list_elem_of_lookup_2 & _).
  apply due_ids_iff in Hin as (u & s & Hu & Hp & Hs); [|done]. rewrite Ht in Hu. injection Hu as <-.
  unfold zpart in Hp. rewrite Ha in Hp. injection Hp as <-.
  assert (score_ms now < score_ms (Add beat lease)); [|lia]. apply score_ms_lt; [done..|]. unfold Add. lia.
Qed.

Lemma Stored_frame ks ks' S : Stored ks → plain_queue q → Impl q ks ks' S → Stored ks'.
Proof.
  intros HA Hq HI q' Hq'. destruct (decide (q = q')) as [<-|Hne]; [exists S; by eapply Impl_rebase|].
  destruct (HA q' Hq') as [S' HS']. exists S'. by eapply (Impl_frame q q').
Qed.

Lemma lease_step_live s s' : plain_queue q → interval + Millisecond ≤ lease → lease_step s s' → live s → live s'.
Proof.
  intros Hq Hint Hstep [HA (S & t & HS & Ht & Ha) Hl Htm].
  destruct Hstep as [q' r d d' listed beat He Hset Hren|now owners d d' listed beat He Hin Htm'|now limit d w' ids listed beat He Htm' Hnow];
    cbn [ls_db ls_listed ls_beat] in *.
  - split; cbn [ls_db ls_listed ls_beat]; [by eapply executes_Stored| |done|done].
    pose proof (executes_sim _ _ _ _ q S He Hq HA HS) as HS'. eexists _, t. split; [exact HS'|]. split; [|done].
    case_decide as E; [|done]. apply (astep_active r S id a _ t Ht Ha); [|by apply Hren]. intros Hs. by apply Hl, Hset.
  - split; cbn [ls_db ls_listed ls_beat]; [by eapply executes_Stored| |done|done].
    pose proof (executes_sim _ _ _ _ q S He Hq HA HS) as HS'. rewrite decide_True in HS' by done.
    eexists _, _. split; [exact HS'|]. split; [cbn [astep]; by eapply extend_renews|done].
  - destruct (expired_quiet q (keyspace d) now limit (World d []) S HS eq_refl) as (w1 & E1 & _ & HI1).
    rewrite He in E1. injection E1 as <- ->. split; cbn [ls_db ls_listed ls_beat]; [|by exists S, t; split; [eapply Impl_rebase|]| |done].
    + by eapply Stored_frame.
    + intros [Hin|Hin]%elem_of_app; [|done]. by eapply beaten_not_due in Hin.
Qed.

(** C7: A live owner keeps its task. A worker runs an attempt of a task, its server renews
    the lease, and recovery passes of any servers run against the same database, their
    commands and the requests of any other clients interleaved one by one. If every pass reads
    the expired tasks at most an interval after the last renewal, the interval is at least a
    millisecond shorter than the lease, and no pass had listed the task before, then no pass
    ever lists it, and the task stays active under its attempt until the worker ends it. *)
Theorem live_owner_keeps_task s s' :
  plain_queue q → interval + Millisecond ≤ lease → live s → rtc lease_step s s' →
  (id ∉ ls_listed s') ∧ task_field (ls_db s') q id "state" = Some StateActive ∧
  task_field (ls_db s') q id "attempt_id" = Some a.
Proof.
  intros Hq Hint Hl Hs. assert (live s') as [_ (S & t & HS & Ht & Ha) Hn _].
  { induction Hs as [|s s1 s' H1 _ IH]; [done|]. apply IH. by eapply lease_step_live. }
  rewrite (task_field_state _ _ _ _ HS), (task_field_attempt _ _ _ _ HS), Ht. cbn. by rewrite Ha.
Qed.

(** *** The loops of the server *)

(** A pass of the recovery loop of any server, in time, leaves the attempt alone; so does every
    sequence of such passes. The other expired tasks are ones the pass can settle. *)
Lemma recovery_pass_spares {L} `{TaskCodec} leaseDuration (c : Config L) now random rd (s : Server world) listed beat :
  plain_queue q → interval + Millisecond ≤ lease → timely now → now ≤ beat + interval → w_net (srv_store s) = [] →
  live (mkLeaseState (w_db (srv_store s)) listed beat) →
  (∀ S i, Impl q (keyspace (w_db (srv_store s))) (keyspace (w_db (srv_store s))) S →
     i ∈ take 100 (due_ids ZLease (score_ms now) S) → can_recover c now random rd q S i) →
  ∃ w' ms, recover_queue (H := RedisTaskStore leaseDuration) c now random rd s q = mkServer w' ms (srv_errors s) (srv_active s) ∧
    w_net w' = [] ∧ live (mkLeaseState (w_db w') listed beat).
Proof.
  intros Hq Hint Htm Hnow Hn [HA (S & t & HS & Ht & Ha) Hl Htm'] Hcan. cbn [ls_db ls_listed ls_beat] in *.
  destruct (recover_queue_quiet leaseDuration c now random rd q s S _ HS Hn (λ i, Hcan S i HS)) as (w' & ms & S' & E & Hn' & HI & _ & Hout & _).
  exists w', ms. split; [exact E|]. split; [done|]. split; cbn [ls_db ls_listed ls_beat]; [by eapply Stored_frame| |done..].
  exists S', t. split; [by eapply Impl_rebase|]. split; [|done]. rewrite Hout; [done|]. by eapply beaten_not_due.
Qed.

(** A tick of the heartbeat of the server that tracks the attempt sets its lease. *)
Lemma heartbeat_beats {L} leaseDuration `{TaskCodec} (c : Config L) now keys queues (s : Server world) Sq t l listed :
  NoDup queues → Forall plain_queue queues → w_net (srv_store s) = [] → AllImpl Sq (keyspace (w_db (srv_store s))) →
  plain_queue q → aq_tasks (Sq q) !! id = Some t → at_status t = AActive a l → mkActiveKey q id a ∈ keys → q ∈ queues →
  Store.lease_or_default leaseDuration (LeaseDuration c) = lease → timely (Add now lease) → id ∉ listed →
  ∃ w', heartbeat_tick (H := RedisTaskStore leaseDuration) c now keys queues s = mkServer w' (srv_metrics s) (srv_errors s) (srv_active s) ∧
    live (mkLeaseState (w_db w') listed now).
Proof.
  intros Hnd Hpl Hn HA Hq Ht Ha Hk Hqs Hle Htm Hl.
  destruct (heartbeat_queues leaseDuration c now keys queues s Sq Hnd Hpl Hn HA) as (w' & Sq' & E & HA' & Hlook).
  exists w'. split; [exact E|]. split; cbn [ls_db ls_listed ls_beat]; [by intros q' Hq'; exists (Sq' q'); apply HA'| |done|done].
  eexists (Sq' q), _. split; [by apply HA'|]. specialize (Hlook q id). rewrite decide_True, Ht in Hlook by done. split; [exact Hlook|].
  unfold beaten. rewrite Ha, decide_True, Hle by done. done.
Qed.
End leases.

(** ** Witness *)

(** The owner beats at 4s, other requests follow, and a pass lists the expired tasks at 8s. *)
Definition beat_history : list (string * request) := leased_history ++ [("emails", RqExtend (4 * Second) (5 * Second) [("b", "t1")])].
Definition busy_history : list (string * request) := beat_history ++ [("emails", RqMoveRetry (5 * Second) 100)].

Lemma leased_live : live (H := RedisMem) "emails" "b" "t1" (5 * Second) (mkLeaseState (H := RedisMem) (mem_run leased_history) [] Second).
Proof.
  split; cbn [ls_db ls_listed ls_beat].
  - apply reachable_Stored, leased_reachable.
  - exists (leased_queue "emails"). eexists. split; [by apply leased_Impl|]. rewrite leased_tasks, lookup_singleton_eq. done.
  - apply not_elem_of_nil.
  - vm_compute. split; [discriminate|reflexivity].
Qed.

Lemma live_owner_keeps_task_witness :
  ∃ w', Store.ExpiredIDs (8 * Second) "emails" 100 (World (H := RedisMem) (mem_run busy_history) []) = (w', inr []) ∧
    task_field (w_db w') "emails" "b" "state" = Some StateActive.
Proof.
  destruct (Store.ExpiredIDs (8 * Second) "emails" 100 (World (H := RedisMem) (mem_run busy_history) [])) as [w' r] eqn:E.
  assert (r = inr []) as ->.
  { assert (snd (Store.ExpiredIDs (8 * Second) "emails" 100 (World (H := RedisMem) (mem_run busy_history) [])) = inr []) as Hr
      by (vm_compute; reflexivity). by rewrite E in Hr. }
  exists w'. split; [done|].
  apply (live_owner_keeps_task (H := RedisMem) "emails" "b" "t1" (5 * Second) (4 * Second) _
    (mkLeaseState (H := RedisMem) (w_db w') [] (4 * Second)) eq_refl ltac:(vm_compute; discriminate) leased_live).
  eapply rtc_l; [eapply (step_heartbeat (H := RedisMem) _ _ _ _ _ (4 * Second) [("b", "t1")] _ (mem_run beat_history))|].
  - split; [reflexivity|]. split; [exact I|]. split; [intros Hc; discriminate Hc|]. vm_compute. reflexivity.
  - left.
  - vm_compute. split; [discriminate|reflexivity].
  - eapply rtc_l; [eapply (step_request (H := RedisMem) _ _ _ _ _ "emails" (RqMoveRetry (5 * Second) 100) _ (mem_run busy_history))|].
    + split; [reflexivity|]. split; [vm_compute; split; discriminate|]. split; [intros Hc; discriminate Hc|]. vm_compute. reflexivity.
    + intros _ Hs. discriminate Hs.
    + intros _ [].
    + apply rtc_once. change (@nil string) with (@nil string ++ []) at 2. eapply step_list; [exact E|vm_compute; split; [discriminate|reflexivity]|].
      vm_compute. discriminate.
Defined.

(** The millisecond is needed: leases are stored in whole milliseconds, and a task counts as
    expired in the millisecond its lease ends in. With a lease of one second and one nanosecond
    and a heartbeat interval of a second, which [validate] accepts, a pass that runs when the
    next heartbeat is due lists the task. *)
Lemma margin_needed :
  let w := World (H := RedisMem) (mem_run [("emails", RqEnqueue (sample "b" 0 Second) (enc (sample "b" 0 Second)));
             ("emails", RqClaim Second (Second + 1) "t1")]) [] in
  validate (mkConfig 1 ∅ (Second + 1) Second Second Second Second (f64_of_int 0) Second Second (None : option (Limiter unit)) (f64_of_int 1)) = None ∧
  (Store.ExpiredIDs (Second + Second) "emails" 100 w).2 = inr ["b"].
Proof. vm_compute. split; reflexivity. Qed.

(** A pass that listed the task before it was claimed can take it from its owner: a pass of
    one server lists task "b" at 9s; a pass of another settles it, it is claimed again at 11s
    for thirty seconds, and the first pass, which reads the task before it settles it but not
    its lease, ends the new attempt. *)
Definition stolen_history : list (string * request) :=
  leased_history ++
    [("emails", RqRetry (11 * Second) "b" "t1"
       (enc (settled (SRetry (9 * Second) (11 * Second) lease_expired) (set_RetryCount 1 (sample "b" 0 Second)))) lease_expired);
     ("emails", RqMoveRetry (11 * Second) 100); ("emails", RqClaim (11 * Second) (30 * Second) "t2")].

Lemma stale_listing_steals :
  let s := mkServer (World (H := RedisMem) (mem_run stolen_history) []) None (Some []) ∅ in
  let s' := recover_id (H := RedisTaskStore (H := RedisMem) Second) test_config (9 * Second) "emails" (f64_of_int 0)
              (mkReadings (12 * Second) (inr [])) "b" s in
  (Store.ExpiredIDs (9 * Second) "emails" 100 leased_world).2 = inr ["b"] ∧
  (Store.ExpiredIDs (12 * Second) "emails" 100 (srv_store s)).2 = inr [] ∧
  task_field (w_db (srv_store s)) "emails" "b" "attempt_id" = Some "t2" ∧
  task_field (w_db (srv_store s')) "emails" "b" "state" = Some StateRetry ∧ srv_errors s' = Some [].
Proof. vm_compute. done. Qed.
