(* ===== verification/Dispatch.v ===== *)
(** * The dispatcher ([server/server.go], [dispatch])

    One turn of the dispatch loop over the Redis store: which task it claims, when it
    waits, and what the rate limiter has to do with it. *)

From S2P Require Import Float.
From S2P Require Import Prelude GoLib Model Storage Redis RedisMem Keys Scripts Codec.
From S2P Require Import JsonCodec Store QueueView QueueSpec QueueInv ScriptSpecs StoreRefine.
From S2P Require Import Requests QueueProps History StoreTheorems TaskLifecycle QueueTheorems.
From S2P Require Import MoveTheorems DeadLetters Backoff HandlerMux TaskStore Server.
From S2P Require Import ServerTheorems Maintenance.

Section dispatch.
Context {L : Type} `{Redis, TaskCodec} (leaseDuration : Duration).
#[local] Instance redis_store : TaskStore world := RedisTaskStore leaseDuration.

Lemma AllImpl_same Sq ks ks' q :
  AllImpl Sq ks → plain_queue q → Impl q ks ks' (Sq q) → AllImpl Sq ks'.
Proof.
  intros HA Hq HI q' Hq'. specialize (AllImpl_upd Sq q (Sq q) ks ks' HA Hq HI q' Hq').
  unfold upd_queue. by case_decide; subst.
Qed.

Lemma pending_size_pos S :
  (0 <? Z.of_nat (size (filter (in_index ZRank) (aq_tasks S)))) = false ↔ none_pending S.
Proof.
  rewrite Z.ltb_ge. split.
  - intros Hle id t Ht Hst.
    assert (filter (in_index ZRank) (aq_tasks S) !! id = Some t) as Hf.
    { apply map_lookup_filter_Some. split; [done|]. unfold in_index, zpart. cbn. rewrite Hst. eauto. }
    assert (filter (in_index ZRank) (aq_tasks S) ≠ ∅) as Hne by (intros E; by rewrite E in Hf).
    apply map_size_non_empty_iff in Hne. lia.
  - intros Hno. replace (filter (in_index ZRank) (aq_tasks S)) with (∅ : gmap string atask);
      [by rewrite map_size_empty|].
    symmetry. apply map_empty. intros id. apply eq_None_not_Some. intros [t Ht].
    apply map_lookup_filter_Some in Ht as [Ht [x Hx]]. unfold zpart in Hx. cbn in Hx.
    destruct (at_status t) eqn:E; try done. by apply (Hno id t).
Qed.

Lemma has_pending_quiet queues s Sq :
  Forall plain_queue queues → w_net (srv_store s) = [] → AllImpl Sq (keyspace (w_db (srv_store s))) →
  ∃ w' b, has_pending queues s = (with_store w' s, b) ∧ w_net w' = [] ∧ AllImpl Sq (keyspace (w_db w')) ∧
    (b = false ↔ ∀ q, q ∈ queues → none_pending (Sq q)).
Proof.
  revert s. induction queues as [|q queues IH]; intros s Hpl Hn HA.
  { exists (srv_store s), false. cbn. split; [by destruct s|]. split_and!; try done.
    split; [|done]. by intros _ q ?%elem_of_nil. }
  apply Forall_cons in Hpl as [Hq Hpl]. cbn [has_pending ts_PendingCount redis_store RedisTaskStore].
  destruct (zcard_quiet q _ ZRank (srv_store s) (Sq q) (HA q Hq) (quiet_answered _ Hn)) as (w1 & Hr & HI).
  pose proof (Run_net (call (ZCARD (zkey q ZRank))) (srv_store s)) as Hn1.
  rewrite Hr, Hn in Hn1. cbn in Hn1. unfold Store.PendingCount.
  change (PendingRankKey q) with (zkey q ZRank). rewrite Hr.
  assert (AllImpl Sq (keyspace (w_db w1))) as HA1 by (by eapply AllImpl_same).
  destruct (0 <? _) eqn:E.
  - exists w1, true. split_and!; try done. split; [done|]. intros Hno.
    rewrite (proj2 (pending_size_pos (Sq q)) (Hno q ltac:(left))) in E. done.
  - apply pending_size_pos in E. destruct (IH (with_store w1 s) Hpl Hn1 HA1) as (w' & b & Hb & Hn' & HA' & Hiff).
    exists w', b. rewrite Hb. split_and!; try done. rewrite Hiff. split.
    + intros Hno q' [->|?]%elem_of_cons; eauto.
    + intros Hno q' ?. apply Hno. by right.
Qed.

(** Everything stored decodes, and arrival numbers are exact. *)
Definition decodable (S : aqueue) : Prop :=
  aq_seq S ≤ 2 ^ 53 ∧ ∀ id t, aq_tasks S !! id = Some t → ∃ m, Unmarshal (at_msg t) = inr m.

(** Queue [q] after its first pending task was handed out as [msg]. *)
Definition handed_out (c : Config L) (rd : readings) (q : string) (S : aqueue) (msg : TaskMessage)
    (S' : aqueue) : Prop :=
  ∃ bs id t m, rd_rand rd = inr bs ∧ first_pending S id t ∧ Unmarshal (at_msg t) = inr m ∧
    msg = set_AttemptID (hex_EncodeToString bs) (set_State StateActive m) ∧
    S' = aq_put id (with_status (AActive (hex_EncodeToString bs) (score_ms (Add (rd_now rd)
           (Store.lease_or_default leaseDuration (LeaseDuration c))))) t) S.

Lemma claim_net bs q now lease w :
  w_net w = [] → w_net (Store.Claim leaseDuration (inr bs) q now lease w).1 = [].
Proof.
  intros Hn. unfold Store.Claim, newAttemptID, gbind, gwrap, gresult.
  match goal with |- context [Run ?sc w] => pose proof (Run_net sc w) as Hr; destruct (Run sc w) as [w1 [e|v]] end;
    rewrite Hn in Hr; cbn in Hr; [done|].
  unfold gerr, gret. destruct v as [|v0 [|v1 [|]]]; try done.
  destruct (default 0 (ParseInt (Sprint v0)) =? 0); [done|]. by destruct (Unmarshal (Sprint v1)).
Qed.

Lemma claim_first_of_quiet (c : Config L) rd queues s Sq :
  Forall plain_queue queues → (∀ q, q ∈ queues → ∃ bs, rd_rand (rd q) = inr bs) →
  (∀ q, decodable (Sq q)) → w_net (srv_store s) = [] → AllImpl Sq (keyspace (w_db (srv_store s))) →
  ∃ w' o, claim_first_of c rd queues s = (with_store w' s, o) ∧ w_net w' = [] ∧
    match o with
    | None => AllImpl Sq (keyspace (w_db w')) ∧ ∀ q, q ∈ queues → none_pending (Sq q)
    | Some msg => ∃ before q after S', queues = before ++ q :: after ∧
        (∀ q, q ∈ before → none_pending (Sq q)) ∧ handed_out c (rd q) q (Sq q) msg S' ∧
        AllImpl (upd_queue q S' Sq) (keyspace (w_db w'))
    end.
Proof.
  revert s. induction queues as [|q queues IH]; intros s Hpl Hrd Hdec Hn HA.
  { exists (srv_store s), None. cbn. split; [by destruct s|]. split_and!; try done.
    by intros q ?%elem_of_nil. }
  apply Forall_cons in Hpl as [Hq Hpl]. destruct (Hrd q) as [bs Hbs]; [left|].
  cbn [claim_first_of ts_Claim redis_store RedisTaskStore]. rewrite Hbs.
  destruct (Hdec q) as [Hs Hd].
  destruct (claim_first leaseDuration bs q (rd_now (rd q)) (LeaseDuration c) (srv_store s) (Sq q) _
    (HA q Hq) Hs (quiet_answered _ Hn)) as (w1 & r & Hcl & Hcase).
  pose proof (claim_net bs q (rd_now (rd q)) (LeaseDuration c) _ Hn) as Hn1. rewrite Hcl in *. cbn [fst] in Hn1.
  destruct Hcase as [(Hno & -> & HI)|(id & t & Hf & -> & HI)].
  - change (IsQueueEmpty (Some ErrQueueEmpty)) with true. cbv iota.
    destruct (IH (with_store w1 s)) as (w' & o & E & Hn' & Ho);
      [done|intros; apply Hrd; by right|done|done|by eapply AllImpl_same|].
    exists w', o. rewrite E. split; [done|]. split; [done|]. destruct o as [msg|].
    + destruct Ho as (before & q' & after & S' & -> & Hb & Hh & HA').
      exists (q :: before), q', after, S'. split_and!; try done. intros q0 [->|?]%elem_of_cons; eauto.
    + destruct Ho as [HA' Hno']. split; [done|]. intros q0 [->|?]%elem_of_cons; eauto.
  - pose proof Hf as (Ht & _). destruct (Hd id t Ht) as [m Hm]. unfold decode_claim. rewrite Hm.
    eexists w1, _. split; [done|]. split; [done|]. eexists [], q, queues, _. split_and!; [done| | |].
    + by intros q0 ?%elem_of_nil.
    + exists bs, id, t, m. done.
    + by eapply AllImpl_upd.
Qed.

(** The queues after the pass of [MoveReady] a turn starts with. *)
Definition after_move (now : Time) (queues : list string) (Sq : string → aqueue) : string → aqueue :=
  λ q, if decide (q ∈ queues) then (s_move_both (score_ms now) 100 (Sq q)).2 else Sq q.

Lemma s_move_msg z now limit S id t :
  aq_tasks (s_move z now limit S).2 !! id = Some t →
  ∃ t0, aq_tasks S !! id = Some t0 ∧ at_msg t = at_msg t0.
Proof.
  rewrite s_move_lookup. case_decide; [|eauto]. intros (t0 & Ht & ->)%fmap_Some. eauto.
Qed.

Lemma s_move_seq z now limit S : aq_seq (s_move z now limit S).2 = aq_seq S.
Proof. apply foldl_seq. intros S0 a. unfold to_pending. by case_match. Qed.

Lemma decodable_move now limit S : decodable S → decodable (s_move_both now limit S).2.
Proof.
  intros [Hs Hd]. unfold s_move_both.
  pose proof (s_move_seq ZSched now limit S) as Es. pose proof (s_move_msg ZSched now limit S) as Em.
  destruct (s_move ZSched now limit S) as [n S1]. cbn [snd] in *.
  pose proof (s_move_seq ZRetry now limit S1) as Es1. pose proof (s_move_msg ZRetry now limit S1) as Em1.
  destruct (s_move ZRetry now limit S1) as [n' S2]. cbn [snd] in *. split; [lia|].
  intros id t Ht. destruct (Em1 id t Ht) as (t1 & Ht1 & ->). destruct (Em id t1 Ht1) as (t0 & Ht0 & ->). eauto.
Qed.

Lemma dispatch_quiet (c : Config L) queues now rd l s Sq :
  NoDup queues → Forall plain_queue queues → (∀ q, q ∈ queues → ∃ bs, rd_rand (rd q) = inr bs) →
  (∀ q, decodable (Sq q)) → w_net (srv_store s) = [] → AllImpl Sq (keyspace (w_db (srv_store s))) →
  let Sq1 := after_move now queues Sq in
  ∃ l' w' errs next, dispatch_iteration c queues now rd l s =
      (l', mkServer w' (srv_metrics s) errs (srv_active s), next) ∧ w_net w' = [] ∧
    match next with
    | DispatchJob msg =>
        errs = srv_errors s ∧
        (∃ before q after S', queues = before ++ q :: after ∧
          (∀ q, q ∈ before → none_pending (Sq1 q)) ∧ handed_out c (rd q) q (Sq1 q) msg S' ∧
          AllImpl (upd_queue q S' Sq1) (keyspace (w_db w'))) ∧
        match TokenBucket c with
        | None => l' = l
        | Some bucket => ∃ res, l_Acquire bucket (TokenAmount c) l = (l', inr res) ∧ Allowed res = true
        end
    | DispatchWait d =>
        AllImpl Sq1 (keyspace (w_db w')) ∧
        ((l' = l ∧ errs = srv_errors s ∧ d = PollInterval c ∧ ∀ q, q ∈ queues → none_pending (Sq1 q)) ∨
         (∃ bucket res, TokenBucket c = Some bucket ∧ l_Acquire bucket (TokenAmount c) l = (l', res) ∧
            match res with
            | inl err => errs = (λ es, es ++ [err]) <$> srv_errors s ∧ d = PollInterval c
            | inr res => errs = srv_errors s ∧ Allowed res = false ∧ d = RetryAfter res
            end))
    end.
Proof.
  intros Hnd Hpl Hrd Hdec Hn HA Sq1. unfold dispatch_iteration.
  cbn [ts_MoveReady redis_store RedisTaskStore].
  destruct (MoveReady_quiet now 100 queues (srv_store s) Sq ltac:(unfold int64, MinInt64, MaxInt64; lia)
    Hnd Hpl Hn HA) as (w1 & -> & Hn1 & HA1).
  fold Sq1 in HA1.
  assert (∀ q, decodable (Sq1 q)) as Hdec1.
  { intros q. unfold Sq1, after_move. case_decide; [by apply decodable_move|done]. }
  destruct (has_pending_quiet queues (with_store w1 s) Sq1 Hpl Hn1 HA1) as (w2 & b & -> & Hn2 & HA2 & Hb).
  cbv iota. destruct b; cbn [negb].
  2:{ eexists l, w2, _, _. split; [done|]. split; [done|]. split; [done|]. left. split_and!; try done. by apply Hb. }
  destruct (claim_first_of_quiet c rd queues (with_store w2 (with_store w1 s)) Sq1 Hpl Hrd Hdec1 Hn2 HA2)
    as (w3 & o & Hcl & Hn3 & Ho).
  assert (o ≠ None) as Hsome.
  { intros ->. destruct Ho as [_ Hno]. apply Hb in Hno. done. }
  destruct o as [msg|]; [|done]. destruct (TokenBucket c) as [bucket|].
  - destruct (l_Acquire bucket (TokenAmount c) l) as [l' [err|res]] eqn:Ha.
    + eexists l', w2, _, _. split; [done|]. split; [done|]. split; [done|]. right. exists bucket, (inl err). eauto.
    + destruct (Allowed res) eqn:Hres; cbn [negb].
      * rewrite Hcl. eexists l', w3, _, _. split; [done|]. split; [done|]. split; [done|]. split; [exact Ho|]. eauto.
      * eexists l', w2, _, _. split; [done|]. split; [done|]. split; [done|]. right. exists bucket, (inr res). eauto.
  - rewrite Hcl. eexists l, w3, _, _. split; [done|]. split; [done|]. split; [done|]. split; [exact Ho|done].
Qed.

(** C19: A turn of the dispatcher. With no fault of the network, a turn first makes the
    due tasks of its queues pending, and then either hands out one task or none. It hands
    one out only after the rate limiter, if there is one, granted a token; the task is the
    first pending task of the first queue, in descending priority, that has any, it becomes
    active under a new attempt, and nothing else is claimed. It hands out none only if no
    queue has a pending task, in which case no token is spent, or if the limiter failed or
    refused, in which case the wait is the limiter's; then no task is claimed. No error is
    reported unless the limiter failed. *)
Theorem dispatch_turn (c : Config L) queues now rd l s Sq :
  NoDup queues → Forall plain_queue queues → (∀ q, q ∈ queues → ∃ bs, rd_rand (rd q) = inr bs) →
  (∀ q, decodable (Sq q)) → w_net (srv_store s) = [] → AllImpl Sq (keyspace (w_db (srv_store s))) →
  let Sq1 := after_move now queues Sq in
  ∃ l' w' errs next, dispatch_iteration c queues now rd l s =
      (l', mkServer w' (srv_metrics s) errs (srv_active s), next) ∧
    match next with
    | DispatchJob msg =>
        errs = srv_errors s ∧
        (∃ before q after S', queues = before ++ q :: after ∧
          (∀ q, q ∈ before → none_pending (Sq1 q)) ∧ handed_out c (rd q) q (Sq1 q) msg S' ∧
          AllImpl (upd_queue q S' Sq1) (keyspace (w_db w'))) ∧
        match TokenBucket c with
        | None => l' = l
        | Some bucket => ∃ res, l_Acquire bucket (TokenAmount c) l = (l', inr res) ∧ Allowed res = true
        end
    | DispatchWait d =>
        AllImpl Sq1 (keyspace (w_db w')) ∧
        ((l' = l ∧ errs = srv_errors s ∧ d = PollInterval c ∧ ∀ q, q ∈ queues → none_pending (Sq1 q)) ∨
         (∃ bucket res, TokenBucket c = Some bucket ∧ l_Acquire bucket (TokenAmount c) l = (l', res) ∧
            match res with
            | inl err => errs = (λ es, es ++ [err]) <$> srv_errors s ∧ d = PollInterval c
            | inr res => errs = srv_errors s ∧ Allowed res = false ∧ d = RetryAfter res
            end))
    end.
Proof.
  intros Hnd Hpl Hrd Hdec Hn HA Sq1.
  destruct (dispatch_quiet c queues now rd l s Sq Hnd Hpl Hrd Hdec Hn HA) as (l' & w' & errs & next & E & _ & Hnext). eauto 10.
Qed.
End dispatch.

(** ** Witness *)

Definition ready_history : list (string * request) :=
  [("emails", RqEnqueue (sample "b" 0 Second) (enc (sample "b" 0 Second)))].
Definition ready_world : world (H := RedisMem) := World (H := RedisMem) (mem_run ready_history) [].
Definition ready_server : Server (world (H := RedisMem)) := mkServer ready_world None (Some []) ∅.
Definition fixed_readings (q : string) : readings := mkReadings (2 * Second) (inr [Byte.x0a]).

Lemma ready_tasks : aq_tasks (mem_queue "emails" ready_history) = {["b" := ATask (enc (sample "b" 0 Second)) 1000 1 APending]}.
Proof. vm_compute. reflexivity. Qed.

Lemma ready_decodable q : decodable (mem_queue q ready_history).
Proof.
  destruct (decide (q = "emails")) as [->|Hne].
  - split; [vm_compute; discriminate|]. intros id t Ht.
    rewrite ready_tasks in Ht. apply lookup_singleton_Some in Ht as [<- <-]. eexists. vm_compute. reflexivity.
  - unfold mem_queue, requests_on, ready_history. rewrite filter_cons_False by (cbn; congruence).
    rewrite filter_nil. split; [vm_compute; discriminate|]. intros id t Ht. discriminate Ht.
Qed.

Lemma dispatch_turn_witness :
  ∃ l' w' errs next, dispatch_iteration (H := RedisTaskStore (H := RedisMem) Second) test_config ["emails"]
      (2 * Second) fixed_readings tt ready_server = (l', mkServer w' None errs ∅, next) ∧
    match next with
    | DispatchJob msg => ∃ S', handed_out Second test_config (fixed_readings "emails") "emails"
        (after_move (2 * Second) ["emails"] (λ q, mem_queue q ready_history) "emails") msg S'
    | DispatchWait _ => False
    end.
Proof.
  destruct (dispatch_turn (H := RedisMem) Second test_config ["emails"] (2 * Second) fixed_readings tt
    ready_server (λ q, mem_queue q ready_history)) as (l' & w' & errs & next & E & Hnext).
  - apply NoDup_singleton.
  - repeat constructor.
  - intros q _. by eexists.
  - apply ready_decodable.
  - reflexivity.
  - intros q Hq. apply mem_run_Impl; [repeat constructor|by vm_compute|done].
  - exists l', w', errs, next. split; [exact E|]. destruct next as [d|msg].
    + destruct Hnext as [_ [(_ & _ & _ & Hno)|(bucket & res & Hb & _)]]; [|discriminate Hb].
      assert (∃ t, aq_tasks (after_move (2 * Second) ["emails"] (λ q, mem_queue q ready_history) "emails") !! "b" =
        Some t ∧ at_status t = APending) as (t & Ht & Hst) by (vm_compute; eexists; split; reflexivity).
      apply (Hno "emails" ltac:(left) "b" t Ht Hst).
    + destruct Hnext as (_ & (before & q & after & S' & Hq & _ & Hh & _) & _).
      destruct before as [|x before]; [injection Hq as <- _|].
      * exists S'. exact Hh.
      * injection Hq as _ Hq. destruct before; discriminate Hq.
Defined.
