(* ===== verification/Drain.v ===== *)
(** * A served queue drains

    The dispatcher, the worker's [process] and the recovery loop composed, in any order, with
    workers that may die while they run a task: if the loops keep coming round after the due
    times and leases set so far, every task is eventually completed or archived. *)

From S2P Require Import Float.
From S2P Require Import Prelude GoLib Json TimeText JsonStruct Model Storage Redis RedisMem Keys Scripts Codec.
From S2P Require Import JsonCodec Store QueueView QueueSpec QueueInv ScriptSpecs StoreRefine.
From S2P Require Import Requests QueueProps History StoreTheorems TaskLifecycle QueueTheorems.
From S2P Require Import MoveTheorems DeadLetters Backoff HandlerMux TaskStore Server.
From S2P Require Import ServerTheorems Maintenance Leases Dispatch.

(** ** Sums over maps *)

Definition map_sum (m : gmap string nat) : nat := map_fold (λ _ n acc, (n + acc)%nat) 0%nat m.

Lemma map_sum_insert_new m k n : m !! k = None → map_sum (<[k := n]> m) = (n + map_sum m)%nat.
Proof. intros Hk. unfold map_sum. rewrite map_fold_insert_L; [done| |done]. intros. lia. Qed.

Lemma map_sum_insert m k n n' : m !! k = Some n → (map_sum (<[k := n']> m) + n = map_sum m + n')%nat.
Proof.
  intros Hk. rewrite <-(insert_delete_id m k n Hk) at 2. rewrite <-insert_delete_eq.
  rewrite !map_sum_insert_new by apply lookup_delete_eq. lia.
Qed.

Lemma map_sum_zero m k n : map_sum m = 0%nat → m !! k = Some n → n = 0%nat.
Proof. intros Hm Hk. pose proof (map_sum_insert m k n 0 Hk). lia. Qed.

Lemma map_sum_pos m : map_sum m ≠ 0%nat → ∃ k n, m !! k = Some n ∧ n ≠ 0%nat.
Proof.
  induction m as [|k n m Hk IH] using map_ind; [done|]. rewrite map_sum_insert_new by done. intros Hs.
  destruct (decide (n = 0%nat)) as [->|Hn]; [|exists k, n; by rewrite lookup_insert_eq].
  destruct IH as (k' & n' & Hk' & Hn'); [lia|]. exists k', n'. split; [|done].
  rewrite lookup_insert_ne; [done|]. by intros ->; simplify_eq.
Qed.

Lemma map_sum_le m m' :
  (∀ k n, m !! k = Some n → ∃ n', m' !! k = Some n' ∧ (n ≤ n')%nat) → (map_sum m ≤ map_sum m')%nat.
Proof.
  revert m'. induction m as [|k n m Hk IH] using map_ind; intros m' Hle; [unfold map_sum at 1; rewrite map_fold_empty; lia|].
  destruct (Hle k n) as (n' & Hk' & Hn); [by rewrite lookup_insert_eq|].
  rewrite map_sum_insert_new, <-(insert_delete_id m' k n' Hk'), map_sum_insert_new by (done || apply lookup_delete_eq).
  assert (map_sum m ≤ map_sum (delete k m'))%nat; [|lia]. apply IH. intros k0 n0 Hk0.
  assert (k ≠ k0) as Hne by (by intros ->; simplify_eq). destruct (Hle k0 n0) as (n0' & Hk0' & ?); [by rewrite lookup_insert_ne|].
  exists n0'. by rewrite lookup_delete_ne.
Qed.

Lemma map_sum_lt m m' k n n' :
  (∀ k n, m !! k = Some n → ∃ n', m' !! k = Some n' ∧ (n ≤ n')%nat) →
  m !! k = Some n → m' !! k = Some n' → (n < n')%nat → (map_sum m < map_sum m')%nat.
Proof.
  intros Hle Hk Hk' Hn. pose proof (map_sum_insert m k n n' Hk) as Hs.
  assert (map_sum (<[k := n']> m) ≤ map_sum m')%nat; [|lia]. apply map_sum_le. intros k0 n0.
  rewrite lookup_insert_Some. intros [[<- <-]|[_ Hk0]]; eauto.
Qed.

(** ** Work left *)

Definition finished (st : astatus) : bool := match st with AArchived _ | ACompleted => true | _ => false end.

Section weights.
Context `{TaskCodec}.

Definition retries_left (m : TaskMessage) : nat := Z.to_nat (MaxRetry m - Model.RetryCount m).

(** What is left to do for a task: two steps, to be claimed and to be settled, for each
    attempt it can still use. *)
Definition work_left (t : atask) : nat :=
  match at_status t, Unmarshal (at_msg t) with
  | (AArchived _ | ACompleted), _ | _, inl _ => 0%nat
  | AActive _ _, inr m => S (2 * retries_left m)
  | _, inr m => S (S (2 * retries_left m))
  end.

Definition queue_work (S : aqueue) : nat := map_sum (work_left <$> aq_tasks S).

Lemma queue_work_put S id t t' :
  aq_tasks S !! id = Some t → (work_left t' < work_left t)%nat →
  (queue_work (aq_put id t' S) < queue_work S)%nat.
Proof.
  intros Ht Hlt. unfold queue_work, aq_put. cbn [aq_tasks]. rewrite fmap_insert.
  pose proof (map_sum_insert (work_left <$> aq_tasks S) id (work_left t) (work_left t')) as Hs.
  rewrite lookup_fmap, Ht in Hs. specialize (Hs eq_refl). lia.
Qed.

(** ** Moving due tasks *)

(** [S'] is [S] with some due tasks made pending. *)
Definition moved (now : Z) (S S' : aqueue) : Prop :=
  aq_seq S' = aq_seq S ∧
  ∀ id, aq_tasks S' !! id = aq_tasks S !! id ∨
    ∃ t, aq_tasks S !! id = Some t ∧ is_due now t = true ∧ aq_tasks S' !! id = Some (with_status APending t).

Lemma moved_trans now S1 S2 S3 : moved now S1 S2 → moved now S2 S3 → moved now S1 S3.
Proof.
  intros [E12 H12] [E23 H23]. split; [congruence|]. intros id.
  destruct (H12 id) as [E|(t & Ht & Hd & Ht')], (H23 id) as [E'|(t1 & Ht1 & Hd1 & Ht1')].
  - left. congruence.
  - right. exists t1. rewrite <-E. done.
  - right. exists t. split_and!; congruence.
  - rewrite Ht' in Ht1. injection Ht1 as <-. done.
Qed.

Lemma s_move_moved z now limit S : waiting z → moved now S (s_move z now limit S).2.
Proof.
  intros Hz. split; [apply s_move_seq|]. intros id. rewrite s_move_lookup. case_decide as Hin; [|by left].
  apply elem_of_take in Hin as (i & Hi & _). apply list_elem_of_lookup_2, due_ids_iff in Hi as (t & s & Ht & Hp & Hs).
  2:{ by destruct Hz; subst. }
  right. exists t. rewrite Ht. split_and!; [done| |done]. unfold is_due, zpart in *.
  destruct Hz as [-> | ->], (at_status t); simplify_eq; by apply Z.leb_le.
Qed.

Lemma s_move_both_moved now limit S : moved now S (s_move_both now limit S).2.
Proof.
  unfold s_move_both. pose proof (s_move_moved ZSched now limit S ltac:(by left)) as H1.
  destruct (s_move ZSched now limit S) as [n S1]. cbn [snd] in H1.
  pose proof (s_move_moved ZRetry now limit S1 ltac:(by right)) as H2.
  destruct (s_move ZRetry now limit S1) as [n' S2]. cbn [snd] in *. by eapply moved_trans.
Qed.

(** A pass with room for one task leaves a pending one if any is due. *)
Lemma s_move_some z now limit S id t :
  waiting z → 0 < limit → aq_tasks S !! id = Some t → (∃ s, zpart z id t = Some (id, s) ∧ s ≤ now) →
  ¬ none_pending (s_move z now limit S).2.
Proof.
  intros Hz Hl Ht (s & Hp & Hs) Hno.
  assert (id ∈ due_ids z now S) as Hid by (apply due_ids_iff; [by destruct Hz; subst|eauto]).
  destruct (due_ids z now S) as [|x xs] eqn:E; [by apply elem_of_nil in Hid|].
  assert (x ∈ due_ids z now S) as Hx by (rewrite E; left).
  apply due_ids_iff in Hx as (tx & sx & Htx & _); [|by destruct Hz; subst].
  apply (Hno x (with_status APending tx)); [|done]. rewrite s_move_lookup, E, Htx, decide_True; [done|].
  destruct (Z.to_nat limit) eqn:El; [lia|]. left.
Qed.

Lemma moved_pending now S S' id t :
  moved now S S' → aq_tasks S !! id = Some t → at_status t = APending → ¬ none_pending S'.
Proof.
  intros [_ Hm] Ht Hst Hno. destruct (Hm id) as [E|(t0 & Ht0 & _ & E)]; rewrite ?Ht in E.
  - by apply (Hno id t).
  - by apply (Hno id _ E).
Qed.

Lemma s_move_both_pending now limit S id t :
  0 < limit → aq_tasks S !! id = Some t → at_status t = APending ∨ is_due now t = true →
  ¬ none_pending (s_move_both now limit S).2.
Proof.
  intros Hl Ht [Hst|Hd]; [by eapply moved_pending; [apply s_move_both_moved|..]|].
  unfold s_move_both. pose proof (s_move_moved ZSched now limit S ltac:(by left)) as H1.
  pose proof (s_move_some ZSched now limit S id t ltac:(by left) Hl Ht) as Hs.
  destruct (s_move ZSched now limit S) as [n S1]. cbn [snd] in H1, Hs.
  pose proof (s_move_moved ZRetry now limit S1 ltac:(by right)) as H2.
  pose proof (s_move_some ZRetry now limit S1 id) as Hr.
  destruct (s_move ZRetry now limit S1) as [n' S2]. cbn [snd] in *. intros Hno.
  assert (none_pending S1) as Hno1.
  { intros i ti Hi Hp. by apply (moved_pending now S1 S2 i ti). }
  unfold is_due, due_time in Hd. destruct (at_status t) eqn:Est; try done; apply Z.leb_le in Hd.
  - apply Hs in Hno1; [done|]. exists due. unfold zpart. by rewrite Est.
  - destruct (proj2 H1 id) as [E|(t0 & Ht0 & _ & E)]; [|by apply (Hno1 id _ E)].
    apply (Hr t) in Hno; [done|by right|done|congruence|]. exists due. unfold zpart. by rewrite Est.
Qed.

Lemma moved_work now S S' : moved now S S' → queue_work S' = queue_work S.
Proof.
  intros [_ Hm]. unfold queue_work. f_equal. apply map_eq. intros id. rewrite !lookup_fmap.
  destruct (Hm id) as [->|(t & -> & Hd & ->)]; [done|]. cbn. f_equal.
  unfold work_left, is_due, due_time in *. cbn. by destruct (at_status t).
Qed.

(** A pass that leaves nothing pending moved nothing. *)
Lemma moved_nothing now S S' : moved now S S' → none_pending S' → aq_tasks S' = aq_tasks S.
Proof.
  intros [_ Hm] Hno. apply map_eq. intros id. destruct (Hm id) as [E|(t & _ & _ & E)]; [done|].
  by destruct (Hno id _ E).
Qed.
End weights.

(** ** Events *)

Section drain.
Context {L : Type} `{Redis, TaskCodec} (leaseDuration : Duration).
#[local] Instance redis_store : TaskStore world := RedisTaskStore leaseDuration.
Context (c : Config L) (handler : Handler) (queues : list string).

(** What one turn reads: the dispatcher's clock, what the claims read, what the worker reads. *)
Record turn := mkTurn { tn_now : Time; tn_claim : string → readings; tn_process : process_readings }.

(** What one tick of the recovery loop reads. *)
Record tick := mkTick { tk_now : Time; tk_random : string → string → float64; tk_rd : string → string → readings }.

(** A turn of the dispatcher, whose worker runs the task or dies with it, or a tick of the
    recovery loop. *)
Inductive event := Turn (r : turn) | Crash (r : turn) | Tick (k : tick).

Definition serve_event (ls : L * Server world) (e : event) : L * Server world :=
  match e with
  | Turn r =>
      match dispatch_iteration c queues (tn_now r) (tn_claim r) ls.1 ls.2 with
      | (l, s, DispatchJob msg) => (l, worker_step c handler (tn_process r) msg s)
      | (l, s, DispatchWait _) => (l, s)
      end
  | Crash r => (dispatch_iteration c queues (tn_now r) (tn_claim r) ls.1 ls.2).1
  | Tick k => (ls.1, recovery_tick c queues (tk_now k) (tk_random k) (tk_rd k) ls.2)
  end.

Definition serve (ls : L * Server world) (es : list event) : L * Server world := foldl serve_event ls es.

(** The due times and the leases an event may set. *)
Definition sets_due (e : event) (d : Z) : Prop :=
  match e with
  | Turn r => ∃ n, d = score_ms (Add (pr_retry_now (tn_process r)) (retry_delay c (pr_random (tn_process r)) n))
  | Crash _ => False
  | Tick k => ∃ q id n, q ∈ queues ∧ d = score_ms (Add (tk_now k) (retry_delay c (tk_random k q id) n))
  end.

Definition sets_lease (e : event) (l : Z) : Prop :=
  match e with
  | Crash r => ∃ q, q ∈ queues ∧
      l = score_ms (Add (rd_now (tn_claim r q)) (Store.lease_or_default leaseDuration (LeaseDuration c)))
  | _ => False
  end.

(** The limiter, if there is one, grants every turn. *)
Definition grants : Prop :=
  match TokenBucket c with
  | None => True
  | Some bucket => ∀ l, ∃ l' res, l_Acquire bucket (TokenAmount c) l = (l', inr res) ∧ Allowed res = true
  end.

(** The messages that survive encoding. *)
Context (Safe : TaskMessage → Prop).

(** Random bytes are read, what is stored can be encoded, and the handler keeps the identity
    of a task. *)
Definition claim_ok (r : turn) : Prop := ∀ q, q ∈ queues → ∃ bs, rd_rand (tn_claim r q) = inr bs ∧ bs ≠ [].

Definition handler_ok (r : turn) : Prop :=
  ∀ ctx m m' err, Safe m → handler ctx m = (m', err) →
    ID m' = ID m ∧ Queue m' = Queue m ∧ AttemptID m' = AttemptID m ∧ MaxRetry m' = MaxRetry m ∧
    Model.RetryCount m' = Model.RetryCount m ∧
    let '(st, m1) := verdict c (tn_process r) m' err in Safe (settled st m1).

Definition tick_ok (k : tick) : Prop :=
  ∀ q id m, Safe m → let '(st, m1) := recovery_verdict c (tk_now k) (tk_random k q id) (tk_rd k q id) m in Safe (settled st m1).

Definition event_ok (e : event) : Prop :=
  match e with
  | Turn r => claim_ok r ∧ handler_ok r
  | Crash r => claim_ok r
  | Tick k => tick_ok k
  end.

Record safe_messages : Prop := {
  sm_json : ∀ m, Safe m → json_safe m;
  sm_ints : ∀ m, Safe m → int64 (MaxRetry m) ∧ int64 (Model.RetryCount m);
  sm_claim : ∀ m bs, Safe m → Safe (set_AttemptID (hex_EncodeToString bs) (set_State StateActive m))
}.

(** A task whose envelope names it; if it is active, whoever runs it. *)
Record sound (q id : string) (t : atask) (m : TaskMessage) : Prop := {
  so_msg : Unmarshal (at_msg t) = inr m;
  so_safe : Safe m;
  so_id : ID m = id;
  so_queue : Queue m = q;
  so_active : ∀ a l, at_status t = AActive a l → a ≠ "" ∧ Safe (set_AttemptID a (set_State StateActive m))
}.

Record healthy (q : string) (S : aqueue) : Prop := {
  he_seq : aq_seq S ≤ 2 ^ 53;
  he_task : ∀ id t, aq_tasks S !! id = Some t → ∃ m, sound q id t m
}.

Lemma healthy_decodable q S : healthy q S → decodable S.
Proof. intros [Hs Ht]. split; [done|]. intros id t Hi. destruct (Ht id t Hi) as (m & Hm). exists m. apply Hm. Qed.

Lemma healthy_moved q now S S' : moved now S S' → healthy q S → healthy q S'.
Proof.
  intros [Es Hm] [Hs Ht]. split; [lia|]. intros id t' Hi. destruct (Hm id) as [E|(t & Hi0 & _ & E)].
  - apply Ht. congruence.
  - rewrite E in Hi. injection Hi as <-. destruct (Ht id t Hi0) as (m & []). exists m. by split.
Qed.

Lemma healthy_put q id t m S : healthy q S → sound q id t m → healthy q (aq_put id t S).
Proof.
  intros [Hs Ht] Hm. split; [done|]. intros i u. cbn. rewrite lookup_insert_Some. intros [[<- <-]|[_ Hu]]; eauto.
Qed.

(** [D] holds of the due times and [Le] of the leases of a queue. *)
Definition time_ok (D Le : Z → Prop) (st : astatus) : Prop :=
  match st with AScheduled d | ARetry d => D d | AActive _ l => Le l | _ => True end.

Definition times (D Le : Z → Prop) (S : aqueue) : Prop :=
  ∀ id t, aq_tasks S !! id = Some t → time_ok D Le (at_status t).

Lemma times_moved D Le now S S' : moved now S S' → times D Le S → times D Le S'.
Proof.
  intros [_ Hm] Hd id t Hi. destruct (Hm id) as [E|(t0 & _ & _ & E)]; rewrite E in Hi.
  - by eapply Hd.
  - by injection Hi as <-.
Qed.

Lemma times_put D Le id t S : times D Le S → time_ok D Le (at_status t) → times D Le (aq_put id t S).
Proof. intros Hd Ht i u. cbn. rewrite lookup_insert_Some. intros [[<- <-]|[_ Hu]]; eauto. Qed.

Lemma dom_put id t t' S : aq_tasks S !! id = Some t → dom (aq_tasks (aq_put id t' S)) = dom (aq_tasks S).
Proof. intros Ht. cbn. rewrite dom_insert_L. apply elem_of_dom_2 in Ht. set_solver. Qed.

(** An event finds nothing to do in a queue. *)
Definition idle (e : event) (S : aqueue) : Prop :=
  ∀ id t, aq_tasks S !! id = Some t →
    match e with
    | Turn r | Crash r => at_status t ≠ APending ∧ is_due (score_ms (tn_now r)) t = false
    | Tick k => ∀ a l, at_status t = AActive a l → score_ms (tk_now k) < l
    end.

(** A queue in which a late turn and a late tick find nothing to do is finished. *)
Lemma idle_finished q r k S :
  healthy q S → times (λ d, d ≤ score_ms (tn_now r)) (λ l, l ≤ score_ms (tk_now k)) S →
  idle (Turn r) S → idle (Tick k) S → queue_work S = 0%nat.
Proof.
  intros HS Hd Hr Hk. destruct (decide (queue_work S = 0%nat)) as [|Hq]; [done|].
  destruct (map_sum_pos _ Hq) as (id & n & Hn & Hne). rewrite lookup_fmap in Hn.
  destruct (aq_tasks S !! id) as [t|] eqn:Ht; [|done]. cbn in Hn. injection Hn as Hn.
  destruct (Hr id t Ht) as [Hp Hdue]. specialize (Hk id t Ht). specialize (Hd id t Ht). unfold work_left, is_due in *.
  destruct (at_status t) as [|due|a l|due| |]; cbn in *; try done; [apply Z.leb_gt in Hdue; lia| |apply Z.leb_gt in Hdue; lia].
  specialize (Hk a l eq_refl). lia.
Qed.

(** ** Progress *)

Lemma settled_keeps st m : ID (settled st m) = ID m ∧ Queue (settled st m) = Queue m ∧
  MaxRetry (settled st m) = MaxRetry m ∧ Model.RetryCount (settled st m) = Model.RetryCount m.
Proof. by destruct st, m. Qed.

(** What settling a task leaves of its message [m]. *)
Definition consumes (e : event) (m : TaskMessage) (st : settlement) (m1 : TaskMessage) : Prop :=
  ID (settled st m1) = ID m ∧ Queue (settled st m1) = Queue m ∧ (∀ a l, settled_status st ≠ AActive a l) ∧
  (finished (settled_status st) = true ∨ (retries_left (settled st m1) < retries_left m)%nat) ∧
  ∀ D Le, (∀ d, sets_due e d → D d) → time_ok D Le (settled_status st).

(** Counting one more retry uses one of the retries left. *)
Lemma retry_uses now at_ reason m :
  int64 (MaxRetry m) → int64 (Model.RetryCount m) → Model.RetryCount m < MaxRetry m →
  (retries_left (settled (SRetry now at_ reason) (set_RetryCount (wrap64 (Model.RetryCount m + 1)) m)) < retries_left m)%nat.
Proof.
  intros Hm Hr Hlt. unfold retries_left. destruct (settled_keeps (SRetry now at_ reason) (set_RetryCount (wrap64 (Model.RetryCount m + 1)) m))
    as (_ & _ & -> & ->). destruct m. cbn in *. unfold int64, MinInt64, MaxInt64 in *.
  rewrite wrap64_id by (unfold int64, MinInt64, MaxInt64; lia). lia.
Qed.

Lemma verdict_consumes r m err :
  int64 (MaxRetry m) → int64 (Model.RetryCount m) →
  let '(st, m1) := verdict c (tn_process r) m err in consumes (Turn r) m st m1.
Proof.
  intros Hm Hr. unfold verdict, consumes. destruct err as [err|]; [|split_and!; auto; by destruct m].
  destruct (errors_Is err ErrNonRetryable || (MaxRetry m <=? Model.RetryCount m))%bool eqn:E.
  - split_and!; auto; by destruct m.
  - apply orb_false_elim in E as [_ Hlt%Z.leb_gt]. split_and!; try by destruct m.
    + right. by apply retry_uses.
    + cbn. intros D Le HD. apply HD. by eexists.
Qed.

Lemma recovery_consumes k q id m :
  q ∈ queues → int64 (MaxRetry m) → int64 (Model.RetryCount m) →
  let '(st, m1) := recovery_verdict c (tk_now k) (tk_random k q id) (tk_rd k q id) m in consumes (Tick k) m st m1.
Proof.
  intros Hq Hm Hr. unfold recovery_verdict, consumes. destruct (MaxRetry m <=? Model.RetryCount m) eqn:E.
  - split_and!; auto; by destruct m.
  - apply Z.leb_gt in E. split_and!; try by destruct m.
    + right. by apply retry_uses.
    + cbn. intros D Le HD. apply HD. by eexists _, _, _.
Qed.

Lemma aq_put_put id t t' S : aq_put id t' (aq_put id t S) = aq_put id t' S.
Proof. unfold aq_put. cbn. by rewrite insert_insert_eq. Qed.

(** A settled task is sound and has less work left. *)
Lemma consumes_sound e q id t m m0 st m1 text :
  sound q id t m0 → finished (at_status t) = false → ID m = id → Queue m = q → retries_left m = retries_left m0 →
  consumes e m st m1 → Unmarshal text = inr (settled st m1) → Safe (settled st m1) →
  let t' := with_status (settled_status st) (with_msg text t) in
  sound q id t' (settled st m1) ∧ (work_left t' < work_left t)%nat ∧
  ∀ D Le, (∀ d, sets_due e d → D d) → time_ok D Le (at_status t').
Proof.
  intros [Hu _ _ _ _] Hf Hid Hq Hr (Ci & Cq & Ca & Cf & Ct) Ht Hs t'. split_and!; [|..|exact Ct].
  - split; [done|done|congruence|congruence|]. intros a l Ha. by destruct (Ca a l).
  - unfold work_left. cbn. rewrite Hu, Ht. destruct (at_status t); [..|done|done];
      destruct (settled_status st) eqn:Est; cbn in Cf; try lia; destruct Cf; try done; lia.
Qed.

(** What an event that finds something to do makes of a queue. *)
Record queue_step (e : event) (q : string) (S S2 : aqueue) : Prop := {
  qs_healthy : healthy q S2;
  qs_dom : dom (aq_tasks S2) = dom (aq_tasks S);
  qs_work : (queue_work S2 < queue_work S)%nat;
  qs_times : ∀ D Le, times D Le S → (∀ d, sets_due e d → D d) → (∀ l, sets_lease e l → Le l) → times D Le S2
}.

Lemma put_step e q S id t t' m' :
  healthy q S → aq_tasks S !! id = Some t → sound q id t' m' → (work_left t' < work_left t)%nat →
  (∀ D Le, (∀ d, sets_due e d → D d) → (∀ l, sets_lease e l → Le l) → time_ok D Le (at_status t')) →
  queue_step e q S (aq_put id t' S).
Proof.
  intros HS Ht Hs Hw Hd. split; [by eapply healthy_put|by eapply dom_put|by eapply queue_work_put|].
  intros D Le HD Hdue Hle. apply times_put; auto.
Qed.

Lemma hex_nonempty bs : bs ≠ [] → hex_EncodeToString bs ≠ "".
Proof. by destruct bs. Qed.

(** The message handed out is the stored one, active under the new attempt. *)
Lemma claimed_message q id t m attempt :
  sound q id t m → let msg := set_AttemptID attempt (set_State StateActive m) in
  ID msg = id ∧ Queue msg = q ∧ AttemptID msg = attempt ∧ retries_left msg = retries_left m.
Proof. intros [_ _ <- <- _]. by destruct m. Qed.

(** The worker dies: the task stays active. *)
Lemma crash_step r q S msg S' :
  safe_messages → claim_ok r → q ∈ queues → healthy q S →
  handed_out leaseDuration c (tn_claim r q) q S msg S' → queue_step (Crash r) q S S'.
Proof.
  intros Hsm Hto Hq HS (bs & id & t & m & Hbs & (Ht & Hpend & _) & Hu & -> & ->).
  destruct (he_task _ _ HS id t Ht) as (m0 & Hs). pose proof (so_msg _ _ _ _ Hs) as Hu0. rewrite Hu in Hu0. injection Hu0 as <-.
  destruct (Hto q Hq) as (bs' & Hbs' & Hne). rewrite Hbs in Hbs'. injection Hbs' as <-.
  eapply (put_step _ _ _ _ _ _ m); [done|exact Ht|..].
  - destruct Hs. split; try done. cbn. intros a l [= <- <-]. split; [by apply hex_nonempty|by apply (sm_claim Hsm)].
  - unfold work_left. cbn. rewrite Hpend, Hu. lia.
  - cbn. intros D Le _ Hle. apply Hle. by exists q.
Qed.

(** The worker runs the message handed out: one attempt fewer. *)
Lemma process_step r q S msg S' s :
  safe_messages → handler_ok r → healthy q S → handed_out leaseDuration c (tn_claim r q) q S msg S' →
  w_net (srv_store s) = [] → Impl q (keyspace (w_db (srv_store s))) (keyspace (w_db (srv_store s))) S' →
  ∃ w2 ms act S2, worker_step c handler (tn_process r) msg s = mkServer w2 ms (srv_errors s) act ∧
    w_net w2 = [] ∧ Impl q (keyspace (w_db (srv_store s))) (keyspace (w_db w2)) S2 ∧ queue_step (Turn r) q S S2.
Proof.
  intros Hsm Hto HS (bs & id & t & m & _ & (Ht & Hpend & _) & Hu & -> & ->) Hn HI.
  destruct (he_task _ _ HS id t Ht) as (m0 & Hs). pose proof (so_msg _ _ _ _ Hs) as Hu0. rewrite Hu in Hu0. injection Hu0 as <-.
  set (attempt := hex_EncodeToString bs) in *. destruct (claimed_message q id t m attempt Hs) as (Eid & Eq & Ea & El).
  set (msg := set_AttemptID attempt (set_State StateActive m)) in *.
  assert (Safe msg) as Hmsg by (apply (sm_claim Hsm), Hs).
  destruct (handler (handler_context (tn_process r) msg) msg) as [msg' err] eqn:Hh.
  destruct (Hto _ _ _ _ Hmsg Hh) as (Hi & Hqq & Hatt & Hmax & Hrc & Hsettled).
  assert (retries_left msg' = retries_left m) as El' by (rewrite <-El; unfold retries_left; congruence).
  destruct (sm_ints Hsm _ Hmsg) as [Hi1 Hi2]. rewrite <-Hmax in Hi1. rewrite <-Hrc in Hi2.
  pose proof (verdict_consumes r msg' err Hi1 Hi2) as Hv. set (S1 := aq_put id _ S) in HI. rewrite <-Eq in HI.
  pose proof (process_owned leaseDuration c handler (tn_process r) msg msg' err (trackActive msg s).1 S1
    (keyspace (w_db (srv_store s))) (with_status (AActive attempt (score_ms (Add (rd_now (tn_claim r q))
       (Store.lease_or_default leaseDuration (LeaseDuration c))))) t)) as Hp.
  destruct (verdict c (tn_process r) msg' err) as [st m1].
  destruct (Unmarshal_Marshal _ (sm_json Hsm _ Hsettled)) as (text & Htext & Hu1).
  edestruct Hp as (w2 & Hw & Hn2 & HI2); [exact HI|exact Hn| |cbn; by rewrite Ea|exact Hh|done|done|done|exact Htext|].
  { rewrite Eid. unfold S1, aq_put. cbn. by rewrite lookup_insert_eq. }
  eexists w2, _, _, _. split.
  { unfold worker_step. cbn [trackActive fst] in *. etrans; [apply (f_equal (untrackActive (activeKey msg)) Hw)|]. reflexivity. }
  split; [done|]. rewrite Eid, Eq in HI2. unfold S1 in HI2. rewrite aq_put_put in HI2. split; [exact HI2|].
  destruct (consumes_sound (Turn r) q id t msg' m st m1 text Hs) as (Hs' & Hw' & Ht'); try done; [by rewrite Hpend|congruence..|].
  eapply put_step; eauto.
Qed.

(** A sound active task can be recovered, and is sound afterwards, with less work left. *)
Lemma sound_recoverable k q id t m a l :
  safe_messages → tick_ok k → sound q id t m → at_status t = AActive a l →
  ∃ m' text, recoverable c (tk_now k) (tk_random k q id) (tk_rd k q id) q id t m' text.
Proof.
  intros Hsm Hk Hs Ha. destruct (so_active _ _ _ _ Hs a l Ha) as [Hne Hsafe].
  destruct (claimed_message q id t m a Hs) as (Eid & Eq & Ea & El). set (m' := set_AttemptID a (set_State StateActive m)) in *.
  specialize (Hk q id m' Hsafe). destruct (recovery_verdict c (tk_now k) (tk_random k q id) (tk_rd k q id) m') as [st m1] eqn:Ev.
  destruct (Unmarshal_Marshal _ (sm_json Hsm _ Hk)) as (text & Htext & _). exists m', text, a, l, m.
  rewrite Ev. split_and!; try done; [apply Hs|by apply (sm_ints Hsm)].
Qed.

Lemma recovered_sound k q id t m m' text :
  safe_messages → tick_ok k → q ∈ queues → sound q id t m →
  recoverable c (tk_now k) (tk_random k q id) (tk_rd k q id) q id t m' text →
  let t' := recovered c (tk_now k) (tk_random k q id) (tk_rd k q id) m' text t in
  (∃ m1, sound q id t' m1) ∧ (work_left t' < work_left t)%nat ∧
  ∀ D Le, (∀ d, sets_due (Tick k) d → D d) → time_ok D Le (at_status t').
Proof.
  intros Hsm Hk Hq Hs (a & l & m0 & Ha & Hne & Hu & -> & Hid & Hqm & _ & Ht).
  rewrite (so_msg _ _ _ _ Hs) in Hu. injection Hu as <-. destruct (so_active _ _ _ _ Hs a l Ha) as [_ Hsafe].
  destruct (claimed_message q id t m a Hs) as (_ & _ & _ & El). set (m' := set_AttemptID a (set_State StateActive m)) in *.
  pose proof (recovery_consumes k q id m' Hq) as Hc. specialize (Hk q id m' Hsafe). unfold recovered.
  destruct (recovery_verdict c (tk_now k) (tk_random k q id) (tk_rd k q id) m') as [st m1]. cbn [fst].
  destruct (Unmarshal_Marshal _ (sm_json Hsm _ Hk)) as (text' & Htext & Hu'). rewrite Ht in Htext. injection Htext as <-.
  destruct (consumes_sound (Tick k) q id t m' m st m1 text Hs) as (Hs' & Hw' & Ht'); try done; [by rewrite Ha|by apply Hc; apply (sm_ints Hsm)|].
  split_and!; [by eexists|done|done].
Qed.

(** The tasks of [ids] are recovered, the others are kept: a step of the queue. *)
Lemma recovers_step k q ids S S' :
  safe_messages → tick_ok k → q ∈ queues → healthy q S → aq_seq S' = aq_seq S → ids ≠ [] →
  (∀ id, id ∉ ids → aq_tasks S' !! id = aq_tasks S !! id) →
  (∀ id, id ∈ ids → recovers c (tk_now k) (tk_random k) (tk_rd k) q S S' id) →
  queue_step (Tick k) q S S'.
Proof.
  intros Hsm Hk Hq HS Hseq Hne Hout Hin.
  assert (∀ id t', aq_tasks S' !! id = Some t' → ∃ t, aq_tasks S !! id = Some t ∧ (∃ m, sound q id t' m) ∧
    (work_left t' ≤ work_left t)%nat ∧ (id ∈ ids → (work_left t' < work_left t)%nat) ∧
    (∀ D Le, time_ok D Le (at_status t) → (∀ d, sets_due (Tick k) d → D d) → time_ok D Le (at_status t'))) as Hall.
  { intros id t' Hid. destruct (decide (id ∈ ids)) as [Hi|Hi].
    - destruct (Hin id Hi) as (t & m' & text & Ht & Hr & Ht'). rewrite Hid in Ht'. injection Ht' as ->.
      destruct (he_task _ _ HS id t Ht) as (m & Hs).
      destruct (recovered_sound k q id t m m' text Hsm Hk Hq Hs Hr) as (Hs' & Hw & Hd). exists t. split_and!; auto with lia.
    - rewrite Hout in Hid by done. exists t'. destruct (he_task _ _ HS id t' Hid) as (m & Hs). split_and!; eauto. done. }
  assert (∀ id n, (work_left <$> aq_tasks S') !! id = Some n →
    ∃ n', (work_left <$> aq_tasks S) !! id = Some n' ∧ (n ≤ n')%nat) as Hle.
  { intros id n. rewrite !lookup_fmap. intros (t' & Ht' & ->)%fmap_Some. destruct (Hall id t' Ht') as (t & -> & _ & Hw & _). by eexists. }
  split.
  - split; [rewrite Hseq; apply HS|]. intros id t' Ht'. by destruct (Hall id t' Ht') as (t & _ & Hs & _).
  - apply set_eq. intros id. rewrite !elem_of_dom. destruct (decide (id ∈ ids)) as [Hi|Hi]; [|by rewrite Hout].
    destruct (Hin id Hi) as (t & m' & text & -> & _ & ->). done.
  - destruct ids as [|id ids]; [done|]. destruct (Hin id ltac:(left)) as (t & m' & text & Ht & _ & Ht').
    destruct (Hall id _ Ht') as (t0 & Ht0 & _ & _ & Hlt & _). rewrite Ht in Ht0. injection Ht0 as <-.
    eapply (map_sum_lt _ _ id); [done|by rewrite lookup_fmap, Ht'|by rewrite lookup_fmap, Ht|]. apply Hlt. left.
  - intros D Le Hd HD _ id t' Ht'. destruct (Hall id t' Ht') as (t & Ht & _ & _ & _ & Hok). apply Hok; [|done]. by eapply Hd.
Qed.

(** Recovery of the expired attempts of a queue. *)
Lemma recover_step k q s S ks0 :
  safe_messages → tick_ok k → q ∈ queues → healthy q S → Impl q ks0 (keyspace (w_db (srv_store s))) S → w_net (srv_store s) = [] →
  ∃ w' ms S', recover_queue c (tk_now k) (tk_random k) (tk_rd k) s q = mkServer w' ms (srv_errors s) (srv_active s) ∧
    w_net w' = [] ∧ Impl q ks0 (keyspace (w_db w')) S' ∧
    (queue_step (Tick k) q S S' ∨ S' = S ∧ idle (Tick k) S).
Proof.
  intros Hsm Hk Hq HS HI Hn.
  destruct (recover_queue_quiet leaseDuration c (tk_now k) (tk_random k) (tk_rd k) q s S ks0 HI Hn)
    as (w' & ms & S' & E & Hn' & HI' & Hseq & Hout & Hin).
  { intros id (i & Hi & _)%elem_of_take. apply list_elem_of_lookup_2, due_ids_iff in Hi as (t & d & Ht & Hp & _); [|done].
    destruct (he_task _ _ HS id t Ht) as (m & Hs). unfold zpart in Hp. destruct (at_status t) as [| |a l| | |] eqn:Ha; try done.
    destruct (sound_recoverable k q id t m a l Hsm Hk Hs Ha) as (m' & text & Hr). by exists t, m', text. }
  exists w', ms, S'. split; [exact E|]. split_and!; [done..|].
  destruct (due_ids ZLease (score_ms (tk_now k)) S) as [|id ids] eqn:Eids; [right|left].
  2:{ by apply (recovers_step k q (take 100 (id :: ids))). }
  split.
  - destruct S as [tasks sq], S' as [tasks' sq']. cbn in *. subst sq'. f_equal. apply map_eq. intros id. apply Hout, not_elem_of_nil.
  - intros id t Ht a l Ha. apply Z.nle_gt. intros Hle.
    assert (id ∈ due_ids ZLease (score_ms (tk_now k)) S) as Hid.
    { apply due_ids_iff; [done|]. exists t, l. unfold zpart. by rewrite Ha. }
    rewrite Eids in Hid. by apply elem_of_nil in Hid.
Qed.

(** ** Events make progress *)

Record served (Sq : string → aqueue) (s : Server world) : Prop := {
  sv_net : w_net (srv_store s) = [];
  sv_impl : AllImpl Sq (keyspace (w_db (srv_store s)));
  sv_decodable : ∀ q, decodable (Sq q);
  sv_healthy : ∀ q, q ∈ queues → healthy q (Sq q)
}.

Definition total (Sq : string → aqueue) : nat := sum_list_with (λ q, queue_work (Sq q)) queues.

Lemma sum_mono {A} (f g : A → nat) (l : list A) :
  (∀ x, x ∈ l → f x ≤ g x)%nat → (sum_list_with f l ≤ sum_list_with g l)%nat.
Proof.
  induction l as [|x l IH]; intros Hl; [done|]. cbn. specialize (Hl x ltac:(left)) as Hx.
  assert (sum_list_with f l ≤ sum_list_with g l)%nat by (apply IH; intros; apply Hl; by right). lia.
Qed.

Lemma sum_less {A} (f g : A → nat) (l : list A) y :
  y ∈ l → (f y < g y)%nat → (∀ x, x ∈ l → f x ≤ g x)%nat → (sum_list_with f l < sum_list_with g l)%nat.
Proof.
  intros [l1 [l2 ->]]%list_elem_of_split Hy Hl. rewrite !sum_list_with_app. cbn.
  assert (sum_list_with f l1 ≤ sum_list_with g l1)%nat by (apply sum_mono; intros; apply Hl; set_solver).
  assert (sum_list_with f l2 ≤ sum_list_with g l2)%nat by (apply sum_mono; intros; apply Hl; set_solver). lia.
Qed.

(** What an event leaves: it did some of the work left, or it found nothing to do. *)
Record leaves (e : event) (Sq : string → aqueue) (s : Server world) (Sq' : string → aqueue) (s' : Server world) : Prop := {
  lv_served : served Sq' s';
  lv_errors : srv_errors s' = srv_errors s;
  lv_dom : ∀ q, dom (aq_tasks (Sq' q)) = dom (aq_tasks (Sq q));
  lv_times : ∀ D Le q, times D Le (Sq q) → (∀ d, sets_due e d → D d) → (∀ l, sets_lease e l → Le l) → times D Le (Sq' q);
  lv_work : (total Sq' < total Sq)%nat ∨
    ∀ q, q ∈ queues → aq_tasks (Sq' q) = aq_tasks (Sq q) ∧ idle e (Sq q)
}.

Lemma after_move_moved now Sq q :
  after_move now queues Sq q = Sq q ∨ moved (score_ms now) (Sq q) (after_move now queues Sq q).
Proof. unfold after_move. case_decide; [right; apply s_move_both_moved|by left]. Qed.

Record move_keeps (q : string) (S S1 : aqueue) : Prop := {
  mk_healthy : healthy q S → healthy q S1;
  mk_decodable : decodable S → decodable S1;
  mk_dom : dom (aq_tasks S1) = dom (aq_tasks S);
  mk_work : queue_work S1 = queue_work S;
  mk_times : ∀ D Le, times D Le S → times D Le S1
}.

Lemma after_move_keeps now Sq q : move_keeps q (Sq q) (after_move now queues Sq q).
Proof.
  destruct (after_move_moved now Sq q) as [->|Hm]; [done|].
  split; [by apply healthy_moved with (score_ms now)| | |by eapply moved_work|by intros D Le; eapply times_moved].
  - unfold after_move. case_decide; [apply decodable_move|done].
  - apply set_eq. intros id. rewrite !elem_of_dom. destruct (proj2 Hm id) as [->|(t & -> & _ & ->)]; done.
Qed.

(** A turn that hands out nothing finds nothing. *)
Lemma wait_leaves e r s w' Sq :
  e = Turn r ∨ e = Crash r → served Sq s → w_net w' = [] →
  let Sq1 := after_move (tn_now r) queues Sq in
  AllImpl Sq1 (keyspace (w_db w')) → (∀ q, q ∈ queues → none_pending (Sq1 q)) →
  leaves e Sq s Sq1 (mkServer w' (srv_metrics s) (srv_errors s) (srv_active s)).
Proof.
  intros He [_ _ Hdec Hhe] Hn Sq1 HA Hno. pose proof (after_move_keeps (tn_now r) Sq) as Hk. fold Sq1 in Hk.
  split; [|done|intros q; by apply (Hk q)|intros D Le q HP _ _; by apply (Hk q)|right].
  - split; [done|done|intros q; by apply (Hk q)|intros q Hq; by apply (Hk q), Hhe].
  - intros q Hq. specialize (Hno q Hq). unfold Sq1, after_move in *. rewrite decide_True in Hno |- * by done. split.
    + eapply moved_nothing; [apply s_move_both_moved|done].
    + intros id t Ht. assert (at_status t ≠ APending ∧ is_due (score_ms (tn_now r)) t = false) as Hi; [|by destruct He; subst].
      pose proof (s_move_both_pending (score_ms (tn_now r)) 100 (Sq q) id t ltac:(lia) Ht) as Hs.
      destruct (is_due (score_ms (tn_now r)) t); [destruct Hs; auto|]. split; [|done]. intros Hp. apply Hs; auto.
Qed.

(** One queue makes a step after the move. *)
Lemma step_leaves e now s Sq q S2 s' :
  served Sq s → q ∈ queues → let Sq1 := after_move now queues Sq in
  queue_step e q (Sq1 q) S2 → w_net (srv_store s') = [] → srv_errors s' = srv_errors s →
  AllImpl (upd_queue q S2 Sq1) (keyspace (w_db (srv_store s'))) → leaves e Sq s (upd_queue q S2 Sq1) s'.
Proof.
  intros [_ _ Hdec Hhe] Hq Sq1 [Hh Hd Hw Ht] Hn He HA. pose proof (after_move_keeps now Sq) as Hk. fold Sq1 in Hk.
  assert (∀ q', upd_queue q S2 Sq1 q' = if decide (q = q') then S2 else Sq1 q') as Hupd by done.
  split; [split| | | |].
  - done.
  - done.
  - intros q'. rewrite Hupd. case_decide; [by eapply healthy_decodable|by apply (Hk q')].
  - intros q' Hq'. rewrite Hupd. case_decide; subst; [done|by apply (Hk q'), Hhe].
  - done.
  - intros q'. rewrite Hupd. case_decide; subst; [rewrite Hd|]; by apply (Hk _).
  - intros D Le q' HD Hdue Hle. rewrite Hupd. case_decide; subst; [apply Ht; [by apply (Hk _)|done|done]|by apply (Hk _)].
  - left. apply sum_less with q; [done|..].
    + rewrite Hupd, decide_True by done. by rewrite <-(mk_work _ _ _ (Hk q)).
    + intros q' _. rewrite Hupd. pose proof (mk_work _ _ _ (Hk q')) as Hq'. case_decide; subst; lia.
Qed.

(** A turn, with or without its worker. *)
Lemma turn_leaves e r l s Sq :
  e = Turn r ∨ e = Crash r → grants → safe_messages → event_ok e → NoDup queues → Forall plain_queue queues → served Sq s →
  ∃ l' s' Sq', serve_event (l, s) e = (l', s') ∧ leaves e Sq s Sq' s'.
Proof.
  intros He Hg Hsm Hto Hnd Hpl Hs. pose proof Hs as [Hn HA Hdec Hhe].
  assert (claim_ok r) as Hcl by (by destruct He; subst e; apply Hto).
  destruct (dispatch_quiet leaseDuration c queues (tn_now r) (tn_claim r) l s Sq Hnd Hpl) as (l' & w' & errs & next & E & Hn' & Hnext); [|done..|].
  { intros q Hq. destruct (Hcl q Hq) as (bs & Hbs & _). by exists bs. }
  assert (dispatch_iteration c queues (tn_now r) (tn_claim r) l s = (l', mkServer w' (srv_metrics s) errs (srv_active s), next)) as E' by exact E.
  destruct next as [d|msg].
  - destruct Hnext as [HA1 [(_ & -> & _ & Hno)|(bucket & res & Hb & Ha & Hres)]].
    + eexists l', _, _. split; [|by apply (wait_leaves e r)]. destruct He; subst e; cbn [serve_event fst snd]; by rewrite E'.
    + exfalso. unfold grants in Hg. rewrite Hb in Hg. destruct (Hg l) as (l1 & res' & Ha' & Hal). rewrite Ha' in Ha.
      injection Ha as <- <-. destruct Hres as (_ & Hf & _). congruence.
  - destruct Hnext as (-> & (before & q & after & S' & Eq & _ & Hout & HA1) & _).
    assert (q ∈ queues) as Hq by (rewrite Eq; set_solver). set (Sq1 := after_move (tn_now r) queues Sq) in *.
    assert (healthy q (Sq1 q)) as Hh1 by (by apply after_move_keeps, Hhe).
    destruct He; subst e; cbn [serve_event fst snd]; rewrite E'.
    + assert (plain_queue q) as Hqp by (rewrite Forall_forall in Hpl; by apply Hpl).
      destruct (process_step r q (Sq1 q) msg S' (mkServer w' (srv_metrics s) (srv_errors s) (srv_active s)))
        as (w2 & ms & act & S2 & Hw & Hn2 & HI2 & Hst); [done|apply Hto|done..| |].
      { specialize (HA1 q Hqp). unfold upd_queue in HA1. by rewrite decide_True in HA1. }
      rewrite Hw. eexists l', _, _. split; [done|]. eapply step_leaves; try done. cbn [srv_store].
      intros q' Hq'. pose proof (AllImpl_upd _ q S2 _ _ HA1 Hqp HI2 q' Hq') as HI. unfold upd_queue in *. by case_decide.
    + eexists l', _, _. split; [done|]. eapply step_leaves; try done. by eapply crash_step.
Qed.

(** A tick over some of the queues. *)
Lemma tick_queues k qs s Sq :
  safe_messages → tick_ok k → Forall plain_queue qs → NoDup qs → qs ⊆ queues → (∀ q, q ∈ queues → healthy q (Sq q)) →
  w_net (srv_store s) = [] → AllImpl Sq (keyspace (w_db (srv_store s))) →
  ∃ s' Sq', foldl (recover_queue c (tk_now k) (tk_random k) (tk_rd k)) s qs = s' ∧
    w_net (srv_store s') = [] ∧ srv_errors s' = srv_errors s ∧ AllImpl Sq' (keyspace (w_db (srv_store s'))) ∧
    (∀ q, q ∉ qs → Sq' q = Sq q) ∧
    (∀ q, q ∈ qs → queue_step (Tick k) q (Sq q) (Sq' q) ∨ Sq' q = Sq q ∧ idle (Tick k) (Sq q)).
Proof.
  intros Hsm Hk. revert s Sq. induction qs as [|q qs IH]; intros s Sq Hpl Hnd Hsub Hhe Hn HA.
  { exists s, Sq. split_and!; try done. by intros q ?%elem_of_nil. }
  apply Forall_cons in Hpl as [Hq Hpl]. apply NoDup_cons in Hnd as [Hnin Hnd].
  assert (q ∈ queues) as Hqq by set_solver.
  destruct (recover_step k q s (Sq q) _ Hsm Hk Hqq (Hhe q Hqq) (HA q Hq) Hn) as (w' & ms & S' & E & Hn' & HI & Hstep).
  cbn [foldl]. rewrite E.
  destruct (IH (mkServer w' ms (srv_errors s) (srv_active s)) (upd_queue q S' Sq)) as (s' & Sq' & E' & Hn2 & He & HA' & Hout & Hin); try done.
  - set_solver.
  - intros q' Hq'. unfold upd_queue. case_decide; subst; [|by apply Hhe]. destruct Hstep as [[]|[-> _]]; [done|by apply Hhe].
  - by eapply AllImpl_upd.
  - exists s', Sq'. split_and!; [exact E'|done|done|done|..].
    + intros q' Hq'. rewrite Hout by set_solver. unfold upd_queue. rewrite decide_False; [done|set_solver].
    + intros q' [->|Hq']%elem_of_cons.
      * rewrite Hout by done. unfold upd_queue. by rewrite decide_True.
      * specialize (Hin q' Hq'). unfold upd_queue in Hin. rewrite decide_False in Hin; [done|]. by intros ->.
Qed.

Lemma tick_leaves k l s Sq :
  safe_messages → tick_ok k → NoDup queues → Forall plain_queue queues → served Sq s →
  ∃ l' s' Sq', serve_event (l, s) (Tick k) = (l', s') ∧ leaves (Tick k) Sq s Sq' s'.
Proof.
  intros Hsm Hk Hnd Hpl [Hn HA Hdec Hhe].
  destruct (tick_queues k queues s Sq) as (s' & Sq' & E & Hn' & He & HA' & Hout & Hin); try done.
  assert (∀ q, queue_step (Tick k) q (Sq q) (Sq' q) ∨ Sq' q = Sq q) as Hall.
  { intros q. destruct (decide (q ∈ queues)) as [Hq|Hq]; [|right; auto]. destruct (Hin q Hq) as [|[]]; auto. }
  exists l, s', Sq'. split; [by rewrite <-E|]. split; [split| | | |]; try done.
  - intros q. destruct (Hall q) as [[]| ->]; [by eapply healthy_decodable|done].
  - intros q Hq. destruct (Hall q) as [[]| ->]; [done|by apply Hhe].
  - intros q. by destruct (Hall q) as [[]| ->].
  - intros D Le q HD Hdue Hle. destruct (Hall q) as [[]| ->]; auto.
  - destruct (decide (Exists (λ q, queue_work (Sq' q) < queue_work (Sq q))%nat queues)) as [Hex|Hno].
    + left. apply Exists_exists in Hex as (q & Hq & Hlt). apply sum_less with q; [done|done|].
      intros q' _. destruct (Hall q') as [[]| ->]; lia.
    + right. intros q Hq. destruct (Hin q Hq) as [[]|[-> Hi]]; [|done]. destruct Hno. apply Exists_exists. by exists q.
Qed.

Lemma event_leaves e l s Sq :
  grants → safe_messages → event_ok e → NoDup queues → Forall plain_queue queues → served Sq s →
  ∃ l' s' Sq', serve_event (l, s) e = (l', s') ∧ leaves e Sq s Sq' s'.
Proof.
  intros Hg Hsm He Hnd Hpl Hs. destruct e as [r|r|k]; [eapply turn_leaves; eauto..|by apply tick_leaves].
Qed.

(** ** Rounds *)

(** A round is a list of events among which are a turn of the dispatcher and a tick of the
    recovery loop. *)
Record round := mkRound { ro_events : list event; ro_turn : turn; ro_tick : tick }.

Definition round_ok (R : round) : Prop :=
  Forall event_ok (ro_events R) ∧ (Turn (ro_turn R) ∈ ro_events R ∨ Crash (ro_turn R) ∈ ro_events R) ∧
  Tick (ro_tick R) ∈ ro_events R.

(** The due times that the turn of a round comes after, and the leases that its tick does. *)
Definition late (R : round) : (Z → Prop) * (Z → Prop) :=
  (λ d, d ≤ score_ms (tn_now (ro_turn R)), λ l, l ≤ score_ms (tk_now (ro_tick R))).

(** The turn and the tick of every round come after the due times and leases that the events
    of earlier rounds may set. *)
Definition patient (Rs : list round) : Prop :=
  StronglySorted (λ R R', ∀ e, e ∈ ro_events R → (∀ d, sets_due e d → (late R').1 d) ∧ (∀ l, sets_lease e l → (late R').2 l)) Rs.

Lemma idle_same e S S' : aq_tasks S' = aq_tasks S → idle e S' → idle e S.
Proof. unfold idle. by intros ->. Qed.

(** The events of a round: some of the work is done, or all of them find nothing to do in the
    queues the round started with. *)
Lemma events_progress es l s Sq :
  grants → safe_messages → NoDup queues → Forall plain_queue queues → Forall event_ok es → served Sq s →
  ∃ l' s' Sq', serve (l, s) es = (l', s') ∧ served Sq' s' ∧ srv_errors s' = srv_errors s ∧
    (∀ q, dom (aq_tasks (Sq' q)) = dom (aq_tasks (Sq q))) ∧
    (∀ D Le q, times D Le (Sq q) → (∀ e d, e ∈ es → sets_due e d → D d) → (∀ e l, e ∈ es → sets_lease e l → Le l) →
      times D Le (Sq' q)) ∧
    ((total Sq' < total Sq)%nat ∨
     ∀ q, q ∈ queues → aq_tasks (Sq' q) = aq_tasks (Sq q) ∧ ∀ e, e ∈ es → idle e (Sq q)).
Proof.
  intros Hg Hsm Hnd Hpl. revert l s Sq. induction es as [|e es IH]; intros l s Sq Hok Hs.
  { exists l, s, Sq. split_and!; try done. right. intros q Hq. split; [done|]. by intros e ?%elem_of_nil. }
  apply Forall_cons in Hok as [He Hok].
  destruct (event_leaves e l s Sq Hg Hsm He Hnd Hpl Hs) as (l1 & s1 & Sq1 & E1 & [Hs1 He1 Hd1 Ht1 Hw1]).
  destruct (IH l1 s1 Sq1 Hok Hs1) as (l' & s' & Sq' & E' & Hs' & He' & Hd' & Ht' & Hw').
  exists l', s', Sq'. cbn [serve foldl]. rewrite E1. split_and!; [exact E'|done|congruence|intros q; congruence|..].
  - intros D Le q HT HD HL. apply Ht'; [apply Ht1; [done|..]|..]; intros; [eapply HD|eapply HL|eapply HD|eapply HL]; try done;
      by (left || right).
  - assert (∀ Sa Sb, (∀ q, q ∈ queues → aq_tasks (Sa q) = aq_tasks (Sb q)) → total Sa = total Sb) as Htot.
    { intros Sa Sb Hsame. apply Nat.le_antisymm; apply sum_mono; intros q Hq; unfold queue_work; by rewrite (Hsame q Hq). }
    destruct Hw1 as [Hw1|Hw1], Hw' as [Hw'|Hw']; [left; lia|..].
    + left. rewrite (Htot Sq' Sq1); [done|]. intros q Hq. by apply Hw'.
    + left. rewrite <-(Htot Sq1 Sq); [done|]. intros q Hq. by apply Hw1.
    + right. intros q Hq. destruct (Hw1 q Hq) as [E Hi], (Hw' q Hq) as [E2 Hi2]. split; [congruence|].
      intros e' [->|Hin]%elem_of_cons; [done|]. eapply idle_same; [exact E|by apply Hi2].
Qed.

Lemma round_progress R l s Sq :
  grants → safe_messages → NoDup queues → Forall plain_queue queues → round_ok R → served Sq s →
  (∀ q, q ∈ queues → times (late R).1 (late R).2 (Sq q)) →
  ∃ l' s' Sq', serve (l, s) (ro_events R) = (l', s') ∧ served Sq' s' ∧ srv_errors s' = srv_errors s ∧
    (∀ q, dom (aq_tasks (Sq' q)) = dom (aq_tasks (Sq q))) ∧
    (∀ D Le q, times D Le (Sq q) → (∀ e d, e ∈ ro_events R → sets_due e d → D d) →
      (∀ e l, e ∈ ro_events R → sets_lease e l → Le l) → times D Le (Sq' q)) ∧
    (total Sq' ≤ pred (total Sq))%nat.
Proof.
  intros Hg Hsm Hnd Hpl (Hok & Hturn & Htick) Hs Ht.
  destruct (events_progress (ro_events R) l s Sq Hg Hsm Hnd Hpl Hok Hs) as (l' & s' & Sq' & E & Hs' & He & Hd & Ht' & Hw).
  exists l', s', Sq'. split_and!; try done. destruct Hw as [Hw|Hw]; [lia|].
  assert (total Sq' ≤ 0)%nat; [|lia]. unfold total. etrans; [apply (sum_mono _ (λ _, 0%nat))|by clear; induction queues].
  intros q Hq. destruct (Hw q Hq) as [Es Hi]. unfold queue_work. rewrite Es.
  assert (queue_work (Sq q) = 0%nat) as Hz; [|unfold queue_work in Hz; lia].
  eapply (idle_finished q (ro_turn R) (ro_tick R)); [by apply Hs|by apply Ht| |by apply Hi].
  destruct Hturn as [Hi'|Hi']; apply Hi in Hi'; exact Hi'.
Qed.

Lemma rounds_progress Rs l s Sq :
  grants → safe_messages → NoDup queues → Forall plain_queue queues → served Sq s →
  Forall round_ok Rs → patient Rs → (∀ q R, q ∈ queues → R ∈ Rs → times (late R).1 (late R).2 (Sq q)) →
  ∃ l' s' Sq', serve (l, s) (Rs ≫= ro_events) = (l', s') ∧ served Sq' s' ∧ srv_errors s' = srv_errors s ∧
    (∀ q, dom (aq_tasks (Sq' q)) = dom (aq_tasks (Sq q))) ∧ (total Sq' ≤ total Sq - length Rs)%nat.
Proof.
  intros Hg Hsm Hnd Hpl. revert l s Sq. induction Rs as [|R Rs IH]; intros l s Sq Hs Hok Hp Hdue.
  { exists l, s, Sq. cbn. split_and!; try done. lia. }
  apply Forall_cons in Hok as [Hr Hok]. apply StronglySorted_inv in Hp as [Hp Hfirst]. rewrite Forall_forall in Hfirst.
  destruct (round_progress R l s Sq Hg Hsm Hnd Hpl Hr Hs) as (l1 & s1 & Sq1 & E & Hs1 & He1 & Hd1 & Ht1 & Hw1).
  { intros q Hq. apply Hdue; [done|left]. }
  destruct (IH l1 s1 Sq1 Hs1 Hok Hp) as (l' & s' & Sq' & E' & Hs' & He' & Hd' & Ht').
  { intros q R' Hq HR'. apply Ht1; [apply Hdue; [done|by right]|..]; intros e x Hin Hx; by apply (Hfirst R' HR' e). }
  exists l', s', Sq'. cbn [mbind list_bind]. unfold serve in *. rewrite foldl_app, E.
  split_and!; [exact E'|done|congruence|intros q; congruence|]. cbn. lia.
Qed.

(** C6: A served queue drains. A server serves its queues, with no fault of the network. Its
    turns, each with a worker that runs the task it claimed or dies with it, and the ticks of
    its recovery loop come in any order; some attempts may have been left active by servers
    that died before. If turns and ticks keep coming round, each time after the due times and
    leases set so far, then after as many rounds as there is work left (two for each attempt
    a task can still use) every task of the queues is completed or archived, none was lost and
    none added, and no error was reported; however the handler answers, and in whatever order
    priorities make the tasks run. The limiter, if there is one, grants every turn ([grants]);
    the handler keeps the identity and the counters of its message and, as the clock does, leaves
    envelopes that can be encoded ([handler_ok], [tick_ok]); and random bytes can be drawn. *)
Theorem queue_drains Rs l s Sq :
  grants → safe_messages → NoDup queues → Forall plain_queue queues → served Sq s →
  Forall round_ok Rs → patient Rs → (∀ q R, q ∈ queues → R ∈ Rs → times (late R).1 (late R).2 (Sq q)) →
  (total Sq ≤ length Rs)%nat →
  ∃ l' s' Sq', serve (l, s) (Rs ≫= ro_events) = (l', s') ∧ AllImpl Sq' (keyspace (w_db (srv_store s'))) ∧
    srv_errors s' = srv_errors s ∧
    ∀ q, q ∈ queues → dom (aq_tasks (Sq' q)) = dom (aq_tasks (Sq q)) ∧
      ∀ id t, aq_tasks (Sq' q) !! id = Some t → finished (at_status t) = true.
Proof.
  intros Hg Hsm Hnd Hpl Hs Hok Hp Hdue Hlen.
  destruct (rounds_progress Rs l s Sq Hg Hsm Hnd Hpl Hs Hok Hp Hdue) as (l' & s' & Sq' & E & Hs' & He & Hdom & Ht).
  exists l', s', Sq'. split_and!; [done|apply Hs'|done|]. intros q Hq. split; [done|]. intros id t Hid.
  assert (queue_work (Sq' q) = 0%nat) as Hz.
  { pose proof (sum_list_with_in q (λ q, queue_work (Sq' q)) queues Hq) as Hle. cbn in Hle. unfold total in *. lia. }
  destruct (he_task _ _ (sv_healthy _ _ Hs' q Hq) id t Hid) as (m & Hm%so_msg).
  pose proof (map_sum_zero _ id (work_left t) Hz) as Ha. rewrite lookup_fmap, Hid in Ha. specialize (Ha eq_refl).
  unfold work_left in Ha. rewrite Hm in Ha. by destruct (at_status t).
Qed.
End drain.

(** ** The messages JSON carries *)

Lemma hex_plain bs : plain (hex_EncodeToString bs) = true.
Proof.
  assert (∀ n s, (n < 16)%N → plain (String (hex_char n) s) = plain s) as Hc.
  { intros n s Hn. change (String (hex_char n) s) with (String (hex_char n) "" +:+ s). rewrite plain_app.
    assert (plain (String (hex_char n) "") = true) as ->; [|done].
    assert (forallb (λ n, plain (String (hex_char n) "")) (N.of_nat <$> seq 0 16) = true) as Hf by (vm_compute; reflexivity).
    rewrite forallb_forall in Hf. apply Hf, list_elem_of_In, list_elem_of_fmap. exists (N.to_nat n).
    split; [lia|]. apply elem_of_seq. lia. }
  induction bs as [|b bs IH]; [done|]. cbn [hex_EncodeToString]. pose proof (Byte.to_N_bounded b).
  rewrite !Hc; [done|apply N.mod_lt; lia|apply N.Div0.div_lt_upper_bound; lia].
Qed.

Lemma message_safe_iff m :
  message_safe m = true ↔
    (utf8_valid (ID m) = true ∧ utf8_valid (TaskType m) = true ∧ utf8_valid (Queue m) = true ∧ utf8_valid (State m) = true ∧
     utf8_valid (AttemptID m) = true ∧ utf8_valid (LastError m) = true) ∧
    (int64 (Priority m) ∧ int64 (MaxRetry m) ∧ int64 (Model.RetryCount m) ∧ int64 (Timeout m)) ∧
    (formats (Deadline m) = true ∧ formats (RunAt m) = true ∧ formats (LastFailedAt m) = true ∧
     formats (CompletedAt m) = true ∧ formats (CreatedAt m) = true).
Proof.
  unfold message_safe, message_times, int64b. cbn [forallb]. rewrite !andb_true_iff, !bool_decide_eq_true. tauto.
Qed.

Definition json_messages (m : TaskMessage) : Prop := message_safe m = true.

Lemma json_safe_messages `{JsonErrors} : safe_messages json_messages.
Proof.
  split.
  - done.
  - intros m (_ & (_ & Hm & Hr & _) & _)%message_safe_iff. done.
  - intros m bs Hm. apply message_safe_iff in Hm as ((? & ? & ? & ? & ? & ?) & Hi & Ht). apply message_safe_iff.
    destruct m. cbn in *. split_and!; try done; try apply Hi; try apply Ht. apply utf8_plain, hex_plain.
Qed.

(** Settling at times of four-digit years, with reasons that are UTF-8, keeps messages safe. *)
Lemma settled_json st m :
  json_messages m →
  match st with SAck now => formats now = true | SRequeue => True
  | SRetry now _ reason | SArchive now reason => formats now = true ∧ utf8_valid reason = true end →
  json_messages (settled st m) ∧ ∀ n, json_messages (settled st (set_RetryCount (wrap64 n) m)).
Proof.
  intros ((? & ? & ? & ? & ? & ?) & (? & ? & ? & ?) & (? & ? & ? & ? & ?))%message_safe_iff Hst.
  split; [|intros n]; apply message_safe_iff; destruct st, m; cbn in *; split_and!; first [done | apply Hst | apply wrap64_int64].
Qed.

Lemma json_handler_ok `{JsonErrors} {L} (c : Config L) handler r :
  formats (rd_now (pr_store (tn_process r))) = true →
  (∀ ctx m, (handler ctx m).1 = m ∧ ∀ e, (handler ctx m).2 = Some e → utf8_valid (error_text e) = true) →
  handler_ok c handler json_messages r.
Proof.
  intros Hnow Hh ctx m m' err Hm E. destruct (Hh ctx m) as [Hk He]. rewrite E in Hk, He.
  cbn [fst snd] in *. subst m'. do 5 (split; [done|]). unfold verdict. destruct err as [err|].
  - specialize (He err eq_refl). destruct (errors_Is err ErrNonRetryable || _)%bool; by apply settled_json.
  - by apply settled_json.
Qed.

Lemma json_tick_ok `{JsonErrors} {L} (c : Config L) k :
  (∀ q id, formats (rd_now (tk_rd k q id)) = true) → tick_ok c json_messages k.
Proof.
  intros Hnow q id m Hm. unfold recovery_verdict. destruct (MaxRetry m <=? Model.RetryCount m); by apply settled_json.
Qed.

(** ** Witness *)

(** Seven rounds two hours apart: in each a worker dies with the task it claimed, another runs
    what is left and fails, and the recovery loop ticks. *)
Definition drain_now (i : nat) : Time := Z.of_nat i * (2 * Hour) + 9 * Second.
Definition drain_turn (i : nat) : turn :=
  let now := drain_now i in
  mkTurn now (λ _, mkReadings now (inr [Byte.x0a]))
    (mkProcessReadings now now now now None (f64_of_int 0) (mkReadings now (inr []))).
Definition drain_tick (i : nat) : tick :=
  mkTick (drain_now i) (λ _ _, f64_of_int 0) (λ _ _, mkReadings (drain_now i) (inr [])).
Definition drain_round (i : nat) : round :=
  mkRound [Crash (drain_turn i); Turn (drain_turn i); Tick (drain_tick i)] (drain_turn i) (drain_tick i).
Definition drain_rounds : list round := drain_round <$> seq 0 7.

Lemma drain_delay i j d : (i < j < 7)%nat → 0 ≤ d ≤ Hour → score_ms (Add (drain_now i) d) ≤ score_ms (drain_now j).
Proof. intros Hij Hd. unfold Add, drain_now, Hour, Second in *. apply score_ms_mono; unfold timely; lia. Qed.

Lemma test_delay n : 0 ≤ retry_delay test_config (f64_of_int 0) n ≤ Hour.
Proof.
  unfold retry_delay. change (RetryJitter test_config) with (f64_of_int 0). rewrite no_jitter.
  destruct (ExponentialBackoff_spec n (RetryBaseDelay test_config) (RetryMaxDelay test_config)) as [_ Hb];
    [vm_compute; split; discriminate..|]. change (eff_max (RetryMaxDelay test_config)) with Hour in Hb. lia.
Qed.

Lemma drain_patient : patient Second test_config ["emails"] drain_rounds.
Proof.
  assert (∀ i j, (i < j < 7)%nat → ∀ e, e ∈ ro_events (drain_round i) →
    (∀ d, sets_due test_config ["emails"] e d → (late (drain_round j)).1 d) ∧
    (∀ l, sets_lease Second test_config ["emails"] e l → (late (drain_round j)).2 l)) as Hle.
  { intros i j Hij e He. cbn [late fst snd drain_round ro_turn ro_tick drain_turn drain_tick tn_now tk_now].
    repeat (apply elem_of_cons in He as [->|He]); [..|by apply elem_of_nil in He]; split; intros x; cbn.
    - done.
    - intros (q & _ & ->). apply drain_delay; [done|]. vm_compute. split; discriminate.
    - intros (n & ->). apply drain_delay; [done|apply test_delay].
    - done.
    - intros (q & id & n & _ & ->). apply drain_delay; [done|apply test_delay].
    - done. }
  unfold patient, drain_rounds. cbn [fmap list_fmap seq].
  repeat (apply SSorted_cons; [|repeat (apply Forall_cons; split); [apply Hle; lia..|constructor]]). apply SSorted_nil.
Qed.

Lemma drain_round_ok i : (i < 7)%nat → round_ok test_config failing ["emails"] json_messages (drain_round i).
Proof.
  intros Hi. assert (formats (drain_now i) = true) as Hf by (do 7 (destruct i as [|i]; [vm_compute; reflexivity|]); lia).
  split_and!; [|left; right; left|do 2 right; left].
  assert (claim_ok ["emails"] (drain_turn i)) as Hc by (intros q _; by exists [Byte.x0a]).
  repeat (apply Forall_cons; split); [exact Hc|split; [exact Hc|]|apply json_tick_ok; intros; exact Hf|constructor].
  apply json_handler_ok; [exact Hf|]. intros ctx m. split; [done|]. by intros e [= <-].
Qed.

Lemma leased_healthy : healthy json_messages "emails" (leased_queue "emails").
Proof.
  split; [vm_compute; discriminate|]. intros id t Ht. rewrite leased_tasks in Ht. apply lookup_singleton_Some in Ht as [<- <-].
  exists (sample "b" 0 Second). split; [vm_compute; reflexivity..|]. intros a l [= <- <-]. split; [done|]. vm_compute. reflexivity.
Qed.

Lemma leased_decodable q : decodable (leased_queue q).
Proof.
  destruct (decide (q = "emails")) as [->|Hne]; [apply (healthy_decodable json_messages "emails"), leased_healthy|].
  unfold leased_queue, mem_queue, requests_on, leased_history. rewrite !filter_cons_False by (cbn; congruence).
  rewrite filter_nil. split; [vm_compute; discriminate|]. intros id t Ht. discriminate Ht.
Qed.

Lemma leased_times R : R ∈ drain_rounds → times (late R).1 (late R).2 (leased_queue "emails").
Proof.
  intros (i & -> & Hi%elem_of_seq)%list_elem_of_fmap id t Ht. rewrite leased_tasks in Ht.
  apply lookup_singleton_Some in Ht as [<- <-]. change 6000 with (score_ms (6 * Second)).
  apply score_ms_mono; unfold timely, drain_round, drain_tick, drain_now, Second, Hour; cbn [tk_now ro_tick]; lia.
Qed.

Lemma queue_drains_witness :
  ∃ l' s' Sq', serve (H := RedisMem) Second test_config failing ["emails"] (tt, leased_server) (drain_rounds ≫= ro_events) = (l', s') ∧
    dom (aq_tasks (Sq' "emails")) = {["b"]} ∧
    ∀ id t, aq_tasks (Sq' "emails") !! id = Some t → finished (at_status t) = true.
Proof.
  destruct (queue_drains (H := RedisMem) Second test_config failing ["emails"] json_messages drain_rounds tt leased_server
    leased_queue) as (l' & s' & Sq' & E & _ & _ & Hq).
  - exact I.
  - apply json_safe_messages.
  - apply NoDup_singleton.
  - repeat constructor.
  - split; [reflexivity|intros q Hq; by apply leased_Impl| |].
    + apply leased_decodable.
    + intros q ->%list_elem_of_singleton. apply leased_healthy.
  - apply Forall_fmap, Forall_forall. intros i Hi%elem_of_seq. apply drain_round_ok. lia.
  - apply drain_patient.
  - intros q R ->%list_elem_of_singleton. apply leased_times.
  - vm_compute. repeat constructor.
  - exists l', s', Sq'. split; [exact E|]. destruct (Hq "emails" ltac:(left)) as [Hd Hf]. split; [|exact Hf].
    rewrite Hd. vm_compute. reflexivity.
Defined.
