(* ===== verification/Lifecycle.v ===== *)
(** * The life of a server ([server/server.go]: [Start], [Stop], [Shutdown], [worker], [dispatch])

    A server as a transition system: the dispatcher, the workers on the unbuffered jobs
    channel, the maintenance loops, and the calls of its owner, interleaved in any order.
    Each step runs the definitions of [Server]; what it reads is unconstrained. *)

From S2P Require Import Float.
From S2P Require Import Prelude GoLib Flags Model Storage Redis RedisMem Codec JsonCodec Store TaskStore.
From S2P Require Import Backoff HandlerMux Server.


Inductive serverState := stateNew | stateRunning | stateStopped.

#[export] Instance serverState_eq_dec : EqDecision serverState.
Proof. solve_decision. Defined.

(** Where the dispatcher is: at the top of its loop, in a turn, waiting, offering a claimed
    message on the jobs channel, or returned (with the channel closed). *)
Inductive dispatcher := DTop | DTurn | DWaiting (d : Duration) | DOffer (msg : TaskMessage) | DDone.

(** A worker waits on the channel, has received a message, processes it, or has returned. *)
Inductive worker := WIdle | WTaken (msg : TaskMessage) | WBusy (msg : TaskMessage) | WExited.

Section lifecycle.
Context {L W : Type} `{TaskStore W}.
Context (c : Config L) (queues : list string) (handler : Handler).

(** A message let go. *)
Record ending := mkEnding { e_msg : TaskMessage; e_before : Server W; e_after : Server W }.

(** [y_stop]: [stopCh] is closed; [y_ctx], [y_hctx]: the server's and the handlers'
    contexts are cancelled; [y_maintenance]: the maintenance goroutines still running;
    [y_dwake]: the channel [dispatchWake], of capacity one, is full.
    The last two fields record, for the statements, what was claimed, and for every message
    that no goroutine holds any more the server before and after the step that let it go. *)
Record sys := mkSys {
  y_state : serverState; y_stop : bool; y_ctx : bool; y_hctx : bool;
  y_disp : dispatcher; y_workers : list worker; y_maintenance : nat; y_dwake : bool;
  y_limiter : L; y_srv : Server W;
  y_claimed : list TaskMessage; y_ended : list ending
}.

Definition sys_new (l : L) (s : Server W) : sys :=
  mkSys stateNew false false false DDone [] 0 false l s [] [].

(** ** The calls of the owner *)

(** [Start]; [ready] says that the store and the handler are not nil. *)
Definition Start (ready : bool) (y : sys) : sys * option error :=
  match y_state y with
  | stateRunning => (y, Some ErrServerRunning)
  | stateStopped => (y, Some ErrServerClosed)
  | stateNew =>
      match validate c with
      | Some err => (y, Some err)
      | None =>
          if ready then
            (mkSys stateRunning false false false DTop (replicate (Z.to_nat (Concurrency c)) WIdle) 3 false
               (y_limiter y) (y_srv y) (y_claimed y) (y_ended y), None)
          else (y, Some (errors_New "server store and handler are required"))
      end
  end.

Definition requestStop (y : sys) : sys * bool :=
  if decide (y_state y = stateRunning) then
    (mkSys stateStopped true (y_ctx y) true (y_disp y) (y_workers y) (y_maintenance y) (y_dwake y)
       (y_limiter y) (y_srv y) (y_claimed y) (y_ended y), true)
  else (y, false).

(** [s.cancel()]. *)
Definition cancel (y : sys) : sys :=
  mkSys (y_state y) (y_stop y) true true (y_disp y) (y_workers y) (y_maintenance y) (y_dwake y)
    (y_limiter y) (y_srv y) (y_claimed y) (y_ended y).

Definition Stop (y : sys) : sys :=
  let '(y, stopped) := requestStop y in if stopped then cancel y else y.

(** [workDone] and [maintenanceDone] of [Shutdown] are closed. *)
Definition work_done (y : sys) : Prop := y_disp y = DDone ∧ Forall (λ w, w = WExited) (y_workers y).
Definition maintenance_done (y : sys) : Prop := y_maintenance y = 0%nat.

(** ** The steps *)

Definition with_disp (d : dispatcher) (y : sys) : sys :=
  mkSys (y_state y) (y_stop y) (y_ctx y) (y_hctx y) d (y_workers y) (y_maintenance y) (y_dwake y)
    (y_limiter y) (y_srv y) (y_claimed y) (y_ended y).
Definition with_worker (i : nat) (w : worker) (y : sys) : sys :=
  mkSys (y_state y) (y_stop y) (y_ctx y) (y_hctx y) (y_disp y) (<[i := w]> (y_workers y)) (y_maintenance y) (y_dwake y)
    (y_limiter y) (y_srv y) (y_claimed y) (y_ended y).
Definition with_srv (s : Server W) (y : sys) : sys :=
  mkSys (y_state y) (y_stop y) (y_ctx y) (y_hctx y) (y_disp y) (y_workers y) (y_maintenance y) (y_dwake y)
    (y_limiter y) s (y_claimed y) (y_ended y).
Definition with_maintenance (n : nat) (y : sys) : sys :=
  mkSys (y_state y) (y_stop y) (y_ctx y) (y_hctx y) (y_disp y) (y_workers y) n (y_dwake y)
    (y_limiter y) (y_srv y) (y_claimed y) (y_ended y).
Definition with_limiter (l : L) (y : sys) : sys :=
  mkSys (y_state y) (y_stop y) (y_ctx y) (y_hctx y) (y_disp y) (y_workers y) (y_maintenance y) (y_dwake y)
    l (y_srv y) (y_claimed y) (y_ended y).
Definition log_claimed (m : TaskMessage) (y : sys) : sys :=
  mkSys (y_state y) (y_stop y) (y_ctx y) (y_hctx y) (y_disp y) (y_workers y) (y_maintenance y) (y_dwake y)
    (y_limiter y) (y_srv y) (m :: y_claimed y) (y_ended y).
Definition log_ended (m : TaskMessage) (s s' : Server W) (y : sys) : sys :=
  mkSys (y_state y) (y_stop y) (y_ctx y) (y_hctx y) (y_disp y) (y_workers y) (y_maintenance y) (y_dwake y)
    (y_limiter y) (y_srv y) (y_claimed y) (mkEnding m s s' :: y_ended y).

(** [wakeDispatcher], and the receive from [dispatchWake]. *)
Definition set_dwake (b : bool) (y : sys) : sys :=
  mkSys (y_state y) (y_stop y) (y_ctx y) (y_hctx y) (y_disp y) (y_workers y) (y_maintenance y) b
    (y_limiter y) (y_srv y) (y_claimed y) (y_ended y).
Definition wakeDispatcher (y : sys) : sys := set_dwake true y.

(** The time [waitOrStop] waits for. *)
Definition wait_duration (d : Duration) : Duration := if d <=? 0 then Millisecond else d.

(** The requeue of a message that no worker takes any more. When [Stop] has cancelled the
    context, the call may be one the store does not deliver: an error is reported and the
    task stays with its lease. *)
Definition requeue_call (msg : TaskMessage) (s : Server W) : Server W :=
  match ts_Requeue msg (srv_store s) with
  | (w, inl err) => reportError err (with_store w s)
  | (w, inr _) => with_store w s
  end.

(** The owner starts the server, requests the stop, cancels the context after it. *)
Inductive owner_step : sys → sys → Prop :=
| step_start y y' : Start true y = (y', None) → owner_step y y'
| step_request_stop y y' : requestStop y = (y', true) → owner_step y y'
| step_cancel y : y_state y = stateStopped → owner_step y (cancel y).

(** The dispatcher, the workers, and the return of a maintenance goroutine. *)
Inductive work_step : sys → sys → Prop :=
| step_check_stop y : y_disp y = DTop → y_stop y = true → work_step y (with_disp DDone y)
| step_check_go y : y_disp y = DTop → y_stop y = false → work_step y (with_disp DTurn y)
| step_turn_wait y now rd l s d :
    y_disp y = DTurn → dispatch_iteration c queues now rd (y_limiter y) (y_srv y) = (l, s, DispatchWait d) →
    work_step y (with_disp (DWaiting (wait_duration d)) (with_limiter l (with_srv s y)))
| step_turn_claim y now rd l s msg :
    y_disp y = DTurn → dispatch_iteration c queues now rd (y_limiter y) (y_srv y) = (l, s, DispatchJob msg) →
    work_step y (with_disp (DOffer msg) (log_claimed msg (with_limiter l (with_srv s y))))
| step_wake y d :
    y_disp y = DWaiting d → y_dwake y = true → work_step y (with_disp DTop (set_dwake false y))
| step_wait_stop y d : y_disp y = DWaiting d → y_stop y = true → work_step y (with_disp DDone y)
| step_hand_over y i msg :
    y_disp y = DOffer msg → y_workers y !! i = Some WIdle →
    work_step y (with_disp DTop (with_worker i (WTaken msg) y))
| step_offer_stop y msg :
    y_disp y = DOffer msg → y_stop y = true →
    let s := requeue_call msg (y_srv y) in
    work_step y (with_disp DDone (log_ended msg (y_srv y) s (with_srv s y)))
| step_track y i msg :
    y_workers y !! i = Some (WTaken msg) →
    work_step y (with_worker i (WBusy msg) (with_srv (trackActive msg (y_srv y)).1 y))
| step_process y i msg rd :
    y_workers y !! i = Some (WBusy msg) →
    let s := untrackActive (activeKey msg) (process c handler rd msg (y_srv y)) in
    work_step y (with_worker i WIdle (log_ended msg (y_srv y) s (with_srv s y)))
| step_worker_exit y i :
    y_workers y !! i = Some WIdle → y_disp y = DDone → y_state y ≠ stateNew →
    work_step y (with_worker i WExited y)
| step_maintenance_exit y :
    (0 < y_maintenance y)%nat → y_ctx y = true → work_step y (with_maintenance (pred (y_maintenance y)) y).

(** The callbacks of the timer and the ticks of the maintenance loops, while a maintenance
    goroutine runs. A heartbeat works on the keys it collected when it held the lock, which
    may be out of date by the time of the step, so they are not constrained. *)
Inductive tick_step : sys → sys → Prop :=
| step_timer y : (0 < y_maintenance y)%nat → tick_step y (wakeDispatcher y)
| step_heartbeat y now keys qs :
    (0 < y_maintenance y)%nat → tick_step y (with_srv (heartbeat_tick c now keys qs (y_srv y)) y)
| step_recovery y now random rd :
    (0 < y_maintenance y)%nat → tick_step y (with_srv (recovery_tick c queues now random rd (y_srv y)) y).

Definition sys_step (y y' : sys) : Prop := owner_step y y' ∨ work_step y y' ∨ tick_step y y'.

(** ** What was reported stays reported *)

Definition reports (s s' : Server W) : Prop := ∃ es, srv_errors s' = (λ l, l ++ es) <$> srv_errors s.

#[local] Instance reports_refl : Reflexive reports.
Proof. intros s. exists []. destruct (srv_errors s); cbn; by rewrite ?app_nil_r. Qed.
#[local] Instance reports_trans : Transitive reports.
Proof.
  intros s1 s2 s3 [e1 H1] [e2 H2]. exists (e1 ++ e2). rewrite H2, H1. destruct (srv_errors s1); cbn; by rewrite ?app_assoc.
Qed.

Lemma reports_same (s s' : Server W) : srv_errors s' = srv_errors s → reports s s'.
Proof. intros E. unfold reports. rewrite E. apply reports_refl. Qed.
Lemma reports_error err (s s' : Server W) : srv_errors s' = srv_errors s → reports s (reportError err s').
Proof. intros E. exists [err]. cbn. by rewrite E. Qed.
Lemma reports_foldl {A} (f : Server W → A → Server W) l s : (∀ s x, reports s (f s x)) → reports s (foldl f s l).
Proof. intros Hf. revert s. induction l as [|x l IH]; intros s; cbn; [done|]. etrans; [apply Hf|apply IH]. Qed.
#[local] Hint Resolve reports_same reports_error : core.

Lemma settle_call_reports {A} (call : W → W * result A) count s : reports s (settle_call call count s).
Proof. unfold settle_call. destruct (call _) as [w [e|a]]; auto. Qed.

Lemma process_reports rd msg s : reports s (process c handler rd msg s).
Proof.
  unfold process. destruct (handler _ msg) as [m [e|]]; [case_match|]; (etrans; [|apply reports_same; reflexivity]);
    [etrans; [apply (reports_same s (record RecordFailed s)); reflexivity|apply settle_call_reports]..|apply settle_call_reports].
Qed.

Lemma requeue_call_reports msg s : reports s (requeue_call msg s).
Proof. unfold requeue_call. repeat case_match; auto. Qed.

Lemma recovery_reports now random rd s : reports s (recovery_tick c queues now random rd s).
Proof.
  apply reports_foldl. intros s1 q. unfold recover_queue. destruct (ts_ExpiredIDs _ _ _ _) as [w [e|ids]]; [auto|].
  etrans; [|apply reports_foldl]; [by apply reports_same|]. intros s2 id. unfold recover_id. destruct (ts_Get _ _ _) as [w2 [e|m]]; [auto|].
  repeat case_match; [by apply reports_same| |]; (etrans; [by apply (reports_same s2 (with_store w2 s2))|apply settle_call_reports]).
Qed.

Lemma heartbeat_reports now keys qs s : reports s (heartbeat_tick c now keys qs s).
Proof. apply reports_foldl. intros s1 q. destruct (ts_ExtendLease _ _ _ _ _) as [w [e|a]]; auto. Qed.

Lemma has_pending_reports qs s : reports s (has_pending qs s).1.
Proof.
  revert s. induction qs as [|q qs IH]; intros s; cbn; [done|]. destruct (ts_PendingCount _ _) as [w [e|n]]; [etrans; [|apply IH]; auto|].
  case_match; [by apply reports_same|]. etrans; [|apply IH]. by apply reports_same.
Qed.

Lemma claim_first_reports rd qs s : reports s (claim_first_of c rd qs s).1.
Proof.
  revert s. induction qs as [|q qs IH]; intros s; cbn; [done|]. destruct (ts_Claim _ _ _ _ _) as [w [e|m]]; [|by apply reports_same].
  case_match; (etrans; [|apply IH]); auto.
Qed.

Lemma dispatch_reports now rd l s l' s' n : dispatch_iteration c queues now rd l s = (l', s', n) → reports s s'.
Proof.
  unfold dispatch_iteration. destruct (ts_MoveReady _ _ _ _) as [w [_ [e|]]]; [intros [= _ <- _]; auto|].
  pose proof (has_pending_reports queues (with_store w s)) as H1. destruct (has_pending queues _) as [s1 b]. cbn in H1.
  assert (reports s s1) as H2 by (etrans; [|exact H1]; by apply reports_same).
  assert (∀ l1, (let '(s2, m) := claim_first_of c rd queues s1 in (l1, s2, match m with Some m => DispatchJob m | None => DispatchWait (PollInterval c) end))
    = (l', s', n) → reports s s') as Hclaim.
  { intros l1. pose proof (claim_first_reports rd queues s1) as H3. destruct (claim_first_of c rd queues s1) as [s2 m].
    intros [= _ <- _]. by etrans. }
  destruct b; cbn [negb]; [|by intros [= _ <- _]]. destruct (TokenBucket c) as [bucket|].
  - destruct (l_Acquire _ _ _) as [l1 [e|r]]; [intros [= _ <- _]; etrans; [exact H2|]; auto|].
    destruct (Allowed r); cbn [negb]; [|by intros [= _ <- _]]. intros E. apply (Hclaim l1). revert E. destruct (claim_first_of _ _ _ _) as [s2 [m|]]; done.
  - intros E. apply (Hclaim l). revert E. destruct (claim_first_of _ _ _ _) as [s2 [m|]]; done.
Qed.

Lemma sys_step_reports y y' : sys_step y y' → reports (y_srv y) (y_srv y').
Proof.
  intros [Hs|[Hs|Hs]]; destruct Hs; unfold Start, requestStop in *; cbn; repeat case_match; simplify_eq; try done;
    eauto using dispatch_reports, heartbeat_reports, recovery_reports, requeue_call_reports.
  - etrans; [apply process_reports|]. by apply reports_same.
Qed.

(** ** Invariant *)

(** The messages a goroutine holds. *)
Definition disp_holds (d : dispatcher) : list TaskMessage :=
  match d with DOffer msg => [msg] | _ => [] end.
Definition worker_holds (w : worker) : list TaskMessage :=
  match w with WTaken msg | WBusy msg => [msg] | _ => [] end.
Definition held (y : sys) : list TaskMessage := disp_holds (y_disp y) ++ (y_workers y ≫= worker_holds).

Record sys_inv (y : sys) : Prop := {
  si_conserved : y_claimed y ≡ₚ held y ++ (e_msg <$> y_ended y);
  si_workers : y_state y ≠ stateNew → length (y_workers y) = Z.to_nat (Concurrency c);
  si_new : y_state y = stateNew → y_disp y = DDone ∧ y_workers y = [] ∧ y_maintenance y = 0%nat;
  si_stop : y_stop y = true ↔ y_state y = stateStopped;
  si_exited : ∀ i, y_workers y !! i = Some WExited → y_disp y = DDone;
  si_done : y_state y ≠ stateNew → y_disp y = DDone → y_stop y = true;
  si_maintenance : (y_maintenance y ≤ 3)%nat
}.

Lemma workers_holds_insert (ws : list worker) i w w' :
  ws !! i = Some w →
  worker_holds w ++ (<[i := w']> ws ≫= worker_holds) ≡ₚ worker_holds w' ++ (ws ≫= worker_holds).
Proof.
  revert i. induction ws as [|x ws IH]; intros [|i] Hi; try done; cbn in *.
  - injection Hi as ->. solve_Permutation.
  - specialize (IH i Hi). rewrite !(Permutation_app_swap_app _ (worker_holds x)). by rewrite IH.
Qed.

Lemma idle_holds n : replicate n WIdle ≫= worker_holds = [].
Proof. by induction n. Qed.

Lemma sys_inv_new l s : sys_inv (sys_new l s).
Proof. constructor; cbn; done || lia. Qed.

(** A step of the dispatcher alone. *)
Ltac disp_case :=
  constructor; unfold held; cbn in *; try done;
  first
    [ match goal with Hc : _ ≡ₚ _ |- _ => rewrite Hc end;
      match goal with E : y_disp _ = _ |- _ => rewrite ?E end; cbn; solve_Permutation
    | let E := fresh in intros E;
      match goal with Hn : y_state _ = stateNew → _ |- _ => destruct (Hn E) as (? & ? & ?) end; congruence
    | intros j Hj;
      match goal with He : ∀ i, _ → y_disp _ = DDone |- _ => specialize (He j Hj) end; congruence ].

Lemma exited_insert (ws : list worker) (P : Prop) i w w' j :
  (∀ k, ws !! k = Some WExited → P) → ws !! i = Some w → (w' = WExited → P) → <[i := w']> ws !! j = Some WExited → P.
Proof.
  intros He Hi Hw' Hj. destruct (decide (i = j)) as [->|Hne].
  - rewrite list_lookup_insert_eq in Hj by (by eapply lookup_lt_Some). naive_solver.
  - rewrite list_lookup_insert_ne in Hj by done. eauto.
Qed.

(** A step of a worker, which becomes [w']; what the goroutines hold is left to prove. *)
Ltac worker_case w' :=
  let Hp := fresh "Hp" in
  match goal with E : y_workers _ !! _ = Some _ |- _ => pose proof (workers_holds_insert _ _ _ w' E) as Hp end;
  constructor; unfold held; cbn in *; rewrite ?length_insert; try done;
  first
    [ match goal with Hc : y_claimed _ ≡ₚ _ |- _ => rewrite Hc end
    | let E := fresh in intros E;
      match goal with Hn : y_state _ = stateNew → _ |- _ => destruct (Hn E) as (? & ? & ?) end;
      match goal with Hnil : y_workers _ = [] |- _ => rewrite Hnil in * end; done
    | intros j Hj;
      match goal with He : ∀ i, _ → y_disp _ = DDone, E : y_workers _ !! _ = Some _ |- _ =>
        refine (_ (exited_insert _ _ _ _ _ _ He E _ Hj)); [congruence|done] end ].

Lemma sys_inv_owner y y' : sys_inv y → owner_step y y' → sys_inv y'.
Proof.
  intros [Hc Hw Hn Hs He Hd Hm] Hstep. unfold held in Hc. destruct Hstep.
  - unfold Start in *. destruct (y_state y) eqn:Est; try done. destruct (validate c); [done|].
    destruct (Hn eq_refl) as (Hdd & Hww & Hmm). simplify_eq. constructor; unfold held; cbn in *; try done; try lia.
    + rewrite Hc, Hdd, Hww, idle_holds. done.
    + intros _. apply length_replicate.
    + intros i [Hi _]%lookup_replicate. done.
  - unfold requestStop in *. case_decide as Est; [|done]. simplify_eq.
    constructor; unfold held; cbn; try done; try (intros; apply Hw; congruence).
  - constructor; unfold held; cbn; done.
Qed.

Lemma sys_inv_work y y' : sys_inv y → work_step y y' → sys_inv y'.
Proof.
  intros [Hc Hw Hn Hs He Hd Hm] Hstep. unfold held in Hc. destruct Hstep.
  1-6: disp_case.
  - (* hand over *)
    worker_case (WTaken msg). match goal with E : y_disp y = _ |- _ => rewrite E; cbn end. by rewrite Hp.
  - disp_case.
  - (* track *) worker_case (WBusy msg). apply (Permutation_cons_inv (a := msg)) in Hp. by rewrite Hp.
  - (* process *) worker_case WIdle. rewrite <-Hp. solve_Permutation.
  - (* a worker returns *) worker_case WExited. by rewrite Hp.
  - constructor; unfold held; cbn; try done; try lia. intros E. destruct (Hn E) as (? & ? & ?). lia.
Qed.

Lemma sys_inv_tick y y' : sys_inv y → tick_step y y' → sys_inv y'.
Proof. intros [Hc Hw Hn Hs He Hd Hm] Hstep. unfold held in Hc. destruct Hstep; constructor; unfold held; cbn; done. Qed.

Lemma sys_inv_step y y' : sys_inv y → sys_step y y' → sys_inv y'.
Proof. intros Hi [Hs|[Hs|Hs]]; eauto using sys_inv_owner, sys_inv_work, sys_inv_tick. Qed.

Lemma sys_reach_inv l s y : rtc sys_step (sys_new l s) y → sys_inv y.
Proof.
  intros Hr. assert (∀ y0, sys_inv y0 → rtc sys_step y0 y → sys_inv y) as Hgen.
  { intros y0 H0 Hy. induction Hy; eauto using sys_inv_step. }
  eapply Hgen, Hr. apply sys_inv_new.
Qed.

Lemma held_bound ws : (length (ws ≫= worker_holds) ≤ length ws)%nat.
Proof.
  induction ws as [|w ws IH]; cbn; [lia|]. rewrite length_app. destruct w; cbn; lia.
Qed.

(** How a message is let go: its worker has processed it, or the dispatcher has called
    [Requeue]. *)
Definition ended_by (e : ending) : Prop :=
  (∃ rd, e_after e = untrackActive (activeKey (e_msg e)) (process c handler rd (e_msg e) (e_before e))) ∨
  e_after e = requeue_call (e_msg e) (e_before e).

(** Every message was let go in one of these ways, and what was reported then still is. *)
Definition ended_ok (y : sys) : Prop := Forall (λ e, ended_by e ∧ reports (e_after e) (y_srv y)) (y_ended y).

Lemma ended_ok_reports y y' : ended_ok y → reports (y_srv y) (y_srv y') → y_ended y' = y_ended y → ended_ok y'.
Proof.
  intros He Hr E. unfold ended_ok in *. rewrite E. eapply Forall_impl; [exact He|]. cbn. intros e [? ?]. split; [done|]. by etrans.
Qed.

Lemma sys_step_ended y y' : sys_step y y' → ended_ok y → ended_ok y'.
Proof.
  intros Hs He. pose proof (sys_step_reports y y' Hs) as Hr.
  destruct Hs as [Hs|[Hs|Hs]]; destruct Hs; unfold Start, requestStop in *; repeat case_match; simplify_eq;
    try (by eapply ended_ok_reports); (constructor; [split; [|done]|exact (ended_ok_reports y (with_srv s y) He Hr eq_refl)]).
  - by right.
  - left. by eexists.
Qed.

Lemma sys_reach_ended l s y : rtc sys_step (sys_new l s) y → ended_ok y.
Proof.
  intros Hr. remember (sys_new l s) as y0 eqn:E. assert (ended_ok y0) as H0 by (rewrite E; constructor).
  clear E. induction Hr; eauto using sys_step_ended.
Qed.

(** At most as many messages are being processed as there are workers. *)
Lemma held_workers y : sys_inv y → (length (y_workers y ≫= worker_holds) ≤ Z.to_nat (Concurrency c))%nat.
Proof.
  intros Hi. pose proof (held_bound (y_workers y)). destruct (decide (y_state y = stateNew)) as [E|E].
  - destruct (si_new _ Hi E) as (_ & -> & _). cbn. lia.
  - by rewrite <-(si_workers _ Hi E).
Qed.

Lemma work_done_holds y : work_done y → held y = [].
Proof.
  intros [Hd Hf]. unfold held. rewrite Hd. cbn. clear -Hf.
  induction Hf as [|w ws -> _ IH]; [done|]. exact IH.
Qed.

(** *** Stopping *)

Definition disp_weight (d : dispatcher) : nat :=
  match d with DDone => 0 | DTop => 1 | DWaiting _ => 2 | DOffer _ => 4 | DTurn => 5 end.
Definition worker_weight (w : worker) : nat :=
  match w with WExited => 0 | WIdle => 1 | WBusy _ => 2 | WTaken _ => 3 end.

(** What is left to do. *)
Definition work_left (y : sys) : nat :=
  disp_weight (y_disp y) + sum_list_with worker_weight (y_workers y) + y_maintenance y.

Lemma sum_insert ws i w w' :
  ws !! i = Some w →
  (sum_list_with worker_weight (<[i := w']> ws) + worker_weight w =
   sum_list_with worker_weight ws + worker_weight w')%nat.
Proof.
  revert i. induction ws as [|x ws IH]; intros [|i] Hi; try done; cbn in *.
  - injection Hi as ->. lia.
  - rewrite <-!Nat.add_assoc. f_equal. apply (IH i Hi).
Qed.

Lemma work_left_bound y :
  sys_inv y → y_state y ≠ stateNew → (work_left y ≤ 8 + 3 * Z.to_nat (Concurrency c))%nat.
Proof.
  intros Hinv Hne. rewrite <-(si_workers _ Hinv Hne). pose proof (si_maintenance _ Hinv).
  assert (disp_weight (y_disp y) ≤ 5)%nat by (destruct (y_disp y); cbn; lia).
  assert (∀ ws, sum_list_with worker_weight ws ≤ 3 * length ws)%nat as Hsum.
  { intros ws. induction ws as [|w ws IH]; cbn; [lia|]. destruct w; cbn; lia. }
  specialize (Hsum (y_workers y)). unfold work_left. lia.
Qed.

Lemma work_step_decreases y y' :
  work_step y y' → y_stop y = true → (work_left y' < work_left y)%nat ∧ y_stop y' = true.
Proof.
  intros Hs Hstop. destruct Hs; unfold work_left; cbn; (split; [|done]);
    repeat match goal with
    | E : y_workers _ !! _ = Some ?w |- context [<[_ := ?w']> _] =>
        pose proof (sum_insert _ _ _ w' E); clear E; cbn in *
    | E : y_disp _ = _ |- _ => rewrite E in *; clear E; cbn in *
    end; try congruence; lia.
Qed.

Lemma workers_exited (ws : list worker) :
  Forall (λ w, w = WExited) ws ∨ ∃ i w, ws !! i = Some w ∧ w ≠ WExited.
Proof.
  induction ws as [|w ws [IH|(i & w' & Hi & Hw)]]; [by left| |].
  - destruct w; [right; by exists 0%nat, WIdle|right; by exists 0%nat, (WTaken msg)|right; by exists 0%nat, (WBusy msg)|left; by constructor].
  - right. by exists (S i), w'.
Qed.

Lemma work_progress y :
  y_stop y = true → y_state y ≠ stateNew → ¬ work_done y → ∃ y', work_step y y'.
Proof.
  intros Hstop Hst Hnd. destruct (y_disp y) as [| |d|msg|] eqn:Ed.
  - eexists. by apply step_check_stop.
  - destruct (dispatch_iteration c queues 0 (λ _, mkReadings 0 (inr [])) (y_limiter y) (y_srv y))
      as [[l s] [d|msg]] eqn:E.
    + eexists. by eapply step_turn_wait.
    + eexists. by eapply step_turn_claim.
  - eexists. by eapply step_wait_stop.
  - eexists. by eapply step_offer_stop.
  - assert (∃ i w, y_workers y !! i = Some w ∧ w ≠ WExited) as (i & w & Hi & Hw).
    { destruct (workers_exited (y_workers y)) as [Hf|Hf]; [by destruct Hnd|done]. }
    destruct w as [|msg|msg|]; [..|done].
    + eexists. by eapply step_worker_exit.
    + eexists. by eapply step_track.
    + eexists. eapply (step_process y i msg (mkProcessReadings 0 0 0 0 None S754_nan (mkReadings 0 (inr [])))). done.
Qed.

(** Nothing but the maintenance goroutines is left. *)
Lemma maintenance_progress y :
  y_ctx y = true → ¬ maintenance_done y → ∃ y', work_step y y'.
Proof. intros Hc Hm. eexists. apply step_maintenance_exit; [unfold maintenance_done in Hm; lia|done]. Qed.

(** A step of the goroutines at work, after any number of ticks and calls of the owner. *)
Definition other_step (y y' : sys) : Prop := owner_step y y' ∨ tick_step y y'.
Definition next_work_step (y y' : sys) : Prop := ∃ y1, rtc other_step y y1 ∧ work_step y1 y'.

Lemma other_step_keeps y y' :
  y_state y = stateStopped → rtc other_step y y' →
  y_state y' = stateStopped ∧ y_stop y' = y_stop y ∧ work_left y' = work_left y.
Proof.
  intros Hst Hr. induction Hr as [|y y1 y' Hs _ IH]; [done|].
  assert (y_state y1 = stateStopped ∧ y_stop y1 = y_stop y ∧ work_left y1 = work_left y) as (H1 & H2 & H3).
  { destruct Hs as [Hs|Hs]; destruct Hs; unfold Start, requestStop in *;
      try (rewrite Hst in *; congruence); try (case_decide; congruence); done. }
  destruct (IH H1) as (? & -> & ->). done.
Qed.

Lemma next_work_bound n y y' :
  nsteps next_work_step n y y' → y_state y = stateStopped → y_stop y = true →
  (n + work_left y' ≤ work_left y)%nat ∧ y_stop y' = true ∧ y_state y' = stateStopped.
Proof.
  induction 1 as [y|n y y1 y' (y0 & Ho & Hs) Hn IH]; intros Hst Hstop; [split; [lia|done]|].
  destruct (other_step_keeps y y0 Hst Ho) as (Hst0 & Hstop0 & <-).
  destruct (work_step_decreases y0 y1 Hs) as [Hlt H1]; [congruence|].
  destruct IH as (? & ? & ?); [|done|split; [lia|done]]. by destruct Hs.
Qed.

(** A state without a step of the goroutines. *)
Lemma stuck_done y :
  y_stop y = true → y_state y = stateStopped → (∀ y', ¬ work_step y y') →
  work_done y ∧ (y_ctx y = true → maintenance_done y).
Proof.
  intros Hstop Hst Hend. split.
  - assert (y_disp y = DDone ∨ y_disp y ≠ DDone) as [Hd|Hd] by (destruct (y_disp y); auto).
    + destruct (workers_exited (y_workers y)) as [Hf|(i & w & Hi & Hw)]; [done|].
      destruct (work_progress y) as [y' Hy]; [done|congruence| |by destruct (Hend y')].
      intros [_ Hx]. rewrite Forall_lookup in Hx. by apply Hw, (Hx i).
    + destruct (work_progress y) as [y' Hy]; [done|congruence|by intros [? _]|by destruct (Hend y')].
  - intros Hctx. destruct (decide (y_maintenance y = 0%nat)) as [|Hm]; [done|].
    destruct (maintenance_progress y Hctx Hm) as [y' Hy]. by destruct (Hend y').
Qed.

(** C25: Stopping terminates. Once the stop was requested, the dispatcher, the workers and
    the returns of the maintenance goroutines take at most 8 + 3 * [Concurrency] steps,
    however many ticks and calls of the owner come between them, provided every handler
    returns; and where they can take no further step the work is done, and if the context
    was cancelled, which [Shutdown] does next, the maintenance goroutines have returned
    too: both channels [Shutdown] waits for are closed. *)
Theorem shutdown_completes l s y n y' :
  rtc sys_step (sys_new l s) y → y_state y = stateStopped → nsteps next_work_step n y y' →
  (n ≤ 8 + 3 * Z.to_nat (Concurrency c))%nat ∧
  ((∀ y'', ¬ work_step y' y'') → work_done y' ∧ (y_ctx y' = true → maintenance_done y')).
Proof.
  intros Hr Hst Hn. pose proof (sys_reach_inv _ _ _ Hr) as Hinv.
  assert (y_stop y = true) as Hstop by (by apply (si_stop _ Hinv)).
  destruct (next_work_bound n y y' Hn Hst Hstop) as (Hle & Hs' & Hst').
  assert (y_state y ≠ stateNew) as Hne by congruence.
  split; [pose proof (work_left_bound y Hinv Hne); lia|]. by apply stuck_done.
Qed.

(** C26: A server runs once, and claims almost nothing after it was stopped. Start succeeds
    only on a new server and answers [ErrServerRunning] or [ErrServerClosed] otherwise,
    changing nothing; the state only moves from new to running to stopped; and after the
    stop was requested at most one more task is claimed, by the turn that was already under
    way. *)
Theorem stop_is_final y y' :
  rtc sys_step y y' → sys_inv y →
  (∀ ready, y_state y = stateRunning → Start ready y = (y, Some ErrServerRunning)) ∧
  (∀ ready, y_state y = stateStopped → Start ready y = (y, Some ErrServerClosed)) ∧
  (y_state y = stateRunning → y_state y' ≠ stateNew) ∧
  (y_state y = stateStopped → y_state y' = stateStopped ∧
     (length (y_claimed y') ≤ length (y_claimed y) + 1)%nat).
Proof.
  intros Hr Hinv. unfold Start. split_and!; [by intros ? ->..| |].
  - intros Hrun. assert (y_state y ≠ stateNew) as Hne by congruence. clear Hrun.
    induction Hr as [|y y1 y' Hs _ IH]; [done|]. apply IH; [by eapply sys_inv_step|].
    destruct Hs as [Hs|[Hs|Hs]]; destruct Hs; cbn; try done.
    + unfold Start in *. by destruct (y_state y).
    + unfold requestStop in *. case_decide; [|done]. by simplify_eq.
  - intros Hst. set (pot y := (length (y_claimed y) + match y_disp y with DTurn => 1 | _ => 0 end)%nat).
    assert (y_state y' = stateStopped ∧ (pot y' ≤ pot y)%nat) as [? Hp].
    { clear - Hr Hinv Hst H. induction Hr as [|y y1 y' Hs _ IH]; [done|].
      assert (y_state y1 = stateStopped ∧ (pot y1 ≤ pot y)%nat) as [H1 H2].
      { assert (y_stop y = true) as Hstop by (by apply (si_stop _ Hinv)). unfold pot.
        destruct Hs as [Hs|[Hs|Hs]]; destruct Hs; cbn; unfold Start, requestStop in *;
          try (rewrite Hst in *; congruence); try (case_decide; congruence);
          repeat match goal with E : y_disp _ = _ |- _ => rewrite E; clear E end; split; try done; try lia.
        all: destruct (y_disp y); lia. }
      destruct (IH ltac:(by eapply sys_inv_step) H1) as [? ?]. split; [done|lia]. }
    split; [done|]. unfold pot in Hp. destruct (y_disp y), (y_disp y'); lia.
Qed.

(** *** [Shutdown], [Run] and [RunSignals] *)

(** [waitUntil]: the answer is true only if the channel is closed, and false only past the
    deadline. The goroutine that closes the channel may lag behind its condition [done], so
    false is possible even if [done] holds. [start] and [now] are the times of the call and of
    the answer. *)
Inductive waitUntil (done : Prop) (deadline start now : Time) : bool → Prop :=
| wait_done : done → waitUntil done deadline start now true
| wait_passed : deadline ≤ start → waitUntil done deadline start now false
| wait_timer : start < deadline → deadline ≤ now → waitUntil done deadline start now false.

Definition shutdown_timeout : error :=
  errors_New ("shutdown timeout after " +:+ Duration_String (ShutdownTimeout c)).

(** Where a call is: [Run] and [RunSignals] called, and waiting for the end of their context,
    a signal or a stop; [Shutdown] called, and its two waits, which carry the deadline and
    the time they began. *)
Inductive shutdown_call :=
| SRun | SRunning | SCalled | SWaitWork (deadline start : Time) | SWaitMaintenance (deadline start : Time)
| SReturned (err : option error).

(** The steps of the call, between the steps of the server. *)
Inductive shutdown_step : sys * shutdown_call → sys * shutdown_call → Prop :=
| shut_server y y' k : sys_step y y' → shutdown_step (y, k) (y', k)
| run_refused y y' ready err :
    Start ready y = (y', Some err) → shutdown_step (y, SRun) (y', SReturned (Some err))
| run_started y y' ready :
    Start ready y = (y', None) → shutdown_step (y, SRun) (y', SRunning)
| run_ended y : shutdown_step (y, SRunning) (y, SCalled)
| shut_new y : y_state y = stateNew → shutdown_step (y, SCalled) (y, SReturned None)
| shut_request y now start :
    y_state y ≠ stateNew →
    shutdown_step (y, SCalled)
      ((requestStop y).1, SWaitWork (Add now (ShutdownTimeout c)) start)
| shut_work_late y deadline start now :
    waitUntil (work_done y) deadline start now false →
    shutdown_step (y, SWaitWork deadline start) (cancel y, SReturned (Some shutdown_timeout))
| shut_work_done y deadline start now start' :
    waitUntil (work_done y) deadline start now true →
    shutdown_step (y, SWaitWork deadline start) (cancel y, SWaitMaintenance deadline start')
| shut_maintenance_late y deadline start now :
    waitUntil (maintenance_done y) deadline start now false →
    shutdown_step (y, SWaitMaintenance deadline start) (y, SReturned (Some shutdown_timeout))
| shut_maintenance_done y deadline start now :
    waitUntil (maintenance_done y) deadline start now true →
    shutdown_step (y, SWaitMaintenance deadline start) (y, SReturned None).

(** What holds while the call waits. *)
Definition shutdown_inv (p : sys * shutdown_call) : Prop :=
  sys_inv p.1 ∧ ended_ok p.1 ∧
  match p.2 with
  | SRun | SRunning | SCalled | SReturned _ => True
  | SWaitWork _ _ => y_state p.1 = stateStopped
  | SWaitMaintenance _ _ => y_state p.1 = stateStopped ∧ y_ctx p.1 = true ∧ work_done p.1
  end.

Lemma stopped_stays y y' : y_state y = stateStopped → sys_step y y' → y_state y' = stateStopped.
Proof.
  intros Hst [Hs|[Hs|Hs]]; destruct Hs; unfold Start, requestStop in *;
    try (rewrite Hst in *; congruence); try (case_decide; congruence); done.
Qed.

Lemma ctx_stays y y' :
  y_state y = stateStopped → y_ctx y = true → sys_step y y' → y_ctx y' = true.
Proof.
  intros Hst Hc [Hs|[Hs|Hs]]; destruct Hs; unfold Start, requestStop in *;
    try (rewrite Hst in *; congruence); try (case_decide; congruence); done.
Qed.

Lemma work_done_stays y y' :
  y_state y = stateStopped → work_done y → sys_step y y' → work_done y'.
Proof.
  intros Hst [Hd Hf] Hs. assert (∀ i w, y_workers y !! i = Some w → w = WExited) as Hx
    by (intros i w; by apply (Forall_lookup_1 _ _ _ _ Hf)).
  destruct Hs as [Hs|[Hs|Hs]]; destruct Hs; unfold Start, requestStop in *;
    try (rewrite Hst in *; congruence); try (case_decide; congruence); try done; try congruence.
  all: match goal with E : y_workers _ !! _ = Some _ |- _ => by apply Hx in E end.
Qed.

Lemma requestStop_stopped y : y_state y ≠ stateNew → y_state (requestStop y).1 = stateStopped.
Proof. intros Hne. unfold requestStop. case_decide; [done|]. by destruct (y_state y) eqn:E. Qed.

Lemma sys_inv_requestStop y : sys_inv y → sys_inv (requestStop y).1.
Proof.
  intros Hinv. destruct (requestStop y) as [y' []] eqn:E; cbn.
  - eapply sys_inv_step; [done|]. left. by apply step_request_stop.
  - unfold requestStop in E. case_decide; [done|]. by injection E as <-.
Qed.

(** A refused start changes nothing; a start that succeeds is one of a step. *)
Lemma Start_refused ready y y' err : Start ready y = (y', Some err) → y' = y.
Proof. unfold Start. repeat case_match; congruence. Qed.

Lemma Start_started ready y y' : Start ready y = (y', None) → owner_step y y'.
Proof. intros E. apply step_start. unfold Start in *. by destruct (y_state y), (validate c), ready. Qed.

Lemma requestStop_ended y : ended_ok y → ended_ok (requestStop y).1.
Proof. unfold requestStop. by case_decide. Qed.

Lemma shutdown_inv_step p p' : shutdown_inv p → shutdown_step p p' → shutdown_inv p'.
Proof.
  intros (Hinv & He & Hk) Hs. unfold shutdown_inv in *.
  destruct Hs as [y y' k Hs|y y' ready err E|y y' ready E| | | |y| | |]; cbn in *.
  - split; [by eapply sys_inv_step|]. split; [by eapply sys_step_ended|]. destruct k; try done; [by eapply stopped_stays|].
    destruct Hk as (? & ? & ?). split_and!; eauto using stopped_stays, ctx_stays, work_done_stays.
  - apply Start_refused in E as ->. done.
  - assert (sys_step y y') as Hs by (left; by eapply Start_started). eauto using sys_inv_step, sys_step_ended.
  - done.
  - done.
  - split; [by apply sys_inv_requestStop|]. split; [by apply requestStop_ended|by apply requestStop_stopped].
  - split; [|done]. eapply sys_inv_step; [done|]. left. by apply step_cancel.
  - split; [eapply sys_inv_step; [done|]; left; by apply step_cancel|]. split; [done|]. by inversion_clear H0.
  - done.
  - done.
Qed.

Lemma shutdown_reports p p' : rtc shutdown_step p p' → reports (y_srv p.1) (y_srv p'.1).
Proof.
  induction 1 as [p|p p1 p' Hs _ IH]; [done|]. etrans; [|exact IH].
  destruct Hs as [y y' k Hs|y y' ready err E|y y' ready E| | |y| | | |]; cbn; try done.
  - by apply sys_step_reports.
  - by apply Start_refused in E as ->.
  - apply sys_step_reports. left. by eapply Start_started.
  - unfold requestStop. by case_decide.
Qed.

(** Nothing of a server whose work is done and whose maintenance goroutines returned runs. *)
Lemma all_done_quiet y y' : work_done y → maintenance_done y → ¬ (work_step y y' ∨ tick_step y y').
Proof.
  intros [Hd Hf] Hm. assert (∀ i w, y_workers y !! i = Some w → w = WExited) as Hx
    by (intros i w; by apply (Forall_lookup_1 _ _ _ _ Hf)).
  unfold maintenance_done in Hm. intros [Hs|Hs]; destruct Hs; try congruence; try lia.
  all: match goal with E : y_workers _ !! _ = Some _ |- _ => by apply Hx in E end.
Qed.

(** What a call has achieved when it returns. *)
Definition returned (y1 : sys) (k : shutdown_call) (y2 : sys) (err : option error) : Prop :=
  match err with
  | None =>
      y_state y2 = stateNew ∨
      y_state y2 = stateStopped ∧ y_ctx y2 = true ∧ work_done y2 ∧ maintenance_done y2 ∧
      (∀ y', ¬ (work_step y2 y' ∨ tick_step y2 y')) ∧
      y_claimed y2 ≡ₚ e_msg <$> y_ended y2 ∧ ended_ok y2
  | Some e =>
      e = shutdown_timeout ∧ y_state y2 = stateStopped ∧ y_ctx y2 = true ∨
      k = SRun ∧ y2 = y1 ∧ ∃ ready, Start ready y1 = (y1, Some e)
  end.

Lemma shutdown_steps_inv p p' : rtc shutdown_step p p' → shutdown_inv p → shutdown_inv p'.
Proof. induction 1; eauto using shutdown_inv_step. Qed.

Lemma shutdown_returns y1 k y2 err :
  shutdown_inv (y1, k) → (∀ e, k ≠ SReturned e) → shutdown_step (y1, k) (y2, SReturned err) → returned y1 k y2 err.
Proof.
  intros (Hinv & He & Hki) Hk Hs. unfold returned. cbn in He.
  inversion Hs; simplify_eq; cbn in *.
  - by destruct (Hk err).
  - right. match goal with E : Start _ _ = _ |- _ => pose proof (Start_refused _ _ _ _ E); subst end. eauto.
  - by left.
  - naive_solver.
  - naive_solver.
  - right. destruct Hki as (? & ? & ?).
    match goal with Hw : waitUntil _ _ _ _ _ |- _ => inversion_clear Hw end.
    split_and!; try done; [intros y'; by apply all_done_quiet|].
    rewrite (si_conserved _ Hinv). by rewrite work_done_holds.
Qed.
End lifecycle.

(** ** Witnesses *)

Lemma Start_new {L W} (c : Config L) (l : L) (s : Server W) :
  validate c = None →
  Start c true (sys_new l s) =
    (mkSys stateRunning false false false DTop (replicate (Z.to_nat (Concurrency c)) WIdle) 3 false l s [] [], None).
Proof. intros Hv. unfold Start. cbn. by rewrite Hv. Qed.

Section demo.
Context {W : Type} `{TaskStore W} (s : Server W).

Definition demo_config : Config unit :=
  applyDefaults (mkConfig 1 ∅ 0 0 0 0 0 (f64_of_int 0) 0 0 None (f64_of_int 0)).
Definition demo_handler : Handler := λ _ m, (m, None).

Definition demo_state st stop ctx hctx d w n : sys (L := unit) (W := W) :=
  mkSys st stop ctx hctx d [w] n false tt s [] [].
Definition demo_running := demo_state stateRunning false false false DTop WIdle 3.
Definition demo_stopped := demo_state stateStopped true false true DTop WIdle 3.
Definition demo_ended := demo_state stateStopped true false true DDone WExited 3.

Lemma demo_valid : validate demo_config = None.
Proof. vm_compute. reflexivity. Qed.

Lemma demo_start : rtc (sys_step demo_config ["default"] demo_handler) (sys_new tt s) demo_running.
Proof. apply rtc_once. left. apply step_start. rewrite (Start_new _ _ _ demo_valid). reflexivity. Qed.

Lemma demo_reach : rtc (sys_step demo_config ["default"] demo_handler) (sys_new tt s) demo_stopped.
Proof. eapply rtc_r; [apply demo_start|]. left. by apply step_request_stop. Qed.

Lemma demo_drain : nsteps (next_work_step demo_config ["default"] demo_handler) 2 demo_stopped demo_ended.
Proof.
  change demo_ended with (with_worker 0 WExited (with_disp DDone demo_stopped)).
  eapply nsteps_l; [exists demo_stopped; split; [constructor|by apply step_check_stop]|].
  eapply nsteps_l; [eexists; split; [constructor|by apply (step_worker_exit _ _ _ _ 0)]|].
  constructor.
Qed.

Lemma demo_end : rtc (sys_step demo_config ["default"] demo_handler) demo_stopped demo_ended.
Proof.
  change demo_ended with (with_worker 0 WExited (with_disp DDone demo_stopped)).
  eapply rtc_l; [right; left; by apply step_check_stop|].
  apply rtc_once. right. left. by apply (step_worker_exit _ _ _ _ 0).
Qed.
End demo.

Definition demo_server : Server (world (H := RedisMem)) := mkServer (World (H := RedisMem) ∅ []) None None ∅.
#[local] Instance demo_store : TaskStore (world (H := RedisMem)) := RedisTaskStore (H := RedisMem) Second.

Lemma shutdown_completes_witness :
  (2 ≤ 8 + 3 * Z.to_nat (Concurrency demo_config))%nat.
Proof.
  exact (proj1 (shutdown_completes demo_config ["default"] demo_handler tt demo_server
    (demo_stopped demo_server) 2 (demo_ended demo_server) (demo_reach demo_server) eq_refl
    (demo_drain demo_server))).
Defined.

Lemma stop_is_final_witness : y_state (demo_ended demo_server) = stateStopped.
Proof.
  refine (proj1 (proj2 (proj2 (proj2 (stop_is_final demo_config ["default"] demo_handler
    (demo_stopped demo_server) (demo_ended demo_server) (demo_end demo_server) _))) eq_refl)).
  eapply sys_reach_inv. apply demo_reach.
Defined.
