(* ===== verification/Release.v ===== *)
(** * What becomes of the tasks a server claimed

    A claimed task leaves the hands of a server by one call of the store, [AckSuccess],
    [ScheduleRetry] or [Archive] by a worker or [Requeue] by the dispatcher. This file says
    what that call does to the database whatever its state and whatever the network does,
    and what [Shutdown] therefore guarantees. *)

From S2P Require Import Float.
From S2P Require Import Prelude GoLib Flags Model Storage Redis RedisMem Keys Scripts Codec JsonCodec Store QueueView.
From S2P Require Import QueueSpec StoreRefine Requests History StoreTheorems TaskLifecycle TaskStore Backoff HandlerMux Server.
From S2P Require Import ServerTheorems Lifecycle.

(** ** Scripts that may fail *)

(** The key a command works on. *)
Definition cmd_key {A} (c : cmd A) : string :=
  match c with
  | EXISTS k | DEL k | INCR k | HSET k _ | HGET k _ | HMGET k _ | HDEL k _ | LPUSH k _ | RPUSH k _ | LREM1 k _
  | ZADD k _ _ | ZREM k _ | ZCARD k | ZRANGE k _ _ | ZRANGEBYSCORE k _ _ => k
  end.

Lemma doc_exec_other parse {A} (c : cmd A) ks k : cmd_key c ≠ k → (doc_exec parse c ks).1 !! k = ks !! k.
Proof.
  intros Hk. destruct c; cbn in *; unfold with_err, put_hash, put_list, put_zset; repeat (case_match; cbn; try done);
    simplify_map_eq; done.
Qed.

Section post.
Context `{Redis}.

(** The answer or error of a script and the database it leaves. *)
Definition post {A} (s : Script A) (Q : string + A → db → Prop) (d : db) : Prop := Q (s d).2 (s d).1.

Lemma post_bind {A B} (m : Script A) (k : A → Script B) Q d :
  post m (λ r d', match r with inl e => Q (inl e) d' | inr a => post (k a) Q d' end) d → post (sbind m k) Q d.
Proof. unfold post, sbind. by destruct (m d) as [d' [e|a]]. Qed.

Lemma post_mono {A} (s : Script A) (Q Q' : string + A → db → Prop) d :
  post s Q d → (∀ r d', Q r d' → Q' r d') → post s Q' d.
Proof. unfold post. auto. Qed.

(** The hash at a key. *)
Definition hash_at (d : db) (k : string) : gmap string string :=
  match keyspace d !! k with Some (RHash h) => h | _ => ∅ end.

Lemma task_field_hash d q id f : task_field d q id f = hash_at d (TaskKey q id) !! f.
Proof. unfold task_field, hash_at. destruct (keyspace d !! _) as [[]|]; by rewrite ?lookup_empty. Qed.

Lemma post_call {A} (c : cmd A) Q d :
  (∀ d', keyspace d' = (doc_exec parse_score c (keyspace d)).1 → Q (doc_exec parse_score c (keyspace d)).2 d') → post (call c) Q d.
Proof. intros HQ. unfold post, call. pose proof (exec_documented A c d) as E. rewrite <-E in HQ. by apply HQ. Qed.

Lemma post_other {A} (c : cmd A) k d : cmd_key c ≠ k → post (call c) (λ _ d', hash_at d' k = hash_at d k) d.
Proof. intros Hk. apply post_call. intros d' Hd. unfold hash_at. by rewrite Hd, doc_exec_other. Qed.

Lemma hash_at_put d d' k h : keyspace d' = put_hash (keyspace d) k h → hash_at d' k = h.
Proof. intros Hd. unfold hash_at. rewrite Hd. unfold put_hash. case_decide; by simplify_map_eq. Qed.

Lemma get_hash_at d k h : get_hash (keyspace d) k = inr h → hash_at d k = h.
Proof. unfold get_hash, hash_at. repeat case_match; congruence. Qed.

Lemma post_hget k f d : post (call (HGET k f)) (λ r d', hash_at d' k = hash_at d k ∧ ∀ v, r = inr v → v = hash_at d k !! f) d.
Proof.
  apply post_call. intros d' Hd. cbn in *. destruct (get_hash (keyspace d) k) as [e|h] eqn:E; cbn in *; unfold hash_at; rewrite Hd; [done|].
  split; [done|]. intros v [= <-]. apply get_hash_at in E. by rewrite <-E.
Qed.

Lemma post_hset k fvs d :
  post (call (HSET k fvs)) (λ r d', hash_at d' k =
    match r with inl _ => hash_at d k | inr _ => foldl (λ h fv, <[fv.1 := fv.2]> h) (hash_at d k) fvs end) d.
Proof.
  apply post_call. intros d' Hd. cbn in *. destruct (get_hash (keyspace d) k) as [e|h] eqn:E; cbn in *.
  - unfold hash_at. by rewrite Hd.
  - apply get_hash_at in E. rewrite E. by eapply hash_at_put.
Qed.

Lemma post_hdel k f d :
  post (call (HDEL k f)) (λ r d', hash_at d' k = match r with inl _ => hash_at d k | inr _ => delete f (hash_at d k) end) d.
Proof.
  apply post_call. intros d' Hd. cbn in *. destruct (get_hash (keyspace d) k) as [e|h] eqn:E; cbn in *.
  - unfold hash_at. by rewrite Hd.
  - apply get_hash_at in E. rewrite E. by eapply hash_at_put.
Qed.
End post.

(** ** The scripts that end an attempt *)

Section scripts.
Context `{Redis}.

(** A script that may end the attempt of the task at key [k], whose hash was [h0]: it does not
    lose the task, and if it answers anything but 0 the task has the state [st] and no attempt. *)
Definition may_end (k st : string) (h0 : gmap string string) (r : string + Z) (d' : db) : Prop :=
  (is_Some (h0 !! "state") → is_Some (hash_at d' k !! "state")) ∧
  ∀ n, r = inr n → n = 0 ∨ hash_at d' k !! "state" = Some st ∧ hash_at d' k !! "attempt_id" = None.

Lemma may_end_error k st h0 e d' : (is_Some (h0 !! "state") → is_Some (hash_at d' k !! "state")) → may_end k st h0 (inl e) d'.
Proof. intros Hk. split; [done|]. by intros n [=]. Qed.

(** A command on another key. *)
Lemma may_end_other {A} (c : cmd A) (s : A → Script Z) k st h0 d :
  cmd_key c ≠ k → (is_Some (h0 !! "state") → is_Some (hash_at d k !! "state")) →
  (∀ a d', hash_at d' k = hash_at d k → post (s a) (may_end k st h0) d') → post (sbind (call c) s) (may_end k st h0) d.
Proof.
  intros Hk Hs Hc. apply post_bind. eapply post_mono; [by apply post_other|]. cbn. intros [e|a] d' Hd; [|by apply Hc].
  apply may_end_error. by rewrite Hd.
Qed.

(** Reading a field of the task. *)
Lemma may_end_read f (s : option string → Script Z) k st h0 d :
  (is_Some (h0 !! "state") → is_Some (hash_at d k !! "state")) →
  (∀ a d', hash_at d' k = hash_at d k → post (s a) (may_end k st h0) d') → post (sbind (call (HGET k f)) s) (may_end k st h0) d.
Proof.
  intros Hs Hc. apply post_bind. eapply post_mono; [apply post_hget|]. cbn. intros [e|a] d' [Hd _]; [|by apply Hc].
  apply may_end_error. by rewrite Hd.
Qed.

(** The two writes to the task. *)
Lemma may_end_write fvs (s : Script Z) k st h0 d :
  foldl (λ h fv, <[fv.1 := fv.2]> h) (hash_at d k) fvs !! "state" = Some st →
  (is_Some (h0 !! "state") → is_Some (hash_at d k !! "state")) →
  (∀ d', hash_at d' k !! "state" = Some st → hash_at d' k !! "attempt_id" = None → post s (may_end k st h0) d') →
  post (sbind (call (HSET k fvs)) (λ _, sbind (call (HDEL k "attempt_id")) (λ _, s))) (may_end k st h0) d.
Proof.
  intros Hst Hs Hc. apply post_bind. eapply post_mono; [apply post_hset|]. cbn. intros [e|a] d1 Hd1.
  { apply may_end_error. by rewrite Hd1. }
  apply post_bind. eapply post_mono; [apply post_hdel|]. cbn. intros [e|b] d2 Hd2.
  - apply may_end_error. rewrite Hd2, Hd1, Hst. done.
  - apply Hc; rewrite Hd2; [by rewrite lookup_delete_ne, Hd1|by rewrite lookup_delete_eq].
Qed.

Lemma may_end_guard k attempt (body : Script Z) st d :
  (∀ d', hash_at d' k = hash_at d k → post body (may_end k st (hash_at d k)) d') →
  post (guard_attempt k attempt body) (may_end k st (hash_at d k)) d.
Proof.
  intros Hb. assert (∀ d', hash_at d' k = hash_at d k → post (sret 0) (may_end k st (hash_at d k)) d') as H0.
  { intros d' Hd'. unfold post, sret. cbn. split; [by rewrite Hd'|]. intros n [= <-]. by left. }
  unfold guard_attempt. apply may_end_read; [done|]. intros a d1 Hd1. case_match; [by apply H0|].
  apply may_end_read; [by rewrite Hd1|]. intros b d2 Hd2. case_match; [apply H0|apply Hb]; congruence.
Qed.

Lemma may_end_ret k st h0 d :
  hash_at d k !! "state" = Some st → hash_at d k !! "attempt_id" = None → post (sret 1) (may_end k st h0) d.
Proof. intros Hs Ha. unfold post, sret. cbn. split; [by rewrite Hs|]. intros n _. by right. Qed.

(** The keys of the indices of a queue are not those of its tasks. *)
Lemma kname_neq q k id : k ≠ KTask id → kkey q k ≠ TaskKey q id.
Proof. intros Hk E. by apply Hk, (kkey_inj q k (KTask id)). Qed.

Ltac other_key := first [apply (kname_neq _ (KZ ZRetry))|apply (kname_neq _ (KZ ZRank))|apply (kname_neq _ (KZ ZLease))
  |apply (kname_neq _ (KZ ZArch))|apply (kname_neq _ (KL LActive))|apply (kname_neq _ (KL LPending))]; done.

Ltac end_step :=
  cbv zeta;
  match goal with
  | |- post (sbind (call (HSET _ _)) _) _ _ => apply may_end_write; [by cbn; simplify_map_eq| |intros ? ? ?]
  | |- post (sbind (call (HGET _ _)) _) _ _ => apply may_end_read; [|intros ? ? ?]
  | |- post (sbind (call _) _) _ _ => apply may_end_other; [other_key| |intros ? ? ?]
  | |- post (sret 1) _ _ => apply may_end_ret
  end; repeat match goal with E : hash_at _ _ = _ |- _ => rewrite E end; try done.

Lemma ackScript_ends q id text now attempt d :
  post (ackScript (TaskKey q id) (ActiveKey q) (LeaseKey q) id text now attempt)
    (may_end (TaskKey q id) "completed" (hash_at d (TaskKey q id))) d.
Proof. apply may_end_guard. intros d1 Hd1. do 4 end_step. Qed.

Lemma retryScript_ends q id text at_ reason attempt d :
  post (retryScript (TaskKey q id) (ActiveKey q) (LeaseKey q) (RetryKey q) id text at_ reason attempt)
    (may_end (TaskKey q id) "retry" (hash_at d (TaskKey q id))) d.
Proof. apply may_end_guard. intros d1 Hd1. do 5 end_step. Qed.

Lemma archiveScript_ends q id text reason now attempt d :
  post (archiveScript (TaskKey q id) (ActiveKey q) (LeaseKey q) (ArchivedKey q) id text reason now attempt)
    (may_end (TaskKey q id) "archived" (hash_at d (TaskKey q id))) d.
Proof. apply may_end_guard. intros d1 Hd1. do 5 end_step. Qed.

Lemma requeueScript_ends q id attempt d :
  post (requeueScript (TaskKey q id) (ActiveKey q) (LeaseKey q) (PendingKey q) (PendingRankKey q) id attempt)
    (may_end (TaskKey q id) "pending" (hash_at d (TaskKey q id))) d.
Proof.
  apply may_end_guard. intros d1 Hd1. do 6 end_step. destruct a as [rank|].
  - match goal with |- post (sbind _ ?k) ?Q ?e => change (post (k rank) Q e) end. cbv beta. do 2 end_step.
  - apply post_bind, may_end_error. intros _. cbn. match goal with E : hash_at ?x _ = _ |- context [hash_at ?x _] => rewrite E end. by eexists.
Qed.
End scripts.

(** ** Letting a task go *)

Section release.
Context {L : Type} `{Redis, TaskCodec} (leaseDuration : Duration).
#[local] Instance redis_store : TaskStore world := RedisTaskStore leaseDuration.

Lemma Run_ends k st s w w' r :
  post s (may_end k st (hash_at (w_db w) k)) (w_db w) → Run s w = (w', r) →
  (is_Some (hash_at (w_db w) k !! "state") → is_Some (hash_at (w_db w') k !! "state")) ∧
  ∀ n, r = inr n → n = 0 ∨ hash_at (w_db w') k !! "state" = Some st ∧ hash_at (w_db w') k !! "attempt_id" = None.
Proof.
  unfold post, Run, run_script. destruct (s (w_db w)) as [d a]. cbn. intros [Hk Hr] E.
  destruct (w_net w) as [|[| |] net]; destruct a as [err|n]; simplify_eq; cbn; (split; [done|]); intros m Hm; simplify_eq; auto.
Qed.

(** A script between the encoding of the envelope and the answer of the message. *)
Lemma call_ends k st s prefix (m : TaskMessage) w w' r :
  post s (may_end k st (hash_at (w_db w) k)) (w_db w) →
  gbind (gwrap prefix (Run s)) (λ n, if n =? 0 then gerr ErrInvalidTransition else gret m) w = (w', r) →
  (is_Some (hash_at (w_db w) k !! "state") → is_Some (hash_at (w_db w') k !! "state")) ∧
  ∀ a, r = inr a → hash_at (w_db w') k !! "state" = Some st ∧ hash_at (w_db w') k !! "attempt_id" = None.
Proof.
  intros Hp. unfold gbind, gwrap. destruct (Run s w) as [w1 [e|n]] eqn:E; destruct (Run_ends _ _ _ _ _ _ Hp E) as [Hk Hr].
  - intros [= <- <-]. split; [done|]. by intros a [=].
  - destruct (Z.eqb_spec n 0) as [Hn|Hn]; intros [= <- <-]; (split; [done|]); intros a Ha; [done|].
    by destruct (Hr n eq_refl).
Qed.

(** The four methods never lose the task of their message, and when they answer it the task has
    its new state and belongs to no attempt: on any database, under any network. *)
Lemma settle_ends st msg w w' r :
  settle st msg w = (w', r) →
  (is_Some (task_field (w_db w) (Queue msg) (ID msg) "state") → is_Some (task_field (w_db w') (Queue msg) (ID msg) "state")) ∧
  ∀ m, r = inr m → task_field (w_db w') (Queue msg) (ID msg) "state" = Some (State (settled st msg)) ∧
    task_field (w_db w') (Queue msg) (ID msg) "attempt_id" = None.
Proof.
  rewrite !task_field_hash. destruct (settled_text st msg) as [e|text] eqn:Ht.
  { rewrite (settle_encode_error st msg w e Ht). intros [= <- <-]. split; [done|]. by intros m [=]. }
  destruct st; cbn [settle settled_text] in *; unfold Store.AckSuccess, Store.ScheduleRetry, Store.Archive, Store.Requeue; cbn [settled] in Ht;
    try (unfold gbind at 1, gwrap at 1, gresult; rewrite Ht); apply call_ends; destruct msg.
  - apply ackScript_ends.
  - apply retryScript_ends.
  - apply archiveScript_ends.
  - apply requeueScript_ends.
Qed.

(** A call that is not sent changes nothing. *)
Lemma call_not_sent s prefix (k : Z → GoM TaskMessage) w w' r :
  delivery w = NotSent → gbind (gwrap prefix (Run s)) k w = (w', r) → w_db w' = w_db w.
Proof.
  unfold delivery, gbind, gwrap, Run. destruct (w_net w) as [|[| |] net]; try done. by intros _ [= <- _].
Qed.

Lemma settle_not_sent st msg w w' r : settle st msg w = (w', r) → delivery w = NotSent → w_db w' = w_db w.
Proof.
  intros E Hd. revert E. destruct (settled_text st msg) as [e|text] eqn:Ht.
  { rewrite (settle_encode_error st msg w e Ht). by intros [= <- _]. }
  destruct st; cbn [settle settled_text] in *; unfold Store.AckSuccess, Store.ScheduleRetry, Store.Archive, Store.Requeue; cbn [settled] in Ht;
    try (unfold gbind at 1, gwrap at 1, gresult; rewrite Ht); by apply call_not_sent.
Qed.

(** A message left the hands of the server by one settlement of its attempt. If the store
    answered, the task has its new state and belongs to no attempt; otherwise the error was
    reported, and the task is as it was if the call was not sent. In no case is it lost. *)
Definition let_go (e : ending (W := world)) : Prop :=
  let q := Queue (e_msg e) in
  let id := ID (e_msg e) in
  let w := srv_store (e_before e) in
  let w' := srv_store (e_after e) in
  (is_Some (task_field (w_db w) q id "state") → is_Some (task_field (w_db w') q id "state")) ∧
  ∃ st m r, Queue m = q ∧ ID m = id ∧ AttemptID m = AttemptID (e_msg e) ∧ settle st m w = (w', r) ∧
    match r with
    | inr _ =>
        task_field (w_db w') q id "state" = Some (State (settled st m)) ∧
        task_field (w_db w') q id "attempt_id" = None ∧ srv_errors (e_after e) = srv_errors (e_before e)
    | inl err =>
        (delivery w = NotSent → w_db w' = w_db w) ∧
        srv_errors (e_after e) = (λ l, l ++ [err]) <$> srv_errors (e_before e)
    end.

(** Handlers may change the message they are given, but not which attempt it is of. *)
Definition keeps_identity (handler : Handler) : Prop :=
  ∀ ctx m, Queue (handler ctx m).1 = Queue m ∧ ID (handler ctx m).1 = ID m ∧ AttemptID (handler ctx m).1 = AttemptID m.

Lemma settle_let_go st m w' r e :
  Queue m = Queue (e_msg e) → ID m = ID (e_msg e) → AttemptID m = AttemptID (e_msg e) →
  settle st m (srv_store (e_before e)) = (w', r) → srv_store (e_after e) = w' →
  srv_errors (e_after e) = (if r is inl err then (λ l, l ++ [err]) <$> srv_errors (e_before e) else srv_errors (e_before e)) →
  let_go e.
Proof.
  intros Hq Hi Ha E Hw He. destruct (settle_ends st m _ _ _ E) as [Hk Hr]. unfold let_go. rewrite Hw, <-Hq, <-Hi. split; [done|].
  exists st, m, r. split_and!; try done. destruct r as [err|m']; [split; [by apply (settle_not_sent _ _ _ _ _ E)|done]|].
  destruct (Hr m' eq_refl). done.
Qed.

Lemma ended_let_go (c : Config L) handler e : keeps_identity handler → ended_by c handler e → let_go e.
Proof.
  intros Hh [[rd He]|He].
  - pose proof (process_settle leaseDuration c handler rd (e_msg e) (e_before e)) as Hp.
    destruct (handler (handler_context rd (e_msg e)) (e_msg e)) as [m1 err] eqn:E1.
    pose proof (Hh (handler_context rd (e_msg e)) (e_msg e)) as (Hq & Hi & Ha). rewrite E1 in Hq, Hi, Ha. cbn [fst] in *.
    pose proof (verdict_ids c rd m1 err) as (Hvi & Hvq & Hva & _). destruct (verdict c rd m1 err) as [st m]. cbn [fst snd] in *.
    destruct (settle st m (srv_store (e_before e))) as [w r] eqn:E.
    change (ServerTheorems.redis_store leaseDuration) with redis_store in Hp. rewrite Hp in He.
    eapply (settle_let_go st m w r); [congruence..|exact E| |]; by rewrite He.
  - destruct (settle SRequeue (e_msg e) (srv_store (e_before e))) as [w r] eqn:E.
    assert (e_after e = match r with inl err => reportError err (with_store w (e_before e)) | inr _ => with_store w (e_before e) end) as He'.
    { rewrite He. unfold requeue_call. cbn [ts_Requeue redis_store RedisTaskStore]. change (Store.Requeue (e_msg e)) with (settle SRequeue (e_msg e)). by rewrite E. }
    eapply (settle_let_go SRequeue (e_msg e) w r); [done..|exact E| |]; rewrite He'; by destruct r.
Qed.

(** Every message that no goroutine holds any more was let go, and the errors reported about it
    still are. *)
Definition accounted (y : sys (L := L) (W := world)) : Prop :=
  Forall (λ e, let_go e ∧ reports (e_after e) (y_srv y)) (y_ended y).

Lemma ended_accounted (c : Config L) handler y : keeps_identity handler → ended_ok c handler y → accounted y.
Proof. intros Hh He. eapply Forall_impl; [exact He|]. cbn. intros e [Hb Hr]. split; [by eapply ended_let_go|done]. Qed.

(** With an error handler, a task that was not settled has left an error. *)
Lemma let_go_reported e (s : Server world) es :
  let_go e → reports (e_after e) s → srv_errors s = Some es →
  task_field (w_db (srv_store (e_after e))) (Queue (e_msg e)) (ID (e_msg e)) "attempt_id" = None ∨
  ∃ st m err, ID m = ID (e_msg e) ∧ Queue m = Queue (e_msg e) ∧ AttemptID m = AttemptID (e_msg e) ∧
    (settle st m (srv_store (e_before e))).2 = inl err ∧ err ∈ es.
Proof.
  intros [_ (st & m & r & Hq & Hi & Ha & Hs & Hr)] [more Hm] E. rewrite E in Hm. destruct r as [err|]; [right|left; apply Hr].
  exists st, m, err. rewrite Hs. split_and!; try done. destruct Hr as [_ Hr]. rewrite Hr in Hm.
  destruct (srv_errors (e_before e)) as [l|]; [|done]. cbn in Hm. injection Hm as ->. set_solver.
Qed.

(** ** The life of a server *)

Section theorems.
Context (c : Config L) (queues : list string) (handler : Handler).
Hypothesis handler_identity : keeps_identity handler.

(** C22: No claimed task is dropped. In every execution of a server on the Redis store, in
    whatever order its goroutines and its owner act and whatever the network does: a claimed
    message is in the hands of the dispatcher or of one worker, or was let go by exactly one
    settlement of its attempt, of which the store either answered that the task is now
    completed, to be retried, archived or pending and belongs to no attempt, or an error that
    was reported to the error handler and still is; the task is stored all the same, and untouched with its lease if the call
    was not sent, as when [Stop] has cancelled the context. At most [Concurrency] messages are
    being processed; and when the work is done, which is what [Shutdown] waits for, every
    claimed message was let go. Handlers do not change which attempt a message is of. *)
Theorem no_job_dropped l s y :
  rtc (sys_step c queues handler) (sys_new l s) y →
  y_claimed y ≡ₚ held y ++ (e_msg <$> y_ended y) ∧ accounted y ∧
  (length (y_workers y ≫= worker_holds) ≤ Z.to_nat (Concurrency c))%nat ∧
  (work_done y → y_claimed y ≡ₚ e_msg <$> y_ended y).
Proof.
  intros Hr. pose proof (sys_reach_inv _ _ _ _ _ _ Hr) as Hi. split_and!.
  - apply Hi.
  - apply (ended_accounted c handler); [done|by eapply sys_reach_ended].
  - by apply held_workers.
  - intros Hd. rewrite (si_conserved _ _ Hi), work_done_holds by done. done.
Qed.

(** C23: [Shutdown], [Run] and [RunSignals] keep their promise. Called at any moment on a server
    of the Redis store, with the server's goroutines acting in between in any order and any
    network, they return nil only if the server was never started, or if it is stopped, its
    context cancelled, no goroutine of it can act any more, and every task it claimed was let
    go: settled or given back in the database, or the store's error about it reported. When they
    give up at the deadline they say after which time, and the server is stopped and its context
    cancelled all the same; the only other error is that of a refused start, which changes
    nothing. *)
Theorem Shutdown_correct l s y0 k0 y1 k y2 err :
  rtc (sys_step c queues handler) (sys_new l s) y0 → k0 = SCalled ∨ k0 = SRun →
  rtc (shutdown_step c queues handler) (y0, k0) (y1, k) →
  (∀ e, k ≠ SReturned e) → shutdown_step c queues handler (y1, k) (y2, SReturned err) →
  match err with
  | None =>
      y_state y2 = stateNew ∨
      y_state y2 = stateStopped ∧ y_ctx y2 = true ∧ work_done y2 ∧ maintenance_done y2 ∧
      (∀ y', ¬ (work_step c queues handler y2 y' ∨ tick_step c queues y2 y')) ∧
      y_claimed y2 ≡ₚ e_msg <$> y_ended y2 ∧ accounted y2
  | Some e =>
      e = errors_New ("shutdown timeout after " +:+ Duration_String (ShutdownTimeout c)) ∧
        y_state y2 = stateStopped ∧ y_ctx y2 = true ∨
      k = SRun ∧ y2 = y1 ∧ ∃ ready, Start c ready y1 = (y1, Some e)
  end.
Proof.
  intros Hr Hk0 Hc Hk Hs. assert (returned c queues handler y1 k y2 err) as Hret.
  { apply shutdown_returns; [|done..]. eapply shutdown_steps_inv; [exact Hc|].
    split; [by eapply sys_reach_inv|]. split; [by eapply sys_reach_ended|by destruct Hk0; subst]. }
  destruct err as [e|]; [exact Hret|]. destruct Hret as [?|(? & ? & ? & ? & ? & ? & ?)]; [by left|right].
  split_and!; try done. by apply (ended_accounted c handler).
Qed.
End theorems.
End release.

(** ** A run *)

(** A server with one worker claims two tasks; the worker has taken the first and the dispatcher
    offers the second when the server is stopped: the second is given back, the first is
    processed, and everything returns. *)
Section run.
Context {W : Type} `{TaskStore W} (c : Config unit) (q : string) (handler : Handler).
Context (s0 s1 s2 : Server W) (m1 m2 : TaskMessage) (t1 t2 : Time) (rd1 rd2 : string → readings) (prd : process_readings).
Hypothesis accepted : validate c = None.
Hypothesis one_worker : Concurrency c = 1.
Hypothesis turn1 : dispatch_iteration c [q] t1 rd1 tt s0 = (tt, s1, DispatchJob m1).
Hypothesis turn2 : dispatch_iteration c [q] t2 rd2 tt s1 = (tt, s2, DispatchJob m2).

Definition run_s3 : Server W := requeue_call m2 s2.
Definition run_s4 : Server W := (trackActive m1 run_s3).1.
Definition run_s5 : Server W := untrackActive (activeKey m1) (process c handler prd m1 run_s4).

Definition run_offering : sys (L := unit) (W := W) :=
  mkSys stateRunning false false false (DOffer m2) [WTaken m1] 3 false tt s2 [m2; m1] [].
Definition run_stopped : sys (L := unit) (W := W) :=
  mkSys stateStopped true false true (DOffer m2) [WTaken m1] 3 false tt s2 [m2; m1] [].
Definition run_done (ctx : bool) (n : nat) : sys (L := unit) (W := W) :=
  mkSys stateStopped true ctx true DDone [WExited] n false tt run_s5 [m2; m1] [mkEnding m1 run_s4 run_s5; mkEnding m2 s2 run_s3].

Definition run_started : sys (L := unit) (W := W) := mkSys stateRunning false false false DTop [WIdle] 3 false tt s0 [] [].

Lemma run_start : Start c true (sys_new tt s0) = (run_started, None).
Proof. rewrite Start_new by done. by rewrite one_worker. Qed.

Lemma run_claims : rtc (sys_step c [q] handler) run_started run_offering.
Proof.
  eapply rtc_l; [right; left; by apply step_check_go|].
  eapply rtc_l; [right; left; by apply (step_turn_claim c [q] handler _ t1 rd1 tt s1 m1)|].
  eapply rtc_l; [right; left; by apply (step_hand_over c [q] handler _ 0)|].
  eapply rtc_l; [right; left; by apply step_check_go|].
  eapply rtc_l; [right; left; by apply (step_turn_claim c [q] handler _ t2 rd2 tt s2 m2)|]. apply rtc_refl.
Qed.

Lemma run_drains : rtc (work_step c [q] handler) run_stopped (run_done false 3).
Proof.
  eapply rtc_l; [by apply step_offer_stop|]. eapply rtc_l; [by apply (step_track c [q] handler _ 0 m1)|].
  eapply rtc_l; [by apply (step_process c [q] handler _ 0 m1 prd)|].
  eapply rtc_l; [by apply (step_worker_exit c [q] handler _ 0)|]. apply rtc_refl.
Qed.

Lemma run_reach : rtc (sys_step c [q] handler) (sys_new tt s0) (run_done false 3).
Proof.
  eapply rtc_l; [left; apply step_start, run_start|]. etrans; [apply run_claims|].
  eapply (rtc_l _ _ run_stopped); [left; by apply step_request_stop|].
  apply (rtc_subrel (work_step c [q] handler)); [|apply run_drains]. intros y y' Hs. right. by left.
Qed.

Lemma run_shutdown :
  rtc (shutdown_step c [q] handler) (run_offering, SCalled)
    (run_done true 0, SWaitMaintenance (Add t2 (ShutdownTimeout c)) t2).
Proof.
  eapply (rtc_l _ _ (run_stopped, SWaitWork (Add t2 (ShutdownTimeout c)) t2)).
  { exact (shut_request c [q] handler run_offering t2 t2 ltac:(discriminate)). }
  etrans; [apply (rtc_congruence (R := work_step c [q] handler) (λ y, (y, SWaitWork (Add t2 (ShutdownTimeout c)) t2))); [|apply run_drains]|].
  { intros y y' Hs. apply shut_server. right. by left. }
  eapply rtc_l; [eapply (shut_work_done _ _ _ _ _ _ t2 t2), wait_done; split; [reflexivity|repeat constructor]|].
  do 3 (eapply rtc_l; [apply shut_server; right; left; apply step_maintenance_exit; [apply Nat.lt_0_succ|reflexivity]|]).
  apply rtc_refl.
Qed.
End run.

(** ** Witnesses *)

#[local] Instance demo_store : TaskStore (world (H := RedisMem)) := RedisTaskStore (H := RedisMem) Second.

(** Tasks "a" and "b" are pending. *)
Definition two_history : list (string * request) :=
  [("emails", RqEnqueue (sample "a" 0 Second) (enc (sample "a" 0 Second)));
   ("emails", RqEnqueue (sample "b" 0 (2 * Second)) (enc (sample "b" 0 (2 * Second))))].
Definition two_server : Server (world (H := RedisMem)) :=
  mkServer (World (H := RedisMem) (mem_run two_history) []) (Some NewMetrics) (Some []) ∅.

Definition two_readings (byte : Byte.byte) (_ : string) : readings := mkReadings (3 * Second) (inr [byte]).
Definition two_turn (byte : Byte.byte) (s : Server (world (H := RedisMem))) : unit * Server world * dispatch_next :=
  dispatch_iteration demo_config ["emails"] (3 * Second) (two_readings byte) tt s.
Definition job_of (n : dispatch_next) : TaskMessage := match n with DispatchJob m => m | _ => zeroMessage end.
Definition two_1 : Server (world (H := RedisMem)) := (two_turn Byte.x01 two_server).1.2.
Definition two_2 : Server (world (H := RedisMem)) := (two_turn Byte.x02 two_1).1.2.
Definition two_a : TaskMessage := job_of (two_turn Byte.x01 two_server).2.
Definition two_b : TaskMessage := job_of (two_turn Byte.x02 two_1).2.

Lemma turn_job {S} (t : unit * S * dispatch_next) :
  match t.2 with DispatchJob _ => True | _ => False end → t = (tt, t.1.2, DispatchJob (job_of t.2)).
Proof. by destruct t as [[[] s] []]. Qed.

Lemma two_turn_a : two_turn Byte.x01 two_server = (tt, two_1, DispatchJob two_a).
Proof. apply turn_job. vm_compute. exact I. Qed.
Lemma two_turn_b : two_turn Byte.x02 two_1 = (tt, two_2, DispatchJob two_b).
Proof. apply turn_job. vm_compute. exact I. Qed.

Lemma demo_identity : keeps_identity demo_handler.
Proof. done. Qed.

Definition two_done : bool → nat → sys := run_done demo_config demo_handler two_2 two_a two_b test_readings.

(** What the run leaves: "a" is completed, "b" is pending, no error was reported. *)
Example two_outcome :
  let d := w_db (srv_store (y_srv (two_done true 0))) in
  task_field d "emails" "a" "state" = Some StateCompleted ∧ task_field d "emails" "b" "state" = Some StatePending ∧
  srv_errors (y_srv (two_done true 0)) = Some [].
Proof. vm_compute. done. Qed.

Lemma no_job_dropped_witness :
  length (y_claimed (two_done false 3)) = 2%nat ∧ accounted (two_done false 3) ∧
  y_claimed (two_done false 3) ≡ₚ e_msg <$> y_ended (two_done false 3).
Proof.
  destruct (no_job_dropped (H := RedisMem) Second demo_config ["emails"] demo_handler demo_identity tt two_server (two_done false 3))
    as (_ & Hl & _ & Hd).
  - exact (run_reach demo_config "emails" demo_handler two_server two_1 two_2 two_a two_b (3 * Second) (3 * Second) (two_readings Byte.x01)
      (two_readings Byte.x02) test_readings demo_valid eq_refl
      two_turn_a two_turn_b).
  - split; [exact eq_refl|]. split; [exact Hl|]. apply Hd. split; [exact eq_refl|repeat constructor].
Defined.

Lemma Shutdown_correct_witness :
  length (y_claimed (two_done true 0)) = 2%nat ∧ maintenance_done (two_done true 0) ∧ accounted (two_done true 0).
Proof.
  split; [exact eq_refl|].
  destruct (Shutdown_correct (H := RedisMem) Second demo_config ["emails"] demo_handler demo_identity tt two_server
    (run_offering two_2 two_a two_b) SCalled (two_done true 0)
    (SWaitMaintenance (Add (3 * Second) (ShutdownTimeout demo_config)) (3 * Second)) (two_done true 0) None) as [Hn|Hd].
  - eapply rtc_l; [left; apply step_start; exact (run_start demo_config two_server demo_valid eq_refl)|].
    exact (run_claims demo_config "emails" demo_handler two_server two_1 two_2 two_a two_b (3 * Second) (3 * Second)
      (two_readings Byte.x01) (two_readings Byte.x02) two_turn_a two_turn_b).
  - by left.
  - exact (run_shutdown demo_config "emails" demo_handler two_2 two_a two_b (3 * Second) test_readings).
  - intros e He. discriminate He.
  - apply (shut_maintenance_done _ _ _ _ _ _ 0), wait_done. exact eq_refl.
  - discriminate Hn.
  - destruct Hd as (_ & _ & _ & Hm & _ & _ & Hl). split; [exact Hm|exact Hl].
Defined.
