(* ===== verification/Heap.v ===== *)
(** * [container/heap]

    The binary heap of Go's standard library, over the operations of [heap.Interface] as a
    class, with the laws that let it sort: what [Push] and [Pop] do to the elements. *)

From S2P Require Import Prelude.

(** [heap.Interface] without [Push] and [Pop], which append and remove the last element. *)
Class HeapOps (St : Type) := { Len : St → nat; Less : nat → nat → St → bool; Swap : nat → nat → St → St }.

Section ops.
Context {St : Type} `{HeapOps St}.

Definition parent (j : nat) : nat := (j - 1) / 2.

(** The loops of [up] and [down]; [fuel] bounds their iterations. *)
Fixpoint up_loop (fuel j : nat) (s : St) : St :=
  match fuel with
  | O => s
  | S fuel =>
      let i := parent j in
      if (Nat.eqb i j || negb (Less j i s))%bool then s else up_loop fuel i (Swap i j s)
  end.
Definition heap_up (j : nat) (s : St) : St := up_loop (S j) j s.

Definition smaller_child (i n : nat) (s : St) : nat :=
  let j1 := (2 * i + 1)%nat in
  let j2 := (j1 + 1)%nat in
  if (Nat.ltb j2 n && Less j2 j1 s)%bool then j2 else j1.

Fixpoint down_loop (fuel i n : nat) (s : St) : St :=
  match fuel with
  | O => s
  | S fuel =>
      if Nat.leb n (2 * i + 1) then s
      else
        let j := smaller_child i n s in
        if negb (Less j i s) then s else down_loop fuel j n (Swap i j s)
  end.
Definition heap_down (i n : nat) (s : St) : St := down_loop (S n) i n s.
End ops.

(** ** Arrays *)

Section arrays.
Context {A : Type}.
Implicit Types l : list A.

Definition array_swap (i j : nat) l : list A :=
  match l !! i, l !! j with
  | Some a, Some b => <[i := b]> (<[j := a]> l)
  | _, _ => l
  end.

Lemma lookup_array_swap i j k l :
  (i < length l)%nat → (j < length l)%nat →
  array_swap i j l !! k = if decide (k = i) then l !! j else if decide (k = j) then l !! i else l !! k.
Proof.
  intros [a Ha]%lookup_lt_is_Some_2 [b Hb]%lookup_lt_is_Some_2. unfold array_swap. rewrite Ha, Hb.
  repeat case_decide; subst.
  - rewrite list_lookup_insert_eq by (rewrite length_insert; by eapply lookup_lt_Some). done.
  - rewrite list_lookup_insert_ne by done. apply list_lookup_insert_eq. by eapply lookup_lt_Some.
  - by rewrite !list_lookup_insert_ne by done.
Qed.

Lemma length_array_swap i j l : length (array_swap i j l) = length l.
Proof. unfold array_swap. repeat case_match; by rewrite ?length_insert. Qed.

Lemma array_swap_perm i j l :
  (i < length l)%nat → (j < length l)%nat → array_swap i j l ≡ₚ l.
Proof.
  intros Hi Hj. apply Permutation_inj. split; [apply length_array_swap|].
  exists (λ k, if decide (k = i) then j else if decide (k = j) then i else k). split.
  - intros k k'. repeat case_decide; congruence.
  - intros k. rewrite lookup_array_swap by done. by repeat case_decide.
Qed.
End arrays.

(** ** Laws *)

(** The elements [view s], ordered by the strict weak order [less]; [Swap] exchanges two. *)
Class HeapLaws (St A : Type) `{HeapOps St} := {
  view : St → list A;
  less : A → A → bool;
  less_irrefl a : less a a = false;
  less_trans a b c : less b a = false → less c b = false → less c a = false;
  less_asym a b : less a b = true → less b a = false;
  Len_view s : Len s = length (view s);
  Less_view i j s a b : view s !! i = Some a → view s !! j = Some b → Less i j s = less a b;
  Swap_view i j s : (i < Len s)%nat → (j < Len s)%nat → view (Swap i j s) = array_swap i j (view s)
}.

Lemma parent_spec k i : (0 < k)%nat → parent k = i ↔ (k = 2 * i + 1 ∨ k = 2 * i + 2)%nat.
Proof.
  intros Hk. unfold parent. pose proof (Nat.div_mod_eq (k - 1) 2).
  pose proof (Nat.mod_upper_bound (k - 1) 2). lia.
Qed.

Lemma parent_0 : parent 0 = 0%nat.
Proof. done. Qed.

Lemma parent_lt k : (0 < k)%nat → (parent k < k)%nat.
Proof. intros Hk. pose proof (proj1 (parent_spec k (parent k) Hk) eq_refl). lia. Qed.

Section laws.
Context {St A : Type} `{HeapLaws St A}.
Implicit Types (s : St) (l : list A).

(** The element at [k] is not smaller than the one at [i]. *)
Definition not_before l (k i : nat) : Prop :=
  ∀ a b, l !! k = Some a → l !! i = Some b → less a b = false.

(** The first [n] elements form a heap. *)
Definition is_heap (n : nat) l : Prop := ∀ k, (0 < k < n)%nat → not_before l k (parent k).

Lemma is_heap_root n l k : is_heap n l → (k < n)%nat → (n ≤ length l)%nat → not_before l k 0.
Proof.
  intros Hh. induction (lt_wf k) as [k _ IH]. intros Hk Hn.
  destruct (decide (k = 0%nat)) as [->|Hne].
  - intros a b Ha Hb. simplify_eq. apply less_irrefl.
  - intros a c Ha Hc. assert (parent k < k)%nat by (apply parent_lt; lia).
    destruct (lookup_lt_is_Some_2 l (parent k)) as [b Hb]; [lia|].
    apply (less_trans c b a); [|by apply (Hh k ltac:(lia) a b)].
    by apply (IH (parent k)); try lia.
Qed.

Definition transp (i j k : nat) : nat := if decide (k = i) then j else if decide (k = j) then i else k.

Lemma not_before_swap i j l k m :
  (i < length l)%nat → (j < length l)%nat →
  not_before l (transp i j k) (transp i j m) → not_before (array_swap i j l) k m.
Proof.
  intros Hi Hj Hn a b. rewrite !lookup_array_swap by done. unfold transp in Hn.
  intros Ha Hb. apply Hn; by repeat case_decide.
Qed.

Lemma not_before_trans l k m p :
  (m < length l)%nat → not_before l k m → not_before l m p → not_before l k p.
Proof.
  intros [b Hb]%lookup_lt_is_Some_2 H1 H2 c a Hc Ha.
  apply (less_trans a b c); [by apply H2|by apply H1].
Qed.

Lemma not_before_asym l k m a b :
  l !! k = Some a → l !! m = Some b → less a b = true → not_before l m k.
Proof. intros Ha Hb Hl ? ? ? ?. simplify_eq. by apply less_asym. Qed.

(** The answer of [Less] at two positions. *)
Lemma Less_cases i j s :
  (i < Len s)%nat → (j < Len s)%nat →
  (Less i j s = true ∧ not_before (view s) j i) ∨ (Less i j s = false ∧ not_before (view s) i j).
Proof.
  rewrite Len_view. intros [a Ha]%lookup_lt_is_Some_2 [b Hb]%lookup_lt_is_Some_2.
  rewrite (Less_view i j s a b) by done. destruct (less a b) eqn:E; [left|right]; (split; [done|]).
  - by eapply not_before_asym.
  - intros ? ? ? ?. by simplify_eq.
Qed.

Lemma Swap_Len i j s : (i < Len s)%nat → (j < Len s)%nat → Len (Swap i j s) = Len s.
Proof. intros Hi Hj. by rewrite !Len_view, Swap_view, length_array_swap. Qed.

(** Compute the positions of a swapped array. *)
Ltac transp_simpl :=
  unfold transp in *; repeat case_decide; try done; try congruence; try lia; try (exfalso; lia).

(** A heap but for the element at [j], which may be smaller than its parent. *)
Definition heap_above (j : nat) l : Prop :=
  (∀ k, (0 < k < length l)%nat → k ≠ j → not_before l k (parent k)) ∧
  (∀ k, (0 < k < length l)%nat → (0 < j)%nat → parent k = j → not_before l k (parent j)).

Lemma heap_above_swap i j l :
  parent j = i → (0 < j < length l)%nat → heap_above j l → not_before l i j →
  heap_above i (array_swap i j l).
Proof.
  intros Hpj Hj [H1 H2] Hle. pose proof (parent_lt j ltac:(lia)) as Hi. rewrite Hpj in *. split; rewrite length_array_swap; intros k Hk.
  - intros Hki. pose proof (parent_lt k ltac:(lia)). apply not_before_swap; [lia..|].
    destruct (decide (k = j)) as [->|Hkj]; [rewrite Hpj; transp_simpl|].
    destruct (decide (parent k = j)) as [Hp|Hp].
    { rewrite Hp. specialize (H2 k Hk ltac:(lia) Hp). transp_simpl. }
    specialize (H1 k Hk Hkj). destruct (decide (parent k = i)) as [Hq|Hq].
    + rewrite Hq in *. pose proof (not_before_trans l k i j ltac:(lia) H1 Hle). transp_simpl.
    + transp_simpl.
  - intros Hi0 Hp. pose proof (parent_lt i Hi0). apply not_before_swap; [lia..|].
    assert (not_before l i (parent i)) as Hii by (apply H1; lia).
    destruct (decide (k = j)) as [->|Hkj]; [transp_simpl|].
    specialize (H1 k Hk Hkj). rewrite Hp in H1. pose proof (parent_lt k ltac:(lia)).
    pose proof (not_before_trans l k i (parent i) ltac:(lia) H1 Hii). transp_simpl.
Qed.

Lemma up_loop_heap fuel j s :
  (j < fuel)%nat → (j < Len s)%nat → heap_above j (view s) → is_heap (Len s) (view (up_loop fuel j s)).
Proof.
  revert j s. induction fuel as [|fuel IH]; intros j s Hf Hj Ha; [lia|]. cbn [up_loop].
  destruct (Nat.eqb_spec (parent j) j) as [He|He]; cbn [orb].
  { assert (j = 0%nat) as -> by (destruct j as [|j]; [done|]; pose proof (parent_lt (S j)); lia).
    rewrite Len_view in *. intros k Hk. apply Ha; lia. }
  assert (0 < j)%nat as Hj0 by (destruct j; [done|lia]). pose proof (parent_lt j Hj0).
  destruct (Less_cases j (parent j) s) as [[-> Hle]|[-> Hle]]; [lia..| |]; cbn [negb].
  - rewrite <-(Swap_Len (parent j) j s) by lia. apply IH; [lia|rewrite Swap_Len; lia|].
    rewrite Swap_view by lia. rewrite Len_view in *. by apply heap_above_swap.
  - rewrite Len_view in *. intros k Hk. destruct (decide (k = j)) as [->|]; [done|]. by apply Ha.
Qed.

(** A heap of [n] elements but for the one at [i], which may be greater than its children. *)
Definition heap_below (i n : nat) l : Prop :=
  (∀ k, (0 < k < n)%nat → parent k ≠ i → not_before l k (parent k)) ∧
  (∀ k, (0 < k < n)%nat → (0 < i)%nat → parent k = i → not_before l k (parent i)).

Lemma heap_below_swap i j n l :
  (j < n)%nat → (n ≤ length l)%nat → (0 < j)%nat → parent j = i → heap_below i n l →
  not_before l i j → (∀ k, (0 < k < n)%nat → parent k = i → not_before l k j) →
  heap_below j n (array_swap i j l).
Proof.
  intros Hj Hn Hj0 Hp [H1 H2] Hij Hch. pose proof (parent_lt j Hj0).
  split; intros k Hk; pose proof (parent_lt k ltac:(lia)).
  - intros Hpk. apply not_before_swap; [lia..|].
    destruct (decide (parent k = i)) as [Hq|Hq].
    { specialize (Hch k Hk Hq). rewrite Hq. transp_simpl. }
    specialize (H1 k Hk Hq). destruct (decide (k = i)) as [->|]; [|transp_simpl].
    specialize (H2 j ltac:(lia) ltac:(lia) Hp). transp_simpl.
  - intros _ Hpk. apply not_before_swap; [lia..|]. rewrite Hp.
    specialize (H1 k Hk ltac:(lia)). rewrite Hpk in H1. transp_simpl.
Qed.

Lemma smaller_child_spec i n s :
  (2 * i + 1 < n)%nat → (n ≤ Len s)%nat →
  let j := smaller_child i n s in
  (j < n)%nat ∧ (0 < j)%nat ∧ parent j = i ∧
  ∀ k, (0 < k < n)%nat → parent k = i → not_before (view s) k j.
Proof.
  intros Hi Hn. cbn zeta. unfold smaller_child.
  assert (∀ k, not_before (view s) k k) as Hrefl.
  { intros k a b Ha Hb. simplify_eq. apply less_irrefl. }
  destruct (Nat.ltb_spec (2 * i + 1 + 1) n) as [Hlt|Hge]; cbn [andb].
  - destruct (Less_cases (2 * i + 1 + 1) (2 * i + 1) s) as [[-> Hle]|[-> Hle]]; [lia..| |];
      (split_and!; [lia|lia|apply parent_spec; lia|]); intros k Hk [->| ->]%parent_spec; try lia; try done.
    + by replace (2 * i + 2)%nat with (2 * i + 1 + 1)%nat by lia.
    + by replace (2 * i + 2)%nat with (2 * i + 1 + 1)%nat by lia.
  - split_and!; [lia|lia|apply parent_spec; lia|]. intros k Hk [->| ->]%parent_spec; try lia. done.
Qed.

Lemma down_loop_heap fuel i n s :
  (n ≤ fuel + i)%nat → (n ≤ Len s)%nat → heap_below i n (view s) →
  is_heap n (view (down_loop fuel i n s)).
Proof.
  assert (∀ s i, (n ≤ 2 * i + 1)%nat → heap_below i n (view s) → is_heap n (view s)) as Hleaf.
  { intros s' i' Hle [H1 _] k Hk. apply H1; [done|]. intros [? | ?]%parent_spec; lia. }
  revert i s. induction fuel as [|fuel IH]; intros i s Hf Hn Hb; cbn [down_loop].
  { apply (Hleaf s i); [lia|done]. }
  destruct (Nat.leb_spec n (2 * i + 1)) as [Hle|Hgt]; [by apply (Hleaf s i)|].
  destruct (smaller_child_spec i n s Hgt Hn) as (Hj & Hj0 & Hp & Hch).
  set (j := smaller_child i n s) in *. pose proof (parent_lt j Hj0).
  destruct (Less_cases j i s) as [[-> Hle]|[-> Hle]]; [lia..| |]; cbn [negb].
  - apply IH; [lia|rewrite Swap_Len; lia|]. rewrite Swap_view by lia. rewrite Len_view in *.
    by apply heap_below_swap.
  - intros k Hk. destruct (decide (parent k = i)) as [Hq|Hq]; [|by apply Hb].
    rewrite Hq. apply (not_before_trans _ _ j); [rewrite Len_view in Hn; lia|by apply Hch|done].
Qed.

(** ** What the loops keep *)

Section keep.
Context (P : St → Prop) (HP : ∀ i j s, (i < Len s)%nat → (j < Len s)%nat → i ≠ j → P s → P (Swap i j s)).

Lemma up_loop_keeps fuel j s : (j < Len s)%nat → P s → P (up_loop fuel j s).
Proof.
  revert j s. induction fuel as [|fuel IH]; intros j s Hj Hs; cbn [up_loop]; [done|].
  destruct (Nat.eqb_spec (parent j) j) as [|Hne]; [done|]. cbn [orb]. case_match; [done|].
  assert (parent j < j)%nat by (apply parent_lt; destruct j; [done|lia]).
  apply IH; [rewrite Swap_Len; lia|apply HP; lia || done].
Qed.

Lemma down_loop_keeps fuel i n s : (n ≤ Len s)%nat → P s → P (down_loop fuel i n s).
Proof.
  revert i s. induction fuel as [|fuel IH]; intros i s Hn Hs; cbn [down_loop]; [done|].
  destruct (Nat.leb_spec n (2 * i + 1)); [done|]. case_match; [done|].
  destruct (smaller_child_spec i n s) as (Hj & Hj0 & Hp & _); [done..|].
  pose proof (parent_lt _ Hj0). apply IH; [rewrite Swap_Len; lia|apply HP; lia || done].
Qed.
End keep.

Lemma up_loop_perm fuel j s : (j < Len s)%nat → view (up_loop fuel j s) ≡ₚ view s.
Proof.
  intros Hj. apply (up_loop_keeps (λ s', view s' ≡ₚ view s)); [|done..].
  intros i k s' Hi Hk _ <-. rewrite Len_view in *. rewrite Swap_view by (by rewrite Len_view).
  by apply array_swap_perm.
Qed.

Lemma down_loop_perm fuel i n s : (n ≤ Len s)%nat → view (down_loop fuel i n s) ≡ₚ view s.
Proof.
  intros Hn. apply (down_loop_keeps (λ s', view s' ≡ₚ view s)); [|done..].
  intros j k s' Hi Hk _ <-. rewrite Len_view in *. rewrite Swap_view by (by rewrite Len_view).
  by apply array_swap_perm.
Qed.

(** [down] of the first [n] elements does not touch the others. *)
Lemma down_loop_above fuel i n s m :
  (n ≤ Len s)%nat → (n ≤ m)%nat → view (down_loop fuel i n s) !! m = view s !! m.
Proof.
  revert i s. induction fuel as [|fuel IH]; intros i s Hn Hm; cbn [down_loop]; [done|].
  destruct (Nat.leb_spec n (2 * i + 1)); [done|]. case_match; [done|].
  destruct (smaller_child_spec i n s) as (Hj & Hj0 & Hp & _); [done..|].
  pose proof (parent_lt _ Hj0). rewrite IH by (rewrite ?Swap_Len; lia).
  rewrite Swap_view by lia. rewrite Len_view in *. rewrite lookup_array_swap by lia.
  repeat case_decide; done || lia.
Qed.
End laws.
