(* ===== verification/Timer.v ===== *)
(** * The local timer ([internal/timer/timer.go])

    Events are shared between the heap and the cancellation functions, so a pointer to an
    event is its place in a memory; the heap holds pointers and keeps the [index] of each
    event up to date. [Run] is a transition system: its critical sections interleave with
    [Schedule], cancellations, signals and the passing of time. *)

From S2P Require Import Prelude GoLib Heap.

Definition wrap_u64 (z : Z) : Z := z mod 2 ^ 64.

(** ** [time.Timer] *)

(** A timer is armed, and a value may wait in its channel, which it sends when it fires. *)
Record go_timer := mkGoTimer { gt_armed : bool; gt_fired : bool }.

(** [Stop] answers whether it disarmed the timer; newer versions of Go also empty the channel. *)
Definition timer_Stop (empties : bool) (t : go_timer) : go_timer * bool :=
  (mkGoTimer false (gt_fired t && negb empties), gt_armed t).

Definition stopTimer (empties : bool) (t : go_timer) : go_timer :=
  let '(t, stopped) := timer_Stop empties t in
  if negb stopped then mkGoTimer (gt_armed t) false else t.

(** A stopped timer neither fires nor has fired, whether or not it fired just before. *)
Lemma stopTimer_quiet empties t :
  (gt_armed t = true → gt_fired t = false) → stopTimer empties t = mkGoTimer false false.
Proof. destruct t as [[] []], empties; try done; intros E; by specialize (E eq_refl). Qed.

Section timer.
(** What a callback is. *)
Context {C : Type}.

Record event := mkEvent {
  at_ : Time; callback : option C; cancelled : bool; index : Z; sequence : Z
}.

(** [memory] holds the events ever made, [events] is the heap of pointers into it; [wake] says
    that the wake channel, of capacity one, is full. *)
Record TimeWheel := mkWheel {
  memory : list event; events : list nat; wake : bool; w_sequence : Z
}.

Definition wheel_New : TimeWheel := mkWheel [] [] false 0.

Definition deref (w : TimeWheel) (p : nat) : event :=
  default (mkEvent 0 None false (-1) 0) (memory w !! p).

Definition set_index (i : Z) (e : event) : event :=
  mkEvent (at_ e) (callback e) (cancelled e) i (sequence e).
Definition set_cancelled (e : event) : event :=
  mkEvent (at_ e) (callback e) true (index e) (sequence e).
Definition update (f : event → event) (p : nat) (w : TimeWheel) : TimeWheel :=
  mkWheel (alter f p (memory w)) (events w) (wake w) (w_sequence w).

(** ** [eventHeap] *)

Definition event_less (a b : event) : bool :=
  if at_ a =? at_ b then sequence a <? sequence b else at_ a <? at_ b.

Definition events_Less (i j : nat) (w : TimeWheel) : bool :=
  match events w !! i, events w !! j with
  | Some p, Some q => event_less (deref w p) (deref w q)
  | _, _ => false
  end.

Definition index_at (i : nat) (w : TimeWheel) : TimeWheel :=
  match events w !! i with
  | Some p => update (set_index (Z.of_nat i)) p w
  | None => w
  end.

Definition events_Swap (i j : nat) (w : TimeWheel) : TimeWheel :=
  index_at j (index_at i (mkWheel (memory w) (array_swap i j (events w)) (wake w) (w_sequence w))).

#[export] Instance events_HeapOps : HeapOps TimeWheel :=
  {| Len w := length (events w); Less := events_Less; Swap := events_Swap |}.

Definition events_Push (p : nat) (w : TimeWheel) : TimeWheel :=
  let w := update (set_index (Z.of_nat (length (events w)))) p w in
  mkWheel (memory w) (events w ++ [p]) (wake w) (w_sequence w).

Definition events_Pop (w : TimeWheel) : option (TimeWheel * nat) :=
  match last (events w) with
  | None => None
  | Some p =>
      let w := update (set_index (-1)) p w in
      Some (mkWheel (memory w) (take (length (events w) - 1) (events w)) (wake w) (w_sequence w), p)
  end.

(** [heap.Push] and [heap.Pop] ([None]: the index panic on an empty heap). *)
Definition heap_Push (p : nat) (w : TimeWheel) : TimeWheel :=
  let w := events_Push p w in heap_up (Len w - 1) w.

Definition heap_Pop (w : TimeWheel) : option (TimeWheel * nat) :=
  let n := (Len w - 1)%nat in
  events_Pop (heap_down 0 n (Swap 0 n w)).

(** ** [TimeWheel] *)

(** [Schedule], to the end of its critical section; the pointer is what the returned
    function closes over. *)
Definition Schedule (at' : Time) (cb : option C) (w : TimeWheel) : TimeWheel * nat :=
  let seq := wrap_u64 (w_sequence w + 1) in
  let p := length (memory w) in
  let w := mkWheel (memory w ++ [mkEvent at' cb false (-1) seq]) (events w) (wake w) seq in
  (heap_Push p w, p).

(** The returned function, to the end of its critical section. *)
Definition cancel_event (p : nat) (w : TimeWheel) : TimeWheel :=
  if 0 <=? index (deref w p) then update set_cancelled p w else w.

Definition signal (w : TimeWheel) : TimeWheel := mkWheel (memory w) (events w) true (w_sequence w).
Definition unsignal (w : TimeWheel) : TimeWheel := mkWheel (memory w) (events w) false (w_sequence w).

(** The loop of [Run] that drops cancelled events at the top. *)
Fixpoint prune (fuel : nat) (w : TimeWheel) : TimeWheel :=
  match fuel with
  | O => w
  | S fuel =>
      match events w with
      | [] => w
      | p :: _ =>
          if cancelled (deref w p)
          then match heap_Pop w with Some (w, _) => prune fuel w | None => w end
          else w
      end
  end.

(** ** [Run] *)

(** Where [Run] is: about to lock, waiting on an empty heap, waiting with a timer made at
    [start] for [wait], or returned. *)
Inductive runner := RTop | RWaitWake | RWaitTimer (p : nat) (start : Time) (wait : Duration) | RDone.

(** [t_signals] counts the calls of [Schedule] and of cancellations that left their
    critical section and have not signalled; [t_log] is the list of callbacks run, with
    their times, latest first. *)
Record tsys := mkTsys {
  t_now : Time; t_wheel : TimeWheel; t_runner : runner; t_signals : nat; t_log : list (nat * Time)
}.

Definition tsys_new (now : Time) : tsys := mkTsys now wheel_New RTop 0 [].

(** The first critical section of the loop. *)
Definition run_top (now : Time) (w : TimeWheel) : TimeWheel * runner :=
  let w := prune (Len w) w in
  match events w with
  | [] => (w, RWaitWake)
  | next :: _ => (w, RWaitTimer next now (Z.max 0 (Sub (at_ (deref w next)) now)))
  end.

(** The timer branch: the event popped, whose callback runs if [Some]. *)
Definition run_fire (w : TimeWheel) : TimeWheel * option nat :=
  match events w with
  | [] => (w, None)
  | _ =>
      match heap_Pop w with
      | None => (w, None)
      | Some (w, p) =>
          let e := deref w p in
          (w, if (negb (cancelled e) && match callback e with Some _ => true | None => false end)%bool
              then Some p else None)
      end
  end.

Definition log_run (now : Time) (p : option nat) (l : list (nat * Time)) : list (nat * Time) :=
  match p with Some p => (p, now) :: l | None => l end.

(** The steps of [Run]. *)
Inductive run_step : tsys → tsys → Prop :=
| run_lock now w w' r k lg :
    run_top now w = (w', r) → run_step (mkTsys now w RTop k lg) (mkTsys now w' r k lg)
| run_woken now w r k lg :
    wake w = true → r ≠ RTop → r ≠ RDone →
    run_step (mkTsys now w r k lg) (mkTsys now (unsignal w) RTop k lg)
| run_timer now w w' p start wait q k lg :
    start + wait ≤ now → run_fire w = (w', q) →
    run_step (mkTsys now w (RWaitTimer p start wait) k lg) (mkTsys now w' RTop k (log_run now q lg)).

(** What happens around it. *)
Inductive around_step : tsys → tsys → Prop :=
| around_time now now' w r k lg : now ≤ now' → around_step (mkTsys now w r k lg) (mkTsys now' w r k lg)
| around_schedule now w w' p at' cb r k lg :
    Schedule at' cb w = (w', p) → around_step (mkTsys now w r k lg) (mkTsys now w' r (S k) lg)
| around_cancel now w p r k lg :
    (p < length (memory w))%nat →
    around_step (mkTsys now w r k lg) (mkTsys now (cancel_event p w) r (S k) lg)
| around_signal now w r k lg :
    around_step (mkTsys now w r (S k) lg) (mkTsys now (signal w) r k lg)
| around_Wake now w r k lg : around_step (mkTsys now w r k lg) (mkTsys now (signal w) r k lg)
| around_done now w r k lg : r ≠ RTop → around_step (mkTsys now w r k lg) (mkTsys now w RDone k lg).

Definition timer_step (y y' : tsys) : Prop := run_step y y' ∨ around_step y y'.

(** ** The heap of events *)

(** The element the heap orders: pointer, time, sequence number. *)
Definition elem (w : TimeWheel) (p : nat) : nat * Time * Z := (p, at_ (deref w p), sequence (deref w p)).
Definition elem_less (a b : nat * Time * Z) : bool :=
  if a.1.2 =? b.1.2 then a.2 <? b.2 else a.1.2 <? b.1.2.

(** The two wheels have the same events but for their indices. *)
Definition same_events (w w' : TimeWheel) : Prop :=
  set_index 0 <$> memory w' = set_index 0 <$> memory w ∧
  wake w' = wake w ∧ w_sequence w' = w_sequence w.

#[export] Instance same_events_equiv : Equivalence same_events.
Proof.
  split.
  - by intros w.
  - intros w w' (H1 & H2 & H3). split_and!; auto.
  - intros w w' w'' (H1 & H2 & H3) (H4 & H5 & H6). split_and!; try congruence.
Qed.

Lemma same_events_lookup w w' p :
  same_events w w' → set_index 0 <$> memory w' !! p = set_index 0 <$> memory w !! p.
Proof. intros [Hm _]. by rewrite <-!list_lookup_fmap, Hm. Qed.

Lemma same_events_deref w w' p : same_events w w' → set_index 0 (deref w' p) = set_index 0 (deref w p).
Proof.
  intros Hm%(same_events_lookup _ _ p). unfold deref.
  destruct (memory w !! p), (memory w' !! p); cbn in *; congruence.
Qed.

Lemma same_events_elem w w' p : same_events w w' → elem w' p = elem w p.
Proof. intros Hs%(same_events_deref _ _ p). unfold elem. injection Hs as E1 _ _ E4. by rewrite E1, E4. Qed.

Lemma same_events_length w w' : same_events w w' → length (memory w') = length (memory w).
Proof. intros [Hm _]. by rewrite <-(length_fmap (set_index 0)), Hm, length_fmap. Qed.

Lemma same_events_update i p w : same_events w (update (set_index i) p w).
Proof.
  split; [|done]. apply list_eq. intros q. rewrite !list_lookup_fmap. cbn.
  destruct (decide (q = p)) as [->|Hne].
  - rewrite list_lookup_alter_eq. by destruct (memory w !! p).
  - by rewrite list_lookup_alter_ne by done.
Qed.

Lemma same_events_heap w l : same_events w (mkWheel (memory w) l (wake w) (w_sequence w)).
Proof. done. Qed.

Lemma same_events_index_at i w : same_events w (index_at i w).
Proof. unfold index_at. case_match; [apply same_events_update|done]. Qed.

Lemma same_events_Swap i j w : same_events w (events_Swap i j w).
Proof. unfold events_Swap. etrans; [|apply same_events_index_at]. etrans; [|apply same_events_index_at]. done. Qed.

Lemma index_at_events i w : events (index_at i w) = events w.
Proof. unfold index_at. by case_match. Qed.

Lemma array_swap_fmap {A B} (f : A → B) i j l : array_swap i j (f <$> l) = f <$> array_swap i j l.
Proof.
  unfold array_swap. rewrite !list_lookup_fmap. destruct (l !! i), (l !! j); cbn; try done.
  by rewrite !list_fmap_insert.
Qed.

Lemma view_same w w' (l : list nat) : same_events w w' → elem w' <$> l = elem w <$> l.
Proof. intros Hs. apply list_fmap_ext. intros ? p _. by apply same_events_elem. Qed.

#[export] Program Instance events_HeapLaws : HeapLaws TimeWheel (nat * Time * Z) :=
  {| view w := elem w <$> events w; less := elem_less |}.
Next Obligation. intros a. unfold elem_less. rewrite Z.eqb_refl. apply Z.ltb_irrefl. Qed.
Next Obligation.
  intros a b c. unfold elem_less. repeat case_match; intros; bool_to_prop; apply Z.ltb_ge || done; lia.
Qed.
Next Obligation.
  intros a b. unfold elem_less. repeat case_match; intros; bool_to_prop; apply Z.ltb_ge || done; lia.
Qed.
Next Obligation. intros w. cbn. by rewrite length_fmap. Qed.
Next Obligation.
  intros i j w a b. cbn. rewrite !list_lookup_fmap. unfold events_Less.
  destruct (events w !! i), (events w !! j); cbn; intros; by simplify_eq.
Qed.
Next Obligation.
  intros i j w _ _. cbn. rewrite (view_same _ _ _ (same_events_Swap i j w)). unfold events_Swap.
  rewrite !index_at_events. cbn. by rewrite array_swap_fmap.
Qed.

(** The indices tell where an event is. *)
Definition index_ok (w : TimeWheel) : Prop :=
  (∀ i p, events w !! i = Some p → index <$> memory w !! p = Some (Z.of_nat i)) ∧
  (∀ p e, memory w !! p = Some e → p ∉ events w → index e = -1).

Lemma index_ok_NoDup w : index_ok w → NoDup (events w).
Proof.
  intros [Hi _]. apply NoDup_alt. intros i j p Hp Hq. apply Hi in Hp, Hq. rewrite Hp in Hq.
  injection Hq. lia.
Qed.

Lemma index_ok_bound w p : index_ok w → p ∈ events w → (p < length (memory w))%nat.
Proof.
  intros [Hi _] [i Hp]%list_elem_of_lookup. apply Hi in Hp. destruct (memory w !! p) eqn:E; [|done].
  by eapply lookup_lt_Some.
Qed.

Lemma index_at_lookup i w p :
  index <$> memory (index_at i w) !! p =
    if decide (events w !! i = Some p) then (λ _, Z.of_nat i) <$> memory w !! p else index <$> memory w !! p.
Proof.
  unfold index_at. case_decide as Hp.
  - rewrite Hp. cbn. rewrite list_lookup_alter_eq. by destruct (memory w !! p).
  - case_match; [|done]. cbn. rewrite list_lookup_alter_ne by congruence. done.
Qed.

Lemma index_ok_Swap i j w :
  (i < Len w)%nat → (j < Len w)%nat → index_ok w → index_ok (events_Swap i j w).
Proof.
  intros Hi Hj Hok. pose proof (index_ok_NoDup w Hok) as Hnd. destruct Hok as [H1 H2].
  cbn in Hi, Hj. assert (array_swap i j (events w) ≡ₚ events w) as Hperm by (by apply array_swap_perm).
  unfold events_Swap. set (w1 := mkWheel _ _ _ _).
  assert (NoDup (events w1)) as Hnd1 by (cbn [events w1]; by rewrite Hperm).
  assert (∀ p, p ∈ events w → is_Some (memory w !! p)) as Hmem.
  { intros p [k Hk]%list_elem_of_lookup. apply H1 in Hk. by destruct (memory w !! p). }
  split.
  - intros k p. rewrite !index_at_events. intros Hp. rewrite index_at_lookup, index_at_events.
    assert (p ∈ events w) as Hin by (rewrite <-Hperm; by eapply list_elem_of_lookup_2).
    destruct (Hmem p Hin) as [e He].
    case_decide as Ej.
    + assert (k = j) as -> by (eapply NoDup_lookup; [exact Hnd1|exact Hp|exact Ej]).
      destruct (memory (index_at i w1) !! p) eqn:E; [done|].
      apply (f_equal (fmap index)) in E. rewrite index_at_lookup in E. cbn [memory w1] in E. rewrite He in E.
      by case_decide.
    + rewrite index_at_lookup. case_decide as Ei.
      * assert (k = i) as -> by (eapply NoDup_lookup; [exact Hnd1|exact Hp|exact Ei]).
        cbn [memory w1]. by rewrite He.
      * cbn [memory w1]. apply H1. cbn [events w1] in Hp, Ei, Ej.
        destruct (decide (k = i)) as [->|]; [done|]. destruct (decide (k = j)) as [->|]; [done|].
        rewrite lookup_array_swap in Hp by done. by rewrite !decide_False in Hp by done.
  - intros p e He. rewrite !index_at_events. cbn [events w1]. rewrite Hperm. intros Hp.
    apply (f_equal (fmap index)) in He. rewrite index_at_lookup, index_at_events in He.
    assert (∀ k, events w1 !! k ≠ Some p) as Hno.
    { intros k Hk. apply Hp. rewrite <-Hperm. by eapply list_elem_of_lookup_2. }
    rewrite decide_False in He by apply Hno. rewrite index_at_lookup, decide_False in He by apply Hno.
    cbn [memory w1] in He. destruct (memory w !! p) eqn:E; [|done]. cbn in He.
    injection He as <-. by apply (H2 p).
Qed.

Definition heap_ok (w : TimeWheel) : Prop := is_heap (Len w) (view w) ∧ index_ok w.

Lemma view_eq w : view w = elem w <$> events w.
Proof. done. Qed.

Lemma events_view w : events w = (λ a : nat * Time * Z, a.1.1) <$> view w.
Proof. cbn. rewrite <-list_fmap_compose. cbn. by rewrite list_fmap_id. Qed.

Lemma view_perm_events w w' : view w ≡ₚ view w' → events w ≡ₚ events w'.
Proof. intros Hp. rewrite (events_view w), (events_view w'). by rewrite Hp. Qed.

(** What the loops of the heap keep of the wheel. *)
Lemma Swap_keeps w0 i j w :
  (i < Len w)%nat → (j < Len w)%nat → i ≠ j → index_ok w ∧ same_events w0 w →
  index_ok (Swap i j w) ∧ same_events w0 (Swap i j w).
Proof.
  intros Hi Hj _ [Hok Hs]. split; [by apply index_ok_Swap|]. etrans; [exact Hs|apply same_events_Swap].
Qed.

Lemma index_ok_Push p w :
  (p < length (memory w))%nat → p ∉ events w → index_ok w → index_ok (events_Push p w).
Proof.
  intros [e0 He0]%lookup_lt_is_Some_2 Hp [H1 H2]. split; cbn.
  - intros i q Hq. destruct (decide (q = p)) as [->|Hne].
    + rewrite list_lookup_alter_eq, He0. cbn. f_equal. apply lookup_app_Some in Hq as [Hq|[? Hq]].
      * by apply list_elem_of_lookup_2 in Hq.
      * apply list_lookup_singleton_Some in Hq as [? _]. f_equal. lia.
    + rewrite list_lookup_alter_ne by done. apply H1. apply lookup_app_Some in Hq as [Hq|[? Hq]]; [done|].
      by apply list_lookup_singleton_Some in Hq as [_ ?].
  - intros q e He Hq. rewrite elem_of_app, list_elem_of_singleton in Hq.
    rewrite list_lookup_alter_ne in He by naive_solver. apply (H2 q); naive_solver.
Qed.

Lemma same_events_Push p w : same_events w (events_Push p w).
Proof. unfold events_Push. etrans; [apply (same_events_update (Z.of_nat (length (events w))) p)|done]. Qed.

Lemma heap_Push_spec p w :
  (p < length (memory w))%nat → p ∉ events w → heap_ok w →
  heap_ok (heap_Push p w) ∧ same_events w (heap_Push p w) ∧ events (heap_Push p w) ≡ₚ p :: events w.
Proof.
  intros Hp Hnp [Hh Hi]. unfold heap_Push, heap_up.
  pose proof (index_ok_Push p w Hp Hnp Hi) as Hi1. pose proof (same_events_Push p w) as Hs1.
  set (w1 := events_Push p w) in *.
  assert (events w1 = events w ++ [p]) as He by done.
  assert (view w1 = view w ++ [elem w p]) as Hv.
  { rewrite !view_eq.
    rewrite He, (view_same w w1), fmap_app by done. done. }
  assert (Len w1 = S (Len w)) as Hl by (change (length (events w1) = S (length (events w))); rewrite He, length_app; cbn; lia).
  assert (length (view w) = Len w) as Hlv by (by rewrite Len_view).
  assert (heap_above (Len w1 - 1) (view w1)) as Ha.
  { split; intros k Hk; rewrite <-Len_view in Hk; pose proof (parent_lt k ltac:(lia)).
    - intros Hne a b. rewrite Hv. rewrite !lookup_app_l by lia. apply Hh. lia.
    - intros _ Hpk. lia. }
  destruct (up_loop_keeps _ (Swap_keeps w) (S (Len w1 - 1)) (Len w1 - 1) w1) as [Hi2 Hs2]; [lia|done|].
  pose proof (up_loop_perm (S (Len w1 - 1)) (Len w1 - 1) w1 ltac:(lia)) as Hperm.
  pose proof (up_loop_heap (S (Len w1 - 1)) (Len w1 - 1) w1 ltac:(lia) ltac:(lia) Ha) as Hh2.
  set (w2 := up_loop _ _ _) in *. split_and!; [|done|].
  - split; [|done]. assert (Len w2 = Len w1) as -> by (rewrite !Len_view; by apply Permutation_length). done.
  - apply view_perm_events in Hperm. rewrite Hperm, He. solve_Permutation.
Qed.

Lemma index_ok_Pop p w :
  index_ok w → last (events w) = Some p →
  index_ok (mkWheel (alter (set_index (-1)) p (memory w)) (take (length (events w) - 1) (events w))
              (wake w) (w_sequence w)).
Proof.
  intros Hok [l Hl]%last_Some. pose proof (index_ok_NoDup w Hok) as Hnd. destruct Hok as [H1 H2].
  rewrite Hl in *. rewrite length_app. cbn [length]. replace (length l + 1 - 1)%nat with (length l) by lia.
  rewrite take_app_length. apply NoDup_app in Hnd as (_ & Hnd & _).
  assert (p ∉ l) as Hp by (intros Hp; apply (Hnd p Hp); by apply list_elem_of_singleton).
  split; cbn.
  - intros i q Hq. assert (q ≠ p) by (intros ->; by apply list_elem_of_lookup_2 in Hq).
    rewrite list_lookup_alter_ne by done. apply H1. apply lookup_app_Some. by left.
  - intros q e He Hq. destruct (decide (q = p)) as [->|Hne].
    + rewrite list_lookup_alter_eq in He. by destruct (memory w !! p); simplify_eq/=.
    + rewrite list_lookup_alter_ne in He by done. apply (H2 q); [done|].
      rewrite elem_of_app, list_elem_of_singleton. naive_solver.
Qed.

(** [Pop] answers the first element. *)
Lemma heap_Pop_spec w p :
  heap_ok w → events w !! 0%nat = Some p →
  ∃ w', heap_Pop w = Some (w', p) ∧ heap_ok w' ∧ same_events w w' ∧ events w ≡ₚ p :: events w'.
Proof.
  intros [Hh Hi] Hp. unfold heap_Pop, heap_down. pose proof (lookup_lt_Some _ _ _ Hp) as H0.
  set (n := (Len w - 1)%nat). assert (Len w = S n) as Hn by (cbn in *; lia). clearbody n.
  assert (length (view w) = S n) as Hlv by (by rewrite <-Len_view).
  pose proof (index_ok_Swap 0 n w ltac:(lia) ltac:(lia) Hi) as Hi1.
  pose proof (same_events_Swap 0 n w) as Hs1. pose proof (Swap_Len 0 n w ltac:(lia) ltac:(lia)) as Hl1.
  pose proof (Swap_view 0 n w ltac:(lia) ltac:(lia)) as Hv1.
  change (events_Swap 0 n w) with (Swap 0 n w) in *. set (w1 := Swap 0 n w) in *.
  assert (view w1 ≡ₚ view w) as Hp1 by (rewrite Hv1; apply array_swap_perm; lia).
  assert (heap_below 0 n (view w1)) as Hb.
  { split; [|lia]. intros k Hk Hpk. rewrite Hv1. apply not_before_swap; [lia..|].
    pose proof (parent_lt k ltac:(lia)). unfold transp. rewrite !decide_False by lia. apply Hh. lia. }
  destruct (down_loop_keeps _ (Swap_keeps w) (S n) 0 n w1) as [Hi2 Hs2]; [lia|done|].
  pose proof (down_loop_perm (S n) 0 n w1 ltac:(lia)) as Hp2.
  pose proof (down_loop_heap (S n) 0 n w1 ltac:(lia) ltac:(lia) Hb) as Hh2.
  pose proof (down_loop_above (S n) 0 n w1 n ltac:(lia) ltac:(lia)) as Htop.
  set (w2 := down_loop _ _ _ _) in *.
  assert (length (events w2) = S n) as Hl2.
  { change (length (events w2)) with (Len w2). rewrite Len_view, Hp2, Hp1. done. }
  assert (events w2 !! n = Some p) as Hlast.
  { rewrite events_view, list_lookup_fmap, Htop, Hv1, lookup_array_swap by lia.
    assert (view w !! 0%nat = Some (elem w p)) as Hroot by (cbn; by rewrite list_lookup_fmap, Hp).
    destruct (decide (n = 0%nat)) as [E|E]; [rewrite E|rewrite decide_True by done]; by rewrite Hroot. }
  assert (last (events w2) = Some p) as Hla by (rewrite last_lookup, Hl2; done).
  unfold events_Pop. rewrite Hla. eexists. split; [reflexivity|].
  pose proof (index_ok_Pop p w2 Hi2 Hla) as Hi3. pose proof (same_events_update (-1) p w2) as Hs3.
  cbn [update memory events wake w_sequence] in *. set (w3 := mkWheel _ _ _ _) in *.
  assert (same_events w2 w3) as Hs4 by exact Hs3.
  assert (events w3 = take n (events w2)) as He3 by (cbn [events w3]; rewrite Hl2; f_equal; lia).
  split_and!.
  - split; [|done]. intros k Hk. change (Len w3) with (length (events w3)) in Hk.
    rewrite He3, length_take, Hl2 in Hk. rewrite view_eq, (view_same w2 w3), He3 by done.
    pose proof (parent_lt k ltac:(lia)). intros a b.
    rewrite !list_lookup_fmap, !lookup_take_lt, <-!list_lookup_fmap by lia. apply (Hh2 k). lia.
  - etrans; [exact Hs2|exact Hs4].
  - assert (events w2 ≡ₚ events w) as <- by (apply view_perm_events; by rewrite Hp2).
    change (events w2 ≡ₚ p :: events w3). rewrite He3. apply last_Some in Hla as [l Hl]. rewrite Hl in *. rewrite length_app in Hl2. cbn in Hl2.
    replace n with (length l) by lia. rewrite take_app_length. solve_Permutation.
Qed.
End timer.
