(* ===== verification/TimerTheorems.v ===== *)
(** * What the timer promises

    Every callback runs at most once, not before its time, not after it was cancelled, in
    the order of times and registrations; and no due event is left waiting. *)

From S2P Require Import Prelude GoLib Heap Timer.

Section timer.
Context {C : Type}.
Implicit Types (w : TimeWheel (C := C)) (y : tsys (C := C)).

Record wheel_inv w : Prop := {
  wv_heap : heap_ok w;
  wv_seq : ∀ p e, memory w !! p = Some e → sequence e = wrap_u64 (Z.of_nat p + 1);
  wv_next : w_sequence w = wrap_u64 (Z.of_nat (length (memory w)))
}.

Lemma wheel_inv_same w w' : wheel_inv w → same_events w w' → heap_ok w' → wheel_inv w'.
Proof.
  intros [Hh Hs Hn] Hse Hok. constructor; [done| |].
  - intros p e He. pose proof (same_events_lookup w w' p Hse) as Hl. rewrite He in Hl.
    destruct (memory w !! p) as [e'|] eqn:E; [|done]. injection Hl as _ _ _ ->. by apply Hs.
  - rewrite (same_events_length w w' Hse). by destruct Hse as (_ & _ & ->).
Qed.

Lemma root_first w p q :
  heap_ok w → events w !! 0%nat = Some p → q ∈ events w → elem_less (elem w q) (elem w p) = false.
Proof.
  intros [Hh _] Hp [k Hq]%list_elem_of_lookup. pose proof (lookup_lt_Some _ _ _ Hq) as Hk.
  apply (is_heap_root (Len w) (view w) k Hh Hk); [by rewrite <-Len_view| |];
    rewrite view_eq, list_lookup_fmap; [by rewrite Hq|by rewrite Hp].
Qed.

Lemma queued_root w p : p ∈ events w → ∃ q, events w !! 0%nat = Some q.
Proof. destruct (events w) as [|q l]; [by intros ?%not_elem_of_nil|by exists q]. Qed.

(** [prune] drops only cancelled events and leaves none at the top. *)
Lemma prune_spec fuel w :
  (length (events w) ≤ fuel)%nat → heap_ok w →
  heap_ok (prune fuel w) ∧ same_events w (prune fuel w) ∧
  (∃ dropped, events w ≡ₚ dropped ++ events (prune fuel w) ∧
     Forall (λ p, cancelled (deref w p) = true) dropped) ∧
  ∀ p l, events (prune fuel w) = p :: l → cancelled (deref (prune fuel w) p) = false.
Proof.
  revert w. induction fuel as [|fuel IH]; intros w Hf Hok; cbn [prune].
  { split_and!; [done|done|by exists []|]. intros p l E. rewrite E in Hf. cbn in Hf. lia. }
  destruct (events w) as [|p l] eqn:E; [split_and!; [done..|exists []; by rewrite E|congruence]|].
  destruct (cancelled (deref w p)) eqn:Hc.
  - destruct (heap_Pop_spec w p Hok) as (w' & -> & Hok' & Hs & Hp); [by rewrite E|].
    destruct (IH w') as (H1 & H2 & (d & Hd & Hfa) & H3); [|done|].
    { apply Permutation_length in Hp. rewrite E in Hp. cbn in *. lia. }
    split_and!; [done|by etrans| |done]. exists (p :: d). split.
    + rewrite <-E, Hp, Hd. done.
    + constructor; [done|]. eapply Forall_impl; [exact Hfa|]. intros q Hq.
      pose proof (same_events_deref w w' q Hs) as Hqq. by injection Hqq as _ _ <- _.
  - split_and!; [done..|exists []; by rewrite E|]. intros p' l' E'. congruence.
Qed.

(** ** [Schedule] and cancellation *)

Lemma Schedule_spec at' cb w w' p :
  wheel_inv w → Schedule at' cb w = (w', p) →
  wheel_inv w' ∧ p = length (memory w) ∧ events w' ≡ₚ p :: events w ∧ wake w' = wake w ∧
  (∀ q e, memory w !! q = Some e → set_index 0 <$> memory w' !! q = Some (set_index 0 e)) ∧
  (set_index 0 <$> memory w' !! p) = Some (mkEvent at' cb false 0 (wrap_u64 (Z.of_nat p + 1))).
Proof.
  intros [Hok Hs Hn] E. unfold Schedule in E. injection E as <- <-.
  set (seq := wrap_u64 _). set (p := length (memory w)).
  set (w1 := mkWheel (memory w ++ [mkEvent at' cb false (-1) seq]) (events w) (wake w) seq).
  assert (∀ q, q ∈ events w → (q < p)%nat) as Hlt by (intros q; apply index_ok_bound, Hok).
  assert (∀ q, (q < p)%nat → memory w1 !! q = memory w !! q) as Hold
    by (intros q Hq; cbn; by apply lookup_app_l).
  assert (memory w1 !! p = Some (mkEvent at' cb false (-1) seq)) as Hnew
    by (cbn; by apply list_lookup_middle).
  assert (seq = wrap_u64 (Z.of_nat p + 1)) as Hseq.
  { unfold seq. rewrite Hn. unfold wrap_u64. by rewrite Zplus_mod_idemp_l. }
  assert (∀ q, (q < p)%nat → deref w1 q = deref w q) as Hder by (intros; unfold deref; by rewrite Hold).
  assert (heap_ok w1) as Hok1.
  { destruct Hok as [Hh [Hi Ho]]. split; [|split].
    - intros k Hk. rewrite view_eq. replace (elem w1 <$> events w1) with (view w); [by apply Hh|].
      rewrite view_eq. apply list_fmap_ext. intros ? q Hq%list_elem_of_lookup_2.
      unfold elem. by rewrite Hder by auto.
    - intros i q Hq. rewrite Hold; [by apply Hi|]. apply Hlt. by eapply list_elem_of_lookup_2.
    - intros q e He Hq. destruct (decide (q = p)) as [->|Hne]; [rewrite Hnew in He; by injection He as <-|].
      assert (q < p)%nat by (apply lookup_lt_Some in He; cbn in He; rewrite length_app in He; cbn in He; lia).
      apply (Ho q); [by rewrite <-Hold|done]. }
  assert (p ∉ events w1) as Hp1 by (intros Hp; apply Hlt in Hp; lia).
  assert (p < length (memory w1))%nat as Hpl by (by eapply lookup_lt_Some).
  destruct (heap_Push_spec p w1 Hpl Hp1 Hok1) as (Hok2 & Hse & Hperm). split_and!; try done.
  - apply (wheel_inv_same w1); [|done..]. constructor; [done| |].
    + intros q e He. destruct (decide (q = p)) as [->|Hne].
      * rewrite Hnew in He. by injection He as <-.
      * assert (q < p)%nat by (apply lookup_lt_Some in He; cbn in He; rewrite length_app in He; cbn in He; lia).
        rewrite Hold in He by done. by apply Hs.
    + cbn. rewrite length_app. cbn. rewrite Hseq. f_equal. lia.
  - by destruct Hse as (_ & -> & _).
  - intros q e He. rewrite (same_events_lookup w1 _ q Hse), Hold, He by (by eapply lookup_lt_Some). done.
  - rewrite (same_events_lookup w1 _ p Hse), Hnew. cbn. by rewrite Hseq.
Qed.

(** How events change: only a queued event can become cancelled, and none comes back. *)
Definition evolves w w' : Prop :=
  ∀ q e, memory w !! q = Some e →
    ∃ e', memory w' !! q = Some e' ∧ at_ e' = at_ e ∧ callback e' = callback e ∧
      (q ∉ events w → cancelled e' = cancelled e ∧ q ∉ events w').

Lemma evolves_same w w' : same_events w w' → (∀ q, q ∈ events w' → q ∈ events w) → evolves w w'.
Proof.
  intros Hs Hsub q e He. pose proof (same_events_lookup w w' q Hs) as Hl. rewrite He in Hl.
  destruct (memory w' !! q) as [e'|]; [|done]. injection Hl as H1 H2 H3 _. exists e'. naive_solver.
Qed.

Lemma evolves_Schedule at' cb w w' p : wheel_inv w → Schedule at' cb w = (w', p) → evolves w w'.
Proof.
  intros Hw E. destruct (Schedule_spec at' cb w w' p Hw E) as (_ & -> & Hp & _ & Hold & _).
  intros q e He. specialize (Hold q e He). destruct (memory w' !! q) as [e'|]; [|done].
  injection Hold as H1 H2 H3 _. exists e'. split_and!; try done. intros Hq. split; [done|].
  rewrite Hp, not_elem_of_cons. split; [|done]. apply lookup_lt_Some in He. lia.
Qed.

Lemma cancel_event_spec p w :
  wheel_inv w → (p < length (memory w))%nat →
  wheel_inv (cancel_event p w) ∧ events (cancel_event p w) = events w ∧
  wake (cancel_event p w) = wake w ∧ evolves w (cancel_event p w) ∧
  (p ∈ events w → cancelled (deref (cancel_event p w) p) = true).
Proof.
  intros [[Hh [Hi Ho]] Hs Hn] [e He]%lookup_lt_is_Some_2. unfold cancel_event, deref. rewrite He. cbn.
  destruct (Z.leb_spec 0 (index e)) as [Hle|Hgt].
  - assert (p ∈ events w) as Hp.
    { destruct (decide (p ∈ events w)) as [|Hnp]; [done|]. rewrite (Ho p e He Hnp) in Hle. done. }
    assert (∀ q, memory (update set_cancelled p w) !! q =
      (λ e, if decide (q = p) then set_cancelled e else e) <$> memory w !! q) as Hl.
    { intros q. cbn. destruct (decide (q = p)) as [->|Hne].
      - by rewrite list_lookup_alter_eq.
      - rewrite list_lookup_alter_ne by done. by destruct (memory w !! q). }
    split_and!; try done.
    + constructor; [split; [|split]| |].
      * intros k Hk. rewrite view_eq. replace (elem _ <$> _) with (view w); [by apply Hh|].
        rewrite view_eq. apply list_fmap_ext. intros ? q _. unfold elem, deref. rewrite Hl.
        destruct (memory w !! q); [|done]. cbn. by case_decide.
      * intros i q Hq. rewrite Hl. apply Hi in Hq. destruct (memory w !! q); [|done]. cbn in *. by case_decide.
      * intros q e' He' Hq. rewrite Hl in He'. destruct (memory w !! q) eqn:E; [|done]. cbn in He'.
        case_decide; simplify_eq; [done|]. by apply (Ho q).
      * intros q e' He'. rewrite Hl in He'. destruct (memory w !! q) eqn:E; [|done]. cbn in He'.
        apply Hs in E. case_decide; by simplify_eq.
      * cbn. by rewrite length_alter.
    + intros q e' He'. rewrite Hl, He'. cbn. eexists. split; [done|]. case_decide; subst; done.
    + intros _. rewrite Hl, He. cbn. by rewrite decide_True.
  - split_and!; try done.
    + by apply evolves_same.
    + intros [i Hp]%list_elem_of_lookup. apply Hi in Hp. rewrite He in Hp. cbn in Hp. injection Hp. lia.
Qed.

(** ** The invariant of the system *)

(** The callbacks run: each of a registered event that left the heap uncancelled, at a time
    not before its own, or else, for an event more than the longest [time.Duration] away,
    after the system ran that long. *)
Definition log_ok (t0 now : Time) w (log : list (nat * Time)) : Prop :=
  ∀ p t, (p, t) ∈ log → (p ∉ events w) ∧ (t ≤ now) ∧
    ∃ e, memory w !! p = Some e ∧ cancelled e = false ∧ is_Some (callback e) ∧
      (at_ e ≤ t ∨ t0 + MaxInt64 ≤ t).

Lemma log_ok_evolves t0 now now' w w' log :
  now ≤ now' → evolves w w' → log_ok t0 now w log → log_ok t0 now' w' log.
Proof.
  intros Hnow Hev Hl p t Hp. destruct (Hl p t Hp) as (Hne & Ht & e & He & Hc & Hcb & Hd).
  destruct (Hev p e He) as (e' & He' & Hat & Hcb' & Hk). destruct (Hk Hne) as [Hc' Hne'].
  split_and!; [done|lia|]. exists e'. rewrite Hat, Hcb', Hc'. done.
Qed.

Record timer_inv (t0 : Time) y : Prop := {
  ti_wheel : wheel_inv (t_wheel y);
  ti_now : t0 ≤ t_now y;
  ti_log : log_ok t0 (t_now y) (t_wheel y) (t_log y);
  ti_nodup : NoDup (t_log y).*1;
  ti_timer : ∀ p start wait, t_runner y = RWaitTimer p start wait →
    p ∈ events (t_wheel y) ∧ t0 ≤ start ≤ t_now y ∧
    wait = Z.max 0 (Sub (at_ (deref (t_wheel y) p)) start);
  ti_awake : wake (t_wheel y) = true ∨ (0 < t_signals y)%nat ∨
    match t_runner y with
    | RWaitWake => events (t_wheel y) = []
    | RWaitTimer p _ _ => events (t_wheel y) !! 0%nat = Some p
    | _ => True
    end
}.

Lemma timer_inv_new t0 : timer_inv t0 (tsys_new t0).
Proof.
  constructor; cbn; try done; try lia.
  - intros p t Hp. by apply not_elem_of_nil in Hp.
  - constructor.
Qed.

(** Whatever does not touch the heap order or adds to it keeps a timer's event. *)
Lemma ti_timer_evolves t0 now now' w w' p start wait :
  heap_ok w → evolves w w' → now ≤ now' → (p ∈ events w → p ∈ events w') →
  (p ∈ events w ∧ t0 ≤ start ≤ now ∧ wait = Z.max 0 (Sub (at_ (deref w p)) start)) →
  p ∈ events w' ∧ t0 ≤ start ≤ now' ∧ wait = Z.max 0 (Sub (at_ (deref w' p)) start).
Proof.
  intros Hok Hev Hnow Hin (Hp & Hst & ->). split_and!; [auto|lia|lia|].
  assert (p < length (memory w))%nat as [e He]%lookup_lt_is_Some_2 by (apply index_ok_bound; [apply Hok|done]).
  destruct (Hev p e He) as (e' & He' & Hat & _). unfold deref. by rewrite He, He'; cbn; rewrite Hat.
Qed.

Lemma around_inv t0 y y' : timer_inv t0 y → around_step y y' → timer_inv t0 y'.
Proof.
  intros [Hw Hn Hl Hd Ht Ha] Hs. destruct Hs as [now now' w r k lg Hle|now w w' p at' cb r k lg E|now w p r k lg Hp| | |];
    cbn in *.
  - constructor; cbn; try done; [lia|apply (log_ok_evolves t0 now now' w); [done|by apply evolves_same|done]|].
    intros p st wait E. destruct (Ht p st wait E) as (? & ? & ?). split_and!; done || lia.
  - pose proof (evolves_Schedule _ _ _ _ _ Hw E) as Hev.
    destruct (Schedule_spec at' cb w w' p Hw E) as (Hw' & _ & Hperm & _ & _ & _).
    constructor; cbn; try done; [by apply (log_ok_evolves t0 now now w)| |right; left; lia].
    intros q st wait Er. apply (ti_timer_evolves t0 now now w); [apply Hw|done|done| |by apply Ht].
    intros Hq. rewrite Hperm. by apply list_elem_of_further.
  - destruct (cancel_event_spec p w Hw Hp) as (Hw' & He & _ & Hev & _).
    constructor; cbn; try done; [by apply (log_ok_evolves t0 now now w)| |right; left; lia].
    intros q st wait Er. apply (ti_timer_evolves t0 now now w); [apply Hw|done|done| |by apply Ht]. by rewrite He.
  - constructor; cbn; try done; [|by left]. constructor; apply Hw.
  - constructor; cbn; try done; [|by left]. constructor; apply Hw.
  - constructor; cbn; try done. naive_solver.
Qed.

(** The timer branch, when an event is queued: the first event is popped, and its callback
    runs unless it was cancelled. *)
Lemma run_fire_spec w w' r p :
  wheel_inv w → events w !! 0%nat = Some p → run_fire w = (w', r) →
  wheel_inv w' ∧ same_events w w' ∧ events w ≡ₚ p :: events w' ∧
  (r = None ∨ r = Some p ∧ cancelled (deref w p) = false ∧ is_Some (callback (deref w p))).
Proof.
  intros Hw Hp. unfold run_fire. destruct (events w) as [|p' l] eqn:E; [done|]. rewrite <-E in *.
  destruct (heap_Pop_spec w p (wv_heap _ Hw) Hp) as (w1 & -> & Hok & Hs & Hperm).
  intros [= <- <-]. split_and!; [by eapply wheel_inv_same|done|done|].
  pose proof (same_events_deref w w1 p Hs) as Hd. injection Hd as _ Hcb Hc _. rewrite Hcb, Hc.
  destruct (cancelled (deref w p)), (callback (deref w p)); cbn; eauto.
Qed.

Lemma elem_less_at w p q : elem_less (elem w q) (elem w p) = false → at_ (deref w p) ≤ at_ (deref w q).
Proof. unfold elem_less, elem. cbn. case_match; intros; bool_to_prop; lia. Qed.

(** A timer that expired: its event is due. *)
Lemma timer_expired t0 start now at' :
  t0 ≤ start → start + Z.max 0 (Sub at' start) ≤ now → at' ≤ now ∨ t0 + MaxInt64 ≤ now.
Proof. unfold Sub, MinInt64, MaxInt64. lia. Qed.

Lemma run_inv t0 y y' : timer_inv t0 y → run_step y y' → timer_inv t0 y'.
Proof.
  intros [Hw Hn Hl Hd Ht Ha] Hs.
  destruct Hs as [now w w' r k lg E|now w r k lg Hwk _ _|now w w' p start wait q k lg Hle E]; cbn in *.
  - unfold run_top in E.
    destruct (prune_spec (length (events w)) w (Nat.le_refl _) (wv_heap _ Hw)) as (Hok & Hs & (d & Hdr & _) & _).
    change (Len w) with (length (events w)) in E. set (w1 := prune (length (events w)) w) in *.
    assert (wheel_inv w1) as Hw1 by (by eapply wheel_inv_same).
    assert (log_ok t0 now w1 lg) as Hl1.
    { apply (log_ok_evolves t0 now now w); [done| |done]. apply evolves_same; [done|].
      intros x Hx. rewrite Hdr. apply elem_of_app. by right. }
    destruct (events w1) as [|p l] eqn:E1; injection E as <- <-; constructor; cbn; try done.
    + right; by right.
    + intros ? ? ? [= <- <- <-]. rewrite E1. split_and!; [left|lia|lia|done].
    + right; right. by rewrite E1.
  - constructor; cbn; try done; [constructor; apply Hw|]. right; by right.
  - destruct (Ht p start wait eq_refl) as (Hp & Hst & ->).
    destruct (queued_root w p Hp) as [p0 E0].
    destruct (run_fire_spec w w' q p0 Hw E0 E) as (Hw' & Hs & Hperm & Hq).
    assert (∀ x, x ∈ events w' → x ∈ events w) as Hsub
      by (intros x Hx; rewrite Hperm; by apply list_elem_of_further).
    assert (log_ok t0 now w' lg) as Hl'
      by (apply (log_ok_evolves t0 now now w); [done|by apply evolves_same|done]).
    destruct Hq as [->|(-> & Hc & Hcb)]; constructor; cbn; try done; try (right; by right).
    + assert ((p0 ∉ events w') ∧ p0 ∈ events w) as [Hno Hin].
      { pose proof (index_ok_NoDup w (proj2 (wv_heap _ Hw))) as Hnd. rewrite Hperm in Hnd |- *.
        split; [by apply NoDup_cons in Hnd as [? _]|left]. }
      intros x t [[= -> ->]|Hx]%elem_of_cons; [|by apply Hl'].
      destruct (memory w !! p0) as [e|] eqn:Ee.
      2:{ apply lookup_ge_None in Ee. apply (index_ok_bound w) in Hin; [lia|apply Hw]. }
      split_and!; [done|lia|]. unfold deref in Hc, Hcb. rewrite Ee in Hc, Hcb. cbn in Hc, Hcb.
      pose proof (same_events_lookup w w' p0 Hs) as He'. rewrite Ee in He'.
      destruct (memory w' !! p0) as [e'|]; [|done]. injection He' as Hat Hcb' Hc' _.
      exists e'. rewrite Hat, Hcb', Hc'. split_and!; [done..|].
      assert (at_ e ≤ at_ (deref w p)) as Hle'.
      { pose proof (elem_less_at w p0 p (root_first w p0 p (wv_heap _ Hw) E0 Hp)) as H1.
        unfold deref in H1 at 1. by rewrite Ee in H1. }
      destruct (timer_expired t0 start now (at_ (deref w p))); [lia|done|left; lia|by right].
    + constructor; [|done]. intros ([x t] & Hx & Hin)%list_elem_of_fmap. cbn in Hx. subst x.
      destruct (Hl p0 t Hin) as [Hno _]. apply Hno. by eapply list_elem_of_lookup_2.
Qed.

Lemma timer_reach_inv t0 y : rtc timer_step (tsys_new t0) y → timer_inv t0 y.
Proof.
  intros Hr. assert (∀ y0, timer_inv t0 y0 → rtc timer_step y0 y → timer_inv t0 y) as Hgen.
  { intros y0 H0 Hy. induction Hy as [|? ? ? [|]]; eauto using around_inv, run_inv. }
  eapply Hgen, Hr. apply timer_inv_new.
Qed.

(** The order of the heap is that of times, then of registrations. *)
Lemma root_order w p q :
  wheel_inv w → events w !! 0%nat = Some p → q ∈ events w → q ≠ p →
  at_ (deref w p) < at_ (deref w q) ∨
  at_ (deref w p) = at_ (deref w q) ∧ (Z.of_nat (length (memory w)) < 2 ^ 64 → (p < q)%nat).
Proof.
  intros [Hok Hs _] Hp Hq Hne. pose proof (root_first w p q Hok Hp Hq) as Hf.
  pose proof (index_ok_bound w p (proj2 Hok) (list_elem_of_lookup_2 _ _ _ Hp)) as Hlp.
  pose proof (index_ok_bound w q (proj2 Hok) Hq) as Hlq.
  unfold elem_less, elem in Hf. cbn in Hf. case_match; bool_to_prop; [right|left; lia].
  split; [done|]. intros Hlen. unfold deref in Hf.
  destruct (lookup_lt_is_Some_2 _ _ Hlp) as [ep Hep], (lookup_lt_is_Some_2 _ _ Hlq) as [eq Heq].
  rewrite Hep, Heq in Hf. cbn in Hf. rewrite (Hs p ep Hep), (Hs q eq Heq) in Hf.
  unfold wrap_u64 in Hf. rewrite !Z.mod_small in Hf by lia. lia.
Qed.

(** C27: The timer runs callbacks once, in time, in order. In every interleaving of [Run]
    with registrations, cancellations, signals and the passing of time, no callback runs
    twice; one that runs belongs to an event that was not cancelled while it was queued,
    and runs no earlier than its time (events more than the longest duration away
    excepted, for which the wait saturates); and of all the queued events it is the one
    with the earliest time, and among those of the same time the one registered first. *)
Theorem timer_safe t0 y :
  rtc timer_step (tsys_new t0) y →
  NoDup (t_log y).*1 ∧
  (∀ p t, (p, t) ∈ t_log y → ∃ e,
     memory (t_wheel y) !! p = Some e ∧ cancelled e = false ∧ is_Some (callback e) ∧
     (at_ e ≤ t ∨ t0 + MaxInt64 ≤ t)) ∧
  (∀ y' p t, run_step y y' → t_log y' = (p, t) :: t_log y →
     ∀ q, q ∈ events (t_wheel y) → q ≠ p →
       at_ (deref (t_wheel y) p) < at_ (deref (t_wheel y) q) ∨
       at_ (deref (t_wheel y) p) = at_ (deref (t_wheel y) q) ∧
       (Z.of_nat (length (memory (t_wheel y))) < 2 ^ 64 → (p < q)%nat)).
Proof.
  intros Hr%timer_reach_inv. pose proof Hr as [Hw Hn Hl Hd Ht Ha]. split_and!; [done| |].
  - intros p t Hp. destruct (Hl p t Hp) as (_ & _ & Hex). done.
  - intros y' p t Hs Hlog q Hq Hne. destruct Hs as [| |now w w' p1 start wait r k lg Hle E]; cbn in *;
      try (apply (f_equal length) in Hlog; cbn in Hlog; lia).
    destruct (queued_root w q Hq) as [p0 E0].
    destruct (run_fire_spec w w' r p0 Hw E0 E) as (_ & _ & _ & [->|(-> & _)]); cbn in Hlog.
    + apply (f_equal length) in Hlog. cbn in Hlog. lia.
    + injection Hlog as <- _. by apply root_order.
Qed.

(** *** Punctuality *)

Definition run_weight y : nat :=
  2 * (length (events (t_wheel y)) + if wake (t_wheel y) then 1 else 0) +
  match t_runner y with RTop => 1 | _ => 0 end.

Lemma run_step_decreases t0 y y' : timer_inv t0 y → run_step y y' → (run_weight y' < run_weight y)%nat.
Proof.
  intros [Hw _ _ _ Ht _] Hs. unfold run_weight.
  destruct Hs as [now w w' r k lg E|now w r k lg Hwk Hr _|now w w' p start wait q k lg Hle E]; cbn in *.
  - unfold run_top in E. change (Len w) with (length (events w)) in E.
    destruct (prune_spec (length (events w)) w (Nat.le_refl _) (wv_heap _ Hw)) as (_ & (_ & Hwk & _) & (d & Hd & _) & _).
    apply Permutation_length in Hd. rewrite length_app in Hd. set (w1 := prune _ w) in *.
    destruct (events w1) eqn:E1; injection E as <- <-; rewrite ?E1, Hwk; cbn in *; lia.
  - rewrite Hwk. destruct r; done || lia.
  - destruct (Ht p start wait eq_refl) as (Hp & _). destruct (queued_root w p Hp) as [p0 E0].
    destruct (run_fire_spec w w' q p0 Hw E0 E) as (_ & (_ & -> & _) & Hperm & _).
    apply Permutation_length in Hperm. cbn in Hperm. lia.
Qed.

Lemma run_steps_bound t0 n y y' :
  timer_inv t0 y → nsteps run_step n y y' → timer_inv t0 y' ∧ (n + run_weight y' ≤ run_weight y)%nat.
Proof.
  intros Hi Hn. induction Hn as [y|n y y1 y' Hs _ IH]; [split; [done|lia]|].
  destruct (IH ltac:(by eapply run_inv)) as [? ?]. split; [done|].
  pose proof (run_step_decreases t0 y y1 Hi Hs). lia.
Qed.

(** A timer that has not expired: its event is not due. *)
Lemma timer_running start now at' :
  start ≤ now → now < start + Z.max 0 (Sub at' start) → now < at'.
Proof. unfold Sub, MinInt64, MaxInt64. lia. Qed.

(** C28: The timer is punctual. Left to itself, [Run] takes a bounded number of steps, two
    for each queued event and three more, and when it can only wait, and no registration or
    cancellation is about to signal, no queued event is due: no wake-up is lost, and every
    due event was popped. *)
Theorem timer_punctual t0 y n y' :
  rtc timer_step (tsys_new t0) y → nsteps run_step n y y' →
  (n ≤ 2 * length (events (t_wheel y)) + 3)%nat ∧
  ((∀ y'', ¬ run_step y' y'') → t_runner y' ≠ RDone → t_signals y' = 0%nat →
   ∀ q, q ∈ events (t_wheel y') → t_now y' < at_ (deref (t_wheel y') q)).
Proof.
  intros Hr%timer_reach_inv Hn. destruct (run_steps_bound t0 n y y' Hr Hn) as [Hi Hb]. split.
  - unfold run_weight in Hb. clear -Hb. destruct (wake (t_wheel y)), (t_runner y); lia.
  - intros Hstuck Hnd Hsig q Hq. destruct Hi as [Hw _ _ _ Ht Ha]. destruct y' as [now w r k lg]. cbn in *.
    destruct (wake w) eqn:Hwk.
    { destruct r as [| | |]; try done; [destruct (run_top now w) eqn:E|..]; exfalso; eapply Hstuck;
        [by apply run_lock|by apply run_woken..]. }
    destruct Ha as [?|[?|Ha]]; [done|lia|]. destruct r as [| |p start wait|]; [| | |done].
    + destruct (run_top now w) eqn:E. exfalso. eapply Hstuck. by apply run_lock.
    + rewrite Ha in Hq. by apply not_elem_of_nil in Hq.
    + destruct (Ht p start wait eq_refl) as (Hp & Hst & ->).
      destruct (Z.le_gt_cases (start + Z.max 0 (Sub (at_ (deref w p)) start)) now) as [Hle|Hgt].
      { destruct (run_fire w) eqn:E. exfalso. eapply Hstuck. by eapply run_timer. }
      apply timer_running in Hgt; [|lia].
      pose proof (elem_less_at w p q (root_first w p q (wv_heap _ Hw) Ha Hq)). lia.
Qed.
End timer.

(** ** Witnesses *)

(** Two callbacks at the same time, the first of them cancelled; the second runs. *)
Definition demo_wheel : TimeWheel (C := nat) :=
  cancel_event 0 (Schedule 5 (Some 2%nat) (Schedule 5 (Some 1%nat) wheel_New).1).1.
Definition demo_due : tsys := mkTsys 5 (signal demo_wheel) RTop 2 [].

Lemma demo_due_reach : rtc timer_step (tsys_new 0) demo_due.
Proof.
  eapply rtc_l; [right; by eapply (around_schedule _ _ _ _ 5 (Some 1%nat))|].
  eapply rtc_l; [right; by eapply (around_schedule _ _ _ _ 5 (Some 2%nat))|].
  eapply rtc_l; [right; apply (around_cancel _ _ 0); apply Nat.ltb_lt; vm_compute; reflexivity|].
  eapply rtc_l; [right; apply around_signal|].
  apply rtc_once. right. apply around_time. lia.
Qed.

Definition demo_top := (run_top 5 (t_wheel demo_due)).1.
Definition demo_ran : tsys := mkTsys 5 (run_fire demo_top).1 RTop 2 [(1%nat, 5)].

Lemma demo_run : nsteps run_step 2 demo_due demo_ran.
Proof.
  eapply nsteps_l; [apply (run_lock _ _ demo_top (RWaitTimer 1 5 0)); vm_compute; reflexivity|].
  eapply nsteps_l; [|constructor].
  apply (run_timer 5 demo_top (run_fire demo_top).1 1 5 0 (Some 1%nat)); vm_compute; [congruence|reflexivity].
Qed.

Lemma demo_ran_reach : rtc timer_step (tsys_new 0) demo_ran.
Proof.
  etrans; [apply demo_due_reach|]. apply (rtc_subrel run_step); [by left|].
  eapply rtc_nsteps_2, demo_run.
Qed.

Lemma timer_safe_witness :
  ∃ e, memory (t_wheel demo_ran) !! 1%nat = Some e ∧ cancelled e = false.
Proof.
  destruct (proj1 (proj2 (timer_safe 0 demo_ran demo_ran_reach)) 1%nat 5) as (e & He & Hc & _).
  - left.
  - exists e. exact (conj He Hc).
Defined.

Lemma timer_punctual_witness : (2 ≤ 2 * length (events (t_wheel demo_due)) + 3)%nat.
Proof. exact (proj1 (timer_punctual 0 demo_due 2 demo_ran demo_due_reach demo_run)). Defined.
