(* ===== verification/Bucket.v ===== *)
(** * The token bucket ([internal/limiter/bucket.go])

    The acquire script and [Acquire]. The bucket is a hash in Redis with an expiry; numbers
    are the doubles of Lua. How Lua and the client render numbers is the class
    [LuaNumbers]. *)

From S2P Require Import Prelude GoLib Float Redis Keys Store Server.

(** ** Numbers of scripts *)

(** [tonumber]; the rendering of a number as an argument of [redis.call] and of a float as
    an argument of a script, both of which read back as the same number; the integer a
    number in the reply is converted to. *)
Class LuaNumbers := {
  tonumber : string → option float64;
  tostring : float64 → string;
  arg_string : float64 → string;
  reply_int : float64 → Z;
  tonumber_valid s x : tonumber s = Some x → f64_valid x;
  tonumber_tostring x : f64_valid x → f64_finite x = true → tonumber (tostring x) = Some x;
  tonumber_arg x : f64_valid x → f64_finite x = true → tonumber (arg_string x) = Some x;
  tostring_int z : Z.abs z ≤ 2 ^ 53 → tostring (f64_of_int z) = FormatInt z;
  reply_int_range x : int64 (reply_int x);
  reply_int_exact z : Z.abs z ≤ 2 ^ 53 → reply_int (f64_of_int z) = z
}.

(** ** The database of the limiter *)

(** The keys, and when those with an expiry expire, in milliseconds. *)
Record limiter_db := mkLimiterDB { ld_keys : keyspace_t; ld_expire : gmap string Z }.

(** The server's clock: what [TIME] answers, seconds and microseconds. *)
Record redis_time := mkTime { rt_sec : Z; rt_usec : Z }.
Definition rt_ms (t : redis_time) : Z := rt_sec t * 1000 + rt_usec t / 1000.

(** A key whose time has passed is gone. *)
Definition expire_key (now : Z) (key : string) (d : limiter_db) : limiter_db :=
  match ld_expire d !! key with
  | Some at_ =>
      if at_ <? now then mkLimiterDB (delete key (ld_keys d)) (delete key (ld_expire d)) else d
  | None => d
  end.

(** [PEXPIRE]: a duration that is not positive deletes the key. *)
Definition pexpire (now : Z) (key ms : string) (d : limiter_db) : limiter_db * (string + unit) :=
  match ParseInt ms with
  | None => (d, inl err_not_integer)
  | Some ms =>
      if MaxInt64 <? now + ms then (d, inl "ERR invalid expire time in 'pexpire' command")
      else if ms <=? 0 then (mkLimiterDB (delete key (ld_keys d)) (delete key (ld_expire d)), inr ())
      else
        match ld_keys d !! key with
        | None => (d, inr ())
        | Some _ => (mkLimiterDB (ld_keys d) (<[key := now + ms]> (ld_expire d)), inr ())
        end
  end.

Section bucket.
Context `{LuaNumbers}.

(** ** The script *)

Abbreviation num := f64_of_int.

(** [local now = tonumber(nowParts[1]) * 1000 + math.floor(tonumber(nowParts[2]) / 1000)]. *)
Definition script_now (t : redis_time) : float64 :=
  f64_add (f64_mul (num (rt_sec t)) (num 1000)) (f64_floor (f64_div (num (rt_usec t)) (num 1000))).

(** [math.min(a, b)]. *)
Definition lua_min (a b : float64) : float64 := if f64_lt b a then b else a.

(** The tokens and the time the bucket was last used, or a full bucket. *)
Definition stored (capacity now : float64) (h : gmap string string) : float64 * float64 :=
  match h !! "tokens" ≫= tonumber, h !! "last_ms" ≫= tonumber with
  | Some tokens, Some last => (tokens, last)
  | _, _ => (capacity, now)
  end.

Definition refill (capacity rate now : float64) (stored : float64 * float64) : float64 :=
  let '(tokens, last) := stored in
  if f64_lt (num 0) rate
  then lua_min capacity (f64_add tokens (f64_mul (f64_div (f64_sub now last) (num 1000)) rate))
  else tokens.

(** [allowed], [retry] and [tokens] after the decision. *)
Definition decide_grant (rate amount tokens : float64) : float64 * float64 * float64 :=
  if f64_le amount tokens then (num 1, num 0, f64_sub tokens amount)
  else if f64_lt (num 0) rate
  then (num 0, f64_ceil (f64_mul (f64_div (f64_sub amount tokens) rate) (num 1000)), tokens)
  else (num 0, num 31536000000, tokens).

Definition acquireScript (t : redis_time) (key argv1 argv2 argv3 : string) (d : limiter_db) :
    limiter_db * (string + Z * Z * Z) :=
  let d := expire_key (rt_ms t) key d in
  let now := script_now t in
  match get_hash (ld_keys d) key with
  | inl err => (d, inl err)
  | inr h =>
      match tonumber argv1, tonumber argv2, tonumber argv3 with
      | Some capacity, Some rate, Some amount =>
          let tokens := refill capacity rate now (stored capacity now h) in
          let '(allowed, retry, tokens) := decide_grant rate amount tokens in
          let h := <["last_ms" := tostring now]> (<["tokens" := tostring tokens]> h) in
          let d := mkLimiterDB (put_hash (ld_keys d) key h) (ld_expire d) in
          let answer := (reply_int allowed, reply_int retry, reply_int tokens) in
          if f64_lt (num 0) rate then
            match pexpire (rt_ms t) key (tostring (f64_ceil (f64_mul (f64_div capacity rate) (num 2000)))) d with
            | (d, inl err) => (d, inl err)
            | (d, inr _) => (d, inr answer)
            end
          else (d, inr answer)
      | _, _, _ => (d, inl "attempt to compare nil with number")
      end
  end.

(** ** The Go side *)

Record TokenBucket := mkTokenBucket {
  tb_client : bool; tb_key : string; tb_capacity : float64; tb_rate : float64
}.

Definition limiter_ErrInvalidConfig : error :=
  Err (Var "limiter.ErrInvalidConfig") "invalid token bucket configuration" [].

Definition bad_capacity (c : float64) : bool := f64_le c (num 0) || f64_is_nan c || f64_is_inf c.
Definition bad_rate (r : float64) : bool := f64_lt r (num 0) || f64_is_nan r || f64_is_inf r.

(** [NewTokenBucket]: the text of its panic, or the bucket. *)
Definition NewTokenBucket (client : bool) (key : string) (capacity rate : float64) : string + TokenBucket :=
  if bad_capacity capacity then inl "token bucket capacity must be finite and positive"
  else if bad_rate rate then inl "token bucket rate must be finite and non-negative"
  else inr (mkTokenBucket client key capacity rate).

Definition NewScopedTokenBucket (client : bool) (scope : string) (capacity rate : float64) : string + TokenBucket :=
  match ScopeKey scope with
  | None => inl "token bucket scope cannot be empty"
  | Some key => NewTokenBucket client key capacity rate
  end.

Definition bucket_Validate (b : option TokenBucket) : option error :=
  match b with
  | None => Some (Errorf_suffix limiter_ErrInvalidConfig "client is nil")
  | Some b =>
      if negb (tb_client b) then Some (Errorf_suffix limiter_ErrInvalidConfig "client is nil")
      else if String.eqb (tb_key b) "" then Some (Errorf_suffix limiter_ErrInvalidConfig "key is empty")
      else if bad_capacity (tb_capacity b) then
        Some (Errorf_suffix limiter_ErrInvalidConfig "capacity must be finite and positive")
      else if bad_rate (tb_rate b) then
        Some (Errorf_suffix limiter_ErrInvalidConfig "rate must be finite and non-negative")
      else None
  end.

Definition bucket_Capacity (b : option TokenBucket) : float64 :=
  match b with None => num 0 | Some b => tb_capacity b end.
Definition RatePerSecond (b : option TokenBucket) : float64 :=
  match b with None => num 0 | Some b => tb_rate b end.

(** What [Acquire] works on: the database, the server's clock, and what the network does to
    the next scripts. *)
Record limiter_world := mkLimiterWorld {
  lw_db : limiter_db; lw_time : redis_time; lw_net : list net_event
}.

(** [acquireScript.Run]. *)
Definition run_acquire (b : TokenBucket) (amount : float64) (w : limiter_world) :
    limiter_world * result (Z * Z * Z) :=
  let '(d, r) := acquireScript (lw_time w) (tb_key b) (arg_string (tb_capacity b))
                   (arg_string (tb_rate b)) (arg_string amount) (lw_db w) in
  let r := match r with inl err => inl (errors_New err) | inr a => inr a end in
  match lw_net w with
  | [] => (mkLimiterWorld d (lw_time w) [], r)
  | NetOK :: net => (mkLimiterWorld d (lw_time w) net, r)
  | NetDown e :: net => (mkLimiterWorld (lw_db w) (lw_time w) net, inl (errors_New e))
  | NetLost e :: net => (mkLimiterWorld d (lw_time w) net, inl (errors_New e))
  end.

(** [Acquire]; an integer of the reply is rendered and parsed again. *)
Definition Acquire (b : option TokenBucket) (amount : float64) (w : limiter_world) :
    limiter_world * result Result :=
  match b with
  | None => (w, inl (errors_New "token bucket client is nil"))
  | Some b =>
      if negb (tb_client b) then (w, inl (errors_New "token bucket client is nil"))
      else if (f64_le amount (num 0) || f64_is_nan amount || f64_is_inf amount)%bool then
        (w, inl (errors_New "token amount must be finite and positive"))
      else
        match run_acquire b amount w with
        | (w, inl err) => (w, inl (Errorf_w "acquire token" err))
        | (w, inr (v0, v1, v2)) =>
            match ParseInt (FormatInt v0), ParseInt (FormatInt v1), ParseInt (FormatInt v2) with
            | Some allowed, Some retryMs, Some tokens =>
                (w, inr (mkResult (allowed =? 1) (wrap64 (retryMs * Millisecond)) (num tokens)))
            | _, _, _ => (w, inl (errors_New "strconv: value out of range"))
            end
        end
  end.

(** The bucket as the limiter of a server. *)
Definition bucket_limiter (b : option TokenBucket) : Limiter limiter_world :=
  mkLimiter (Acquire b) (bucket_Validate b) (bucket_Capacity b).
End bucket.
