(* ===== verification/LuaDec.v ===== *)
(** * A concrete rendering of numbers

    An instance of [LuaNumbers], on which the bucket can be evaluated: integers of up to 53
    bits in decimal, other numbers as the bits of their code. *)

From S2P Require Import Prelude GoLib Float Redis Keys Store Server Bucket.
From Stdlib Require Import Numbers.DecimalString.

#[export] Instance spec_float_eq_dec : EqDecision float64.
Proof. solve_decision. Defined.

#[export] Program Instance spec_float_countable : Countable float64 :=
  inj_countable'
    (λ f, match f with
          | S754_zero s => inl (inl s) | S754_infinity s => inl (inr s)
          | S754_nan => inr None | S754_finite s m e => inr (Some (s, m, e))
          end)
    (λ c, match c with
          | inl (inl s) => S754_zero s | inl (inr s) => S754_infinity s
          | inr None => S754_nan | inr (Some (s, m, e)) => S754_finite s m e
          end) _.
Next Obligation. by intros []. Qed.

Definition bit_char (b : bool) : Ascii.ascii := Ascii.ascii_of_nat (if b then 49 else 48).

Fixpoint bits_of (p : positive) : string :=
  match p with
  | xH => ""
  | xO p => String (bit_char false) (bits_of p)
  | xI p => String (bit_char true) (bits_of p)
  end.

Fixpoint of_bits (s : string) : positive :=
  match s with
  | EmptyString => xH
  | String c s => if Ascii.eqb c (bit_char true) then xI (of_bits s) else xO (of_bits s)
  end.

Lemma of_bits_of p : of_bits (bits_of p) = p.
Proof. induction p as [p IH|p IH|]; cbn [bits_of of_bits]; [| |done]; rewrite IH; reflexivity. Qed.

Definition code_char : Ascii.ascii := Ascii.ascii_of_nat 98.

Definition dec_tostring (x : float64) : string :=
  let z := f64_floor_int x in
  if decide (Z.abs z ≤ 2 ^ 53 ∧ x = f64_of_int z) then FormatInt z
  else String code_char (bits_of (encode x)).

Definition dec_tonumber (s : string) : option float64 :=
  match s with
  | String c rest =>
      if Ascii.eqb c code_char then
        x ← decode (of_bits rest); if valid_binary 53 1024 x then Some x else None
      else z ← Z.of_int <$> NilZero.int_of_string s; Some (f64_of_int z)
  | EmptyString => None
  end.

Definition dec_reply (x : float64) : Z :=
  let z := f64_floor_int x in if decide (int64 z) then z else MinInt64.

Lemma dec_roundtrip x : f64_valid x → dec_tonumber (dec_tostring x) = Some x.
Proof.
  intros Hx. unfold dec_tostring. case_decide as Hz.
  - destruct Hz as [_ Hz]. unfold dec_tonumber. set (z := f64_floor_int x) in *.
    destruct (FormatInt z) as [|c rest] eqn:E.
    { pose proof (int_of_FormatInt z) as Hi. by rewrite E in Hi. }
    assert (Ascii.eqb c code_char = false) as ->.
    { pose proof (FormatInt_chars code_char z eq_refl) as Hc. rewrite E in Hc. cbn in Hc.
      apply orb_false_elim in Hc as [Hc _]. by rewrite Ascii.eqb_sym. }
    rewrite <-E, int_of_FormatInt. cbn. by rewrite <-Hz.
  - unfold dec_tonumber. rewrite Ascii.eqb_refl, of_bits_of, decode_encode. cbn. by rewrite Hx.
Qed.

#[export] Program Instance LuaDec : LuaNumbers := {|
  tonumber := dec_tonumber; tostring := dec_tostring; arg_string := dec_tostring; reply_int := dec_reply
|}.
Next Obligation.
  intros s x. unfold dec_tonumber. destruct s as [|c rest]; [done|]. case_match.
  - destruct (decode (of_bits rest)) as [y|]; [|done]. cbn. destruct (valid_binary 53 1024 y) eqn:E; [|done].
    intros [= <-]. exact E.
  - destruct (NilZero.int_of_string _); [|done]. cbn. intros [= <-]. apply f64_of_int_spec.
Qed.
Next Obligation. intros x Hx _. by apply dec_roundtrip. Qed.
Next Obligation. intros x Hx _. by apply dec_roundtrip. Qed.
Next Obligation.
  intros z Hz. unfold dec_tostring. rewrite f64_floor_of_int by done. by rewrite decide_True.
Qed.
Next Obligation. intros x. unfold dec_reply. case_decide; [done|]. split; unfold MinInt64, MaxInt64; lia. Qed.
Next Obligation.
  intros z Hz. unfold dec_reply. rewrite f64_floor_of_int by done. rewrite decide_True; [done|].
  unfold int64, MinInt64, MaxInt64. lia.
Qed.
