(* ===== verification/BucketTheorems.v ===== *)
(** * What the token bucket promises

    One acquisition on every branch, and what holds under every sequence of acquisitions:
    the tokens stay between zero and the capacity, and a bucket that is not refilled grants
    no more than its capacity. *)

From S2P Require Import Prelude GoLib Float FloatError Redis Keys Store Server Bucket LuaDec.

Section bucket.
Context `{LuaNumbers}.
Implicit Types (b : TokenBucket) (w : limiter_world).

(** ** Well-formed buckets, amounts and clocks *)

Record bucket_ok b : Prop := {
  bo_validate : bucket_Validate (Some b) = None;
  bo_capacity : f64_valid (tb_capacity b);
  bo_rate : f64_valid (tb_rate b);
  (** the expiry the script asks for is an integer Redis accepts *)
  bo_expiry : f64_lt (f64_of_int 0) (tb_rate b) = true →
    ∃ z, 0 < z ≤ 2 ^ 53 ∧
      f64_ceil (f64_mul (f64_div (tb_capacity b) (tb_rate b)) (f64_of_int 2000)) = f64_of_int z
}.

(** A finite positive number. *)
Definition f64_positive (f : float64) : Prop := f64_valid f ∧ f64_finite f = true ∧ 0 < units f.

Record clock_ok (t : redis_time) : Prop := {
  ck_valid : f64_valid (script_now t);
  ck_finite : f64_finite (script_now t) = true;
  ck_exact : units (script_now t) = rt_ms t * unit64;
  ck_range : 0 ≤ rt_ms t ≤ 2 ^ 53
}.

Lemma ck_nonneg t : clock_ok t → 0 ≤ units (script_now t).
Proof. intros [_ _ -> Hr]. assert (0 < unit64) by (by unfold unit64). nia. Qed.

(** The clock of the script is exact: it reads any time up to the year 141339 as a whole number
    of milliseconds. *)
Lemma usec_floor u : 0 ≤ u < 10 ^ 6 → f64_floor (f64_div (f64_of_int u) (f64_of_int 1000)) = f64_of_int (u / 1000).
Proof.
  intros Hu. pose proof (Z.div_mod u 1000 ltac:(lia)) as Hdm. pose proof (Z.mod_pos_bound u 1000 ltac:(lia)) as Hmb.
  destruct (decide (u mod 1000 = 0)) as [E|E].
  - replace u with (1000 * (u / 1000)) at 1 by lia. assert (0 ≤ u / 1000 < 1000) as Hk by lia.
    clear Hdm. generalize dependent (u / 1000). intros k Hk.
    assert (forallb (λ n, let k := Z.of_nat n in bool_decide (f64_floor (f64_div (f64_of_int (1000 * k)) (f64_of_int 1000)) = f64_of_int k))
      (seq 0 1000) = true) as Hall by (vm_compute; reflexivity).
    rewrite forallb_forall in Hall. specialize (Hall (Z.to_nat k)). rewrite Z2Nat.id, bool_decide_eq_true in Hall by lia.
    apply Hall, list_elem_of_In, elem_of_seq. lia.
  - destruct (f64_of_int_exact u ltac:(lia)) as (Hv & Hf & Hux), (f64_of_int_exact 1000 ltac:(lia)) as (_ & _ & Huy).
    fold unit64 in Hux, Huy. assert (2 ^ 60 < unit64) as HU by (by vm_compute).
    destruct (f64_div_error (f64_of_int u) (f64_of_int 1000)) as (v & Hval & Herr); [done|done| |done|].
    { rewrite pos_units, Hux by done. apply Z.ltb_lt. assert (0 < u) by (apply Z.le_neq; split; [lia|intros <-; by vm_compute in E]). nia. }
    rewrite Hux, Huy in Herr. generalize dependent (f64_of_int u). intros x Hv Hf Hux Hval.
    assert (v / unit64 = u / 1000 ∧ v < 2 ^ 1024 * unit64 ∧ v ≠ 0) as (Hq & Hsm & Hne).
    { assert (unit64 < 2 ^ 1024 * unit64) by (by vm_compute).
      assert (2 ^ 51 * Z.abs (v * 1000 - u * unit64) ≤ u * unit64 + 2 ^ 52 * 1000) as Hd.
      { replace (v * (1000 * unit64) - u * unit64 * unit64) with ((v * 1000 - u * unit64) * unit64) in Herr by ring.
        rewrite Z.abs_mul, (Z.abs_eq unit64) in Herr by lia. nia. }
      set (U := unit64) in *. clearbody U. clear Herr Hux Huy. generalize dependent (u / 1000). intros k Hdm.
      assert (2 ^ 51 * Z.abs (v * 1000 - u * U) ≤ 2 ^ 32 * U) as Hd2 by nia.
      assert (2 ^ 19 * Z.abs (v * 1000 - u * U) ≤ U) as Hd3 by lia.
      assert (k * U < v < (k + 1) * U) as Hv2 by (split; nia).
      assert (0 ≤ k) by (apply Z.lt_succ_r, (Z.mul_lt_mono_pos_r 1000); lia). assert (0 ≤ k * U) by (apply Z.mul_nonneg_nonneg; lia).
      split_and!; [|nia|lia]. symmetry. apply Z.div_unique with (v - U * k); [left|]; lia. }
    destruct (valued_small _ _ Hval Hsm) as [Hdf Hdu]. destruct Hval as [Hdv _].
    pose proof (f64_floor_int_units _ Hdv Hdf) as Hfl. fold unit64 in Hfl. rewrite Hdu, Hq in Hfl.
    destruct (f64_div x (f64_of_int 1000)) as [| | |s m e]; try done. cbn [f64_floor]. by rewrite Hfl.
Qed.

Lemma clock_ok_time t : 0 ≤ rt_sec t ≤ 2 ^ 42 → 0 ≤ rt_usec t < 10 ^ 6 → clock_ok t.
Proof.
  intros Hs Hu. assert (0 ≤ rt_usec t / 1000 < 1000) as Hk by (split; [apply Z.div_pos|apply Z.div_lt_upper_bound]; lia).
  assert (0 ≤ rt_ms t ≤ 2 ^ 53) as Hr by (unfold rt_ms; lia).
  destruct (f64_mul_int (rt_sec t) 1000) as (Hv & Hf & Hm); [lia..|].
  destruct (f64_of_int_exact (rt_usec t / 1000) ltac:(lia)) as (Hv2 & Hf2 & Hm2).
  pose proof (f64_add_spec _ _ Hv Hv2 Hf Hf2) as Ha. rewrite <-usec_floor in Ha at 2 by done. fold (script_now t) in Ha.
  assert (units (f64_mul (f64_of_int (rt_sec t)) (f64_of_int 1000)) + units (f64_of_int (rt_usec t / 1000)) = rt_ms t * 2 ^ 1074) as E.
  { rewrite Hm2. unfold rt_ms. fold unit64. lia. }
  rewrite E in Ha. assert (rnd53 (rt_ms t * 2 ^ 1074) = rt_ms t * 2 ^ 1074) as Ern by (apply rnd53_shift; lia).
  destruct (f64_rounded_finite _ _ Ha) as [Hfin Hun].
  { rewrite Ern. fold unit64. rewrite Z.abs_eq by (assert (0 < unit64) by (by unfold unit64); nia).
    assert (rt_ms t * unit64 ≤ 2 ^ 53 * unit64) by (apply Z.mul_le_mono_nonneg_r; [by unfold unit64|lia]).
    assert (2 ^ 53 * unit64 < 2 ^ 1024 * unit64) by (by vm_compute). lia. }
  split; [apply Ha|done|by rewrite Hun, Ern|lia].
Qed.

Lemma positive_guard f :
  f64_valid f → f64_positive f ↔ (f64_le f (f64_of_int 0) || f64_is_nan f || f64_is_inf f)%bool = false.
Proof.
  intros Hv. unfold f64_positive. destruct f as [s|s| |s m e]; cbn -[f64_of_int].
  - change (f64_le _ _) with true. cbn. split; [lia|done].
  - destruct s; [change (f64_le _ _) with true|change (f64_le _ _) with false]; cbn; naive_solver.
  - change (f64_le _ _) with false. naive_solver.
  - rewrite f64_le_units by done. rewrite !orb_false_r, Z.leb_gt. cbn [units]. change (units (f64_of_int 0)) with 0.
    naive_solver.
Qed.

Lemma bucket_capacity b : bucket_ok b → f64_positive (tb_capacity b).
Proof.
  intros [Hv Hc _ _]. apply positive_guard; [done|]. unfold bucket_Validate, bad_capacity in Hv.
  by destruct (tb_client b), (String.eqb _ _), (_ || _ || _)%bool.
Qed.

(** The rate is zero or positive. *)
Lemma bucket_rate b :
  bucket_ok b → f64_finite (tb_rate b) = true ∧ f64_lt (f64_of_int 0) (tb_rate b) = f64_pos (tb_rate b).
Proof.
  intros [Hv _ Hr _]. unfold bucket_Validate, bad_rate in Hv.
  destruct (tb_client b); [|done]. destruct (String.eqb (tb_key b) _); [done|].
  destruct (bad_capacity (tb_capacity b)); [done|]. cbn in Hv.
  destruct (tb_rate b) as [s|s| |[] m e]; try done. by destruct s.
Qed.

(** ** The level of the bucket *)

Definition bucket_hash b w : string + gmap string string :=
  get_hash (ld_keys (expire_key (rt_ms (lw_time w)) (tb_key b) (lw_db w))) (tb_key b).

(** The tokens and the time of the last use, as the next script reads them. *)
Definition level b w : float64 * float64 :=
  match bucket_hash b w with
  | inr h => stored (tb_capacity b) (script_now (lw_time w)) h
  | inl _ => (tb_capacity b, script_now (lw_time w))
  end.

(** What is available to the next acquisition. *)
Definition available b w : float64 :=
  refill (tb_capacity b) (tb_rate b) (script_now (lw_time w)) (level b w).

Definition tokens_ok b (f : float64) : Prop :=
  f64_valid f ∧ f64_finite f = true ∧ 0 ≤ units f ≤ units (tb_capacity b).
Definition last_ok (now f : float64) : Prop :=
  f64_valid f ∧ f64_finite f = true ∧ 0 ≤ units f ≤ units now.

(** The invariant of a world. *)
Record bucket_inv b w : Prop := {
  bi_clock : clock_ok (lw_time w);
  bi_hash : ∃ h, get_hash (ld_keys (lw_db w)) (tb_key b) = inr h ∧
    ∀ tokens last, h !! "tokens" ≫= tonumber = Some tokens → h !! "last_ms" ≫= tonumber = Some last →
      tokens_ok b tokens ∧ last_ok (script_now (lw_time w)) last
}.

Lemma get_hash_delete ks k : get_hash (delete k ks) k = inr ∅.
Proof. unfold get_hash. by rewrite lookup_delete_eq. Qed.

Lemma bucket_hash_cases b w :
  bucket_hash b w = inr ∅ ∨ bucket_hash b w = get_hash (ld_keys (lw_db w)) (tb_key b).
Proof.
  unfold bucket_hash, expire_key. repeat case_match; try (by right). left. apply get_hash_delete.
Qed.

Lemma level_ok b w :
  bucket_ok b → bucket_inv b w →
  ∃ h, bucket_hash b w = inr h ∧ level b w = stored (tb_capacity b) (script_now (lw_time w)) h ∧
    tokens_ok b (level b w).1 ∧ last_ok (script_now (lw_time w)) (level b w).2.
Proof.
  intros Hb [Hck (h0 & Hh0 & Hok)]. pose proof (bucket_capacity b Hb) as (Hcv & Hcf & Hcp).
  assert (∃ h, bucket_hash b w = inr h ∧ (h = ∅ ∨ h = h0)) as (h & Hh & Hcase).
  { destruct (bucket_hash_cases b w) as [->| ->]; [eauto|rewrite Hh0; eauto]. }
  exists h. unfold level. rewrite Hh. split; [done|]. split; [done|].
  assert (tokens_ok b (tb_capacity b)) as Hcap by (split_and!; done || lia).
  assert (last_ok (script_now (lw_time w)) (script_now (lw_time w))) as Hnow
    by (pose proof (ck_nonneg _ Hck); destruct Hck; split_and!; done || lia).
  unfold stored. destruct (h !! "tokens" ≫= tonumber) eqn:E1; [|done].
  destruct (h !! "last_ms" ≫= tonumber) eqn:E2; [|done]. cbn.
  destruct Hcase as [->| ->]; [done|by apply Hok].
Qed.

(** ** Refilling *)

Lemma refill_ok b now tokens last :
  bucket_ok b → f64_valid now → f64_finite now = true → tokens_ok b tokens → last_ok now last →
  let r := refill (tb_capacity b) (tb_rate b) now (tokens, last) in
  tokens_ok b r ∧ units tokens ≤ units r ∧ (f64_pos (tb_rate b) = false → r = tokens).
Proof.
  intros Hb Hnv Hnf (Htv & Htf & Ht) (Hlv & Hlf & Hl). cbn zeta. unfold refill.
  pose proof (bucket_capacity b Hb) as (Hcv & Hcf & Hcp). destruct (bucket_rate b Hb) as [Hrf ->].
  destruct (f64_pos (tb_rate b)) eqn:Hpos; [|split_and!; by try lia].
  destruct (f64_sub_between now last) as (Hsv & Hsf & _ & Hsb); [done..|].
  destruct (f64_div_nonneg (f64_sub now last) (f64_of_int 1000)) as [Hdv Hdn]; [done|done| |done|].
  { rewrite nonneg_units by done. apply Z.leb_le. lia. }
  destruct (f64_mul_nonneg (f64_div (f64_sub now last) (f64_of_int 1000)) (tb_rate b)) as [Hmv Hmn];
    [done|apply Hb|done|done|].
  destruct (f64_add_nonneg tokens _ Htv Hmv Htf ltac:(lia) Hmn) as (Hav & Han & Hau).
  unfold lua_min. set (s := f64_add tokens _) in *. split; [|split; [|done]].
  - destruct (f64_lt s (tb_capacity b)) eqn:E; [|split_and!; [done..|lia|lia]].
    assert (f64_finite s = true) as Hsfin.
    { destruct s as [|[]| |]; try done. by destruct (tb_capacity b). }
    rewrite f64_lt_units in E by done. apply Z.ltb_lt in E. specialize (Hau Hsfin).
    split_and!; [done..|lia|lia].
  - destruct (f64_lt s (tb_capacity b)) eqn:E; [|lia]. apply Hau.
    destruct s as [|[]| |]; try done. by destruct (tb_capacity b).
Qed.

(** ** One acquisition *)

(** What the decision leaves. *)
Definition after_grant (amount avail : float64) : float64 :=
  if f64_le amount avail then f64_sub avail amount else avail.

Lemma after_grant_ok b amount avail :
  f64_positive amount → tokens_ok b avail → tokens_ok b (after_grant amount avail) ∧
  units (after_grant amount avail) ≤ units avail.
Proof.
  intros (Hav & Haf & Hap) (Hv & Hf & Hr). unfold after_grant. rewrite f64_le_units by done.
  destruct (Z.leb_spec (units amount) (units avail)); [|split; [done|lia]].
  destruct (f64_sub_between avail amount) as (Hsv & Hsf & _ & Hsb); [done..|lia|].
  split; [split_and!; [done..|lia|lia]|lia].
Qed.

(** The decision. *)
(** The milliseconds in which the rate refills what is missing. *)
Definition missing_ms b amount avail : float64 :=
  f64_ceil (f64_mul (f64_div (f64_sub amount avail) (tb_rate b)) (f64_of_int 1000)).

Lemma decide_grant_spec b amount avail :
  bucket_ok b →
  ∃ retry, decide_grant (tb_rate b) amount avail =
      (f64_of_int (if f64_le amount avail then 1 else 0), retry, after_grant amount avail) ∧
    (f64_le amount avail = true → retry = f64_of_int 0) ∧
    (f64_le amount avail = false → f64_pos (tb_rate b) = false → retry = f64_of_int 31536000000) ∧
    (f64_le amount avail = false → f64_pos (tb_rate b) = true → retry = missing_ms b amount avail).
Proof.
  intros Hb. destruct (bucket_rate b Hb) as [_ Hr]. unfold decide_grant, after_grant. rewrite Hr.
  destruct (f64_le amount avail), (f64_pos (tb_rate b)); eexists; done.
Qed.

(** The database after the script wrote the hash: the key holds it and has not expired. *)
Definition written b (now : Z) (h : gmap string string) (d : limiter_db) : Prop :=
  ld_keys d !! tb_key b = Some (RHash h) ∧
  match ld_expire d !! tb_key b with Some at_ => now ≤ at_ | None => True end.

Lemma written_hash b t h d net :
  written b (rt_ms t) h d → bucket_hash b (mkLimiterWorld d t net) = inr h ∧
  get_hash (ld_keys d) (tb_key b) = inr h.
Proof.
  intros [Hk He]. unfold bucket_hash, expire_key, get_hash. cbn.
  destruct (ld_expire d !! tb_key b) as [a|]; [rewrite (proj2 (Z.ltb_ge a (rt_ms t)) He)|]; by rewrite Hk.
Qed.

Lemma expire_key_expire now key d :
  (ld_expire d !! key = None → ld_expire (expire_key now key d) !! key = None) ∧
  match ld_expire (expire_key now key d) !! key with Some at_ => now ≤ at_ | None => True end.
Proof.
  unfold expire_key. destruct (ld_expire d !! key) as [a|] eqn:E; [|by rewrite E].
  destruct (Z.ltb_spec a now); cbn; [by rewrite lookup_delete_eq|]. by rewrite E.
Qed.

(** The database holds the given level, with an expiry. *)
Definition stored_as b (d : limiter_db) (tokens last : float64) (at_ : option Z) : Prop :=
  ∃ h, get_hash (ld_keys d) (tb_key b) = inr h ∧ h !! "tokens" ≫= tonumber = Some tokens ∧
    h !! "last_ms" ≫= tonumber = Some last ∧ ld_expire d !! tb_key b = at_.

(** [z] milliseconds is the expiry that the script sets. *)
Definition expiry_of b (z : Z) : Prop :=
  0 < z ≤ 2 ^ 53 ∧ f64_ceil (f64_mul (f64_div (tb_capacity b) (tb_rate b)) (f64_of_int 2000)) = f64_of_int z.

(** The end of the script. *)
Lemma write_back b t h d r :
  bucket_ok b → clock_ok t → h ≠ ∅ →
  match ld_expire d !! tb_key b with Some at_ => rt_ms t ≤ at_ | None => True end →
  ∃ d',
    (let d := mkLimiterDB (put_hash (ld_keys d) (tb_key b) h) (ld_expire d) in
     if f64_lt (f64_of_int 0) (tb_rate b) then
       match pexpire (rt_ms t) (tb_key b)
               (tostring (f64_ceil (f64_mul (f64_div (tb_capacity b) (tb_rate b)) (f64_of_int 2000)))) d with
       | (d, inl err) => (d, inl err)
       | (d, inr _) => (d, inr r)
       end
     else (d, inr r)) = (d', @inr string (Z * Z * Z) r) ∧
    written b (rt_ms t) h d' ∧
    (f64_pos (tb_rate b) = false → ld_expire d' = ld_expire d) ∧
    (f64_pos (tb_rate b) = true → ∃ z, expiry_of b z ∧ ld_expire d' !! tb_key b = Some (rt_ms t + z)).
Proof.
  intros Hb Hck Hh He. unfold put_hash. rewrite decide_False by done. destruct (bucket_rate b Hb) as [_ Hp].
  destruct (f64_lt (f64_of_int 0) (tb_rate b)) eqn:Hr.
  - destruct (bo_expiry b Hb Hr) as (z & Hz & Ez). rewrite Ez. destruct Hck as [_ _ _ Hrange].
    unfold pexpire. rewrite tostring_int by lia.
    rewrite ParseInt_FormatInt by (unfold int64, MinInt64, MaxInt64; lia).
    rewrite (proj2 (Z.ltb_ge MaxInt64 _)) by (unfold MaxInt64; lia). rewrite (proj2 (Z.leb_gt z 0)) by lia.
    cbn [ld_keys]. rewrite lookup_insert_eq. eexists. split; [done|]. split; [|split].
    + split; cbn; rewrite lookup_insert_eq; [done|lia].
    + congruence.
    + intros _. exists z. split; [done|]. cbn. by rewrite lookup_insert_eq.
  - eexists. split; [done|]. split; [|split; [done|congruence]]. split; cbn; [by rewrite lookup_insert_eq|done].
Qed.

(** The script's reply, and what the next script reads. *)
Lemma acquireScript_spec b amount w :
  bucket_ok b → f64_positive amount → bucket_inv b w →
  ∃ d retry tokens,
    acquireScript (lw_time w) (tb_key b) (arg_string (tb_capacity b)) (arg_string (tb_rate b))
      (arg_string amount) (lw_db w) =
      (d, inr ((if f64_le amount (available b w) then 1 else 0), retry, tokens)) ∧
    (∀ net, level b (mkLimiterWorld d (lw_time w) net) =
       (after_grant amount (available b w), script_now (lw_time w))) ∧
    (∀ net, bucket_inv b (mkLimiterWorld d (lw_time w) net)) ∧
    int64 retry ∧ int64 tokens ∧
    (f64_le amount (available b w) = true → retry = 0) ∧
    (f64_le amount (available b w) = false → f64_pos (tb_rate b) = false → retry = 31536000000) ∧
    (f64_le amount (available b w) = false → f64_pos (tb_rate b) = true → retry = reply_int (missing_ms b amount (available b w))) ∧
    (f64_pos (tb_rate b) = false → ld_expire (lw_db w) !! tb_key b = None → ld_expire d !! tb_key b = None) ∧
    (f64_pos (tb_rate b) = true → ∃ z, expiry_of b z ∧
       stored_as b d (after_grant amount (available b w)) (script_now (lw_time w)) (Some (rt_ms (lw_time w) + z))).
Proof.
  intros Hb Hamt Hinv. destruct (level_ok b w Hb Hinv) as (h & Hh & Hlev & Htok & Hlast).
  pose proof (bi_clock _ _ Hinv) as Hck. pose proof (bucket_capacity b Hb) as (Hcv & Hcf & _).
  destruct (bucket_rate b Hb) as [Hrf _]. destruct Hamt as (Hav & Haf & Hap).
  destruct (refill_ok b (script_now (lw_time w)) (level b w).1 (level b w).2) as (Havail & _ & _);
    [done|apply Hck|apply Hck|done|done|].
  rewrite <-surjective_pairing in Havail. change (refill _ _ _ _) with (available b w) in Havail.
  unfold acquireScript. unfold bucket_hash in Hh. rewrite Hh, !tonumber_arg by (done || apply Hb).
  rewrite <-Hlev. change (refill _ _ _ _) with (available b w).
  destruct (decide_grant_spec b amount (available b w) Hb) as (retry & -> & Hr1 & Hr2 & Hr3).
  destruct (after_grant_ok b amount (available b w)) as [Hag _]; [done..|].
  set (tok := after_grant amount (available b w)) in *. set (now := script_now (lw_time w)) in *.
  set (h' := <["last_ms" := tostring now]> (<["tokens" := tostring tok]> h)).
  set (d0 := expire_key _ _ _) in *.
  destruct (write_back b (lw_time w) h' d0
    (reply_int (f64_of_int (if f64_le amount (available b w) then 1 else 0)), reply_int retry, reply_int tok))
    as (d & Hd & Hwr & Hex & Hexp); [done|done|apply insert_non_empty|apply expire_key_expire|].
  cbn zeta in Hd |- *. rewrite Hd.
  exists d, (reply_int retry), (reply_int tok).
  assert (h' !! "tokens" = Some (tostring tok) ∧ h' !! "last_ms" = Some (tostring now)) as [Hl1 Hl2].
  { unfold h'. split; [rewrite lookup_insert_ne by done|]; by rewrite lookup_insert_eq. }
  assert (tonumber (tostring tok) = Some tok) as Ht1 by (apply tonumber_tostring; apply Hag).
  assert (tonumber (tostring now) = Some now) as Ht2 by (apply tonumber_tostring; apply Hck).
  split_and!.
  - rewrite reply_int_exact by (destruct (f64_le _ _); done). done.
  - intros net. destruct (written_hash b (lw_time w) h' d net Hwr) as [Hb' _]. unfold level. rewrite Hb'.
    unfold stored. rewrite Hl1, Hl2. cbn. by rewrite Ht1, Ht2.
  - intros net. destruct (written_hash b (lw_time w) h' d net Hwr) as [_ Hg]. constructor; [done|].
    exists h'. split; [done|]. rewrite Hl1, Hl2. cbn. rewrite Ht1, Ht2. intros ? ? [= <-] [= <-].
    split; [done|]. pose proof (ck_nonneg _ Hck). destruct Hck. split_and!; [done..|apply Z.le_refl].
  - apply reply_int_range.
  - apply reply_int_range.
  - intros E. rewrite (Hr1 E). by apply reply_int_exact.
  - intros E1 E2. rewrite (Hr2 E1 E2). by apply reply_int_exact.
  - intros E1 E2. by rewrite (Hr3 E1 E2).
  - intros Hp Hn. rewrite (Hex Hp). by apply expire_key_expire.
  - intros Hp. destruct (Hexp Hp) as (z & Hz & Hat). exists z. split; [done|]. exists h'.
    split; [apply (written_hash b (lw_time w) h' d [] Hwr)|]. rewrite Hl1, Hl2. cbn. by rewrite Ht1, Ht2.
Qed.

(** What an acquisition of a positive amount does, by what the network does. *)
Lemma Acquire_spec b amount w :
  bucket_ok b → f64_positive amount → bucket_inv b w →
  let after := (after_grant amount (available b w), script_now (lw_time w)) in
  ∃ w' r, Acquire (Some b) amount w = (w', r) ∧ bucket_inv b w' ∧ lw_time w' = lw_time w ∧
    (f64_pos (tb_rate b) = false → ld_expire (lw_db w) !! tb_key b = None → ld_expire (lw_db w') !! tb_key b = None) ∧
    (f64_pos (tb_rate b) = true → (lw_db w' = lw_db w ∧ ∃ e, r = inl e) ∨
       ∃ z, expiry_of b z ∧ stored_as b (lw_db w') after.1 after.2 (Some (rt_ms (lw_time w) + z))) ∧
    match lw_net w with
    | NetDown e :: _ => lw_db w' = lw_db w ∧ r = inl (Errorf_w "acquire token" (errors_New e))
    | NetLost e :: _ => level b w' = after ∧ r = inl (Errorf_w "acquire token" (errors_New e))
    | _ => level b w' = after ∧
        ∃ res, r = inr res ∧ Allowed res = f64_le amount (available b w) ∧
          (Allowed res = true → RetryAfter res = 0) ∧
          (Allowed res = false → f64_pos (tb_rate b) = false → RetryAfter res = 365 * 24 * Hour) ∧
          (Allowed res = false → f64_pos (tb_rate b) = true →
             RetryAfter res = wrap64 (reply_int (missing_ms b amount (available b w)) * Millisecond))
    end.
Proof.
  intros Hb Hamt Hinv. cbn zeta.
  destruct (acquireScript_spec b amount w Hb Hamt Hinv) as (d & retry & tokens & Hs & Hl & Hi & Hr & Ht & Hr1 & Hr2 & Hr3 & Hx & Hexp).
  unfold Acquire. assert (tb_client b = true) as ->.
  { destruct Hb as [Hv _ _ _]. unfold bucket_Validate in Hv. by destruct (tb_client b). }
  rewrite (proj1 (positive_guard amount (proj1 Hamt)) Hamt). unfold run_acquire. rewrite Hs.
  set (g := f64_le amount (available b w)) in *. cbn [negb].
  assert (∀ net, let w' := mkLimiterWorld d (lw_time w) net in
    ∃ r, (match ParseInt (FormatInt (if g then 1 else 0)), ParseInt (FormatInt retry), ParseInt (FormatInt tokens) with
     | Some allowed, Some retryMs, Some tokens =>
         (w', inr (mkResult (allowed =? 1) (wrap64 (retryMs * Millisecond)) (f64_of_int tokens)))
     | _, _, _ => (w', inl (errors_New "strconv: value out of range"))
     end) = (w', inr r) ∧ Allowed r = g ∧ (Allowed r = true → RetryAfter r = 0) ∧
     (Allowed r = false → f64_pos (tb_rate b) = false → RetryAfter r = 365 * 24 * Hour) ∧
     (Allowed r = false → f64_pos (tb_rate b) = true →
        RetryAfter r = wrap64 (reply_int (missing_ms b amount (available b w)) * Millisecond))) as Hok.
  { intros net. cbn zeta. rewrite !ParseInt_FormatInt by (done || by destruct g). eexists. split; [done|]. cbn [Allowed RetryAfter].
    destruct g; cbn; (split; [done|]); split_and!; intros; try done; [by rewrite Hr1|by rewrite Hr2|by rewrite Hr3]. }
  destruct (lw_net w) as [|[| |] net]; cbn.
  - destruct (Hok []) as (r & -> & Ha & Hra & Hrb & Hrc). do 2 eexists. split; [done|]. split_and!; eauto 10.
  - destruct (Hok net) as (r & -> & Ha & Hra & Hrb & Hrc). do 2 eexists. split; [done|]. split_and!; eauto 10.
  - do 2 eexists. split; [done|]. split_and!; try done; [destruct Hinv; by constructor|left; eauto].
  - do 2 eexists. split; [done|]. split_and!; eauto 10.
Qed.

(** C15: One acquisition. On a valid bucket whose stored level is in range, what is available
    is the stored tokens and, for a positive rate, the rate times the seconds since the last
    script, rounded as doubles are and capped: at least the stored tokens and at most the
    capacity. An amount that
    is not finite and positive is refused and changes nothing. Otherwise the acquisition is
    allowed exactly if the amount is available, in which case it is taken, the next script
    reads what is left, and the retry time is zero; a denial takes nothing, and asks to come
    back after the whole milliseconds in which the rate refills what is missing, or without a
    refill rate after a year. A script that was not delivered changes
    nothing; when only the answer is lost, the tokens are taken and an error is answered. *)
Theorem acquire_correct b amount w :
  bucket_ok b → f64_valid amount → bucket_inv b w →
  let avail := available b w in
  let after := (after_grant amount avail, script_now (lw_time w)) in
  (tokens_ok b avail ∧ units (level b w).1 ≤ units avail ∧
     avail = if f64_pos (tb_rate b)
             then lua_min (tb_capacity b) (f64_add (level b w).1
                    (f64_mul (f64_div (f64_sub (script_now (lw_time w)) (level b w).2) (f64_of_int 1000)) (tb_rate b)))
             else (level b w).1) ∧
  (¬ f64_positive amount →
     Acquire (Some b) amount w = (w, inl (errors_New "token amount must be finite and positive"))) ∧
  (f64_positive amount →
     ∃ w' r, Acquire (Some b) amount w = (w', r) ∧ bucket_inv b w' ∧
       match lw_net w with
       | NetDown e :: _ => lw_db w' = lw_db w ∧ r = inl (Errorf_w "acquire token" (errors_New e))
       | NetLost e :: _ => level b w' = after ∧ r = inl (Errorf_w "acquire token" (errors_New e))
       | _ => level b w' = after ∧
           ∃ res, r = inr res ∧ Allowed res = f64_le amount avail ∧
             (Allowed res = true → RetryAfter res = 0) ∧
             (Allowed res = false → f64_pos (tb_rate b) = false → RetryAfter res = 365 * 24 * Hour) ∧
             (Allowed res = false → f64_pos (tb_rate b) = true →
                RetryAfter res = wrap64 (reply_int (missing_ms b amount avail) * Millisecond))
       end).
Proof.
  intros Hb Hv Hinv. cbn zeta. split_and!.
  - destruct (level_ok b w Hb Hinv) as (h & _ & _ & Ht & Hl). pose proof (bi_clock _ _ Hinv) as Hck.
    destruct (refill_ok b (script_now (lw_time w)) (level b w).1 (level b w).2) as (Ha & _ & _);
      [done|apply Hck|apply Hck|done|done|]. by rewrite <-surjective_pairing in Ha.
  - destruct (level_ok b w Hb Hinv) as (h & _ & _ & Ht & Hl). pose proof (bi_clock _ _ Hinv) as Hck.
    destruct (refill_ok b (script_now (lw_time w)) (level b w).1 (level b w).2) as (_ & Ha & _);
      [done|apply Hck|apply Hck|done|done|]. by rewrite <-surjective_pairing in Ha.
  - destruct (bucket_rate b Hb) as [_ Hr]. unfold available, refill. rewrite (surjective_pairing (level b w)), Hr. by destruct (f64_pos _).
  - intros Hn. unfold Acquire. destruct Hb as [Hval _ _ _]. unfold bucket_Validate in Hval.
    destruct (tb_client b); [|done]. cbn [negb].
    destruct (f64_le amount (f64_of_int 0) || f64_is_nan amount || f64_is_inf amount)%bool eqn:E; [done|].
    by apply positive_guard in E.
  - intros Hp. destruct (Acquire_spec b amount w Hb Hp Hinv) as (w' & r & E & Hi & _ & _ & _ & Hm). eauto.
Qed.

(** ** Sequences of acquisitions *)

(** The amount an answer grants. *)
Definition granted (r : result Result) (amount : float64) : Z :=
  match r with inr res => if Allowed res then units amount else 0 | inl _ => 0 end.

(** Acquisitions of amounts in [P] by any clients, with the total granted so far, the server's
    clock going forward, any network, and other keys changing. *)
Inductive limiter_step b (P : float64 → Prop) : limiter_world * Z → limiter_world * Z → Prop :=
| ls_acquire w g amount w' r :
    P amount → f64_valid amount → Acquire (Some b) amount w = (w', r) →
    limiter_step b P (w, g) (w', g + granted r amount)
| ls_clock w g t :
    clock_ok t → units (script_now (lw_time w)) ≤ units (script_now t) →
    limiter_step b P (w, g) (mkLimiterWorld (lw_db w) t (lw_net w), g)
| ls_net w g net : limiter_step b P (w, g) (mkLimiterWorld (lw_db w) (lw_time w) net, g)
| ls_other w g d :
    ld_keys d !! tb_key b = ld_keys (lw_db w) !! tb_key b →
    ld_expire d !! tb_key b = ld_expire (lw_db w) !! tb_key b →
    limiter_step b P (w, g) (mkLimiterWorld d (lw_time w) (lw_net w), g).

Record fresh b w : Prop := {
  fr_clock : clock_ok (lw_time w);
  fr_key : ld_keys (lw_db w) !! tb_key b = None;
  fr_expire : ld_expire (lw_db w) !! tb_key b = None
}.

Lemma fresh_inv b w : fresh b w → bucket_inv b w.
Proof.
  intros [Hc Hk _]. constructor; [done|]. exists ∅. unfold get_hash. rewrite Hk. split; [done|].
  intros ? ? E. by rewrite lookup_empty in E.
Qed.

Lemma limiter_step_inv b P p p' :
  bucket_ok b → limiter_step b P p p' → bucket_inv b p.1 → bucket_inv b p'.1.
Proof.
  intros Hb Hs Hinv. destruct Hs as [w g amount w' r _ Hv E|w g t Hck Hle|w g net|w g d Hk He]; cbn [fst snd] in *.
  - destruct (f64_le amount (f64_of_int 0) || f64_is_nan amount || f64_is_inf amount)%bool eqn:Eg.
    + unfold Acquire in E. rewrite Eg in E. destruct (tb_client b); cbn in E; by injection E as <- _.
    + apply positive_guard in Eg; [|done].
      destruct (Acquire_spec b amount w Hb Eg Hinv) as (? & ? & E' & Hi & _). congruence.
  - destruct Hinv as [_ (h & Hg & Hok)]. constructor; [done|]. exists h. split; [done|].
    intros tokens last H1 H2. destruct (Hok _ _ H1 H2) as [? (? & ? & ?)]. cbn. split; [done|]. split_and!; [done..|lia|lia].
  - destruct Hinv. by constructor.
  - destruct Hinv as [Hck (h & Hg & Hok)]. constructor; [done|]. exists h. split; [|done].
    unfold get_hash in *. cbn. by rewrite Hk.
Qed.

(** *** A bucket that is not refilled *)

(** The tokens left are a whole number, and with what was granted at most the capacity. *)
Record spent_inv b (g : Z) w : Prop := {
  si_bucket : bucket_inv b w;
  si_expire : ld_expire (lw_db w) !! tb_key b = None;
  si_tokens : ∃ n, 0 ≤ n ≤ 2 ^ 53 ∧ units (level b w).1 = n * 2 ^ 1074;
  si_total : g + units (level b w).1 ≤ units (tb_capacity b)
}.

Lemma level_tokens b w w' :
  ld_keys (lw_db w') !! tb_key b = ld_keys (lw_db w) !! tb_key b →
  ld_expire (lw_db w') !! tb_key b = None → ld_expire (lw_db w) !! tb_key b = None →
  (level b w').1 = (level b w).1.
Proof.
  intros Hk He' He. unfold level, bucket_hash, expire_key. rewrite He, He'. unfold get_hash. rewrite Hk.
  unfold stored. by repeat case_match.
Qed.

Lemma spent_step b P p p' :
  bucket_ok b → f64_pos (tb_rate b) = false → (∀ a, P a → ∃ k, 0 < k ≤ 2 ^ 53 ∧ a = f64_of_int k) →
  limiter_step b P p p' → spent_inv b p.2 p.1 → spent_inv b p'.2 p'.1.
Proof.
  intros Hb Hr HP Hs [Hinv Hex (n & Hn & Hu) Htot]. pose proof (limiter_step_inv b P p p' Hb Hs Hinv) as Hinv'.
  destruct Hs as [w g amount w' r Ha Hv E|w g t Hck Hle|w g net|w g d Hk He]; cbn [fst snd] in *.
  - destruct (HP amount Ha) as (k & Hk & ->). destruct (f64_of_int_exact k ltac:(lia)) as (_ & Hf & Hku).
    assert (0 < 2 ^ 1074) by (apply Z.pow_pos_nonneg; lia). set (U := 2 ^ 1074) in *.
    assert (f64_positive (f64_of_int k)) as Hp by (split_and!; [done|done|nia]).
    destruct (Acquire_spec b (f64_of_int k) w Hb Hp Hinv) as (w1 & r1 & E' & Hi & Ht & Hx & _ & Hm).
    rewrite E in E'. injection E' as <- <-. specialize (Hx Hr Hex).
    destruct (level_ok b w Hb Hinv) as (h & _ & _ & Htk & Hlt). pose proof (bi_clock _ _ Hinv) as Hck.
    assert (available b w = (level b w).1) as Hav.
    { destruct (refill_ok b (script_now (lw_time w)) (level b w).1 (level b w).2) as (_ & _ & Ha');
        [done|apply Hck|apply Hck|done|done|]. by rewrite <-surjective_pairing in Ha'; apply Ha'. }
    rewrite Hav in Hm. destruct Htk as (Htv & Htf & Htb).
    assert (∃ n', 0 ≤ n' ≤ 2 ^ 53 ∧ units (after_grant (f64_of_int k) (level b w).1) = n' * U ∧
      (if f64_le (f64_of_int k) (level b w).1 then n' + k = n else n' = n)) as (n' & Hn' & Hun & Hrel).
    { unfold after_grant. rewrite f64_le_units by done. rewrite Hku, Hu.
      destruct (Z.leb_spec (k * U) (n * U)) as [Hle|Hgt]; [|exists n; done].
      assert (k ≤ n) by nia. exists (n - k). split; [lia|]. split; [|lia].
      destruct (f64_sub_between (level b w).1 (f64_of_int k)) as (_ & _ & -> & _); [done..|lia|].
      rewrite Hu, Hku, <-Z.mul_sub_distr_r. unfold U. rewrite rnd53_shift by lia. done. }
    assert (level b w' = (after_grant (f64_of_int k) (level b w).1, script_now (lw_time w)) →
      (granted r (f64_of_int k) ≤ if f64_le (f64_of_int k) (level b w).1 then k * U else 0) →
      spent_inv b (g + granted r (f64_of_int k)) w') as Hfin.
    { intros Hl Hg. constructor; [done|done|exists n'; by rewrite Hl|]. rewrite Hl. cbn [fst]. rewrite Hun.
      destruct (f64_le _ _); nia. }
    destruct (lw_net w) as [|[| |] net].
    + destruct Hm as [Hl (res & -> & Hal & _)]. apply Hfin; [done|]. cbn. rewrite Hal, Hku. by destruct (f64_le _ _).
    + destruct Hm as [Hl (res & -> & Hal & _)]. apply Hfin; [done|]. cbn. rewrite Hal, Hku. by destruct (f64_le _ _).
    + destruct Hm as [Hd ->]. cbn. rewrite Z.add_0_r.
      assert ((level b w').1 = (level b w).1) as Hl by (apply level_tokens; by rewrite ?Hd).
      constructor; [done|by rewrite Hd|exists n; by rewrite Hl|by rewrite Hl].
    + destruct Hm as [Hl ->]. apply Hfin; [done|]. cbn. destruct (f64_le _ _); lia.
  - assert ((level b (mkLimiterWorld (lw_db w) t (lw_net w))).1 = (level b w).1) as Hl by (by apply level_tokens).
    constructor; [done|done|exists n; by rewrite Hl|by rewrite Hl].
  - constructor; [done|done|by exists n|done].
  - assert ((level b (mkLimiterWorld d (lw_time w) (lw_net w))).1 = (level b w).1) as Hl
      by (apply level_tokens; cbn; congruence).
    constructor; [done|cbn; congruence|exists n; by rewrite Hl|by rewrite Hl].
Qed.

(** C16: The bucket bounds what it grants. From a fresh bucket, under every sequence of
    acquisitions by any clients, network faults and changes to other keys, while the
    server's clock does not go back, the stored and the available tokens are never negative
    and never above the capacity; and a bucket of a whole capacity that is not refilled
    grants no more than its capacity in whole amounts, in all. *)
Theorem bucket_bounds b P w0 w g :
  bucket_ok b → fresh b w0 → rtc (limiter_step b P) (w0, 0) (w, g) →
  tokens_ok b (level b w).1 ∧ tokens_ok b (available b w) ∧
  (f64_pos (tb_rate b) = false → (∃ n, 0 < n ≤ 2 ^ 53 ∧ tb_capacity b = f64_of_int n) →
   (∀ a, P a → ∃ k, 0 < k ≤ 2 ^ 53 ∧ a = f64_of_int k) → g ≤ units (tb_capacity b)).
Proof.
  intros Hb Hfr Hr. assert (bucket_inv b w) as Hinv.
  { assert (∀ p p', rtc (limiter_step b P) p p' → bucket_inv b p.1 → bucket_inv b p'.1) as Hgen.
    { intros p p' Hp. induction Hp; eauto using limiter_step_inv. }
    apply (Hgen _ _ Hr). by apply fresh_inv. }
  destruct (level_ok b w Hb Hinv) as (h & _ & _ & Ht & Hl). pose proof (bi_clock _ _ Hinv) as Hck.
  destruct (refill_ok b (script_now (lw_time w)) (level b w).1 (level b w).2) as (Ha & _ & _);
    [done|apply Hck|apply Hck|done|done|]. rewrite <-surjective_pairing in Ha. split_and!; [done|done|].
  intros Hrate (n & Hn & Hcap) HP.
  assert (spent_inv b g w) as [_ _ _ Htot]; [|destruct Ht as (_ & _ & ?); lia].
  assert (∀ p p', rtc (limiter_step b P) p p' → spent_inv b p.2 p.1 → spent_inv b p'.2 p'.1) as Hgen.
  { intros p p' Hp. induction Hp; eauto using spent_step. }
  apply (Hgen _ _ Hr). cbn. destruct Hfr as [Hc Hk He].
  assert ((level b w0).1 = tb_capacity b) as Hl0.
  { unfold level, bucket_hash, expire_key. rewrite He. unfold get_hash. rewrite Hk. done. }
  constructor; [by apply fresh_inv|done| |rewrite Hl0; lia].
  exists n. rewrite Hl0, Hcap. split; [lia|]. apply f64_of_int_exact. lia.
Qed.
End bucket.

(** ** Witnesses *)

Definition demo_time : redis_time := mkTime 1700000000 250000.
Definition demo_limiter : limiter_world := mkLimiterWorld (mkLimiterDB ∅ ∅) demo_time [].

(** A bucket of ten tokens, five of them refilled each second. *)
Definition demo_bucket : TokenBucket := mkTokenBucket true "gte:limiter:demo" (f64_of_int 10) (f64_of_int 5).
(** A bucket of two tokens that is not refilled. *)
Definition dry_bucket : TokenBucket := mkTokenBucket true "gte:limiter:dry" (f64_of_int 2) (f64_of_int 0).

Lemma demo_clock : clock_ok demo_time.
Proof. constructor; vm_compute; (split; congruence) || congruence || reflexivity. Qed.

Lemma demo_bucket_ok : bucket_ok demo_bucket.
Proof.
  constructor; [vm_compute; reflexivity..|]. intros _. exists 4000. split; [lia|]. vm_compute. reflexivity.
Qed.

Lemma dry_bucket_ok : bucket_ok dry_bucket.
Proof. constructor; [vm_compute; reflexivity..|]. intros E. vm_compute in E. discriminate. Qed.

Lemma acquire_correct_witness :
  ∃ w' res, Acquire (Some demo_bucket) (f64_of_int 3) demo_limiter = (w', inr res) ∧ Allowed res = true.
Proof.
  destruct (proj2 (proj2 (acquire_correct demo_bucket (f64_of_int 3) demo_limiter demo_bucket_ok
    ltac:(vm_compute; reflexivity) ltac:(apply fresh_inv; constructor; [exact demo_clock|reflexivity..]))))
    as (w' & r & E & _ & _ & res & -> & Ha & _).
  - split; [|split]; vm_compute; reflexivity.
  - exists w', res. split; [exact E|]. rewrite Ha. vm_compute. reflexivity.
Defined.

(** One token is taken twice; a third acquisition is denied. *)
Definition dry_take (w : limiter_world) : limiter_world * result Result := Acquire (Some dry_bucket) (f64_of_int 1) w.
Definition dry_1 := dry_take demo_limiter.
Definition dry_2 := dry_take dry_1.1.
Definition dry_3 := dry_take dry_2.1.
Definition dry_granted : Z :=
  0 + granted dry_1.2 (f64_of_int 1) + granted dry_2.2 (f64_of_int 1) + granted dry_3.2 (f64_of_int 1).

Lemma dry_run :
  rtc (limiter_step dry_bucket (λ a, a = f64_of_int 1)) (demo_limiter, 0) (dry_3.1, dry_granted).
Proof.
  eapply rtc_l; [apply (ls_acquire _ _ _ _ (f64_of_int 1) dry_1.1 dry_1.2); [done|vm_compute; reflexivity|apply surjective_pairing]|].
  eapply rtc_l; [apply (ls_acquire _ _ _ _ (f64_of_int 1) dry_2.1 dry_2.2); [done|vm_compute; reflexivity|apply surjective_pairing]|].
  apply rtc_once. apply (ls_acquire _ _ _ _ (f64_of_int 1) dry_3.1 dry_3.2); [done|vm_compute; reflexivity|apply surjective_pairing].
Qed.

Example dry_all_granted : dry_granted = units (f64_of_int 2).
Proof. vm_compute. reflexivity. Qed.

Lemma bucket_bounds_witness : dry_granted ≤ units (tb_capacity dry_bucket).
Proof.
  refine (proj2 (proj2 (bucket_bounds dry_bucket (λ a, a = f64_of_int 1) demo_limiter dry_3.1 dry_granted
    dry_bucket_ok _ dry_run)) _ _ _).
  - constructor; [exact demo_clock|reflexivity|reflexivity].
  - vm_compute. reflexivity.
  - exists 2. split; [lia|reflexivity].
  - intros a ->. exists 1. split; [lia|reflexivity].
Defined.
