(* ===== verification/RateLimit.v ===== *)
(** * The rate of the token bucket

    What a bucket grants over time: its capacity, what its rate refills while the server's
    clock advances, and the rounding of the script's doubles. Amounts are in units of 2^-1074
    tokens, the clock in milliseconds, and both sides of the bound are multiplied by 1000. *)

From S2P Require Import Prelude GoLib Float FloatError Redis Keys Store Server Bucket LuaDec BucketTheorems.

Section rate.
Context `{LuaNumbers} (b : TokenBucket) (Hb : bucket_ok b) (Hpos : f64_pos (tb_rate b) = true).
#[local] Abbreviation C := (units (tb_capacity b)).
#[local] Abbreviation R := (units (tb_rate b)).

Lemma rate_positive : f64_valid (tb_rate b) ∧ f64_finite (tb_rate b) = true ∧ 0 < R.
Proof.
  destruct (bucket_rate b Hb) as [Hf _]. split_and!; [apply Hb|done|].
  pose proof (pos_units _ (bo_rate _ Hb) Hf) as Hp. rewrite Hpos in Hp. by apply eq_sym, Z.ltb_lt in Hp.
Qed.

(** What one acquisition can gain by rounding. *)
Definition rounding : Z := C / 2 ^ 46 + 4.

(** ** Refilling *)

(** The tokens a refill adds after [ms] milliseconds, as the script computes them. *)
Lemma refill_error now last ms :
  f64_valid now → f64_valid last → f64_finite now = true → f64_finite last = true →
  units now - units last = ms * unit64 → 0 ≤ units last → 0 < ms ≤ 2 ^ 53 →
  ∃ v, valued v (f64_mul (f64_div (f64_sub now last) (f64_of_int 1000)) (tb_rate b)) ∧
    0 ≤ v ∧ 2 ^ 49 * (1000 * v) ≤ (2 ^ 49 + 1) * (ms * R) + 2 ^ 49 * 1000.
Proof.
  intros Hnv Hlv Hnf Hlf Hd Hl0 Hms. destruct rate_positive as (Hrv & Hrf & HR).
  assert (2 ^ 70 < unit64) as HU by (by vm_compute).
  destruct (f64_sub_between now last) as (Hsv & Hsf & Hsu & _); [done..|nia|].
  rewrite Hd in Hsu. unfold unit64 in Hsu at 1. rewrite rnd53_shift in Hsu by lia. fold unit64 in Hsu.
  assert (f64_pos (f64_sub now last) = true) as Hsp by (rewrite pos_units, Hsu by done; apply Z.ltb_lt; nia).
  destruct (f64_of_int_exact 1000 ltac:(lia)) as (Htv & Htf & Htu). fold unit64 in Htu.
  destruct (f64_div_error _ (f64_of_int 1000) Hsv Htv Hsp eq_refl) as (q & Hq & Hqe). rewrite Hsu, Htu in Hqe.
  assert (2 ^ 50 * Z.abs (1000 * q - ms * unit64) ≤ ms * unit64) as Hq1.
  { replace (q * (1000 * unit64) - ms * unit64 * unit64) with ((1000 * q - ms * unit64) * unit64) in Hqe by ring.
    rewrite Z.abs_mul, (Z.abs_eq unit64) in Hqe by lia. clear -Hqe HU Hms. generalize dependent unit64. intros U Hqe HU.
    assert (2 ^ 51 * Z.abs (1000 * q - ms * U) ≤ ms * U + 2 ^ 52 * 1000) by nia. nia. }
  assert (0 < q ∧ q < 2 ^ 1024 * unit64) as [Hq0 Hqs].
  { assert (2 ^ 60 * unit64 < 2 ^ 1024 * unit64) as Hbig by (by vm_compute). clear -Hq1 HU Hms Hbig.
    generalize dependent (2 ^ 1024 * unit64). intros T Hbig. generalize dependent unit64. intros U HU Hq1 Hbig. split; nia. }
  destruct (valued_small _ _ Hq Hqs) as [Hqf Hqu]. destruct Hq as [Hqv _].
  assert (f64_pos (f64_div (f64_sub now last) (f64_of_int 1000)) = true) as Hqp by (rewrite pos_units, Hqu by done; by apply Z.ltb_lt).
  destruct (f64_mul_error _ (tb_rate b) Hqv Hrv Hqp Hpos) as (v & Hv & Hve). rewrite Hqu in Hve.
  exists v. split; [done|]. clear -Hve Hq1 HU Hms HR Hq0. generalize dependent R. intros R HR Hve.
  generalize dependent unit64. intros U HU Hq1 Hve.
  assert (0 < q * R) by nia. assert (0 ≤ v) by nia. split; [done|].
  assert (2 ^ 50 * (1000 * q) ≤ (2 ^ 50 + 1) * (ms * U)) as H1 by lia.
  assert (2 ^ 52 * (v * U) ≤ (2 ^ 52 + 1) * (q * R) + 2 ^ 52 * U) as H2 by lia.
  assert (2 ^ 50 * (1000 * q) * R ≤ (2 ^ 50 + 1) * (ms * U) * R) as H3 by (apply Z.mul_le_mono_nonneg_r; lia).
  assert (2 ^ 102 * (1000 * v) * U ≤ ((2 ^ 102 + 2 ^ 53) * (ms * R) + 2 ^ 102 * 1000) * U) as H4.
  { assert (0 ≤ ms * U * R) by nia. lia. }
  apply Z.mul_le_mono_pos_r in H4; lia.
Qed.

(** No time has passed: nothing is added. *)
Lemma refill_nothing now last :
  f64_valid now → f64_valid last → f64_finite now = true → f64_finite last = true → units now = units last → 0 ≤ units last →
  valued 0 (f64_mul (f64_div (f64_sub now last) (f64_of_int 1000)) (tb_rate b)).
Proof.
  intros Hnv Hlv Hnf Hlf Hd Hl0. destruct (f64_sub_between now last) as (Hsv & Hsf & Hsu & _); [done..|lia|].
  rewrite Hd, Z.sub_diag in Hsu. change (rnd53 0) with 0 in Hsu.
  destruct (zero_or_pos _ Hsv Hsf ltac:(lia)) as [[_ [s ->]]|[_ ?]]; [|lia].
  destruct (tb_rate b) as [| | |[] m e]; try done. split; [by destruct s|left; by destruct s].
Qed.

(** The level after a refill: at most the capacity, and at most the exact level, up to rounding. *)
Lemma refill_upper now tokens last ms :
  f64_valid now → f64_finite now = true → tokens_ok b tokens → last_ok now last →
  units now - units last = ms * unit64 → 0 ≤ ms ≤ 2 ^ 53 →
  let X := 1000 * units tokens + ms * R in
  let r := units (refill (tb_capacity b) (tb_rate b) now (tokens, last)) in
  2 ^ 47 * (1000 * r) ≤ 2 ^ 47 * X + 1000 * C + 2 ^ 47 * 1001.
Proof.
  intros Hnv Hnf Htok Hlast Hd Hms X r.
  destruct (refill_ok b now tokens last Hb Hnv Hnf Htok Hlast) as ((_ & _ & Hr) & _). fold r in Hr.
  destruct Htok as (Htv & Htf & Ht), Hlast as (Hlv & Hlf & Hl). destruct rate_positive as (Hrv & Hrf & HR).
  assert (∃ v, valued v (f64_mul (f64_div (f64_sub now last) (f64_of_int 1000)) (tb_rate b)) ∧
    0 ≤ v ∧ 2 ^ 49 * (1000 * v) ≤ (2 ^ 49 + 1) * (ms * R) + 2 ^ 49 * 1000) as (v & Hv & Hv0 & Hve).
  { destruct (decide (ms = 0)) as [->|Hne]; [exists 0; split; [apply refill_nothing; done || lia|lia]|].
    apply refill_error; done || lia. }
  pose proof (bucket_capacity b Hb) as (Hcv & Hcf & Hcp). pose proof (units_bound _ Hcv) as Hcb. fold unit64 in Hcb.
  assert (2 ^ 53 * r ≤ (2 ^ 53 + 1) * (units tokens + v)) as Hrv2.
  { pose proof (rnd53_rel (units tokens + v) ltac:(lia)) as Hrel.
    assert (r ≤ rnd53 (units tokens + v) ∨ r ≤ units tokens + v) as Hor; [|lia].
    unfold r, refill. destruct (bucket_rate b Hb) as [_ ->]. rewrite Hpos. unfold lua_min.
    set (p := f64_mul _ _) in *. destruct Hv as [Hpv [[Hpf <-]|[-> Hinf]]].
    - left. destruct (f64_add_spec tokens p Htv Hpv Htf Hpf) as (Hsv & [[E Hi]|[[E Hi]|[Hsf Hsu]]]).
      + rewrite E. assert (f64_lt (S754_infinity false) (tb_capacity b) = false) as -> by (by destruct (tb_capacity b)). fold unit64 in Hi. lia.
      + pose proof (rnd53_mono 0 (units tokens + units p) ltac:(lia)) as Hm. change (rnd53 0) with 0 in Hm.
        assert (0 < 2 ^ 1024 * 2 ^ 1074) by (by vm_compute). lia.
      + rewrite <-Hsu, f64_lt_units by done. destruct (Z.ltb_spec (units (f64_add tokens p)) C); lia.
    - right. assert (f64_add tokens (S754_infinity false) = S754_infinity false) as -> by (by destruct tokens).
      assert (f64_lt (S754_infinity false) (tb_capacity b) = false) as -> by (by destruct (tb_capacity b)). lia. }
  clear -Hr Hrv2 Hve Hv0 HR Hms Ht Hcp. clearbody r. assert (0 ≤ ms * R) by nia. unfold X.
  destruct (Z.le_gt_cases (1000 * units tokens + ms * R) (2000 * C)); lia.
Qed.

(** What an acquisition leaves together with what it grants. *)
Lemma grant_upper amount avail :
  f64_positive amount → tokens_ok b avail →
  2 ^ 53 * (units (after_grant amount avail) + (if f64_le amount avail then units amount else 0)) ≤ 2 ^ 53 * units avail + C.
Proof.
  intros (Hav & Haf & Hap) (Hv & Hf & Hr). unfold after_grant. rewrite f64_le_units by done.
  destruct (Z.leb_spec (units amount) (units avail)); [|lia].
  destruct (f64_sub_between avail amount) as (_ & _ & -> & _); [done..|lia|].
  pose proof (rnd53_rel (units avail - units amount) ltac:(lia)). lia.
Qed.

(** ** Expiry *)

Lemma units_opp f : f64_valid f → f64_finite f = true → f64_valid (SFopp f) ∧ f64_finite (SFopp f) = true ∧ units (SFopp f) = - units f.
Proof. destruct f as [| | |s m e]; try done. intros Hv _. split; [exact Hv|]. split; [done|]. cbn. destruct s; cbn; lia. Qed.

Lemma ceil_upper f z :
  f64_valid f → f64_finite f = true → 0 ≤ z ≤ 2 ^ 53 → f64_ceil f = f64_of_int z → 2 ^ 53 * units f ≤ (2 ^ 53 + 2) * (z * unit64).
Proof.
  intros Hv Hf Hz E. assert (0 < unit64) as HU by (by unfold unit64). destruct (f64_of_int_exact z ltac:(lia)) as (_ & _ & Hzu). fold unit64 in Hzu.
  destruct f as [s| | |s m e]; try done; [cbn [units]; nia|]. cbn [f64_ceil] in E. set (f := S754_finite s m e) in *.
  destruct (units_opp f Hv Hf) as (Hov & Hof & Hou). rewrite f64_floor_int_units, Hou in E by done. fold unit64 in E.
  destruct (Z.le_gt_cases (units f) 0); [nia|].
  set (c := - (- units f / unit64)) in *. assert (units f ≤ c * unit64) as Hc.
  { unfold c. pose proof (Z.mul_div_le (- units f) unit64 ltac:(lia)). lia. }
  pose proof (f64_of_int_spec c) as Hs. rewrite E in Hs. fold unit64 in Hs. destruct Hs as (_ & [[E' _]|[[E' _]|[_ Hu]]]).
  1,2: destruct (f64_of_int_exact z ltac:(lia)) as (_ & Hfin & _); by rewrite E' in Hfin.
  rewrite Hzu in Hu. pose proof (rnd53_rel (c * unit64) ltac:(lia)). lia.
Qed.

(** The key of the bucket outlives the time a full refill takes. *)
Lemma expiry_long z : expiry_of b z → 1000 * C ≤ z * R.
Proof.
  intros [Hz E]. destruct rate_positive as (Hrv & Hrf & HR). pose proof (bucket_capacity b Hb) as (Hcv & Hcf & Hcp).
  assert (2 ^ 70 < unit64) as HU by (by vm_compute).
  destruct (f64_of_int_exact z ltac:(lia)) as (_ & Hzf & Hzu). fold unit64 in Hzu.
  assert (f64_pos (tb_capacity b) = true) as Hcpos by (rewrite pos_units by done; by apply Z.ltb_lt).
  destruct (f64_div_error _ _ Hcv Hrv Hcpos Hpos) as (d & Hd & Hde). set (q := f64_div (tb_capacity b) (tb_rate b)) in *.
  assert (f64_valid q ∧ f64_nonneg q = true) as [Hqv Hqn] by (apply f64_div_nonneg; [done..|by destruct (tb_capacity b)|done]).
  assert (f64_pos q = true) as Hqp.
  { destruct q as [s|[]| |[] m e]; try done.
    - assert (f64_of_int z = S754_zero s) as Ez by (rewrite <-E; by destruct s). rewrite Ez in Hzu. cbn [units] in Hzu. nia.
    - rewrite <-E in Hzf. discriminate Hzf. }
  assert (units q = d) as Hqd by (apply valued_finite; [done|by destruct q]).
  destruct (f64_of_int_exact 2000 ltac:(lia)) as (H2v & _ & H2u). fold unit64 in H2u.
  destruct (f64_mul_error q (f64_of_int 2000) Hqv H2v Hqp eq_refl) as (m & Hm & Hme). rewrite Hqd, H2u in Hme.
  set (p := f64_mul q (f64_of_int 2000)) in *.
  assert (f64_finite p = true) as Hpf by (destruct Hm as [_ [[? _]|[Ep _]]]; [done|]; rewrite Ep in E; rewrite <-E in Hzf; discriminate Hzf).
  pose proof (ceil_upper p z (proj1 Hm) Hpf ltac:(lia) E) as Hceil. rewrite (valued_finite _ _ Hm Hpf) in Hceil.
  clear -Hceil Hme Hde HU HR Hcp Hz. generalize dependent unit64. intros U HU Hde Hme Hceil.
  destruct (Z.le_gt_cases (1000 * C) R) as [Hle|Hgt]; [nia|].
  assert (2 ^ 52 * Z.abs (m - 2000 * d) ≤ 2000 * d + 2 ^ 52) as Hm2.
  { replace (m * U - d * (2000 * U)) with ((m - 2000 * d) * U) in Hme by ring. rewrite Z.abs_mul, (Z.abs_eq U) in Hme by lia. nia. }
  assert ((2 ^ 51 - 1) * (C * U) - 2 ^ 52 * R ≤ 2 ^ 51 * (d * R)) as Hd2 by lia.
  assert ((2 ^ 52 - 1) * 2000 * (d * R) - 2 ^ 52 * R ≤ 2 ^ 52 * (m * R)) as Hm3.
  { assert ((2 ^ 52 - 1) * 2000 * d - 2 ^ 52 ≤ 2 ^ 52 * m) as Hlin by lia. apply (Z.mul_le_mono_nonneg_r _ _ R) in Hlin; lia. }
  assert (2 ^ 53 * (m * R) ≤ (2 ^ 53 + 2) * (z * R * U)) as Hc2 by (apply (Z.mul_le_mono_nonneg_r _ _ R) in Hceil; lia).
  assert (C * 2 ^ 70 ≤ C * U) as Hsmall by (apply Z.mul_le_mono_nonneg_l; lia).
  assert (1000 * C * U ≤ z * R * U) as Hfin by lia. apply Z.mul_le_mono_pos_r in Hfin; lia.
Qed.

(** ** Sequences of acquisitions *)

(** What the bucket could grant at once: the tokens of a level, the time of its last use in
    milliseconds, and what was refilled since. *)
Definition potential (now tokens last : Z) : Z := 1000 * tokens + (now - last) * R.

(** The database holds nothing of the bucket, or a level whose key outlives a full refill. *)
Definition holds (d : limiter_db) (now pot : Z) : Prop :=
  ld_keys d !! tb_key b = None ∧ ld_expire d !! tb_key b = None ∧ pot = 1000 * C ∨
  ∃ tokens last last_ms at_, stored_as b d tokens last (Some at_) ∧ units last = last_ms * unit64 ∧ last_ms ≤ now ∧
    1000 * C ≤ (at_ - last_ms) * R ∧ pot = potential now (units tokens) last_ms.

(** What the next script reads is worth no more than what the database holds, even if the key
    has expired and the bucket counts as full. *)
Lemma level_potential w pot :
  bucket_inv b w → holds (lw_db w) (rt_ms (lw_time w)) pot →
  ∃ last_ms, units (level b w).2 = last_ms * unit64 ∧ last_ms ≤ rt_ms (lw_time w) ∧
    potential (rt_ms (lw_time w)) (units (level b w).1) last_ms ≤ pot.
Proof.
  intros Hinv Hh. destruct rate_positive as (_ & _ & HR). pose proof (ck_exact _ (bi_clock _ _ Hinv)) as Hck.
  unfold level, bucket_hash, expire_key, potential.
  assert (get_hash (delete (tb_key b) (ld_keys (lw_db w))) (tb_key b) = inr ∅) as Hdel by apply get_hash_delete.
  destruct Hh as [(Hk & He & ->)|(tokens & last & last_ms & at_ & (h & Hg & Ht & Hl & He) & Hu & Hle & Hat & ->)]; rewrite He.
  - unfold get_hash. rewrite Hk. unfold stored. rewrite !lookup_empty. cbn. exists (rt_ms (lw_time w)). split_and!; [done|lia|lia].
  - destruct (Z.ltb_spec at_ (rt_ms (lw_time w))) as [Hlt|Hge]; cbn [ld_keys].
    + rewrite Hdel. unfold stored. rewrite !lookup_empty. cbn. exists (rt_ms (lw_time w)). split_and!; [done|lia|].
      destruct (bi_hash _ _ Hinv) as (h0 & Hg0 & Hok). rewrite Hg in Hg0. injection Hg0 as <-.
      destruct (Hok _ _ Ht Hl) as [(_ & _ & Htok) _]. unfold potential. nia.
    + rewrite Hg. unfold stored. rewrite Ht, Hl. cbn. exists last_ms. split_and!; [done|lia|]. unfold potential. lia.
Qed.

(** The tokens granted since [start] and the potential, as far as the bucket can hold it, are
    within the bound. *)
Record within (start n g : Z) (w : limiter_world) : Prop := {
  wi_bucket : bucket_inv b w;
  wi_bound : ∃ pot, holds (lw_db w) (rt_ms (lw_time w)) pot ∧
    1000 * g + Z.min (1000 * C) pot ≤ 1000 * C + (rt_ms (lw_time w) - start) * R + n * (1000 * rounding)
}.

(** A granted amount and what is left after it are worth what was there, up to rounding. *)
Lemma acquire_potential w amount pot :
  bucket_inv b w → f64_positive amount → holds (lw_db w) (rt_ms (lw_time w)) pot →
  1000 * (units (after_grant amount (available b w)) + (if f64_le amount (available b w) then units amount else 0)) ≤
    Z.min (1000 * C) pot + 1000 * rounding.
Proof.
  intros Hinv Hamt Hh. destruct (level_ok b w Hb Hinv) as (h & _ & _ & Htok & Hlast). pose proof (bi_clock _ _ Hinv) as [Hnv Hnf Hck Hrg].
  destruct (level_potential w pot Hinv Hh) as (last & Hlu & Hle & Hpot). assert (0 < unit64) by (by unfold unit64).
  assert (0 ≤ last) by (destruct Hlast as (_ & _ & ?); nia). unfold potential in Hpot.
  destruct (refill_ok b (script_now (lw_time w)) (level b w).1 (level b w).2 Hb Hnv Hnf Htok Hlast) as (Hav & _).
  pose proof (refill_upper (script_now (lw_time w)) (level b w).1 (level b w).2 (rt_ms (lw_time w) - last) Hnv Hnf Htok Hlast
    ltac:(rewrite Hck, Hlu; lia) ltac:(lia)) as Hr. cbn zeta in Hr. rewrite <-surjective_pairing in Hav, Hr.
  change (refill _ _ _ _) with (available b w) in Hav, Hr.
  pose proof (grant_upper amount (available b w) Hamt Hav) as Hg. pose proof (bucket_capacity b Hb) as (_ & _ & Hcp).
  assert (C < 2 ^ 46 * (C / 2 ^ 46 + 1)) as Hdiv by (pose proof (Z.mul_succ_div_gt C (2 ^ 46) ltac:(lia)); lia).
  unfold rounding. destruct Hav as (_ & _ & Hav). lia.
Qed.

Lemma rounding_nonneg : 0 ≤ rounding.
Proof. pose proof (bucket_capacity b Hb) as (_ & _ & Hcp). unfold rounding. pose proof (Z.div_pos C (2 ^ 46) ltac:(lia) ltac:(lia)). lia. Qed.

(** Time passes. *)
Lemma holds_later d now now' pot :
  holds d now pot → now ≤ now' → ∃ pot', holds d now' pot' ∧ pot' ≤ pot + (now' - now) * R.
Proof.
  intros Hh Hle. destruct rate_positive as (_ & _ & HR). assert (0 ≤ (now' - now) * R) by nia.
  destruct Hh as [(Hk & He & ->)|(tokens & last & last_ms & at_ & Hs & Hu & Hl & Hat & ->)].
  - exists (1000 * C). split; [by left|lia].
  - exists (potential now' (units tokens) last_ms). split; [right|unfold potential; lia].
    exists tokens, last, last_ms, at_. split_and!; done || lia.
Qed.

Lemma holds_other d d' now pot :
  ld_keys d' !! tb_key b = ld_keys d !! tb_key b → ld_expire d' !! tb_key b = ld_expire d !! tb_key b →
  holds d now pot → holds d' now pot.
Proof. unfold holds, stored_as, get_hash. by intros -> ->. Qed.

(** An acquisition. *)
Lemma acquire_within start n g w amount w' r :
  f64_valid amount → Acquire (Some b) amount w = (w', r) → within start n g w → within start (n + 1) (g + granted r amount) w'.
Proof.
  intros Hv E [Hinv (pot & Hh & Hbd)]. pose proof rounding_nonneg as Hrn.
  destruct (f64_le amount (f64_of_int 0) || f64_is_nan amount || f64_is_inf amount)%bool eqn:Eg.
  { unfold Acquire in E. rewrite Eg in E.
    destruct (tb_client b); cbn in E; injection E as <- <-; (split; [done|]); exists pot; (split; [done|]); cbn; lia. }
  apply positive_guard in Eg; [|done].
  destruct (Acquire_spec b amount w Hb Eg Hinv) as (w1 & r1 & E' & Hi & Ht & _ & Hst & Hm). rewrite E in E'. injection E' as <- <-.
  split; [done|]. rewrite Ht. destruct (Hst Hpos) as [[Hd [e ->]]|(z & Hz & Hs)].
  { exists pot. rewrite Hd. split; [done|]. cbn. lia. }
  pose proof (acquire_potential w amount pot Hinv Eg Hh) as Hp. pose proof (expiry_long z Hz) as Hlong.
  pose proof (ck_exact _ (bi_clock _ _ Hinv)) as Hck.
  exists (potential (rt_ms (lw_time w)) (units (after_grant amount (available b w))) (rt_ms (lw_time w))). split.
  - right. eexists _, _, _, _. split; [exact Hs|]. split_and!; [exact Hck|done|lia|done].
  - assert (granted r amount ≤ if f64_le amount (available b w) then units amount else 0) as Hgr.
    { destruct Eg as (_ & _ & ?). destruct (lw_net w) as [|[| |] net];
        [destruct Hm as [_ (res & -> & Hal & _)]|destruct Hm as [_ (res & -> & Hal & _)]|destruct Hm as [_ ->]|destruct Hm as [_ ->]];
        cbn; rewrite ?Hal; destruct (f64_le _ _); lia. }
    unfold potential. lia.
Qed.

Lemma within_step start n P p p' :
  limiter_step b P p p' → within start n p.2 p.1 → within start (n + 1) p'.2 p'.1.
Proof.
  intros Hs Hw. pose proof rounding_nonneg as Hrn. pose proof (limiter_step_inv b P p p' Hb Hs (wi_bucket _ _ _ _ Hw)) as Hinv'.
  destruct Hs as [w g amount w' r _ Hv E|w g t Hck Hle|w g net|w g d Hk He]; cbn [fst snd] in *.
  - by eapply acquire_within.
  - destruct Hw as [Hinv (pot & Hh & Hbd)]. assert (0 < unit64) by (by unfold unit64).
    rewrite (ck_exact _ (bi_clock _ _ Hinv)), (ck_exact _ Hck) in Hle.
    destruct (holds_later _ _ (rt_ms t) _ Hh) as (pot' & Hh' & Hp'); [nia|]. split; [done|]. exists pot'. split; [done|].
    destruct rate_positive as (_ & _ & HR). assert (0 ≤ (rt_ms t - rt_ms (lw_time w)) * R) by nia. cbn. lia.
  - destruct Hw as [_ (pot & Hh & Hbd)]. split; [done|]. exists pot. split; [done|]. cbn. lia.
  - destruct Hw as [_ (pot & Hh & Hbd)]. split; [done|]. exists pot. split; [by eapply holds_other|]. cbn. lia.
Qed.

Lemma within_steps start P p n p' k :
  nsteps (limiter_step b P) n p p' → within start k p.2 p.1 → within start (k + Z.of_nat n) p'.2 p'.1.
Proof.
  intros Hs. revert k. induction Hs as [p|n p p1 p' H1 _ IH]; intros k Hw; [by rewrite Z.add_0_r|].
  replace (k + Z.of_nat (S n)) with ((k + 1) + Z.of_nat n) by lia. by eapply IH, within_step.
Qed.

Lemma potential_nonneg w pot : bucket_inv b w → holds (lw_db w) (rt_ms (lw_time w)) pot → 0 ≤ pot.
Proof.
  intros Hinv Hh. destruct rate_positive as (_ & _ & HR). pose proof (bucket_capacity b Hb) as (_ & _ & Hcp).
  destruct Hh as [(_ & _ & ->)|(tokens & last & last_ms & at_ & (h & Hg & Ht & Hl & _) & _ & Hle & _ & ->)]; [lia|].
  destruct (bi_hash _ _ Hinv) as (h0 & Hg0 & Hok). rewrite Hg in Hg0. injection Hg0 as <-.
  destruct (Hok _ _ Ht Hl) as [(_ & _ & Htok) _]. unfold potential. nia.
Qed.

(** The tokens granted from some point on do not depend on those granted before. *)
Lemma limiter_step_shift P w g w' g' d : limiter_step b P (w, g) (w', g') → limiter_step b P (w, g - d) (w', g' - d).
Proof.
  inversion 1; subst; [|by constructor..].
  match goal with |- context [?x + ?y - d] => replace (x + y - d) with ((x - d) + y) by lia end. by constructor.
Qed.

Lemma limiter_steps_shift P n p p' d :
  nsteps (limiter_step b P) n p p' → nsteps (limiter_step b P) n (p.1, p.2 - d) (p'.1, p'.2 - d).
Proof.
  induction 1 as [p|n [w g] [w1 g1] p' H1 _ IH]; [constructor|]. eapply nsteps_l; [by apply limiter_step_shift|exact IH].
Qed.

(** C8: The bucket limits the rate. For a bucket with a positive rate, acquisitions of any
    amounts by any clients, under any network faults and changes to other keys, while the
    server's clock does not go back: in any stretch of time, the tokens granted are at most
    the capacity and what the rate refills in that time; that the key expires, after which the
    bucket counts as full, does not change this. The doubles of the script add at most 2^-46
    of the capacity and 2^-1072 for each of the [n] steps of the stretch. *)
Theorem rate_limited P w0 w1 g1 w2 g2 n :
  fresh b w0 → rtc (limiter_step b P) (w0, 0) (w1, g1) → nsteps (limiter_step b P) n (w1, g1) (w2, g2) →
  1000 * (g2 - g1) ≤ 1000 * C + (rt_ms (lw_time w2) - rt_ms (lw_time w1)) * R + Z.of_nat n * (1000 * rounding).
Proof.
  intros Hfr [k Hs1]%rtc_nsteps_1 Hs2.
  assert (within (rt_ms (lw_time w0)) (0 + Z.of_nat k) g1 w1) as [Hi1 (pot1 & Hh1 & _)].
  { apply (within_steps _ P (w0, 0) k (w1, g1) 0 Hs1). split; [by apply fresh_inv|]. exists (1000 * C). split; [|cbn; lia].
    left. destruct Hfr. done. }
  apply (limiter_steps_shift _ _ _ _ g1) in Hs2. cbn [fst snd] in Hs2.
  destruct (within_steps (rt_ms (lw_time w1)) P _ n _ 0 Hs2) as [Hi2 (pot2 & Hh2 & Hbd)]; cbn [fst snd] in *.
  - split; [done|]. exists pot1. split; [done|lia].
  - pose proof (potential_nonneg _ _ Hi2 Hh2). pose proof (bucket_capacity b Hb) as (_ & _ & Hcp). lia.
Qed.
End rate.

(** ** Witness *)

(** A bucket of ten tokens refilled at five a second: all ten are taken, the next one is
    refused, and a second later five more are granted. *)
Definition demo_take (k : Z) (w : limiter_world) : limiter_world * result Result := Acquire (Some demo_bucket) (f64_of_int k) w.
Definition later (w : limiter_world) : limiter_world := mkLimiterWorld (lw_db w) (mkTime 1700000001 250000) (lw_net w).
Definition demo_1 := demo_take 10 demo_limiter.
Definition demo_2 := demo_take 1 demo_1.1.
Definition demo_3 := demo_take 5 (later demo_2.1).
Definition demo_granted : Z := 0 + granted demo_1.2 (f64_of_int 10) + granted demo_2.2 (f64_of_int 1) + granted demo_3.2 (f64_of_int 5).

Example demo_all_granted : demo_granted = 15 * unit64.
Proof. vm_compute. reflexivity. Qed.

Lemma demo_window : nsteps (limiter_step demo_bucket f64_valid) 4 (demo_limiter, 0) (demo_3.1, demo_granted).
Proof.
  eapply nsteps_l; [apply (ls_acquire _ _ _ _ (f64_of_int 10) demo_1.1 demo_1.2); [vm_compute; reflexivity..|apply surjective_pairing]|].
  eapply nsteps_l; [apply (ls_acquire _ _ _ _ (f64_of_int 1) demo_2.1 demo_2.2); [vm_compute; reflexivity..|apply surjective_pairing]|].
  eapply nsteps_l; [apply (ls_clock _ _ _ _ (mkTime 1700000001 250000)); [apply clock_ok_time; cbn; lia|vm_compute; discriminate]|].
  apply nsteps_once. apply (ls_acquire _ _ _ _ (f64_of_int 5) demo_3.1 demo_3.2); [vm_compute; reflexivity..|apply surjective_pairing].
Qed.

Lemma rate_limited_witness :
  1000 * (15 * unit64 - 0) ≤ 1000 * (10 * unit64) + 1000 * (5 * unit64) + 4 * (1000 * rounding demo_bucket).
Proof.
  pose proof (rate_limited demo_bucket demo_bucket_ok eq_refl f64_valid demo_limiter demo_limiter 0 demo_3.1 demo_granted 4
    ltac:(constructor; [exact demo_clock|reflexivity|reflexivity]) (rtc_refl _ _) demo_window) as Hr.
  rewrite demo_all_granted in Hr. exact Hr.
Defined.
