(* ===== verification/Facade.v ===== *)
(** * The public packages and the objects they hand out

    The packages [redisstore], [limiter] and [internal/model] rename what other packages
    define; [redisstore.New], [client.NewClient] and the accessors build and read the objects
    that the operations take apart. *)

From S2P Require Import Float.
From S2P Require Import Prelude GoLib Model Storage Redis Keys Codec Store Client Server Bucket.

(** ** [internal/redisstore]: the store *)

(** The type [Store]: the connection and the lease of a claim that names none. *)
Record RedisStore (C : Type) := mkRedisStore { rs_client : C; rs_leaseDuration : Duration }.
Arguments mkRedisStore {C}.
Arguments rs_client {C}.
Arguments rs_leaseDuration {C}.

Section store.
Context {C : Type}.

Definition NewStore (client : C) : RedisStore C := mkRedisStore client Store.New.
Definition Store_Client (s : RedisStore C) : C := rs_client s.
Definition Store_SetLeaseDuration (d : Duration) (s : RedisStore C) : RedisStore C :=
  mkRedisStore (rs_client s) (Store.SetLeaseDuration (rs_leaseDuration s) d).

(** However often its lease is set, a store keeps its connection and a positive lease: that
    of the last positive setting. *)
Lemma store_lease_positive client ds :
  let s := foldl (λ s d, Store_SetLeaseDuration d s) (NewStore client) ds in
  Store_Client s = client ∧ 0 < rs_leaseDuration s ∧
  rs_leaseDuration s = default (30 * Second) (last (filter (λ d, 0 < d) ds)).
Proof.
  induction ds as [|d ds IH] using rev_ind; [done|]. cbn zeta in *. rewrite foldl_app, filter_app. cbn [foldl].
  set (s := foldl _ _ _) in *. destruct IH as (Hc & Hp & Hl). unfold Store_SetLeaseDuration, Store.SetLeaseDuration. cbn [rs_leaseDuration rs_client Store_Client].
  destruct (decide (0 < d)) as [Hd|Hd].
  - rewrite (proj2 (Z.ltb_lt 0 d) Hd), filter_cons_True, filter_nil, last_snoc by done. done.
  - rewrite (proj2 (Z.ltb_ge 0 d)) by lia. rewrite filter_cons_False, filter_nil, app_nil_r by done. done.
Qed.
End store.

(** ** [client]: tasks and the client *)

Definition Task_Type (t : Task) : string := typeName t.
Definition Task_Payload (t : Task) : list Byte.byte := payload t.

(** The type [Client]: whether it has a store, and what its clock and its generator yield. *)
Record Client := mkClient { c_store : bool; c_now : Time; c_newID : result string }.

(** [time.Now] and the random bytes of the next call are arguments. *)
Definition NewClient (store : bool) (now : Time) (random : result (list Byte.byte)) : Client :=
  mkClient store now (randomID random).

(** The methods of a client that may be nil. *)
Definition Enqueue_on {W} `{ClientStore W} (c : option Client) (ctx_err : option error) (task : option Task)
    (opts : list (option Option)) (w : W) : W * result TaskMessage :=
  match c with
  | None => Client_Enqueue None ctx_err 0 (inr "") task opts w
  | Some c => Client_Enqueue (if c_store c then Some tt else None) ctx_err (c_now c) (c_newID c) task opts w
  end.

(** A client creates a task only if it and its store exist, the task has a type, the context
    is not done and random bytes could be read; otherwise the store is not touched. *)
Lemma Enqueue_on_refuses {W} `{ClientStore W} store now random ctx_err task opts (w : W) :
  store = false ∨ task = None ∨ (∃ t, task = Some t ∧ Task_Type t = "") ∨ is_Some ctx_err ∨ (∃ e, random = inl e) →
  ∃ e, Enqueue_on (Some (NewClient store now random)) ctx_err task opts w = (w, inl e).
Proof.
  unfold Enqueue_on, Client_Enqueue, NewClient, randomID, Task_Type. cbn.
  intros [->|[->|[(t & -> & E)|[[e ->]|[e ->]]]]]; [by eexists|by destruct store; eexists| | |].
  - destruct store; [|by eexists]. rewrite E. by eexists.
  - destruct store, task; try by eexists. case_match; by eexists.
  - destruct store, task; try by eexists. case_match; [by eexists|]. destruct ctx_err; by eexists.
Qed.

(** ** [server] *)

Definition server_TaskMessage : Type := TaskMessage.
Definition Server_Concurrency {L} (c : Config L) : Z := Concurrency c.

(** A server that [New] made has at least one worker. *)
Lemma Server_Concurrency_positive {L} (c : Config L) : 0 < Server_Concurrency (applyDefaults c).
Proof. unfold Server_Concurrency, applyDefaults, or_default. cbn. case_match; bool_to_prop; lia. Qed.

(** ** Renamed *)

(** [internal/redisstore]. *)
Definition rdb_ErrNoTask : error := ErrNoTask.
Definition rdb_ErrQueueEmpty : error := ErrQueueEmpty.
Definition rdb_ErrTaskNotFound : error := ErrTaskNotFound.
Definition rdb_ErrTaskExists : error := ErrTaskExists.
Definition rdb_ErrInvalidTransition : error := ErrInvalidTransition.

(** [redisstore]. *)
Definition redisstore_Store : Type → Type := RedisStore.
Definition redisstore_ErrNoTask : error := rdb_ErrNoTask.
Definition redisstore_ErrQueueEmpty : error := rdb_ErrQueueEmpty.
Definition redisstore_ErrTaskNotFound : error := rdb_ErrTaskNotFound.
Definition redisstore_ErrTaskExists : error := rdb_ErrTaskExists.
Definition redisstore_ErrInvalidTransition : error := rdb_ErrInvalidTransition.
Definition redisstore_New {C} : C → RedisStore C := NewStore.
Definition redisstore_TaskKey : string → string → string := TaskKey.
Definition redisstore_PendingKey : string → string := PendingKey.
Definition redisstore_PendingRankKey : string → string := PendingRankKey.
Definition redisstore_SequenceKey : string → string := SequenceKey.
Definition redisstore_ScheduledKey : string → string := ScheduledKey.
Definition redisstore_RetryKey : string → string := RetryKey.
Definition redisstore_ActiveKey : string → string := ActiveKey.
Definition redisstore_LeaseKey : string → string := LeaseKey.
Definition redisstore_ArchivedKey : string → string := ArchivedKey.

(** [internal/model]. *)
Definition model_TaskState : Type := TaskState.
Definition model_TaskMessage : Type := TaskMessage.
Definition model_StatePending : TaskState := StatePending.
Definition model_StateScheduled : TaskState := StateScheduled.
Definition model_StateActive : TaskState := StateActive.
Definition model_StateRetry : TaskState := StateRetry.
Definition model_StateArchived : TaskState := StateArchived.
Definition model_StateCompleted : TaskState := StateCompleted.

(** [limiter]. *)
Definition limiter_Result : Type := Result.
Definition limiter_TokenBucket : Type := TokenBucket.
Definition public_ErrInvalidConfig : error := limiter_ErrInvalidConfig.
Definition limiter_NewTokenBucket : bool → string → float64 → float64 → string + TokenBucket := NewTokenBucket.
Definition limiter_NewScopedTokenBucket : bool → string → float64 → float64 → string + TokenBucket := NewScopedTokenBucket.
Definition limiter_ScopeKey : string → option string := ScopeKey.

(** The errors callers tell apart keep their identity through both packages, and an empty
    queue is recognised by either of its names. *)
Lemma renamed_errors :
  (∀ e, errors_Is e redisstore_ErrTaskExists = errors_Is e ErrTaskExists) ∧
  IsQueueEmpty (Some redisstore_ErrNoTask) = true ∧ IsQueueEmpty (Some redisstore_ErrQueueEmpty) = true ∧
  IsQueueEmpty (Some redisstore_ErrTaskNotFound) = false ∧
  NoDup [redisstore_ErrNoTask; redisstore_ErrQueueEmpty; redisstore_ErrTaskNotFound; redisstore_ErrTaskExists;
         redisstore_ErrInvalidTransition].
Proof.
  split; [done|]. split; [done|]. split; [done|]. split; [done|]. repeat (apply NoDup_cons; split); [..|apply NoDup_nil_2];
    intros Hin; repeat (apply elem_of_cons in Hin as [Hin|Hin]; [discriminate Hin|]); by apply elem_of_nil in Hin.
Qed.
