(* ===== verification/Examples.v ===== *)
(** * The example programs ([examples/])

    The shared command-line and connection helpers ([support.go]), the two simulated handlers
    ([image.go], [signing.go]) and the producers and workers that use them. The environment,
    the answer of Redis to a ping, the clock and the scheduler's choices are arguments. *)

From S2P Require Import Prelude GoLib Float Json JsonStruct Flags Model JsonCodec.
From S2P Require Import Codec Store TaskStore HandlerMux Server Client.
From Stdlib Require Import Ascii.

(** ** [support.go] *)

Definition DefaultRedisAddress : string := "127.0.0.1:6379".
Definition RedisAddressEnv : string := "TASKENGINE_REDIS_ADDR".
Definition RedisPingTimeout : Duration := 5 * Second.

(** [strings.Contains]. *)
Fixpoint Contains (s substr : string) : bool :=
  (String.prefix substr s || match s with String _ s => Contains s substr | EmptyString => false end)%bool.

Record ProducerConfig := mkProducerConfig {
  pc_RedisAddr : string; pc_Queue : string; pc_Input : string; pc_EnqueueDelay : Duration; pc_Duration : Duration;
  pc_Timeout : Duration; pc_MaxRetry : Z; pc_Fail : bool; pc_Invalid : bool
}.

Record WorkerConfig := mkWorkerConfig { wc_RedisAddr : string; wc_RunFor : Duration }.

(** The variables the flags are bound to. *)
Definition producer_flags : list (flag ProducerConfig) :=
  [StringVar "redis-addr" (λ v '(mkProducerConfig _ q i e d t m f n), mkProducerConfig v q i e d t m f n);
   StringVar "queue" (λ v '(mkProducerConfig r _ i e d t m f n), mkProducerConfig r v i e d t m f n);
   StringVar "input" (λ v '(mkProducerConfig r q _ e d t m f n), mkProducerConfig r q v e d t m f n);
   DurationVar "delay" (λ v '(mkProducerConfig r q i _ d t m f n), mkProducerConfig r q i v d t m f n);
   DurationVar "duration" (λ v '(mkProducerConfig r q i e _ t m f n), mkProducerConfig r q i e v t m f n);
   DurationVar "timeout" (λ v '(mkProducerConfig r q i e d _ m f n), mkProducerConfig r q i e d v m f n);
   IntVar "max-retry" (λ v '(mkProducerConfig r q i e d t _ f n), mkProducerConfig r q i e d t v f n);
   BoolVar "fail" (λ v '(mkProducerConfig r q i e d t m _ n), mkProducerConfig r q i e d t m v n);
   BoolVar "invalid" (λ v '(mkProducerConfig r q i e d t m f _), mkProducerConfig r q i e d t m f v)].

Definition worker_flags : list (flag WorkerConfig) :=
  [StringVar "redis-addr" (λ v '(mkWorkerConfig _ d), mkWorkerConfig v d);
   DurationVar "run-for" (λ v '(mkWorkerConfig r _), mkWorkerConfig r v)].

(** The checks after parsing. *)
Definition check_producer (c : ProducerConfig) : option error :=
  if String.eqb (pc_Queue c) "" then Some (errors_New "queue cannot be empty")
  else if String.eqb (pc_Input c) "" then Some (errors_New "input cannot be empty")
  else if pc_EnqueueDelay c <? 0 then
    Some (errors_New ("delay cannot be negative: " +:+ Duration_String (pc_EnqueueDelay c)))
  else if pc_Duration c <? 0 then Some (errors_New ("duration cannot be negative: " +:+ Duration_String (pc_Duration c)))
  else if pc_Timeout c <? 0 then Some (errors_New ("timeout cannot be negative: " +:+ Duration_String (pc_Timeout c)))
  else if pc_MaxRetry c <? 0 then Some (errors_New ("max-retry cannot be negative: " +:+ FormatInt (pc_MaxRetry c)))
  else None.

Section Support.
(** [os.Getenv], and what a ping of an address answers within a timeout. *)
Context (Getenv : string → string) (Ping : Duration → string → option error).

Definition RedisAddress (explicit : string) : string :=
  if negb (String.eqb explicit "") then explicit
  else
    let address := Getenv RedisAddressEnv in
    if negb (String.eqb address "") then address else DefaultRedisAddress.

(** The client is its address; on an error it is closed. *)
Definition OpenRedis (timeout : Duration) (explicit : string) : result string :=
  let address := RedisAddress explicit in
  match Ping timeout address with
  | Some err => inl (Errorf_w ("ping Redis at " +:+ address) err)
  | None => inr address
  end.

Definition ConnectRedis (explicit : string) : result string := OpenRedis RedisPingTimeout explicit.

Definition default_queue (command : string) : string :=
  if Contains command "image" then "image" else if Contains command "c2pa" then "c2pa" else "default".

Definition producer_defaults (command : string) : ProducerConfig :=
  mkProducerConfig (RedisAddress "") (default_queue command) "input.jpg" 0 (300 * Millisecond) 0 3 false false.

Definition ParseProducerConfig (command : string) (args : list string) : result ProducerConfig :=
  match FlagSet_Parse producer_flags args (producer_defaults command) with
  | inl err => inl err
  | inr config => match check_producer config with Some err => inl err | None => inr config end
  end.

Definition ParseWorkerConfig (command : string) (args : list string) : result WorkerConfig :=
  match FlagSet_Parse worker_flags args (mkWorkerConfig (RedisAddress "") 0) with
  | inl err => inl err
  | inr config =>
      if wc_RunFor config <? 0
      then inl (errors_New ("run-for cannot be negative: " +:+ Duration_String (wc_RunFor config)))
      else inr config
  end.
End Support.

Definition FormatMetrics (snapshot : MetricsSnapshot) : string :=
  "metrics processed=" +:+ FormatInt (Processed snapshot) +:+ " failed=" +:+ FormatInt (Failed snapshot) +:+
  " retried=" +:+ FormatInt (Retried snapshot) +:+ " archived=" +:+ FormatInt (Archived snapshot) +:+
  " total_duration=" +:+ Duration_String (TotalDuration snapshot).

(** ** The simulated work *)

(** What happens while a handler waits: when it starts, when its context is cancelled from
    outside, and which case [select] takes when both are ready. *)
Record wait_readings := mkWait { wr_start : Time; wr_cancelled : option Time; wr_timer_first : bool }.

Definition context_Canceled : error := Err (Var "context.Canceled") "context canceled" [].
Definition context_DeadlineExceeded : error := Err (Var "context.DeadlineExceeded") "context deadline exceeded" [].

(** When and with which error the context is done. *)
Definition ctx_done (rd : wait_readings) (ctx : Context) : option (Time * error) :=
  match ctx_err ctx with
  | Some e => Some (wr_start rd, e)
  | None =>
      match ctx_deadline ctx, wr_cancelled rd with
      | None, None => None
      | Some d, None => Some (d, context_DeadlineExceeded)
      | None, Some c => Some (c, context_Canceled)
      | Some d, Some c => if d <=? c then Some (d, context_DeadlineExceeded) else Some (c, context_Canceled)
      end
  end.

(** [time.NewTimer(d)] and the [select] between it and the context: [None] when the timer
    fired. *)
Definition select_timer (rd : wait_readings) (ctx : Context) (d : Duration) : option error :=
  match ctx_done rd ctx with
  | None => None
  | Some (t, e) =>
      let fires := wr_start rd + Z.max 0 d in
      let t := Z.max (wr_start rd) t in
      if fires <? t then None
      else if t <? fires then Some e
      else if wr_timer_first rd then None else Some e
  end.

(** [fmt.Errorf("text: %w", e)] and [fmt.Errorf("text: %w: %w", e1, e2)]. *)
Definition Errorf_ww (prefix : string) (e1 e2 : error) : error :=
  Err Dyn (prefix +:+ ": " +:+ error_text e1 +:+ ": " +:+ error_text e2) [e1; e2].

Definition bytes_text (bs : list Byte.byte) : string := String.string_of_list_byte bs.

(** [time.Duration(ms) * time.Millisecond]. *)
Definition milliseconds (ms : Z) : Duration := wrap64 (ms * Millisecond).

(** *** [image.go] *)

Record image_Payload := mkImage { im_Source : string; im_DurationMS : Z; im_Fail : bool }.

Definition image_tags : list (field (M := image_Payload)) :=
  [("source", store_string (λ v '(mkImage _ d f), mkImage v d f));
   ("duration_ms", store_int (λ v '(mkImage s _ f), mkImage s v f));
   ("fail", store_bool (λ v '(mkImage s d _), mkImage s d v))].

Definition image_json (p : image_Payload) : json :=
  JObj [("source", json_string (im_Source p)); ("duration_ms", json_int (im_DurationMS p)); ("fail", JBool (im_Fail p))].

Definition image_ProcessTask `{JsonErrors} (rd : wait_readings) : Handler := λ ctx msg,
  (msg,
   let text := bytes_text (Payload msg) in
   match unmarshal_struct image_tags text (mkImage "" 0 false) with
   | None => Some (Errorf_ww "decode image payload" (UnmarshalError text) ErrNonRetryable)
   | Some payload =>
       if String.eqb (im_Source payload) "" then Some (Errorf_w "image source is empty" ErrNonRetryable)
       else if im_DurationMS payload <? 0 then Some (Errorf_w "image duration is negative" ErrNonRetryable)
       else
         match select_timer rd ctx (milliseconds (im_DurationMS payload)) with
         | Some err => Some err
         | None => if im_Fail payload then Some (errors_New "simulated image processor failure") else None
         end
   end).

(** *** [signing.go] *)

Record c2pa_Payload := mkC2pa { c2_Asset : string; c2_DurationMS : Z; c2_Fail : bool; c2_Invalid : bool }.

Definition c2pa_tags : list (field (M := c2pa_Payload)) :=
  [("asset", store_string (λ v '(mkC2pa _ d f i), mkC2pa v d f i));
   ("duration_ms", store_int (λ v '(mkC2pa a _ f i), mkC2pa a v f i));
   ("fail", store_bool (λ v '(mkC2pa a d _ i), mkC2pa a d v i));
   ("invalid", store_bool (λ v '(mkC2pa a d f _), mkC2pa a d f v))].

Definition c2pa_json (p : c2pa_Payload) : json :=
  JObj [("asset", json_string (c2_Asset p)); ("duration_ms", json_int (c2_DurationMS p)); ("fail", JBool (c2_Fail p));
        ("invalid", JBool (c2_Invalid p))].

Definition c2pa_ProcessTask `{JsonErrors} (rd : wait_readings) : Handler := λ ctx msg,
  (msg,
   let text := bytes_text (Payload msg) in
   match unmarshal_struct c2pa_tags text (mkC2pa "" 0 false false) with
   | None => Some (Errorf_ww "decode c2pa payload" (UnmarshalError text) ErrNonRetryable)
   | Some payload =>
       if (String.eqb (c2_Asset payload) "" || c2_Invalid payload)%bool
       then Some (Errorf_w "invalid asset for c2pa signing" ErrNonRetryable)
       else
         match select_timer rd ctx (milliseconds (c2_DurationMS payload)) with
         | Some err => Some err
         | None => if c2_Fail payload then Some (errors_New "simulated signing service failure") else None
         end
   end).

(** ** The programs *)

Section Programs.
Context (Getenv : string → string) (Ping : Duration → string → option error).

(** The task a producer creates from its configuration. *)
Definition produce_task {W} `{ClientStore W} (taskType : string) (encode : ProducerConfig → string)
    (config : ProducerConfig) (now : Time) (id : result string) (w : W) : W * result TaskMessage :=
  EnqueueIn (Some tt) None now id (Some (NewTask taskType (String.list_byte_of_string (encode config)) []))
    (pc_EnqueueDelay config)
    [Some (WithQueue (pc_Queue config)); Some (WithMaxRetry (pc_MaxRetry config));
     Some (WithTimeout (pc_Timeout config))] w.

(** [run] of a producer named [command], which makes tasks of the type [taskType] with the
    payload [encode] gives. [now] and [id] are what the client's clock and generator yield. *)
Definition produce {W} `{ClientStore W} (command taskType : string) (encode : ProducerConfig → string)
    (args : list string) (now : Time) (id : result string) (w : W) : W * result TaskMessage :=
  match ParseProducerConfig Getenv command args with
  | inl err => (w, inl err)
  | inr config =>
      match ConnectRedis Getenv Ping (pc_RedisAddr config) with
      | inl err => (w, inl err)
      | inr _ => produce_task taskType encode config now id w
      end
  end.

(** [int(config.Duration / time.Millisecond)]. *)
Definition duration_ms (c : ProducerConfig) : Z := Z.quot (pc_Duration c) Millisecond.

Definition image_payload (c : ProducerConfig) : image_Payload := mkImage (pc_Input c) (duration_ms c) (pc_Fail c).
Definition c2pa_payload (c : ProducerConfig) : c2pa_Payload :=
  mkC2pa (pc_Input c) (duration_ms c) (pc_Fail c) (pc_Invalid c).

Definition image_producer {W} `{ClientStore W} :=
  produce "image-producer" "image:process" (λ c, json_print (image_json (image_payload c))).
Definition c2pa_producer {W} `{ClientStore W} :=
  produce "c2pa-producer" "c2pa:sign" (λ c, json_print (c2pa_json (c2pa_payload c))).

(** The configuration a worker gives to [server.New], and the deadline of the context it
    gives to [RunSignals]. *)
Definition worker_config {L} (queue : string) : Config L :=
  mkConfig 0 {[queue := 1]} 0 0 0 0 0 (f64_of_int 0) 0 0 None (f64_of_int 0).

Definition worker_setup {L} (command queue : string) (args : list string) (now : Time) :
    result (string * Config L * option Time) :=
  match ParseWorkerConfig Getenv command args with
  | inl err => inl err
  | inr config =>
      match ConnectRedis Getenv Ping (wc_RedisAddr config) with
      | inl err => inl err
      | inr address =>
          inr (address, worker_config queue, if 0 <? wc_RunFor config then Some (Add now (wc_RunFor config)) else None)
      end
  end.

Definition image_worker {L} := worker_setup (L := L) "image-worker" "image".
Definition c2pa_worker {L} := worker_setup (L := L) "c2pa-worker" "c2pa".
End Programs.
