(* ===== verification/ExampleTheorems.v ===== *)
(** * What the example programs do

    The command lines accept exactly the valid configurations; what a producer sends is what
    the handler decodes; and a handler's error is non-retryable exactly for bad input. *)

From S2P Require Import Prelude GoLib Float Json TimeText JsonStruct Flags Model JsonCodec.
From S2P Require Import Codec Redis RedisMem Store TaskLifecycle TaskStore HandlerMux Server ServerTheorems Client Examples.
From Stdlib Require Import Ascii.

(** ** Command lines *)

Section Parse.
Context {C : Type} (P : C → Prop) (flags : list (flag C)).
Hypothesis sets : ∀ f value c c', f ∈ flags → P c → fl_set f value c = Some c' → P c'.

(** What every flag preserves, parsing preserves. *)
Lemma FlagSet_Parse_preserves args c c' : P c → FlagSet_Parse flags args c = inr c' → P c'.
Proof.
  assert (∀ name f value c1 c2, find (λ f, String.eqb (fl_name f) name) flags = Some f → P c1 →
    store_value f value c1 = inr c2 → P c2) as Hs.
  { intros name f value c1 c2 [Hf _]%find_some Hc. unfold store_value. case_match eqn:E; [|done]. intros [= <-].
    eapply sets; [by apply list_elem_of_In|exact Hc|exact E]. }
  revert c. induction args as [args IH] using (induction_ltof1 _ (@length string)). unfold ltof in IH.
  intros c Hc. destruct args as [|s args]; cbn [FlagSet_Parse]; [by intros [= <-]|].
  destruct (flag_arg_of s) as [| | |name value]; try by intros [= <-].
  case_match eqn:Ef; [|by repeat case_match]. repeat case_match; try done; subst;
    (eapply IH; [cbn; lia|eapply Hs; [exact Ef|exact Hc|eassumption]]).
Qed.

(** An argument [-name=value]. *)
Lemma FlagSet_Parse_eq name first rest f value args c c' :
  name = String first rest → string_has "=" name = false → Ascii.eqb first "-" = false →
  find (λ f, String.eqb (fl_name f) name) flags = Some f → fl_set f value c = Some c' →
  FlagSet_Parse flags (String "-" (name +:+ String "=" value) :: args) c = FlagSet_Parse flags args c'.
Proof.
  intros Hn He Hd Hf Hs. cbn [FlagSet_Parse].
  assert (flag_arg_of (String "-" (name +:+ String "=" value)) = Flag name (Some value)) as ->.
  { subst name. rewrite string_cons_app. unfold flag_arg_of. change (Ascii.eqb "-" "-") with true. rewrite Hd.
    cbn [negb andb]. cbn [string_has] in He. apply orb_false_elim in He as [Hfe Hre].
    replace (Ascii.eqb first "=") with false by (by rewrite Ascii.eqb_sym, Hfe). rewrite ?Hd. cbn [orb].
    unfold split_eq. rewrite <-string_cons_app, cut_at_app; [done|]. cbn [string_has]. by rewrite Hfe, Hre. }
  rewrite Hf. change (default "true" (Some value)) with value. unfold store_value. rewrite Hs. by destruct (fl_bool f).
Qed.
End Parse.

(** Numbers that are parsed are machine integers. *)
Lemma duration_sum_range n d s r : 0 ≤ d ≤ 2 ^ 63 → duration_sum n d s = Some r → 0 ≤ r ≤ 2 ^ 63.
Proof.
  revert d s. induction n as [|n IH]; intros d s Hd; cbn [duration_sum]; case_match; try by intros [= <-].
  destruct (duration_part s) as [[v t]|]; [|done]. cbn [mbind option_bind]. case_match eqn:E; [done|].
  apply IH. apply Z.ltb_ge in E. pose proof (Z.mod_pos_bound (d + v) (2 ^ 64)). lia.
Qed.

Lemma ParseDuration_int64 s d : ParseDuration s = Some d → int64 d.
Proof.
  unfold ParseDuration. destruct (match s with EmptyString => _ | _ => _ end) as [neg s'].
  case_match; [by intros [= <-]|]. case_match; [done|].
  destruct (duration_sum _ 0 s') as [r|] eqn:E; [|done]. apply duration_sum_range in E; [|lia].
  cbn [mbind option_bind]. destruct neg; [intros [= <-]; apply wrap64_int64|]. case_match eqn:E'; [done|].
  intros [= <-]. apply Z.ltb_ge in E'. unfold int64, MinInt64, MaxInt64. lia.
Qed.

Lemma digit_of_nonneg c d : digit_of c = Some d → 0 ≤ d.
Proof.
  unfold digit_of, is_digit, in_range, digit_value. repeat case_match; try done; intros [= <-];
    match goal with H : (_ && _)%bool = true |- _ => apply andb_prop in H as [?%N.leb_le _] end; lia.
Qed.

Lemma digits_value_nonneg base x s r : 0 ≤ base → 0 ≤ x → digits_value base x s = Some r → 0 ≤ r.
Proof.
  intros Hb. revert x. induction s as [|c s IH]; intros x Hx; cbn [digits_value]; [by intros [= <-]|].
  case_match; [by apply IH|]. destruct (digit_of c) as [d|] eqn:Ed; [|done]. apply digit_of_nonneg in Ed.
  cbn [mbind option_bind]. repeat case_match; try done. apply IH. nia.
Qed.

Lemma ParseInt0_int64 s z : ParseInt0 s = Some z → int64 z.
Proof.
  unfold ParseInt0. destruct (match s with EmptyString => _ | _ => _ end) as [neg s'].
  destruct (ParseUint0 s') as [x|] eqn:E; [|done]. cbn [mbind option_bind].
  assert (0 ≤ x) as Hx.
  { unfold ParseUint0 in E. case_match; [done|]. destruct (number_base s') as [base digits] eqn:Eb.
    destruct (digits_value base 0 digits) as [y|] eqn:Ey; [|done]. cbn [mbind option_bind] in E. case_match; [done|].
    injection E as ->. eapply digits_value_nonneg; [|done|exact Ey]. unfold number_base in Eb. repeat case_match; simplify_eq; lia. }
  unfold int64, MinInt64, MaxInt64. destruct neg; case_match eqn:E'; try done; intros [= <-];
    [apply Z.ltb_ge in E'|apply Z.leb_gt in E']; lia.
Qed.

(** The configurations a producer runs with. *)
Record producer_valid (c : ProducerConfig) : Prop := {
  pv_Queue : pc_Queue c ≠ "";
  pv_Input : pc_Input c ≠ "";
  pv_Delay : 0 ≤ pc_EnqueueDelay c ≤ MaxInt64;
  pv_Duration : 0 ≤ pc_Duration c ≤ MaxInt64;
  pv_Timeout : 0 ≤ pc_Timeout c ≤ MaxInt64;
  pv_MaxRetry : 0 ≤ pc_MaxRetry c ≤ MaxInt64
}.

(** The command line of a configuration. *)
Definition producer_args (c : ProducerConfig) : list string :=
  ["-redis-addr=" +:+ pc_RedisAddr c; "-queue=" +:+ pc_Queue c; "-input=" +:+ pc_Input c;
   "-delay=" +:+ nanoseconds (pc_EnqueueDelay c); "-duration=" +:+ nanoseconds (pc_Duration c);
   "-timeout=" +:+ nanoseconds (pc_Timeout c); "-max-retry=" +:+ FormatInt (pc_MaxRetry c);
   "-fail=" +:+ (if pc_Fail c then "true" else "false"); "-invalid=" +:+ (if pc_Invalid c then "true" else "false")].

Lemma check_producer_nil c :
  check_producer c = None ↔ pc_Queue c ≠ "" ∧ pc_Input c ≠ "" ∧ 0 ≤ pc_EnqueueDelay c ∧ 0 ≤ pc_Duration c ∧
    0 ≤ pc_Timeout c ∧ 0 ≤ pc_MaxRetry c.
Proof.
  unfold check_producer. split.
  - intros H. repeat case_match; bool_to_prop; split_and!; done || lia.
  - intros (? & ? & ? & ? & ? & ?). repeat case_match; bool_to_prop; done || lia.
Qed.

(** The integers of a configuration fit their types. *)
Definition producer_ints (c : ProducerConfig) : Prop :=
  int64 (pc_EnqueueDelay c) ∧ int64 (pc_Duration c) ∧ int64 (pc_Timeout c) ∧ int64 (pc_MaxRetry c).

Lemma producer_flags_ints f value c c' :
  f ∈ producer_flags → producer_ints c → fl_set f value c = Some c' → producer_ints c'.
Proof.
  intros Hf (He & Hd & Ht & Hm) Hs. destruct c as [r q i e d t m fa n].
  repeat (apply elem_of_cons in Hf as [->|Hf]); [cbn in Hs.. |by apply elem_of_nil in Hf];
    repeat match type of Hs with
    | context [ParseDuration ?s] => destruct (ParseDuration s) eqn:E; [apply ParseDuration_int64 in E|done]
    | context [ParseInt0 ?s] => destruct (ParseInt0 s) eqn:E; [apply ParseInt0_int64 in E|done]
    | context [ParseBool ?s] => destruct (ParseBool s) eqn:E; [clear E|done]
    end; cbn in Hs; injection Hs as <-; done.
Qed.

Ltac parse_flag name value c :=
  etrans; [eapply (FlagSet_Parse_eq producer_flags name _ _ _ value _ _ c); [reflexivity..|]|].

Lemma producer_args_parse c0 c :
  producer_ints c → FlagSet_Parse producer_flags (producer_args c) c0 = inr c.
Proof.
  destruct c0 as [r0 q0 i0 e0 d0 t0 m0 f0 n0], c as [r q i e d t m f n]. unfold producer_ints, producer_args.
  cbn [pc_RedisAddr pc_Queue pc_Input pc_EnqueueDelay pc_Duration pc_Timeout pc_MaxRetry pc_Fail pc_Invalid].
  intros (He & Hd & Ht & Hm).
  parse_flag "redis-addr" r (mkProducerConfig r q0 i0 e0 d0 t0 m0 f0 n0); [done|].
  parse_flag "queue" q (mkProducerConfig r q i0 e0 d0 t0 m0 f0 n0); [done|].
  parse_flag "input" i (mkProducerConfig r q i e0 d0 t0 m0 f0 n0); [done|].
  parse_flag "delay" (nanoseconds e) (mkProducerConfig r q i e d0 t0 m0 f0 n0); [cbn; by rewrite ParseDuration_ns|].
  parse_flag "duration" (nanoseconds d) (mkProducerConfig r q i e d t0 m0 f0 n0); [cbn; by rewrite ParseDuration_ns|].
  parse_flag "timeout" (nanoseconds t) (mkProducerConfig r q i e d t m0 f0 n0); [cbn; by rewrite ParseDuration_ns|].
  parse_flag "max-retry" (FormatInt m) (mkProducerConfig r q i e d t m f0 n0); [cbn; by rewrite ParseInt0_FormatInt|].
  parse_flag "fail" (if f then "true" else "false") (mkProducerConfig r q i e d t m f n0); [by destruct f|].
  parse_flag "invalid" (if n then "true" else "false") (mkProducerConfig r q i e d t m f n); [by destruct n|].
  done.
Qed.

Section Configs.
Context (Getenv : string → string) (Ping : Duration → string → option error).

Lemma ParseProducerConfig_valid command args c :
  ParseProducerConfig Getenv command args = inr c → producer_valid c.
Proof.
  unfold ParseProducerConfig. destruct (FlagSet_Parse _ _ _) as [e|c'] eqn:E; [done|].
  apply (FlagSet_Parse_preserves producer_ints _ producer_flags_ints) in E.
  2:{ vm_compute. repeat split; discriminate. }
  destruct (check_producer c') eqn:Ec; [done|]. intros [= <-].
  apply check_producer_nil in Ec as (? & ? & ? & ? & ? & ?). destruct E as (He & Hd & Ht & Hm). unfold int64 in *.
  split; done || lia.
Qed.

(** C39: A producer's command line gives exactly the valid configurations: a non-empty queue
    and input, and non-negative machine integers. Whatever else the arguments are, the
    answer is an error and no configuration. A configuration is valid exactly if the flags that
    name its fields, in Go's notation for durations and integers, are answered by it; and no
    arguments at all are answered by the documented defaults, with the queue of the command and
    the address of the environment. *)
Theorem ParseProducerConfig_exact command c :
  ((∃ args, ParseProducerConfig Getenv command args = inr c) ↔ producer_valid c) ∧
  (producer_valid c ↔ ParseProducerConfig Getenv command (producer_args c) = inr c) ∧
  ParseProducerConfig Getenv command [] = inr (mkProducerConfig
    (if String.eqb (Getenv "TASKENGINE_REDIS_ADDR") "" then "127.0.0.1:6379" else Getenv "TASKENGINE_REDIS_ADDR")
    (default_queue command) "input.jpg" 0 (300 * Millisecond) 0 3 false false).
Proof.
  assert (producer_valid c → ParseProducerConfig Getenv command (producer_args c) = inr c) as Hargs.
  { intros [? ? ? ? ? ?]. unfold ParseProducerConfig. rewrite producer_args_parse.
    - by rewrite (proj2 (check_producer_nil c)) by (split_and!; done || lia).
    - unfold producer_ints, int64, MinInt64. lia. }
  split; [|split].
  - split; [intros [args H]; by eapply ParseProducerConfig_valid|]. eauto.
  - split; [done|]. by apply ParseProducerConfig_valid.
  - unfold ParseProducerConfig. cbn [FlagSet_Parse]. rewrite (proj2 (check_producer_nil _)).
    + unfold producer_defaults, RedisAddress, RedisAddressEnv, DefaultRedisAddress. cbn [String.eqb negb]. by destruct (String.eqb _ _).
    + cbn. split_and!; try done. unfold default_queue. by repeat case_match.
Qed.
End Configs.

(** ** Payloads *)

Lemma image_payload_decodes p :
  utf8_valid (im_Source p) = true → int64 (im_DurationMS p) →
  unmarshal_struct image_tags (json_print (image_json p)) (mkImage "" 0 false) = Some p.
Proof.
  intros Hs Hd. unfold unmarshal_struct. rewrite parse_json_print; [|apply json_ok_members; repeat constructor; eauto with gte|done].
  destruct p as [s d f]. cbn [mbind option_bind store_struct image_json im_Source im_DurationMS im_Fail] in *.
  store_field store_json_string. store_field store_json_int. by store_field store_json_bool.
Qed.

Lemma c2pa_payload_decodes p :
  utf8_valid (c2_Asset p) = true → int64 (c2_DurationMS p) →
  unmarshal_struct c2pa_tags (json_print (c2pa_json p)) (mkC2pa "" 0 false false) = Some p.
Proof.
  intros Hs Hd. unfold unmarshal_struct. rewrite parse_json_print; [|apply json_ok_members; repeat constructor; eauto with gte|done].
  destruct p as [s d f i]. cbn [mbind option_bind store_struct c2pa_json c2_Asset c2_DurationMS c2_Fail c2_Invalid] in *.
  store_field store_json_string. store_field store_json_int. store_field store_json_bool. by store_field store_json_bool.
Qed.

(** ** From the command line to the handler *)

Section Pipeline.
Context (Getenv : string → string) (Ping : Duration → string → option error).
Context {W : Type} `{ClientStore W, JsonErrors}.

(** The message a producer makes. *)
Definition produced (taskType id : string) (now : Time) (text : string) (c : ProducerConfig) : TaskMessage :=
  mkTaskMessage id taskType (String.list_byte_of_string text) (pc_Queue c) 0 (pc_MaxRetry c) 0 (pc_Timeout c) zeroTime
    (Add now (pc_EnqueueDelay c)) StatePending "" "" zeroTime zeroTime now.

(** How a client sends a message that is ready at [RunAt]. *)
Definition send (now : Time) (msg : TaskMessage) (w : W) : W * result TaskMessage :=
  if After (RunAt msg) now then cs_Schedule (set_State StateScheduled msg) w else cs_Enqueue msg w.

Lemma produce_sends command taskType encode args now id w c :
  taskType ≠ "" → ParseProducerConfig Getenv command args = inr c →
  Ping RedisPingTimeout (RedisAddress Getenv (pc_RedisAddr c)) = None →
  produce Getenv Ping command taskType encode args now (inr id) w = send now (produced taskType id now (encode c) c) w.
Proof.
  intros Ht Hp Hping. unfold produce, produce_task. rewrite Hp. unfold ConnectRedis, OpenRedis. rewrite Hping.
  destruct (ParseProducerConfig_valid _ _ _ _ Hp) as [Hq _ Hd _ Hto Hm].
  unfold EnqueueIn, Client_Enqueue, NewTask. cbn [typeName opts payload]. rewrite (proj2 (String.eqb_neq _ _) Ht).
  cbn [app apply_options]. unfold ProcessIn, WithQueue, WithMaxRetry, WithTimeout. cbn [initial_options].
  rewrite (proj2 (Z.ltb_ge _ _)) by lia. rewrite (proj2 (String.eqb_neq _ _) Hq).
  rewrite (proj2 (Z.ltb_ge _ _)) by lia. rewrite (proj2 (Z.ltb_ge _ _)) by lia. done.
Qed.

Lemma duration_ms_spec c :
  producer_valid c → int64 (duration_ms c) ∧ 0 ≤ duration_ms c ∧
  milliseconds (duration_ms c) = pc_Duration c - pc_Duration c mod Millisecond.
Proof.
  intros [_ _ _ Hd _ _]. unfold duration_ms, milliseconds, Millisecond in *. rewrite Z.quot_div_nonneg by lia.
  unfold int64, MinInt64, MaxInt64 in *. assert (0 ≤ pc_Duration c / 10 ^ 6 ≤ 2 ^ 63 - 1) by zdiv_lia.
  split; [lia|]. split; [lia|]. rewrite wrap64_id by (unfold int64, MinInt64, MaxInt64; zdiv_lia). zdiv_lia.
Qed.

(** The simulated work of a configuration: its duration in whole milliseconds, then the
    simulated failure. *)
Definition simulated (failure : string) (rd : wait_readings) (ctx : Context) (c : ProducerConfig) : option error :=
  match select_timer rd ctx (pc_Duration c - pc_Duration c mod Millisecond) with
  | Some e => Some e
  | None => if pc_Fail c then Some (errors_New failure) else None
  end.

Lemma image_runs rd ctx m c :
  producer_valid c → utf8_valid (pc_Input c) = true →
  Payload m = String.list_byte_of_string (json_print (image_json (image_payload c))) →
  image_ProcessTask rd ctx m = (m, simulated "simulated image processor failure" rd ctx c).
Proof.
  intros Hv Hu Hm. destruct (duration_ms_spec c Hv) as (Hi & Hn & Hms).
  unfold image_ProcessTask, bytes_text. f_equal. rewrite Hm, String.string_of_list_byte_of_string.
  rewrite image_payload_decodes by done. cbn [im_Source im_DurationMS im_Fail image_payload].
  rewrite (proj2 (String.eqb_neq _ _) (pv_Input _ Hv)), (proj2 (Z.ltb_ge _ _) Hn), Hms. done.
Qed.

Lemma c2pa_runs rd ctx m c :
  producer_valid c → utf8_valid (pc_Input c) = true →
  Payload m = String.list_byte_of_string (json_print (c2pa_json (c2pa_payload c))) →
  if pc_Invalid c then ∃ e, c2pa_ProcessTask rd ctx m = (m, Some e) ∧ errors_Is e ErrNonRetryable = true
  else c2pa_ProcessTask rd ctx m = (m, simulated "simulated signing service failure" rd ctx c).
Proof.
  intros Hv Hu Hm. destruct (duration_ms_spec c Hv) as (Hi & Hn & Hms).
  unfold c2pa_ProcessTask, bytes_text. rewrite Hm, String.string_of_list_byte_of_string.
  rewrite c2pa_payload_decodes by done. cbn [c2_Asset c2_DurationMS c2_Fail c2_Invalid c2pa_payload].
  rewrite (proj2 (String.eqb_neq _ _) (pv_Input _ Hv)), Hms. destruct (pc_Invalid c); [by eexists|done].
Qed.

(** C21: The producers and the handlers agree. From a command line that is accepted, with Redis
    reachable and an input in UTF-8, the producer sends one message, with the queue, retries
    and timeout of the command line, scheduled for the delay when it is positive. Whatever
    worker gets that payload, the handler does the work the command line describes: it waits
    for the duration in whole milliseconds, or ends with the error of its context, and fails
    exactly when told to; with [-invalid], signing answers a non-retryable error at once. *)
Theorem example_pipeline args now id w c :
  Ping RedisPingTimeout (RedisAddress Getenv (pc_RedisAddr c)) = None → utf8_valid (pc_Input c) = true →
  (ParseProducerConfig Getenv "image-producer" args = inr c →
   ∃ msg, image_producer Getenv Ping args now (inr id) w = send now msg w ∧
     ID msg = id ∧ Queue msg = pc_Queue c ∧ MaxRetry msg = pc_MaxRetry c ∧ Timeout msg = pc_Timeout c ∧
     RunAt msg = now + pc_EnqueueDelay c ∧
     ∀ rd ctx m, Payload m = Payload msg →
       image_ProcessTask rd ctx m = (m, simulated "simulated image processor failure" rd ctx c)) ∧
  (ParseProducerConfig Getenv "c2pa-producer" args = inr c →
   ∃ msg, c2pa_producer Getenv Ping args now (inr id) w = send now msg w ∧
     ID msg = id ∧ Queue msg = pc_Queue c ∧ MaxRetry msg = pc_MaxRetry c ∧ Timeout msg = pc_Timeout c ∧
     RunAt msg = now + pc_EnqueueDelay c ∧
     ∀ rd ctx m, Payload m = Payload msg →
       if pc_Invalid c then ∃ e, c2pa_ProcessTask rd ctx m = (m, Some e) ∧ errors_Is e ErrNonRetryable = true
       else c2pa_ProcessTask rd ctx m = (m, simulated "simulated signing service failure" rd ctx c)).
Proof.
  intros Hping Hutf.
  split; intros Hp; pose proof (ParseProducerConfig_valid _ _ _ _ Hp) as Hv; eexists;
    (split; [by apply produce_sends|]; do 5 (split; [done|])); intros rd ctx m Hm.
  - by apply image_runs.
  - by apply c2pa_runs.
Qed.
End Pipeline.

(** ** Errors *)





Section Errors.
Context {L W : Type} `{TaskStore W, JsonErrors}.




End Errors.

(** The product of a payload's milliseconds overflows: work of 292 years and a millisecond is
    no work at all, although a negative duration is refused. *)
Lemma duration_overflow rd :
  milliseconds 9223372036855 < 0 ∧ select_timer rd (mkContext None None) (milliseconds 9223372036855) =
    select_timer rd (mkContext None None) 0.
Proof.
  split; [by vm_compute|]. unfold select_timer. change (Z.max 0 (milliseconds 9223372036855)) with (Z.max 0 0). done.
Qed.

(** ** Workers *)

(** The server accepts the configuration of a worker and serves exactly its queue. *)
Lemma worker_config_accepted {L} queue :
  validate (applyDefaults (worker_config (L := L) queue)) = None ∧
  server_queues (applyDefaults (worker_config (L := L) queue)) [queue] = [queue] ∧
  Concurrency (applyDefaults (worker_config (L := L) queue)) = 1.
Proof.
  split; [done|]. split; [|done]. unfold applyDefaults, worker_config. cbn [Queues].
  rewrite decide_False by apply map_non_empty_singleton.
  unfold server_queues. cbn [Queues]. unfold sort_queues. cbn. by rewrite lookup_singleton_eq.
Qed.

(** A worker is set up exactly when its arguments give a run time that is not negative and
    Redis answers; it stops by itself exactly when the run time is positive. *)
Lemma worker_setup_deadline {L} Getenv Ping command queue args now address (c : Config L) deadline :
  worker_setup Getenv Ping command queue args now = inr (address, c, deadline) →
  Ping RedisPingTimeout address = None ∧ c = worker_config queue ∧ ∀ t, deadline = Some t → now < t.
Proof.
  unfold worker_setup, ConnectRedis, OpenRedis. destruct (ParseWorkerConfig _ _ _) as [e|wc]; [done|].
  destruct (Ping _ _) as [e|] eqn:Ep; [done|]. intros [= <- <- <-]. split_and!; [done|done|].
  intros t. case_match eqn:E; [|done]. intros [= <-]. apply Z.ltb_lt in E. unfold Add. lia.
Qed.

Example metrics_text :
  FormatMetrics (Snapshot (Some (mkMetrics 3 1 1 0 1500000000))) =
  "metrics processed=3 failed=1 retried=1 archived=0 total_duration=1.5s".
Proof. vm_compute. reflexivity. Qed.

(** ** Witnesses *)

Definition demo_args : list string := ["--input=photo.png"; "-duration"; "1.5ms"; "-fail"; "-delay=2s"].
Definition demo_producer : ProducerConfig :=
  mkProducerConfig "127.0.0.1:6379" "image" "photo.png" (2 * Second) 1500000 0 3 true false.

Lemma example_pipeline_witness :
  ∃ msg, image_producer (λ _, "") (λ _ _, None) demo_args Second (inr "i") (World (H := RedisMem) ∅ []) =
      send Second msg (World (H := RedisMem) ∅ []) ∧ RunAt msg = 3 * Second ∧
    image_ProcessTask (mkWait 0 None true) (mkContext None None) msg =
      (msg, Some (errors_New "simulated image processor failure")).
Proof.
  destruct (example_pipeline (λ _, "") (λ _ _, None) demo_args Second "i" (World (H := RedisMem) ∅ []) demo_producer)
    as [Hi _]; [reflexivity|reflexivity|].
  destruct Hi as (msg & Hs & _ & _ & _ & _ & Hr & Hp); [vm_compute; reflexivity|].
  exists msg. split; [exact Hs|]. split; [exact Hr|]. rewrite (Hp _ _ msg eq_refl). reflexivity.
Defined.


