(* ===== verification/Commands.v ===== *)
(** * The example commands ([examples/*/cmd])

    The producers and workers as programs: what they log, and the code they exit with. The
    server a worker runs is the transition system of [Lifecycle]. Log lines are without the
    time that [log] prefixes. *)

From S2P Require Import Float.
From S2P Require Import Prelude GoLib Json JsonStruct Flags Model Storage Redis RedisMem Codec JsonCodec Store.
From S2P Require Import Requests History StoreTheorems TaskLifecycle TaskStore Backoff HandlerMux Server ServerTheorems Lifecycle Release.
From S2P Require Import Client Examples ExampleTheorems.

(** ** Programs *)

(** [main]: an error of [run] is logged by [log.Fatal], which exits with code 1. *)
Definition main_outcome (run : list string * option error) : list string * Z :=
  match run with
  | (logged, None) => (logged, 0)
  | (logged, Some err) => (logged ++ [error_text err], 1)
  end.

Definition bool_text (b : bool) : string := if b then "true" else "false".

Section programs.
Context (Getenv : string → string) (Ping : Duration → string → option error).

(** *** Producers *)

(** The line a producer logs about the task it created; only the C2PA producer has the flag
    [invalid]. *)
Definition producer_line (label : string) (invalid : bool) (c : ProducerConfig) (msg : TaskMessage) : string :=
  "Redis connected at " +:+ pc_RedisAddr c +:+ "; enqueued " +:+ label +:+ " simulation task " +:+ ID msg +:+
  " queue=" +:+ Queue msg +:+ " delay=" +:+ Duration_String (pc_EnqueueDelay c) +:+
  " duration=" +:+ Duration_String (pc_Duration c) +:+ " fail=" +:+ bool_text (pc_Fail c) +:+
  (if invalid then " invalid=" +:+ bool_text (pc_Invalid c) else "") +:+
  " max_retry=" +:+ FormatInt (pc_MaxRetry c) +:+ " timeout=" +:+ Duration_String (pc_Timeout c).

Definition producer_run {W} `{ClientStore W} (command taskType label : string) (invalid : bool)
    (encode : ProducerConfig → string) (args : list string) (now : Time) (id : result string) (w : W) :
    W * (list string * option error) :=
  match ParseProducerConfig Getenv command args with
  | inl err => (w, ([], Some err))
  | inr config =>
      match ConnectRedis Getenv Ping (pc_RedisAddr config) with
      | inl err => (w, ([], Some err))
      | inr _ =>
          match produce_task taskType encode config now id w with
          | (w, inl err) => (w, ([], Some err))
          | (w, inr msg) => (w, ([producer_line label invalid config msg], None))
          end
      end
  end.

(** [main] of a producer. *)
Definition producer_main {W} (run : W * (list string * option error)) : W * (list string * Z) := (run.1, main_outcome run.2).

Definition image_producer_main {W} `{ClientStore W} args now newID (w : W) : W * (list string * Z) :=
  producer_main (producer_run "image-producer" "image:process" "image" false
    (λ c, json_print (image_json (image_payload c))) args now newID w).
Definition c2pa_producer_main {W} `{ClientStore W} args now newID (w : W) : W * (list string * Z) :=
  producer_main (producer_run "c2pa-producer" "c2pa:sign" "C2PA" true
    (λ c, json_print (c2pa_json (c2pa_payload c))) args now newID w).

(** A producer exits with 0 exactly if it created a task, and logs one line about it; otherwise it
    logs the error. *)
Lemma producer_exit_code {W} `{ClientStore W} command taskType label invalid encode args now newID (w : W) :
  let '(w', (logged, code)) := producer_main (producer_run command taskType label invalid encode args now newID w) in
  match produce Getenv Ping command taskType encode args now newID w with
  | (w1, inr msg) => w' = w1 ∧ code = 0 ∧ ∃ c, logged = [producer_line label invalid c msg]
  | (w1, inl err) => w' = w1 ∧ code = 1 ∧ logged = [error_text err]
  end.
Proof.
  unfold producer_main, producer_run, produce. repeat case_match; simplify_eq; cbn in *; simplify_eq; eauto 10.
Qed.

(** *** Workers *)

Section worker.
Context {L W : Type} `{TaskStore W}.
Context (command queue label : string) (handler : Handler).

Abbreviation config := (applyDefaults (worker_config (L := L) queue)).

(** The server a worker makes, with metrics and an error handler that logs. *)
Definition worker_server (w : W) : Server W := mkServer w (Some NewMetrics) (Some []) ∅.

(** What a worker logs: that it starts, with the address it was given, the errors the server
    reports, and its metrics. *)
Definition worker_log (address : string) (s : Server W) : list string :=
  ("Redis connected at " +:+ address +:+ "; starting " +:+ label +:+ " simulation worker (Ctrl+C to stop)") ::
  ((λ err, "server error: " +:+ error_text err) <$> default [] (srv_errors s)) ++
  [label +:+ " worker " +:+ FormatMetrics (Snapshot (srv_metrics s))].

(** [run] of a worker: [RunSignals] starts the server, waits for a signal, the end of the run
    time or a stop, and shuts the server down; the goroutines of the server act in between. *)
Inductive worker_run (args : list string) (now : Time) (l : L) (w : W) :
    sys (L := L) (W := W) → list string * option error → Prop :=
| worker_refused err :
    worker_setup (L := L) Getenv Ping command queue args now = inl err →
    worker_run args now l w (sys_new l (worker_server w)) ([], Some err)
| worker_served wc address c deadline y0 err0 y1 k y2 err :
    ParseWorkerConfig Getenv command args = inr wc →
    worker_setup Getenv Ping command queue args now = inr (address, c, deadline) →
    Start (applyDefaults c) true (sys_new l (worker_server w)) = (y0, err0) →
    match err0 with
    | Some e => y2 = y0 ∧ err = Some e
    | None =>
        rtc (shutdown_step (applyDefaults c) (server_queues (applyDefaults c) [queue]) handler) (y0, SRunning) (y1, k) ∧
        (∀ e, k ≠ SReturned e) ∧
        shutdown_step (applyDefaults c) (server_queues (applyDefaults c) [queue]) handler (y1, k) (y2, SReturned err)
    end →
    worker_run args now l w y2 (worker_log (wc_RedisAddr wc) (y_srv y2), err).

(** [main] of a worker. *)
Definition worker_main (args : list string) (now : Time) (l : L) (w : W) (y : sys (L := L) (W := W)) (out : list string * Z) : Prop :=
  ∃ run, worker_run args now l w y run ∧ main_outcome run = out.

(** ** What a worker's exit code means *)




End worker.

(** *** On the Redis store *)

Section exit.
Context {L : Type} `{Redis, TaskCodec} (command queue label : string) (handler : Handler).
(** [redisstore.New]. *)
#[local] Instance worker_store : TaskStore world := RedisTaskStore Store.New.

Abbreviation config := (applyDefaults (worker_config (L := L) queue)).


End exit.

Definition c2pa_worker_main {L W} `{TaskStore W} `{JsonErrors} (rd : Context → TaskMessage → wait_readings) :=
  worker_main (L := L) (W := W) "c2pa-worker" "c2pa" "C2PA" (λ ctx msg, c2pa_ProcessTask (rd ctx msg) ctx msg).
End programs.


(** ** Witness *)

(** Two images are to be processed. *)
Definition photo (id : string) : TaskMessage :=
  mkTaskMessage id "image:process" (String.list_byte_of_string (json_print (image_json (mkImage "photo.png" 5 false))))
    "image" 0 3 0 0 zeroTime zeroTime StatePending "" "" zeroTime zeroTime Second.
Definition photo_world : world (H := RedisMem) :=
  World (H := RedisMem) (mem_run [("image", RqEnqueue (photo "a") (enc (photo "a"))); ("image", RqEnqueue (photo "b") (enc (photo "b")))]) [].

#[local] Instance photo_store : TaskStore (world (H := RedisMem)) := RedisTaskStore (H := RedisMem) Store.New.

Definition photo_config : Config unit := applyDefaults (worker_config "image").
Definition photo_handler : Handler := λ ctx msg, image_ProcessTask (mkWait (3 * Second) None true) ctx msg.
Definition photo_turn (byte : Byte.byte) (s : Server (world (H := RedisMem))) : unit * Server world * dispatch_next :=
  dispatch_iteration photo_config ["image"] (3 * Second) (two_readings byte) tt s.
Definition photo_0 : Server (world (H := RedisMem)) := worker_server photo_world.
Definition photo_1 : Server (world (H := RedisMem)) := (photo_turn Byte.x01 photo_0).1.2.
Definition photo_2 : Server (world (H := RedisMem)) := (photo_turn Byte.x02 photo_1).1.2.
Definition photo_a : TaskMessage := job_of (photo_turn Byte.x01 photo_0).2.
Definition photo_b : TaskMessage := job_of (photo_turn Byte.x02 photo_1).2.
Definition photo_done : sys := run_done photo_config photo_handler photo_2 photo_a photo_b test_readings true 0.


Example photo_log :
  worker_log "image" "127.0.0.1:6379" (y_srv photo_done) =
    ["Redis connected at 127.0.0.1:6379; starting image simulation worker (Ctrl+C to stop)";
     "image worker metrics processed=1 failed=0 retried=0 archived=0 total_duration=1s"].
Proof. vm_compute. reflexivity. Qed.



